(* ===== verification/_CoqProject ===== *)
-Q . S2P
Prelude.v
Bytes.v
Storage.v
Codec.v
Log.v
LogSpec.v
LogTheorems.v
FullLog.v
StateMachine.v
SnapshotStore.v
GoStrings.v
GoJson.v
Config.v
Node.v
Election.v
Replication.v
Apply.v
Client.v
ElectionTheorems.v
VoteSafety.v
Lifecycle.v
ElectionSafety.v
Network.v
ReplicationTheorems.v
LogMatching.v
Commitment.v
CommitSafety.v
ApplyTheorems.v
Replicated.v
ClientTheorems.v
Threads.v
ThreadTheorems.v
ApplySchedules.v
Races.v
Durability.v
ReadSafety.v
LifecycleTheorems.v
Server.v
NodeMain.v
Benchmark.v
