(* ===== verification/Prelude.v ===== *)
(** * distributed-kv: a replicated key-value store over Raft

    The repository implements a key-value store that is replicated with the Raft
    consensus algorithm.  This library models it and proves what makes it work,
    and where it does not.

    ** The program and its model

    - internal/storage: the [Engine] interface and its Pebble adapter.  Storage.v
      has the interface as a class, what its clients rely on as the class
      [EngineSpec] (reads return the contents, a write happens as a whole or fails
      without effect, iterators are ordered and bounded), and the adapter, shown to
      keep the contract over a [PebbleDB] parameter.  [MemEngine] is a concrete
      engine with scripted write failures, used in examples.
    - internal/raft/log.go: the persistent log.  Log.v has its operations on a record
      of the Go fields, with the key layout and big-endian keys of Bytes.v and the gob
      encoding of Codec.v.  LogSpec.v has the abstract log [alog], the representation
      [log_rep] and one refinement lemma per operation; LogTheorems.v the theorems.
    - internal/kv: the state machine, in StateMachine.v (module [KV]).
    - internal/raft/snapshot.go, file part: SnapshotStore.v, over a file system whose
      calls fail by a script, with the json encoding of the meta file.
    - internal/raft/state.go and the locked helpers of the other files: Node.v.  [Node]
      is the Go struct; channels are numbers, and [sent] and [closed] record what was
      sent on or closed.
    - election.go: Election.v; replication.go: Replication.v; the node part of
      snapshot.go and applyCommitted of node_lifecycle.go: Apply.v; propose.go,
      readindex.go, rand.go: Client.v.
    - the background loops of node_lifecycle.go, Start and Stop: Lifecycle.v, with
      timers and tickers that have their remaining time.
    - internal/server: Server.v; internal/config: Config.v, over the models of Go's
      strings and strconv (GoStrings.v) and of the reader of encoding/json (GoJson.v).
    - cmd/node: NodeMain.v, which puts the parts together; cmd/benchmark: Benchmark.v.

    What a Go function does while it holds the mutex is one definition.  A function
    that releases the mutex, blocks or makes an RPC is split there, so that other
    operations can run between its parts: [election_begin], [election_step] and
    [election_end] for startElection, [replicate_prepare] and [replicate_reply] for
    replicateToPeer, [propose_start] and [propose_wake] for Propose, and so on; the
    definition with the Go name composes the parts.  Errors are values of [error],
    fallible functions return [result] or an optional error next to the new state, and
    a failed operation returns the state it leaves behind.  Machine integers are [Z]
    with the wrap-around written out.

    ** Interleaved calls

    Threads.v has the calls of one node at the grain of their critical sections: what a
    call does under the node's mutex, or in one call of the log, the state machine or
    the snapshot store, is one step of a thread whose program counter holds the local
    variables ([append_step], [install_step], [follower_step], [leader_step],
    [start_election_step], [snapshot_step], [apply_committed_step], [prepare_step]).  A
    schedule interleaves any number of threads.  [calls_alone] shows that a thread that
    is not interrupted is the definition with the Go name.

    ** The cluster

    ElectionSafety.v has the step relation of a cluster in which vote messages are
    delayed, repeated and lost, nodes restart and writes fail.  Network.v adds every
    message of replication and snapshot transfer that was ever sent ([rcluster],
    [rstep]).  A handler is one step.  A [discipline] says which messages are sent and
    delivered and on which data a node restarts; the theorems name the one they need:
    - [fresh_start] (log matching): no late request for index 1 reaches a compacted log;
    - [careful] (commitment): also, no request of an older term than its sender's is
      sent, no delivered request or snapshot cuts entries that match, none moves the
      commit index past what it vouches for, the term of a delivered request is stored,
      and the writes that install a delivered snapshot succeed;
    - [durable] (one log): also, a node restarts on data that it had before, and can
      read its own snapshot when it installs another one;
    - [serving] (acknowledged writes): also, the node that accepted a proposal neither
      restarts nor installs a snapshot before it answers.
    The deliveries that are excluded are those that the last group of theorems below
    shows to break safety; the conditions on restarts are assumptions on the storage.

    ** What the theorems show

    - LogTheorems.v: any sequence of log operations, with any of them failing, refines
      the abstract log; restart recovers it; reads return it; the tail cache is bounded.
      FullLog.v restates the operations with the compacted entries kept.
    - StateMachine.v, SnapshotStore.v: the store is a finite map; snapshots carry it
      from one store to another and through the files.
    - ElectionTheorems.v: the vote handler and a whole election, branch by branch.
      VoteSafety.v: no operation of a node decreases its term or replaces a vote.
      ElectionSafety.v: at most one leader per term, by an invariant and the
      intersection of majorities.  The writes of a handler that grants a vote are
      taken as successful; two theorems of ElectionTheorems.v show what happens
      without this and without atomic handlers.
    - ReplicationTheorems.v: the commitment rule, the AppendEntries handler, the
      conflict hints and a replication round between a leader and a follower.
    - LogMatching.v: log matching, by giving every term the log of its leader.
      Commitment.v: what a quorum of acknowledgements guarantees, free of node state.
      CommitSafety.v: leader completeness and state machine safety.
    - ApplyTheorems.v: the apply loop computes the effect of the committed entries,
      replicas with agreeing logs hold the same map, snapshot installation and restart.
    - Replicated.v: the cluster implements one sequence of operations.
      Durability.v: an acknowledged write is not lost.  ReadSafety.v: a linearizable
      read returns the values after a prefix of that sequence which has every write
      acknowledged before the read, when the leader has committed an entry of its own
      term; [new_leader_reads_old_commit_index] is the other case.
    - ClientTheorems.v: proposals, reads, timeouts, and the invariant of the channels.
      ThreadTheorems.v: in every interleaving of any calls of a node, channels are used
      at most once and the term and vote in memory are those on disk.
      ApplySchedules.v: the apply loop is not disturbed by votes, an election, proposals,
      reads and answers.
      LifecycleTheorems.v: silence starts an election, a heard leader prevents it,
      committed proposals are answered, Stop ends the loops.
    - Server.v: RPCs are transparent; the meaning of the client statuses.  Config.v:
      what Load accepts and returns.  NodeMain.v: the wiring of a node.
    - Benchmark.v: the counters agree under any interleaving of the workers; the
      percentiles, the keys, and a report that does not depend on map order.
    - Behaviour that departs from what the comments promise is stated as theorems
      too: [AppendEntries_drops_matching_suffix], [Save_failure_mixes],
      [HandleRequestVote_grants_unrecorded], [becomeCandidate_overwrites_granted_vote],
      [heartbeat_commits_conflicting_entry], [stale_request_breaks_compacted_log],
      [new_leader_reads_old_commit_index], [HandleInstallSnapshot_rolls_back],
      [failed_install_acknowledged], [snapshot_reports_dropped_proposal],
      [zero_heartbeat_panics], [idle_seconds_not_averaged], [error_rate_above_one].
      Races.v has the schedules of critical sections that no order of whole calls
      explains: [follower_votes_twice], [unelected_leader], [noop_replaces_proposal],
      [stale_append_cuts_acknowledged], [late_apply_overwrites_snapshot] and
      [stale_message_splits_commit], in which two nodes commit different entries.

    ** Bounds and fuel

    [find_conflict] runs down from the last index to 1 and has the last index as fuel;
    [conflict_start] runs down from the previous index and has it as fuel; [apply_loop]
    has the distance of its two bounds.  [conflict_next_spec], [check_prev_hint] and
    [applyCommitted_spec] show that this is enough.  The JSON reader has the length of
    its text as fuel ([parse_json_fuel]); trimming drops a byte per round; a [uint64]
    has at most twenty digits ([ParseUint_FormatUint]).  The number of turns that
    [apply_among_calls] asks for is nine sections for each entry and one more.  The
    loops over index ranges are the closed form [upto]; [for_le_upto] relates it to the
    loop.  Logs end below 2^64 - 1, so that the successor of an index does not wrap.

    ** What is not modelled

    Pebble and gRPC are parameters, and so are the numbers that random sources draw.
    The generated protobuf code is left out; its messages are records.  Contexts
    appear as the events that they cause, and the two background loops are the only
    part with a clock.  The per-peer goroutines of one broadcast run in the order of
    the peers.  The cluster relations treat a handler as one step: the theorems on whole
    clusters are about runs in which the handlers of one node do not overlap.  The
    code does not rule overlaps out, and Races.v has overlaps that break the
    conclusions.  In Threads.v the reads of the consistency check, of a vote request
    and of the test that an election is won are one section each, and a section under
    the node's mutex is one step, although a call of the log by a goroutine that does
    not hold this mutex could run inside it.  Process signals, flag parsing and the
    printed and JSON reports of the benchmark are left out.  Apart from these, the
    remaining source is declarations and imports. *)

From stdpp Require Export base tactics numbers list gmap strings fin_maps sorting.
From Stdlib Require Export Ascii.
From Stdlib Require String.

(** Machine integers: a Go [uint64] is a [Z] in [0, 2^64); the wrap-around of
    its arithmetic is written out. *)

Declare Scope go_scope.
Delimit Scope go_scope with go.
Open Scope go_scope.
Open Scope Z_scope.

Definition u64_mod : Z := 18446744073709551616.

Definition u64 (x : Z) : Z := x mod u64_mod.

Definition is_u64 (x : Z) : Prop := 0 ≤ x < u64_mod.

(** A Go [int], [int64] or [time.Duration] is a [Z] in [-2^63, 2^63). *)
Definition i64_half : Z := 9223372036854775808.

Definition i64 (x : Z) : Z := (x + i64_half) mod u64_mod - i64_half.

Definition is_i64 (x : Z) : Prop := - i64_half ≤ x < i64_half.

Notation "a ⊞ b" := (u64 (a + b)) (at level 50, left associativity) : go_scope.
Notation "a ⊟ b" := (u64 (a - b)) (at level 50, left associativity) : go_scope.

(** Bytes are 8-bit characters, so that a Go [string] and a [[]byte] hold the
    same elements; [bytes_of] and [string_of] are the two conversions. *)

Abbreviation byte := ascii.
Abbreviation bytes := (list ascii).

Definition bytes_of (s : string) : bytes := String.list_ascii_of_string s.
Definition string_of (b : bytes) : string := String.string_of_list_ascii b.

Definition byte_val (b : byte) : Z := Z.of_N (N_of_ascii b).
Definition byte_of (z : Z) : byte := ascii_of_N (Z.to_N (z mod 256)).

(** The error values that the program creates, compares or propagates. *)

Inductive error :=
  | ErrNotFound                      (* storage.ErrNotFound *)
  | ErrPebbleNotFound                (* pebble.ErrNotFound *)
  | ErrEngine (code : nat)           (* any other error of the storage engine *)
  | ErrCodec                         (* a failed gob or json call *)
  | ErrCompacted (index base : Z)    (* PersistentLog.getLocked *)
  | ErrNotExist                      (* what os.IsNotExist recognises *)
  | ErrOS (op : string)              (* another failed file-system call *)
  | ErrNotLeader
  | ErrProposalDropped
  | ErrReadIndexTimeout
  | ErrDeadlineExceeded              (* context.DeadlineExceeded *)
  | ErrCanceled                      (* context.Canceled *)
  | ErrStopping                      (* "raft: node stopping" *)
  | ErrTransport (peer : string)     (* a failed RPC *)
  | ErrConfig (msg : string)
  | ErrPanic.                        (* a run-time panic: an index out of range *)

#[export] Instance error_eq_dec : EqDecision error.
Proof. solve_decision. Defined.

Inductive result (A : Type) :=
  | Ok (a : A)
  | Err (e : error).
Arguments Ok {A} _.
Arguments Err {A} _.

Notation "'let?' x := r 'in' k" :=
  (match r with Ok x => k | Err e => Err e end)
  (at level 10, x pattern, r at level 100, k at level 200) : go_scope.

Definition is_ok {A} (r : result A) : bool :=
  match r with Ok _ => true | Err _ => false end.

(** What an operation that returned [err] leaves: the old value on an error. *)
Definition after {A} (err : option error) (old new : A) : A :=
  match err with None => new | Some _ => old end.

(** [for i := from; i <= to; i++] over [uint64]: the indices the loop visits,
    with the increment wrapping.  [for_le] bounds the number of iterations by
    its fuel; [upto] is the closed form. *)

Fixpoint for_le (fuel : nat) (i to : Z) : list Z :=
  match fuel with
  | O => []
  | S fuel => if i <=? to then i :: for_le fuel (i ⊞ 1) to else []
  end.

Definition upto (from to : Z) : list Z := seqZ from (to - from + 1).

(** ** Automation *)

Create HintDb gokv.
Create Rewrite HintDb gokv.

Ltac u64_unfold := unfold is_u64, u64, u64_mod in *.

Ltac u64_lia := u64_unfold; Z.div_mod_to_equations; lia.

(** Split a conjunction goal completely and try to close every part. *)
Ltac split_all tac := repeat (split; [tac |]); try tac.

(** Case analysis on the boolean comparisons of integers in the goal or in a
    hypothesis, leaving arithmetic facts. *)
Ltac case_Z :=
  match goal with
  | |- context [?a =? ?b] => destruct (Z.eqb_spec a b)
  | |- context [?a <? ?b] => destruct (Z.ltb_spec a b)
  | |- context [?a <=? ?b] => destruct (Z.leb_spec a b)
  | H : context [?a =? ?b] |- _ => destruct (Z.eqb_spec a b)
  | H : context [?a <? ?b] |- _ => destruct (Z.ltb_spec a b)
  | H : context [?a <=? ?b] |- _ => destruct (Z.leb_spec a b)
  end.

(** ** Facts on machine integers *)

Lemma u64_small x : is_u64 x → u64 x = x.
Proof. intros. unfold u64. apply Z.mod_small, H. Qed.

Lemma u64_range x : is_u64 (u64 x).
Proof. unfold is_u64, u64. apply Z.mod_pos_bound. reflexivity. Qed.

Lemma i64_small x : is_i64 x → i64 x = x.
Proof. unfold is_i64, i64, i64_half. intros. rewrite Z.mod_small; unfold u64_mod; lia. Qed.

Lemma i64_range x : is_i64 (i64 x).
Proof.
  unfold is_i64, i64. pose proof (Z.mod_pos_bound (x + i64_half) u64_mod eq_refl).
  unfold u64_mod, i64_half in *. lia.
Qed.

Lemma i64_add_l x y : i64 (i64 x + y) = i64 (x + y).
Proof.
  unfold i64. f_equal.
  replace ((x + i64_half) mod u64_mod - i64_half + y + i64_half)
    with ((x + i64_half) mod u64_mod + y) by lia.
  rewrite Zplus_mod_idemp_l. f_equal. lia.
Qed.

#[export] Hint Resolve u64_range i64_range : gokv.

(** ** Facts on bytes *)

Lemma byte_val_range b : 0 ≤ byte_val b < 256.
Proof. unfold byte_val. pose proof (N_ascii_bounded b). lia. Qed.

Lemma byte_val_of z : byte_val (byte_of z) = z mod 256.
Proof.
  unfold byte_val, byte_of.
  pose proof (Z.mod_pos_bound z 256 ltac:(lia)).
  rewrite N_ascii_embedding by lia. lia.
Qed.

Lemma byte_of_val b : byte_of (byte_val b) = b.
Proof.
  unfold byte_of. rewrite Z.mod_small by apply byte_val_range.
  unfold byte_val. rewrite N2Z.id. apply ascii_N_embedding.
Qed.

Lemma byte_val_inj b1 b2 : byte_val b1 = byte_val b2 → b1 = b2.
Proof. intros H. rewrite <-(byte_of_val b1), <-(byte_of_val b2). by rewrite H. Qed.

Lemma string_of_bytes_of s : string_of (bytes_of s) = s.
Proof. apply String.string_of_list_ascii_of_string. Qed.

Lemma bytes_of_string_of b : bytes_of (string_of b) = b.
Proof. apply String.list_ascii_of_string_of_list_ascii. Qed.

Lemma bytes_of_inj s1 s2 : bytes_of s1 = bytes_of s2 → s1 = s2.
Proof.
  intros H. rewrite <-(string_of_bytes_of s1), <-(string_of_bytes_of s2). by rewrite H.
Qed.

#[export] Hint Rewrite string_of_bytes_of bytes_of_string_of byte_of_val : gokv.

(** ** The counting loop *)

(** With enough fuel the wrapping loop visits exactly [from .. to], provided
    that [to] is not the largest [uint64] (where the Go loop would not stop). *)
Lemma for_le_upto fuel from to :
  is_u64 from → 0 ≤ to < u64_mod - 1 → (Z.to_nat (to - from + 1) ≤ fuel)%nat →
  for_le fuel from to = upto from to.
Proof.
  unfold upto. revert from. induction fuel as [|fuel IH]; intros from Hf Ht Hfuel; simpl.
  - by rewrite seqZ_nil by lia.
  - case_Z; [|by rewrite seqZ_nil by lia].
    rewrite IH; [..|u64_lia].
    + rewrite u64_small by u64_lia.
      rewrite (seqZ_cons from) by lia. f_equal. f_equal; lia.
    + apply u64_range.
    + done.
Qed.

Lemma elem_of_upto i from to : i ∈ upto from to ↔ from ≤ i ≤ to.
Proof. unfold upto. rewrite elem_of_seqZ. lia. Qed.

Lemma upto_cons from to : from ≤ to → upto from to = from :: upto (from + 1) to.
Proof.
  intros Hle. unfold upto. rewrite seqZ_cons by lia. f_equal. f_equal; lia.
Qed.

Lemma upto_snoc from to : from ≤ to → upto from to = upto from (to - 1) ++ [to].
Proof.
  intros Hle. unfold upto. replace (to - from + 1) with ((to - 1 - from + 1) + 1) by lia.
  rewrite seqZ_app by lia. f_equal. rewrite seqZ_cons by lia. rewrite (seqZ_nil _ (Z.pred 1)) by lia.
  f_equal. lia.
Qed.

Lemma upto_nil from to : to < from → upto from to = [].
Proof. intros. apply seqZ_nil. lia. Qed.

(** ** Counting in lists and positions in sorted lists *)

Section many.
Context {A : Type} (P : A → Prop) `{∀ x, Decision (P x)}.
Implicit Types (l : list A).

Definition many l : Z := Z.of_nat (length (filter P l)).

Lemma many_perm l l' : l ≡ₚ l' → many l = many l'.
Proof. intros Hp. unfold many. by rewrite Hp. Qed.

Lemma many_app l l' : many (l ++ l') = many l + many l'.
Proof. unfold many. rewrite filter_app, length_app. lia. Qed.

Lemma many_le l : 0 ≤ many l ≤ Z.of_nat (length l).
Proof. unfold many. pose proof (length_filter P l). lia. Qed.

Lemma many_all l : (∀ x, x ∈ l → P x) → many l = Z.of_nat (length l).
Proof.
  intros Hall. unfold many. f_equal. induction l as [|x l IH]; [done|].
  rewrite filter_cons_True by set_solver. simpl. rewrite IH; [done|]. set_solver.
Qed.

Lemma many_none l : (∀ x, x ∈ l → ¬ P x) → many l = 0.
Proof.
  intros Hall. unfold many. induction l as [|x l IH]; [done|].
  rewrite filter_cons_False; [apply IH|]; set_solver.
Qed.

End many.

(** The element at a position of the sorted list splits the list around it. *)
Lemma merge_sort_split (l : list Z) k m :
  merge_sort Z.le l !! k = Some m →
  ∃ lo hi, l ≡ₚ lo ++ m :: hi ∧ (∀ x, x ∈ lo → x ≤ m) ∧ (∀ x, x ∈ hi → m ≤ x) ∧ length lo = k.
Proof.
  intros Hm. pose proof (merge_sort_Permutation Z.le l) as Hperm.
  pose proof (StronglySorted_merge_sort Z.le l) as Hs. set (s := merge_sort Z.le l) in *.
  apply take_drop_middle in Hm as Hsplit. apply lookup_lt_Some in Hm.
  rewrite <-Hsplit in Hs. apply StronglySorted_app in Hs as (Hcross & _ & Hs).
  apply StronglySorted_inv in Hs as [_ Hall]. rewrite Forall_forall in Hall.
  exists (take k s), (drop (S k) s). split_and!; [by rewrite Hsplit, Hperm| |done|].
  - intros x Hx. apply Hcross; [done|set_solver].
  - rewrite length_take. lia.
Qed.
