(* ===== verification/Bytes.v ===== *)
(** * Byte strings: big-endian integers, key order and prefix ranges.

    The parts of [encoding/binary] and of Go's slice comparison that
    internal/raft/log.go and internal/kv/state_machine.go use, and their
    [prefixUpperBound]. *)

From S2P Require Import Prelude.

(** ** encoding/binary.BigEndian *)

(** [n] bytes of [z], most significant first (PutUint64 is [be_bytes 8]). *)
Fixpoint be_bytes (n : nat) (z : Z) : bytes :=
  match n with
  | O => []
  | S n => byte_of (z / 256 ^ Z.of_nat n) :: be_bytes n z
  end.

Definition be_val (bs : bytes) : Z :=
  fold_left (λ acc b, acc * 256 + byte_val b) bs 0.

Definition PutUint64 (z : Z) : bytes := be_bytes 8 z.

(** [Uint64] reads the first eight bytes and panics on a shorter slice. *)
Definition Uint64 (b : bytes) : result Z :=
  if (length b <? 8)%nat then Err ErrPanic else Ok (be_val (take 8 b)).

(** ** The byte-wise order of keys *)

Fixpoint bytes_ltb (a b : bytes) : bool :=
  match a, b with
  | _, [] => false
  | [], _ :: _ => true
  | x :: a, y :: b =>
      (byte_val x <? byte_val y) || ((byte_val x =? byte_val y) && bytes_ltb a b)
  end.

Definition bytes_leb (a b : bytes) : bool := negb (bytes_ltb b a).

(** [lo <= k < hi], where no [hi] means no upper bound. *)
Definition in_bounds (lo : bytes) (hi : option bytes) (k : bytes) : bool :=
  bytes_leb lo k && match hi with Some h => bytes_ltb k h | None => true end.

(** ** prefixUpperBound *)

(** The loop runs from the last byte to the first: it increments a byte (with
    wrap-around) and stops at the first one that does not become zero, keeping
    the bytes before it.  [bump_last] runs on the reversed slice. *)
Fixpoint bump_last (rev_upper : bytes) : option bytes :=
  match rev_upper with
  | [] => None
  | b :: rest =>
      let b' := byte_of (byte_val b + 1) in
      if byte_val b' =? 0 then bump_last rest else Some (b' :: rest)
  end.

Definition prefixUpperBound (prefix : bytes) : option bytes :=
  reverse <$> bump_last (reverse prefix).

(** ** Big-endian facts *)

Lemma be_val_fold bs acc :
  fold_left (λ acc b, acc * 256 + byte_val b) bs acc
  = acc * 256 ^ Z.of_nat (length bs) + be_val bs.
Proof.
  unfold be_val. revert acc. induction bs as [|b bs IH]; intros acc; simpl.
  - lia.
  - rewrite (IH (acc * 256 + byte_val b)), (IH (0 * 256 + byte_val b)).
    rewrite Nat2Z.inj_succ, Z.pow_succ_r by lia. lia.
Qed.

Lemma be_val_cons b bs :
  be_val (b :: bs) = byte_val b * 256 ^ Z.of_nat (length bs) + be_val bs.
Proof. unfold be_val at 1. simpl. by rewrite be_val_fold. Qed.

Lemma length_be_bytes n z : length (be_bytes n z) = n.
Proof. revert z. induction n; intros; simpl; auto. Qed.

Lemma be_val_be_bytes n z : be_val (be_bytes n z) = z mod 256 ^ Z.of_nat n.
Proof.
  induction n as [|n IH]; simpl be_bytes.
  - by rewrite Z.mod_1_r.
  - rewrite be_val_cons, IH, byte_val_of, length_be_bytes, Nat2Z.inj_succ.
    assert (0 < 256 ^ Z.of_nat n) by (apply Z.pow_pos_nonneg; lia).
    rewrite Z.pow_succ_r, (Z.mul_comm 256), Z.rem_mul_r by lia. lia.
Qed.

Lemma be_val_range bs : 0 ≤ be_val bs < 256 ^ Z.of_nat (length bs).
Proof.
  induction bs as [|b bs IH]; [unfold be_val; simpl; lia|].
  rewrite be_val_cons. simpl length. rewrite Nat2Z.inj_succ, Z.pow_succ_r by lia.
  pose proof (byte_val_range b). nia.
Qed.

Lemma Uint64_PutUint64 z rest : is_u64 z → Uint64 (PutUint64 z ++ rest) = Ok z.
Proof.
  intros Hz. unfold Uint64, PutUint64.
  rewrite length_app, length_be_bytes.
  destruct (Nat.ltb_spec (8 + length rest) 8); [lia|].
  rewrite take_app_length' by (symmetry; apply length_be_bytes).
  rewrite be_val_be_bytes. f_equal. apply Z.mod_small, Hz.
Qed.

Lemma PutUint64_inj x y : is_u64 x → is_u64 y → PutUint64 x = PutUint64 y → x = y.
Proof.
  intros Hx Hy H. apply (f_equal (λ b, Uint64 (b ++ []))) in H.
  rewrite !Uint64_PutUint64 in H by done. congruence.
Qed.

(** ** Order and prefix facts *)

Lemma bytes_ltb_irrefl a : bytes_ltb a a = false.
Proof. induction a as [|x a IH]; simpl; [done|]. rewrite IH, Z.ltb_irrefl. by destruct (_ =? _). Qed.

Lemma bytes_ltb_nil_r a : bytes_ltb a [] = false.
Proof. by destruct a. Qed.

Lemma bytes_ltb_total a b : bytes_ltb a b = false → bytes_ltb b a = false → a = b.
Proof.
  revert b. induction a as [|x a IH]; intros [|y b]; simpl; intros H1 H2; try done.
  apply orb_false_iff in H1 as [H1 H1'], H2 as [H2 H2'].
  assert (byte_val x = byte_val y) as Heq by lia.
  rewrite Heq, Z.eqb_refl in H1', H2'. simpl in H1', H2'.
  f_equal; [by apply byte_val_inj | by apply IH].
Qed.

Lemma bytes_ltb_trans a b c : bytes_ltb a b = true → bytes_ltb b c = true → bytes_ltb a c = true.
Proof.
  revert b c. induction a as [|x a IH]; intros [|y b] [|z c]; simpl; intros H1 H2; try done.
  apply orb_true_iff in H1, H2. apply orb_true_iff.
  destruct H1 as [H1|[H1 H1']%andb_true_iff], H2 as [H2|[H2 H2']%andb_true_iff];
    try (left; lia).
  right. apply andb_true_iff. split; [lia|eauto].
Qed.

(** Unfolding of the reversed loop from the front of the slice. *)
Lemma bump_last_snoc l b :
  bump_last (l ++ [b]) =
    match bump_last l with
    | Some r => Some (r ++ [b])
    | None => if byte_val b =? 255 then None else Some [byte_of (byte_val b + 1)]
    end.
Proof.
  induction l as [|x l IH]; simpl.
  - rewrite !byte_val_of. pose proof (byte_val_range b).
    repeat case_Z; simpl; try done; exfalso; Z.div_mod_to_equations; lia.
  - by destruct (byte_val (byte_of (byte_val x + 1)) =? 0).
Qed.

Lemma prefixUpperBound_cons b p :
  prefixUpperBound (b :: p) =
    match prefixUpperBound p with
    | Some u => Some (b :: u)
    | None => if byte_val b =? 255 then None else Some [byte_of (byte_val b + 1)]
    end.
Proof.
  unfold prefixUpperBound. rewrite reverse_cons, bump_last_snoc.
  destruct (bump_last (reverse p)); simpl; [by rewrite reverse_app|].
  by destruct (_ =? _).
Qed.

(** The range [[p, prefixUpperBound p)] holds exactly the keys with prefix [p]. *)
Lemma in_bounds_prefix p k :
  in_bounds p (prefixUpperBound p) k = true ↔ p `prefix_of` k.
Proof.
  unfold in_bounds, bytes_leb. revert k. induction p as [|b p IH]; intros k.
  - unfold prefixUpperBound. simpl.
    destruct k; simpl; split; intros; try done; apply prefix_nil.
  - rewrite prefixUpperBound_cons. destruct k as [|c k].
    { simpl. split; [done|]. intros H. by apply prefix_nil_not in H. }
    pose proof (byte_val_range b). pose proof (byte_val_range c).
    assert (b :: p `prefix_of` c :: k ↔ byte_val b = byte_val c ∧ p `prefix_of` k) as ->.
    { split.
      - intros Hp. split; [by apply prefix_cons_inv_1 in Hp as -> | by eapply prefix_cons_inv_2].
      - intros [Hv%byte_val_inj ?]. subst. by apply prefix_cons. }
    rewrite <-IH. clear IH. simpl. destruct (bytes_ltb k p).
    all: destruct (prefixUpperBound p) as [u|]; simpl;
      [destruct (bytes_ltb k u) | destruct (Z.eqb_spec (byte_val b) 255); simpl;
        [|rewrite byte_val_of, Z.mod_small by lia]].
    all: repeat case_Z; simpl; rewrite ?bytes_ltb_nil_r, ?andb_false_r; simpl;
      intuition (lia || congruence).
Qed.
