(* ===== verification/Storage.v ===== *)
(** * internal/storage: the engine contract and its Pebble implementation.

    [Engine] is the Go interface of storage.go; [EngineSpec] is what its
    clients (the Raft log and the state machine) rely on.  Pebble itself is
    third-party code and stays a parameter: [Pebble] lists the calls that
    pebble.go makes and [PebbleSpec] their documented behaviour; the adapter
    [PebbleEngine] is shown to satisfy [EngineSpec].  [MemEngine] is a concrete
    engine, with scripted write failures, on which the witnesses run. *)

From S2P Require Import Prelude Bytes.

(** ** storage.go *)

Record WriteOptions := { Sync : bool }.

(** A [Batch] is the sequence of its writes. *)
Inductive batch_op :=
  | BSet (key value : bytes)
  | BDelete (key : bytes).

Definition apply_op (m : gmap bytes bytes) (op : batch_op) : gmap bytes bytes :=
  match op with
  | BSet k v => <[k := v]> m
  | BDelete k => delete k m
  end.

Definition apply_batch (b : list batch_op) (m : gmap bytes bytes) : gmap bytes bytes :=
  fold_left apply_op b m.

(** An [Iterator] is the list of the pairs that it walks over. *)
Class Engine (E : Type) := {
  eng_Get : E → bytes → result bytes;
  eng_Set : bytes → bytes → WriteOptions → E → option error * E;
  eng_Delete : bytes → WriteOptions → E → option error * E;
  eng_Commit : list batch_op → WriteOptions → E → option error * E;
  eng_NewIterator : E → bytes → option bytes → result (list (bytes * bytes))
}.

Definition key_lt (a b : bytes) : Prop := bytes_ltb a b = true.

(** The contract: reads return the contents ([readable] excludes I/O errors of
    reads), a write either happens as a whole or fails without effect, and an
    iterator walks the bounded range in ascending key order. *)
Class EngineSpec (E : Type) `{Engine E} := {
  contents : E → gmap bytes bytes;
  readable : E → Prop;
  Get_sound e k v : eng_Get e k = Ok v → contents e !! k = Some v;
  Get_spec e k : readable e →
    eng_Get e k = match contents e !! k with Some v => Ok v | None => Err ErrNotFound end;
  Set_spec k v o e err e' : eng_Set k v o e = (err, e') →
    contents e' = after err (contents e) (<[k := v]> (contents e)) ∧ (readable e → readable e');
  Delete_spec k o e err e' : eng_Delete k o e = (err, e') →
    contents e' = after err (contents e) (delete k (contents e)) ∧ (readable e → readable e');
  Commit_spec b o e err e' : eng_Commit b o e = (err, e') →
    contents e' = after err (contents e) (apply_batch b (contents e)) ∧ (readable e → readable e');
  NewIterator_spec e lo hi : readable e →
    ∃ l, eng_NewIterator e lo hi = Ok l ∧ StronglySorted key_lt l.*1 ∧
      ∀ k v, (k, v) ∈ l ↔ contents e !! k = Some v ∧ in_bounds lo hi k = true
}.

(** ** pebble.go *)

Module Pebble.

Inductive write_options := PebbleSync | PebbleNoSync.

(** The calls of github.com/cockroachdb/pebble that the adapter makes.  [db_Get]
    returns the value with the outcome of closing its [Closer]. *)
Class PebbleDB (DB : Type) := {
  db_Get : DB → bytes → result (bytes * option error);
  db_Set : bytes → bytes → write_options → DB → option error * DB;
  db_Delete : bytes → write_options → DB → option error * DB;
  db_Commit : list batch_op → write_options → DB → option error * DB;
  db_NewIter : DB → bytes → option bytes → result (list (bytes * bytes))
}.

(** Pebble's documented behaviour. *)
Class PebbleSpec (DB : Type) `{PebbleDB DB} := {
  db_contents : DB → gmap bytes bytes;
  db_healthy : DB → Prop;
  db_Get_found db k v c : db_Get db k = Ok (v, c) → db_contents db !! k = Some v;
  db_Get_healthy db k : db_healthy db →
    db_Get db k = match db_contents db !! k with
                  | Some v => Ok (v, None) | None => Err ErrPebbleNotFound end;
  db_Set_spec k v o db err db' : db_Set k v o db = (err, db') →
    db_contents db' = after err (db_contents db) (<[k := v]> (db_contents db)) ∧
    (db_healthy db → db_healthy db');
  db_Delete_spec k o db err db' : db_Delete k o db = (err, db') →
    db_contents db' = after err (db_contents db) (delete k (db_contents db)) ∧
    (db_healthy db → db_healthy db');
  db_Commit_spec b o db err db' : db_Commit b o db = (err, db') →
    db_contents db' = after err (db_contents db) (apply_batch b (db_contents db)) ∧
    (db_healthy db → db_healthy db');
  db_NewIter_spec db lo hi : db_healthy db →
    ∃ l, db_NewIter db lo hi = Ok l ∧ StronglySorted key_lt l.*1 ∧
      ∀ k v, (k, v) ∈ l ↔ db_contents db !! k = Some v ∧ in_bounds lo hi k = true
}.

(** Opening a directory and closing the database. *)
Class PebbleProcess (DB : Type) := {
  db_Open : string → result DB;
  db_Close : DB → option error
}.

Record PebbleEngine (DB : Type) := { db : DB }.
Arguments db {DB} _.
Arguments Build_PebbleEngine {DB} _.

Definition syncOpt (opts : WriteOptions) : write_options :=
  if Sync opts then PebbleSync else PebbleNoSync.

Section adapter.
Context {DB : Type} `{PebbleDB DB}.

Definition Get (p : PebbleEngine DB) (key : bytes) : result bytes :=
  match db_Get (db p) key with
  | Err ErrPebbleNotFound => Err ErrNotFound
  | Err err => Err err
  | Ok (v, cerr) =>
      let out := v in
      match cerr with
      | Some cerr => Err cerr
      | None => Ok out
      end
  end.

Definition lift_write (r : option error * DB) : option error * PebbleEngine DB :=
  (r.1, Build_PebbleEngine r.2).

Definition Set_ (key value : bytes) (opts : WriteOptions) (p : PebbleEngine DB) :=
  lift_write (db_Set key value (syncOpt opts) (db p)).

Definition Delete (key : bytes) (opts : WriteOptions) (p : PebbleEngine DB) :=
  lift_write (db_Delete key (syncOpt opts) (db p)).

Definition Commit (b : list batch_op) (opts : WriteOptions) (p : PebbleEngine DB) :=
  lift_write (db_Commit b (syncOpt opts) (db p)).

Definition NewIterator (p : PebbleEngine DB) (lowerBound : bytes) (upperBound : option bytes) :
    result (list (bytes * bytes)) :=
  match db_NewIter (db p) lowerBound upperBound with
  | Err err => Err err
  | Ok it => Ok it
  end.

Definition OpenPebble `{PebbleProcess DB} (dir : string) : result (PebbleEngine DB) :=
  match db_Open dir with
  | Err err => Err err
  | Ok d => Ok (Build_PebbleEngine d)
  end.

Definition Close `{PebbleProcess DB} (p : PebbleEngine DB) : option error := db_Close (db p).

(** A batch collects its writes in order; [Commit] gets the collected list. *)
Definition NewBatch (p : PebbleEngine DB) : list batch_op := [].
Definition batch_Set (key value : bytes) (b : list batch_op) : list batch_op := b ++ [BSet key value].
Definition batch_Delete (key : bytes) (b : list batch_op) : list batch_op := b ++ [BDelete key].

(** The iterator: [NewIterator] has positioned it on the first pair.  [Key] and
    [Value] are only called on a valid iterator. *)
Definition iter_Valid (it : list (bytes * bytes)) : bool :=
  match it with [] => false | _ => true end.
Definition iter_Next (it : list (bytes * bytes)) : list (bytes * bytes) := tail it.
Definition iter_Key (it : list (bytes * bytes)) : bytes := default [] (fst <$> head it).
Definition iter_Value (it : list (bytes * bytes)) : bytes := default [] (snd <$> head it).

#[export] Instance PebbleEngine_Engine : Engine (PebbleEngine DB) := {
  eng_Get := Get;
  eng_Set := Set_;
  eng_Delete := Delete;
  eng_Commit := Commit;
  eng_NewIterator := NewIterator
}.

(** The loop [for ; it.Valid(); it.Next()] of the engine's clients, with a body
    that folds over keys and values; its fuel is the number of pairs. *)
Fixpoint iter_loop {A} (fuel : nat) (body : A → bytes → bytes → A) (acc : A)
    (it : list (bytes * bytes)) : A :=
  match fuel with
  | O => acc
  | S fuel =>
      if iter_Valid it
      then iter_loop fuel body (body acc (iter_Key it) (iter_Value it)) (iter_Next it) else acc
  end.

(** The loop visits the pairs of the list in order, and ends. *)
Lemma iter_loop_foldl {A} fuel (body : A → bytes → bytes → A) acc it :
  (length it ≤ fuel)%nat →
  iter_loop fuel body acc it = foldl (λ a kv, body a kv.1 kv.2) acc it.
Proof.
  revert acc it. induction fuel as [|fuel IH]; intros acc [|[k v] it] Hf; simpl in *; try done; [lia|].
  by apply IH; lia.
Qed.

(** Building a batch write by write and committing it applies the writes in
    the order of the calls. *)
Lemma apply_batch_snoc b op m : apply_batch (b ++ [op]) m = apply_op (apply_batch b m) op.
Proof. unfold apply_batch. by rewrite fold_left_app. Qed.

(** The adapter keeps the engine's contract. *)
#[export] Program Instance PebbleEngine_Spec `{!PebbleSpec DB} : EngineSpec (PebbleEngine DB) := {
  contents := λ p, db_contents (db p);
  readable := λ p, db_healthy (db p)
}.
Next Obligation.
  intros ? e k v. simpl. unfold Get.
  destruct (db_Get (db e) k) as [[v' [c|]]|[]] eqn:Hg;
    intros Hv; try discriminate Hv.
  injection Hv as <-. by eapply db_Get_found.
Qed.
Next Obligation.
  intros ? e k Hh. simpl. unfold Get. rewrite db_Get_healthy by done. by destruct (db_contents (db e) !! k).
Qed.
Next Obligation.
  intros ? k v o e err e' Hs. simpl in *. injection Hs as <- <-.
  by eapply db_Set_spec, surjective_pairing.
Qed.
Next Obligation.
  intros ? k o e err e' Hs. simpl in *. injection Hs as <- <-.
  by eapply db_Delete_spec, surjective_pairing.
Qed.
Next Obligation.
  intros ? b o e err e' Hs. simpl in *. injection Hs as <- <-.
  by eapply db_Commit_spec, surjective_pairing.
Qed.
Next Obligation.
  intros ? e lo hi Hh. simpl. unfold NewIterator.
  destruct (db_NewIter_spec (db e) lo hi Hh) as (l & -> & ?). eauto.
Qed.

End adapter.
End Pebble.

(** ** A concrete engine *)

(** [mem_plan] scripts the outcome of the next writes ([false] is a failure;
    when it is used up, writes succeed); [mem_broken] makes every read fail. *)
Record MemEngine := {
  mem_data : gmap bytes bytes;
  mem_plan : list bool;
  mem_broken : bool
}.

Definition mem_new : MemEngine := {| mem_data := ∅; mem_plan := []; mem_broken := false |}.

Definition mem_write (m' : gmap bytes bytes) (e : MemEngine) : option error * MemEngine :=
  match mem_plan e with
  | false :: p =>
      (Some (ErrEngine 1),
       {| mem_data := mem_data e; mem_plan := p; mem_broken := mem_broken e |})
  | p => (None, {| mem_data := m'; mem_plan := tail p; mem_broken := mem_broken e |})
  end.

Definition pair_le (p q : bytes * bytes) : Prop := bytes_leb p.1 q.1 = true.

#[export] Instance pair_le_dec : RelDecision pair_le.
Proof. intros p q. unfold pair_le. apply _. Defined.

Definition mem_range (e : MemEngine) (lo : bytes) (hi : option bytes) : list (bytes * bytes) :=
  merge_sort pair_le (filter (λ p, in_bounds lo hi p.1 = true) (map_to_list (mem_data e))).

#[export] Instance MemEngine_Engine : Engine MemEngine := {
  eng_Get e k :=
    if mem_broken e then Err (ErrEngine 2)
    else match mem_data e !! k with Some v => Ok v | None => Err ErrNotFound end;
  eng_Set k v _ e := mem_write (<[k := v]> (mem_data e)) e;
  eng_Delete k _ e := mem_write (delete k (mem_data e)) e;
  eng_Commit b _ e := mem_write (apply_batch b (mem_data e)) e;
  eng_NewIterator e lo hi :=
    if mem_broken e then Err (ErrEngine 2) else Ok (mem_range e lo hi)
}.

Lemma mem_write_spec m' e err e' :
  mem_write m' e = (err, e') →
  mem_data e' = after err (mem_data e) m' ∧ mem_broken e' = mem_broken e.
Proof. unfold mem_write. intros H. repeat case_match; by injection H as <- <-. Qed.

Lemma pair_le_total p q : pair_le p q ∨ pair_le q p.
Proof.
  unfold pair_le, bytes_leb. rewrite !negb_true_iff.
  destruct (bytes_ltb p.1 q.1) eqn:H1, (bytes_ltb q.1 p.1) eqn:H2; auto.
  pose proof (bytes_ltb_trans _ _ _ H1 H2) as H3. by rewrite bytes_ltb_irrefl in H3.
Qed.

Lemma pair_le_trans p q r : pair_le p q → pair_le q r → pair_le p r.
Proof.
  unfold pair_le, bytes_leb. rewrite !negb_true_iff. intros H1 H2.
  destruct (bytes_ltb r.1 p.1) eqn:H3; [|done].
  destruct (bytes_ltb p.1 q.1) eqn:H4.
  - by rewrite (bytes_ltb_trans _ _ _ H3 H4) in H2.
  - rewrite (bytes_ltb_total _ _ H4 H1) in H3. congruence.
Qed.

Lemma mem_range_elem e lo hi k v :
  (k, v) ∈ mem_range e lo hi ↔ mem_data e !! k = Some v ∧ in_bounds lo hi k = true.
Proof.
  unfold mem_range. rewrite merge_sort_Permutation, list_elem_of_filter, elem_of_map_to_list.
  simpl. tauto.
Qed.

Lemma mem_range_sorted e lo hi : StronglySorted key_lt (mem_range e lo hi).*1.
Proof.
  assert (NoDup (mem_range e lo hi).*1) as Hnd.
  { unfold mem_range. rewrite merge_sort_Permutation.
    eapply sublist_NoDup; [apply (NoDup_fst_map_to_list (mem_data e))|].
    apply fmap_sublist, sublist_filter. }
  assert (StronglySorted pair_le (mem_range e lo hi)) as Hs.
  { apply StronglySorted_merge_sort; [exact pair_le_trans | exact pair_le_total]. }
  induction Hs as [|p l Hs IH Hall]; simpl in *; [constructor|].
  apply NoDup_cons in Hnd as [Hp Hnd]. constructor; [by apply IH|].
  apply Forall_fmap. apply Forall_forall. intros q Hq. unfold compose, key_lt.
  rewrite Forall_forall in Hall. specialize (Hall q Hq). unfold pair_le, bytes_leb in Hall.
  apply negb_true_iff in Hall. destruct (bytes_ltb p.1 q.1) eqn:Hlt; [done|].
  destruct Hp. rewrite (bytes_ltb_total _ _ Hlt Hall). by apply list_elem_of_fmap_2.
Qed.

#[export] Program Instance MemEngine_Spec : EngineSpec MemEngine := {
  contents := mem_data;
  readable := λ e, mem_broken e = false
}.
Next Obligation.
  intros e k v. simpl. destruct (mem_broken e); [done|]. case_match; congruence.
Qed.
Next Obligation. intros e k Hb. simpl. by rewrite Hb. Qed.
Next Obligation. intros k v o e err e' [Hd Hb]%mem_write_spec. by rewrite Hb. Qed.
Next Obligation. intros k o e err e' [Hd Hb]%mem_write_spec. by rewrite Hb. Qed.
Next Obligation. intros b o e err e' [Hd Hb]%mem_write_spec. by rewrite Hb. Qed.
Next Obligation.
  intros e lo hi Hb. simpl. rewrite Hb. eexists. split; [done|].
  split; [apply mem_range_sorted | intros; apply mem_range_elem].
Qed.

(** An engine on which the next write succeeds. *)
Definition accepts {E} `{Engine E} (e : E) : Prop := ∀ b o, (eng_Commit b o e).1 = None.

(** An engine on which the next [k] commits succeed. *)
Fixpoint accepts_for {E} `{Engine E} (k : nat) (e : E) : Prop :=
  match k with
  | O => True
  | S k => ∀ b o, (eng_Commit b o e).1 = None ∧ accepts_for k (eng_Commit b o e).2
  end.

Lemma mem_accepts_for k e : mem_plan e = [] → accepts_for k e.
Proof.
  revert e. induction k as [|k IH]; intros e Hp; [done|]. intros b o. simpl.
  unfold mem_write. rewrite Hp. simpl. split; [done|]. by apply IH.
Qed.

(** An engine on which the next [k] single writes succeed. *)
Fixpoint writes_for {E} `{Engine E} (k : nat) (e : E) : Prop :=
  match k with
  | O => True
  | S k =>
      (∀ key v o, (eng_Set key v o e).1 = None ∧ writes_for k (eng_Set key v o e).2) ∧
      (∀ key o, (eng_Delete key o e).1 = None ∧ writes_for k (eng_Delete key o e).2)
  end.

Lemma mem_writes_for k e : mem_plan e = [] → writes_for k e.
Proof.
  revert e. induction k as [|k IH]; intros e Hp; [done|].
  split; intros; simpl; unfold mem_write; rewrite Hp; simpl; (split; [done | by apply IH]).
Qed.

Lemma writes_for_S {E} `{Engine E} k (e : E) : writes_for (S k) e → writes_for k e.
Proof.
  revert e. induction k as [|k IH]; intros e; [done|]. intros [Hs Hd].
  split; intros; (split; [apply Hs || apply Hd | apply IH; apply Hs || apply Hd]).
Qed.
