(* ===== verification/Codec.v ===== *)
(** * Log entries and their serialisation.

    The [Entry] type of internal/raft/log.go, the interface of the serialisers
    that the program calls ([encoding/gob], [encoding/json]), and gob's wire
    format for the two values the program encodes with it: an [Entry] and the
    [Pairs] map of a snapshot. *)

From S2P Require Import Prelude Bytes.

(** ** log.go: EntryType and Entry *)

(** [EntryType] is an open enumeration over int32. *)
Definition EntryNoop : Z := 0.
Definition EntryPut : Z := 1.
Definition EntryDelete : Z := 2.

Record Entry := mkEntry {
  Index : Z;
  Term : Z;
  Type_ : Z;
  Key : string;
  Value : bytes;
  ClientRequestID : string
}.

#[export] Instance Entry_eq_dec : EqDecision Entry.
Proof. solve_decision. Defined.

Definition is_i32 (x : Z) : Prop := -2147483648 ≤ x < 2147483648.

(** ** The interface of a serialiser *)

Class Codec (A : Type) := {
  encode : A → result bytes;
  decode : bytes → result A
}.

Class CodecSpec (A : Type) `{Codec A} := {
  decode_encode (a : A) (b : bytes) : encode a = Ok b → decode b = Ok a
}.

Definition encodable {A} `{Codec A} (a : A) : Prop := is_ok (encode a) = true.

(** ** gob's wire format *)

Module Gob.

Definition parser (A : Type) : Type := bytes → option (A * bytes).

(** An unsigned integer below 128 is one byte; otherwise its big-endian bytes
    preceded by their count, negated, as a byte. *)
Definition put_uint (n : Z) : bytes :=
  if n <? 128 then [byte_of n]
  else
    let len := Z.log2 n / 8 + 1 in
    byte_of (256 - len) :: be_bytes (Z.to_nat len) n.

Definition get_uint : parser Z := λ bs,
  match bs with
  | [] => None
  | b :: bs =>
      if byte_val b <? 128 then Some (byte_val b, bs)
      else
        let len := Z.to_nat (256 - byte_val b) in
        if (8 <? len)%nat || (length bs <? len)%nat then None
        else Some (be_val (take len bs), drop len bs)
  end.

(** A signed integer: the sign in the lowest bit, negatives complemented. *)
Definition put_int (i : Z) : bytes := put_uint (if i <? 0 then 2 * (-i - 1) + 1 else 2 * i).

Definition get_int : parser Z := λ bs,
  match get_uint bs with
  | Some (u, bs) => Some (if u mod 2 =? 0 then u / 2 else -(u / 2) - 1, bs)
  | None => None
  end.

Definition put_bytes (b : bytes) : bytes := put_uint (Z.of_nat (length b)) ++ b.

Definition get_bytes : parser bytes := λ bs,
  match get_uint bs with
  | Some (n, bs) =>
      if Z.of_nat (length bs) <? n then None
      else Some (take (Z.to_nat n) bs, drop (Z.to_nat n) bs)
  | None => None
  end.

(** Struct fields, by type; a field with its zero value is not sent. *)
Inductive fty := TUint | TInt | TBytes.
Inductive fval := VUint (n : Z) | VInt (i : Z) | VBytes (b : bytes).

Definition ty (v : fval) : fty :=
  match v with VUint _ => TUint | VInt _ => TInt | VBytes _ => TBytes end.

Definition zero (t : fty) : fval :=
  match t with TUint => VUint 0 | TInt => VInt 0 | TBytes => VBytes [] end.

#[export] Instance fval_eq_dec : EqDecision fval.
Proof. solve_decision. Defined.

Definition put_val (v : fval) : bytes :=
  match v with VUint n => put_uint n | VInt i => put_int i | VBytes b => put_bytes b end.

Definition get_val (t : fty) : parser fval := λ bs,
  match t with
  | TUint => match get_uint bs with Some (n, r) => Some (VUint n, r) | None => None end
  | TInt => match get_int bs with Some (n, r) => Some (VInt n, r) | None => None end
  | TBytes => match get_bytes bs with Some (n, r) => Some (VBytes n, r) | None => None end
  end.

(** A struct is a sequence of (field-number delta, value), ended by a zero
    delta; [delta] counts from the last field sent. *)
Fixpoint put_fields (delta : Z) (vs : list fval) : bytes :=
  match vs with
  | [] => put_uint 0
  | v :: vs =>
      if decide (v = zero (ty v)) then put_fields (delta + 1) vs
      else put_uint delta ++ put_val v ++ put_fields 1 vs
  end.

(** [d] is the delta just read. *)
Fixpoint get_fields (ts : list fty) (d : Z) (bs : bytes) : option (list fval * bytes) :=
  match ts with
  | [] => if d =? 0 then Some ([], bs) else None
  | t :: ts =>
      if d =? 0 then Some (map zero (t :: ts), bs)
      else if d =? 1 then
        match get_val t bs with
        | Some (v, bs) =>
            match get_uint bs with
            | Some (d, bs) =>
                match get_fields ts d bs with
                | Some (vs, bs) => Some (v :: vs, bs)
                | None => None
                end
            | None => None
            end
        | None => None
        end
      else
        match get_fields ts (d - 1) bs with
        | Some (vs, bs) => Some (zero t :: vs, bs)
        | None => None
        end
  end.

Definition put_struct (vs : list fval) : bytes := put_fields 1 vs.

Definition get_struct (ts : list fty) : parser (list fval) := λ bs,
  match get_uint bs with
  | Some (d, bs) => get_fields ts d bs
  | None => None
  end.

(** A map: the number of pairs, then each key and value. *)
Fixpoint put_pairs (l : list (string * bytes)) : bytes :=
  match l with
  | [] => []
  | (k, v) :: l => put_bytes (bytes_of k) ++ put_bytes v ++ put_pairs l
  end.

Fixpoint get_pairs (n : nat) (bs : bytes) : option (list (string * bytes) * bytes) :=
  match n with
  | O => Some ([], bs)
  | S n =>
      match get_bytes bs with
      | Some (k, bs) =>
          match get_bytes bs with
          | Some (v, bs) =>
              match get_pairs n bs with
              | Some (l, bs) => Some ((string_of k, v) :: l, bs)
              | None => None
              end
          | None => None
          end
      | None => None
      end
  end.

(** *** The two values of the program *)

Definition entry_types : list fty := [TUint; TUint; TInt; TBytes; TBytes; TBytes].

Definition entry_fields (e : Entry) : list fval :=
  [VUint (Index e); VUint (Term e); VInt (Type_ e); VBytes (bytes_of (Key e));
   VBytes (Value e); VBytes (bytes_of (ClientRequestID e))].

Definition entry_of_fields (vs : list fval) : option Entry :=
  match vs with
  | [VUint i; VUint t; VInt ty; VBytes k; VBytes v; VBytes c] =>
      Some (mkEntry i t ty (string_of k) v (string_of c))
  | _ => None
  end.

Definition val_ok (v : fval) : bool :=
  match v with
  | VUint n => (0 <=? n) && (n <? u64_mod)
  | VInt i => (-2147483648 <=? i) && (i <? 2147483648)
  | VBytes b => Z.of_nat (length b) <? u64_mod
  end.

Definition pair_ok (p : string * bytes) : bool :=
  (Z.of_nat (length (bytes_of p.1)) <? u64_mod) && (Z.of_nat (length p.2) <? u64_mod).

(** The values that Go's types rule out have no encoding. *)
#[export] Instance Entry_codec : Codec Entry := {
  encode e :=
    if forallb val_ok (entry_fields e) then Ok (put_struct (entry_fields e)) else Err ErrCodec;
  decode bs :=
    match get_struct entry_types bs with
    | Some (vs, _) => match entry_of_fields vs with Some e => Ok e | None => Err ErrCodec end
    | None => Err ErrCodec
    end
}.

#[export] Instance Pairs_codec : Codec (gmap string bytes) := {
  encode m :=
    let l := map_to_list m in
    if forallb pair_ok l && (Z.of_nat (length l) <? u64_mod)
    then Ok (put_uint (Z.of_nat (length l)) ++ put_pairs l) else Err ErrCodec;
  decode bs :=
    match get_uint bs with
    | Some (n, bs) =>
        match get_pairs (Z.to_nat n) bs with
        | Some (l, _) => Ok (list_to_map l)
        | None => Err ErrCodec
        end
    | None => Err ErrCodec
    end
}.

(** *** Round trips *)

#[local] Arguments put_uint : simpl never.
#[local] Arguments get_uint : simpl never.
#[local] Arguments put_int : simpl never.
#[local] Arguments put_bytes : simpl never.

Lemma get_put_uint n r : is_u64 n → get_uint (put_uint n ++ r) = Some (n, r).
Proof.
  intros Hn. unfold put_uint, get_uint. case_Z; simpl.
  - rewrite byte_val_of, Z.mod_small by u64_lia. case_Z; [done|lia].
  - set (len := Z.log2 n / 8 + 1).
    assert (7 ≤ Z.log2 n < 64) as Hlog.
    { split; [apply Z.log2_le_pow2; lia | apply Z.log2_lt_pow2; u64_lia]. }
    assert (1 ≤ len ≤ 8) as Hlen by (unfold len; Z.div_mod_to_equations; lia).
    rewrite byte_val_of, Z.mod_small by lia. case_Z; [lia|].
    replace (256 - (256 - len)) with len by lia.
    rewrite length_app, length_be_bytes.
    destruct (Nat.ltb_spec 8 (Z.to_nat len)); [lia|].
    destruct (Nat.ltb_spec (Z.to_nat len + length r) (Z.to_nat len)); [lia|]. simpl.
    rewrite take_app_length', drop_app_length' by (symmetry; apply length_be_bytes).
    rewrite be_val_be_bytes, Z.mod_small; [done|].
    rewrite Z2Nat.id by lia. split; [lia|].
    change 256 with (2 ^ 8). rewrite <-Z.pow_mul_r by lia.
    apply Z.log2_lt_pow2; [lia|]. unfold len. Z.div_mod_to_equations; lia.
Qed.

Lemma get_put_int i r : is_i32 i → get_int (put_int i ++ r) = Some (i, r).
Proof.
  unfold is_i32. intros Hi. unfold put_int, get_int.
  rewrite get_put_uint by (case_Z; u64_lia).
  repeat case_Z; f_equal; f_equal; Z.div_mod_to_equations; lia.
Qed.

Lemma get_put_bytes b r : Z.of_nat (length b) < u64_mod → get_bytes (put_bytes b ++ r) = Some (b, r).
Proof.
  intros Hb. unfold get_bytes, put_bytes. rewrite <-app_assoc.
  rewrite get_put_uint by (unfold is_u64; lia).
  rewrite length_app. case_Z; [lia|]. rewrite Nat2Z.id.
  by rewrite take_app_length, drop_app_length.
Qed.

Lemma get_put_val v r : val_ok v = true → get_val (ty v) (put_val v ++ r) = Some (v, r).
Proof.
  destruct v; simpl; intros Hok.
  - rewrite get_put_uint by (unfold is_u64; lia). done.
  - rewrite get_put_int by (unfold is_i32; lia). done.
  - rewrite get_put_bytes by lia. done.
Qed.

Lemma get_fields_end ts bs : get_fields ts 0 bs = Some (map zero ts, bs).
Proof. by destruct ts. Qed.

(** Reading back what [put_fields] wrote: the first delta is zero, or it skips
    at least [delta - 1] fields more than the ones still to be read. *)
Lemma get_put_fields vs delta r :
  forallb val_ok vs = true → 1 ≤ delta → delta + Z.of_nat (length vs) < 128 →
  ∃ d bs, get_uint (put_fields delta vs ++ r) = Some (d, bs) ∧ (d = 0 ∨ delta ≤ d) ∧
    get_fields (map ty vs) (if d =? 0 then 0 else d - delta + 1) bs = Some (vs, r).
Proof.
  revert delta. induction vs as [|v vs IH]; intros delta Hok Hd Hb; simpl in *.
  - exists 0, r. change (byte_of 0 :: r) with (put_uint 0 ++ r).
    rewrite get_put_uint by u64_lia. auto.
  - apply andb_true_iff in Hok as [Hv Hok]. case_decide as Hz.
    + destruct (IH (delta + 1)) as (d & bs & Hg & Hcase & Hf); [done|lia|lia|].
      exists d, bs. split; [done|]. split; [lia|].
      destruct (Z.eqb_spec d 0); simpl.
      * assert (vs = map zero (map ty vs) ∧ bs = r) as [Hvs ->].
        { rewrite get_fields_end in Hf. by injection Hf as -> ->. }
        by rewrite <-Hz, <-Hvs.
      * destruct (Z.eqb_spec (d - delta + 1) 0); [lia|].
        destruct (Z.eqb_spec (d - delta + 1) 1); [lia|].
        replace (d - delta + 1 - 1) with (d - (delta + 1) + 1) by lia.
        by rewrite Hf, <-Hz.
    + exists delta, (put_val v ++ put_fields 1 vs ++ r).
      rewrite <-!app_assoc, get_put_uint by u64_lia. split; [done|]. split; [lia|].
      destruct (Z.eqb_spec delta 0); [lia|].
      replace (delta - delta + 1) with 1 by lia. simpl.
      rewrite get_put_val by done.
      destruct (IH 1) as (d & bs & -> & Hcase & Hf); [done|lia|lia|].
      replace (if d =? 0 then 0 else d - 1 + 1) with d in Hf by (case_Z; lia).
      by rewrite Hf.
Qed.

Lemma get_put_struct vs r :
  forallb val_ok vs = true → Z.of_nat (length vs) < 127 →
  get_struct (map ty vs) (put_struct vs ++ r) = Some (vs, r).
Proof.
  intros Hok Hlen. unfold get_struct, put_struct.
  destruct (get_put_fields vs 1 r) as (d & bs & -> & Hcase & Hf); [done|lia|lia|].
  by replace (if d =? 0 then 0 else d - 1 + 1) with d in Hf by (case_Z; lia).
Qed.

Lemma get_put_pairs l r :
  forallb pair_ok l = true → get_pairs (length l) (put_pairs l ++ r) = Some (l, r).
Proof.
  induction l as [|[k v] l IH]; intros Hok; simpl in *; [done|].
  apply andb_true_iff in Hok as [[Hk Hv]%andb_true_iff Hok].
  rewrite <-!app_assoc, get_put_bytes by (simpl in *; lia).
  rewrite get_put_bytes by (simpl in *; lia). rewrite IH by done.
  by rewrite string_of_bytes_of.
Qed.

#[export] Program Instance Entry_codec_spec : CodecSpec Entry.
Next Obligation.
  intros e b. simpl. case_match eqn:Hok; [|done]. intros [= <-].
  pose proof (get_put_struct (entry_fields e) [] Hok) as Hg.
  rewrite app_nil_r in Hg. change (map ty (entry_fields e)) with entry_types in Hg.
  rewrite Hg by (simpl; lia). simpl. rewrite !string_of_bytes_of. by destruct e.
Qed.

#[export] Program Instance Pairs_codec_spec : CodecSpec (gmap string bytes).
Next Obligation.
  intros m b. simpl. case_match eqn:Hok; [|done]. intros [= <-].
  apply andb_true_iff in Hok as [Hok Hlen].
  rewrite get_put_uint by (unfold is_u64; lia). rewrite Nat2Z.id.
  pose proof (get_put_pairs (map_to_list m) [] Hok) as Hg. rewrite app_nil_r in Hg.
  by rewrite Hg, list_to_map_to_list.
Qed.

End Gob.
