(* ===== verification/Log.v ===== *)
(** * internal/raft/log.go: the persistent Raft log.

    [PersistentLog] holds the in-memory index of the log (boundaries, current
    term and vote, the tail cache) over a storage engine.  The mutex of the Go
    type makes every operation atomic, so each one is a function on the record;
    an operation that can fail returns the error next to the new record, which
    also carries what a failing operation has already changed. *)

From S2P Require Import Prelude Bytes Storage Codec.

(** ** Key layout *)

Definition logPrefix : bytes := bytes_of "l/".
Definition keyTerm : bytes := bytes_of "m/currentTerm".
Definition keyVotedFor : bytes := bytes_of "m/votedFor".
Definition keyLastIncludedIndex : bytes := bytes_of "m/lastIncludedIndex".
Definition keyLastIncludedTerm : bytes := bytes_of "m/lastIncludedTerm".

Definition logKey (index : Z) : bytes := logPrefix ++ PutUint64 index.

Definition indexFromLogKey (k : bytes) : result Z :=
  if (length k <? length logPrefix)%nat then Err ErrPanic
  else Uint64 (drop (length logPrefix) k).

(** ** State *)

Record PersistentLog (E : Type) := mkLog {
  engine : E;
  firstIndex : Z;
  lastIndex : Z;
  lastIncludedIndex : Z;
  lastIncludedTerm : Z;
  currentTerm : Z;
  votedFor : string;
  tailCache : gmap Z Entry;
  tailCacheLimit : Z
}.
Arguments mkLog {E}.
Arguments engine {E}.
Arguments firstIndex {E}.
Arguments lastIndex {E}.
Arguments lastIncludedIndex {E}.
Arguments lastIncludedTerm {E}.
Arguments currentTerm {E}.
Arguments votedFor {E}.
Arguments tailCache {E}.
Arguments tailCacheLimit {E}.

Section log.
Context {E : Type} `{Engine E} `{Codec Entry}.
Implicit Types (pl : PersistentLog E).

Definition set_engine (e : E) pl : PersistentLog E :=
  mkLog e (firstIndex pl) (lastIndex pl) (lastIncludedIndex pl) (lastIncludedTerm pl)
    (currentTerm pl) (votedFor pl) (tailCache pl) (tailCacheLimit pl).

Definition set_indexes (first last : Z) pl : PersistentLog E :=
  mkLog (engine pl) first last (lastIncludedIndex pl) (lastIncludedTerm pl)
    (currentTerm pl) (votedFor pl) (tailCache pl) (tailCacheLimit pl).

Definition set_boundary (index term : Z) pl : PersistentLog E :=
  mkLog (engine pl) (firstIndex pl) (lastIndex pl) index term
    (currentTerm pl) (votedFor pl) (tailCache pl) (tailCacheLimit pl).

Definition set_term_vote (term : Z) (vote : string) pl : PersistentLog E :=
  mkLog (engine pl) (firstIndex pl) (lastIndex pl) (lastIncludedIndex pl)
    (lastIncludedTerm pl) term vote (tailCache pl) (tailCacheLimit pl).

Definition set_cache (c : gmap Z Entry) pl : PersistentLog E :=
  mkLog (engine pl) (firstIndex pl) (lastIndex pl) (lastIncludedIndex pl)
    (lastIncludedTerm pl) (currentTerm pl) (votedFor pl) c (tailCacheLimit pl).

(** ** OpenPersistentLog *)

(** A metadata counter: zero when the key is absent. *)
Definition load_uint64 (e : E) (key : bytes) : result Z :=
  match eng_Get e key with
  | Ok v => Uint64 v
  | Err ErrNotFound => Ok 0
  | Err err => Err err
  end.

Definition load_string (e : E) (key : bytes) : result string :=
  match eng_Get e key with
  | Ok v => Ok (string_of v)
  | Err ErrNotFound => Ok ""%string
  | Err err => Err err
  end.

(** The iterator loop: the largest index seen, if above [last]. *)
Fixpoint scan_last (it : list (bytes * bytes)) (last : Z) : result Z :=
  match it with
  | [] => Ok last
  | (k, _) :: it =>
      let? idx := indexFromLogKey k in
      scan_last it (if last <? idx then idx else last)
  end.

Definition OpenPersistentLog (e : E) : result (PersistentLog E) :=
  let? term := load_uint64 e keyTerm in
  let? vote := load_string e keyVotedFor in
  let? li := load_uint64 e keyLastIncludedIndex in
  let? lt := load_uint64 e keyLastIncludedTerm in
  let? it := eng_NewIterator e logPrefix (prefixUpperBound logPrefix) in
  let? last := scan_last it li in
  Ok (mkLog e (li ⊞ 1) last li lt term vote ∅ 4096).

(** ** Metadata *)

Definition SetTermAndVote (term : Z) (vote : string) pl : option error * PersistentLog E :=
  let b := [BSet keyTerm (PutUint64 term); BSet keyVotedFor (bytes_of vote)] in
  let '(err, e) := eng_Commit b {| Sync := true |} (engine pl) in
  match err with
  | Some err => (Some err, set_engine e pl)
  | None => (None, set_term_vote term vote (set_engine e pl))
  end.

(** ** Accessors *)

Definition CurrentTerm pl : Z := currentTerm pl.
Definition VotedFor pl : string := votedFor pl.
Definition LastIndex pl : Z := lastIndex pl.
Definition FirstIndex pl : Z := firstIndex pl.
Definition LastIncludedIndexAndTerm pl : Z * Z := (lastIncludedIndex pl, lastIncludedTerm pl).

(** ** Reads *)

Definition getLocked (index : Z) pl : result Entry :=
  if index <=? lastIncludedIndex pl then Err (ErrCompacted index (lastIncludedIndex pl))
  else
    let? v := eng_Get (engine pl) (logKey index) in
    decode v.

Definition LastTerm pl : Z :=
  if lastIndex pl =? lastIncludedIndex pl then lastIncludedTerm pl
  else
    match tailCache pl !! lastIndex pl with
    | Some e => Term e
    | None =>
        match getLocked (lastIndex pl) pl with
        | Ok entry => Term entry
        | Err _ => 0
        end
    end.

(** [TermAt]: [None] is Go's [(0, false)]. *)
Definition TermAt (index : Z) pl : option Z :=
  if index =? lastIncludedIndex pl then Some (lastIncludedTerm pl)
  else if (index <? firstIndex pl) || (lastIndex pl <? index) then None
  else
    match tailCache pl !! index with
    | Some e => Some (Term e)
    | None =>
        match getLocked index pl with
        | Ok entry => Some (Term entry)
        | Err _ => None
        end
    end.

Definition Get (index : Z) pl : result Entry :=
  match tailCache pl !! index with
  | Some e => Ok e
  | None => getLocked index pl
  end.

Fixpoint read_all (indexes : list Z) pl : result (list Entry) :=
  match indexes with
  | [] => Ok []
  | i :: indexes =>
      let? e := Get i pl in
      let? es := read_all indexes pl in
      Ok (e :: es)
  end.

Definition Range (from to : Z) pl : result (list Entry) :=
  if to <? from then Ok [] else read_all (upto from to) pl.

(** ** Writes *)

Definition delete_keys (indexes : list Z) : list batch_op :=
  (λ i, BDelete (logKey i)) <$> indexes.

Definition drop_cached (indexes : list Z) (c : gmap Z Entry) : gmap Z Entry :=
  foldl (λ c i, delete i c) c indexes.

Definition cache_all (entries : list Entry) (c : gmap Z Entry) : gmap Z Entry :=
  foldl (λ c e, <[Index e := e]> c) c entries.

Fixpoint set_keys (entries : list Entry) : result (list batch_op) :=
  match entries with
  | [] => Ok []
  | e :: entries =>
      let? buf := encode e in
      let? ops := set_keys entries in
      Ok (BSet (logKey (Index e)) buf :: ops)
  end.

Definition evictTailCacheLocked pl : PersistentLog E :=
  if Z.of_nat (size (tailCache pl)) <=? tailCacheLimit pl then pl
  else
    let threshold := lastIndex pl ⊟ u64 (tailCacheLimit pl) in
    set_cache (filter (λ p, ¬ p.1 < threshold) (tailCache pl)) pl.

Definition AppendEntries (entries : list Entry) (sync : bool) pl :
    option error * PersistentLog E :=
  match entries with
  | [] => (None, pl)
  | e0 :: _ =>
      let firstNewIndex := Index e0 in
      let old := if firstNewIndex <=? lastIndex pl then upto firstNewIndex (lastIndex pl) else [] in
      let pl := set_cache (drop_cached old (tailCache pl)) pl in
      match set_keys entries with
      | Err err => (Some err, pl)
      | Ok sets =>
          let '(err, e) := eng_Commit (delete_keys old ++ sets) {| Sync := sync |} (engine pl) in
          let pl := set_engine e pl in
          match err with
          | Some err => (Some err, pl)
          | None =>
              let pl := set_cache (cache_all entries (tailCache pl)) pl in
              let pl := evictTailCacheLocked pl in
              let lastNew := Index (List.last entries e0) in
              let first1 :=
                if lastIncludedIndex pl ⊞ 1 <? firstIndex pl
                then lastIncludedIndex pl ⊞ 1 else firstIndex pl in
              let first2 := if first1 =? 0 then firstNewIndex else first1 in
              (None, set_indexes first2 lastNew pl)
          end
      end
  end.

Definition TruncateSuffix (from : Z) pl : option error * PersistentLog E :=
  if lastIndex pl <? from then (None, pl)
  else
    let old := upto from (lastIndex pl) in
    let pl := set_cache (drop_cached old (tailCache pl)) pl in
    let '(err, e) := eng_Commit (delete_keys old) {| Sync := true |} (engine pl) in
    let pl := set_engine e pl in
    match err with
    | Some err => (Some err, pl)
    | None =>
        let last := if from =? firstIndex pl then lastIncludedIndex pl else from ⊟ 1 in
        (None, set_indexes (firstIndex pl) last pl)
    end.

Definition boundary_ops (index term : Z) : list batch_op :=
  [BSet keyLastIncludedIndex (PutUint64 index); BSet keyLastIncludedTerm (PutUint64 term)].

Definition CompactPrefix (index term : Z) pl : option error * PersistentLog E :=
  if index <=? lastIncludedIndex pl then (None, pl)
  else
    let end_ := if lastIndex pl <? index then lastIndex pl else index in
    let old := upto (firstIndex pl) end_ in
    let pl := set_cache (drop_cached old (tailCache pl)) pl in
    let '(err, e) :=
      eng_Commit (delete_keys old ++ boundary_ops index term) {| Sync := true |} (engine pl) in
    let pl := set_engine e pl in
    match err with
    | Some err => (Some err, pl)
    | None =>
        let last := if lastIndex pl <? index then index else lastIndex pl in
        (None, set_indexes (index ⊞ 1) last (set_boundary index term pl))
    end.

Definition RestoreSnapshotBoundary (index term : Z) pl : option error * PersistentLog E :=
  let old := upto (firstIndex pl) (lastIndex pl) in
  let pl := set_cache ∅ pl in
  let '(err, e) :=
    eng_Commit (delete_keys old ++ boundary_ops index term) {| Sync := true |} (engine pl) in
  let pl := set_engine e pl in
  match err with
  | Some err => (Some err, pl)
  | None => (None, set_indexes (index ⊞ 1) index (set_boundary index term pl))
  end.

End log.

(** ** The unit tests of log_test.go, run on the model *)

Import Gob.

Definition put_entry (i t : Z) (k : string) (v : bytes) : Entry :=
  mkEntry i t EntryPut k v "".

Definition empty_log : PersistentLog MemEngine :=
  mkLog mem_new 1 0 0 0 0 "" ∅ 4096.

Example test_open_empty : OpenPersistentLog mem_new = Ok empty_log.
Proof. vm_compute. reflexivity. Qed.

Example test_append_and_get :
  let '(err, pl) := AppendEntries
    [put_entry 1 1 "a" (bytes_of "1"); put_entry 2 1 "b" (bytes_of "2");
     mkEntry 3 2 EntryDelete "a" [] ""] true empty_log in
  err = None ∧ lastIndex pl = 3 ∧ LastTerm pl = 2 ∧
  Get 2 pl = Ok (put_entry 2 1 "b" (bytes_of "2")).
Proof. vm_compute. auto. Qed.

Example test_truncate_on_conflict :
  let '(_, pl) := AppendEntries
    [put_entry 1 1 "a" []; put_entry 2 1 "b" []; put_entry 3 1 "c" []] true empty_log in
  let '(_, pl) := AppendEntries [put_entry 2 2 "b2" []] true pl in
  lastIndex pl = 2 ∧ Get 2 pl = Ok (put_entry 2 2 "b2" []) ∧ Get 3 pl = Err ErrNotFound.
Proof. vm_compute. auto. Qed.

Example test_compact_prefix :
  let '(_, pl) := AppendEntries
    [put_entry 1 1 "a" []; put_entry 2 1 "b" []; put_entry 3 1 "c" []; put_entry 4 1 "d" []]
    true empty_log in
  let '(_, pl) := CompactPrefix 2 1 pl in
  Get 1 pl = Err (ErrCompacted 1 2) ∧ Get 2 pl = Err (ErrCompacted 2 2) ∧
  Get 3 pl = Ok (put_entry 3 1 "c" []) ∧ lastIncludedIndex pl = 2 ∧ lastIncludedTerm pl = 1.
Proof. vm_compute. auto. Qed.
