(* ===== verification/LogSpec.v ===== *)
(** * The abstract Raft log, and log.go as a refinement of it.

    [alog] is what the log means: a snapshot boundary, the entries after it,
    and the persistent term and vote.  [disk_rep] relates it to the contents of
    the storage engine and [log_rep] to a whole [PersistentLog]; each operation
    of [Log] is shown to implement its abstract counterpart, whether its write
    succeeds or fails, and reopening the engine recovers the abstract log. *)

From S2P Require Import Prelude Bytes Storage Codec Log.

(** ** The abstract log *)

Record alog := mkALog {
  a_base : Z;
  a_base_term : Z;
  a_entries : list Entry;
  a_term : Z;
  a_vote : string
}.

Definition a_last (al : alog) : Z := a_base al + Z.of_nat (length (a_entries al)).

Definition entry_at (al : alog) (i : Z) : option Entry :=
  if i <=? a_base al then None else a_entries al !! Z.to_nat (i - a_base al - 1).

Definition a_term_at (al : alog) (i : Z) : option Z :=
  if i =? a_base al then Some (a_base_term al) else Term <$> entry_at al i.

Definition a_last_term (al : alog) : Z :=
  match last (a_entries al) with Some e => Term e | None => a_base_term al end.

(** [contiguous b es]: the entries carry the indices [b+1], [b+2], ... *)
Definition contiguous (b : Z) (es : list Entry) : Prop :=
  ∀ (j : nat) e, es !! j = Some e → Index e = b + 1 + Z.of_nat j.

Record alog_wf (al : alog) : Prop := {
  wf_base : 0 ≤ a_base al;
  wf_last : a_last al < u64_mod - 1;
  wf_contiguous : contiguous (a_base al) (a_entries al);
  wf_base_term : is_u64 (a_base_term al);
  wf_term : is_u64 (a_term al)
}.

(** ** The abstract operations *)

Definition a_set_term_vote (t : Z) (v : string) (al : alog) : alog :=
  mkALog (a_base al) (a_base_term al) (a_entries al) t v.

(** Keep the entries before the first new one, then the new ones. *)
Definition a_append (es : list Entry) (al : alog) : alog :=
  match es with
  | [] => al
  | e0 :: _ =>
      mkALog (a_base al) (a_base_term al)
        (take (Z.to_nat (Index e0 - a_base al - 1)) (a_entries al) ++ es) (a_term al) (a_vote al)
  end.

Definition a_truncate (from : Z) (al : alog) : alog :=
  mkALog (a_base al) (a_base_term al)
    (take (Z.to_nat (from - a_base al - 1)) (a_entries al)) (a_term al) (a_vote al).

Definition a_compact (index term : Z) (al : alog) : alog :=
  if index <=? a_base al then al
  else mkALog index term (drop (Z.to_nat (index - a_base al)) (a_entries al)) (a_term al) (a_vote al).

Definition a_restore (index term : Z) (al : alog) : alog :=
  mkALog index term [] (a_term al) (a_vote al).

(** ** Representation *)

Section rep.
Context `{Codec Entry}.

Definition stored (c : gmap bytes bytes) (i : Z) (o : option Entry) : Prop :=
  match o with
  | Some e => ∃ b, encode e = Ok b ∧ c !! logKey i = Some b
  | None => c !! logKey i = None
  end.

Definition meta_u64 (c : gmap bytes bytes) (key : bytes) (z : Z) : Prop :=
  c !! key = Some (PutUint64 z) ∨ (c !! key = None ∧ z = 0).

Definition meta_string (c : gmap bytes bytes) (key : bytes) (s : string) : Prop :=
  c !! key = Some (bytes_of s) ∨ (c !! key = None ∧ s = ""%string).

Record disk_rep (c : gmap bytes bytes) (al : alog) : Prop := {
  d_entries i : is_u64 i → stored c i (entry_at al i);
  d_keys k : is_Some (c !! k) → logPrefix `prefix_of` k → ∃ i, is_u64 i ∧ k = logKey i;
  d_term : meta_u64 c keyTerm (a_term al);
  d_vote : meta_string c keyVotedFor (a_vote al);
  d_li : meta_u64 c keyLastIncludedIndex (a_base al);
  d_lt : meta_u64 c keyLastIncludedTerm (a_base_term al)
}.

Definition cache_ok (c : gmap Z Entry) (al : alog) : Prop :=
  ∀ i e, c !! i = Some e → entry_at al i = Some e.

Record log_rep {E} `{EngineSpec E} (pl : PersistentLog E) (al : alog) : Prop := {
  r_wf : alog_wf al;
  r_disk : disk_rep (contents (engine pl)) al;
  r_readable : readable (engine pl);
  r_first : firstIndex pl = a_base al + 1;
  r_last : lastIndex pl = a_last al;
  r_li : lastIncludedIndex pl = a_base al;
  r_lt : lastIncludedTerm pl = a_base_term al;
  r_term : currentTerm pl = a_term al;
  r_vote : votedFor pl = a_vote al;
  r_cache : cache_ok (tailCache pl) al
}.

End rep.

(** ** Facts on the abstract log *)

Lemma entry_at_Some al i e :
  entry_at al i = Some e → a_base al < i ≤ a_last al.
Proof.
  unfold entry_at, a_last. case_Z; [done|]. intros Hl%lookup_lt_Some. lia.
Qed.

Lemma entry_at_is_Some al i : is_Some (entry_at al i) ↔ a_base al < i ≤ a_last al.
Proof.
  split; [intros [e He]; by eapply entry_at_Some|]. unfold entry_at, a_last.
  intros Hi. case_Z; [lia|]. apply lookup_lt_is_Some. lia.
Qed.

Lemma entry_at_None al i : i ≤ a_base al ∨ a_last al < i → entry_at al i = None.
Proof.
  intros Hi. apply eq_None_not_Some. rewrite entry_at_is_Some. lia.
Qed.

Lemma entry_at_Index al i e : alog_wf al → entry_at al i = Some e → Index e = i.
Proof.
  unfold entry_at. intros Hwf. case_Z; [done|]. intros Hl.
  rewrite (wf_contiguous _ Hwf _ _ Hl). lia.
Qed.

Lemma contiguous_cons b e es : contiguous b (e :: es) ↔ Index e = b + 1 ∧ contiguous (b + 1) es.
Proof.
  unfold contiguous. split.
  - intros Hc. split; [rewrite (Hc 0%nat e); simpl; [lia|done]|].
    intros j e' Hj. rewrite (Hc (S j) e' Hj). lia.
  - intros [He Hc] [|j] e' Hj; simpl in Hj; [simplify_eq; lia|].
    rewrite (Hc j e' Hj). lia.
Qed.

Lemma contiguous_elem b es e :
  contiguous b es → e ∈ es → b < Index e ≤ b + Z.of_nat (length es).
Proof.
  intros Hc [j Hj]%list_elem_of_lookup. rewrite (Hc j e Hj).
  apply lookup_lt_Some in Hj. lia.
Qed.

Lemma contiguous_app b es1 es2 :
  contiguous b es1 → contiguous (b + Z.of_nat (length es1)) es2 → contiguous b (es1 ++ es2).
Proof.
  intros H1 H2 j e Hj. apply lookup_app_Some in Hj as [Hj|[Hle Hj]].
  - by apply H1.
  - rewrite (H2 _ _ Hj). lia.
Qed.

Lemma contiguous_take b n es : contiguous b es → contiguous b (take n es).
Proof. intros Hc j e [Hj _]%lookup_take_Some. by apply Hc. Qed.

Lemma contiguous_drop b n es : contiguous b es → contiguous (b + Z.of_nat n) (drop n es).
Proof. intros Hc j e Hj. rewrite lookup_drop in Hj. rewrite (Hc _ _ Hj). lia. Qed.

Lemma contiguous_last b e0 es :
  contiguous b (e0 :: es) → Index (List.last (e0 :: es) e0) = b + Z.of_nat (length (e0 :: es)).
Proof.
  intros Hc. apply contiguous_cons in Hc as [He Hc].
  destruct es as [|e1 es] using rev_ind; [simpl; lia|].
  rewrite app_comm_cons, List.last_last. simpl length. rewrite length_app. simpl.
  rewrite (Hc (length es) e1); [lia|]. by rewrite lookup_app_r, Nat.sub_diag by lia.
Qed.

Lemma entry_at_append e0 es al i :
  a_base al < Index e0 ≤ a_last al + 1 →
  entry_at (a_append (e0 :: es) al) i =
    if i <? Index e0 then entry_at al i else (e0 :: es) !! Z.to_nat (i - Index e0).
Proof.
  unfold entry_at, a_last. intros Hi. cbn [a_append a_base a_entries].
  destruct (Z.leb_spec i (a_base al)); destruct (Z.ltb_spec i (Index e0)); try done; try lia.
  - rewrite lookup_app_l by (rewrite length_take; lia). by rewrite lookup_take_lt by lia.
  - rewrite lookup_app_r by (rewrite length_take; lia). f_equal. rewrite length_take. lia.
Qed.

Lemma entry_at_truncate from al i :
  a_base al < from →
  entry_at (a_truncate from al) i = if i <? from then entry_at al i else None.
Proof.
  unfold entry_at. intros Hi. simpl. repeat case_Z; try done; try lia.
  - by rewrite lookup_take_lt by lia.
  - by rewrite lookup_take_ge by lia.
Qed.

Lemma entry_at_compact index term al i :
  a_base al < index →
  entry_at (a_compact index term al) i = if i <=? index then None else entry_at al i.
Proof.
  unfold entry_at, a_compact. intros Hi. destruct (Z.leb_spec index (a_base al)); [lia|].
  simpl. repeat case_Z; try done; try lia. rewrite lookup_drop. f_equal. lia.
Qed.

Lemma entry_at_restore index term al i : entry_at (a_restore index term al) i = None.
Proof. unfold entry_at. simpl. by case_Z. Qed.

Lemma a_last_append e0 es al :
  a_base al < Index e0 ≤ a_last al + 1 →
  a_last (a_append (e0 :: es) al) = Index e0 + Z.of_nat (length es).
Proof.
  unfold a_last. intros Hi. cbn [a_append a_base a_entries].
  rewrite length_app, length_take. simpl. lia.
Qed.

Lemma alog_wf_append e0 es al :
  alog_wf al → a_base al < Index e0 ≤ a_last al + 1 → contiguous (Index e0 - 1) (e0 :: es) →
  Index e0 + Z.of_nat (length es) < u64_mod - 1 → alog_wf (a_append (e0 :: es) al).
Proof.
  intros Hwf Hi Hc Hb. split; try apply Hwf; [by rewrite a_last_append|].
  apply contiguous_app; [apply contiguous_take, Hwf|].
  unfold a_last in Hi. rewrite length_take.
  replace (a_base al + _) with (Index e0 - 1) by lia. done.
Qed.

Lemma alog_wf_truncate from al : alog_wf al → alog_wf (a_truncate from al).
Proof.
  intros Hwf. split; try apply Hwf; [|by apply contiguous_take, Hwf].
  pose proof (wf_last _ Hwf). unfold a_last in *. simpl. rewrite length_take. lia.
Qed.

Lemma alog_wf_compact index term al :
  alog_wf al → is_u64 term → index < u64_mod - 1 → alog_wf (a_compact index term al).
Proof.
  intros Hwf Ht Hi. unfold a_compact. case_Z; [done|].
  pose proof (wf_base _ Hwf). pose proof (wf_last _ Hwf).
  split; simpl; try done; try apply Hwf; [lia|..].
  - unfold a_last in *. simpl. rewrite length_drop. lia.
  - pose proof (contiguous_drop _ (Z.to_nat (index - a_base al)) _ (wf_contiguous _ Hwf)) as Hd.
    by replace (a_base al + _) with index in Hd by lia.
Qed.

Lemma alog_wf_restore index term al :
  alog_wf al → is_u64 term → 0 ≤ index < u64_mod - 1 → alog_wf (a_restore index term al).
Proof.
  intros Hwf Ht Hi. split; simpl; try apply Hwf; try done; try lia.
  unfold a_last. simpl. lia.
Qed.

(** ** Facts on keys and batches *)

Lemma logKey_inj i j : is_u64 i → is_u64 j → logKey i = logKey j → i = j.
Proof. intros Hi Hj Heq%app_inv_head. by apply PutUint64_inj. Qed.

Lemma indexFromLogKey_logKey i : is_u64 i → indexFromLogKey (logKey i) = Ok i.
Proof.
  intros Hi. unfold indexFromLogKey, logKey. rewrite length_app.
  destruct (Nat.ltb_spec (length logPrefix + length (PutUint64 i)) (length logPrefix)); [lia|].
  rewrite drop_app_length, <-(app_nil_r (PutUint64 i)). by apply Uint64_PutUint64.
Qed.

Lemma logKey_prefix i : logPrefix `prefix_of` logKey i.
Proof. by apply prefix_app_r. Qed.

(** The metadata keys are not log keys. *)
Definition not_log_key (k : bytes) : Prop := ∀ i, k ≠ logKey i.

Lemma keyTerm_not_log : not_log_key keyTerm.
Proof. done. Qed.
Lemma keyVotedFor_not_log : not_log_key keyVotedFor.
Proof. done. Qed.
Lemma keyLastIncludedIndex_not_log : not_log_key keyLastIncludedIndex.
Proof. done. Qed.
Lemma keyLastIncludedTerm_not_log : not_log_key keyLastIncludedTerm.
Proof. done. Qed.

#[export] Hint Resolve keyTerm_not_log keyVotedFor_not_log keyLastIncludedIndex_not_log
  keyLastIncludedTerm_not_log logKey_prefix : gokv.

Lemma apply_batch_app b1 b2 m : apply_batch (b1 ++ b2) m = apply_batch b2 (apply_batch b1 m).
Proof. apply fold_left_app. Qed.

Lemma lookup_delete_keys_ne ids m k :
  (∀ i, i ∈ ids → k ≠ logKey i) → apply_batch (delete_keys ids) m !! k = m !! k.
Proof.
  revert m. induction ids as [|i ids IH]; intros m Hk; [done|]. simpl.
  unfold apply_batch, delete_keys in *. simpl. rewrite IH by set_solver.
  rewrite lookup_delete_ne; [done|]. intros <-. apply (Hk i); set_solver.
Qed.

Lemma lookup_delete_keys_None ids m k :
  m !! k = None → apply_batch (delete_keys ids) m !! k = None.
Proof.
  revert m. induction ids as [|i ids IH]; intros m Hm; [done|]. apply IH. apply lookup_delete_None. by right.
Qed.

Lemma lookup_delete_keys_eq ids m i :
  i ∈ ids → apply_batch (delete_keys ids) m !! logKey i = None.
Proof.
  revert m. induction ids as [|j ids IH]; intros m Hi; [set_solver|].
  apply elem_of_cons in Hi as [->|Hi]; [|by apply IH].
  change (apply_batch (delete_keys ids) (delete (logKey j) m) !! logKey j = None).
  apply lookup_delete_keys_None, lookup_delete_eq.
Qed.

Lemma lookup_delete_upto a b m i :
  0 ≤ a → b < u64_mod → is_u64 i →
  apply_batch (delete_keys (upto a b)) m !! logKey i =
    if (a <=? i) && (i <=? b) then None else m !! logKey i.
Proof.
  intros Ha Hb Hi. destruct ((a <=? i) && (i <=? b)) eqn:Hin.
  - apply lookup_delete_keys_eq, elem_of_upto. lia.
  - apply lookup_delete_keys_ne. intros j [? ?]%elem_of_upto Heq%logKey_inj; u64_lia.
Qed.

Section batches.
Context `{Codec Entry}.

Lemma set_keys_lookup_ne es ops m k :
  set_keys es = Ok ops → (∀ e, e ∈ es → k ≠ logKey (Index e)) →
  apply_batch ops m !! k = m !! k.
Proof.
  revert ops m. induction es as [|e es IH]; intros ops m Hs Hk; simpl in Hs; [by simplify_eq|].
  destruct (encode e) as [buf|]; [|done]. destruct (set_keys es) as [ops'|]; [|done].
  injection Hs as <-. unfold apply_batch in *. simpl. rewrite (IH ops') by set_solver.
  rewrite lookup_insert_ne; [done|]. intros <-. apply (Hk e); set_solver.
Qed.

Lemma set_keys_stored es ops m b i :
  set_keys es = Ok ops → contiguous b es → 0 ≤ b → b + Z.of_nat (length es) < u64_mod →
  b < i ≤ b + Z.of_nat (length es) →
  stored (apply_batch ops m) i (es !! Z.to_nat (i - b - 1)).
Proof.
  revert ops m b. induction es as [|e es IH]; intros ops m b Hs Hc Hb Hlen Hi; simpl in *; [lia|].
  destruct (encode e) as [buf|] eqn:He; [|done]. destruct (set_keys es) as [ops'|] eqn:Hops; [|done].
  injection Hs as <-. apply contiguous_cons in Hc as [Hidx Hc].
  change (apply_batch (BSet (logKey (Index e)) buf :: ops') m)
    with (apply_batch ops' (<[logKey (Index e) := buf]> m)).
  destruct (decide (i = b + 1)) as [->|Hne].
  - replace (Z.to_nat (b + 1 - b - 1)) with 0%nat by lia. exists buf. split; [done|].
    rewrite (set_keys_lookup_ne es) by
      (done || intros e' He'; pose proof (contiguous_elem _ _ _ Hc He');
       intros Heq%logKey_inj; u64_lia).
    rewrite Hidx. by simplify_map_eq.
  - replace (Z.to_nat (i - b - 1)) with (S (Z.to_nat (i - (b + 1) - 1))) by lia. simpl.
    apply IH; (done || lia).
Qed.

Lemma set_keys_dom es ops m k :
  set_keys es = Ok ops → is_Some (apply_batch ops m !! k) →
  is_Some (m !! k) ∨ ∃ e, e ∈ es ∧ k = logKey (Index e).
Proof.
  revert ops m. induction es as [|e es IH]; intros ops m Hs Hk; simpl in Hs.
  - simplify_eq. by left.
  - destruct (encode e) as [buf|]; [|done]. destruct (set_keys es) as [ops'|]; [|done].
    injection Hs as <-. apply (IH ops') in Hk as [Hk|(e' & ? & ?)]; [|set_solver|done].
    destruct (decide (k = logKey (Index e))) as [->|]; [right; set_solver|].
    simpl in Hk. rewrite lookup_insert_ne in Hk by done. by left.
Qed.

Lemma set_keys_ok es : Forall encodable es → ∃ ops, set_keys es = Ok ops.
Proof.
  induction 1 as [|e es He _ [ops IH]]; simpl; [eauto|]. unfold encodable in He.
  destruct (encode e); [|done]. rewrite IH. eauto.
Qed.

End batches.

(** ** The disk under each kind of batch *)

Section disk.
Context `{Codec Entry}.
Implicit Types (c : gmap bytes bytes) (al : alog).

Lemma delete_keys_dom ids c k :
  is_Some (apply_batch (delete_keys ids) c !! k) → is_Some (c !! k).
Proof.
  rewrite <-!not_eq_None_Some. intros Hk Hc. by apply Hk, lookup_delete_keys_None.
Qed.

Lemma delete_keys_meta ids c k :
  not_log_key k → apply_batch (delete_keys ids) c !! k = c !! k.
Proof. intros Hk. apply lookup_delete_keys_ne. intros i _. apply Hk. Qed.

Lemma set_keys_meta es ops c k :
  set_keys es = Ok ops → not_log_key k → apply_batch ops c !! k = c !! k.
Proof. intros Hs Hk. eapply set_keys_lookup_ne; [done|]. intros e _. apply Hk. Qed.

(** Rewriting the lookups of the boundary batch. *)
Lemma boundary_ops_logKey index term c i :
  apply_batch (boundary_ops index term) c !! logKey i = c !! logKey i.
Proof. unfold apply_batch. simpl. by rewrite !lookup_insert_ne by done. Qed.

Lemma boundary_ops_dom index term c k :
  logPrefix `prefix_of` k → apply_batch (boundary_ops index term) c !! k = c !! k.
Proof.
  intros [r ->]. unfold apply_batch. simpl. by rewrite !lookup_insert_ne by done.
Qed.

Lemma stored_ext c c' i o : c' !! logKey i = c !! logKey i → stored c i o → stored c' i o.
Proof. intros Heq. destruct o; simpl; by rewrite Heq. Qed.

Lemma disk_rep_None c al i :
  disk_rep c al → is_u64 i → i ≤ a_base al ∨ a_last al < i → c !! logKey i = None.
Proof.
  intros Hd Hu Hi. pose proof (d_entries _ _ Hd i Hu) as Hst.
  by rewrite entry_at_None in Hst.
Qed.

Lemma disk_rep_append c al e0 es ops :
  disk_rep c al → alog_wf al → a_base al < Index e0 ≤ a_last al + 1 →
  contiguous (Index e0 - 1) (e0 :: es) → Index e0 + Z.of_nat (length es) < u64_mod - 1 →
  set_keys (e0 :: es) = Ok ops →
  disk_rep (apply_batch (delete_keys (upto (Index e0) (a_last al)) ++ ops) c)
    (a_append (e0 :: es) al).
Proof.
  intros Hd Hwf Hi Hc Hb Hs. pose proof (wf_base _ Hwf). pose proof (wf_last _ Hwf).
  rewrite apply_batch_app. set (c1 := apply_batch (delete_keys _) c).
  split;
    try (cbn [a_append a_base a_base_term a_term a_vote]; unfold meta_u64, meta_string;
      rewrite !(set_keys_meta _ _ c1 _ Hs) by auto with gokv; unfold c1;
      rewrite !delete_keys_meta by auto with gokv; apply Hd).
  - intros i Hu. rewrite entry_at_append by done.
    destruct (Z.ltb_spec i (Index e0)).
    + assert (apply_batch ops c1 !! logKey i = c !! logKey i) as Heq.
      { rewrite (set_keys_lookup_ne _ _ _ _ Hs).
        - unfold c1. rewrite lookup_delete_upto by (done || u64_lia).
          destruct (Z.leb_spec (Index e0) i); [lia|done].
        - intros e He. pose proof (contiguous_elem _ _ _ Hc He) as Hr. simpl in Hr.
          intros Heq%logKey_inj; u64_lia. }
      eapply stored_ext; [done | by apply (d_entries _ _ Hd)].
    + destruct (Z.leb_spec i (Index e0 + Z.of_nat (length es))).
      * pose proof (set_keys_stored _ _ c1 _ i Hs Hc) as Hst. simpl length in Hst.
        replace (i - (Index e0 - 1) - 1) with (i - Index e0) in Hst by lia.
        apply Hst; u64_lia.
      * rewrite (lookup_ge_None_2 (e0 :: es)) by (simpl; lia). simpl.
        rewrite (set_keys_lookup_ne _ _ _ _ Hs).
        -- unfold c1. rewrite lookup_delete_upto by (done || u64_lia).
           case_match; [done|]. apply (disk_rep_None _ _ _ Hd); (done || lia).
        -- intros e He. pose proof (contiguous_elem _ _ _ Hc He) as Hr. simpl in Hr.
           intros Heq%logKey_inj; u64_lia.
  - intros k Hk Hp. apply (set_keys_dom _ _ _ _ Hs) in Hk as [Hk|(e & He & ->)].
    + apply delete_keys_dom in Hk. by apply (d_keys _ _ Hd).
    + exists (Index e). split; [|done].
      pose proof (contiguous_elem _ _ _ Hc He) as Hr. simpl in Hr. u64_lia.
Qed.

(** Deleting [a .. b] leaves the abstract log [al'] when [al'] has lost exactly
    those entries. *)
Lemma stored_delete_upto c al al' a b i :
  disk_rep c al → 0 ≤ a → b < u64_mod → is_u64 i →
  entry_at al' i = (if (a <=? i) && (i <=? b) then None else entry_at al i) →
  stored (apply_batch (delete_keys (upto a b)) c) i (entry_at al' i).
Proof.
  intros Hd Ha Hb Hu ->. pose proof (lookup_delete_upto a b c i Ha Hb Hu) as Heq.
  destruct ((a <=? i) && (i <=? b)); [exact Heq|].
  eapply stored_ext; [done | by apply (d_entries _ _ Hd)].
Qed.

Lemma disk_rep_truncate c al from :
  disk_rep c al → alog_wf al → a_base al < from →
  disk_rep (apply_batch (delete_keys (upto from (a_last al))) c) (a_truncate from al).
Proof.
  intros Hd Hwf Hf. pose proof (wf_base _ Hwf). pose proof (wf_last _ Hwf).
  split; try (unfold meta_u64, meta_string; rewrite !delete_keys_meta by auto with gokv; apply Hd).
  - intros i Hu. eapply stored_delete_upto; try done; [lia|lia|].
    rewrite entry_at_truncate by done. repeat case_Z; simpl; try done; try lia.
    by rewrite entry_at_None by lia.
  - intros k Hk%delete_keys_dom Hp. by apply (d_keys _ _ Hd).
Qed.

(** Both boundary moves delete a range and then write the new boundary. *)
Lemma disk_rep_boundary c al al' a b index term :
  disk_rep c al → 0 ≤ a → b < u64_mod →
  a_base al' = index → a_base_term al' = term → a_term al' = a_term al → a_vote al' = a_vote al →
  (∀ i, entry_at al' i = if (a <=? i) && (i <=? b) then None else entry_at al i) →
  disk_rep (apply_batch (delete_keys (upto a b) ++ boundary_ops index term) c) al'.
Proof.
  intros Hd Ha Hb Hbase Hbt Ht Hv He. rewrite apply_batch_app.
  split; unfold meta_u64, meta_string.
  - intros i Hu. pose proof (stored_delete_upto c al al' a b i Hd Ha Hb Hu (He i)) as Hst.
    eapply stored_ext; [apply boundary_ops_logKey | done].
  - intros k Hk Hp. rewrite boundary_ops_dom in Hk by done.
    apply delete_keys_dom in Hk. by apply (d_keys _ _ Hd).
  - rewrite Ht. unfold apply_batch at 1 2. simpl. rewrite !lookup_insert_ne by done.
    rewrite !delete_keys_meta by auto with gokv. apply Hd.
  - rewrite Hv. unfold apply_batch at 1 2. simpl. rewrite !lookup_insert_ne by done.
    rewrite !delete_keys_meta by auto with gokv. apply Hd.
  - left. rewrite Hbase. unfold apply_batch. simpl. by rewrite lookup_insert_ne, lookup_insert_eq.
  - left. rewrite Hbt. unfold apply_batch. simpl. by rewrite lookup_insert_eq.
Qed.

Lemma disk_rep_term_vote c al t v :
  disk_rep c al →
  disk_rep (apply_batch [BSet keyTerm (PutUint64 t); BSet keyVotedFor (bytes_of v)] c)
    (a_set_term_vote t v al).
Proof.
  intros Hd. unfold apply_batch. simpl.
  split; unfold meta_u64, meta_string; simpl.
  - intros i Hu. change (entry_at (a_set_term_vote t v al) i) with (entry_at al i).
    eapply stored_ext; [|by apply (d_entries _ _ Hd)]. by rewrite !lookup_insert_ne by done.
  - intros k Hk Hp. apply (d_keys _ _ Hd); [|done]. destruct Hp as [r ->].
    by rewrite !lookup_insert_ne in Hk by done.
  - left. by rewrite lookup_insert_ne, lookup_insert_eq.
  - left. by rewrite lookup_insert_eq.
  - rewrite !lookup_insert_ne by done. apply Hd.
  - rewrite !lookup_insert_ne by done. apply Hd.
Qed.

End disk.

(** ** The operations refine their abstract counterparts *)

Section refine.
Context {E : Type} `{EngineSpec E} `{CodecSpec Entry}.
Implicit Types (pl : PersistentLog E) (al : alog).

Lemma log_rep_set_cache c pl al : log_rep pl al → cache_ok c al → log_rep (set_cache c pl) al.
Proof. intros [] Hc. by split. Qed.

Lemma log_rep_set_engine e pl al :
  log_rep pl al → contents e = contents (engine pl) → readable e → log_rep (set_engine e pl) al.
Proof. intros [] Hc Hr. split; simpl; try done. by rewrite Hc. Qed.

Lemma cache_ok_drop ids c al : cache_ok c al → cache_ok (drop_cached ids c) al.
Proof.
  revert c. induction ids as [|i ids IH]; intros c Hc; [done|]. simpl. apply IH.
  intros j e [_ Hj]%lookup_delete_Some. by apply Hc.
Qed.

Lemma drop_cached_Some ids c i e : drop_cached ids c !! i = Some e → (i ∉ ids) ∧ c !! i = Some e.
Proof.
  revert c. induction ids as [|j ids IH]; intros c Hc; [by split; [set_solver|]|].
  apply IH in Hc as [Hi [Hne Hc]%lookup_delete_Some]. split; [|done].
  intros [->|?]%elem_of_cons; done.
Qed.

Lemma cache_all_Some es c i e :
  cache_all es c !! i = Some e → (e ∈ es ∧ Index e = i) ∨ c !! i = Some e.
Proof.
  revert c. induction es as [|e' es IH]; intros c Hc; [by right|].
  apply IH in Hc as [[? ?]|Hc]; [set_solver|].
  apply lookup_insert_Some in Hc as [[<- <-]|[_ Hc]]; [left; set_solver | by right].
Qed.

Lemma cache_ok_empty al : cache_ok ∅ al.
Proof. intros i e Hi. by rewrite lookup_empty in Hi. Qed.

(** Entries cached before an append are either dropped or still current. *)
Lemma cache_ok_append pl al e0 es :
  log_rep pl al → a_base al < Index e0 ≤ a_last al + 1 → contiguous (Index e0 - 1) (e0 :: es) →
  cache_ok (cache_all (e0 :: es) (drop_cached (upto (Index e0) (a_last al)) (tailCache pl)))
    (a_append (e0 :: es) al).
Proof.
  intros Hr Hi Hc i e Hl. rewrite entry_at_append by done.
  apply cache_all_Some in Hl as [[He Hidx]|[Hout Hl]%drop_cached_Some].
  - apply list_elem_of_lookup in He as [j Hj]. rewrite (Hc j e Hj) in Hidx. subst i.
    destruct (Z.ltb_spec (Index e0 - 1 + 1 + Z.of_nat j) (Index e0)); [lia|].
    rewrite <-Hj. f_equal. lia.
  - pose proof (r_cache _ _ Hr i e Hl) as He. rewrite elem_of_upto in Hout.
    apply entry_at_Some in He as Hb. destruct (Z.ltb_spec i (Index e0)); [done|lia].
Qed.

Lemma cache_ok_evict pl al :
  cache_ok (tailCache pl) al → cache_ok (tailCache (evictTailCacheLocked pl)) al.
Proof.
  intros Hc. unfold evictTailCacheLocked. case_Z; [done|]. simpl.
  intros i e [Hl _]%map_lookup_filter_Some. by apply Hc.
Qed.

(** [evictTailCacheLocked] changes nothing but the cache. *)
Lemma evict_fields pl :
  evictTailCacheLocked pl = set_cache (tailCache (evictTailCacheLocked pl)) pl.
Proof. unfold evictTailCacheLocked. case_Z; [by destruct pl|done]. Qed.

Lemma old_range a b : (if a <=? b then upto a b else []) = upto a b.
Proof. case_Z; [done|]. by rewrite upto_nil. Qed.

Lemma AppendEntries_rep pl al e0 es sync err pl' :
  log_rep pl al → a_base al < Index e0 ≤ a_last al + 1 → contiguous (Index e0 - 1) (e0 :: es) →
  Index e0 + Z.of_nat (length es) < u64_mod - 1 →
  AppendEntries (e0 :: es) sync pl = (err, pl') →
  log_rep pl' (after err al (a_append (e0 :: es) al)).
Proof.
  intros Hr Hi Hc Hb Ha. unfold AppendEntries in Ha. rewrite old_range, (r_last _ _ Hr) in Ha.
  assert (cache_ok (drop_cached (upto (Index e0) (a_last al)) (tailCache pl)) al) as Hdrop
    by apply cache_ok_drop, Hr.
  destruct (set_keys (e0 :: es)) as [ops|err'] eqn:Hops;
    [|injection Ha as <- <-; by apply log_rep_set_cache].
  destruct (eng_Commit _ _ _) as [err' e'] eqn:Hcommit.
  apply Commit_spec in Hcommit as [Hcont Hread]. simpl in Hcont, Hread.
  destruct err' as [err'|]; injection Ha as <- <-.
  { apply log_rep_set_engine; [by apply log_rep_set_cache | done | by apply Hread, Hr]. }
  pose proof (cache_ok_append _ _ _ _ Hr Hi Hc) as Hcache.
  apply cache_ok_evict with (pl := set_cache (cache_all (e0 :: es)
    (drop_cached (upto (Index e0) (a_last al)) (tailCache pl))) (set_engine e'
      (set_cache (drop_cached (upto (Index e0) (a_last al)) (tailCache pl)) pl))) in Hcache.
  rewrite evict_fields.
  pose proof (r_wf _ _ Hr) as Hwf. pose proof (wf_base _ Hwf). pose proof (wf_last _ Hwf).
  split; cbn [after]; try apply Hr.
  - by apply alog_wf_append.
  - cbn -[a_append]. rewrite Hcont. apply disk_rep_append; by try apply Hr.
  - by apply Hread, Hr.
  - cbn -[a_append u64]. rewrite (r_li _ _ Hr), (r_first _ _ Hr).
    rewrite u64_small by u64_lia. repeat case_Z; simpl; lia.
  - rewrite a_last_append by done.
    etransitivity; [apply (contiguous_last (Index e0 - 1)), Hc|]. simpl. lia.
  - done.
Qed.

Lemma TruncateSuffix_rep pl al from err pl' :
  log_rep pl al → a_base al < from →
  TruncateSuffix from pl = (err, pl') →
  log_rep pl' (after err al (a_truncate from al)).
Proof.
  intros Hr Hf Ht. unfold TruncateSuffix in Ht. rewrite (r_last _ _ Hr) in Ht.
  pose proof (r_wf _ _ Hr) as Hwf. pose proof (wf_base _ Hwf). pose proof (wf_last _ Hwf).
  destruct (Z.ltb_spec (a_last al) from).
  { injection Ht as <- <-. cbn [after]. unfold a_truncate.
    rewrite take_ge by (unfold a_last in *; lia). by destruct al. }
  destruct (eng_Commit _ _ _) as [err' e'] eqn:Hcommit.
  apply Commit_spec in Hcommit as [Hcont Hread]. simpl in Hcont, Hread.
  assert (cache_ok (drop_cached (upto from (a_last al)) (tailCache pl)) al) as Hdrop
    by apply cache_ok_drop, Hr.
  destruct err' as [err'|]; injection Ht as <- <-.
  { apply log_rep_set_engine; [by apply log_rep_set_cache | done | by apply Hread, Hr]. }
  split; cbn [after]; try apply Hr.
  - by apply alog_wf_truncate.
  - simpl. rewrite Hcont. apply disk_rep_truncate; by try apply Hr.
  - by apply Hread, Hr.
  - simpl. rewrite (r_first _ _ Hr), (r_li _ _ Hr). unfold a_last in *. simpl. rewrite length_take.
    case_Z; [lia|]. rewrite u64_small by u64_lia. lia.
  - intros i e [Hout Hl]%drop_cached_Some. rewrite elem_of_upto in Hout.
    rewrite entry_at_truncate by done. pose proof (r_cache _ _ Hr i e Hl) as He.
    apply entry_at_Some in He as Hb. case_Z; [done|lia].
Qed.

Lemma CompactPrefix_rep pl al index term err pl' :
  log_rep pl al → index < u64_mod - 1 → is_u64 term →
  CompactPrefix index term pl = (err, pl') →
  log_rep pl' (after err al (a_compact index term al)).
Proof.
  intros Hr Hi Hterm Hc. unfold CompactPrefix in Hc.
  rewrite (r_last _ _ Hr), (r_li _ _ Hr), (r_first _ _ Hr) in Hc.
  pose proof (r_wf _ _ Hr) as Hwf. pose proof (wf_base _ Hwf). pose proof (wf_last _ Hwf).
  destruct (Z.leb_spec index (a_base al)).
  { injection Hc as <- <-. cbn [after]. unfold a_compact. by case_Z; [|lia]. }
  set (stop := if a_last al <? index then a_last al else index) in Hc.
  assert (∀ i, entry_at (a_compact index term al) i =
      if (a_base al + 1 <=? i) && (i <=? stop) then None else entry_at al i) as Hentry.
  { intros i. rewrite entry_at_compact by done. unfold stop.
    repeat case_Z; simpl; try done; try lia; by rewrite entry_at_None by lia. }
  assert (cache_ok (drop_cached (upto (a_base al + 1) stop) (tailCache pl)) al) as Hdrop
    by apply cache_ok_drop, Hr.
  destruct (eng_Commit _ _ _) as [err' e'] eqn:Hcommit.
  apply Commit_spec in Hcommit as [Hcont Hread]. simpl in Hcont, Hread.
  destruct err' as [err'|]; injection Hc as <- <-.
  { apply log_rep_set_engine; [by apply log_rep_set_cache | done | by apply Hread, Hr]. }
  assert (a_base (a_compact index term al) = index ∧ a_base_term (a_compact index term al) = term ∧
    a_term (a_compact index term al) = a_term al ∧ a_vote (a_compact index term al) = a_vote al)
    as (Hb & Hbt & Ht & Hv) by (unfold a_compact; case_Z; [lia|done]).
  split; cbn [after]; rewrite ?Hb, ?Hbt, ?Ht, ?Hv; try apply Hr; try done.
  - by apply alog_wf_compact.
  - simpl. rewrite Hcont. apply (disk_rep_boundary _ al); try done; [apply Hr|lia|].
    unfold stop. case_Z; lia.
  - by apply Hread, Hr.
  - simpl. rewrite u64_small by u64_lia. done.
  - simpl. rewrite (r_last _ _ Hr). unfold a_compact. destruct (Z.leb_spec index (a_base al)); [lia|].
    unfold a_last in *. simpl. rewrite length_drop. case_Z; lia.
  - intros i e [Hout Hl]%drop_cached_Some. rewrite elem_of_upto in Hout. rewrite Hentry.
    pose proof (r_cache _ _ Hr i e Hl) as He. apply entry_at_Some in He as Hbound.
    repeat case_Z; simpl; try done; lia.
Qed.

Lemma RestoreSnapshotBoundary_rep pl al index term err pl' :
  log_rep pl al → 0 ≤ index < u64_mod - 1 → is_u64 term →
  RestoreSnapshotBoundary index term pl = (err, pl') →
  log_rep pl' (after err al (a_restore index term al)).
Proof.
  intros Hr Hi Hterm Hc. unfold RestoreSnapshotBoundary in Hc.
  rewrite (r_last _ _ Hr), (r_first _ _ Hr) in Hc.
  pose proof (r_wf _ _ Hr) as Hwf. pose proof (wf_base _ Hwf). pose proof (wf_last _ Hwf).
  destruct (eng_Commit _ _ _) as [err' e'] eqn:Hcommit.
  apply Commit_spec in Hcommit as [Hcont Hread]. simpl in Hcont, Hread.
  destruct err' as [err'|]; injection Hc as <- <-.
  { apply log_rep_set_engine; [|done|by apply Hread, Hr].
    apply log_rep_set_cache; [done | apply cache_ok_empty]. }
  split; cbn [after a_restore a_base a_base_term a_term a_vote]; try apply Hr; try done.
  - by apply alog_wf_restore.
  - simpl. rewrite Hcont. apply (disk_rep_boundary _ al); try done; [apply Hr|lia|lia|].
    intros i. rewrite entry_at_restore. repeat case_Z; simpl; try done; by rewrite entry_at_None by lia.
  - by apply Hread, Hr.
  - simpl. by rewrite u64_small by u64_lia.
  - unfold a_last. simpl. lia.
Qed.

Lemma SetTermAndVote_rep pl al term vote err pl' :
  log_rep pl al → is_u64 term →
  SetTermAndVote term vote pl = (err, pl') →
  log_rep pl' (after err al (a_set_term_vote term vote al)).
Proof.
  intros Hr Hterm Hs. unfold SetTermAndVote in Hs.
  destruct (eng_Commit _ _ _) as [err' e'] eqn:Hcommit.
  apply Commit_spec in Hcommit as [Hcont Hread]. simpl in Hcont, Hread.
  destruct err' as [err'|]; injection Hs as <- <-.
  { apply log_rep_set_engine; [done | done | by apply Hread, Hr]. }
  split; cbn [after]; try apply Hr; try done.
  - split; simpl; try apply (r_wf _ _ Hr); done.
  - simpl. rewrite Hcont. apply disk_rep_term_vote, Hr.
  - by apply Hread, Hr.
Qed.

(** ** Reads *)

Lemma getLocked_rep pl al i :
  log_rep pl al → is_u64 i →
  getLocked i pl =
    match entry_at al i with
    | Some e => Ok e
    | None => if i <=? a_base al then Err (ErrCompacted i (a_base al)) else Err ErrNotFound
    end.
Proof.
  intros Hr Hu. unfold getLocked. rewrite (r_li _ _ Hr). destruct (Z.leb_spec i (a_base al)).
  { by rewrite entry_at_None by lia. }
  rewrite Get_spec by apply Hr. pose proof (d_entries _ _ (r_disk _ _ Hr) i Hu) as Hst.
  unfold stored in Hst. destruct (entry_at al i) as [e|]; [|by rewrite Hst].
  destruct Hst as (b & Henc & ->). by apply decode_encode.
Qed.

Lemma Get_rep pl al i :
  log_rep pl al → is_u64 i →
  Get i pl =
    match entry_at al i with
    | Some e => Ok e
    | None => if i <=? a_base al then Err (ErrCompacted i (a_base al)) else Err ErrNotFound
    end.
Proof.
  intros Hr Hu. unfold Get. destruct (tailCache pl !! i) as [e|] eqn:Hc; [|by apply getLocked_rep].
  by rewrite (r_cache _ _ Hr i e Hc).
Qed.

Lemma TermAt_rep pl al i : log_rep pl al → is_u64 i → TermAt i pl = a_term_at al i.
Proof.
  intros Hr Hu. unfold TermAt, a_term_at.
  rewrite (r_li _ _ Hr), (r_lt _ _ Hr), (r_first _ _ Hr), (r_last _ _ Hr). case_Z; [done|].
  destruct ((i <? a_base al + 1) || (a_last al <? i)) eqn:Hout.
  { by rewrite entry_at_None by lia. }
  destruct (tailCache pl !! i) as [e|] eqn:Hc; [by rewrite (r_cache _ _ Hr i e Hc)|].
  rewrite (getLocked_rep _ al) by done. destruct (entry_at al i); [done|].
  by case_Z.
Qed.

Lemma a_term_at_last al : a_term_at al (a_last al) = Some (a_last_term al).
Proof.
  unfold a_term_at, a_last_term, a_last, entry_at.
  destruct (a_entries al) as [|e es] eqn:He.
  - simpl. rewrite Z.add_0_r, Z.eqb_refl. done.
  - rewrite last_lookup. simpl length. repeat case_Z; try lia.
    replace (Z.to_nat _) with (pred (S (length es))) by lia.
    destruct (lookup_lt_is_Some_2 (e :: es) (pred (S (length es)))) as [e' ->]; [simpl; lia|done].
Qed.

Lemma a_last_u64 al : alog_wf al → is_u64 (a_last al).
Proof. intros []. unfold is_u64, a_last in *. lia. Qed.

Lemma LastTerm_rep pl al : log_rep pl al → LastTerm pl = a_last_term al.
Proof.
  intros Hr. pose proof (a_last_u64 _ (r_wf _ _ Hr)) as Hu.
  pose proof (TermAt_rep pl al _ Hr Hu) as Ht. rewrite a_term_at_last in Ht.
  unfold TermAt, LastTerm in *. rewrite (r_last _ _ Hr) in *. case_Z; [congruence|].
  destruct ((a_last al <? firstIndex pl) || (a_last al <? a_last al)); [done|].
  destruct (tailCache pl !! a_last al); [congruence|].
  destruct (getLocked (a_last al) pl); congruence.
Qed.

Lemma read_all_ok pl al i n :
  log_rep pl al → a_base al < i → i + Z.of_nat n ≤ a_last al + 1 →
  read_all (seqZ i (Z.of_nat n)) pl =
    Ok (take n (drop (Z.to_nat (i - a_base al - 1)) (a_entries al))).
Proof.
  intros Hr. pose proof (wf_base _ (r_wf _ _ Hr)). pose proof (wf_last _ (r_wf _ _ Hr)).
  revert i. induction n as [|n IH]; intros i Hi Hn; [done|].
  rewrite seqZ_cons by lia. replace (Z.pred (Z.of_nat (S n))) with (Z.of_nat n) by lia.
  cbn [read_all]. rewrite (Get_rep _ al) by (done || u64_lia).
  destruct (entry_at_is_Some al i) as [_ [e He]]; [lia|]. rewrite He.
  unfold entry_at in He. destruct (Z.leb_spec i (a_base al)); [lia|].
  rewrite IH by lia.
  rewrite (drop_S _ e (Z.to_nat (i - a_base al - 1))) by done.
  simpl. f_equal. f_equal. f_equal. f_equal. lia.
Qed.

Lemma read_all_err pl i ids err : Get i pl = Err err → read_all (i :: ids) pl = Err err.
Proof. intros Hg. simpl. by rewrite Hg. Qed.

(** A range that goes past the end fails at the first missing index. *)
Lemma read_all_past pl al from to :
  log_rep pl al → a_base al < from ≤ to → a_last al < to < u64_mod →
  read_all (seqZ from (to - from + 1)) pl = Err ErrNotFound.
Proof.
  intros Hr. remember (Z.to_nat (to - from)) as n eqn:Hn. revert from Hn.
  pose proof (wf_base _ (r_wf _ _ Hr)).
  induction n as [|n IH]; intros from Hn Hf Ht; rewrite seqZ_cons by lia; cbn [read_all];
    rewrite (Get_rep _ al) by (done || u64_lia).
  - rewrite entry_at_None by lia. by case_Z; [lia|].
  - destruct (decide (from ≤ a_last al)).
    + destruct (entry_at_is_Some al from) as [_ [e He]]; [lia|]. rewrite He.
      replace (Z.pred (to - from + 1)) with (to - Z.succ from + 1) by lia.
      rewrite IH by lia. done.
    + rewrite entry_at_None by lia. by case_Z; [lia|].
Qed.

(** ** Reopening *)

Lemma load_uint64_rep (e : E) key z :
  readable e → is_u64 z → meta_u64 (contents e) key z → load_uint64 e key = Ok z.
Proof.
  intros Hr Hz Hm. unfold load_uint64. rewrite Get_spec by done.
  destruct Hm as [->|[-> ->]]; [|done].
  rewrite <-(app_nil_r (PutUint64 z)). by apply Uint64_PutUint64.
Qed.

Lemma load_string_rep (e : E) key s :
  readable e → meta_string (contents e) key s → load_string e key = Ok s.
Proof.
  intros Hr Hm. unfold load_string. rewrite Get_spec by done.
  destruct Hm as [->|[-> ->]]; [|done]. by rewrite string_of_bytes_of.
Qed.

(** The scan finds the largest index [hi] when it starts at or below it. *)
Lemma scan_last_max l cur hi :
  (∀ k, k ∈ l.*1 → ∃ i, is_u64 i ∧ k = logKey i ∧ i ≤ hi) → cur ≤ hi → is_u64 hi →
  cur = hi ∨ logKey hi ∈ l.*1 → scan_last l cur = Ok hi.
Proof.
  revert cur. induction l as [|[k v] l IH]; intros cur Hk Hle Hu Hin; simpl in *.
  - destruct Hin as [->|Hin]; [done|set_solver].
  - destruct (Hk k) as (i & Hi & -> & Hile); [set_solver|].
    rewrite indexFromLogKey_logKey by done. apply IH; [set_solver|case_Z; lia|done|].
    destruct Hin as [->|[Heq%logKey_inj|Hin]%elem_of_cons]; [..|by right]; try done.
    + left. case_Z; lia.
    + left. subst. case_Z; lia.
Qed.

Lemma OpenPersistentLog_rep (e : E) al :
  readable e → alog_wf al → disk_rep (contents e) al →
  OpenPersistentLog e =
    Ok (mkLog e (a_base al + 1) (a_last al) (a_base al) (a_base_term al) (a_term al)
          (a_vote al) ∅ 4096).
Proof.
  intros Hr Hwf Hd. unfold OpenPersistentLog.
  pose proof (a_last_u64 _ Hwf). pose proof (wf_base _ Hwf). pose proof (wf_last _ Hwf).
  assert (is_u64 (a_base al)) by (unfold a_last in *; u64_lia).
  rewrite (load_uint64_rep _ _ (a_term al)) by (done || apply Hwf || apply Hd).
  rewrite (load_string_rep _ _ (a_vote al)) by (done || apply Hd).
  rewrite (load_uint64_rep _ _ (a_base al)) by (done || apply Hd).
  rewrite (load_uint64_rep _ _ (a_base_term al)) by (done || apply Hwf || apply Hd).
  destruct (NewIterator_spec e logPrefix (prefixUpperBound logPrefix) Hr) as (l & -> & _ & Hl).
  setoid_rewrite in_bounds_prefix in Hl.
  rewrite (scan_last_max l _ (a_last al)).
  - f_equal. f_equal. rewrite u64_small by (unfold a_last in *; u64_lia). done.
  - intros k ([k' v] & -> & [Hk Hp]%Hl)%list_elem_of_fmap. simpl in *.
    destruct (d_keys _ _ Hd k') as (i & Hi & ->); [eauto|done|]. exists i. split_and!; [done..|].
    destruct (decide (i ≤ a_last al)); [done|].
    rewrite (disk_rep_None _ _ _ Hd) in Hk by (done || lia). done.
  - unfold a_last. lia.
  - done.
  - destruct (decide (a_base al = a_last al)) as [|Hne]; [by left|right].
    destruct (entry_at_is_Some al (a_last al)) as [_ [en Hen]]; [unfold a_last in *; lia|].
    pose proof (d_entries _ _ Hd (a_last al)) as Hst. rewrite Hen in Hst.
    destruct Hst as (b & _ & Hb); [done|].
    apply list_elem_of_fmap. exists (logKey (a_last al), b). split; [done|].
    apply Hl. auto with gokv.
Qed.

End refine.
