(* ===== verification/LogTheorems.v ===== *)
(** * Theorems on the persistent log.

    A client runs any sequence of log operations, each of which may fail in the
    engine; [run] executes the code and the abstract log in lockstep.  The
    theorems say that the two agree for ever, that reads return what the
    abstract log holds, and that a restart recovers it. *)

From S2P Require Import Prelude Bytes Storage Codec Log LogSpec.
Import Gob.

(** ** Sequences of operations *)

Inductive log_op :=
  | OpSetTermAndVote (term : Z) (vote : string)
  | OpAppend (es : list Entry) (sync : bool)
  | OpTruncate (from : Z)
  | OpCompact (index term : Z)
  | OpRestore (index term : Z)
  | OpReopen.

(** The guards under which the callers use each operation. *)
Definition op_pre (al : alog) (op : log_op) : Prop :=
  match op with
  | OpSetTermAndVote t _ => is_u64 t
  | OpAppend [] _ => True
  | OpAppend (e0 :: es) _ =>
      a_base al < Index e0 ≤ a_last al + 1 ∧ contiguous (Index e0 - 1) (e0 :: es) ∧
      Index e0 + Z.of_nat (length es) < u64_mod - 1
  | OpTruncate from => a_base al < from
  | OpCompact i t => i < u64_mod - 1 ∧ is_u64 t
  | OpRestore i t => 0 ≤ i < u64_mod - 1 ∧ is_u64 t
  | OpReopen => True
  end.

(** The same guards as a boolean. *)
Fixpoint contiguousb (b : Z) (es : list Entry) : bool :=
  match es with
  | [] => true
  | e :: es => (Index e =? b + 1) && contiguousb (b + 1) es
  end.

Definition u64b (x : Z) : bool := (0 <=? x) && (x <? u64_mod).

Definition op_preb (al : alog) (op : log_op) : bool :=
  match op with
  | OpSetTermAndVote t _ => u64b t
  | OpAppend [] _ => true
  | OpAppend (e0 :: es) _ =>
      (a_base al <? Index e0) && (Index e0 <=? a_last al + 1) &&
      contiguousb (Index e0 - 1) (e0 :: es) &&
      (Index e0 + Z.of_nat (length es) <? u64_mod - 1)
  | OpTruncate from => a_base al <? from
  | OpCompact i t => (i <? u64_mod - 1) && u64b t
  | OpRestore i t => (0 <=? i) && (i <? u64_mod - 1) && u64b t
  | OpReopen => true
  end.

Definition a_exec (op : log_op) (al : alog) : alog :=
  match op with
  | OpSetTermAndVote t v => a_set_term_vote t v al
  | OpAppend es _ => a_append es al
  | OpTruncate from => a_truncate from al
  | OpCompact i t => a_compact i t al
  | OpRestore i t => a_restore i t al
  | OpReopen => al
  end.

Section run.
Context {E : Type} `{Engine E} `{Codec Entry}.

Definition exec (op : log_op) (pl : PersistentLog E) : option error * PersistentLog E :=
  match op with
  | OpSetTermAndVote t v => SetTermAndVote t v pl
  | OpAppend es sync => AppendEntries es sync pl
  | OpTruncate from => TruncateSuffix from pl
  | OpCompact i t => CompactPrefix i t pl
  | OpRestore i t => RestoreSnapshotBoundary i t pl
  | OpReopen =>
      match OpenPersistentLog (engine pl) with
      | Ok pl' => (None, pl')
      | Err err => (Some err, pl)
      end
  end.

Fixpoint run (ops : list log_op) (pl : PersistentLog E) (al : alog) : PersistentLog E * alog :=
  match ops with
  | [] => (pl, al)
  | op :: ops =>
      let '(err, pl') := exec op pl in
      run ops pl' (after err al (a_exec op al))
  end.

Fixpoint guarded (ops : list log_op) (pl : PersistentLog E) (al : alog) : Prop :=
  match ops with
  | [] => True
  | op :: ops =>
      op_pre al op ∧
      let '(err, pl') := exec op pl in
      guarded ops pl' (after err al (a_exec op al))
  end.

Fixpoint guardedb (ops : list log_op) (pl : PersistentLog E) (al : alog) : bool :=
  match ops with
  | [] => true
  | op :: ops =>
      op_preb al op &&
      let '(err, pl') := exec op pl in
      guardedb ops pl' (after err al (a_exec op al))
  end.

End run.

Definition fresh_alog : alog := mkALog 0 0 [] 0 "".

(** The entries [from .. to] of the abstract log. *)
Definition a_slice (from to : Z) (al : alog) : list Entry :=
  take (Z.to_nat (to - from + 1)) (drop (Z.to_nat (from - a_base al - 1)) (a_entries al)).

(** A short log on the concrete engine, for the witnesses. *)
Definition demo_entries : list Entry :=
  [put_entry 1 1 "a" (bytes_of "1"); put_entry 2 1 "b" (bytes_of "2"); put_entry 3 2 "c" []].

Definition demo_ops : list log_op :=
  [OpSetTermAndVote 2 "n2"; OpAppend demo_entries true; OpReopen; OpCompact 1 1;
   OpTruncate 3; OpAppend [put_entry 3 2 "d" []] false].

Definition demo_log : PersistentLog MemEngine := (AppendEntries demo_entries true empty_log).2.

Definition demo_alog : alog := mkALog 0 0 demo_entries 0 "".

Lemma contiguousb_sound b es : contiguousb b es = true → contiguous b es.
Proof.
  revert b. induction es as [|e es IH]; intros b Hc; simpl in *; [by intros ? ? ?|].
  apply andb_true_iff in Hc as [He Hc]. apply contiguous_cons. split; [lia|auto].
Qed.

Lemma op_preb_sound al op : op_preb al op = true → op_pre al op.
Proof.
  destruct op as [| [|e0 es] |  |  |  |]; cbn [op_preb op_pre]; unfold u64b, is_u64; try lia; try done.
  intros Hp. rewrite !andb_true_iff in Hp. destruct Hp as [[Hb Hc] Hl].
  apply contiguousb_sound in Hc. split_and!; (done || lia).
Qed.

Lemma guardedb_sound {E} `{Engine E} `{Codec Entry} ops (pl : PersistentLog E) al :
  guardedb ops pl al = true → guarded ops pl al.
Proof.
  revert pl al. induction ops as [|op ops IH]; intros pl al Hg; simpl in *; [done|].
  apply andb_true_iff in Hg as [Hp Hg]. split; [by apply op_preb_sound|].
  destruct (exec op pl). by apply IH.
Qed.

Section theorems.
Context {E : Type} `{EngineSpec E} `{CodecSpec Entry}.

Lemma fresh_alog_wf : alog_wf fresh_alog.
Proof. split; simpl; try done; unfold is_u64, u64_mod, a_last; simpl; lia. Qed.

Lemma fresh_disk_rep : disk_rep ∅ fresh_alog.
Proof.
  split; try (right; by rewrite lookup_empty).
  - intros i _. rewrite entry_at_None by (unfold a_last; simpl; lia). apply lookup_empty.
  - intros k [v Hk]. by rewrite lookup_empty in Hk.
Qed.

Lemma log_rep_open (e : E) al :
  readable e → alog_wf al → disk_rep (contents e) al →
  ∃ pl, OpenPersistentLog e = Ok pl ∧ log_rep pl al ∧ engine pl = e ∧ tailCache pl = ∅.
Proof.
  intros Hr Hwf Hd. eexists. split; [by apply OpenPersistentLog_rep|].
  split_and!; done.
Qed.

Lemma exec_rep op (pl : PersistentLog E) al err pl' :
  log_rep pl al → op_pre al op → exec op pl = (err, pl') →
  log_rep pl' (after err al (a_exec op al)).
Proof.
  intros Hr Hpre He. destruct op as [t v|[|e0 es] sync|from|i t|i t|]; simpl in *; destruct_and?.
  - by eapply SetTermAndVote_rep.
  - by injection He as <- <-.
  - by eapply AppendEntries_rep.
  - by eapply TruncateSuffix_rep.
  - by eapply CompactPrefix_rep.
  - by eapply RestoreSnapshotBoundary_rep.
  - destruct (log_rep_open (engine pl) al) as (pl2 & Ho & Hr2 & _); try apply Hr.
    rewrite Ho in He. by injection He as <- <-.
Qed.

Lemma run_rep ops (pl : PersistentLog E) al :
  log_rep pl al → guarded ops pl al → log_rep (run ops pl al).1 (run ops pl al).2.
Proof.
  revert pl al. induction ops as [|op ops IH]; intros pl al Hr Hg; simpl in *; [done|].
  destruct Hg as [Hpre Hg]. destruct (exec op pl) as [err pl'] eqn:He.
  apply IH; [by eapply exec_rep|done].
Qed.

(** The shape shared by the writes: they report the outcome of their commit. *)
Lemma commit_accepted {A} b o (e : E) (f g : E → A) err a :
  (let '(err, e') := eng_Commit b o e in
   match err with Some err => (Some err, f e') | None => (None, g e') end) = (err, a) →
  accepts e → err = None.
Proof.
  intros Heq Hacc. specialize (Hacc b o). destruct (eng_Commit b o e) as [[]  e']; [done|].
  by injection Heq.
Qed.

(** ** The size of the tail cache *)

(** A map whose keys lie in an interval is no larger than the interval. *)
Lemma size_interval {A} (c : gmap Z A) lo hi :
  (∀ i x, c !! i = Some x → lo ≤ i ≤ hi) → Z.of_nat (size c) ≤ Z.max 0 (hi - lo + 1).
Proof.
  intros Hc. rewrite <-size_dom.
  assert (dom c ⊆ (list_to_set (upto lo hi) : gset Z)) as Hsub.
  { intros i [x Hx]%elem_of_dom. apply elem_of_list_to_set, elem_of_upto. eauto. }
  apply subseteq_size in Hsub. rewrite size_list_to_set in Hsub by apply NoDup_seqZ.
  unfold upto in Hsub. rewrite length_seqZ in Hsub. lia.
Qed.

Lemma size_le_subseteq {A} (c c' : gmap Z A) : c ⊆ c' → (size c ≤ size c')%nat.
Proof. intros Hs. rewrite <-!size_dom. by apply subseteq_size, subseteq_dom. Qed.

Lemma drop_cached_subseteq idxs (c : gmap Z Entry) : drop_cached idxs c ⊆ c.
Proof.
  revert c. induction idxs as [|i idxs IH]; intros c; [done|]. etrans; [apply IH|apply delete_subseteq].
Qed.

(** The batches of a sequence of operations have at most [b] entries. *)
Definition batches_le (b : Z) (ops : list log_op) : Prop :=
  Forall (λ op, match op with OpAppend es _ => Z.of_nat (length es) ≤ b | _ => True end) ops.

Record cache_small (b : Z) (pl : PersistentLog E) : Prop := {
  cs_limit : tailCacheLimit pl = 4096;
  cs_size : Z.of_nat (size (tailCache pl)) ≤ 4096 + 1 + b
}.

Lemma cache_small_subset b (pl pl' : PersistentLog E) :
  tailCacheLimit pl' = tailCacheLimit pl → tailCache pl' ⊆ tailCache pl →
  cache_small b pl → cache_small b pl'.
Proof.
  intros Hl Hc [Hlim Hs]. apply size_le_subseteq in Hc. split; [congruence|lia].
Qed.

Lemma AppendEntries_cache b es sync (pl : PersistentLog E) al err pl' :
  log_rep pl al → op_pre al (OpAppend es sync) → Z.of_nat (length es) ≤ b →
  AppendEntries es sync pl = (err, pl') → cache_small b pl → cache_small b pl'.
Proof.
  intros Hr Hpre Hb Ha Hsm.
  pose proof (exec_rep (OpAppend es sync) pl al err pl' Hr Hpre Ha) as Hr'.
  destruct es as [|e0 es]; [by injection Ha as <- <-|]. destruct Hpre as (Hi & _ & Hmax).
  unfold AppendEntries in Ha. destruct (set_keys (e0 :: es)) as [sets|].
  2:{ injection Ha as <- <-. revert Hsm. apply cache_small_subset; [done|apply drop_cached_subseteq]. }
  destruct (eng_Commit _ _ _) as [[err'|] e'].
  { injection Ha as <- <-. revert Hsm. apply cache_small_subset; [done|apply drop_cached_subseteq]. }
  injection Ha as <- <-. destruct Hsm as [Hlim _]. revert Hr'. unfold evictTailCacheLocked. simpl.
  rewrite Hlim. destruct (_ <=? 4096) eqn:Hle; intros Hr'; [split; simpl in *; lia|].
  split; [done|]. simpl. pose proof (wf_last _ (r_wf _ _ Hr)). pose proof (wf_base _ (r_wf _ _ Hr)).
  etrans; [apply (size_interval _ (lastIndex pl ⊟ u64 4096) (a_last al + b))|].
  - intros i x Hx. split.
    + apply map_lookup_filter_Some in Hx as [_ Hx]. simpl in Hx. lia.
    + apply (r_cache _ _ Hr') in Hx as [_ Hx]%entry_at_Some.
      change (i ≤ a_last (a_append (e0 :: es) al)) in Hx.
      rewrite a_last_append in Hx by lia. simpl in Hb. lia.
  - rewrite (r_last _ _ Hr). simpl in Hb. u64_lia.
Qed.

(** Every outcome of an operation that only removes from the cache. *)
Local Ltac cache_cases Hsm :=
  repeat case_match; intros; simplify_eq; revert Hsm; (apply cache_small_subset; [done|]);
  first [done | apply drop_cached_subseteq | apply map_empty_subseteq].

Lemma exec_cache b op (pl : PersistentLog E) al err pl' :
  log_rep pl al → op_pre al op → batches_le b [op] → 0 ≤ b →
  exec op pl = (err, pl') → cache_small b pl → cache_small b pl'.
Proof.
  intros Hr Hpre Hb H0b He Hsm. apply Forall_inv in Hb. destruct op as [t v|es sync|from|i t|i t|]; simpl in He.
  - revert He. unfold SetTermAndVote. cache_cases Hsm.
  - exact (AppendEntries_cache b es sync pl al err pl' Hr Hpre Hb He Hsm).
  - revert He. unfold TruncateSuffix. cache_cases Hsm.
  - revert He. unfold CompactPrefix. cache_cases Hsm.
  - revert He. unfold RestoreSnapshotBoundary. cache_cases Hsm.
  - rewrite (OpenPersistentLog_rep (engine pl) al) in He by apply Hr. injection He as <- <-.
    split; [done|]. change (tailCache _) with (∅ : gmap Z Entry). rewrite map_size_empty. lia.
Qed.

Lemma run_cache b ops (pl : PersistentLog E) al :
  log_rep pl al → guarded ops pl al → batches_le b ops → 0 ≤ b →
  cache_small b pl → cache_small b (run ops pl al).1.
Proof.
  revert pl al. induction ops as [|op ops IH]; intros pl al Hr Hg Hb H0b Hsm; simpl in *; [done|].
  destruct Hg as [Hpre Hg]. apply Forall_cons in Hb as [Hb1 Hb].
  destruct (exec op pl) as [err pl'] eqn:He. apply IH; try done; [by eapply exec_rep|].
  eapply exec_cache; [done..| |done|done|done]. by apply Forall_singleton.
Qed.

(** C17: From an empty engine, any guarded sequence of log operations, with any
    of them failing in the engine, leaves the log representing the abstract log
    that skips exactly the failed operations. *)
Theorem log_simulation (e : E) ops :
  contents e = ∅ → readable e →
  ∃ pl, OpenPersistentLog e = Ok pl ∧
    (guarded ops pl fresh_alog →
     log_rep (run ops pl fresh_alog).1 (run ops pl fresh_alog).2).
Proof.
  intros Hc Hr. destruct (log_rep_open e fresh_alog) as (pl & Ho & Hrep & _);
    [done | apply fresh_alog_wf | rewrite Hc; apply fresh_disk_rep|].
  exists pl. split; [done|]. by apply run_rep.
Qed.

(** C18: The tail cache stays bounded: however many entries a log opened from an
    empty engine is given, in batches of at most [b], its in-memory cache never
    holds more than the limit of 4096 entries, one, and one batch: eviction
    counts back from the last index before the batch and keeps both ends. *)
Theorem tail_cache_bounded (e : E) ops b :
  contents e = ∅ → readable e → 0 ≤ b → batches_le b ops →
  ∃ pl, OpenPersistentLog e = Ok pl ∧
    (guarded ops pl fresh_alog →
     Z.of_nat (size (tailCache (run ops pl fresh_alog).1)) ≤ 4096 + 1 + b).
Proof.
  intros Hc Hr H0b Hb. destruct (log_rep_open e fresh_alog) as (pl & Ho & Hrep & _ & Hcache);
    [done | apply fresh_alog_wf | rewrite Hc; apply fresh_disk_rep|].
  exists pl. split; [done|]. intros Hg. apply (run_cache b ops pl); try done.
  split; [|rewrite Hcache, map_size_empty; lia].
  revert Ho. unfold OpenPersistentLog. repeat case_match; by intros [= <-].
Qed.

(** Restart recovers the log: opening the engine of a log gives back the
    same boundaries, term, vote and entries, with an empty cache. *)
Theorem OpenPersistentLog_recovers (pl : PersistentLog E) al :
  log_rep pl al →
  ∃ pl', OpenPersistentLog (engine pl) = Ok pl' ∧ log_rep pl' al ∧ tailCache pl' = ∅ ∧
    firstIndex pl' = firstIndex pl ∧ lastIndex pl' = lastIndex pl ∧
    lastIncludedIndex pl' = lastIncludedIndex pl ∧ lastIncludedTerm pl' = lastIncludedTerm pl ∧
    currentTerm pl' = currentTerm pl ∧ votedFor pl' = votedFor pl ∧
    ∀ i, is_u64 i → Get i pl' = Get i pl.
Proof.
  intros Hr. destruct (log_rep_open (engine pl) al) as (pl' & Ho & Hr' & _ & Hc); try apply Hr.
  exists pl'. split_and!; try done.
  - by rewrite (r_first _ _ Hr'), (r_first _ _ Hr).
  - by rewrite (r_last _ _ Hr'), (r_last _ _ Hr).
  - by rewrite (r_li _ _ Hr'), (r_li _ _ Hr).
  - by rewrite (r_lt _ _ Hr'), (r_lt _ _ Hr).
  - by rewrite (r_term _ _ Hr'), (r_term _ _ Hr).
  - by rewrite (r_vote _ _ Hr'), (r_vote _ _ Hr).
  - intros i Hi. by rewrite (Get_rep _ _ _ Hr'), (Get_rep _ _ _ Hr).
Qed.

(** [AppendEntries] with contiguous entries that start inside the log or
    right after it: on success the log is the old prefix followed by the new
    entries; on failure it is unchanged; it fails only when an entry has no
    encoding or the engine refuses the batch. *)
Theorem AppendEntries_refines (pl : PersistentLog E) al e0 es sync err pl' :
  log_rep pl al → a_base al < Index e0 ≤ a_last al + 1 → contiguous (Index e0 - 1) (e0 :: es) →
  Index e0 + Z.of_nat (length es) < u64_mod - 1 →
  AppendEntries (e0 :: es) sync pl = (err, pl') →
  log_rep pl' (after err al (a_append (e0 :: es) al)) ∧
  (Forall encodable (e0 :: es) → accepts (engine pl) → err = None).
Proof.
  intros Hr Hi Hc Hb Ha. split; [by eapply AppendEntries_rep|].
  intros Henc Hacc. destruct (set_keys_ok _ Henc) as [ops Hops].
  unfold AppendEntries in Ha. rewrite Hops in Ha.
  destruct (eng_Commit _ _ _) as [err' e'] eqn:Hcommit.
  pose proof (Hacc (delete_keys (if Index e0 <=? lastIndex pl
    then upto (Index e0) (lastIndex pl) else []) ++ ops) {| Sync := sync |}) as Hn.
  simpl in Hcommit. rewrite Hcommit in Hn. simpl in Hn. subst. by injection Ha as <- _.
Qed.

(** Reads agree with the abstract log: [Get] on every index (with the error
    that the code returns below the boundary and beyond the end), [TermAt],
    [LastTerm], and the accessors of the boundaries, the term and the vote. *)
Theorem log_reads (pl : PersistentLog E) al i :
  log_rep pl al → is_u64 i →
  Get i pl = match entry_at al i with
             | Some e => Ok e
             | None => if i <=? a_base al then Err (ErrCompacted i (a_base al))
                       else Err ErrNotFound
             end ∧
  TermAt i pl = a_term_at al i ∧ LastTerm pl = a_last_term al ∧ LastIndex pl = a_last al ∧
  FirstIndex pl = a_base al + 1 ∧ LastIncludedIndexAndTerm pl = (a_base al, a_base_term al) ∧
  CurrentTerm pl = a_term al ∧ VotedFor pl = a_vote al.
Proof.
  intros Hr Hi.
  split_and!; [by apply Get_rep | by apply TermAt_rep | by apply LastTerm_rep | apply Hr | apply Hr
    | | apply Hr | apply Hr].
  unfold LastIncludedIndexAndTerm. by rewrite (r_li _ _ Hr), (r_lt _ _ Hr).
Qed.

(** [Range] returns exactly the requested slice, and on a range that starts
    in the compacted prefix or right after the end it fails with the error that
    makes the leader fall back to a snapshot. *)
Theorem Range_spec (pl : PersistentLog E) al from to :
  log_rep pl al → is_u64 from → is_u64 to →
  Range from to pl =
    if to <? from then Ok []
    else if from <=? a_base al then Err (ErrCompacted from (a_base al))
    else if to <=? a_last al then Ok (a_slice from to al)
    else Err ErrNotFound.
Proof.
  intros Hr Hf Ht. pose proof (r_wf _ _ Hr) as Hwf. pose proof (wf_last _ Hwf).
  pose proof (wf_base _ Hwf). unfold Range, upto, a_slice. case_Z; [done|].
  destruct (Z.leb_spec from (a_base al)).
  { rewrite seqZ_cons by lia. apply read_all_err. rewrite (Get_rep _ _ _ Hr) by done.
    rewrite entry_at_None by lia. by case_Z; [|lia]. }
  destruct (Z.leb_spec to (a_last al)).
  { rewrite <-(Z2Nat.id (to - from + 1)) at 1 by lia. apply (read_all_ok _ al); (done || lia). }
  apply (read_all_past pl al); (done || u64_lia).
Qed.

(** [CompactPrefix] and [RestoreSnapshotBoundary] move the boundary as the
    abstract log does (compaction keeps the entries above the new boundary,
    installing a snapshot drops them all); a failed write changes nothing. *)
Theorem boundary_moves_refine (pl : PersistentLog E) al index term err pl' :
  log_rep pl al → 0 ≤ index < u64_mod - 1 → is_u64 term →
  (CompactPrefix index term pl = (err, pl') →
     log_rep pl' (after err al (a_compact index term al)) ∧ (accepts (engine pl) → err = None)) ∧
  (RestoreSnapshotBoundary index term pl = (err, pl') →
     log_rep pl' (after err al (a_restore index term al)) ∧ (accepts (engine pl) → err = None)).
Proof.
  intros Hr Hi Ht. split; intros Hop; (split; [|intros Hacc]).
  - eapply CompactPrefix_rep; (done || lia).
  - unfold CompactPrefix in Hop. destruct (index <=? lastIncludedIndex pl); [by injection Hop|].
    by eapply commit_accepted in Hop.
  - by eapply RestoreSnapshotBoundary_rep.
  - by eapply commit_accepted in Hop.
Qed.

(** Appending an entry that the log already holds at [i] cuts the log at
    [i]: the entries after it are dropped although nothing conflicts. *)
Theorem AppendEntries_drops_matching_suffix (pl : PersistentLog E) al i e sync pl' :
  log_rep pl al → entry_at al i = Some e → AppendEntries [e] sync pl = (None, pl') →
  lastIndex pl' = i ∧ ∀ j, i < j → is_u64 j → Get j pl' = Err ErrNotFound.
Proof.
  intros Hr He Ha. pose proof (r_wf _ _ Hr) as Hwf.
  pose proof (entry_at_Index _ _ _ Hwf He) as Hidx. pose proof (entry_at_Some _ _ _ He) as Hi.
  pose proof (wf_last _ Hwf).
  assert (log_rep pl' (a_append [e] al)) as Hr'.
  { eapply (AppendEntries_rep pl al e [] sync None); try done; simpl; [lia| |lia].
    intros [|j] e' Hj; simplify_eq/=; lia. }
  split.
  - rewrite (r_last _ _ Hr'), a_last_append by lia. simpl. lia.
  - intros j Hj Hu. rewrite (Get_rep _ _ _ Hr') by done. rewrite entry_at_append by lia.
    destruct (Z.ltb_spec j (Index e)); [lia|].
    rewrite lookup_ge_None_2 by (simpl; lia). simpl. by case_Z; [lia|].
Qed.

End theorems.

(** ** Witnesses *)

Lemma empty_log_rep : log_rep empty_log fresh_alog.
Proof.
  split; try done; apply fresh_alog_wf || apply fresh_disk_rep || apply cache_ok_empty.
Qed.

Lemma demo_log_eq : AppendEntries demo_entries true empty_log = (None, demo_log).
Proof. vm_compute. reflexivity. Qed.

Lemma demo_log_rep : log_rep demo_log demo_alog.
Proof.
  change demo_alog with (after None fresh_alog (a_append demo_entries fresh_alog)).
  eapply AppendEntries_rep; [apply empty_log_rep | | | | apply demo_log_eq].
  - unfold a_last; simpl; lia.
  - by apply contiguousb_sound.
  - simpl. unfold u64_mod. lia.
Qed.

Lemma log_simulation_witness :
  guarded demo_ops empty_log fresh_alog ∧
  log_rep (run demo_ops empty_log fresh_alog).1 (run demo_ops empty_log fresh_alog).2.
Proof.
  assert (guarded demo_ops empty_log fresh_alog) as Hg
    by (apply guardedb_sound; vm_compute; reflexivity).
  split; [exact Hg|].
  destruct (log_simulation mem_new demo_ops) as (pl & Ho & Hrun); [reflexivity|reflexivity|].
  rewrite test_open_empty in Ho. injection Ho as <-. exact (Hrun Hg).
Defined.

Lemma tail_cache_bounded_witness :
  guarded demo_ops empty_log fresh_alog ∧ batches_le 3 demo_ops ∧
  Z.of_nat (size (tailCache (run demo_ops empty_log fresh_alog).1)) ≤ 4100.
Proof.
  assert (guarded demo_ops empty_log fresh_alog) as Hg
    by (apply guardedb_sound; vm_compute; reflexivity).
  assert (batches_le 3 demo_ops) as Hb by (repeat constructor; simpl; lia).
  split; [exact Hg|]. split; [exact Hb|].
  destruct (tail_cache_bounded mem_new demo_ops 3) as (pl & Ho & Hrun);
    [reflexivity|reflexivity|lia|exact Hb|].
  rewrite test_open_empty in Ho. injection Ho as <-. exact (Hrun Hg).
Defined.

Lemma OpenPersistentLog_recovers_witness :
  log_rep demo_log demo_alog ∧
  ∃ pl', OpenPersistentLog (engine demo_log) = Ok pl' ∧ lastIndex pl' = 3 ∧
    Get 2 pl' = Ok (put_entry 2 1 "b" (bytes_of "2")).
Proof.
  split; [exact demo_log_rep|].
  destruct (OpenPersistentLog_recovers demo_log demo_alog demo_log_rep)
    as (pl' & Ho & _ & _ & _ & Hl & _ & _ & _ & _ & Hg).
  exists pl'. split; [exact Ho|]. split; [rewrite Hl; reflexivity|].
  rewrite Hg by (unfold is_u64, u64_mod; lia). vm_compute. reflexivity.
Defined.

Lemma AppendEntries_refines_witness :
  log_rep (AppendEntries [put_entry 2 3 "x" []] true demo_log).2
    (a_append [put_entry 2 3 "x" []] demo_alog).
Proof.
  apply (AppendEntries_refines demo_log demo_alog (put_entry 2 3 "x" []) [] true None).
  - exact demo_log_rep.
  - vm_compute. intuition discriminate.
  - apply contiguousb_sound. reflexivity.
  - vm_compute. reflexivity.
  - vm_compute. reflexivity.
Defined.

Lemma log_reads_witness :
  is_u64 3 ∧ Get 3 demo_log = Ok (put_entry 3 2 "c" []) ∧ TermAt 3 demo_log = Some 2.
Proof.
  assert (is_u64 3) as Hu by (unfold is_u64, u64_mod; lia). split; [exact Hu|].
  destruct (log_reads demo_log demo_alog 3 demo_log_rep Hu) as (Hg & Ht & _).
  rewrite Hg, Ht. split; reflexivity.
Defined.

Lemma Range_spec_witness :
  Range 2 3 demo_log = Ok [put_entry 2 1 "b" (bytes_of "2"); put_entry 3 2 "c" []] ∧
  Range 2 9 demo_log = Err ErrNotFound.
Proof.
  split; (rewrite (Range_spec demo_log demo_alog) by
    (exact demo_log_rep || (unfold is_u64, u64_mod; lia))); reflexivity.
Defined.

Lemma boundary_moves_refine_witness :
  log_rep (CompactPrefix 2 1 demo_log).2 (a_compact 2 1 demo_alog) ∧
  log_rep (RestoreSnapshotBoundary 9 4 demo_log).2 (a_restore 9 4 demo_alog).
Proof.
  split.
  - apply (boundary_moves_refine demo_log demo_alog 2 1 None);
      [exact demo_log_rep | unfold u64_mod; lia | unfold is_u64, u64_mod; lia |].
    vm_compute. reflexivity.
  - apply (boundary_moves_refine demo_log demo_alog 9 4 None);
      [exact demo_log_rep | unfold u64_mod; lia | unfold is_u64, u64_mod; lia |].
    vm_compute. reflexivity.
Defined.

Lemma AppendEntries_drops_matching_suffix_witness :
  let pl' := (AppendEntries [put_entry 1 1 "a" (bytes_of "1")] true demo_log).2 in
  lastIndex demo_log = 3 ∧ lastIndex pl' = 1 ∧ Get 2 pl' = Err ErrNotFound.
Proof.
  cbv zeta. split; [reflexivity|].
  destruct (AppendEntries_drops_matching_suffix demo_log demo_alog 1
    (put_entry 1 1 "a" (bytes_of "1")) true
    (AppendEntries [put_entry 1 1 "a" (bytes_of "1")] true demo_log).2 demo_log_rep)
    as [Hl Hg]; [reflexivity | vm_compute; reflexivity |].
  split; [exact Hl | apply Hg; unfold is_u64, u64_mod; lia].
Defined.
