(* ===== verification/FullLog.v ===== *)
(** * The whole log of a node, compacted entries included.

    Compaction and snapshots remove entries from a log, but not from its
    history.  [full pl l] says that [l] lists all the entries since index 1 and
    that the persistent log [pl] holds those after its snapshot boundary.  The
    operations of the log are restated on [l]. *)

From S2P Require Import Prelude Bytes Storage Codec Log LogSpec LogTheorems.

(** The term of the entry at index [k], as the code reads it: 0 at index 0. *)
Definition term_of (l : list Entry) (k : Z) : Z :=
  if k <=? 0 then 0 else match l !! Z.to_nat (k - 1) with Some e => Term e | None => 0 end.

(** [al] shows the entries of [l] after its boundary. *)
Record view (l : list Entry) (al : alog) : Prop := {
  v_base : 0 ≤ a_base al ≤ Z.of_nat (length l);
  v_entries : a_entries al = drop (Z.to_nat (a_base al)) l;
  v_term : a_base_term al = term_of l (a_base al);
  v_contiguous : contiguous 0 l
}.

Definition full {E} `{EngineSpec E} `{Codec Entry} (pl : PersistentLog E) (l : list Entry) : Prop :=
  ∃ al, log_rep pl al ∧ view l al.

(** ** Lists of entries *)

Lemma term_of_app l1 l2 k : k ≤ Z.of_nat (length l1) → term_of (l1 ++ l2) k = term_of l1 k.
Proof. intros Hk. unfold term_of. case_Z; [done|]. by rewrite lookup_app_l by lia. Qed.

Lemma term_of_prefix l1 l2 k :
  l1 `prefix_of` l2 → k ≤ Z.of_nat (length l1) → term_of l2 k = term_of l1 k.
Proof. intros [r ->]. apply term_of_app. Qed.

Lemma term_of_lookup l k e : l !! k = Some e → term_of l (Z.of_nat k + 1) = Term e.
Proof.
  intros He. unfold term_of. case_Z; [lia|].
  replace (Z.to_nat (Z.of_nat k + 1 - 1)) with k by lia. by rewrite He.
Qed.

Lemma lookup_index l k :
  0 < k ≤ Z.of_nat (length l) → ∃ e, l !! Z.to_nat (k - 1) = Some e ∧ term_of l k = Term e.
Proof.
  intros Hk. destruct (lookup_lt_is_Some_2 l (Z.to_nat (k - 1))) as [e He]; [lia|].
  exists e. split; [done|]. apply term_of_lookup in He. by replace (_ + 1) with k in He by lia.
Qed.

Lemma contiguous_prefix b l1 l2 : l1 `prefix_of` l2 → contiguous b l2 → contiguous b l1.
Proof. intros [r ->] Hc j e Hj. apply Hc. by apply lookup_app_l_Some. Qed.

Lemma slice_prefix (es l : list Entry) p :
  (∀ j, (j < length es)%nat → es !! j = l !! (p + j)%nat) → es `prefix_of` drop p l.
Proof.
  intros Hes. assert (es = take (length es) (drop p l)) as -> by (
    apply list_eq; intros j; destruct (decide (j < length es)%nat) as [Hj|Hj];
    [by rewrite lookup_take_lt, lookup_drop, Hes by done
    |by rewrite lookup_ge_None_2, lookup_take_ge by lia]).
  apply prefix_take.
Qed.

(** ** What a view shows *)

Lemma view_last l al : view l al → a_last al = Z.of_nat (length l).
Proof.
  intros [Hb He _ _]. unfold a_last. rewrite He, length_drop. lia.
Qed.

Lemma view_entry l al i :
  view l al → entry_at al i = if i <=? a_base al then None else l !! Z.to_nat (i - 1).
Proof.
  intros [Hb He _ _]. unfold entry_at. case_Z; [done|].
  rewrite He, lookup_drop. f_equal. lia.
Qed.

Lemma view_term_at l al i t :
  view l al → a_term_at al i = Some t → a_base al ≤ i ≤ Z.of_nat (length l) ∧ t = term_of l i.
Proof.
  intros Hv. unfold a_term_at. case_Z.
  - subst. intros [= <-]. pose proof (v_base _ _ Hv). split; [lia|]. apply Hv.
  - rewrite (view_entry _ _ _ Hv). case_Z; [done|]. intros (e & He & ->)%fmap_Some.
    pose proof (lookup_lt_Some _ _ _ He). pose proof (v_base _ _ Hv). split; [lia|].
    apply term_of_lookup in He. by replace (Z.of_nat _ + 1) with i in He by lia.
Qed.

Lemma view_append l al prev es :
  view l al → a_base al ≤ prev ≤ Z.of_nat (length l) → contiguous prev es → es ≠ [] →
  view (take (Z.to_nat prev) l ++ es) (a_append es al).
Proof.
  intros [Hb He Ht Hc] Hp Hes Hne. destruct es as [|e0 es]; [done|].
  assert (Index e0 = prev + 1) as Hi by (by apply contiguous_cons in Hes as [-> _]).
  split; cbn [a_append a_base a_entries a_base_term].
  - rewrite length_app, length_take. lia.
  - rewrite He, Hi, drop_app_le by (rewrite length_take; lia). f_equal.
    rewrite skipn_firstn_comm. f_equal. lia.
  - rewrite Ht, term_of_app by (rewrite length_take; lia).
    apply term_of_prefix; [apply prefix_take|]. rewrite length_take. lia.
  - apply contiguous_app; [by apply contiguous_take|]. rewrite length_take.
    by replace (0 + _) with prev by lia.
Qed.

Lemma view_compact l al i t :
  view l al → a_base al ≤ i ≤ Z.of_nat (length l) → t = term_of l i → view l (a_compact i t al).
Proof.
  intros [Hb He Ht Hc] Hi ->. unfold a_compact. case_Z; [by split|].
  split; simpl; try done; [lia|]. rewrite He, drop_drop. f_equal. lia.
Qed.

Lemma view_restore l al i t :
  i = Z.of_nat (length l) → t = term_of l i → contiguous 0 l → view l (a_restore i t al).
Proof.
  intros -> -> Hc. split; simpl; try done; [lia|]. by rewrite Nat2Z.id, drop_all.
Qed.

Section full.
Context {E : Type} `{EngineSpec E} `{CodecSpec Entry}.
Implicit Types (pl : PersistentLog E).

(** ** The reads *)

Lemma full_length pl l : full pl l → Z.of_nat (length l) < u64_mod - 1.
Proof.
  intros (al & Hr & Hv). rewrite <-(view_last _ _ Hv). apply Hr.
Qed.

Lemma full_last pl l : full pl l → lastIndex pl = Z.of_nat (length l).
Proof. intros (al & Hr & Hv). by rewrite (r_last _ _ Hr), (view_last _ _ Hv). Qed.

Lemma full_Get pl l k e :
  full pl l → is_u64 k → Get k pl = Ok e → 0 < k ∧ l !! Z.to_nat (k - 1) = Some e.
Proof.
  intros (al & Hr & Hv) Hk. rewrite (Get_rep _ _ _ Hr), (view_entry _ _ _ Hv) by done.
  destruct (Z.leb_spec k (a_base al)); [done|]. pose proof (v_base _ _ Hv).
  destruct (l !! _) as [e'|]; [|done]. intros [= ->]. split; [lia|done].
Qed.

Lemma full_TermAt pl l k t :
  full pl l → is_u64 k → TermAt k pl = Some t →
  lastIncludedIndex pl ≤ k ≤ Z.of_nat (length l) ∧ t = term_of l k.
Proof.
  intros (al & Hr & Hv) Hk. rewrite (TermAt_rep _ _ _ Hr), (r_li _ _ Hr) by done.
  by apply view_term_at.
Qed.

Lemma full_LastTerm pl l : full pl l → LastTerm pl = term_of l (Z.of_nat (length l)).
Proof.
  intros (al & Hr & Hv). rewrite (LastTerm_rep _ _ Hr). rewrite <-(view_last _ _ Hv).
  apply (view_term_at _ _ _ _ Hv). apply a_term_at_last.
Qed.

(** ** The writes *)

Lemma full_open pl l :
  full pl l → ∃ pl', OpenPersistentLog (engine pl) = Ok pl' ∧ full pl' l.
Proof.
  intros (al & Hr & Hv). destruct (log_rep_open (engine pl) al) as (pl' & Ho & Hr' & _); try apply Hr.
  exists pl'. split; [done|]. by exists al.
Qed.

Lemma full_SetTermAndVote pl l t v : full pl l → is_u64 t → full (SetTermAndVote t v pl).2 l.
Proof.
  intros (al & Hr & Hv) Ht. destruct (SetTermAndVote t v pl) as [err pl'] eqn:Hs.
  apply (SetTermAndVote_rep _ _ _ _ _ _ Hr Ht) in Hs. eexists. split; [exact Hs|].
  destruct err; [done|]. by destruct Hv.
Qed.

Lemma full_AppendEntries pl l prev es sync err pl' :
  full pl l → lastIncludedIndex pl ≤ prev ≤ Z.of_nat (length l) → contiguous prev es → es ≠ [] →
  prev + Z.of_nat (length es) < u64_mod - 1 → AppendEntries es sync pl = (err, pl') →
  full pl' (after err l (take (Z.to_nat prev) l ++ es)).
Proof.
  intros (al & Hr & Hv) Hp Hc Hne Hb Ha. rewrite (r_li _ _ Hr) in Hp.
  pose proof (view_append _ _ _ _ Hv Hp Hc Hne) as Hv'. destruct es as [|e0 es]; [done|].
  assert (Index e0 = prev + 1) as Hi by (by apply contiguous_cons in Hc as [-> _]).
  eapply AppendEntries_rep in Ha; [|exact Hr|..].
  - eexists. split; [exact Ha|]. by destruct err.
  - rewrite Hi, (view_last _ _ Hv). lia.
  - by replace (Index e0 - 1) with prev by lia.
  - simpl in Hb. lia.
Qed.

(** The entry that a leader adds to its own log. *)
Lemma full_append_one pl l e sync err pl' :
  full pl l → lastIndex pl < u64_mod - 2 → Index e = lastIndex pl ⊞ 1 →
  AppendEntries [e] sync pl = (err, pl') →
  Index e = Z.of_nat (length l) + 1 ∧ full pl' (after err l (l ++ [e])).
Proof.
  intros Hf Hroom Hi Ha. pose proof (full_last _ _ Hf) as Hl. rewrite Hl in Hroom, Hi.
  rewrite u64_small in Hi by u64_lia. split; [done|].
  assert (lastIncludedIndex pl ≤ Z.of_nat (length l)) as Hli.
  { destruct Hf as (al & Hr & Hv). rewrite (r_li _ _ Hr). apply Hv. }
  eapply (full_AppendEntries _ _ (Z.of_nat (length l))) in Ha; try done;
    [|apply contiguous_cons; split; [lia|by intros ? ? ?]|simpl; lia].
  by rewrite Nat2Z.id, firstn_all in Ha.
Qed.

Lemma full_appended pl l e sync pl' :
  full pl l → lastIndex pl < u64_mod - 2 → Index e = lastIndex pl ⊞ 1 →
  AppendEntries [e] sync pl = (None, pl') → Get (Index e) pl' = Ok e.
Proof.
  intros (al & Hr & Hv) Hroom Hi Ha. pose proof (v_base _ _ Hv) as Hb.
  rewrite (r_last _ _ Hr), (view_last _ _ Hv) in Hroom, Hi. rewrite u64_small in Hi by u64_lia.
  eapply AppendEntries_rep in Ha; [|exact Hr|rewrite (view_last _ _ Hv); lia
    |apply contiguous_cons; split; [lia|by intros ? ? ?]|simpl; lia].
  simpl in Ha. rewrite (Get_rep _ _ _ Ha) by u64_lia. unfold entry_at. simpl. case_Z; [lia|].
  rewrite lookup_app_r by (rewrite length_take; lia).
  rewrite length_take, (v_entries _ _ Hv), length_drop.
  by replace (_ - _)%nat with 0%nat by lia.
Qed.

Lemma full_CompactPrefix pl l i t :
  full pl l → is_u64 i → is_u64 t → TermAt i pl = Some t → full (CompactPrefix i t pl).2 l.
Proof.
  intros Hf Hi Ht Hta. pose proof (full_TermAt _ _ _ _ Hf Hi Hta) as [Hle Heq].
  pose proof (full_length _ _ Hf). destruct Hf as (al & Hr & Hv). rewrite (r_li _ _ Hr) in Hle.
  destruct (CompactPrefix i t pl) as [err pl'] eqn:Hc.
  eapply CompactPrefix_rep in Hc; [|exact Hr|lia|done]. eexists. split; [exact Hc|].
  destruct err; [done|]. by apply view_compact.
Qed.

Lemma full_RestoreSnapshotBoundary pl l i t l' err pl' :
  full pl l → i = Z.of_nat (length l') → i < u64_mod - 1 → t = term_of l' i → is_u64 t →
  contiguous 0 l' → RestoreSnapshotBoundary i t pl = (err, pl') → full pl' (after err l l').
Proof.
  intros (al & Hr & Hv) Hi Hb Ht Hu Hc Hrs.
  eapply RestoreSnapshotBoundary_rep in Hrs; [|exact Hr|lia|done]. eexists. split; [exact Hrs|].
  destruct err; [done|]. by apply view_restore.
Qed.

End full.
