(* ===== verification/StateMachine.v ===== *)
(** * internal/kv/state_machine.go: the replicated key-value store.

    [StateMachine] keeps the committed pairs in a storage engine under the
    prefix "d/".  [kv_rep] says which finite map it represents; the operations
    are shown to act on that map, and a snapshot to carry it from one node to
    another. *)

From S2P Require Import Prelude Bytes Storage Codec.

Module KV.

Definition dataPrefix : bytes := bytes_of "d/".

Definition dataKey (key : string) : bytes := dataPrefix ++ bytes_of key.

Record StateMachine (E : Type) := mkSM {
  sm_engine : E;
  sm_lastApplied : Z
}.
Arguments mkSM {E}.
Arguments sm_engine {E}.
Arguments sm_lastApplied {E}.

Record Snapshot := { Pairs : gmap string bytes }.

(** The copy of [prefixUpperBound] that this package has. *)
Definition prefixUpperBound (prefix : bytes) : option bytes :=
  reverse <$> bump_last (reverse prefix).

Section state_machine.
Context {E : Type} `{Engine E} `{Codec (gmap string bytes)}.
Implicit Types (s : StateMachine E).

Definition NewStateMachine (e : E) : StateMachine E := mkSM e 0.

(** [None] is Go's [(nil, false, nil)]. *)
Definition Get (key : string) s : result (option bytes) :=
  match eng_Get (sm_engine s) (dataKey key) with
  | Err ErrNotFound => Ok None
  | Err err => Err err
  | Ok v => Ok (Some v)
  end.

Definition ApplyPut (index : Z) (key : string) (value : bytes) s : option error * StateMachine E :=
  let '(err, e) := eng_Set (dataKey key) value {| Sync := false |} (sm_engine s) in
  match err with
  | Some err => (Some err, mkSM e (sm_lastApplied s))
  | None => (None, mkSM e index)
  end.

Definition ApplyDelete (index : Z) (key : string) s : option error * StateMachine E :=
  let '(err, e) := eng_Delete (dataKey key) {| Sync := false |} (sm_engine s) in
  match err with
  | Some err => (Some err, mkSM e (sm_lastApplied s))
  | None => (None, mkSM e index)
  end.

Definition ApplyNoop (index : Z) s : StateMachine E := mkSM (sm_engine s) index.

Definition LastApplied s : Z := sm_lastApplied s.

(** The loop of [Dump]: strip the prefix of each key and fill the map. *)
Definition add_pair (pairs : gmap string bytes) (kv : bytes * bytes) : gmap string bytes :=
  <[string_of (drop (length dataPrefix) kv.1) := kv.2]> pairs.

Definition collect (it : list (bytes * bytes)) : gmap string bytes := foldl add_pair ∅ it.

Definition Dump s : result Snapshot :=
  let? it := eng_NewIterator (sm_engine s) dataPrefix (prefixUpperBound dataPrefix) in
  Ok {| Pairs := collect it |}.

Definition restore_batch (it : list (bytes * bytes)) (pairs : gmap string bytes) : list batch_op :=
  ((λ kv, BDelete kv.1) <$> it) ++ ((λ kv, BSet (dataKey kv.1) kv.2) <$> map_to_list pairs).

Definition Restore (snap : Snapshot) (appliedIndex : Z) s : option error * StateMachine E :=
  match eng_NewIterator (sm_engine s) dataPrefix (prefixUpperBound dataPrefix) with
  | Err err => (Some err, s)
  | Ok it =>
      let '(err, e) := eng_Commit (restore_batch it (Pairs snap)) {| Sync := true |} (sm_engine s) in
      match err with
      | Some err => (Some err, mkSM e (sm_lastApplied s))
      | None => (None, mkSM e appliedIndex)
      end
  end.

Definition Marshal (snap : Snapshot) : result bytes :=
  match encode (Pairs snap) with
  | Err _ => Err ErrCodec
  | Ok b => Ok b
  end.

Definition UnmarshalSnapshot (data : bytes) : result Snapshot :=
  match decode data with
  | Err _ => Err ErrCodec
  | Ok pairs => Ok {| Pairs := pairs |}
  end.

End state_machine.

(** ** What the store represents *)

Record kv_rep {E} `{EngineSpec E} (s : StateMachine E) (m : gmap string bytes) : Prop := {
  kv_pairs k : contents (sm_engine s) !! dataKey k = m !! k;
  kv_readable : readable (sm_engine s)
}.

(** A write of this package leaves the rest of the keyspace alone. *)
Definition outside_kept (c c' : gmap bytes bytes) : Prop :=
  ∀ k, ¬ dataPrefix `prefix_of` k → c' !! k = c !! k.

(** ** Facts on keys *)

Lemma dataKey_inj k1 k2 : dataKey k1 = dataKey k2 → k1 = k2.
Proof. intros Heq%app_inv_head. by apply bytes_of_inj. Qed.

Lemma dataKey_prefix k : dataPrefix `prefix_of` dataKey k.
Proof. by apply prefix_app_r. Qed.

Lemma dataKey_of k : dataPrefix `prefix_of` k → ∃ s, k = dataKey s.
Proof. intros [r ->]. exists (string_of r). unfold dataKey. by rewrite bytes_of_string_of. Qed.

Lemma strip_dataKey k : string_of (drop (length dataPrefix) (dataKey k)) = k.
Proof. unfold dataKey. by rewrite drop_app_length, string_of_bytes_of. Qed.

Lemma not_prefix_ne k s : ¬ dataPrefix `prefix_of` k → dataKey s ≠ k.
Proof. intros Hk <-. apply Hk, dataKey_prefix. Qed.

(** ** The loop of [Dump] *)

Lemma collect_lookup_None it acc k :
  (∀ kv, kv ∈ it → string_of (drop (length dataPrefix) kv.1) ≠ k) →
  foldl add_pair acc it !! k = acc !! k.
Proof.
  revert acc. induction it as [|kv it IH]; intros acc Hk; [done|]. simpl.
  rewrite IH by set_solver. unfold add_pair. by rewrite lookup_insert_ne by (apply Hk; set_solver).
Qed.

Lemma collect_lookup_Some it acc k v :
  dataKey k ∈ it.*1 →
  (∀ kv, kv ∈ it → kv.1 = dataKey k → kv.2 = v) →
  (∀ kv, kv ∈ it → dataPrefix `prefix_of` kv.1) →
  foldl add_pair acc it !! k = Some v.
Proof.
  revert acc. induction it as [|[k' v'] it IH]; intros acc Hin Hv Hp; simpl in *; [set_solver|].
  destruct (decide (dataKey k ∈ it.*1)) as [Hin'|Hout].
  - apply IH; [done|intros; apply Hv; set_solver|intros; apply Hp; set_solver].
  - apply elem_of_cons in Hin as [<-|]; [|done].
    rewrite collect_lookup_None.
    + unfold add_pair. simpl fst. rewrite strip_dataKey, lookup_insert_eq. f_equal. apply (Hv (dataKey k, v')); set_solver.
    + intros kv Hkv Heq. apply Hout. destruct (dataKey_of kv.1) as [s Hs]; [apply Hp; set_solver|].
      rewrite Hs, strip_dataKey in Heq. subst s. rewrite <-Hs. by apply list_elem_of_fmap_2.
Qed.

Lemma collect_spec (it : list (bytes * bytes)) (c : gmap bytes bytes) :
  (∀ k v, (k, v) ∈ it ↔ c !! k = Some v ∧ dataPrefix `prefix_of` k) →
  ∀ k, collect it !! k = c !! dataKey k.
Proof.
  intros Hit k. unfold collect. destruct (c !! dataKey k) as [v|] eqn:Hc.
  - apply collect_lookup_Some.
    + apply list_elem_of_fmap. exists (dataKey k, v). split; [done|]. apply Hit.
      auto using dataKey_prefix.
    + intros [k' v'] Hkv ?. simpl in *. subst. apply Hit in Hkv as [Hkv _]. congruence.
    + intros [k' v'] Hkv. by apply Hit in Hkv as [_ ?].
  - rewrite collect_lookup_None; [apply lookup_empty|].
    intros [k' v'] Hkv. apply Hit in Hkv as [Hkv Hp]. simpl.
    destruct (dataKey_of k' Hp) as [s ->]. rewrite strip_dataKey. intros ->. congruence.
Qed.

(** ** The batch of [Restore] *)

Lemma delete_all_lookup (it : list (bytes * bytes)) (c : gmap bytes bytes) k :
  apply_batch ((λ kv : bytes * bytes, BDelete kv.1) <$> it) c !! k =
    if decide (k ∈ it.*1) then None else c !! k.
Proof.
  revert c. induction it as [|[k' v'] it IH]; intros c; [done|].
  change (apply_batch ((λ kv : bytes * bytes, BDelete kv.1) <$> it) (delete k' c) !! k =
    if decide (k ∈ k' :: it.*1) then None else c !! k).
  rewrite IH. destruct (decide (k ∈ it.*1)) as [Hin|Hout].
  - by rewrite decide_True by set_solver.
  - rewrite lookup_delete. destruct (decide (k' = k)) as [->|Hne].
    + by rewrite decide_True by set_solver.
    + by rewrite decide_False by set_solver.
Qed.

Lemma set_all_lookup_ne (l : list (string * bytes)) (c : gmap bytes bytes) k :
  (∀ kv : string * bytes, kv ∈ l → dataKey kv.1 ≠ k) →
  apply_batch ((λ kv, BSet (dataKey kv.1) kv.2) <$> l) c !! k = c !! k.
Proof.
  revert c. induction l as [|kv l IH]; intros c Hk; [done|].
  change (apply_batch ((λ kv, BSet (dataKey kv.1) kv.2) <$> l) (<[dataKey kv.1 := kv.2]> c) !! k = c !! k).
  rewrite IH by set_solver. by rewrite lookup_insert_ne by (apply Hk; set_solver).
Qed.

Lemma set_all_lookup (l : list (string * bytes)) (c : gmap bytes bytes) k v :
  NoDup l.*1 → (k, v) ∈ l →
  apply_batch ((λ kv, BSet (dataKey kv.1) kv.2) <$> l) c !! dataKey k = Some v.
Proof.
  revert c. induction l as [|[k' v'] l IH]; intros c Hnd Hin; [set_solver|].
  change (apply_batch ((λ kv, BSet (dataKey kv.1) kv.2) <$> l) (<[dataKey k' := v']> c) !! dataKey k = Some v).
  rewrite fmap_cons in Hnd. apply NoDup_cons in Hnd as [Hk' Hnd].
  apply elem_of_cons in Hin as [Heq|Hin]; [|by apply IH].
  simplify_eq. rewrite set_all_lookup_ne, lookup_insert_eq; [done|].
  intros kv Hkv Heq%dataKey_inj. apply Hk'. simpl. rewrite <-Heq.
  apply (list_elem_of_fmap_2 fst), Hkv.
Qed.

Section spec.
Context {E : Type} `{EngineSpec E} `{CodecSpec (gmap string bytes)}.
Implicit Types (s : StateMachine E) (m : gmap string bytes).

Lemma data_range (e : E) :
  readable e →
  ∃ it, eng_NewIterator e dataPrefix (prefixUpperBound dataPrefix) = Ok it ∧
    ∀ k v, (k, v) ∈ it ↔ contents e !! k = Some v ∧ dataPrefix `prefix_of` k.
Proof.
  intros Hr. destruct (NewIterator_spec e dataPrefix (prefixUpperBound dataPrefix) Hr)
    as (it & Hit & _ & Hl).
  exists it. split; [done|]. intros k v. rewrite Hl.
  by rewrite (in_bounds_prefix dataPrefix k).
Qed.

Lemma kv_rep_exists (e : E) la : readable e → ∃ m, kv_rep (mkSM e la) m.
Proof.
  intros Hr. destruct (data_range e Hr) as (it & _ & Hl). exists (collect it).
  split; [|done]. intros k. symmetry. by apply collect_spec.
Qed.

Lemma KV_Get_rep s m key : kv_rep s m → Get key s = Ok (m !! key).
Proof.
  intros [Hp Hr]. unfold Get. rewrite Get_spec by done. rewrite Hp. by destruct (m !! key).
Qed.

Lemma ApplyPut_rep s m index key value err s' :
  kv_rep s m → ApplyPut index key value s = (err, s') →
  kv_rep s' (after err m (<[key := value]> m)) ∧
  outside_kept (contents (sm_engine s)) (contents (sm_engine s')) ∧
  sm_lastApplied s' = after err (sm_lastApplied s) index.
Proof.
  intros [Hp Hr] Ha. unfold ApplyPut in Ha.
  destruct (eng_Set _ _ _ _) as [err' e'] eqn:Hs. apply Set_spec in Hs as [Hc Hr'].
  destruct err' as [err'|]; injection Ha as <- <-; simpl in *.
  - split_and!; [split; simpl; [intros k; by rewrite Hc | auto] | intros k _; by simpl; rewrite Hc | done].
  - split_and!; [|intros k Hk; simpl; rewrite Hc; by rewrite lookup_insert_ne by by apply not_prefix_ne|done].
    split; simpl; [|auto]. intros k. rewrite Hc, !lookup_insert, Hp.
    destruct (decide (key = k)) as [->|Hne]; [by rewrite !decide_True|].
    by rewrite !decide_False by (done || by intros ->%dataKey_inj).
Qed.

Lemma ApplyDelete_rep s m index key err s' :
  kv_rep s m → ApplyDelete index key s = (err, s') →
  kv_rep s' (after err m (delete key m)) ∧
  outside_kept (contents (sm_engine s)) (contents (sm_engine s')) ∧
  sm_lastApplied s' = after err (sm_lastApplied s) index.
Proof.
  intros [Hp Hr] Ha. unfold ApplyDelete in Ha.
  destruct (eng_Delete _ _ _) as [err' e'] eqn:Hs. apply Delete_spec in Hs as [Hc Hr'].
  destruct err' as [err'|]; injection Ha as <- <-; simpl in *.
  - split_and!; [split; simpl; [intros k; by rewrite Hc | auto] | intros k _; by simpl; rewrite Hc | done].
  - split_and!; [|intros k Hk; simpl; rewrite Hc; by rewrite lookup_delete_ne by by apply not_prefix_ne|done].
    split; simpl; [|auto]. intros k. rewrite Hc, !lookup_delete, Hp.
    destruct (decide (key = k)) as [->|Hne]; [by rewrite !decide_True|].
    by rewrite !decide_False by (done || by intros ->%dataKey_inj).
Qed.

Lemma ApplyNoop_rep s m index : kv_rep s m → kv_rep (ApplyNoop index s) m.
Proof. intros []. by split. Qed.

Lemma Dump_rep s m : kv_rep s m → Dump s = Ok {| Pairs := m |}.
Proof.
  intros [Hp Hr]. unfold Dump. destruct (data_range (sm_engine s) Hr) as (it & -> & Hl).
  f_equal. f_equal. apply map_eq. intros k. by rewrite (collect_spec it _ Hl), Hp.
Qed.

Lemma restore_batch_lookup (it : list (bytes * bytes)) (c : gmap bytes bytes) pairs k :
  (∀ k v, (k, v) ∈ it ↔ c !! k = Some v ∧ dataPrefix `prefix_of` k) →
  apply_batch (restore_batch it pairs) c !! dataKey k = pairs !! k.
Proof.
  intros Hl. unfold restore_batch, apply_batch. rewrite fold_left_app. fold (apply_batch).
  destruct (pairs !! k) as [v|] eqn:Hk.
  - apply set_all_lookup; [apply NoDup_fst_map_to_list | by apply elem_of_map_to_list].
  - change (apply_batch ((λ kv, BSet (dataKey kv.1) kv.2) <$> map_to_list pairs)
      (apply_batch ((λ kv : bytes * bytes, BDelete kv.1) <$> it) c) !! dataKey k = None).
    rewrite set_all_lookup_ne.
    + rewrite delete_all_lookup. case_decide as Hin; [done|].
      apply eq_None_not_Some. intros [v Hv]. apply Hin, list_elem_of_fmap.
      exists (dataKey k, v). split; [done|]. apply Hl. auto using dataKey_prefix.
    + intros [k' v'] Hkv%elem_of_map_to_list Heq%dataKey_inj. simpl in Heq. congruence.
Qed.

Lemma restore_batch_outside (it : list (bytes * bytes)) (c : gmap bytes bytes) pairs k :
  (∀ k v, (k, v) ∈ it ↔ c !! k = Some v ∧ dataPrefix `prefix_of` k) →
  ¬ dataPrefix `prefix_of` k → apply_batch (restore_batch it pairs) c !! k = c !! k.
Proof.
  intros Hl Hk. unfold restore_batch, apply_batch. rewrite fold_left_app.
  change (apply_batch ((λ kv, BSet (dataKey kv.1) kv.2) <$> map_to_list pairs)
    (apply_batch ((λ kv : bytes * bytes, BDelete kv.1) <$> it) c) !! k = c !! k).
  rewrite set_all_lookup_ne by (intros; by apply not_prefix_ne).
  rewrite delete_all_lookup. case_decide as Hin; [|done].
  apply list_elem_of_fmap in Hin as ([k' v] & -> & [_ Hp]%Hl). done.
Qed.

(** [Restore] replaces the map, whatever it was before. *)
Lemma Restore_rep s snap index err s' :
  readable (sm_engine s) → Restore snap index s = (err, s') →
  (∀ m, kv_rep s m → kv_rep s' (after err m (Pairs snap))) ∧
  outside_kept (contents (sm_engine s)) (contents (sm_engine s')) ∧
  sm_lastApplied s' = after err (sm_lastApplied s) index.
Proof.
  intros Hr Ha. unfold Restore in Ha.
  destruct (data_range (sm_engine s) Hr) as (it & Hit & Hl). rewrite Hit in Ha.
  destruct (eng_Commit _ _ _) as [err' e'] eqn:Hs. apply Commit_spec in Hs as [Hc Hr'].
  destruct err' as [err'|]; injection Ha as <- <-; simpl in *.
  - split_and!; [|intros k _; by simpl; rewrite Hc|done].
    intros m [Hp _]. split; simpl; [intros k; by rewrite Hc|auto].
  - split_and!; [|intros k Hk; simpl; rewrite Hc; by apply restore_batch_outside|done].
    intros m _. split; simpl; [|auto]. intros k. rewrite Hc. by apply restore_batch_lookup.
Qed.

Lemma Unmarshal_Marshal snap b : Marshal snap = Ok b → UnmarshalSnapshot b = Ok snap.
Proof.
  unfold Marshal, UnmarshalSnapshot. destruct (encode (Pairs snap)) as [b'|] eqn:He; [|done].
  intros [= <-]. rewrite (decode_encode _ _ He). by destruct snap.
Qed.

(** C23: The store behaves as a finite map: [Get] reads it; an applied put or
    delete updates exactly one key and moves [lastApplied] to its index; a write
    that the engine refuses changes neither; no operation touches a key outside
    the data prefix. *)
Theorem kv_operations_refine s m index key value err_p s_p err_d s_d :
  kv_rep s m →
  ApplyPut index key value s = (err_p, s_p) → ApplyDelete index key s = (err_d, s_d) →
  Get key s = Ok (m !! key) ∧
  kv_rep s_p (after err_p m (<[key := value]> m)) ∧
  sm_lastApplied s_p = after err_p (sm_lastApplied s) index ∧
  kv_rep s_d (after err_d m (delete key m)) ∧
  sm_lastApplied s_d = after err_d (sm_lastApplied s) index ∧
  outside_kept (contents (sm_engine s)) (contents (sm_engine s_p)) ∧
  outside_kept (contents (sm_engine s)) (contents (sm_engine s_d)).
Proof.
  intros Hr Hp Hd. apply (ApplyPut_rep s m) in Hp as (? & ? & ?); [|done].
  apply (ApplyDelete_rep s m) in Hd as (? & ? & ?); [|done].
  split_and!; (done || by apply KV_Get_rep).
Qed.

End spec.

(** C24: State transfer: what one store dumps and marshals, a second store with
    any previous contents unmarshals and restores to the same map; if the
    restoring commit fails, the second store keeps its own map. *)
Theorem snapshot_transfer {E E'} `{EngineSpec E} `{EngineSpec E'} `{CodecSpec (gmap string bytes)}
    (s : StateMachine E) m (t : StateMachine E') mt index data :
  kv_rep s m → kv_rep t mt →
  (let? snap := Dump s in Marshal snap) = Ok data →
  ∃ snap, UnmarshalSnapshot data = Ok snap ∧
    ∀ err t', Restore snap index t = (err, t') →
      kv_rep t' (after err mt m) ∧ sm_lastApplied t' = after err (sm_lastApplied t) index.
Proof.
  intros Hs Ht Hd. rewrite (Dump_rep _ _ Hs) in Hd. exists {| Pairs := m |}.
  split; [by apply Unmarshal_Marshal|].
  intros err t' Hre. apply Restore_rep in Hre as (Hm & _ & Hla); [|apply Ht].
  split; [by apply Hm|done].
Qed.

(** ** Witnesses *)

Import Gob.

Definition demo_store : StateMachine MemEngine :=
  (ApplyPut 1 "x" (bytes_of "1") (NewStateMachine mem_new)).2.

Definition demo_map : gmap string bytes := {["x" := bytes_of "1"]}.

Definition demo_snapshot_data : bytes :=
  match (let? snap := Dump demo_store in Marshal snap) with Ok b => b | Err _ => [] end.

Lemma empty_store_rep : kv_rep (NewStateMachine mem_new) ∅.
Proof. split; [intros k; apply lookup_empty|done]. Qed.

Lemma demo_store_rep : kv_rep demo_store demo_map.
Proof.
  change demo_map with (after None ∅ (<["x" := bytes_of "1"]> (∅ : gmap string bytes))).
  eapply (ApplyPut_rep (NewStateMachine mem_new) ∅ 1 "x" (bytes_of "1") None);
    [exact empty_store_rep | reflexivity].
Qed.

Lemma kv_operations_refine_witness :
  kv_rep demo_store demo_map ∧ Get "x" demo_store = Ok (Some (bytes_of "1")) ∧
  kv_rep (ApplyDelete 2 "x" demo_store).2 (delete "x" demo_map).
Proof.
  destruct (kv_operations_refine demo_store demo_map 2 "x" (bytes_of "2")
    None (ApplyPut 2 "x" (bytes_of "2") demo_store).2
    None (ApplyDelete 2 "x" demo_store).2) as (Hg & _ & _ & Hd & _);
    [exact demo_store_rep | reflexivity | reflexivity |].
  split; [exact demo_store_rep|]. split; [exact Hg | exact Hd].
Defined.

Lemma snapshot_transfer_witness :
  (let? snap := Dump demo_store in Marshal snap) = Ok demo_snapshot_data ∧
  ∃ snap, UnmarshalSnapshot demo_snapshot_data = Ok snap ∧
    kv_rep (Restore snap 7 (NewStateMachine mem_new)).2 demo_map.
Proof.
  assert ((let? snap := Dump demo_store in Marshal snap) = Ok demo_snapshot_data) as Hd
    by (vm_compute; reflexivity).
  split; [exact Hd|].
  destruct (snapshot_transfer demo_store demo_map (NewStateMachine mem_new) ∅ 7 demo_snapshot_data)
    as (snap & Hu & Hr); [exact demo_store_rep | exact empty_store_rep | exact Hd |].
  exists snap. split; [exact Hu|].
  destruct (Restore snap 7 (NewStateMachine mem_new)) as [err t'] eqn:Heq.
  destruct (Hr err t' eq_refl) as [Hk _].
  assert (err = None) as ->; [|exact Hk].
  unfold Restore in Heq. simpl in Heq. by injection Heq.
Defined.

End KV.
