(* ===== verification/SnapshotStore.v ===== *)
(** * internal/raft/snapshot.go: the snapshot files.

    [SnapshotStore] keeps one snapshot as a data file and a meta file in its
    directory.  The file system is a map from file names to contents; a script
    decides which calls fail, and how many bytes a failing write has already
    written. *)

From S2P Require Import Prelude Bytes Codec StateMachine.
Import KV.

(** ** The file system calls that the package makes *)

Inductive outcome :=
  | Done
  | Fails (written : nat).

Record fs := mkFS {
  files : gmap string bytes;
  script : list outcome
}.

Definition set_file (path : string) (data : bytes) (f : fs) : fs :=
  mkFS (<[path := data]> (files f)) (script f).

(** The outcome of the next call; past the script, calls succeed. *)
Definition next_call (f : fs) : outcome * fs :=
  match script f with
  | [] => (Done, f)
  | o :: rest => (o, mkFS (files f) rest)
  end.

Definition os_ReadFile (path : string) (f : fs) : result bytes * fs :=
  let '(o, f) := next_call f in
  match o, files f !! path with
  | Fails _, _ => (Err (ErrOS "read"), f)
  | Done, None => (Err ErrNotExist, f)
  | Done, Some b => (Ok b, f)
  end.

Definition os_Rename (src dst : string) (f : fs) : option error * fs :=
  let '(o, f) := next_call f in
  match o, files f !! src with
  | Fails _, _ => (Some (ErrOS "rename"), f)
  | Done, None => (Some ErrNotExist, f)
  | Done, Some b => (None, mkFS (<[dst := b]> (delete src (files f))) (script f))
  end.

Definition os_Remove (path : string) (f : fs) : option error * fs :=
  let '(o, f) := next_call f in
  match o, files f !! path with
  | Fails _, _ => (Some (ErrOS "remove"), f)
  | Done, None => (Some ErrNotExist, f)
  | Done, Some _ => (None, mkFS (delete path (files f)) (script f))
  end.

(** [os.OpenFile] with O_WRONLY|O_CREATE|O_TRUNC, [Write], [Sync], [Close]. *)
Definition os_Create (path : string) (f : fs) : option error * fs :=
  let '(o, f) := next_call f in
  match o with
  | Fails _ => (Some (ErrOS "open"), f)
  | Done => (None, set_file path [] f)
  end.

Definition os_Write (path : string) (data : bytes) (f : fs) : option error * fs :=
  let '(o, f) := next_call f in
  match o with
  | Fails n => (Some (ErrOS "write"), set_file path (take n data) f)
  | Done => (None, set_file path data f)
  end.

Definition os_Sync (f : fs) : option error * fs :=
  let '(o, f) := next_call f in
  match o with Fails _ => (Some (ErrOS "sync"), f) | Done => (None, f) end.

Definition os_Close (f : fs) : option error * fs :=
  let '(o, f) := next_call f in
  match o with Fails _ => (Some (ErrOS "close"), f) | Done => (None, f) end.

Definition os_MkdirAll (f : fs) : option error * fs :=
  let '(o, f) := next_call f in
  match o with Fails _ => (Some (ErrOS "mkdir"), f) | Done => (None, f) end.

(** ** SnapshotStore *)

(** The store is its directory: [f] holds the files below it. *)
Definition NewSnapshotStore (f : fs) : result fs :=
  let '(err, f) := os_MkdirAll f in
  match err with Some err => Err err | None => Ok f end.

Record SnapshotMeta := mkMeta {
  LastIncludedIndex : Z;
  LastIncludedTerm : Z
}.

Definition metaPath : string := "snapshot.meta.json".
Definition dataPath : string := "snapshot.data".
Definition tmpDataPath : string := "snapshot.data.tmp".
Definition tmpMetaPath : string := "snapshot.meta.json.tmp".

Definition writeFileSync (path : string) (data : bytes) (f : fs) : option error * fs :=
  let '(err, f) := os_Create path f in
  match err with
  | Some err => (Some err, f)
  | None =>
      let '(err, f) := os_Write path data f in
      match err with
      | Some err => let '(_, f) := os_Close f in (Some err, f)
      | None =>
          let '(err, f) := os_Sync f in
          match err with
          | Some err => let '(_, f) := os_Close f in (Some err, f)
          | None => os_Close f
          end
      end
  end.

Definition replaceFile (src dst : string) (f : fs) : option error * fs :=
  let '(err, f) := os_Rename src dst f in
  match err with
  | None => (None, f)
  | Some _ =>
      let '(err, f) := os_Remove dst f in
      match err with
      | Some ErrNotExist | None => os_Rename src dst f
      | Some err => (Some err, f)
      end
  end.

Section store.
Context `{Codec (gmap string bytes)} `{Codec SnapshotMeta}.

(** The part of [Save] after the data file is in place. *)
Definition save_meta (meta : SnapshotMeta) (f : fs) : option error * fs :=
  match encode meta with
  | Err err => (Some err, f)
  | Ok metaBytes =>
      let '(err, f) := writeFileSync tmpMetaPath metaBytes f in
      match err with
      | Some err => (Some err, f)
      | None => replaceFile tmpMetaPath metaPath f
      end
  end.

Definition Save (snap : Snapshot) (meta : SnapshotMeta) (f : fs) : option error * fs :=
  match Marshal snap with
  | Err err => (Some err, f)
  | Ok data =>
      let '(err, f) := writeFileSync tmpDataPath data f in
      match err with
      | Some err => (Some err, f)
      | None =>
          let '(err, f) := replaceFile tmpDataPath dataPath f in
          match err with
          | Some err => (Some err, f)
          | None => save_meta meta f
          end
      end
  end.

(** [Ok None] is Go's [(_, _, false, nil)]. *)
Definition LoadLatest (f : fs) : result (option (Snapshot * SnapshotMeta)) * fs :=
  let '(metaBytes, f) := os_ReadFile metaPath f in
  match metaBytes with
  | Err ErrNotExist => (Ok None, f)
  | Err err => (Err err, f)
  | Ok metaBytes =>
      match decode metaBytes with
      | Err err => (Err err, f)
      | Ok meta =>
          let '(data, f) := os_ReadFile dataPath f in
          match data with
          | Err err => (Err err, f)
          | Ok data =>
              match UnmarshalSnapshot data with
              | Err err => (Err err, f)
              | Ok snap => (Ok (Some (snap, meta)), f)
              end
          end
      end
  end.

End store.

(** ** encoding/json on SnapshotMeta *)

Module Json.

Fixpoint digits (fuel : nat) (n : Z) (acc : bytes) : bytes :=
  match fuel with
  | O => acc
  | S fuel =>
      let acc := byte_of (48 + n mod 10) :: acc in
      if n <? 10 then acc else digits fuel (n / 10) acc
  end.

(** A [uint64] has at most twenty digits. *)
Definition print_uint (n : Z) : bytes := digits 20 n [].

Fixpoint parse_digits (acc : Z) (bs : bytes) : Z * bytes :=
  match bs with
  | b :: rest =>
      if (48 <=? byte_val b) && (byte_val b <=? 57)
      then parse_digits (acc * 10 + (byte_val b - 48)) rest
      else (acc, bs)
  | [] => (acc, [])
  end.

Definition strip (p bs : bytes) : option bytes :=
  if decide (take (length p) bs = p) then Some (drop (length p) bs) else None.

Definition quoted (s : string) : bytes := byte_of 34 :: bytes_of s ++ [byte_of 34].

Definition open_text : bytes := bytes_of "{" ++ quoted "last_included_index" ++ bytes_of ":".
Definition mid_text : bytes := bytes_of "," ++ quoted "last_included_term" ++ bytes_of ":".
Definition close_text : bytes := bytes_of "}".

(** The object that [json.Marshal] writes for a [SnapshotMeta], and its reader. *)
Definition put_meta (m : SnapshotMeta) : bytes :=
  open_text ++ print_uint (LastIncludedIndex m) ++
  mid_text ++ print_uint (LastIncludedTerm m) ++ close_text.

Definition get_meta (bs : bytes) : option SnapshotMeta :=
  match strip open_text bs with
  | Some bs =>
      let '(i, bs) := parse_digits 0 bs in
      match strip mid_text bs with
      | Some bs =>
          let '(t, bs) := parse_digits 0 bs in
          match strip close_text bs with
          | Some _ => Some (mkMeta i t)
          | None => None
          end
      | None => None
      end
  | None => None
  end.

Definition meta_ok (m : SnapshotMeta) : bool :=
  (0 <=? LastIncludedIndex m) && (LastIncludedIndex m <? u64_mod) &&
  (0 <=? LastIncludedTerm m) && (LastIncludedTerm m <? u64_mod).

#[export] Instance SnapshotMeta_codec : Codec SnapshotMeta := {
  encode m := if meta_ok m then Ok (put_meta m) else Err ErrCodec;
  decode bs := match get_meta bs with Some m => Ok m | None => Err ErrCodec end
}.

Lemma digits_app fuel n acc r : digits fuel n acc ++ r = digits fuel n (acc ++ r).
Proof.
  revert n acc. induction fuel as [|fuel IH]; intros n acc; simpl; [done|]. case_Z; [done|apply IH].
Qed.

Lemma parse_digits_digits fuel n acc :
  (0 < fuel)%nat → 0 ≤ n < 10 ^ Z.of_nat fuel →
  parse_digits 0 (digits fuel n acc) = parse_digits n acc.
Proof.
  revert n acc. induction fuel as [|fuel IH]; intros n acc Hf Hn; [lia|].
  rewrite Nat2Z.inj_succ, Z.pow_succ_r in Hn by lia. simpl digits.
  assert (byte_val (byte_of (48 + n mod 10)) = 48 + n mod 10) as Hd.
  { rewrite byte_val_of, Z.mod_small; [done|]. Z.div_mod_to_equations; lia. }
  assert (0 ≤ n mod 10 < 10) by (apply Z.mod_pos_bound; lia).
  case_Z.
  - cbn [parse_digits]. rewrite Hd.
    destruct ((48 <=? 48 + n mod 10) && (48 + n mod 10 <=? 57)) eqn:Hb; [|lia].
    f_equal. rewrite Z.mod_small by lia. lia.
  - assert (fuel ≠ 0%nat) by (intros ->; simpl in Hn; lia).
    rewrite IH; [|lia|Z.div_mod_to_equations; lia]. cbn [parse_digits]. rewrite Hd.
    destruct ((48 <=? 48 + n mod 10) && (48 + n mod 10 <=? 57)) eqn:Hb; [|lia].
    f_equal. Z.div_mod_to_equations; lia.
Qed.

Lemma parse_print_uint n b r :
  is_u64 n → ((48 <=? byte_val b) && (byte_val b <=? 57)) = false →
  parse_digits 0 (print_uint n ++ b :: r) = (n, b :: r).
Proof.
  intros Hn Hb. unfold print_uint. rewrite digits_app, parse_digits_digits;
    [|lia|change (10 ^ Z.of_nat 20) with 100000000000000000000; u64_unfold; lia].
  cbn [app parse_digits]. by rewrite Hb.
Qed.

Lemma strip_app p r : strip p (p ++ r) = Some r.
Proof. unfold strip. by rewrite take_app_length, drop_app_length, decide_True. Qed.

Lemma get_put_meta m :
  is_u64 (LastIncludedIndex m) → is_u64 (LastIncludedTerm m) → get_meta (put_meta m) = Some m.
Proof.
  intros Hi Ht. unfold get_meta, put_meta. rewrite strip_app. unfold mid_text at 1, close_text at 1.
  cbn [bytes_of String.list_ascii_of_string app]. rewrite parse_print_uint by done.
  match goal with |- context [strip mid_text ?x] =>
    change x with (mid_text ++ print_uint (LastIncludedTerm m) ++ close_text) end.
  rewrite strip_app. unfold close_text at 1. cbn [bytes_of String.list_ascii_of_string app].
  rewrite parse_print_uint by done. by destruct m.
Qed.

#[export] Program Instance SnapshotMeta_codec_spec : CodecSpec SnapshotMeta.
Next Obligation.
  intros m b. simpl. destruct (meta_ok m) eqn:Hok; [|done]. intros [= <-].
  unfold meta_ok in Hok. rewrite !andb_true_iff in Hok.
  rewrite get_put_meta by (unfold is_u64; lia). done.
Qed.

End Json.

(** ** Theorems *)

(** What the two files hold, as [LoadLatest] sees them. *)
Record store_rep `{Codec (gmap string bytes)} `{Codec SnapshotMeta}
    (f : fs) (snap : Snapshot) (meta : SnapshotMeta) : Prop := {
  st_meta : ∃ b, files f !! metaPath = Some b ∧ decode b = Ok meta;
  st_data : ∃ b, files f !! dataPath = Some b ∧ UnmarshalSnapshot b = Ok snap
}.

Lemma next_call_files f o f' : next_call f = (o, f') → files f' = files f.
Proof. unfold next_call. intros Hn. destruct (script f); by injection Hn as <- <-. Qed.

Ltac call_step H :=
  match type of H with
  | context [next_call ?f] =>
      let o := fresh "o" in let f' := fresh "f" in let Hn := fresh "Hn" in
      destruct (next_call f) as [o f'] eqn:Hn; apply next_call_files in Hn
  end.

Lemma os_Create_files path f err f' :
  os_Create path f = (err, f') → files f' = after err (files f) (<[path := []]> (files f)).
Proof. unfold os_Create. intros Hc. call_step Hc. destruct o; injection Hc as <- <-; simpl; congruence. Qed.

Lemma os_Write_files path data f err f' :
  os_Write path data f = (err, f') →
  ∃ d, files f' = <[path := d]> (files f) ∧ (err = None → d = data).
Proof.
  unfold os_Write. intros Hc. call_step Hc. destruct o; injection Hc as <- <-; simpl; rewrite Hn; eauto.
  by eexists.
Qed.

Lemma os_Sync_files f err f' : os_Sync f = (err, f') → files f' = files f.
Proof. unfold os_Sync. intros Hc. call_step Hc. by destruct o; injection Hc as <- <-. Qed.

Lemma os_Close_files f err f' : os_Close f = (err, f') → files f' = files f.
Proof. unfold os_Close. intros Hc. call_step Hc. by destruct o; injection Hc as <- <-. Qed.

Lemma writeFileSync_files path data f err f' :
  writeFileSync path data f = (err, f') →
  (∀ p, p ≠ path → files f' !! p = files f !! p) ∧ (err = None → files f' !! path = Some data).
Proof.
  unfold writeFileSync. intros Hw.
  destruct (os_Create path f) as [err1 f1] eqn:H1. apply os_Create_files in H1.
  destruct err1; [injection Hw as <- <-; simpl in H1; by rewrite H1|].
  destruct (os_Write path data f1) as [err2 f2] eqn:H2.
  apply os_Write_files in H2 as (d & H2 & Hd).
  assert (files f' = files f2 ∧ (err = None → err2 = None)) as [Hf Herr].
  { destruct err2.
    - destruct (os_Close f2) eqn:H3. apply os_Close_files in H3. by injection Hw as <- <-.
    - destruct (os_Sync f2) as [err3 f3] eqn:H3. apply os_Sync_files in H3. destruct err3.
      + destruct (os_Close f3) eqn:H4. apply os_Close_files in H4. injection Hw as <- <-.
        split; congruence.
      + apply os_Close_files in Hw. split; congruence. }
  rewrite Hf, H2, H1. simpl. split.
  - intros p Hp. by rewrite !lookup_insert_ne by done.
  - intros He. by rewrite lookup_insert_eq, Hd by auto.
Qed.

Lemma os_Rename_files src dst f err f' :
  src ≠ dst → os_Rename src dst f = (err, f') →
  match err with
  | Some _ => files f' = files f
  | None => ∃ b, files f !! src = Some b ∧ files f' = <[dst := b]> (delete src (files f))
  end.
Proof.
  unfold os_Rename. intros Hne Hr. call_step Hr. destruct o; [|by injection Hr as <- <-].
  rewrite Hn in Hr. destruct (files f !! src) as [b|] eqn:Hb; injection Hr as <- <-; simpl; eauto.
Qed.

Lemma os_Remove_files path f err f' :
  os_Remove path f = (err, f') → files f' = files f ∨ files f' = delete path (files f).
Proof.
  unfold os_Remove. intros Hr. call_step Hr. rewrite Hn in Hr.
  destruct o; [destruct (files f !! path)|]; injection Hr as <- <-; simpl; rewrite ?Hn; auto.
Qed.

Lemma replaceFile_files src dst f err f' :
  src ≠ dst → replaceFile src dst f = (err, f') →
  (∀ p, p ≠ src → p ≠ dst → files f' !! p = files f !! p) ∧
  match err with
  | None => files f' !! dst = files f !! src
  | Some _ => files f' !! dst = files f !! dst ∨ files f' !! dst = None
  end.
Proof.
  intros Hne Hr. unfold replaceFile in Hr.
  destruct (os_Rename src dst f) as [err1 f1] eqn:H1. apply os_Rename_files in H1; [|done].
  destruct err1 as [err1|].
  2:{ destruct H1 as (b & Hb & Hf). injection Hr as <- <-. rewrite Hf, Hb.
      split; [intros; by rewrite lookup_insert_ne, lookup_delete_ne by done | apply lookup_insert_eq]. }
  destruct (os_Remove dst f1) as [err2 f2] eqn:H2.
  assert (∀ p, p ≠ dst → files f2 !! p = files f !! p) as Hp2.
  { intros p Hp. apply os_Remove_files in H2 as [->| ->]; rewrite ?lookup_delete_ne by done; congruence. }
  assert (files f2 !! dst = files f !! dst ∨ files f2 !! dst = None) as Hd2.
  { apply os_Remove_files in H2 as [->| ->]; [left; congruence | right; apply lookup_delete_eq]. }
  assert (∀ err f', os_Rename src dst f2 = (err, f') →
    (∀ p, p ≠ src → p ≠ dst → files f' !! p = files f !! p) ∧
    match err with
    | None => files f' !! dst = files f !! src
    | Some _ => files f' !! dst = files f !! dst ∨ files f' !! dst = None
    end) as Hlast.
  { intros err3 f3 H3. apply os_Rename_files in H3; [|done]. destruct err3.
    - rewrite H3. auto.
    - destruct H3 as (b & Hb & ->). rewrite Hp2 in Hb by done. rewrite Hb.
      split; [|apply lookup_insert_eq]. intros.
      by rewrite lookup_insert_ne, lookup_delete_ne, Hp2 by done. }
  destruct err2 as [[]|]; try (by apply Hlast); inversion Hr; subst; auto.
Qed.

Section save.
Context `{CodecSpec (gmap string bytes)} `{CodecSpec SnapshotMeta}.

Lemma save_meta_files meta f err f' :
  save_meta meta f = (err, f') →
  files f' !! dataPath = files f !! dataPath ∧
  match err with
  | None => ∃ b, files f' !! metaPath = Some b ∧ decode b = Ok meta
  | Some _ => files f' !! metaPath = files f !! metaPath ∨ files f' !! metaPath = None
  end.
Proof.
  unfold save_meta. intros Hs.
  destruct (encode meta) as [mb|] eqn:He; [|injection Hs as <- <-; auto].
  destruct (writeFileSync _ _ _) as [err1 f1] eqn:Hw. apply writeFileSync_files in Hw as [Ho Hn].
  destruct err1; [injection Hs as <- <-; by rewrite !Ho by done; auto|].
  apply replaceFile_files in Hs as [Ho2 Hm]; [|done].
  rewrite Ho2, Ho by done. split; [done|]. destruct err.
  - by rewrite Ho in Hm by done.
  - exists mb. rewrite Hm, Hn by done. split; [done|]. by apply decode_encode.
Qed.

(** Every way in which [Save] can leave the two visible files. *)
Lemma Save_files snap meta f err f' :
  Save snap meta f = (err, f') →
  match err with
  | None => store_rep f' snap meta
  | Some _ =>
      files f' !! metaPath = files f !! metaPath ∧
        (files f' !! dataPath = files f !! dataPath ∨ files f' !! dataPath = None) ∨
      (∃ b, files f' !! dataPath = Some b ∧ UnmarshalSnapshot b = Ok snap) ∧
        (files f' !! metaPath = files f !! metaPath ∨ files f' !! metaPath = None)
  end.
Proof.
  unfold Save. intros Hs.
  destruct (Marshal snap) as [data|] eqn:Hm; [|injection Hs as <- <-; auto].
  destruct (writeFileSync _ _ _) as [err1 f1] eqn:Hw. apply writeFileSync_files in Hw as [Ho1 Hn1].
  destruct err1; [injection Hs as <- <-; left; rewrite !Ho1 by done; auto|].
  destruct (replaceFile _ _ _) as [err2 f2] eqn:Hrep. apply replaceFile_files in Hrep as [Ho2 Hd2]; [|done].
  destruct err2.
  { injection Hs as <- <-. left. rewrite Ho2, Ho1 by done. split; [done|].
    by rewrite Ho1 in Hd2 by done. }
  rewrite Hn1 in Hd2 by done. apply save_meta_files in Hs as [Hd Hmeta].
  assert (∃ b, files f' !! dataPath = Some b ∧ UnmarshalSnapshot b = Ok snap) as Hdata.
  { exists data. split; [congruence|]. by apply Unmarshal_Marshal. }
  destruct err; [|by split].
  right. split; [done|]. by rewrite Ho2, Ho1 in Hmeta by done.
Qed.

Lemma os_ReadFile_files path f r f' :
  os_ReadFile path f = (r, f') →
  files f' = files f ∧ ∀ b, r = Ok b → files f !! path = Some b.
Proof.
  unfold os_ReadFile. intros Hr. call_step Hr. rewrite Hn in Hr.
  destruct o; [destruct (files f !! path)|]; injection Hr as <- <-; split; congruence.
Qed.

(** [LoadLatest] changes no file and returns what the files hold. *)
Lemma LoadLatest_files f r f' :
  LoadLatest f = (r, f') →
  files f' = files f ∧ ∀ snap meta, r = Ok (Some (snap, meta)) → store_rep f snap meta.
Proof.
  unfold LoadLatest. intros Hl.
  destruct (os_ReadFile metaPath f) as [mr f1] eqn:Hr1. apply os_ReadFile_files in Hr1 as [Hf1 Hm].
  destruct mr as [mb|[]]; try (injection Hl as <- <-; by split).
  destruct (decode mb) as [meta|] eqn:Hd; [|injection Hl as <- <-; by split].
  destruct (os_ReadFile dataPath f1) as [dr f2] eqn:Hr2. apply os_ReadFile_files in Hr2 as [Hf2 Hdata].
  destruct dr as [db|]; [|injection Hl as <- <-; split; congruence].
  destruct (UnmarshalSnapshot db) as [snap|] eqn:Hu; injection Hl as <- <-;
    (split; [congruence|]); [|done]. intros snap' meta' [= <- <-]. rewrite Hf1 in Hdata.
  split; [exists mb | exists db]; auto.
Qed.

(** A snapshot that is there is found, or an error is reported. *)
Lemma LoadLatest_found f r f' b meta :
  LoadLatest f = (Ok r, f') → files f !! metaPath = Some b → decode b = Ok meta →
  ∃ snap, r = Some (snap, meta) ∧ store_rep f snap meta.
Proof.
  intros Hl Hb Hd. pose proof (LoadLatest_files _ _ _ Hl) as [_ Hrep]. revert Hl.
  unfold LoadLatest. destruct (os_ReadFile metaPath f) as [mr f1] eqn:Hr1.
  unfold os_ReadFile in Hr1. destruct (next_call f) as [o f0] eqn:Hn. apply next_call_files in Hn.
  rewrite Hn, Hb in Hr1. destruct o; injection Hr1 as <- <-; [|done]. rewrite Hd.
  destruct (os_ReadFile dataPath f0) as [dr f2]. destruct dr as [db|]; [|done].
  destruct (UnmarshalSnapshot db) as [snap|]; [|done]. intros [= <- <-]. eauto.
Qed.

Lemma LoadLatest_rep f snap meta :
  script f = [] → store_rep f snap meta → LoadLatest f = (Ok (Some (snap, meta)), f).
Proof.
  intros Hq [(mb & Hm & Hmd) (db & Hd & Hdd)].
  unfold LoadLatest, os_ReadFile, next_call. rewrite Hq, Hm, Hmd, Hq, Hd, Hdd. done.
Qed.

(** With no scripted failure, [Save] succeeds and [LoadLatest] is read-only. *)
Lemma Save_quiet snap meta f :
  script f = [] → is_ok (Marshal snap) = true → is_ok (encode meta) = true →
  ∃ f', Save snap meta f = (None, f') ∧ script f' = [].
Proof.
  intros Hq Hm He. unfold Save, save_meta, writeFileSync, replaceFile.
  destruct (Marshal snap) as [data|]; [|done]. destruct (encode meta) as [mb|]; [|done].
  unfold os_Create, os_Write, os_Sync, os_Close, os_Rename, next_call, set_file.
  repeat (rewrite Hq; cbn [script files]). rewrite lookup_insert_eq. cbn [script files].
  repeat (rewrite Hq; cbn [script files]). rewrite lookup_insert_eq. cbn [script files].
  rewrite ?Hq. eexists. split; [reflexivity|]. simpl. by rewrite ?Hq.
Qed.

Lemma LoadLatest_quiet f : script f = [] → (LoadLatest f).2 = f.
Proof.
  intros Hq. unfold LoadLatest, os_ReadFile, next_call. rewrite Hq.
  destruct (files f !! metaPath) as [mb|]; [|done]. destruct (decode mb); [|done]. rewrite Hq.
  destruct (files f !! dataPath) as [db|]; [|done]. by destruct (UnmarshalSnapshot db).
Qed.

(** A snapshot that was saved is the one that is loaded. *)
Theorem Save_LoadLatest snap meta f f' :
  Save snap meta f = (None, f') → script f' = [] →
  LoadLatest f' = (Ok (Some (snap, meta)), f').
Proof. intros Hs Hq. apply LoadLatest_rep; [done|]. by apply Save_files in Hs. Qed.

(** C25: After a failed [Save] over an existing snapshot, the meta file is the
    old one or gone; with the old meta file still there, the data file is the
    old one, gone, or already the new one. *)
Theorem Save_failure_outcomes snap meta f err f' old oldmeta :
  Save snap meta f = (Some err, f') → store_rep f old oldmeta → script f' = [] →
  (LoadLatest f').1 = Ok (Some (old, oldmeta)) ∨
  (LoadLatest f').1 = Err ErrNotExist ∨
  (LoadLatest f').1 = Ok (Some (snap, oldmeta)) ∨
  (LoadLatest f').1 = Ok None.
Proof.
  intros Hs [(mb & Hm & Hmd) (db & Hd & Hdd)] Hq. apply Save_files in Hs.
  unfold LoadLatest, os_ReadFile, next_call. rewrite Hq.
  destruct Hs as [[Hm' [Hd'|Hd']]|[(b & Hd' & Hdd') [Hm'|Hm']]];
    rewrite ?Hm', ?Hm, ?Hmd, ?Hq, ?Hd', ?Hd, ?Hdd, ?Hdd'; auto.
Qed.

(** When the meta file cannot be written, [Save] has already replaced the
    data file: the store then pairs the new state with the old boundary. *)
Theorem Save_failure_mixes snap meta f old oldmeta :
  store_rep f old oldmeta → is_ok (Marshal snap) = true → is_ok (encode meta) = true →
  script f = [Done; Done; Done; Done; Done; Fails 0] →
  ∃ err f', Save snap meta f = (Some err, f') ∧
    LoadLatest f' = (Ok (Some (snap, oldmeta)), f').
Proof.
  intros Hst Hmar Henc Hscr. unfold Save, save_meta, writeFileSync, replaceFile.
  destruct (Marshal snap) as [data|] eqn:Hm; [|done].
  destruct (encode meta) as [mb|] eqn:He; [|done].
  unfold os_Create, os_Write, os_Sync, os_Close, os_Rename, next_call, set_file.
  rewrite Hscr. cbn [script files].
  rewrite lookup_insert_eq. cbn [script files].
  eexists _, _. split; [done|]. apply LoadLatest_rep; [done|].
  destruct Hst as [(mb' & Hmeta & Hdec) _]. split; cbn [files].
  - exists mb'. split; [|done].
    by rewrite lookup_insert_ne, lookup_delete_ne, !lookup_insert_ne by done.
  - exists data. split; [apply lookup_insert_eq|]. by apply Unmarshal_Marshal.
Qed.

End save.

(** ** Witnesses *)

Import Gob Json.

Definition demo_snap (v : string) : Snapshot := {| Pairs := {["x" := bytes_of v]} |}.

(** A store that holds a snapshot at index 4, with the given future outcomes. *)
Definition demo_fs (outcomes : list outcome) : fs :=
  mkFS (files (Save (demo_snap "1") (mkMeta 4 2) (mkFS ∅ [])).2) outcomes.

Lemma demo_fs_rep outcomes : store_rep (demo_fs outcomes) (demo_snap "1") (mkMeta 4 2).
Proof.
  assert (Save (demo_snap "1") (mkMeta 4 2) (mkFS ∅ []) = (None, demo_fs [])) as Hs
    by (vm_compute; reflexivity).
  apply Save_files in Hs as [Hm Hd]. by split.
Qed.

Lemma Save_LoadLatest_witness :
  LoadLatest (Save (demo_snap "2") (mkMeta 9 3) (demo_fs [])).2 =
    (Ok (Some (demo_snap "2", mkMeta 9 3)), (Save (demo_snap "2") (mkMeta 9 3) (demo_fs [])).2).
Proof.
  apply (Save_LoadLatest (demo_snap "2") (mkMeta 9 3) (demo_fs [])); vm_compute; reflexivity.
Defined.

Lemma Save_failure_outcomes_witness :
  let f' := (Save (demo_snap "2") (mkMeta 9 3) (demo_fs [Fails 0])).2 in
  (LoadLatest f').1 = Ok (Some (demo_snap "1", mkMeta 4 2)) ∨
  (LoadLatest f').1 = Err ErrNotExist ∨
  (LoadLatest f').1 = Ok (Some (demo_snap "2", mkMeta 4 2)) ∨ (LoadLatest f').1 = Ok None.
Proof.
  apply (Save_failure_outcomes (demo_snap "2") (mkMeta 9 3) (demo_fs [Fails 0]) (ErrOS "open")
    _ (demo_snap "1") (mkMeta 4 2)); [vm_compute; reflexivity | apply demo_fs_rep | vm_compute; reflexivity].
Defined.

Lemma Save_failure_mixes_witness :
  ∃ err f', Save (demo_snap "2") (mkMeta 9 3) (demo_fs [Done; Done; Done; Done; Done; Fails 0]) =
      (Some err, f') ∧
    LoadLatest f' = (Ok (Some (demo_snap "2", mkMeta 4 2)), f').
Proof.
  apply (Save_failure_mixes (demo_snap "2") (mkMeta 9 3) _ (demo_snap "1") (mkMeta 4 2));
    [apply demo_fs_rep | vm_compute; reflexivity | vm_compute; reflexivity | reflexivity].
Defined.
