(* ===== verification/GoStrings.v ===== *)
(** * The parts of Go's strings, strconv and unicode/utf8 that the program uses.

    Text is a list of bytes.  [split_on] and [split_two] are [strings.Split] and
    [strings.SplitN] with limit 2 for a one-byte separator, [TrimSpace] removes
    the white space of [unicode.IsSpace] at both ends, and [ParseUint], [Atoi]
    and [ParseBool] are the strconv functions in base 10 and 64 bits. *)

From S2P Require Import Prelude.

(** ** unicode/utf8 *)

(** [utf8.EncodeRune] for a valid code point. *)
Definition encode_rune (r : Z) : bytes :=
  byte_of <$>
    (if r <? 128 then [r]
     else if r <? 2048 then [192 + r / 64; 128 + r mod 64]
     else if r <? 65536 then [224 + r / 4096; 128 + r / 64 mod 64; 128 + r mod 64]
     else [240 + r / 262144; 128 + r / 4096 mod 64; 128 + r / 64 mod 64; 128 + r mod 64]).

(** [utf8.RuneError], the replacement for what is not valid UTF-8. *)
Definition rune_error : Z := 65533.

Definition between (lo hi : Z) (b : byte) : bool := (lo <=? byte_val b) && (byte_val b <=? hi).

Definition continuation (b : byte) : Z := byte_val b - 128.

(** The range that the second byte of a three- or four-byte sequence must be in. *)
Definition second_ok (b0 b1 : byte) : bool :=
  if byte_val b0 =? 224 then between 160 191 b1
  else if byte_val b0 =? 237 then between 128 159 b1
  else if byte_val b0 =? 240 then between 144 191 b1
  else if byte_val b0 =? 244 then between 128 143 b1
  else between 128 191 b1.

(** [utf8.DecodeRune] on a non-empty text: the code point and its width. *)
Definition decode_rune (b0 : byte) (rest : bytes) : Z * nat :=
  if between 0 127 b0 then (byte_val b0, 1%nat)
  else if between 194 223 b0 then
    match rest with
    | b1 :: _ =>
        if between 128 191 b1 then ((byte_val b0 - 192) * 64 + continuation b1, 2%nat)
        else (rune_error, 1%nat)
    | [] => (rune_error, 1%nat)
    end
  else if between 224 239 b0 then
    match rest with
    | b1 :: b2 :: _ =>
        if second_ok b0 b1 && between 128 191 b2
        then ((byte_val b0 - 224) * 4096 + continuation b1 * 64 + continuation b2, 3%nat)
        else (rune_error, 1%nat)
    | _ => (rune_error, 1%nat)
    end
  else if between 240 244 b0 then
    match rest with
    | b1 :: b2 :: b3 :: _ =>
        if second_ok b0 b1 && between 128 191 b2 && between 128 191 b3
        then ((byte_val b0 - 240) * 262144 + continuation b1 * 4096 + continuation b2 * 64
              + continuation b3, 4%nat)
        else (rune_error, 1%nat)
    | _ => (rune_error, 1%nat)
    end
  else (rune_error, 1%nat).

(** ** strings *)

Fixpoint split_on (c : byte) (s : bytes) : list bytes :=
  match s with
  | [] => [[]]
  | b :: s =>
      if decide (b = c) then [] :: split_on c s
      else match split_on c s with p :: ps => (b :: p) :: ps | [] => [[b]] end
  end.

Fixpoint split_two (c : byte) (s : bytes) : list bytes :=
  match s with
  | [] => [[]]
  | b :: s =>
      if decide (b = c) then [[]; s]
      else match split_two c s with p :: ps => (b :: p) :: ps | [] => [[b]] end
  end.

(** The code points of [unicode.IsSpace], encoded.  The encodings of UTF-8 are
    canonical and no one is a prefix of another, so that a text starts (ends)
    with a space rune exactly when one of them is a prefix (suffix) of it. *)
Definition space_runes : list Z :=
  [9; 10; 11; 12; 13; 32; 133; 160; 5760; 8192; 8193; 8194; 8195; 8196; 8197; 8198; 8199;
   8200; 8201; 8202; 8232; 8233; 8239; 8287; 12288].

Definition space_texts : list bytes := encode_rune <$> space_runes.

Definition is_prefix (p s : bytes) : bool := bool_decide (take (length p) s = p).

(** Drop the texts of [ps] from the front while one of them is a prefix. *)
Fixpoint drop_texts (ps : list bytes) (fuel : nat) (s : bytes) : bytes :=
  match fuel with
  | O => s
  | S fuel =>
      match find (λ p, is_prefix p s) ps with
      | Some p => drop_texts ps fuel (drop (length p) s)
      | None => s
      end
  end.

(** Every round drops at least one byte, so the length is enough fuel. *)
Definition trim_left (s : bytes) : bytes := drop_texts space_texts (length s) s.
Definition trim_right (s : bytes) : bytes :=
  reverse (drop_texts (reverse <$> space_texts) (length s) (reverse s)).
Definition TrimSpace (s : bytes) : bytes := trim_right (trim_left s).

(** ** strconv *)

Definition ErrSyntax : error := ErrConfig "invalid syntax".
Definition ErrRange : error := ErrConfig "value out of range".

Definition is_digit (b : byte) : bool := between 48 57 b.

Fixpoint digits_value (max acc : Z) (s : bytes) : result Z :=
  match s with
  | [] => Ok acc
  | b :: s =>
      if is_digit b then
        let acc := acc * 10 + (byte_val b - 48) in
        if max <? acc then Err ErrRange else digits_value max acc s
      else Err ErrSyntax
  end.

(** [strconv.ParseUint(s, 10, 64)]. *)
Definition ParseUint (s : bytes) : result Z :=
  match s with [] => Err ErrSyntax | _ => digits_value (u64_mod - 1) 0 s end.

(** [strconv.Atoi] and [strconv.ParseInt(s, 10, 64)]: an optional sign, then
    digits, within the range of [int64]. *)
Definition Atoi (s : bytes) : result Z :=
  let '(neg, digits) :=
    match s with
    | b :: rest => if decide (b = "-"%char) then (true, rest)
                   else if decide (b = "+"%char) then (false, rest) else (false, s)
    | [] => (false, s)
    end in
  let? un := ParseUint digits in
  if neg then if i64_half <? un then Err ErrRange else Ok (- un)
  else if i64_half <=? un then Err ErrRange else Ok un.

(** The decimal digits of a [uint64], as [strconv.FormatUint] and the verb [%d]
    print them; twenty digits are enough. *)
Fixpoint format_digits (fuel : nat) (z : Z) : bytes :=
  match fuel with
  | O => []
  | S fuel => (if z <? 10 then [] else format_digits fuel (z / 10)) ++ [byte_of (48 + z mod 10)]
  end.

Definition FormatUint (z : Z) : bytes := format_digits 20 z.

Definition ParseBool (s : bytes) : result bool :=
  if bool_decide (string_of s ∈ ["1"; "t"; "T"; "true"; "TRUE"; "True"]%string) then Ok true
  else if bool_decide (string_of s ∈ ["0"; "f"; "F"; "false"; "FALSE"; "False"]%string) then Ok false
  else Err ErrSyntax.

(** ** Facts on splitting *)

Lemma split_on_skip c p s :
  c ∉ p → split_on c (p ++ c :: s) = p :: split_on c s.
Proof.
  induction p as [|b p IH]; intros Hp; simpl; [by rewrite decide_True|].
  rewrite decide_False by set_solver. by rewrite IH by set_solver.
Qed.

Lemma split_on_whole c p : c ∉ p → split_on c p = [p].
Proof.
  induction p as [|b p IH]; intros Hp; simpl; [done|].
  rewrite decide_False by set_solver. by rewrite IH by set_solver.
Qed.

Lemma split_two_skip c p s : c ∉ p → split_two c (p ++ c :: s) = [p; s].
Proof.
  induction p as [|b p IH]; intros Hp; simpl; [by rewrite decide_True|].
  rewrite decide_False by set_solver. by rewrite IH by set_solver.
Qed.

(** Splitting and joining again gives the text back. *)
Fixpoint join (c : byte) (ps : list bytes) : bytes :=
  match ps with
  | [] => []
  | [p] => p
  | p :: ps => p ++ c :: join c ps
  end.

Lemma split_on_join c ps :
  ps ≠ [] → Forall (λ p, c ∉ p) ps → split_on c (join c ps) = ps.
Proof.
  induction ps as [|p ps IH]; intros Hne Hf; [done|]. apply Forall_cons in Hf as [Hp Hf].
  destruct ps as [|q ps]; [by apply split_on_whole|].
  cbn [join]. rewrite split_on_skip by done. f_equal. by apply IH.
Qed.

(** ** Facts on trimming *)

(** Visible characters of ASCII. *)
Definition plain (b : byte) : bool := between 33 126 b.

Lemma is_prefix_cons b p s : is_prefix (b :: p) s = true → head s = Some b.
Proof.
  unfold is_prefix. case_bool_decide as Hp; [|done]. intros _.
  destruct s as [|c s]; [done|]. by injection Hp as ->.
Qed.

Lemma drop_texts_none ps fuel s :
  Forall (λ p, ∃ b, head p = Some b ∧ plain b = false) ps →
  (∀ b, head s = Some b → plain b = true) → drop_texts ps fuel s = s.
Proof.
  intros Hps Hs. destruct fuel as [|fuel]; [done|]. cbn [drop_texts].
  destruct (find _ ps) as [p|] eqn:Hf; [|done].
  apply find_some in Hf as [Hin Hpre]. apply list_elem_of_In in Hin.
  rewrite Forall_forall in Hps. destruct (Hps p Hin) as (b & Hb & Hpl).
  destruct p as [|b' p]; [done|]. injection Hb as ->. apply is_prefix_cons in Hpre.
  specialize (Hs b Hpre). congruence.
Qed.

Definition starts_invisible (p : bytes) : bool :=
  match p with b :: _ => negb (plain b) | [] => false end.

Lemma starts_invisible_Forall ps :
  forallb starts_invisible ps = true → Forall (λ p, ∃ b, head p = Some b ∧ plain b = false) ps.
Proof.
  intros Hf. apply Forall_forall. intros p Hp%list_elem_of_In.
  rewrite forallb_forall in Hf. specialize (Hf p Hp). destruct p as [|b p]; [done|].
  exists b. split; [done|]. by apply negb_true_iff.
Qed.

Lemma TrimSpace_plain s :
  (∀ b, head s = Some b → plain b = true) → (∀ b, last s = Some b → plain b = true) →
  TrimSpace s = s.
Proof.
  intros Hh Hl. unfold TrimSpace, trim_right, trim_left.
  rewrite (drop_texts_none space_texts); [|by apply starts_invisible_Forall|done].
  rewrite drop_texts_none; [apply reverse_involutive|by apply starts_invisible_Forall|].
  intros b Hb. apply Hl. by rewrite <-head_reverse.
Qed.

(** ** Facts on numbers *)

Lemma digits_value_range max acc s n :
  0 ≤ acc ≤ max → digits_value max acc s = Ok n → 0 ≤ n ≤ max.
Proof.
  revert acc. induction s as [|b s IH]; intros acc Ha; cbn [digits_value]; [by intros [= <-]|].
  destruct (is_digit b) eqn:Hd; [|done].
  destruct (Z.ltb_spec max (acc * 10 + (byte_val b - 48))); [done|].
  apply IH. unfold is_digit, between in Hd. lia.
Qed.

Lemma ParseUint_range s n : ParseUint s = Ok n → is_u64 n.
Proof.
  unfold ParseUint. destruct s; [done|]. intros Hd.
  apply digits_value_range in Hd; u64_unfold; lia.
Qed.

Lemma Atoi_range s n : Atoi s = Ok n → is_i64 n.
Proof.
  unfold Atoi. intros Ha.
  match type of Ha with (let '(_, _) := ?p in _) = _ => destruct p as [neg ds] end.
  destruct (ParseUint ds) as [un|] eqn:Hu; [|done]. apply ParseUint_range in Hu.
  unfold is_i64, is_u64 in *.
  destruct neg; case_Z; try done; injection Ha as <-; unfold i64_half in *; lia.
Qed.

(** ** Facts on printed numbers *)

Lemma digit_byte z : 0 ≤ z < 10 → byte_val (byte_of (48 + z)) = 48 + z.
Proof. intros Hz. rewrite byte_val_of. apply Z.mod_small. lia. Qed.

Lemma is_digit_byte z : 0 ≤ z < 10 → is_digit (byte_of (48 + z)) = true.
Proof. intros Hz. unfold is_digit, between. rewrite digit_byte by done. lia. Qed.

Lemma format_digits_are_digits fuel z b : b ∈ format_digits fuel z → is_digit b = true.
Proof.
  revert z. induction fuel as [|fuel IH]; intros z Hb; simpl in Hb; [set_solver|].
  apply elem_of_app in Hb as [Hb|Hb].
  - destruct (z <? 10); [set_solver|by eapply IH].
  - apply list_elem_of_singleton in Hb as ->. apply is_digit_byte, Z.mod_pos_bound. lia.
Qed.

Lemma digits_value_app max acc s t :
  digits_value max acc (s ++ t) = (let? v := digits_value max acc s in digits_value max v t).
Proof.
  revert acc. induction s as [|b s IH]; intros acc; simpl; [done|].
  destruct (is_digit b); [|done]. destruct (max <? _); [done|apply IH].
Qed.

Lemma digits_value_format max fuel z :
  0 ≤ z < 10 ^ Z.of_nat fuel → z ≤ max → digits_value max 0 (format_digits fuel z) = Ok z.
Proof.
  revert z. induction fuel as [|fuel IH]; intros z Hz Hmax.
  { change (10 ^ Z.of_nat 0) with 1 in Hz. simpl. f_equal. lia. }
  rewrite Nat2Z.inj_succ, Z.pow_succ_r in Hz by lia. simpl. rewrite digits_value_app.
  pose proof (Z.mod_pos_bound z 10 eq_refl) as Hm. pose proof (Z.div_mod z 10 ltac:(lia)) as Hd.
  assert ((let? v := digits_value max 0 (if z <? 10 then [] else format_digits fuel (z / 10)) in Ok v)
    = Ok (z / 10)) as Hhi.
  { destruct (Z.ltb_spec z 10); [simpl; f_equal; symmetry; apply Z.div_small; lia|].
    rewrite IH; [done| |]; Z.div_mod_to_equations; lia. }
  destruct (digits_value _ _ _) as [v|]; [|done]. injection Hhi as ->. simpl.
  rewrite is_digit_byte, digit_byte by done.
  destruct (Z.ltb_spec max (z / 10 * 10 + (48 + z mod 10 - 48))); [lia|]. f_equal. lia.
Qed.

(** Printing a number and reading it gives it back. *)
Lemma ParseUint_FormatUint z : is_u64 z → ParseUint (FormatUint z) = Ok z.
Proof.
  intros [? Hz]. unfold ParseUint. rewrite <-(digits_value_format (u64_mod - 1) 20 z);
    unfold FormatUint, u64_mod in *; simpl in *; try lia.
  by destruct (_ ++ _) eqn:Heq; [destruct (app_cons_not_nil _ _ _ (eq_sym Heq))|].
Qed.
