(* ===== verification/GoJson.v ===== *)
(** * The reader of Go's encoding/json.

    [parse_json] accepts the texts that [json.Unmarshal] accepts, with its limit
    on the nesting depth; object members keep their order and repetitions.  The
    text of a string is unquoted as Go does it: escapes are resolved, and what is
    not valid UTF-8 or not a valid surrogate pair becomes U+FFFD.  Numbers stay
    literals, since their meaning depends on the type that they are stored in. *)

From S2P Require Import Prelude GoStrings.

Inductive json :=
  | JNull
  | JBool (b : bool)
  | JNumber (literal : bytes)
  | JString (s : bytes)
  | JArray (items : list json)
  | JObject (members : list (bytes * json)).

(** ** Lexical elements *)

Definition is_char (c : Z) (b : byte) : bool := byte_val b =? c.

Fixpoint skip_space (s : bytes) : bytes :=
  match s with
  | b :: rest =>
      if is_char 32 b || is_char 9 b || is_char 10 b || is_char 13 b then skip_space rest else s
  | [] => []
  end.

(** The longest prefix of digits. *)
Fixpoint take_digits (s : bytes) : bytes * bytes :=
  match s with
  | b :: rest =>
      if is_digit b then let '(ds, rest) := take_digits rest in (b :: ds, rest) else ([], s)
  | [] => ([], [])
  end.

(** An integer part without leading zeros. *)
Definition int_part (s : bytes) : option (bytes * bytes) :=
  match s with
  | b :: rest =>
      if is_char 48 b then Some ([b], rest)
      else if is_digit b then Some (take_digits s) else None
  | [] => None
  end.

Definition frac_part (s : bytes) : option (bytes * bytes) :=
  match s with
  | b :: rest =>
      if is_char 46 b then
        match take_digits rest with
        | ([], _) => None
        | (ds, rest) => Some (b :: ds, rest)
        end
      else Some ([], s)
  | [] => Some ([], s)
  end.

Definition exp_part (s : bytes) : option (bytes * bytes) :=
  match s with
  | b :: rest =>
      if is_char 101 b || is_char 69 b then
        let '(sign, rest) :=
          match rest with
          | c :: rest' => if is_char 43 c || is_char 45 c then ([c], rest') else ([], rest)
          | [] => ([], rest)
          end in
        match take_digits rest with
        | ([], _) => None
        | (ds, rest) => Some (b :: sign ++ ds, rest)
        end
      else Some ([], s)
  | [] => Some ([], s)
  end.

Definition parse_number (s : bytes) : option (bytes * bytes) :=
  let '(sign, s) :=
    match s with
    | b :: rest => if is_char 45 b then ([b], rest) else ([], s)
    | [] => ([], s)
    end in
  '(i, s) ← int_part s;
  '(f, s) ← frac_part s;
  '(e, s) ← exp_part s;
  Some (sign ++ i ++ f ++ e, s).

(** ** Strings *)

Definition hex_value (b : byte) : option Z :=
  if between 48 57 b then Some (byte_val b - 48)
  else if between 97 102 b then Some (byte_val b - 87)
  else if between 65 70 b then Some (byte_val b - 55)
  else None.

Definition hex4 (s : bytes) : option (Z * bytes) :=
  match s with
  | b0 :: b1 :: b2 :: b3 :: rest =>
      h0 ← hex_value b0; h1 ← hex_value b1; h2 ← hex_value b2; h3 ← hex_value b3;
      Some (h0 * 4096 + h1 * 256 + h2 * 16 + h3, rest)
  | _ => None
  end.

Definition is_surrogate (r : Z) : bool := (55296 <=? r) && (r <=? 57343).

(** [utf16.DecodeRune]: the code point of a high and a low surrogate. *)
Definition surrogate_pair (r1 r2 : Z) : option Z :=
  if (55296 <=? r1) && (r1 <=? 56319) && (56320 <=? r2) && (r2 <=? 57343)
  then Some ((r1 - 55296) * 1024 + (r2 - 56320) + 65536) else None.

(** What follows [\u]: the code point and the rest of the text. *)
Definition unicode_escape (s : bytes) : option (Z * bytes) :=
  '(r, rest) ← hex4 s;
  if is_surrogate r then
    match rest with
    | b :: u :: rest' =>
        if is_char 92 b && is_char 117 u then
          match hex4 rest' with
          | Some (r2, rest'') =>
              match surrogate_pair r r2 with
              | Some p => Some (p, rest'')
              | None => Some (rune_error, rest)
              end
          | None => Some (rune_error, rest)
          end
        else Some (rune_error, rest)
    | _ => Some (rune_error, rest)
    end
  else Some (r, rest).

(** The one-letter escapes. *)
Definition simple_escape (b : byte) : option Z :=
  match byte_val b with
  | 34 => Some 34 | 92 => Some 92 | 47 => Some 47
  | 98 => Some 8 | 102 => Some 12 | 110 => Some 10 | 114 => Some 13 | 116 => Some 9
  | _ => None
  end.

(** The text up to the closing quote, unquoted, and what follows the quote. *)
Fixpoint unquote (fuel : nat) (s : bytes) : option (bytes * bytes) :=
  match fuel, s with
  | S fuel, b :: rest =>
      let go r rest := '(t, rest) ← unquote fuel rest; Some (encode_rune r ++ t, rest) in
      if is_char 34 b then Some ([], rest)
      else if is_char 92 b then
        match rest with
        | c :: rest' =>
            if is_char 117 c then '(r, rest) ← unicode_escape rest'; go r rest
            else r ← simple_escape c; go r rest'
        | [] => None
        end
      else if between 0 31 b then None
      else let '(r, w) := decode_rune b rest in go r (drop (w - 1) rest)
  | _, _ => None
  end.

(** ** Values *)

Definition literal (text : string) (v : json) (s : bytes) : option (json * bytes) :=
  let p := bytes_of text in
  if is_prefix p s then Some (v, drop (length p) s) else None.

Definition max_depth : nat := 10000.

(** [fuel] bounds the number of bytes, [depth] the arrays and objects that are
    still allowed to open. *)
Fixpoint parse_value (fuel : nat) (depth : nat) (s : bytes) {struct fuel} :
    option (json * bytes) :=
  match fuel with
  | O => None
  | S fuel =>
      match skip_space s with
      | b :: rest =>
          if is_char 123 b then
            match depth with
            | O => None
            | S depth =>
                match skip_space rest with
                | c :: rest' =>
                    if is_char 125 c then Some (JObject [], rest')
                    else '(ms, rest) ← parse_members fuel depth rest; Some (JObject ms, rest)
                | [] => None
                end
            end
          else if is_char 91 b then
            match depth with
            | O => None
            | S depth =>
                match skip_space rest with
                | c :: rest' =>
                    if is_char 93 c then Some (JArray [], rest')
                    else '(vs, rest) ← parse_items fuel depth rest; Some (JArray vs, rest)
                | [] => None
                end
            end
          else if is_char 34 b then
            '(t, rest) ← unquote (length rest) rest; Some (JString t, rest)
          else if is_char 116 b then literal "true" (JBool true) (b :: rest)
          else if is_char 102 b then literal "false" (JBool false) (b :: rest)
          else if is_char 110 b then literal "null" JNull (b :: rest)
          else '(n, rest) ← parse_number (b :: rest); Some (JNumber n, rest)
      | [] => None
      end
  end
with parse_items (fuel : nat) (depth : nat) (s : bytes) {struct fuel} :
    option (list json * bytes) :=
  match fuel with
  | O => None
  | S fuel =>
      '(v, rest) ← parse_value fuel depth s;
      match skip_space rest with
      | b :: rest' =>
          if is_char 44 b then '(vs, rest) ← parse_items fuel depth rest'; Some (v :: vs, rest)
          else if is_char 93 b then Some ([v], rest') else None
      | [] => None
      end
  end
with parse_members (fuel : nat) (depth : nat) (s : bytes) {struct fuel} :
    option (list (bytes * json) * bytes) :=
  match fuel with
  | O => None
  | S fuel =>
      match skip_space s with
      | q :: rest =>
          if is_char 34 q then
            '(key, rest) ← unquote (length rest) rest;
            match skip_space rest with
            | c :: rest =>
                if is_char 58 c then
                  '(v, rest) ← parse_value fuel depth rest;
                  match skip_space rest with
                  | b :: rest' =>
                      if is_char 44 b
                      then '(ms, rest) ← parse_members fuel depth rest'; Some ((key, v) :: ms, rest)
                      else if is_char 125 b then Some ([(key, v)], rest') else None
                  | [] => None
                  end
                else None
            | [] => None
            end
          else None
      | [] => None
      end
  end.

(** A whole text: one value and white space.  Each call of the parser that does
    not consume a byte is followed by one that does. *)
Definition parse_json (s : bytes) : option json :=
  match parse_value (2 * length s + 2) max_depth s with
  | Some (v, rest) => if bool_decide (skip_space rest = []) then Some v else None
  | None => None
  end.

(** ** Names of struct fields *)

(** [foldName]: letters without case, with the two other characters that fold
    to a letter of ASCII (the Kelvin sign and the long s). *)
Definition upper (b : byte) : byte :=
  if between 97 122 b then byte_of (byte_val b - 32) else b.

Fixpoint fold_name (fuel : nat) (s : bytes) : bytes :=
  match fuel, s with
  | S fuel, b :: rest =>
      if is_prefix (encode_rune 8490) s then byte_of 75 :: fold_name fuel (drop 2 rest)
      else if is_prefix (encode_rune 383) s then byte_of 83 :: fold_name fuel (drop 1 rest)
      else upper b :: fold_name fuel rest
  | _, _ => []
  end.

Definition field_matches (name : string) (key : bytes) : bool :=
  bool_decide (fold_name (length key) key = fold_name (length (bytes_of name)) (bytes_of name)).

(** ** Storing a value in a field

    A result next to the boolean that tells whether the types agree: on a
    mismatch the field keeps its value, decoding goes on, and [Unmarshal]
    returns an error at the end.  [null] leaves a field of basic type alone. *)

Definition store_string (v : json) (old : string) : string * bool :=
  match v with
  | JNull => (old, true)
  | JString s => (string_of s, true)
  | _ => (old, false)
  end.

Definition store_bool (v : json) (old : bool) : bool * bool :=
  match v with
  | JNull => (old, true)
  | JBool b => (b, true)
  | _ => (old, false)
  end.

Definition store_number (parse : bytes → result Z) (v : json) (old : Z) : Z * bool :=
  match v with
  | JNull => (old, true)
  | JNumber lit => match parse lit with Ok n => (n, true) | Err _ => (old, false) end
  | _ => (old, false)
  end.

Definition store_int (v : json) (old : Z) : Z * bool := store_number Atoi v old.
Definition store_uint (v : json) (old : Z) : Z * bool := store_number ParseUint v old.

(** ** The fuel of the parser is enough

    Every element consumes at least one byte, and two calls happen per byte at
    most, so that more fuel than [parse_json] gives never changes the result. *)

Lemma skip_space_length s : (length (skip_space s) ≤ length s)%nat.
Proof.
  induction s as [|b s IH]; [done|]. cbn [skip_space].
  destruct (_ || _); cbn [length] in *; lia.
Qed.

Lemma take_digits_length s ds rest :
  take_digits s = (ds, rest) → length s = (length ds + length rest)%nat.
Proof.
  revert ds rest. induction s as [|b s IH]; intros ds rest; cbn [take_digits];
    [by intros [= <- <-]|].
  destruct (is_digit b); [|by intros [= <- <-]].
  destruct (take_digits s) as [ds' r'] eqn:Ht. intros [= <- <-]. simpl. by rewrite (IH ds' r').
Qed.

Lemma int_part_length s i rest : int_part s = Some (i, rest) → (length rest < length s)%nat.
Proof.
  destruct s as [|b s]; cbn [int_part]; [done|].
  destruct (is_char 48 b); [intros [= <- <-]; simpl; lia|].
  destruct (is_digit b) eqn:Hd; [|done]. cbn [take_digits]. rewrite Hd.
  destruct (take_digits s) as [ds r] eqn:Ht. apply take_digits_length in Ht.
  intros [= <- <-]. simpl. lia.
Qed.

Lemma frac_part_length s i rest : frac_part s = Some (i, rest) → (length rest ≤ length s)%nat.
Proof.
  destruct s as [|b s]; cbn [frac_part]; [by intros [= <- <-]|].
  destruct (is_char 46 b); [|by intros [= <- <-]].
  destruct (take_digits s) as [[|d ds] r] eqn:Ht; [done|]. apply take_digits_length in Ht.
  intros [= <- <-]. simpl in *. lia.
Qed.

Lemma exp_part_length s i rest : exp_part s = Some (i, rest) → (length rest ≤ length s)%nat.
Proof.
  destruct s as [|b s]; cbn [exp_part]; [by intros [= <- <-]|].
  destruct (_ || _); [|by intros [= <- <-]].
  set (p := match s with [] => _ | _ => _ end).
  assert (length p.2 ≤ length s)%nat as Hp.
  { unfold p. destruct s as [|c s]; [done|]. destruct (_ || _); simpl; lia. }
  destruct p as [sign s']. simpl in Hp.
  destruct (take_digits s') as [[|d ds] r] eqn:Ht; [done|]. apply take_digits_length in Ht.
  intros [= <- <-]. simpl in *. lia.
Qed.

Lemma parse_number_length s n rest : parse_number s = Some (n, rest) → (length rest < length s)%nat.
Proof.
  unfold parse_number. set (p := match s with [] => _ | _ => _ end).
  assert (length p.2 ≤ length s)%nat as Hp.
  { unfold p. destruct s as [|c s]; [done|]. destruct (is_char 45 c); simpl; lia. }
  destruct p as [sign s']. simpl in Hp. intros Hn.
  apply bind_Some in Hn as ([i s1] & Hi%int_part_length & Hn).
  apply bind_Some in Hn as ([f s2] & Hf%frac_part_length & Hn).
  apply bind_Some in Hn as ([e s3] & He%exp_part_length & Hn).
  injection Hn as <- <-. simpl in *. lia.
Qed.

Lemma hex4_length s r rest : hex4 s = Some (r, rest) → (length rest < length s)%nat.
Proof.
  destruct s as [|b0 [|b1 [|b2 [|b3 s]]]]; try done. cbn [hex4]. intros Hh.
  repeat (apply bind_Some in Hh as (? & _ & Hh)). injection Hh as <- <-. simpl. lia.
Qed.

Lemma unicode_escape_length s r rest :
  unicode_escape s = Some (r, rest) → (length rest < length s)%nat.
Proof.
  unfold unicode_escape. intros Hu. apply bind_Some in Hu as ([r1 s1] & Hh%hex4_length & Hu).
  destruct (is_surrogate r1); [|by injection Hu as <- <-].
  destruct s1 as [|b [|u s1]]; try by injection Hu as <- <-.
  destruct (_ && _); [|by injection Hu as <- <-].
  destruct (hex4 s1) as [[r2 s2]|] eqn:H2; [|by injection Hu as <- <-].
  apply hex4_length in H2. destruct (surrogate_pair r1 r2); injection Hu as <- <-; simpl in *; lia.
Qed.

Lemma unquote_length fuel s t rest : unquote fuel s = Some (t, rest) → (length rest < length s)%nat.
Proof.
  revert s t rest. induction fuel as [|fuel IH]; intros s t rest; [done|].
  destruct s as [|b s]; [done|]. cbn [unquote].
  assert (∀ r s', (length s' ≤ length s)%nat →
    ('(t0, rest0) ← unquote fuel s'; Some (encode_rune r ++ t0, rest0)) = Some (t, rest) →
    (length rest < length (b :: s))%nat) as Hgo.
  { intros r s' Hle Hb. apply bind_Some in Hb as ([t0 r0] & Hq%IH & Hb).
    injection Hb as _ <-. simpl. lia. }
  destruct (is_char 34 b); [intros [= <- <-]; simpl; lia|].
  destruct (is_char 92 b).
  { destruct s as [|c s]; [done|]. destruct (is_char 117 c).
    - intros Hb. apply bind_Some in Hb as ([r s1] & Hu%unicode_escape_length & Hb).
      apply (Hgo r s1); [simpl; lia|done].
    - intros Hb. apply bind_Some in Hb as (r & _ & Hb). apply (Hgo r s); [simpl; lia|done]. }
  destruct (between 0 31 b); [done|]. destruct (decode_rune b s) as [r w].
  apply Hgo. rewrite length_drop. lia.
Qed.

Lemma literal_length text v s v' rest :
  literal text v s = Some (v', rest) → text ≠ ""%string → (length rest < length s)%nat.
Proof.
  unfold literal, is_prefix. case_bool_decide as Hp; [|done]. intros [= <- <-] Hne.
  rewrite length_drop. destruct text as [|a text]; [done|].
  change (bytes_of (String a text)) with (a :: bytes_of text) in *.
  apply (f_equal length) in Hp. rewrite length_take in Hp. cbn [length] in *. lia.
Qed.

Lemma parse_length fuel :
  (∀ d s v rest, parse_value fuel d s = Some (v, rest) → (length rest < length s)%nat) ∧
  (∀ d s vs rest, parse_items fuel d s = Some (vs, rest) → (length rest < length s)%nat) ∧
  (∀ d s ms rest, parse_members fuel d s = Some (ms, rest) → (length rest < length s)%nat).
Proof.
  induction fuel as [|fuel (IHv & IHi & IHm)]; [done|].
  split_and!; intros d s v rest Hp; cbn [parse_value parse_items parse_members] in Hp.
  - pose proof (skip_space_length s) as Hs. destruct (skip_space s) as [|b s1]; [done|].
    cbn [length] in Hs. destruct (is_char 123 b).
    { destruct d as [|d]; [done|]. pose proof (skip_space_length s1) as Hs1.
      destruct (skip_space s1) as [|c s2]; [done|]. cbn [length] in Hs1.
      destruct (is_char 125 c); [injection Hp as _ <-; lia|].
      apply bind_Some in Hp as ([ms r] & Hm%IHm & Hp). injection Hp as _ <-. lia. }
    destruct (is_char 91 b).
    { destruct d as [|d]; [done|]. pose proof (skip_space_length s1) as Hs1.
      destruct (skip_space s1) as [|c s2]; [done|]. cbn [length] in Hs1.
      destruct (is_char 93 c); [injection Hp as _ <-; lia|].
      apply bind_Some in Hp as ([ms r] & Hm%IHi & Hp). injection Hp as _ <-. lia. }
    destruct (is_char 34 b).
    { apply bind_Some in Hp as ([t r] & Hq%unquote_length & Hp). injection Hp as _ <-. lia. }
    do 3 (match type of Hp with (if ?x then _ else _) = _ => destruct x end;
      [apply literal_length in Hp; [simpl in Hp; lia|done]|]).
    apply bind_Some in Hp as ([n r] & Hn%parse_number_length & Hp). injection Hp as _ <-.
    simpl in Hn. lia.
  - apply bind_Some in Hp as ([v1 r] & Hv%IHv & Hp). pose proof (skip_space_length r) as Hr.
    destruct (skip_space r) as [|b r1]; [done|]. cbn [length] in Hr.
    destruct (is_char 44 b).
    + apply bind_Some in Hp as ([vs r2] & Hi%IHi & Hp). injection Hp as _ <-. lia.
    + destruct (is_char 93 b); [|done]. injection Hp as _ <-. lia.
  - pose proof (skip_space_length s) as Hs. destruct (skip_space s) as [|q s1]; [done|].
    cbn [length] in Hs. destruct (is_char 34 q); [|done].
    apply bind_Some in Hp as ([key r] & Hq%unquote_length & Hp).
    pose proof (skip_space_length r) as Hr. destruct (skip_space r) as [|c r1]; [done|].
    cbn [length] in Hr. destruct (is_char 58 c); [|done].
    apply bind_Some in Hp as ([v1 r2] & Hv%IHv & Hp). pose proof (skip_space_length r2) as Hr2.
    destruct (skip_space r2) as [|b r3]; [done|]. cbn [length] in Hr2.
    destruct (is_char 44 b).
    + apply bind_Some in Hp as ([ms r4] & Hi%IHm & Hp). injection Hp as _ <-. lia.
    + destruct (is_char 125 b); [|done]. injection Hp as _ <-. lia.
Qed.

Lemma parse_more_fuel fuel fuel' :
  (fuel ≤ fuel')%nat →
  (∀ d s, (2 * length s + 1 ≤ fuel)%nat → parse_value fuel' d s = parse_value fuel d s) ∧
  (∀ d s, (2 * length s + 2 ≤ fuel)%nat → parse_items fuel' d s = parse_items fuel d s) ∧
  (∀ d s, (2 * length s + 2 ≤ fuel)%nat → parse_members fuel' d s = parse_members fuel d s).
Proof.
  revert fuel'. induction fuel as [|fuel IH]; intros fuel' Hle; [split_and!; intros; lia|].
  destruct fuel' as [|fuel']; [lia|]. destruct (IH fuel') as (IHv & IHi & IHm); [lia|].
  split_and!; intros d s Hf; cbn [parse_value parse_items parse_members].
  - pose proof (skip_space_length s) as Hs. destruct (skip_space s) as [|b s1]; [done|].
    cbn [length] in Hs. destruct (is_char 123 b).
    { destruct d as [|d]; [done|]. destruct (skip_space s1) as [|c s2]; [done|].
      destruct (is_char 125 c); [done|]. by rewrite IHm by lia. }
    destruct (is_char 91 b); [|done]. destruct d as [|d]; [done|].
    destruct (skip_space s1) as [|c s2]; [done|]. destruct (is_char 93 c); [done|].
    by rewrite IHi by lia.
  - rewrite IHv by lia. destruct (parse_value fuel d s) as [[v r]|] eqn:Hv; [|done].
    apply (parse_length fuel) in Hv. cbn [mbind option_bind].
    pose proof (skip_space_length r) as Hr. destruct (skip_space r) as [|b r1]; [done|].
    cbn [length] in Hr. destruct (is_char 44 b); [|done]. by rewrite IHi by lia.
  - pose proof (skip_space_length s) as Hs. destruct (skip_space s) as [|q s1]; [done|].
    cbn [length] in Hs. destruct (is_char 34 q); [|done].
    destruct (unquote (length s1) s1) as [[key r]|] eqn:Hq; [|done]. apply unquote_length in Hq.
    cbn [mbind option_bind]. pose proof (skip_space_length r) as Hr.
    destruct (skip_space r) as [|c r1]; [done|]. cbn [length] in Hr.
    destruct (is_char 58 c); [|done]. rewrite IHv by lia.
    destruct (parse_value fuel d r1) as [[v r2]|] eqn:Hv; [|done].
    apply (parse_length fuel) in Hv. cbn [mbind option_bind].
    pose proof (skip_space_length r2) as Hr2. destruct (skip_space r2) as [|b r3]; [done|].
    cbn [length] in Hr2. destruct (is_char 44 b); [|done]. by rewrite IHm by lia.
Qed.

(** More fuel than [parse_json] uses gives the same value. *)
Lemma parse_json_fuel s fuel :
  (2 * length s + 2 ≤ fuel)%nat →
  parse_value fuel max_depth s = parse_value (2 * length s + 2) max_depth s.
Proof. intros Hf. destruct (parse_more_fuel _ _ Hf) as (Hv & _). apply Hv. lia. Qed.
