(* ===== verification/Config.v ===== *)
(** * internal/config/config.go: the configuration of a node.

    [Load] starts from the defaults, lets a JSON file override them, then the
    environment variables, and checks what is required.  The environment is a
    finite map (an unset variable reads as the empty string), and the file is
    read from the file system of SnapshotStore.v.  An error is identified by the
    fixed part of its message. *)

From S2P Require Import Prelude SnapshotStore GoStrings GoJson.

Record Peer := mkPeer {
  ID : string;
  RaftAddr : string;
  ClientAddr : string
}.

(** Durations are in nanoseconds. *)
Record Config := mkConfig {
  cfg_NodeID : string;
  cfg_RaftAddr : string;
  cfg_ClientAddr : string;
  cfg_Peers : list Peer;
  cfg_DataDir : string;
  cfg_ElectionTimeoutMin : Z;
  cfg_ElectionTimeoutMax : Z;
  cfg_HeartbeatInterval : Z;
  cfg_SnapshotThreshold : Z;
  cfg_ReplicationBatchMaxEntries : Z;
  cfg_FsyncOnAppend : bool
}.

Definition Millisecond : Z := 1000000.

Definition defaultConfig : Config :=
  mkConfig "" "" "" [] "./data" (300 * Millisecond) (600 * Millisecond) (75 * Millisecond)
    10000 512 true.

Section setters.
Implicit Types c : Config.

Definition set_NodeID v c : Config :=
  mkConfig v (cfg_RaftAddr c) (cfg_ClientAddr c) (cfg_Peers c) (cfg_DataDir c)
    (cfg_ElectionTimeoutMin c) (cfg_ElectionTimeoutMax c) (cfg_HeartbeatInterval c)
    (cfg_SnapshotThreshold c) (cfg_ReplicationBatchMaxEntries c) (cfg_FsyncOnAppend c).
Definition set_RaftAddr v c : Config :=
  mkConfig (cfg_NodeID c) v (cfg_ClientAddr c) (cfg_Peers c) (cfg_DataDir c)
    (cfg_ElectionTimeoutMin c) (cfg_ElectionTimeoutMax c) (cfg_HeartbeatInterval c)
    (cfg_SnapshotThreshold c) (cfg_ReplicationBatchMaxEntries c) (cfg_FsyncOnAppend c).
Definition set_ClientAddr v c : Config :=
  mkConfig (cfg_NodeID c) (cfg_RaftAddr c) v (cfg_Peers c) (cfg_DataDir c)
    (cfg_ElectionTimeoutMin c) (cfg_ElectionTimeoutMax c) (cfg_HeartbeatInterval c)
    (cfg_SnapshotThreshold c) (cfg_ReplicationBatchMaxEntries c) (cfg_FsyncOnAppend c).
Definition set_Peers v c : Config :=
  mkConfig (cfg_NodeID c) (cfg_RaftAddr c) (cfg_ClientAddr c) v (cfg_DataDir c)
    (cfg_ElectionTimeoutMin c) (cfg_ElectionTimeoutMax c) (cfg_HeartbeatInterval c)
    (cfg_SnapshotThreshold c) (cfg_ReplicationBatchMaxEntries c) (cfg_FsyncOnAppend c).
Definition set_DataDir v c : Config :=
  mkConfig (cfg_NodeID c) (cfg_RaftAddr c) (cfg_ClientAddr c) (cfg_Peers c) v
    (cfg_ElectionTimeoutMin c) (cfg_ElectionTimeoutMax c) (cfg_HeartbeatInterval c)
    (cfg_SnapshotThreshold c) (cfg_ReplicationBatchMaxEntries c) (cfg_FsyncOnAppend c).
Definition set_TimeoutMin v c : Config :=
  mkConfig (cfg_NodeID c) (cfg_RaftAddr c) (cfg_ClientAddr c) (cfg_Peers c) (cfg_DataDir c)
    v (cfg_ElectionTimeoutMax c) (cfg_HeartbeatInterval c)
    (cfg_SnapshotThreshold c) (cfg_ReplicationBatchMaxEntries c) (cfg_FsyncOnAppend c).
Definition set_TimeoutMax v c : Config :=
  mkConfig (cfg_NodeID c) (cfg_RaftAddr c) (cfg_ClientAddr c) (cfg_Peers c) (cfg_DataDir c)
    (cfg_ElectionTimeoutMin c) v (cfg_HeartbeatInterval c)
    (cfg_SnapshotThreshold c) (cfg_ReplicationBatchMaxEntries c) (cfg_FsyncOnAppend c).
Definition set_Heartbeat v c : Config :=
  mkConfig (cfg_NodeID c) (cfg_RaftAddr c) (cfg_ClientAddr c) (cfg_Peers c) (cfg_DataDir c)
    (cfg_ElectionTimeoutMin c) (cfg_ElectionTimeoutMax c) v
    (cfg_SnapshotThreshold c) (cfg_ReplicationBatchMaxEntries c) (cfg_FsyncOnAppend c).
Definition set_Threshold v c : Config :=
  mkConfig (cfg_NodeID c) (cfg_RaftAddr c) (cfg_ClientAddr c) (cfg_Peers c) (cfg_DataDir c)
    (cfg_ElectionTimeoutMin c) (cfg_ElectionTimeoutMax c) (cfg_HeartbeatInterval c)
    v (cfg_ReplicationBatchMaxEntries c) (cfg_FsyncOnAppend c).
Definition set_BatchMax v c : Config :=
  mkConfig (cfg_NodeID c) (cfg_RaftAddr c) (cfg_ClientAddr c) (cfg_Peers c) (cfg_DataDir c)
    (cfg_ElectionTimeoutMin c) (cfg_ElectionTimeoutMax c) (cfg_HeartbeatInterval c)
    (cfg_SnapshotThreshold c) v (cfg_FsyncOnAppend c).
Definition set_Fsync v c : Config :=
  mkConfig (cfg_NodeID c) (cfg_RaftAddr c) (cfg_ClientAddr c) (cfg_Peers c) (cfg_DataDir c)
    (cfg_ElectionTimeoutMin c) (cfg_ElectionTimeoutMax c) (cfg_HeartbeatInterval c)
    (cfg_SnapshotThreshold c) (cfg_ReplicationBatchMaxEntries c) v.

End setters.

(** ** parsePeers *)

Definition parse_peer (part : bytes) : option Peer :=
  match split_two "="%char part with
  | [id; addrs] =>
      match split_two "|"%char addrs with
      | [raft; client] => Some (mkPeer (string_of id) (string_of raft) (string_of client))
      | _ => None
      end
  | _ => None
  end.

Fixpoint parse_parts (parts : list bytes) : result (list Peer) :=
  match parts with
  | [] => Ok []
  | part :: parts =>
      match TrimSpace part with
      | [] => parse_parts parts
      | spec =>
          match parse_peer spec with
          | None => Err (ErrConfig "invalid peer spec")
          | Some p => let? ps := parse_parts parts in Ok (p :: ps)
          end
      end
  end.

Definition parsePeers (s : string) : result (list Peer) :=
  parse_parts (split_on ","%char (bytes_of s)).

(** ** The configuration file *)

Definition decode_peer_member (p : Peer) (key : bytes) (v : json) : Peer * bool :=
  if field_matches "id" key then
    let '(s, ok) := store_string v (ID p) in (mkPeer s (RaftAddr p) (ClientAddr p), ok)
  else if field_matches "raft_addr" key then
    let '(s, ok) := store_string v (RaftAddr p) in (mkPeer (ID p) s (ClientAddr p), ok)
  else if field_matches "client_addr" key then
    let '(s, ok) := store_string v (ClientAddr p) in (mkPeer (ID p) (RaftAddr p) s, ok)
  else (p, true).

Definition decode_peer (v : json) (p : Peer) : Peer * bool :=
  match v with
  | JNull => (p, true)
  | JObject ms =>
      foldl (λ acc m, let '(p, ok) := decode_peer_member acc.1 m.1 m.2 in (p, acc.2 && ok))
        (p, true) ms
  | _ => (p, false)
  end.

(** Array elements are decoded over what the backing array of the slice holds:
    [old] are its elements followed by what lies between length and capacity. *)
Fixpoint decode_items (vs : list json) (old : list Peer) : list Peer * list Peer * bool :=
  match vs with
  | [] => ([], old, true)
  | v :: vs =>
      let '(p, ok) := decode_peer v (default (mkPeer "" "" "") (head old)) in
      let '(ps, spare, oks) := decode_items vs (tail old) in
      (p :: ps, spare, ok && oks)
  end.

Definition decode_peers (v : json) (ps spare : list Peer) : list Peer * list Peer * bool :=
  match v with
  | JNull | JArray [] => ([], [], true)
  | JArray vs => decode_items vs (ps ++ spare)
  | _ => (ps, spare, false)
  end.

(** The configuration, the spare part of the peer slice, and no mismatch so far. *)
Definition decode_member (st : Config * list Peer * bool) (m : bytes * json) :
    Config * list Peer * bool :=
  let '(c, spare, ok) := st in
  let '(key, v) := m in
  if field_matches "node_id" key then
    let '(x, ok') := store_string v (cfg_NodeID c) in (set_NodeID x c, spare, ok && ok')
  else if field_matches "raft_addr" key then
    let '(x, ok') := store_string v (cfg_RaftAddr c) in (set_RaftAddr x c, spare, ok && ok')
  else if field_matches "client_addr" key then
    let '(x, ok') := store_string v (cfg_ClientAddr c) in (set_ClientAddr x c, spare, ok && ok')
  else if field_matches "peers" key then
    let '(x, spare, ok') := decode_peers v (cfg_Peers c) spare in (set_Peers x c, spare, ok && ok')
  else if field_matches "data_dir" key then
    let '(x, ok') := store_string v (cfg_DataDir c) in (set_DataDir x c, spare, ok && ok')
  else if field_matches "election_timeout_min" key then
    let '(x, ok') := store_int v (cfg_ElectionTimeoutMin c) in (set_TimeoutMin x c, spare, ok && ok')
  else if field_matches "election_timeout_max" key then
    let '(x, ok') := store_int v (cfg_ElectionTimeoutMax c) in (set_TimeoutMax x c, spare, ok && ok')
  else if field_matches "heartbeat_interval" key then
    let '(x, ok') := store_int v (cfg_HeartbeatInterval c) in (set_Heartbeat x c, spare, ok && ok')
  else if field_matches "snapshot_threshold" key then
    let '(x, ok') := store_uint v (cfg_SnapshotThreshold c) in (set_Threshold x c, spare, ok && ok')
  else if field_matches "replication_batch_max_entries" key then
    let '(x, ok') := store_int v (cfg_ReplicationBatchMaxEntries c) in
    (set_BatchMax x c, spare, ok && ok')
  else if field_matches "fsync_on_append" key then
    let '(x, ok') := store_bool v (cfg_FsyncOnAppend c) in (set_Fsync x c, spare, ok && ok')
  else (c, spare, ok).

(** [json.Unmarshal(b, &cfg)]. *)
Definition Unmarshal (b : bytes) (c : Config) : option error * Config :=
  match parse_json b with
  | None => (Some ErrCodec, c)
  | Some JNull => (None, c)
  | Some (JObject ms) =>
      let '(c, _, ok) := foldl decode_member (c, [], true) ms in
      (if ok then None else Some ErrCodec, c)
  | Some _ => (Some ErrCodec, c)
  end.

(** ** Load *)

(** The configuration and the error that stopped its construction. *)
Abbreviation loading := (option error * Config)%type.

Definition and_then (m : loading) (k : Config → loading) : loading :=
  match m with (None, c) => k c | (Some err, c) => (Some err, c) end.

Notation "m ;;; k" := (and_then m k) (at level 50, left associativity) : go_scope.

Definition Getenv (env : gmap string string) (name : string) : string :=
  default ""%string (env !! name).

Definition load_file (env : gmap string string) (f : fs) (c : Config) : loading :=
  let path := Getenv env "CONFIG_FILE" in
  if String.eqb path "" then (None, c)
  else
    match (os_ReadFile path f).1 with
    | Err _ => (Some (ErrConfig "reading config file"), c)
    | Ok b =>
        match Unmarshal b c with
        | (Some _, c) => (Some (ErrConfig "parsing config file"), c)
        | (None, c) => (None, c)
        end
    end.

(** One variable: nothing when it is empty, an error when it does not parse. *)
Definition from_env {A} (env : gmap string string) (name : string) (parse : string → result A)
    (set : A → Config → Config) (c : Config) : loading :=
  let v := Getenv env name in
  if String.eqb v "" then (None, c)
  else
    match parse v with
    | Err _ => (Some (ErrConfig ("parsing " +:+ name)), c)
    | Ok x => (None, set x c)
    end.

Definition parse_text (s : string) : result string := Ok s.

(** [time.Duration(n) * time.Millisecond], which wraps. *)
Definition parse_millis (s : string) : result Z :=
  let? n := Atoi (bytes_of s) in Ok (i64 (n * Millisecond)).

Definition check (ok : bool) (msg : string) (c : Config) : loading :=
  if ok then (None, c) else (Some (ErrConfig msg), c).

Definition validate (c : Config) : loading :=
  check (negb (String.eqb (cfg_NodeID c) "")) "NODE_ID is required" c ;;; λ c,
  check (negb (String.eqb (cfg_RaftAddr c) "")) "RAFT_ADDR is required" c ;;; λ c,
  check (negb (String.eqb (cfg_ClientAddr c) "")) "CLIENT_ADDR is required" c ;;; λ c,
  check (cfg_ElectionTimeoutMin c <? cfg_ElectionTimeoutMax c)
    "ELECTION_TIMEOUT_MIN_MS must be < ELECTION_TIMEOUT_MAX_MS" c.

Definition Load (env : gmap string string) (f : fs) : loading :=
  load_file env f defaultConfig ;;;
  from_env env "NODE_ID" parse_text set_NodeID ;;;
  from_env env "RAFT_ADDR" parse_text set_RaftAddr ;;;
  from_env env "CLIENT_ADDR" parse_text set_ClientAddr ;;;
  from_env env "DATA_DIR" parse_text set_DataDir ;;;
  from_env env "PEERS" parsePeers set_Peers ;;;
  from_env env "SNAPSHOT_THRESHOLD" (λ s, ParseUint (bytes_of s)) set_Threshold ;;;
  from_env env "REPLICATION_BATCH_MAX_ENTRIES" (λ s, Atoi (bytes_of s)) set_BatchMax ;;;
  from_env env "ELECTION_TIMEOUT_MIN_MS" parse_millis set_TimeoutMin ;;;
  from_env env "ELECTION_TIMEOUT_MAX_MS" parse_millis set_TimeoutMax ;;;
  from_env env "HEARTBEAT_INTERVAL_MS" parse_millis set_Heartbeat ;;;
  from_env env "FSYNC_ON_APPEND" (λ s, ParseBool (bytes_of s)) set_Fsync ;;;
  validate.

(** ** What Load returns *)

(** The value of a field after a variable had its say. *)
Definition pick {A} (env : gmap string string) (name : string) (parse : string → result A)
    (old : A) : A :=
  if String.eqb (Getenv env name) "" then old
  else match parse (Getenv env name) with Ok x => x | Err _ => old end.

Definition parses {A} (env : gmap string string) (name : string) (parse : string → result A) : Prop :=
  Getenv env name ≠ ""%string → ∃ x, parse (Getenv env name) = Ok x.

(** The environment variables over a configuration [c]. *)
Definition override (env : gmap string string) (c : Config) : Config :=
  mkConfig (pick env "NODE_ID" parse_text (cfg_NodeID c))
    (pick env "RAFT_ADDR" parse_text (cfg_RaftAddr c))
    (pick env "CLIENT_ADDR" parse_text (cfg_ClientAddr c))
    (pick env "PEERS" parsePeers (cfg_Peers c))
    (pick env "DATA_DIR" parse_text (cfg_DataDir c))
    (pick env "ELECTION_TIMEOUT_MIN_MS" parse_millis (cfg_ElectionTimeoutMin c))
    (pick env "ELECTION_TIMEOUT_MAX_MS" parse_millis (cfg_ElectionTimeoutMax c))
    (pick env "HEARTBEAT_INTERVAL_MS" parse_millis (cfg_HeartbeatInterval c))
    (pick env "SNAPSHOT_THRESHOLD" (λ s, ParseUint (bytes_of s)) (cfg_SnapshotThreshold c))
    (pick env "REPLICATION_BATCH_MAX_ENTRIES" (λ s, Atoi (bytes_of s))
       (cfg_ReplicationBatchMaxEntries c))
    (pick env "FSYNC_ON_APPEND" (λ s, ParseBool (bytes_of s)) (cfg_FsyncOnAppend c)).

Record env_parses (env : gmap string string) : Prop := {
  ep_peers : parses env "PEERS" parsePeers;
  ep_threshold : parses env "SNAPSHOT_THRESHOLD" (λ s, ParseUint (bytes_of s));
  ep_batch : parses env "REPLICATION_BATCH_MAX_ENTRIES" (λ s, Atoi (bytes_of s));
  ep_min : parses env "ELECTION_TIMEOUT_MIN_MS" parse_millis;
  ep_max : parses env "ELECTION_TIMEOUT_MAX_MS" parse_millis;
  ep_heartbeat : parses env "HEARTBEAT_INTERVAL_MS" parse_millis;
  ep_fsync : parses env "FSYNC_ON_APPEND" (λ s, ParseBool (bytes_of s))
}.

Record required (c : Config) : Prop := {
  req_id : cfg_NodeID c ≠ ""%string;
  req_raft : cfg_RaftAddr c ≠ ""%string;
  req_client : cfg_ClientAddr c ≠ ""%string;
  req_timeouts : cfg_ElectionTimeoutMin c < cfg_ElectionTimeoutMax c
}.

Lemma from_env_ok {A} env name (parse : string → result A) get set (c c' : Config) :
  (∀ c, set (get c) c = c) →
  from_env env name parse set c = (None, c') ↔
  parses env name parse ∧ c' = set (pick env name parse (get c)) c.
Proof.
  intros Hset. unfold from_env, parses, pick.
  destruct (String.eqb_spec (Getenv env name) "") as [|Hne].
  - rewrite Hset. split; [intros [= <-] | intros [_ ->]]; done.
  - destruct (parse _) as [x|].
    + split; [intros [= <-]; split; [intros _; by eexists|done] | by intros [_ ->]].
    + split; [done|]. intros [Hp _]. by destruct (Hp Hne).
Qed.

Lemma and_then_ok m (k : Config → loading) c' :
  and_then m k = (None, c') ↔ ∃ c, m = (None, c) ∧ k c = (None, c').
Proof.
  unfold and_then. destruct m as [[err|] c]; split.
  - done.
  - by intros (? & ? & _).
  - eauto.
  - by intros (? & [= <-] & ?).
Qed.

(** A variable in the chain of [Load]. *)
Lemma then_env_ok {A} env name (parse : string → result A) get set m (c' : Config) :
  (∀ c, set (get c) c = c) →
  and_then m (from_env env name parse set) = (None, c') ↔
  parses env name parse ∧ ∃ c, m = (None, c) ∧ c' = set (pick env name parse (get c)) c.
Proof.
  intros Hset. rewrite and_then_ok. setoid_rewrite (from_env_ok _ _ _ get set _ _ Hset). naive_solver.
Qed.

Lemma check_ok b msg c c' : check b msg c = (None, c') ↔ b = true ∧ c' = c.
Proof. unfold check. destruct b; naive_solver. Qed.

Lemma validate_ok c c' : validate c = (None, c') ↔ required c ∧ c' = c.
Proof.
  unfold validate. rewrite and_then_ok. setoid_rewrite check_ok.
  setoid_rewrite and_then_ok. setoid_rewrite check_ok.
  setoid_rewrite and_then_ok. setoid_rewrite check_ok.
  setoid_rewrite negb_true_iff. setoid_rewrite String.eqb_neq. setoid_rewrite Z.ltb_lt.
  split.
  - intros (? & (? & ->) & ? & (? & ->) & ? & (? & ->) & ? & ->). split; [by split|done].
  - intros [[] ->]. repeat (exists c; split; [done|]). done.
Qed.

(** Text variables always parse. *)
Lemma parses_text env name : parses env name parse_text.
Proof. intros _. by eexists. Qed.

#[local] Hint Resolve parses_text : core.

(** Take the last variable off the chain in [H]; put one on it in the goal. *)
Ltac peel H get := apply (then_env_ok _ _ _ get) in H as (? & ? & H & ->); [|by intros []].
Ltac chain get :=
  apply (then_env_ok _ _ _ get); [by intros [] | split; [by auto|]]; eexists; split.

Lemma Load_ok env f c :
  Load env f = (None, c) ↔
  ∃ c0, load_file env f defaultConfig = (None, c0) ∧ env_parses env ∧ c = override env c0 ∧
    required c.
Proof.
  unfold Load. rewrite and_then_ok. setoid_rewrite validate_ok. split.
  - intros (c12 & Hl & Hr & ->).
    peel Hl cfg_FsyncOnAppend. peel Hl cfg_HeartbeatInterval. peel Hl cfg_ElectionTimeoutMax.
    peel Hl cfg_ElectionTimeoutMin. peel Hl cfg_ReplicationBatchMaxEntries.
    peel Hl cfg_SnapshotThreshold. peel Hl cfg_Peers. peel Hl cfg_DataDir. peel Hl cfg_ClientAddr.
    peel Hl cfg_RaftAddr. peel Hl cfg_NodeID.
    eexists. split_and!; [done | by split | reflexivity | done].
  - intros (c0 & Hl & [] & -> & Hr). eexists. split; [|split; [exact Hr|reflexivity]].
    chain cfg_FsyncOnAppend. chain cfg_HeartbeatInterval. chain cfg_ElectionTimeoutMax.
    chain cfg_ElectionTimeoutMin. chain cfg_ReplicationBatchMaxEntries.
    chain cfg_SnapshotThreshold. chain cfg_Peers. chain cfg_DataDir. chain cfg_ClientAddr.
    chain cfg_RaftAddr. chain cfg_NodeID. exact Hl.
    all: reflexivity.
Qed.

(** C30: [Load] succeeds exactly when the file (if one is named) can be read and
    decoded, every variable that is set parses, and the result has an identity,
    both addresses and a proper election interval; and then every field is the
    variable's value if the variable is set, otherwise the file's, otherwise the
    default. *)
Theorem Load_spec env f c :
  Load env f = (None, c) ↔
  ∃ c0, load_file env f defaultConfig = (None, c0) ∧ env_parses env ∧ c = override env c0 ∧
    required c.
Proof. apply Load_ok. Qed.

(** ** Every field fits its Go type *)

Record typed (c : Config) : Prop := {
  ty_min : is_i64 (cfg_ElectionTimeoutMin c);
  ty_max : is_i64 (cfg_ElectionTimeoutMax c);
  ty_heartbeat : is_i64 (cfg_HeartbeatInterval c);
  ty_threshold : is_u64 (cfg_SnapshotThreshold c);
  ty_batch : is_i64 (cfg_ReplicationBatchMaxEntries c)
}.

Lemma store_int_typed v old : is_i64 old → is_i64 (store_int v old).1.
Proof.
  intros Ho. unfold store_int, store_number. destruct v; try done.
  destruct (Atoi literal) eqn:Ha; [|done]. by apply Atoi_range in Ha.
Qed.

Lemma store_uint_typed v old : is_u64 old → is_u64 (store_uint v old).1.
Proof.
  intros Ho. unfold store_uint, store_number. destruct v; try done.
  destruct (ParseUint literal) eqn:Ha; [|done]. by apply ParseUint_range in Ha.
Qed.

Lemma decode_member_typed st m : typed st.1.1 → typed (decode_member st m).1.1.
Proof.
  destruct st as [[c spare] ok], m as [key v]. intros [Hmin Hmax Hhb Hth Hb]. simpl in *.
  pose proof (store_int_typed v). pose proof (store_uint_typed v).
  unfold decode_member.
  destruct (decode_peers v (cfg_Peers c) spare) as [[ps sp] okp].
  repeat match goal with
    | |- context [if field_matches ?n key then _ else _] => destruct (field_matches n key)
    | |- context [let '(_, _) := ?p in _] => rewrite (surjective_pairing p)
    end; split; simpl; auto.
Qed.

Lemma Unmarshal_typed b c : typed c → typed (Unmarshal b c).2.
Proof.
  intros Hc. unfold Unmarshal. destruct (parse_json b) as [[| | | | |ms]|]; try done.
  assert (typed (foldl decode_member (c, [], true) ms).1.1) as Hf.
  { change (typed (c, @nil Peer, true).1.1) in Hc. revert Hc.
    generalize (c, @nil Peer, true). induction ms as [|m ms IH]; intros st Hst; [done|].
    by apply IH, decode_member_typed. }
  by destruct (foldl _ _ _) as [[? ?] ?].
Qed.

Lemma load_file_typed env f c : typed c → typed (load_file env f c).2.
Proof.
  intros Hc. unfold load_file. destruct (String.eqb _ _); [done|].
  destruct (os_ReadFile _ _).1 as [b|]; [|done]. pose proof (Unmarshal_typed b c Hc).
  by destruct (Unmarshal b c) as [[]].
Qed.

Lemma and_then_typed m (k : Config → loading) :
  typed m.2 → (∀ c, typed c → typed (k c).2) → typed (and_then m k).2.
Proof. destruct m as [[]]; simpl; auto. Qed.

Lemma from_env_typed {A} env name (parse : string → result A) set (c : Config) :
  (∀ s x, parse s = Ok x → typed (set x c)) → typed c → typed (from_env env name parse set c).2.
Proof.
  intros Hs Hc. unfold from_env. destruct (String.eqb _ _); [done|].
  destruct (parse _) eqn:Hp; [|done]. by eapply Hs.
Qed.

Lemma parse_millis_range s n : parse_millis s = Ok n → is_i64 n.
Proof.
  unfold parse_millis. destruct (Atoi _); [|done]. intros [= <-]. apply i64_range.
Qed.

Lemma defaultConfig_typed : typed defaultConfig.
Proof. split; vm_compute; split; (discriminate || done). Qed.

Lemma Load_fields env f : typed (Load env f).2.
Proof.
  unfold Load.
  repeat (apply and_then_typed; [|intros c Hc]); [apply load_file_typed, defaultConfig_typed|..];
    try (apply from_env_typed; [|exact Hc]; intros s x Hx; destruct Hc; split; simpl;
         try done; first [by eapply parse_millis_range | by eapply ParseUint_range
           | by eapply Atoi_range]).
  unfold validate. repeat (apply and_then_typed; [|intros]); unfold check; by destruct (_ : bool).
Qed.


(** ** Peers *)

Definition print_peer (p : Peer) : bytes :=
  bytes_of (ID p) ++ "="%char :: bytes_of (RaftAddr p) ++ "|"%char :: bytes_of (ClientAddr p).

Definition print_peers (ps : list Peer) : string := string_of (join ","%char (print_peer <$> ps)).

(** Visible text without commas, and without the separators that end a part. *)
Definition text_ok (seps : list byte) (s : string) : bool :=
  forallb (λ b, plain b && bool_decide (b ∉ (","%char :: seps))) (bytes_of s).

Definition peer_ok (p : Peer) : bool :=
  text_ok ["="%char] (ID p) && text_ok ["|"%char] (RaftAddr p) && text_ok [] (ClientAddr p).

Lemma text_ok_elem seps s b :
  text_ok seps s = true → b ∈ bytes_of s → plain b = true ∧ b ∉ (","%char :: seps).
Proof.
  unfold text_ok. rewrite forallb_forall. intros Hf Hb%list_elem_of_In.
  specialize (Hf b Hb). by rewrite andb_true_iff, bool_decide_eq_true in Hf.
Qed.

Lemma print_peer_plain p b : peer_ok p = true → b ∈ print_peer p → plain b = true ∧ b ≠ ","%char.
Proof.
  unfold peer_ok, print_peer. rewrite !andb_true_iff. intros [[Hi Hr] Hc] Hb.
  rewrite elem_of_app, elem_of_cons, elem_of_app, elem_of_cons in Hb.
  destruct Hb as [Hb|[->|[Hb|[->|Hb]]]]; try (by split);
    (eapply text_ok_elem in Hb as [? ?]; [|eassumption]; split; [done|set_solver]).
Qed.

Lemma parse_peer_print p : peer_ok p = true → parse_peer (print_peer p) = Some p.
Proof.
  unfold peer_ok, print_peer, parse_peer. rewrite !andb_true_iff. intros [[Hi Hr] Hc].
  rewrite split_two_skip; [|intros Hin; eapply text_ok_elem in Hin as [_ ?]; [|exact Hi]; set_solver].
  rewrite split_two_skip; [|intros Hin; eapply text_ok_elem in Hin as [_ ?]; [|exact Hr]; set_solver].
  rewrite !string_of_bytes_of. by destruct p.
Qed.

Lemma print_peer_trim p : peer_ok p = true → TrimSpace (print_peer p) = print_peer p.
Proof.
  intros Hp. apply TrimSpace_plain; intros b Hb.
  - apply (print_peer_plain p); [done|]. by apply head_Some_elem_of.
  - apply (print_peer_plain p); [done|]. by apply last_Some_elem_of.
Qed.

Lemma parse_parts_print ps :
  forallb peer_ok ps = true → parse_parts (print_peer <$> ps) = Ok ps.
Proof.
  induction ps as [|p ps IH]; [done|]. rewrite fmap_cons. cbn [forallb parse_parts].
  rewrite andb_true_iff. intros [Hp Hps]. rewrite (print_peer_trim _ Hp), (IH Hps). pose proof (parse_peer_print _ Hp) as Hpp.
  destruct (print_peer p) eqn:He; [|by rewrite Hpp]. exfalso. revert He. unfold print_peer.
  by destruct (bytes_of (ID p)).
Qed.

(** Writing a peer list in the form of the PEERS variable and parsing it gives
    the list back, for peers of visible characters whose parts do not contain the
    separators that end them. *)
Theorem parsePeers_print ps : forallb peer_ok ps = true → parsePeers (print_peers ps) = Ok ps.
Proof.
  intros Hps. unfold parsePeers, print_peers. rewrite bytes_of_string_of.
  destruct ps as [|p ps]; [done|]. rewrite split_on_join; [by apply parse_parts_print|done|].
  apply Forall_forall. intros t (q & -> & Hq)%list_elem_of_fmap Hin.
  rewrite forallb_forall in Hps. apply list_elem_of_In in Hq.
  by apply (print_peer_plain q) in Hin as [_ ?]; [|apply Hps].
Qed.

(** What makes the text of one peer invalid. *)
Lemma parsePeers_errors parts :
  (∃ err, parse_parts parts = Err err) ↔
  ∃ part, part ∈ parts ∧ TrimSpace part ≠ [] ∧ parse_peer (TrimSpace part) = None.
Proof.
  induction parts as [|part parts IH]; simpl; [set_solver by naive_solver|].
  setoid_rewrite elem_of_cons.
  destruct (TrimSpace part) as [|b t] eqn:Ht; [naive_solver|].
  rewrite <-Ht. destruct (parse_peer (TrimSpace part)) as [p|] eqn:Hp; [|naive_solver congruence].
  destruct (parse_parts parts); naive_solver congruence.
Qed.

(** ** Examples *)

(** The first node of docker-compose.yml. *)
Definition compose_env : gmap string string :=
  <["NODE_ID" := "node1"]> (<["RAFT_ADDR" := "0.0.0.0:8101"]> (<["CLIENT_ADDR" := "0.0.0.0:9101"]>
  (<["DATA_DIR" := "/data"]> (<["PEERS" := "node2=node2:8102|node2:9102,node3=node3:8103|node3:9103"]>
  (<["SNAPSHOT_THRESHOLD" := "10000"]> {["FSYNC_ON_APPEND" := "true"]})))))%string.

Definition compose_peers : list Peer :=
  [mkPeer "node2" "node2:8102" "node2:9102"; mkPeer "node3" "node3:8103" "node3:9103"].

Example compose_loads :
  Load compose_env (mkFS ∅ []) =
  (None, mkConfig "node1" "0.0.0.0:8101" "0.0.0.0:9101" compose_peers "/data"
     300000000 600000000 75000000 10000 512 true).
Proof. vm_compute. reflexivity. Qed.

Lemma parsePeers_print_witness :
  print_peers compose_peers = "node2=node2:8102|node2:9102,node3=node3:8103|node3:9103"%string ∧
  parsePeers (print_peers compose_peers) = Ok compose_peers.
Proof. split; [vm_compute; reflexivity|]. apply parsePeers_print. vm_compute. reflexivity. Defined.

(** A heartbeat interval of zero passes the checks. *)
Example zero_heartbeat_loads :
  let r := Load (<["HEARTBEAT_INTERVAL_MS" := "0"]> compose_env)%string (mkFS ∅ []) in
  r.1 = None ∧ cfg_HeartbeatInterval r.2 = 0.
Proof. vm_compute. done. Qed.

(** A number of milliseconds above the range of [time.Duration] wraps. *)
Example huge_timeout_wraps :
  parse_millis "18446744073710" = Ok 448384.
Proof. vm_compute. reflexivity. Qed.
