(* ===== verification/Node.v ===== *)
(** * internal/raft/state.go and node_lifecycle.go: the Raft node.

    [Node] is the Go struct: the persistent log, the state machine and the
    snapshot files with the volatile Raft state.  A channel is a number; [sent]
    records the messages sent on the reply channel of each pending write and
    [closed] the read channels that were closed.  The one-token wake-up channels
    are booleans (a token is pending).  What a function does while it holds the
    mutex is one definition; a function that releases it is the composition of
    its parts. *)

From S2P Require Import Prelude Bytes Storage Codec Log StateMachine SnapshotStore.
Import KV.

(** ** state.go *)

Inductive Role := Follower | Candidate | Leader.

#[export] Instance Role_eq_dec : EqDecision Role.
Proof. solve_decision. Defined.

Definition Role_String (r : Role) : string :=
  match r with
  | Follower => "follower"
  | Candidate => "candidate"
  | Leader => "leader"
  end.

Record RequestVoteRequest := mkRVReq {
  rv_Term : Z;
  rv_CandidateID : string;
  rv_LastLogIndex : Z;
  rv_LastLogTerm : Z
}.

Record RequestVoteResponse := mkRVResp {
  rvr_Term : Z;
  rvr_VoteGranted : bool
}.

Record AppendEntriesRequest := mkAEReq {
  ae_Term : Z;
  ae_LeaderID : string;
  ae_PrevLogIndex : Z;
  ae_PrevLogTerm : Z;
  ae_Entries : list Entry;
  ae_LeaderCommit : Z;
  ae_LeaderClientAddr : string
}.

Record AppendEntriesResponse := mkAEResp {
  aer_Term : Z;
  aer_Success : bool;
  aer_ConflictTerm : Z;
  aer_ConflictIndex : Z
}.

Record InstallSnapshotRequest := mkISReq {
  is_Term : Z;
  is_LeaderID : string;
  is_LastIncludedIndex : Z;
  is_LastIncludedTerm : Z;
  is_Data : bytes
}.

Record InstallSnapshotResponse := mkISResp { isr_Term : Z }.

Record Options := mkOptions {
  ElectionTimeoutMin : Z;
  ElectionTimeoutMax : Z;
  HeartbeatInterval : Z;
  SnapshotThreshold : Z;
  ReplicationBatchMaxEntries : Z;
  FsyncOnAppend : bool
}.

Abbreviation chan := nat.

Record pendingRead := mkRead {
  readIndex : Z;
  done_ : chan
}.

Record Node (E K : Type) := mkNode {
  n_id : string;
  peers : list string;
  opts : Options;
  log : PersistentLog E;
  sm : StateMachine K;
  snapStore : fs;
  role : Role;
  commitIndex : Z;
  lastApplied : Z;
  nextIndex : gmap string Z;
  matchIndex : gmap string Z;
  leaderID : string;
  leaderClientAddr : string;
  selfClientAddr : string;
  electionResetCh : bool;
  commitAdvancedCh : bool;
  pendingReads : list pendingRead;
  writeWaiters : gmap Z chan;
  sent : gmap chan (list (option error));
  closed : gset chan;
  nextChan : nat
}.
Arguments mkNode {E K}.
Arguments n_id {E K}.
Arguments peers {E K}.
Arguments opts {E K}.
Arguments log {E K}.
Arguments sm {E K}.
Arguments snapStore {E K}.
Arguments role {E K}.
Arguments commitIndex {E K}.
Arguments lastApplied {E K}.
Arguments nextIndex {E K}.
Arguments matchIndex {E K}.
Arguments leaderID {E K}.
Arguments leaderClientAddr {E K}.
Arguments selfClientAddr {E K}.
Arguments electionResetCh {E K}.
Arguments commitAdvancedCh {E K}.
Arguments pendingReads {E K}.
Arguments writeWaiters {E K}.
Arguments sent {E K}.
Arguments closed {E K}.
Arguments nextChan {E K}.

Section setters.
Context {E K : Type}.
Implicit Types (n : Node E K).

Definition with_log (log' : PersistentLog E) n : Node E K :=
  mkNode (n_id n) (peers n) (opts n) log' (sm n) (snapStore n) (role n) (commitIndex n)
    (lastApplied n) (nextIndex n) (matchIndex n) (leaderID n) (leaderClientAddr n)
    (selfClientAddr n) (electionResetCh n) (commitAdvancedCh n) (pendingReads n)
    (writeWaiters n) (sent n) (closed n) (nextChan n).

Definition with_sm (sm' : StateMachine K) n : Node E K :=
  mkNode (n_id n) (peers n) (opts n) (log n) sm' (snapStore n) (role n) (commitIndex n)
    (lastApplied n) (nextIndex n) (matchIndex n) (leaderID n) (leaderClientAddr n)
    (selfClientAddr n) (electionResetCh n) (commitAdvancedCh n) (pendingReads n)
    (writeWaiters n) (sent n) (closed n) (nextChan n).

Definition with_snapStore (snapStore' : fs) n : Node E K :=
  mkNode (n_id n) (peers n) (opts n) (log n) (sm n) snapStore' (role n) (commitIndex n)
    (lastApplied n) (nextIndex n) (matchIndex n) (leaderID n) (leaderClientAddr n)
    (selfClientAddr n) (electionResetCh n) (commitAdvancedCh n) (pendingReads n)
    (writeWaiters n) (sent n) (closed n) (nextChan n).

Definition with_role (role' : Role) n : Node E K :=
  mkNode (n_id n) (peers n) (opts n) (log n) (sm n) (snapStore n) role' (commitIndex n)
    (lastApplied n) (nextIndex n) (matchIndex n) (leaderID n) (leaderClientAddr n)
    (selfClientAddr n) (electionResetCh n) (commitAdvancedCh n) (pendingReads n)
    (writeWaiters n) (sent n) (closed n) (nextChan n).

Definition with_commitIndex (commitIndex' : Z) n : Node E K :=
  mkNode (n_id n) (peers n) (opts n) (log n) (sm n) (snapStore n) (role n) commitIndex'
    (lastApplied n) (nextIndex n) (matchIndex n) (leaderID n) (leaderClientAddr n)
    (selfClientAddr n) (electionResetCh n) (commitAdvancedCh n) (pendingReads n)
    (writeWaiters n) (sent n) (closed n) (nextChan n).

Definition with_lastApplied (lastApplied' : Z) n : Node E K :=
  mkNode (n_id n) (peers n) (opts n) (log n) (sm n) (snapStore n) (role n) (commitIndex n)
    lastApplied' (nextIndex n) (matchIndex n) (leaderID n) (leaderClientAddr n)
    (selfClientAddr n) (electionResetCh n) (commitAdvancedCh n) (pendingReads n)
    (writeWaiters n) (sent n) (closed n) (nextChan n).

Definition with_progress (nextIndex' : gmap string Z) (matchIndex' : gmap string Z) n : Node E K :=
  mkNode (n_id n) (peers n) (opts n) (log n) (sm n) (snapStore n) (role n) (commitIndex n)
    (lastApplied n) nextIndex' matchIndex' (leaderID n) (leaderClientAddr n) (selfClientAddr n)
    (electionResetCh n) (commitAdvancedCh n) (pendingReads n) (writeWaiters n) (sent n)
    (closed n) (nextChan n).

Definition with_leader (leaderID' : string) (leaderClientAddr' : string) n : Node E K :=
  mkNode (n_id n) (peers n) (opts n) (log n) (sm n) (snapStore n) (role n) (commitIndex n)
    (lastApplied n) (nextIndex n) (matchIndex n) leaderID' leaderClientAddr' (selfClientAddr n)
    (electionResetCh n) (commitAdvancedCh n) (pendingReads n) (writeWaiters n) (sent n)
    (closed n) (nextChan n).

Definition with_electionResetCh (electionResetCh' : bool) n : Node E K :=
  mkNode (n_id n) (peers n) (opts n) (log n) (sm n) (snapStore n) (role n) (commitIndex n)
    (lastApplied n) (nextIndex n) (matchIndex n) (leaderID n) (leaderClientAddr n)
    (selfClientAddr n) electionResetCh' (commitAdvancedCh n) (pendingReads n) (writeWaiters n)
    (sent n) (closed n) (nextChan n).

Definition with_commitAdvancedCh (commitAdvancedCh' : bool) n : Node E K :=
  mkNode (n_id n) (peers n) (opts n) (log n) (sm n) (snapStore n) (role n) (commitIndex n)
    (lastApplied n) (nextIndex n) (matchIndex n) (leaderID n) (leaderClientAddr n)
    (selfClientAddr n) (electionResetCh n) commitAdvancedCh' (pendingReads n) (writeWaiters n)
    (sent n) (closed n) (nextChan n).

Definition with_reads (pendingReads' : list pendingRead) (closed' : gset chan) n : Node E K :=
  mkNode (n_id n) (peers n) (opts n) (log n) (sm n) (snapStore n) (role n) (commitIndex n)
    (lastApplied n) (nextIndex n) (matchIndex n) (leaderID n) (leaderClientAddr n)
    (selfClientAddr n) (electionResetCh n) (commitAdvancedCh n) pendingReads' (writeWaiters n)
    (sent n) closed' (nextChan n).

Definition with_writers (writeWaiters' : gmap Z chan) (sent' : gmap chan (list (option error))) n : Node E K :=
  mkNode (n_id n) (peers n) (opts n) (log n) (sm n) (snapStore n) (role n) (commitIndex n)
    (lastApplied n) (nextIndex n) (matchIndex n) (leaderID n) (leaderClientAddr n)
    (selfClientAddr n) (electionResetCh n) (commitAdvancedCh n) (pendingReads n) writeWaiters'
    sent' (closed n) (nextChan n).

Definition with_nextChan (nextChan' : nat) n : Node E K :=
  mkNode (n_id n) (peers n) (opts n) (log n) (sm n) (snapStore n) (role n) (commitIndex n)
    (lastApplied n) (nextIndex n) (matchIndex n) (leaderID n) (leaderClientAddr n)
    (selfClientAddr n) (electionResetCh n) (commitAdvancedCh n) (pendingReads n)
    (writeWaiters n) (sent n) (closed n) nextChan'.

End setters.

(** ** node_lifecycle.go, propose.go, readindex.go: the locked helpers *)

Section helpers.
Context {E K : Type} `{Engine E} `{Engine K} `{Codec Entry}.
Implicit Types (n : Node E K).

(** A non-blocking send on a one-token channel. *)
Definition resetElectionTimer n : Node E K := with_electionResetCh true n.
Definition unlockedResetElectionTimer n : Node E K := with_electionResetCh true n.
Definition signalCommitAdvanced n : Node E K := with_commitAdvancedCh true n.

Definition send (ch : chan) (msg : option error) (s : gmap chan (list (option error))) :
    gmap chan (list (option error)) :=
  <[ch := default [] (s !! ch) ++ [msg]]> s.

Definition failStaleWritersLocked n : Node E K :=
  with_writers ∅
    (foldl (λ s iw, send iw.2 (Some ErrProposalDropped) s) (sent n) (map_to_list (writeWaiters n))) n.

Definition notifyWritersLocked (appliedIndex : Z) n : Node E K :=
  match writeWaiters n !! appliedIndex with
  | Some ch => with_writers (delete appliedIndex (writeWaiters n)) (send ch None (sent n)) n
  | None => n
  end.

Definition satisfyPendingReadsLocked n : Node E K :=
  let ready := filter (λ pr, readIndex pr ≤ lastApplied n) (pendingReads n) in
  let remaining := filter (λ pr, ¬ readIndex pr ≤ lastApplied n) (pendingReads n) in
  with_reads remaining (foldl (λ c pr, {[done_ pr]} ∪ c) (closed n) ready) n.

(** [_ = n.log.SetTermAndVote(term, vote)]: the error is dropped. *)
Definition persistTermVote (term : Z) (vote : string) n : Node E K :=
  with_log (SetTermAndVote term vote (log n)).2 n.

(** [becomeFollower]: the part under the mutex, then the term update. *)
Definition becomeFollower_locked (leader addr : string) n : Node E K :=
  let wasLeader := bool_decide (role n = Leader) in
  let n := with_leader leader addr (with_role Follower n) in
  if wasLeader then failStaleWritersLocked n else n.

Definition becomeFollower_persist (term : Z) n : Node E K :=
  if currentTerm (log n) <? term then persistTermVote term "" n else n.

Definition becomeFollower (term : Z) (leader addr : string) n : Node E K :=
  becomeFollower_persist term (becomeFollower_locked leader addr n).

(** [becomeCandidate]: the read of the term, the write of the new term and
    vote, and the role change are three separate critical sections. *)
Definition becomeCandidate_newTerm n : Z := currentTerm (log n) ⊞ 1.

Definition becomeCandidate_persist (newTerm : Z) n : Node E K :=
  persistTermVote newTerm (n_id n) n.

Definition becomeCandidate_role n : Node E K := with_leader "" "" (with_role Candidate n).

Definition becomeCandidate n : Z * Node E K :=
  let newTerm := becomeCandidate_newTerm n in
  (newTerm, becomeCandidate_role (becomeCandidate_persist newTerm n)).

(** [becomeLeader]: the part under the mutex. *)
Definition reset_progress (last : Z) (ps : list string) n : Node E K :=
  with_progress
    (foldl (λ m p, <[p := last ⊞ 1]> m) (nextIndex n) ps)
    (foldl (λ m p, <[p := 0]> m) (matchIndex n) ps) n.

Definition becomeLeader_locked n : bool * Node E K :=
  if bool_decide (role n ≠ Candidate) then (false, n)
  else
    let n := with_leader (n_id n) (selfClientAddr n) (with_role Leader n) in
    (true, reset_progress (lastIndex (log n)) (peers n) n).

Definition appendLocal (e : Entry) n : Entry * Node E K :=
  let term := currentTerm (log n) in
  let e := mkEntry (lastIndex (log n) ⊞ 1) term (Type_ e) (Key e) (Value e) (ClientRequestID e) in
  (e, with_log (AppendEntries [e] (FsyncOnAppend (opts n)) (log n)).2 n).

Definition noop_entry : Entry := mkEntry 0 0 EntryNoop "" [] "".

(** Everything [becomeLeader] does before the first broadcast. *)
Definition becomeLeader_start n : bool * Node E K :=
  let '(won, n) := becomeLeader_locked n in
  if won then (true, (appendLocal noop_entry n).2) else (false, n).

Definition NodeID n : string := n_id n.
Definition NodeRole n : Role := role n.
Definition NodeTerm n : Z := CurrentTerm (log n).
Definition IsLeader n : bool := bool_decide (role n = Leader).
Definition LeaderHint n : string := leaderClientAddr n.
Definition CommitIndex n : Z := commitIndex n.

End helpers.

(** ** NewNode *)

Section new_node.
Context {E K : Type} `{Engine E} `{Engine K} `{Codec Entry} `{Codec (gmap string bytes)}
  `{Codec SnapshotMeta}.

Definition NewNode (nid : string) (ps : list string) (o : Options) (e : E)
    (machine : StateMachine K) (store : fs) (addr : string) : result (Node E K) :=
  let? pl := OpenPersistentLog e in
  let mk machine store applied :=
    mkNode nid ps o pl machine store Follower applied applied ∅ ∅ "" "" addr
      false false [] ∅ ∅ ∅ 0%nat in
  let '(loaded, store) := LoadLatest store in
  match loaded with
  | Err err => Err err
  | Ok None => Ok (mk machine store 0)
  | Ok (Some (snap, meta)) =>
      let '(err, machine) := Restore snap (LastIncludedIndex meta) machine in
      match err with
      | Some err => Err err
      | None => Ok (mk machine store (LastIncludedIndex meta))
      end
  end.

End new_node.
