(* ===== verification/Election.v ===== *)
(** * internal/raft/election.go: leader election.

    [HandleRequestVote] is the RPC handler.  [startElection] is modelled by what
    its goroutine does: [election_begin] up to the vote requests, one
    [election_step] per event that its select loop receives, and [election_end]
    after the loop; other handlers of the node may run between the steps. *)

From S2P Require Import Prelude Bytes Storage Codec Log LogSpec StateMachine SnapshotStore.
From S2P Require Import Node.
Import KV.

Section election.
Context {E K : Type} `{Engine E} `{Engine K} `{Codec Entry}.
Implicit Types (n : Node E K).

Definition candidateLogUpToDateLocked (lastLogIndex lastLogTerm : Z) n : bool :=
  let myLastIndex := lastIndex (log n) in
  let myLastTerm := LastTerm (log n) in
  if negb (lastLogTerm =? myLastTerm) then myLastTerm <? lastLogTerm
  else myLastIndex <=? lastLogIndex.

(** The step-down of the higher-term branch. *)
Definition stepDownForVote (term : Z) n : Node E K :=
  let n := if bool_decide (role n = Leader) then failStaleWritersLocked n else n in
  persistTermVote term "" (with_leader "" "" (with_role Follower n)).

Definition HandleRequestVote (req : RequestVoteRequest) n : RequestVoteResponse * Node E K :=
  let current := currentTerm (log n) in
  if rv_Term req <? current then (mkRVResp current false, n)
  else
    let '(current, n) :=
      if current <? rv_Term req then (rv_Term req, stepDownForVote (rv_Term req) n)
      else (current, n) in
    let vote := votedFor (log n) in
    let logOK := candidateLogUpToDateLocked (rv_LastLogIndex req) (rv_LastLogTerm req) n in
    if (String.eqb vote "" || String.eqb vote (rv_CandidateID req)) && logOK then
      (mkRVResp current true,
       unlockedResetElectionTimer (persistTermVote current (rv_CandidateID req) n))
    else (mkRVResp current false, n).

(** ** startElection *)

(** The local variables of the election goroutine. *)
Record election := mkElection {
  el_term : Z;
  el_needed : Z;
  el_peers : Z;
  el_votes : Z;
  el_responses : Z;
  el_won : bool
}.

(** What the select loop can receive: the result of one vote RPC, the deadline
    of the attempt, or the node's stop channel. *)
Inductive election_event :=
  | EvReply (r : result RequestVoteResponse)
  | EvTimeout
  | EvStop.

Definition needed_votes (npeers : nat) : Z := (Z.of_nat npeers + 1) / 2 + 1.

(** Up to the point where the request is sent to every peer; with no peers the
    node becomes leader at once. *)
Definition election_begin n : option (election * RequestVoteRequest) * Node E K :=
  let '(term, n) := becomeCandidate n in
  let n := resetElectionTimer n in
  let req := mkRVReq term (n_id n) (lastIndex (log n)) (LastTerm (log n)) in
  let needed := needed_votes (length (peers n)) in
  if needed =? 1 then (None, (becomeLeader_start n).2)
  else (Some (mkElection term needed (Z.of_nat (length (peers n))) 1 0 false, req), n).

Definition election_running (el : election) : bool :=
  (el_responses el <? el_peers el) && negb (el_won el).

(** The goroutine of one RPC turns its result into a [voteResult]. *)
Definition vote_result (term : Z) (r : result RequestVoteResponse) : bool * Z :=
  match r with
  | Err _ => (false, 0)
  | Ok resp => if term <? rvr_Term resp then (false, rvr_Term resp) else (rvr_VoteGranted resp, 0)
  end.

Definition election_stop (el : election) : election :=
  mkElection (el_term el) (el_needed el) (el_peers el) (el_votes el) (el_peers el) (el_won el).

Definition election_step (ev : election_event) (el : election) n : election * Node E K :=
  if negb (election_running el) then (el, n)
  else
    match ev with
    | EvTimeout | EvStop => (election_stop el, n)
    | EvReply r =>
        let '(granted, higherTerm) := vote_result (el_term el) r in
        let responses := el_responses el + 1 in
        if el_term el <? higherTerm then
          (election_stop el, becomeFollower higherTerm "" "" n)
        else if granted then
          let votes := el_votes el + 1 in
          let won :=
            (el_needed el <=? votes) && bool_decide (role n = Candidate) &&
            (currentTerm (log n) =? el_term el) in
          (mkElection (el_term el) (el_needed el) (el_peers el) votes responses won, n)
        else
          (mkElection (el_term el) (el_needed el) (el_peers el) (el_votes el) responses (el_won el), n)
    end.

Definition election_end (el : election) n : bool * Node E K :=
  if el_won el && bool_decide (role n = Candidate) && (currentTerm (log n) =? el_term el)
  then becomeLeader_start n else (false, n).

(** The goroutine alone, with the events in arrival order. *)
Fixpoint election_loop (evs : list election_event) (el : election) n : election * Node E K :=
  match evs with
  | [] => (el, n)
  | ev :: evs => let '(el, n) := election_step ev el n in election_loop evs el n
  end.

Definition startElection (evs : list election_event) n : Node E K :=
  match election_begin n with
  | (None, n) => n
  | (Some (el, _), n) => let '(el, n) := election_loop evs el n in (election_end el n).2
  end.

End election.
