(* ===== verification/Replication.v ===== *)
(** * internal/raft/replication.go: log replication and commitment.

    [replicateToPeer] makes one RPC, so it is modelled in two parts:
    [replicate_prepare] decides what to send, and [replicate_reply] handles the
    answer under the mutex.  [HandleAppendEntries] is the follower's side and
    [tryAdvanceCommitIndex] the leader's commitment rule. *)

From S2P Require Import Prelude Bytes Storage Codec Log LogSpec StateMachine SnapshotStore.
From S2P Require Import Node.
Import KV.

(** [sort.Slice] with [<], then the element the code picks. *)
Definition majority_index (matchIndexes : list Z) : Z :=
  default 0 (merge_sort Z.le matchIndexes !! ((length matchIndexes - 1) / 2)%nat).

Section replication.
Context {E K : Type} `{Engine E} `{Engine K} `{Codec Entry}.
Implicit Types (n : Node E K).

(** A missing map entry reads as zero. *)
Definition next_of (peer : string) n : Z := default 0 (nextIndex n !! peer).
Definition match_of (peer : string) n : Z := default 0 (matchIndex n !! peer).

Definition set_next (peer : string) (i : Z) n : Node E K :=
  with_progress (<[peer := i]> (nextIndex n)) (matchIndex n) n.
Definition set_match (peer : string) (i : Z) n : Node E K :=
  with_progress (nextIndex n) (<[peer := i]> (matchIndex n)) n.

Definition leads (term : Z) n : bool :=
  bool_decide (role n = Leader) && (currentTerm (log n) =? term).

(** ** replicateToPeer *)

Inductive send_plan :=
  | SendNothing
  | SendSnapshot
  | SendAppend (req : AppendEntriesRequest).

(** The last index of the batch for a peer at [nextIdx]. *)
Definition batch_end (nextIdx last maxBatch : Z) : Z :=
  if (0 <? maxBatch) && (maxBatch <? last ⊟ nextIdx ⊞ 1) then nextIdx ⊞ maxBatch ⊟ 1 else last.

Definition replicate_prepare (peer : string) (term : Z) n : send_plan :=
  if negb (leads term n) then SendNothing
  else
    let nextIdx := next_of peer n in
    if nextIdx <? firstIndex (log n) then SendSnapshot
    else
      let prevLogIndex := nextIdx ⊟ 1 in
      let prev := TermAt prevLogIndex (log n) in
      if bool_decide (prev = None) && negb (prevLogIndex =? 0) then SendSnapshot
      else
        let last := lastIndex (log n) in
        let entries :=
          if nextIdx <=? last
          then Range nextIdx (batch_end nextIdx last (u64 (ReplicationBatchMaxEntries (opts n)))) (log n)
          else Ok [] in
        match entries with
        | Err _ => SendSnapshot
        | Ok entries =>
            SendAppend (mkAEReq term (n_id n) prevLogIndex (default 0 prev) entries
              (commitIndex n) (selfClientAddr n))
        end.

(** The search for the last entry of the conflicting term: [idx] runs down from
    the last index; [Some idx] when an entry of [ct] is found. *)
Fixpoint find_conflict (fuel : nat) (ct idx : Z) (pl : PersistentLog E) : option Z :=
  match fuel with
  | O => None
  | S fuel =>
      if (firstIndex pl <=? idx) && (0 <? idx) then
        match TermAt idx pl with
        | None => None
        | Some t =>
            if t =? ct then Some idx
            else if t <? ct then None
            else find_conflict fuel ct (idx ⊟ 1) pl
        end
      else None
  end.

(** The loop runs at most once per index from the last one down to 1. *)
Definition conflict_next (resp : AppendEntriesResponse) (pl : PersistentLog E) : Z :=
  let newNext :=
    match find_conflict (Z.to_nat (lastIndex pl)) (aer_ConflictTerm resp) (lastIndex pl) pl with
    | Some idx => idx ⊞ 1
    | None => aer_ConflictIndex resp
    end in
  if newNext <? 1 then 1 else newNext.

(** What happens once the RPC that carried [req] returned. *)
Definition replicate_reply (peer : string) (term : Z) (req : AppendEntriesRequest)
    (r : result AppendEntriesResponse) n : Node E K :=
  match r with
  | Err _ => n
  | Ok resp =>
      if term <? aer_Term resp then becomeFollower (aer_Term resp) "" "" n
      else if negb (leads term n) then n
      else if aer_Success resp then
        match last (ae_Entries req) with
        | Some e => set_next peer (Index e ⊞ 1) (set_match peer (Index e) n)
        | None => n
        end
      else if negb (aer_ConflictTerm resp =? 0) then
        set_next peer (conflict_next resp (log n)) n
      else if 0 <? aer_ConflictIndex resp then set_next peer (aer_ConflictIndex resp) n
      else if 1 <? next_of peer n then set_next peer (next_of peer n ⊟ 1) n
      else n
  end.

(** ** tryAdvanceCommitIndex *)

Definition match_indexes n : list Z :=
  lastIndex (log n) :: map (λ p, match_of p n) (peers n).

Definition tryAdvanceCommitIndex (term : Z) n : Node E K :=
  if negb (leads term n) then n
  else
    let majorityIndex := majority_index (match_indexes n) in
    if majorityIndex <=? commitIndex n then n
    else
      match TermAt majorityIndex (log n) with
      | Some entryTerm =>
          if entryTerm =? term
          then signalCommitAdvanced (with_commitIndex majorityIndex n) else n
      | None => n
      end.

(** ** HandleAppendEntries *)

(** The first critical section: term, role and leader hint. *)
Definition accept_leader (req : AppendEntriesRequest) n : Z * Node E K :=
  let current := currentTerm (log n) in
  let '(current, n) :=
    if current <? ae_Term req then
      let n := if bool_decide (role n = Leader) then failStaleWritersLocked n else n in
      (ae_Term req, persistTermVote (ae_Term req) "" (with_role Follower n))
    else if bool_decide (role n = Candidate) then (current, with_role Follower n)
    else (current, n) in
  (current, resetElectionTimer (with_leader (ae_LeaderID req) (ae_LeaderClientAddr req) n)).

(** The loop that looks for the first entry of the conflicting term. *)
Fixpoint conflict_start (fuel : nat) (ct idx : Z) (pl : PersistentLog E) : Z :=
  match fuel with
  | O => idx
  | S fuel =>
      if firstIndex pl <? idx then
        match TermAt (idx ⊟ 1) pl with
        | Some t => if t =? ct then conflict_start fuel ct (idx ⊟ 1) pl else idx
        | None => idx
        end
      else idx
  end.

(** The consistency check: [None] when the previous entry matches. *)
Definition check_prev (current : Z) (req : AppendEntriesRequest) n : option AppendEntriesResponse :=
  if 0 <? ae_PrevLogIndex req then
    match TermAt (ae_PrevLogIndex req) (log n) with
    | None => Some (mkAEResp current false 0 (lastIndex (log n) ⊞ 1))
    | Some myTerm =>
        if negb (myTerm =? ae_PrevLogTerm req) then
          Some (mkAEResp current false myTerm
            (conflict_start (Z.to_nat (ae_PrevLogIndex req)) myTerm (ae_PrevLogIndex req) (log n)))
        else None
    end
  else None.

(** The commit update at the end. *)
Definition follow_commit (leaderCommit : Z) n : Node E K :=
  if commitIndex n <? leaderCommit then
    let lastNew := lastIndex (log n) in
    let newCommit := if lastNew <? leaderCommit then lastNew else leaderCommit in
    if commitIndex n <? newCommit
    then signalCommitAdvanced (with_commitIndex newCommit n) else n
  else n.

Definition HandleAppendEntries (req : AppendEntriesRequest) n : AppendEntriesResponse * Node E K :=
  if ae_Term req <? currentTerm (log n)
  then (mkAEResp (currentTerm (log n)) false 0 0, n)
  else
    let '(current, n) := accept_leader req n in
    match check_prev current req n with
    | Some resp => (resp, n)
    | None =>
        let '(err, pl) := AppendEntries (ae_Entries req) (FsyncOnAppend (opts n)) (log n) in
        let n := with_log pl n in
        match err with
        | Some _ => (mkAEResp current false 0 0, n)
        | None => (mkAEResp current true 0 0, follow_commit (ae_LeaderCommit req) n)
        end
    end.

End replication.
