(* ===== verification/Apply.v ===== *)
(** * internal/raft/snapshot.go and node_lifecycle.go: snapshots and the apply loop.

    [maybeSnapshot], the two halves of [sendInstallSnapshot] around its RPC,
    [HandleInstallSnapshot], and [applyCommitted].  The apply loop holds its two
    bounds in local variables and releases the mutex between entries, so one
    iteration is a definition of its own. *)

From S2P Require Import Prelude Bytes Storage Codec Log LogSpec StateMachine SnapshotStore.
From S2P Require Import Node Replication.
Import KV.

Section snapshots.
Context {E K : Type} `{Engine E} `{Engine K} `{Codec Entry} `{Codec (gmap string bytes)}
  `{Codec SnapshotMeta}.
Implicit Types (n : Node E K).

(** [LoadLatest] has found a snapshot at or past [index]. *)
Definition covered (loaded : result (option (Snapshot * SnapshotMeta))) (index : Z) : bool :=
  match loaded with
  | Ok (Some (_, meta)) => index <=? LastIncludedIndex meta
  | _ => false
  end.

Definition maybeSnapshot (appliedIndex : Z) n : Node E K :=
  let '(loaded, store) := LoadLatest (snapStore n) in
  let n := with_snapStore store n in
  if covered loaded appliedIndex then n
  else
    match TermAt appliedIndex (log n) with
    | None => n
    | Some term =>
        match Dump (sm n) with
        | Err _ => n
        | Ok dump =>
            let '(err, store) := Save dump (mkMeta appliedIndex term) (snapStore n) in
            let n := with_snapStore store n in
            match err with
            | Some _ => n
            | None => with_log (CompactPrefix appliedIndex term (log n)).2 n
            end
        end
    end.

(** ** sendInstallSnapshot *)

Definition install_prepare (term : Z) n : option InstallSnapshotRequest * Node E K :=
  let '(loaded, store) := LoadLatest (snapStore n) in
  let n := with_snapStore store n in
  match loaded with
  | Ok (Some (snap, meta)) =>
      match Marshal snap with
      | Ok data =>
          (Some (mkISReq term (n_id n) (LastIncludedIndex meta) (LastIncludedTerm meta) data), n)
      | Err _ => (None, n)
      end
  | _ => (None, n)
  end.

Definition install_reply (peer : string) (term : Z) (req : InstallSnapshotRequest)
    (r : result InstallSnapshotResponse) n : Node E K :=
  match r with
  | Err _ => n
  | Ok resp =>
      if term <? isr_Term resp then becomeFollower (isr_Term resp) "" "" n
      else if leads term n then
        set_match peer (is_LastIncludedIndex req) (set_next peer (is_LastIncludedIndex req ⊞ 1) n)
      else n
  end.

(** ** HandleInstallSnapshot *)

(** Everything after the duplicate check. *)
Definition install_snapshot (req : InstallSnapshotRequest) n : Node E K :=
  match UnmarshalSnapshot (is_Data req) with
  | Err _ => n
  | Ok snap =>
      let meta := mkMeta (is_LastIncludedIndex req) (is_LastIncludedTerm req) in
      let '(err, store) := Save snap meta (snapStore n) in
      let n := with_snapStore store n in
      match err with
      | Some _ => n
      | None =>
          let '(err, machine) := Restore snap (is_LastIncludedIndex req) (sm n) in
          let n := with_sm machine n in
          match err with
          | Some _ => n
          | None =>
              let '(err, pl) :=
                RestoreSnapshotBoundary (is_LastIncludedIndex req) (is_LastIncludedTerm req) (log n) in
              let n := with_log pl n in
              match err with
              | Some _ => n
              | None =>
                  with_commitIndex (is_LastIncludedIndex req)
                    (with_lastApplied (is_LastIncludedIndex req) n)
              end
          end
      end
  end.

Definition HandleInstallSnapshot (req : InstallSnapshotRequest) n :
    InstallSnapshotResponse * Node E K :=
  let current := currentTerm (log n) in
  if is_Term req <? current then (mkISResp current, n)
  else
    let '(current, n) :=
      if current <? is_Term req then (is_Term req, persistTermVote (is_Term req) "" n)
      else (current, n) in
    let n := with_leader (is_LeaderID req) (leaderClientAddr n) (with_role Follower n) in
    let n := resetElectionTimer n in
    let '(loaded, store) := LoadLatest (snapStore n) in
    let n := with_snapStore store n in
    if covered loaded (is_LastIncludedIndex req) then (mkISResp current, n)
    else (mkISResp current, install_snapshot req n).

(** ** applyCommitted *)

Definition apply_entry (e : Entry) (s : StateMachine K) : option error * StateMachine K :=
  if Type_ e =? EntryPut then ApplyPut (Index e) (Key e) (Value e) s
  else if Type_ e =? EntryDelete then ApplyDelete (Index e) (Key e) s
  else if Type_ e =? EntryNoop then (None, ApplyNoop (Index e) s)
  else (None, s).

(** One iteration at the local value [applied], already incremented; the
    boolean says whether the loop goes on. *)
Definition apply_one (applied : Z) n : bool * Node E K :=
  match Log.Get applied (log n) with
  | Err _ => (false, n)
  | Ok e =>
      let '(err, machine) := apply_entry e (sm n) in
      let n := with_sm machine n in
      match err with
      | Some _ => (false, n)
      | None =>
          let n := satisfyPendingReadsLocked (notifyWritersLocked applied (with_lastApplied applied n)) in
          let threshold := SnapshotThreshold (opts n) in
          (true, if (0 <? threshold) && (applied mod threshold =? 0)
                 then maybeSnapshot applied n else n)
      end
  end.

Fixpoint apply_loop (fuel : nat) (applied commit : Z) n : Node E K :=
  match fuel with
  | O => n
  | S fuel =>
      if applied <? commit then
        let applied := applied ⊞ 1 in
        let '(go_on, n) := apply_one applied n in
        if go_on then apply_loop fuel applied commit n else n
      else n
  end.

(** One iteration per index between the two bounds. *)
Definition applyCommitted n : Node E K :=
  apply_loop (Z.to_nat (commitIndex n - lastApplied n)) (lastApplied n) (commitIndex n) n.

(** ** The replication round of broadcastAppendEntries *)

(** The [Transport] interface: the state of the network and the three RPCs. *)
Class Transport (T : Type) := {
  tr_RequestVote : string → RequestVoteRequest → T → result RequestVoteResponse * T;
  tr_AppendEntries : string → AppendEntriesRequest → T → result AppendEntriesResponse * T;
  tr_InstallSnapshot : string → InstallSnapshotRequest → T → result InstallSnapshotResponse * T
}.

Context {T : Type} `{Transport T}.

Definition sendInstallSnapshot (peer : string) (term : Z) (st : Node E K * T) : Node E K * T :=
  let '(n, net) := st in
  let '(req, n) := install_prepare term n in
  match req with
  | None => (n, net)
  | Some req =>
      let '(r, net) := tr_InstallSnapshot peer req net in (install_reply peer term req r n, net)
  end.

Definition replicateToPeer (peer : string) (term : Z) (st : Node E K * T) : Node E K * T :=
  let '(n, net) := st in
  match replicate_prepare peer term n with
  | SendNothing => (n, net)
  | SendSnapshot => sendInstallSnapshot peer term (n, net)
  | SendAppend req =>
      let '(r, net) := tr_AppendEntries peer req net in (replicate_reply peer term req r n, net)
  end.

(** The goroutines of a round, in the order of [peers]. *)
Definition broadcastAppendEntries (st : Node E K * T) : Node E K * T :=
  if IsLeader st.1 then
    let term := currentTerm (log st.1) in
    let '(n, net) := foldl (λ st p, replicateToPeer p term st) st (peers st.1) in
    (tryAdvanceCommitIndex term n, net)
  else st.

Definition becomeLeader (st : Node E K * T) : Node E K * T :=
  let '(won, n) := becomeLeader_start st.1 in
  if won then broadcastAppendEntries (n, st.2) else (n, st.2).

End snapshots.
