(* ===== verification/Client.v ===== *)
(** * internal/raft/propose.go, readindex.go and rand.go: client operations.

    [Propose] and [LinearizableRead] block on channels, so each is modelled by
    what it does before it blocks and by what it does on each event that wakes
    it up.  The randomised timeouts of the timer loop are at the end, in the
    64-bit arithmetic of [time.Duration]. *)

From S2P Require Import Prelude Bytes Storage Codec Log LogSpec StateMachine SnapshotStore.
From S2P Require Import Node Election Replication Apply.
Import KV.

(** What a blocked client call receives: its channel, the end of its context,
    the stop of the node, or (for reads) the five-second limit. *)
Inductive wake_event :=
  | OnChannel
  | OnContext (err : error)
  | OnStop
  | OnLimit.

Section propose.
Context {E K : Type} `{Engine E} `{Engine K} `{Codec Entry}.
Implicit Types (n : Node E K).

(** Under the mutex: allocate the index, register the waiter, append.  On
    success the new entry and the channel to wait on. *)
Definition propose_start (ty : Z) (key : string) (value : bytes) (reqID : string) n :
    result (Entry * chan) * Node E K :=
  if bool_decide (role n ≠ Leader) then (Err ErrNotLeader, n)
  else
    let entry := mkEntry (lastIndex (log n) ⊞ 1) (currentTerm (log n)) ty key value reqID in
    let ch := nextChan n in
    let n := with_nextChan (S ch) (with_writers (<[Index entry := ch]> (writeWaiters n)) (sent n) n) in
    let '(err, pl) := AppendEntries [entry] (FsyncOnAppend (opts n)) (log n) in
    let n := with_log pl n in
    match err with
    | Some err => (Err err, with_writers (delete (Index entry) (writeWaiters n)) (sent n) n)
    | None => (Ok (entry, ch), n)
    end.

Definition forget_writer (index : Z) n : Node E K :=
  with_writers (delete index (writeWaiters n)) (sent n) n.

(** The select of [Propose]: [None] when the event cannot happen yet, otherwise
    the error that is returned. *)
Definition propose_wake (ev : wake_event) (index : Z) (ch : chan) n :
    option (option error * Node E K) :=
  match ev with
  | OnChannel => (λ msg, (msg, n)) <$> head (default [] (sent n !! ch))
  | OnContext err => Some (Some err, forget_writer index n)
  | OnStop => Some (Some ErrStopping, forget_writer index n)
  | OnLimit => None
  end.

(** ** LinearizableRead *)

Definition read_start n : result (Z * Z) :=
  if bool_decide (role n ≠ Leader) then Err ErrNotLeader
  else Ok (commitIndex n, currentTerm (log n)).

(** The heartbeat that [confirmLeadership] sends to a peer. *)
Definition confirm_request (peer : string) (term : Z) n : AppendEntriesRequest :=
  let nextIdx := next_of peer n in
  let prevLogIndex := if 0 <? nextIdx then nextIdx ⊟ 1 else 0 in
  mkAEReq term (n_id n) prevLogIndex (default 0 (TermAt prevLogIndex (log n))) []
    (commitIndex n) "".

Definition confirm_reply (term : Z) (r : result AppendEntriesResponse) n : bool * Node E K :=
  match r with
  | Err _ => (false, n)
  | Ok resp =>
      if term <? aer_Term resp then (false, becomeFollower (aer_Term resp) "" "" n)
      else (true, n)
  end.

(** The counting loop over what it receives: a result of a peer, or the end. *)
Inductive confirm_event :=
  | CfResult (ok : bool)
  | CfContext (err : error)
  | CfStop.

Fixpoint confirm_loop (evs : list confirm_event) (npeers needed confirmed responded : Z)
    (retErr : option error) : option (option error) :=
  if (responded <? npeers) && (confirmed <? needed) then
    match evs with
    | [] => None
    | CfResult ok :: evs =>
        confirm_loop evs npeers needed (if ok then confirmed + 1 else confirmed)
          (responded + 1) retErr
    | CfContext err :: evs => confirm_loop evs npeers needed confirmed npeers (Some err)
    | CfStop :: evs => confirm_loop evs npeers needed confirmed npeers (Some ErrStopping)
    end
  else
    Some (match retErr with
          | Some err => Some err
          | None => if needed <=? confirmed then None else Some ErrReadIndexTimeout
          end).

(** [None]: still waiting; [Some None]: leadership confirmed. *)
Definition confirmLeadership (evs : list confirm_event) n : option (option error) :=
  let npeers := Z.of_nat (length (peers n)) in
  confirm_loop evs npeers ((npeers + 1) / 2 + 1) 1 0 None.

(** [waitForApplied]: [None] when the index is already applied. *)
Definition wait_start (index : Z) n : option chan * Node E K :=
  if index <=? lastApplied n then (None, n)
  else
    let ch := nextChan n in
    (Some ch, with_nextChan (S ch) (with_reads (pendingReads n ++ [mkRead index ch]) (closed n) n)).

Fixpoint remove_pending (ch : chan) (prs : list pendingRead) : list pendingRead :=
  match prs with
  | [] => []
  | pr :: prs => if decide (done_ pr = ch) then prs else pr :: remove_pending ch prs
  end.

Definition forget_read (ch : chan) n : Node E K :=
  with_reads (remove_pending ch (pendingReads n)) (closed n) n.

Definition wait_wake (ev : wake_event) (ch : chan) n : option (option error * Node E K) :=
  match ev with
  | OnChannel => if decide (ch ∈ closed n) then Some (None, n) else None
  | OnContext err => Some (Some err, forget_read ch n)
  | OnStop => Some (Some ErrStopping, forget_read ch n)
  | OnLimit => Some (Some ErrReadIndexTimeout, forget_read ch n)
  end.

(** The two blocking calls as a whole: [others] is what the other operations of
    the node do to it while the call does not hold the mutex, and the result is
    [None] while the call is still blocked. *)
Definition LinearizableRead (others1 others2 : Node E K → Node E K) (results : list confirm_event)
    (ev : wake_event) n : option (option error * Node E K) :=
  match read_start n with
  | Err err => Some (Some err, n)
  | Ok (readIndex, _) =>
      let n := others1 n in
      match confirmLeadership results n with
      | None => None
      | Some (Some err) => Some (Some err, n)
      | Some None =>
          match wait_start readIndex n with
          | (None, n) => Some (None, n)
          | (Some ch, n) => wait_wake ev ch (others2 n)
          end
      end
  end.

Context `{Codec (gmap string bytes)} `{Codec SnapshotMeta} {T : Type} `{Transport T}.

Definition Propose (ty : Z) (key : string) (value : bytes) (reqID : string)
    (others : Node E K → Node E K) (ev : wake_event) (st : Node E K * T) :
    option (option error * (Node E K * T)) :=
  let '(r, n) := propose_start ty key value reqID st.1 in
  match r with
  | Err err => Some (Some err, (n, st.2))
  | Ok (entry, ch) =>
      let '(n, net) := broadcastAppendEntries (n, st.2) in
      (λ '(err, n), (err, (n, net))) <$> propose_wake ev (Index entry) ch (others n)
  end.

End propose.

(** ** rand.go *)

(** [fnv.New64a]: the hash that a byte leaves, and that of a text. *)
Definition fnv_step (h : Z) (c : byte) : Z := u64 (Z.lxor h (byte_val c) * 1099511628211).
Definition fnv64a (data : bytes) : Z := foldl fnv_step 14695981039346656037 data.

(** The seed that [newRandSource] gives to its generator at the time [now] in
    nanoseconds. *)
Definition newRandSource (nodeID : string) (now : Z) : Z :=
  Z.lxor (i64 (fnv64a (bytes_of nodeID))) now.

(** [draw] is the number that [Int63n] draws below its argument. *)
Definition electionTimeout (draw : Z → Z) (min max : Z) : Z :=
  if max <=? min then min else i64 (min + draw (i64 (max - min))).

(** The timeout that [runTimerLoop] arms. *)
Definition next_timeout (draw : Z → Z) (o : Options) : Z :=
  i64 (ElectionTimeoutMin o +
       electionTimeout draw 0 (i64 (ElectionTimeoutMax o - ElectionTimeoutMin o))).
