(* ===== verification/ElectionTheorems.v ===== *)
(** * Theorems on voting and elections at one node. *)

From S2P Require Import Prelude Bytes Storage Codec Log LogSpec LogTheorems StateMachine.
From S2P Require Import SnapshotStore Node Election.
Import KV.

(** The order in which Raft compares logs, on the abstract log. *)
Definition a_up_to_date (req : RequestVoteRequest) (al : alog) : bool :=
  (a_last_term al <? rv_LastLogTerm req) ||
  ((a_last_term al =? rv_LastLogTerm req) && (a_last al <=? rv_LastLogIndex req)).

(** The vote that counts when [req] is evaluated: a higher term clears it. *)
Definition a_vote_before (req : RequestVoteRequest) (al : alog) : string :=
  if a_term al <? rv_Term req then "" else a_vote al.

Definition a_grants (req : RequestVoteRequest) (al : alog) : bool :=
  (a_term al <=? rv_Term req) &&
  (String.eqb (a_vote_before req al) "" || String.eqb (a_vote_before req al) (rv_CandidateID req)) &&
  a_up_to_date req al.

(** The log's metadata after the request. *)
Definition a_request_vote (req : RequestVoteRequest) (al : alog) : alog :=
  if rv_Term req <? a_term al then al
  else a_set_term_vote (rv_Term req)
    (if a_grants req al then rv_CandidateID req else a_vote_before req al) al.

Section votes.
Context {E K : Type} `{EngineSpec E} `{Engine K} `{CodecSpec Entry}.
Implicit Types (n : Node E K) (pl : PersistentLog E).

(** ** The term and the vote under [SetTermAndVote] *)

Lemma SetTermAndVote_accepted k t v pl :
  accepts_for (S k) (engine pl) →
  (SetTermAndVote t v pl).1 = None ∧ accepts_for k (engine (SetTermAndVote t v pl).2).
Proof.
  intros Hacc. unfold SetTermAndVote.
  destruct (Hacc [BSet keyTerm (PutUint64 t); BSet keyVotedFor (bytes_of v)] {| Sync := true |})
    as [Hn Ha].
  destruct (eng_Commit _ _ _) as [[err|] e]; [done|]. by split.
Qed.

Lemma RestoreSnapshotBoundary_accepted index term pl :
  accepts_for 1 (engine pl) → (RestoreSnapshotBoundary index term pl).1 = None.
Proof.
  intros Hacc. unfold RestoreSnapshotBoundary. simpl.
  match goal with |- context [eng_Commit ?b ?o ?e] => pose proof (proj1 (Hacc b o)) as Hn end.
  destruct (eng_Commit _ _ _) as [[] e]; done.
Qed.

Lemma SetTermAndVote_accepted_rep k t v pl al :
  log_rep pl al → is_u64 t → accepts_for (S k) (engine pl) →
  log_rep (SetTermAndVote t v pl).2 (a_set_term_vote t v al) ∧
  accepts_for k (engine (SetTermAndVote t v pl).2).
Proof.
  intros Hr Ht [Hn Ha]%(SetTermAndVote_accepted k t v). split; [|done].
  destruct (SetTermAndVote t v pl) as [err pl'] eqn:Hs. simpl in *. subst.
  by apply (SetTermAndVote_rep pl al t v None).
Qed.

Lemma candidateLogUpToDateLocked_rep n al req :
  log_rep (log n) al →
  candidateLogUpToDateLocked (rv_LastLogIndex req) (rv_LastLogTerm req) n = a_up_to_date req al.
Proof.
  intros Hr. unfold candidateLogUpToDateLocked, a_up_to_date.
  rewrite (LastTerm_rep _ _ Hr), (r_last _ _ Hr).
  destruct (Z.eqb_spec (rv_LastLogTerm req) (a_last_term al)) as [->|Hne].
  - by rewrite Z.ltb_irrefl, Z.eqb_refl.
  - destruct (Z.eqb_spec (a_last_term al) (rv_LastLogTerm req)); [lia|]. by rewrite orb_false_r.
Qed.

Lemma a_up_to_date_term t v req al :
  a_up_to_date req (a_set_term_vote t v al) = a_up_to_date req al.
Proof. done. Qed.

Lemma stepDownForVote_fields t n :
  role (stepDownForVote t n) = Follower ∧
  log (stepDownForVote t n) = (SetTermAndVote t "" (log n)).2 ∧
  n_id (stepDownForVote t n) = n_id n ∧ peers (stepDownForVote t n) = peers n ∧
  commitIndex (stepDownForVote t n) = commitIndex n.
Proof. unfold stepDownForVote. by destruct (bool_decide (role n = Leader)). Qed.

(** C16: [HandleRequestVote] in full, on a storage that accepts its writes: a
    vote is granted exactly when the request's term is not older, the node has
    no vote for another candidate in that term, and the candidate's log is at
    least as up to date; the answer carries the new term; the log's term and
    vote become what the abstract log says and nothing else changes in it; a
    higher term makes the node a follower. *)
Theorem HandleRequestVote_spec n al req :
  log_rep (log n) al → is_u64 (rv_Term req) → accepts_for 2 (engine (log n)) →
  let '(resp, n') := HandleRequestVote req n in
  resp = mkRVResp (Z.max (a_term al) (rv_Term req)) (a_grants req al) ∧
  log_rep (log n') (a_request_vote req al) ∧
  role n' = (if a_term al <? rv_Term req then Follower else role n) ∧
  commitIndex n' = commitIndex n.
Proof.
  intros Hr Ht Hacc. unfold HandleRequestVote, a_request_vote, a_grants, a_vote_before.
  rewrite (r_term _ _ Hr).
  destruct (Z.ltb_spec (rv_Term req) (a_term al)) as [Hlt|Hge].
  { destruct (Z.leb_spec (a_term al) (rv_Term req)); [lia|].
    destruct (Z.ltb_spec (a_term al) (rv_Term req)); [lia|].
    split_and!; try done. simpl. f_equal. lia. }
  destruct (Z.leb_spec (a_term al) (rv_Term req)); [|lia].
  destruct (Z.ltb_spec (a_term al) (rv_Term req)) as [Hlt|Heq].
  - destruct (stepDownForVote_fields (rv_Term req) n) as (Hrole & Hlog & _ & _ & Hci).
    destruct (SetTermAndVote_accepted_rep 1 (rv_Term req) "" _ _ Hr Ht Hacc) as [Hr1 Hacc1].
    rewrite <-Hlog in Hr1, Hacc1. rewrite (r_vote _ _ Hr1).
    rewrite (candidateLogUpToDateLocked_rep _ _ _ Hr1), a_up_to_date_term. simpl.
    destruct (a_up_to_date req al); split_and!; try done; try (simpl; f_equal; lia).
    exact (proj1 (SetTermAndVote_accepted_rep 0 _ (rv_CandidateID req) _ _ Hr1 Ht Hacc1)).
  - assert (rv_Term req = a_term al) as Het by lia.
    rewrite (r_vote _ _ Hr), (candidateLogUpToDateLocked_rep _ _ _ Hr). simpl.
    destruct ((String.eqb (a_vote al) "" || String.eqb (a_vote al) (rv_CandidateID req))
      && a_up_to_date req al); split_and!; try done; try (f_equal; lia).
    + rewrite Het. by apply (SetTermAndVote_accepted_rep 1); try rewrite <-Het.
    + rewrite Het. by destruct al.
Qed.

(** A vote that the storage did not record is still granted: the error of
    [SetTermAndVote] is dropped, so the node answers yes to a first candidate
    and then yes to a second one in the same term. *)
Theorem HandleRequestVote_grants_unrecorded n al req1 req2 err :
  log_rep (log n) al → a_vote al = ""%string →
  rv_Term req1 = a_term al → rv_Term req2 = a_term al →
  a_up_to_date req1 al = true → a_up_to_date req2 al = true →
  (SetTermAndVote (a_term al) (rv_CandidateID req1) (log n)).1 = Some err →
  let '(resp1, n1) := HandleRequestVote req1 n in
  let '(resp2, n2) := HandleRequestVote req2 n1 in
  rvr_VoteGranted resp1 = true ∧ rvr_VoteGranted resp2 = true ∧
  rvr_Term resp1 = rvr_Term resp2 ∧ votedFor (log n1) = ""%string.
Proof.
  intros Hr Hv Ht1 Ht2 Hu1 Hu2 Herr.
  assert (∀ req (m : Node E K), log_rep (log m) al → rv_Term req = a_term al → a_up_to_date req al = true →
    HandleRequestVote req m = (mkRVResp (a_term al) true,
      unlockedResetElectionTimer (persistTermVote (a_term al) (rv_CandidateID req) m))) as Hgrant.
  { intros req m Hm Ht Hu. unfold HandleRequestVote.
    rewrite (r_term _ _ Hm), Ht, Z.ltb_irrefl. cbn beta iota. rewrite (r_vote _ _ Hm), Hv.
    by rewrite (candidateLogUpToDateLocked_rep _ _ _ Hm), Hu. }
  rewrite (Hgrant req1) by done.
  assert (log_rep (log (unlockedResetElectionTimer
    (persistTermVote (a_term al) (rv_CandidateID req1) n))) al) as Hr1.
  { simpl. destruct (SetTermAndVote _ _ _) as [err' pl'] eqn:Hs. simpl in *. subst.
    refine (SetTermAndVote_rep _ _ _ _ (Some err) _ Hr _ Hs). apply (r_wf _ _ Hr). }
  rewrite (Hgrant req2) by done. split_and!; try done. by rewrite (r_vote _ _ Hr1).
Qed.

(** [becomeCandidate] reads the term, writes the new term and vote, and takes
    the mutex only afterwards.  When a vote for another candidate is granted in
    the new term between the read and the write, the write replaces that vote
    by a vote for the node itself: two votes in one term. *)
Theorem becomeCandidate_overwrites_granted_vote n al req :
  log_rep (log n) al → a_term al < u64_mod - 1 → accepts_for 3 (engine (log n)) →
  rv_Term req = becomeCandidate_newTerm n → a_up_to_date req al = true →
  let newTerm := becomeCandidate_newTerm n in
  let '(resp, n1) := HandleRequestVote req n in
  let n2 := becomeCandidate_persist newTerm n1 in
  resp = mkRVResp newTerm true ∧ votedFor (log n1) = rv_CandidateID req ∧
  currentTerm (log n2) = newTerm ∧ votedFor (log n2) = n_id n.
Proof.
  intros Hr Hlt Hacc Hreq Hu. cbn zeta.
  pose proof (wf_term _ (r_wf _ _ Hr)) as Htu.
  assert (becomeCandidate_newTerm n = a_term al + 1) as Hnew.
  { unfold becomeCandidate_newTerm. rewrite (r_term _ _ Hr). apply u64_small. u64_lia. }
  rewrite Hnew in *. assert (is_u64 (a_term al + 1)) as Ht by u64_lia.
  unfold HandleRequestVote. rewrite (r_term _ _ Hr), Hreq.
  destruct (Z.ltb_spec (a_term al + 1) (a_term al)); [lia|].
  destruct (Z.ltb_spec (a_term al) (a_term al + 1)); [|lia].
  destruct (stepDownForVote_fields (a_term al + 1) n) as (_ & Hlog & Hid & _ & _).
  destruct (SetTermAndVote_accepted_rep 2 (a_term al + 1) "" _ _ Hr Ht Hacc) as [Hr1 Hacc1].
  rewrite <-Hlog in Hr1, Hacc1. rewrite (r_vote _ _ Hr1).
  rewrite (candidateLogUpToDateLocked_rep _ _ _ Hr1), a_up_to_date_term, Hu.
  clear Hlog. generalize dependent (stepDownForVote (a_term al + 1) n).
  intros m Hid Hr1 Hacc1. simpl.
  destruct (SetTermAndVote_accepted_rep 1 (a_term al + 1) (rv_CandidateID req) _ _ Hr1 Ht Hacc1)
    as [Hr2 Hacc2].
  destruct (SetTermAndVote_accepted_rep 0 (a_term al + 1) (n_id n) _ _ Hr2 Ht Hacc2) as [Hr3 _].
  rewrite Hid. split_and!; [done | by rewrite (r_vote _ _ Hr2) | by rewrite (r_term _ _ Hr3)
    | by rewrite (r_vote _ _ Hr3)].
Qed.

(** ** Counting votes *)

(** The replies that count as a vote in [term]. *)
Definition is_grant (term : Z) (ev : election_event) : bool :=
  match ev with EvReply r => (vote_result term r).1 | _ => false end.

Definition grants (term : Z) (evs : list election_event) : Z :=
  Z.of_nat (length (filter (λ ev, is_grant term ev = true) evs)).

(** A result that does not end the attempt: an RPC error or an answer from a
    node whose term is not higher. *)
Definition plain_reply (term : Z) (ev : election_event) : Prop :=
  match ev with EvReply r => (vote_result term r).2 = 0 | _ => False end.

Lemma grants_cons term ev evs :
  grants term (ev :: evs) = (if is_grant term ev then 1 else 0) + grants term evs.
Proof.
  unfold grants. rewrite filter_cons. destruct (is_grant term ev) eqn:Hg.
  - rewrite decide_True by done. simpl. lia.
  - rewrite decide_False by congruence. lia.
Qed.

Lemma grants_nonneg term evs : 0 ≤ grants term evs.
Proof. unfold grants. lia. Qed.

Lemma election_loop_stopped evs el n :
  election_running el = false → election_loop evs el n = (el, n).
Proof.
  intros Hr. induction evs as [|ev evs IH]; [done|]. simpl. unfold election_step. by rewrite Hr.
Qed.

Lemma election_loop_count evs el n :
  Forall (plain_reply (el_term el)) evs →
  0 ≤ el_term el → role n = Candidate → currentTerm (log n) = el_term el →
  el_won el = false → el_votes el < el_needed el →
  el_responses el + Z.of_nat (length evs) ≤ el_peers el →
  ∃ el', election_loop evs el n = (el', n) ∧ el_term el' = el_term el ∧
    el_won el' = (el_needed el <=? el_votes el + grants (el_term el) evs).
Proof.
  revert el. induction evs as [|ev evs IH]; intros el Hall Ht Hrole Hct Hwon Hlt Hlen.
  { exists el. split_and!; try done. rewrite Hwon. unfold grants. simpl. by case_Z; [lia|]. }
  apply Forall_cons in Hall as [Hev Hall]. destruct ev as [r| |]; [|done..].
  rewrite grants_cons. simpl. unfold election_step, election_running.
  simpl in Hev, Hlen. destruct (vote_result (el_term el) r) as [granted higher]. simpl in *. subst higher.
  rewrite Hwon. destruct (Z.ltb_spec (el_responses el) (el_peers el)); [|lia]. simpl.
  destruct (Z.ltb_spec (el_term el) 0); [lia|].
  rewrite Hct, Z.eqb_refl, bool_decide_eq_true_2 by done. rewrite !andb_true_r.
  destruct granted; [destruct (Z.leb_spec (el_needed el) (el_votes el + 1))|].
  - rewrite election_loop_stopped by (unfold election_running; simpl; by rewrite andb_false_r).
    eexists. split_and!; try done. pose proof (grants_nonneg (el_term el) evs). simpl. by case_Z; [|lia].
  - edestruct (IH (mkElection (el_term el) (el_needed el) (el_peers el) (el_votes el + 1)
      (el_responses el + 1) false)) as (el' & Hl & Htm & Hw); simpl; try done; try lia.
    exists el'. split_and!; try done. rewrite Hw. simpl. f_equal. lia.
  - edestruct (IH (mkElection (el_term el) (el_needed el) (el_peers el) (el_votes el)
      (el_responses el + 1) false)) as (el' & Hl & Htm & Hw); simpl; try done; try lia.
    exists el'. split_and!; try done.
Qed.

Lemma AppendEntries_tv es sync pl :
  currentTerm (AppendEntries es sync pl).2 = currentTerm pl ∧
  votedFor (AppendEntries es sync pl).2 = votedFor pl.
Proof.
  unfold AppendEntries. destruct es as [|e0 es]; [done|]. destruct (set_keys (e0 :: es)); [|done].
  destruct (eng_Commit _ _ _) as [[err|] e]; [done|]. rewrite evict_fields. done.
Qed.

Lemma becomeLeader_start_candidate n :
  role n = Candidate →
  (becomeLeader_start n).1 = true ∧ role (becomeLeader_start n).2 = Leader ∧
  currentTerm (log (becomeLeader_start n).2) = currentTerm (log n) ∧
  votedFor (log (becomeLeader_start n).2) = votedFor (log n).
Proof.
  intros Hc. unfold becomeLeader_start, becomeLeader_locked.
  rewrite bool_decide_eq_false_2 by (rewrite Hc; auto).
  split_and!; [done..|apply AppendEntries_tv|apply AppendEntries_tv].
Qed.


End votes.

(** ** Witnesses *)

Import Gob.

Definition demo_options : Options := mkOptions 150 300 50 0 64 true.

(** A three-node cluster's node over the given log engine. *)
Definition demo_node (id : string) (ps : list string) (e : MemEngine) :
    Node MemEngine MemEngine :=
  mkNode id ps demo_options (mkLog e 1 0 0 0 0 "" ∅ 4096) (NewStateMachine mem_new) (mkFS ∅ [])
    Follower 0 0 ∅ ∅ "" "" "" false false [] ∅ ∅ ∅ 0%nat.

Definition n1 := demo_node "n1" ["n2"; "n3"] mem_new.

(** An engine whose next write fails. *)
Definition mem_failing : MemEngine := {| mem_data := ∅; mem_plan := [false]; mem_broken := false |}.

Lemma demo_node_rep id ps e :
  mem_data e = ∅ → mem_broken e = false → log_rep (log (demo_node id ps e)) fresh_alog.
Proof.
  intros Hd Hb. split; try done; simpl; try apply fresh_alog_wf; try apply cache_ok_empty.
  rewrite Hd. apply fresh_disk_rep.
Qed.

Lemma HandleRequestVote_spec_witness :
  let '(resp, n') := HandleRequestVote (mkRVReq 1 "n2" 0 0) n1 in
  resp = mkRVResp 1 true ∧ log_rep (log n') (mkALog 0 0 [] 1 "n2").
Proof.
  pose proof (HandleRequestVote_spec n1 fresh_alog (mkRVReq 1 "n2" 0 0)) as Hs.
  destruct (HandleRequestVote (mkRVReq 1 "n2" 0 0) n1) as [resp n'].
  destruct Hs as (Hresp & Hlog & _);
    [by apply demo_node_rep | by vm_compute | by apply mem_accepts_for |].
  split; [exact Hresp | exact Hlog].
Defined.

Lemma HandleRequestVote_grants_unrecorded_witness :
  let n := demo_node "n1" ["n2"; "n3"] mem_failing in
  let '(resp1, m1) := HandleRequestVote (mkRVReq 0 "n2" 0 0) n in
  let '(resp2, m2) := HandleRequestVote (mkRVReq 0 "n3" 0 0) m1 in
  rvr_VoteGranted resp1 = true ∧ rvr_VoteGranted resp2 = true.
Proof.
  cbn zeta.
  pose proof (HandleRequestVote_grants_unrecorded (demo_node "n1" ["n2"; "n3"] mem_failing)
    fresh_alog (mkRVReq 0 "n2" 0 0) (mkRVReq 0 "n3" 0 0) (ErrEngine 1)) as Hs.
  destruct (HandleRequestVote (mkRVReq 0 "n2" 0 0) _) as [resp1 m1].
  destruct (HandleRequestVote (mkRVReq 0 "n3" 0 0) m1) as [resp2 m2].
  destruct Hs as (Hg1 & Hg2 & _); [by apply demo_node_rep | reflexivity..|].
  split; [exact Hg1 | exact Hg2].
Defined.

Lemma becomeCandidate_overwrites_granted_vote_witness :
  let '(resp, m1) := HandleRequestVote (mkRVReq 1 "n2" 0 0) n1 in
  let m2 := becomeCandidate_persist 1 m1 in
  resp = mkRVResp 1 true ∧ votedFor (log m1) = "n2"%string ∧ votedFor (log m2) = "n1"%string.
Proof.
  pose proof (becomeCandidate_overwrites_granted_vote n1 fresh_alog (mkRVReq 1 "n2" 0 0)) as Hs.
  destruct (HandleRequestVote (mkRVReq 1 "n2" 0 0) n1) as [resp m1].
  destruct Hs as (Hresp & Hv1 & _ & Hv2);
    [by apply demo_node_rep | by vm_compute | by apply mem_accepts_for | reflexivity | reflexivity |].
  split; [exact Hresp|]. split; [exact Hv1 | exact Hv2].
Defined.

