(* ===== verification/VoteSafety.v ===== *)
(** * How every operation of a node treats its term, vote and role.

    [vote_safe n n'] is the promise that election safety rests on: the term
    never decreases, a vote is never replaced within its term, both are kept
    durable, and a node only stays candidate or leader within its term.
    [node_event] lists the operations that change a node outside of elections,
    with arbitrary messages as arguments; each one is shown to be safe. *)

From S2P Require Import Prelude Bytes Storage Codec Log LogSpec LogTheorems StateMachine.
From S2P Require Import SnapshotStore Node Election Replication Apply Client ElectionTheorems.
Import KV.

Section safe.
Context {E K : Type} `{EngineSpec E} `{Engine K} `{CodecSpec Entry}
  `{Codec (gmap string bytes)} `{Codec SnapshotMeta}.
Implicit Types (n : Node E K) (pl : PersistentLog E).

Record tv_durable pl : Prop := {
  tv_term : meta_u64 (contents (engine pl)) keyTerm (currentTerm pl);
  tv_vote : meta_string (contents (engine pl)) keyVotedFor (votedFor pl);
  tv_u64 : is_u64 (currentTerm pl);
  tv_readable : readable (engine pl)
}.

Definition tv_step pl pl' : Prop :=
  currentTerm pl < currentTerm pl' ∨
  currentTerm pl = currentTerm pl' ∧ (votedFor pl' = votedFor pl ∨ votedFor pl = ""%string).

Record vote_safe n n' : Prop := {
  vs_id : n_id n' = n_id n;
  vs_peers : peers n' = peers n;
  vs_step : tv_step (log n) (log n');
  vs_durable : tv_durable (log n) → tv_durable (log n');
  vs_role : role n' ≠ Follower →
    role n' = role n ∧ currentTerm (log n') = currentTerm (log n)
}.

Lemma tv_step_refl pl : tv_step pl pl.
Proof. right. auto. Qed.

Lemma tv_step_trans pl1 pl2 pl3 : tv_step pl1 pl2 → tv_step pl2 pl3 → tv_step pl1 pl3.
Proof. unfold tv_step. intros [|[? [?|?]]] [|[? [?|?]]]; intuition (lia || congruence). Qed.

(** A change that keeps the log, the identity and the role. *)
Lemma vote_safe_frame n n' :
  log n' = log n → n_id n' = n_id n → peers n' = peers n → role n' = role n → vote_safe n n'.
Proof. intros Hl ? ? ?. split; rewrite ?Hl; auto using tv_step_refl. Qed.

Lemma vote_safe_refl n : vote_safe n n.
Proof. by apply vote_safe_frame. Qed.

Lemma vote_safe_trans n1 n2 n3 : vote_safe n1 n2 → vote_safe n2 n3 → vote_safe n1 n3.
Proof.
  intros [Hi1 Hp1 Hs1 Hd1 Hr1] [Hi2 Hp2 Hs2 Hd2 Hr2].
  split; [congruence | congruence | by eapply tv_step_trans | auto |].
  intros Hne. destruct (Hr2 Hne) as [Hr Ht]. rewrite Hr in Hne.
  destruct (Hr1 Hne). split; congruence.
Qed.

(** ** Log operations *)

(** The log operations other than [SetTermAndVote] keep both values. *)
Definition keeps_tv pl pl' : Prop :=
  currentTerm pl' = currentTerm pl ∧ votedFor pl' = votedFor pl ∧ (tv_durable pl → tv_durable pl').

Lemma keeps_tv_commit b o pl pl' err e :
  eng_Commit b o (engine pl) = (err, e) → engine pl' = e →
  currentTerm pl' = currentTerm pl → votedFor pl' = votedFor pl →
  (∀ m, apply_batch b m !! keyTerm = m !! keyTerm) →
  (∀ m, apply_batch b m !! keyVotedFor = m !! keyVotedFor) → keeps_tv pl pl'.
Proof.
  intros Hc He Ht Hv Hbt Hbv. split_and!; [done..|]. intros [Hdt Hdv Hdu Hdr].
  apply Commit_spec in Hc as [Hcont Hread].
  assert (∀ k, (∀ m, apply_batch b m !! k = m !! k) →
    contents (engine pl') !! k = contents (engine pl) !! k) as Hk.
  { intros k Hb. rewrite He, Hcont. by destruct err; simpl; rewrite ?Hb. }
  split; unfold meta_u64, meta_string in *; rewrite ?Ht, ?Hv, ?Hk, ?He; auto.
Qed.

Lemma AppendEntries_keeps es sync pl : keeps_tv pl (AppendEntries es sync pl).2.
Proof.
  unfold AppendEntries. destruct es as [|e0 es]; [by split_and!|].
  destruct (set_keys (e0 :: es)) as [sets|] eqn:Hs.
  2:{ split_and!; [done..|]. by intros []; split. }
  destruct (eng_Commit _ _ _) as [err e] eqn:Hc.
  assert (∀ k, not_log_key k → ∀ m, apply_batch (delete_keys
    (if Index e0 <=? lastIndex pl then upto (Index e0) (lastIndex pl) else []) ++ sets) m !! k
    = m !! k) as Hk.
  { intros k Hk m. rewrite apply_batch_app, (set_keys_meta _ _ _ _ Hs) by done.
    by apply delete_keys_meta. }
  eapply keeps_tv_commit; [exact Hc|..]; try (intros; apply Hk; auto with gokv);
    (destruct err; [done | rewrite evict_fields; done]).
Qed.

Lemma boundary_batch_keeps ids index term m k :
  not_log_key k → k ≠ keyLastIncludedIndex → k ≠ keyLastIncludedTerm →
  apply_batch (delete_keys ids ++ boundary_ops index term) m !! k = m !! k.
Proof.
  intros Hk Hi Ht. rewrite apply_batch_app. unfold apply_batch at 1. simpl.
  rewrite !lookup_insert_ne by done. by apply delete_keys_meta.
Qed.

Lemma CompactPrefix_keeps index term pl : keeps_tv pl (CompactPrefix index term pl).2.
Proof.
  unfold CompactPrefix. destruct (Z.leb_spec index (lastIncludedIndex pl)); [by split_and!|].
  destruct (eng_Commit _ _ _) as [err e] eqn:Hc.
  eapply keeps_tv_commit; [exact Hc|..];
    try (intros; apply boundary_batch_keeps; auto with gokv; done); by destruct err.
Qed.

Lemma RestoreSnapshotBoundary_keeps index term pl :
  keeps_tv pl (RestoreSnapshotBoundary index term pl).2.
Proof.
  unfold RestoreSnapshotBoundary. destruct (eng_Commit _ _ _) as [err e] eqn:Hc.
  eapply keeps_tv_commit; [exact Hc|..];
    try (intros; apply boundary_batch_keeps; auto with gokv; done); by destruct err.
Qed.

Lemma SetTermAndVote_durable t v pl :
  is_u64 t → tv_durable pl → tv_durable (SetTermAndVote t v pl).2.
Proof.
  intros Ht [Hdt Hdv Hdu Hdr]. unfold SetTermAndVote.
  destruct (eng_Commit _ _ _) as [err e] eqn:Hc. apply Commit_spec in Hc as [Hcont Hread].
  destruct err; simpl in *; split; simpl; rewrite ?Hcont; auto; left.
  - unfold apply_batch. simpl. by rewrite lookup_insert_ne, lookup_insert_eq by done.
  - unfold apply_batch. simpl. apply lookup_insert_eq.
Qed.

Lemma SetTermAndVote_tv t v pl :
  (currentTerm (SetTermAndVote t v pl).2 = t ∧ votedFor (SetTermAndVote t v pl).2 = v) ∨
  (currentTerm (SetTermAndVote t v pl).2 = currentTerm pl ∧
   votedFor (SetTermAndVote t v pl).2 = votedFor pl).
Proof. unfold SetTermAndVote. destruct (eng_Commit _ _ _) as [[]]; auto. Qed.

(** ** Building blocks of the handlers *)

Lemma vote_safe_log pl' n : keeps_tv (log n) pl' → vote_safe n (with_log pl' n).
Proof.
  intros (Ht & Hv & Hd). split; simpl; auto. right. auto.
Qed.

(** The move to a higher term, which clears the vote and the role. *)
Lemma vote_safe_higher n n' t :
  n_id n' = n_id n → peers n' = peers n → role n' = Follower →
  log n' = (SetTermAndVote t "" (log n)).2 → is_u64 t → currentTerm (log n) < t →
  vote_safe n n'.
Proof.
  intros Hi Hp Hr Hl Ht Hlt. split; rewrite ?Hl; auto using SetTermAndVote_durable; [|congruence].
  destruct (SetTermAndVote_tv t "" (log n)) as [[Hc _]|[Hc Hv]]; unfold tv_step; rewrite ?Hc, ?Hv; auto.
Qed.

Lemma vote_safe_demote n n' :
  n_id n' = n_id n → peers n' = peers n → role n' = Follower → log n' = log n → vote_safe n n'.
Proof. intros ? ? ? Hl. split; rewrite ?Hl; auto using tv_step_refl. congruence. Qed.

Lemma becomeFollower_safe t l a n : is_u64 t → vote_safe n (becomeFollower t l a n).
Proof.
  intros Ht. unfold becomeFollower, becomeFollower_persist, becomeFollower_locked.
  destruct (bool_decide (role n = Leader)); simpl; case_Z;
    first [by eapply (vote_safe_higher _ _ t) | by apply vote_safe_demote].
Qed.

Lemma HandleRequestVote_safe req n : is_u64 (rv_Term req) → vote_safe n (HandleRequestVote req n).2.
Proof.
  intros Ht. unfold HandleRequestVote. case_Z; [apply vote_safe_refl|].
  set (n0 := if currentTerm (log n) <? rv_Term req
    then (rv_Term req, stepDownForVote (rv_Term req) n) else (currentTerm (log n), n)).
  assert (vote_safe n n0.2 ∧ n0.1 = rv_Term req) as [Hsafe Hcur].
  { unfold n0. case_Z; cbn [fst snd]; [split; [|done]|split; [apply vote_safe_refl|lia]].
    destruct (stepDownForVote_fields (rv_Term req) n) as (? & ? & ? & ? & _).
    by eapply vote_safe_higher. }
  assert (currentTerm (log n0.2) ≤ rv_Term req) as Hle.
  { unfold n0. case_Z; cbn [fst snd]; [|lia].
    destruct (stepDownForVote_fields (rv_Term req) n) as (_ & -> & _).
    destruct (SetTermAndVote_tv (rv_Term req) "" (log n)) as [[-> _]|[-> _]]; lia. }
  assert (role n0.2 ≠ Follower → currentTerm (log n0.2) = rv_Term req) as Hrole.
  { unfold n0. case_Z; cbn [fst snd]; [|lia].
    by destruct (stepDownForVote_fields (rv_Term req) n) as (-> & _). }
  clearbody n0. destruct n0 as [cur n0]. simpl in *. subst cur.
  destruct ((String.eqb (votedFor (log n0)) "" || _) && _) eqn:Hg; simpl; [|done].
  eapply vote_safe_trans; [exact Hsafe|].
  apply andb_true_iff in Hg as [Hg _]. apply orb_true_iff in Hg.
  rewrite !String.eqb_eq in Hg.
  destruct (SetTermAndVote_tv (rv_Term req) (rv_CandidateID req) (log n0)) as [[Hc Hv]|[Hc Hv]];
    split; simpl; auto using SetTermAndVote_durable; unfold tv_step; rewrite ?Hc, ?Hv;
    destruct (Z.eq_dec (currentTerm (log n0)) (rv_Term req)); intuition (lia || congruence).
Qed.

Lemma accept_leader_safe req n :
  is_u64 (ae_Term req) → currentTerm (log n) ≤ ae_Term req → vote_safe n (accept_leader req n).2.
Proof.
  intros Ht Hle. unfold accept_leader.
  destruct (Z.ltb_spec (currentTerm (log n)) (ae_Term req)).
  - destruct (bool_decide (role n = Leader)); by eapply (vote_safe_higher _ _ (ae_Term req)).
  - case_bool_decide; [by apply vote_safe_demote | by apply vote_safe_frame].
Qed.

Lemma follow_commit_safe c n : vote_safe n (follow_commit c n).
Proof. unfold follow_commit. repeat case_Z; by apply vote_safe_frame. Qed.

Lemma HandleAppendEntries_safe req n :
  is_u64 (ae_Term req) → vote_safe n (HandleAppendEntries req n).2.
Proof.
  intros Ht. unfold HandleAppendEntries. case_Z; [apply vote_safe_refl|].
  pose proof (accept_leader_safe req n Ht ltac:(lia)) as Hs.
  destruct (accept_leader req n) as [cur m]. simpl in Hs.
  destruct (check_prev cur req m); [done|].
  pose proof (AppendEntries_keeps (ae_Entries req) (FsyncOnAppend (opts m)) (log m)) as Hk.
  destruct (AppendEntries _ _ _) as [err pl]. simpl in Hk. apply vote_safe_log in Hk.
  pose proof (vote_safe_trans _ _ _ Hs Hk) as Hsk. destruct err; [done|].
  eapply vote_safe_trans; [exact Hsk | apply follow_commit_safe].
Qed.

Lemma install_snapshot_safe req n : vote_safe n (install_snapshot req n).
Proof.
  unfold install_snapshot. destruct (UnmarshalSnapshot _); [|apply vote_safe_refl].
  destruct (Save _ _ _) as [[]]; [by apply vote_safe_frame|].
  destruct (Restore _ _ _) as [[]]; [by apply vote_safe_frame|].
  match goal with |- context [RestoreSnapshotBoundary ?i ?t (log ?m)] =>
    pose proof (vote_safe_log _ m (RestoreSnapshotBoundary_keeps i t (log m))) as Hk;
    assert (vote_safe n m) as Hm by (by apply vote_safe_frame) end.
  destruct (RestoreSnapshotBoundary _ _ _) as [err pl]. cbn [snd] in Hk.
  destruct err; [by eapply vote_safe_trans|].
  eapply vote_safe_trans; [exact Hm|]. eapply vote_safe_trans; [exact Hk|]. by apply vote_safe_frame.
Qed.

Lemma HandleInstallSnapshot_safe req n :
  is_u64 (is_Term req) → vote_safe n (HandleInstallSnapshot req n).2.
Proof.
  intros Ht. unfold HandleInstallSnapshot. case_Z; [apply vote_safe_refl|].
  match goal with |- context [let '(cur, n) := ?r in _] => set (r0 := r) end.
  assert (∀ f, role (f r0.2) = Follower → log (f r0.2) = log r0.2 → n_id (f r0.2) = n_id r0.2 →
    peers (f r0.2) = peers r0.2 → vote_safe n (f r0.2)) as Hs.
  { intros f Hr Hl Hi Hp. unfold r0 in *. case_Z; simpl in *.
    - by eapply (vote_safe_higher _ _ (is_Term req)).
    - by apply vote_safe_demote. }
  destruct r0 as [cur m]. simpl in *. destruct (LoadLatest _) as [loaded store].
  destruct (covered loaded _); simpl.
  - by apply (Hs (λ m, with_snapStore store (resetElectionTimer
      (with_leader (is_LeaderID req) (leaderClientAddr m) (with_role Follower m))))).
  - eapply vote_safe_trans; [|apply install_snapshot_safe].
    by apply (Hs (λ m, with_snapStore store (resetElectionTimer
      (with_leader (is_LeaderID req) (leaderClientAddr m) (with_role Follower m))))).
Qed.

Lemma maybeSnapshot_safe i n : vote_safe n (maybeSnapshot i n).
Proof.
  unfold maybeSnapshot. destruct (LoadLatest _) as [loaded store].
  destruct (covered _ _); [by apply vote_safe_frame|].
  destruct (TermAt _ _); [|by apply vote_safe_frame]. destruct (Dump _); [|by apply vote_safe_frame].
  destruct (Save _ _ _) as [[]]; [by apply vote_safe_frame|].
  eapply vote_safe_trans; [|apply vote_safe_log, CompactPrefix_keeps]. by apply vote_safe_frame.
Qed.

Lemma notify_frame i n :
  log (notifyWritersLocked i n) = log n ∧ n_id (notifyWritersLocked i n) = n_id n ∧
  peers (notifyWritersLocked i n) = peers n ∧ role (notifyWritersLocked i n) = role n.
Proof. unfold notifyWritersLocked. by destruct (writeWaiters n !! i). Qed.

Lemma apply_one_safe i n : vote_safe n (apply_one i n).2.
Proof.
  unfold apply_one. destruct (Log.Get i (log n)) as [e|]; [|apply vote_safe_refl].
  destruct (apply_entry e (sm n)) as [[] m]; [by apply vote_safe_frame|].
  set (n1 := satisfyPendingReadsLocked _).
  assert (vote_safe n n1) as Hs.
  { destruct (notify_frame i (with_lastApplied i (with_sm m n))) as (? & ? & ? & ?).
    by apply vote_safe_frame. }
  clearbody n1. cbn zeta. destruct (_ && _); [|done].
  eapply vote_safe_trans; [exact Hs | apply maybeSnapshot_safe].
Qed.

Lemma apply_loop_safe fuel a c n : vote_safe n (apply_loop fuel a c n).
Proof.
  revert a n. induction fuel as [|fuel IH]; intros a n; [apply vote_safe_refl|]. simpl.
  case_Z; [|apply vote_safe_refl]. pose proof (apply_one_safe (a ⊞ 1) n) as Hs.
  destruct (apply_one (a ⊞ 1) n) as [[] n1]; simpl in Hs; [|done].
  eapply vote_safe_trans; [exact Hs | apply IH].
Qed.

Lemma replicate_reply_safe peer term req r n :
  (∀ resp, r = Ok resp → is_u64 (aer_Term resp)) → vote_safe n (replicate_reply peer term req r n).
Proof.
  intros Hr. unfold replicate_reply. destruct r as [resp|]; [|apply vote_safe_refl].
  destruct (term <? aer_Term resp); [by apply becomeFollower_safe, Hr|].
  repeat case_match; by apply vote_safe_frame.
Qed.

Lemma propose_start_safe ty key value id n : vote_safe n (propose_start ty key value id n).2.
Proof.
  unfold propose_start. case_bool_decide; [apply vote_safe_refl|].
  match goal with |- context [AppendEntries ?es ?s (log ?m)] =>
    pose proof (vote_safe_log _ m (AppendEntries_keeps es s (log m))) as Hk;
    assert (vote_safe n m) as Hm by (by apply vote_safe_frame) end.
  destruct (AppendEntries _ _ _) as [err pl]. cbn [snd] in Hk.
  pose proof (vote_safe_trans _ _ _ Hm Hk) as Hmk. destruct err; [|done].
  eapply vote_safe_trans; [exact Hmk|]. by apply vote_safe_frame.
Qed.

(** ** Every operation outside of elections *)

Inductive node_event :=
  | NAppend (req : AppendEntriesRequest)
  | NInstall (req : InstallSnapshotRequest)
  | NAppendReply (peer : string) (term : Z) (req : AppendEntriesRequest)
      (r : result AppendEntriesResponse)
  | NInstallPrepare (term : Z)
  | NInstallReply (peer : string) (term : Z) (req : InstallSnapshotRequest)
      (r : result InstallSnapshotResponse)
  | NConfirmReply (term : Z) (r : result AppendEntriesResponse)
  | NAdvance (term : Z)
  | NApply
  | NPropose (ty : Z) (key : string) (value : bytes) (id : string)
  | NForgetWriter (index : Z)
  | NWaitApplied (index : Z)
  | NForgetRead (ch : chan).

Definition node_exec (ev : node_event) n : Node E K :=
  match ev with
  | NAppend req => (HandleAppendEntries req n).2
  | NInstall req => (HandleInstallSnapshot req n).2
  | NAppendReply peer term req r => replicate_reply peer term req r n
  | NInstallPrepare term => (install_prepare term n).2
  | NInstallReply peer term req r => install_reply peer term req r n
  | NConfirmReply term r => (confirm_reply term r n).2
  | NAdvance term => tryAdvanceCommitIndex term n
  | NApply => applyCommitted n
  | NPropose ty key value id => (propose_start ty key value id n).2
  | NForgetWriter i => forget_writer i n
  | NWaitApplied i => (wait_start i n).2
  | NForgetRead ch => forget_read ch n
  end.

(** The terms in a message are machine integers. *)
Definition event_ok (ev : node_event) : Prop :=
  match ev with
  | NAppend req => is_u64 (ae_Term req)
  | NInstall req => is_u64 (is_Term req)
  | NAppendReply _ _ _ (Ok resp) => is_u64 (aer_Term resp)
  | NInstallReply _ _ _ (Ok resp) => is_u64 (isr_Term resp)
  | NConfirmReply _ (Ok resp) => is_u64 (aer_Term resp)
  | _ => True
  end.

Lemma node_exec_safe ev n : event_ok ev → vote_safe n (node_exec ev n).
Proof.
  destruct ev as [req|req|p t req r|t|p t req r|t r|t| | |i|i|ch]; simpl; intros Hok.
  - by apply HandleAppendEntries_safe.
  - by apply HandleInstallSnapshot_safe.
  - apply replicate_reply_safe. by intros resp ->.
  - unfold install_prepare. destruct (LoadLatest _) as [[[[]|]|] store];
      [destruct (Marshal _)|..]; by apply vote_safe_frame.
  - unfold install_reply. destruct r as [resp|]; [|apply vote_safe_refl].
    destruct (t <? isr_Term resp); [by apply becomeFollower_safe|].
    destruct (leads t n); by apply vote_safe_frame.
  - unfold confirm_reply. destruct r as [resp|]; [|apply vote_safe_refl].
    destruct (t <? aer_Term resp); [by apply becomeFollower_safe|apply vote_safe_refl].
  - unfold tryAdvanceCommitIndex. repeat case_match; by apply vote_safe_frame.
  - apply apply_loop_safe.
  - apply propose_start_safe.
  - by apply vote_safe_frame.
  - unfold wait_start. case_Z; by apply vote_safe_frame.
  - by apply vote_safe_frame.
Qed.

(** C21: Every operation of a node outside of its own elections, with any message
    and with any storage outcome: the term does not decrease, a vote given in a
    term is not replaced in it, the term and vote in memory stay the ones on
    disk, and the node remains candidate or leader only within its term. *)
Theorem node_operations_keep_votes ev n :
  event_ok ev → tv_durable (log n) →
  let n' := node_exec ev n in
  tv_step (log n) (log n') ∧ tv_durable (log n') ∧
  (role n' ≠ Follower → role n' = role n ∧ currentTerm (log n') = currentTerm (log n)).
Proof. intros Hok Hd. destruct (node_exec_safe ev n Hok). auto. Qed.

End safe.

(** ** Witness *)

Import Gob Json.

Lemma demo_node_durable id ps e :
  mem_data e = ∅ → mem_broken e = false → tv_durable (log (demo_node id ps e)).
Proof. intros Hd Hb. split; simpl; try done; right; by rewrite Hd. Qed.

Lemma node_operations_keep_votes_witness :
  let n' := node_exec (NAppend (mkAEReq 3 "n2" 0 0 [] 0 "")) n1 in
  tv_step (log n1) (log n') ∧ tv_durable (log n').
Proof.
  destruct (node_operations_keep_votes (NAppend (mkAEReq 3 "n2" 0 0 [] 0 "")) n1) as (Hs & Hd & _);
    [by vm_compute | by apply demo_node_durable |].
  split; [exact Hs | exact Hd].
Defined.
