(* ===== verification/Lifecycle.v ===== *)
(** * internal/raft/node_lifecycle.go: the background loops of a node.

    [runTimerLoop] and [runApplyLoop] are select loops.  Their state is the node,
    the election timer, the two tickers and the stop channel; one step is one
    case of a select, which does something only when its channel is ready.
    Between the steps time passes and other operations of the node run.  A timer
    has its remaining time and a channel that holds at most one token, as in the
    Go version of go.mod; a ticker drops ticks while a token is pending.  An
    election that the timer loop runs is one step with the results it receives. *)

From S2P Require Import Prelude Bytes Storage Codec Log LogSpec StateMachine SnapshotStore.
From S2P Require Import Node Election Replication Apply Client VoteSafety.
Import KV.

(** ** time.Timer and time.Ticker *)

Record timer := mkTimer { t_armed : option Z; t_fired : bool }.

Definition NewTimer (d : Z) : timer := mkTimer (Some d) false.

(** [Stop] reports whether the timer was still armed. *)
Definition timer_Stop (t : timer) : bool * timer :=
  (bool_decide (is_Some (t_armed t)), mkTimer None (t_fired t)).

Definition timer_Reset (d : Z) (t : timer) : timer := mkTimer (Some d) (t_fired t).

(** Receiving from [C], which leaves it empty. *)
Definition timer_receive (t : timer) : timer := mkTimer (t_armed t) false.

Definition timer_elapse (dt : Z) (t : timer) : timer :=
  match t_armed t with
  | Some r => if r <=? dt then mkTimer None true else mkTimer (Some (r - dt)) (t_fired t)
  | None => t
  end.

Record ticker := mkTicker { k_period : Z; k_next : Z; k_pending : bool }.

(** [NewTicker] panics on a period that is not positive. *)
Definition NewTicker (d : Z) : result ticker :=
  if d <=? 0 then Err ErrPanic else Ok (mkTicker d d false).

Definition ticker_receive (k : ticker) : ticker := mkTicker (k_period k) (k_next k) false.

Definition ticker_elapse (dt : Z) (k : ticker) : ticker :=
  if dt <? k_next k then mkTicker (k_period k) (k_next k - dt) (k_pending k)
  else mkTicker (k_period k) (k_period k - (dt - k_next k) mod k_period k) true.

(** ** The state of the loops *)

Record loops (E K T : Type) := mkLoops {
  lp_node : Node E K;
  lp_net : T;
  lp_timer : timer;
  lp_heartbeat : ticker;
  lp_ticker : ticker;
  lp_stopped : bool;       (* stopCh is closed *)
  lp_timer_done : bool;    (* runTimerLoop has returned *)
  lp_apply_done : bool;    (* runApplyLoop has returned *)
  lp_elections : nat       (* history: the elections the timer loop started *)
}.
Arguments mkLoops {E K T}.
Arguments lp_node {E K T}.
Arguments lp_net {E K T}.
Arguments lp_timer {E K T}.
Arguments lp_heartbeat {E K T}.
Arguments lp_ticker {E K T}.
Arguments lp_stopped {E K T}.
Arguments lp_timer_done {E K T}.
Arguments lp_apply_done {E K T}.
Arguments lp_elections {E K T}.

(** The cases of the two selects; a random draw comes with a case that re-arms
    the timer, and the results of the election with the one that runs it. *)
Inductive timer_case :=
  | TStop
  | TReset (draw : Z → Z)
  | TTimeout (results : list election_event) (draw : Z → Z)
  | THeartbeat.

Inductive apply_case :=
  | AStop
  | ASignal
  | ATick.

Inductive loop_event :=
  | LElapse (dt : Z)
  | LNode (ev : node_event)
  | LVote (req : RequestVoteRequest)
  | LStop
  | LTimer (c : timer_case)
  | LApply (c : apply_case).

Section loops.
Context {E K T : Type} `{Engine E} `{Engine K} `{Codec Entry} `{Codec (gmap string bytes)}
  `{Codec SnapshotMeta} `{Transport T}.
Implicit Types (st : loops E K T) (n : Node E K).

Definition set_lp_node n st : loops E K T :=
  mkLoops n (lp_net st) (lp_timer st) (lp_heartbeat st) (lp_ticker st) (lp_stopped st)
    (lp_timer_done st) (lp_apply_done st) (lp_elections st).

Definition set_net (s : Node E K * T) st : loops E K T :=
  mkLoops s.1 s.2 (lp_timer st) (lp_heartbeat st) (lp_ticker st) (lp_stopped st)
    (lp_timer_done st) (lp_apply_done st) (lp_elections st).

Definition set_timer (t : timer) st : loops E K T :=
  mkLoops (lp_node st) (lp_net st) t (lp_heartbeat st) (lp_ticker st) (lp_stopped st)
    (lp_timer_done st) (lp_apply_done st) (lp_elections st).

Definition set_tickers (hb tk : ticker) st : loops E K T :=
  mkLoops (lp_node st) (lp_net st) (lp_timer st) hb tk (lp_stopped st)
    (lp_timer_done st) (lp_apply_done st) (lp_elections st).

Definition set_stop (stopped timer_done apply_done : bool) st : loops E K T :=
  mkLoops (lp_node st) (lp_net st) (lp_timer st) (lp_heartbeat st) (lp_ticker st) stopped
    timer_done apply_done (lp_elections st).

Definition count_election st : loops E K T :=
  mkLoops (lp_node st) (lp_net st) (lp_timer st) (lp_heartbeat st) (lp_ticker st) (lp_stopped st)
    (lp_timer_done st) (lp_apply_done st) (S (lp_elections st)).

Definition apply_period : Z := 10000000.

(** ** Start and Stop *)

Definition Start (draw : Z → Z) (s : Node E K * T) : result (loops E K T) :=
  let? hb := NewTicker (HeartbeatInterval (opts s.1)) in
  let? tk := NewTicker apply_period in
  Ok (mkLoops s.1 s.2 (NewTimer (next_timeout draw (opts s.1))) hb tk false false false 0).

(** [close(stopCh)] under [stopOnce]; the wait ends when [Stop_returns]. *)
Definition Stop st : loops E K T :=
  if lp_stopped st then st else set_stop true (lp_timer_done st) (lp_apply_done st) st.

Definition Stop_returns st : bool := lp_timer_done st && lp_apply_done st.

(** ** runTimerLoop *)

(** [startElection] ends in [becomeLeader], whose first broadcast does nothing
    unless the election was won. *)
Definition run_election (results : list election_event) st : loops E K T :=
  let n := startElection results (lp_node st) in
  count_election (set_net (broadcastAppendEntries (n, lp_net st)) st).

Definition timer_step (c : timer_case) st : loops E K T :=
  if lp_timer_done st then st
  else
    match c with
    | TStop => if lp_stopped st then set_stop true true (lp_apply_done st) st else st
    | TReset draw =>
        if electionResetCh (lp_node st) then
          let st := set_lp_node (with_electionResetCh false (lp_node st)) st in
          let '(active, t) := timer_Stop (lp_timer st) in
          let t := if active then t else timer_receive t in
          set_timer (timer_Reset (next_timeout draw (opts (lp_node st))) t) st
        else st
    | TTimeout results draw =>
        if t_fired (lp_timer st) then
          let st := set_timer (timer_receive (lp_timer st)) st in
          let st := if bool_decide (NodeRole (lp_node st) ≠ Leader)
                    then run_election results st else st in
          set_timer (timer_Reset (next_timeout draw (opts (lp_node st))) (lp_timer st)) st
        else st
    | THeartbeat =>
        if k_pending (lp_heartbeat st) then
          let st := set_tickers (ticker_receive (lp_heartbeat st)) (lp_ticker st) st in
          if bool_decide (NodeRole (lp_node st) = Leader)
          then set_net (broadcastAppendEntries (lp_node st, lp_net st)) st else st
        else st
    end.

(** ** runApplyLoop *)

Definition apply_step (c : apply_case) st : loops E K T :=
  if lp_apply_done st then st
  else
    match c with
    | AStop => if lp_stopped st then set_stop true (lp_timer_done st) true st else st
    | ASignal =>
        if commitAdvancedCh (lp_node st)
        then set_lp_node (applyCommitted (with_commitAdvancedCh false (lp_node st))) st else st
    | ATick =>
        if k_pending (lp_ticker st) then
          let st := set_tickers (lp_heartbeat st) (ticker_receive (lp_ticker st)) st in
          set_lp_node (applyCommitted (lp_node st)) st
        else st
    end.

Definition loop_step (ev : loop_event) st : loops E K T :=
  match ev with
  | LElapse dt =>
      set_tickers (ticker_elapse dt (lp_heartbeat st)) (ticker_elapse dt (lp_ticker st))
        (set_timer (timer_elapse dt (lp_timer st)) st)
  | LNode ev => set_lp_node (node_exec ev (lp_node st)) st
  | LVote req => set_lp_node (HandleRequestVote req (lp_node st)).2 st
  | LStop => Stop st
  | LTimer c => timer_step c st
  | LApply c => apply_step c st
  end.

Fixpoint run (evs : list loop_event) st : loops E K T :=
  match evs with
  | [] => st
  | ev :: evs => run evs (loop_step ev st)
  end.

End loops.
