(* ===== verification/ElectionSafety.v ===== *)
(** * Election safety of a cluster: at most one leader per term.

    The cluster is a set of nodes with their running elections and everything
    that was ever sent: vote requests and the answers to them may be delayed,
    repeated or lost.  Each handler runs atomically.  Any write of a node may
    fail, except that the storage accepts the writes of the handler that grants
    a vote; a node may restart from its storage at any time. *)

From S2P Require Import Prelude Bytes Storage Codec Log LogSpec LogTheorems StateMachine.
From S2P Require Import SnapshotStore Node Election Replication Apply Client ElectionTheorems.
From S2P Require Import VoteSafety.
Import KV.

(** ** Majorities *)

Definition majority (members : gset string) : Z := Z.of_nat (size members) / 2 + 1.

(** Two majorities of the same cluster share a node. *)
Lemma majorities_meet (members q1 q2 : gset string) :
  q1 ⊆ members → q2 ⊆ members → majority members ≤ Z.of_nat (size q1) →
  majority members ≤ Z.of_nat (size q2) → ∃ j, j ∈ q1 ∧ j ∈ q2.
Proof.
  intros Hq1 Hq2 Hs1 Hs2. destruct (set_choose_or_empty (q1 ∩ q2)) as [[j Hj]|Hemp]; [set_solver|].
  assert (size (q1 ∪ q2) ≤ size members)%nat as Hle by (apply subseteq_size; set_solver).
  rewrite size_union in Hle by set_solver. unfold majority in *. Z.div_mod_to_equations. lia.
Qed.

Section cluster.
Context {E K : Type} `{EngineSpec E} `{Engine K} `{CodecSpec Entry}
  `{Codec (gmap string bytes)} `{Codec SnapshotMeta}.
Implicit Types (n m : Node E K).

(** An election goroutine: its counters, the request that it sent to every
    peer, and the peers whose result it has received. *)
Record running := mkRunning {
  ru_el : election;
  ru_req : RequestVoteRequest;
  ru_got : gset string
}.

Record cluster := mkCluster {
  c_nodes : gmap string (Node E K);
  c_elections : gmap string running;
  c_requests : list RequestVoteRequest;
  c_replies : list (string * RequestVoteRequest * RequestVoteResponse);
  c_votes : list (string * Z * string)     (* history: voter, term, candidate *)
}.

Definition set_node (i : string) n (c : cluster) : cluster :=
  mkCluster (<[i := n]> (c_nodes c)) (c_elections c) (c_requests c) (c_replies c) (c_votes c).

Definition set_election (i : string) (o : option running) (c : cluster) : cluster :=
  mkCluster (c_nodes c)
    (match o with Some x => <[i := x]> (c_elections c) | None => delete i (c_elections c) end)
    (c_requests c) (c_replies c) (c_votes c).

Definition add_request (req : RequestVoteRequest) (c : cluster) : cluster :=
  mkCluster (c_nodes c) (c_elections c) (req :: c_requests c) (c_replies c) (c_votes c).

Definition add_reply (j : string) (req : RequestVoteRequest) (resp : RequestVoteResponse)
    (c : cluster) : cluster :=
  mkCluster (c_nodes c) (c_elections c) (c_requests c) ((j, req, resp) :: c_replies c) (c_votes c).

Definition add_vote (b : bool) (j : string) (t : Z) (cand : string) (c : cluster) : cluster :=
  if b then mkCluster (c_nodes c) (c_elections c) (c_requests c) (c_replies c)
              ((j, t, cand) :: c_votes c)
  else c.

(** The steps of the elections. *)
Inductive estep : cluster → cluster → Prop :=
  (** The timer loop starts an election on a node that does not lead. *)
  | S_begin c i n el req n' :
      c_nodes c !! i = Some n → c_elections c !! i = None → role n ≠ Leader →
      currentTerm (log n) < u64_mod - 1 →
      election_begin n = (Some (el, req), n') →
      estep c (set_election i (Some (mkRunning el req ∅)) (add_request req
        (add_vote (currentTerm (log n') =? el_term el) i (el_term el) i (set_node i n' c))))
  | S_begin_alone c i n n' :
      c_nodes c !! i = Some n → c_elections c !! i = None → role n ≠ Leader →
      currentTerm (log n) < u64_mod - 1 → election_begin n = (None, n') →
      estep c (set_node i n' c)
  (** A node answers a vote request. *)
  | S_vote c j n req resp n' :
      c_nodes c !! j = Some n → req ∈ c_requests c → HandleRequestVote req n = (resp, n') →
      (rvr_VoteGranted resp = true → accepts_for 2 (engine (log n))) →
      estep c (add_reply j req resp
        (add_vote (rvr_VoteGranted resp) j (rv_Term req) (rv_CandidateID req) (set_node j n' c)))
  (** The election goroutine receives the result of one peer. *)
  | S_reply c i n el req got j resp el' n' :
      c_nodes c !! i = Some n → c_elections c !! i = Some (mkRunning el req got) →
      j ∈ peers n → j ∉ got → (j, req, resp) ∈ c_replies c → is_u64 (rvr_Term resp) →
      election_step (EvReply (Ok resp)) el n = (el', n') →
      estep c (set_election i (Some (mkRunning el' req ({[j]} ∪ got))) (set_node i n' c))
  (** A failed RPC, the deadline or the stop channel. *)
  | S_other c i n el req got ev el' n' :
      c_nodes c !! i = Some n → c_elections c !! i = Some (mkRunning el req got) →
      (ev = EvTimeout ∨ ev = EvStop ∨ ∃ err, ev = EvReply (Err err)) →
      election_step ev el n = (el', n') →
      estep c (set_election i (Some (mkRunning el' req got)) (set_node i n' c))
  | S_end c i n el req got won n' :
      c_nodes c !! i = Some n → c_elections c !! i = Some (mkRunning el req got) →
      election_running el = false → election_end el n = (won, n') →
      estep c (set_election i None (set_node i n' c)).

Inductive cstep : cluster → cluster → Prop :=
  | S_election c c' : estep c c' → cstep c c'
  (** Any other operation of a node, with any message. *)
  | S_node c i n ev :
      c_nodes c !! i = Some n → event_ok ev → cstep c (set_node i (node_exec ev n) c)
  (** A crash and restart on the same storage. *)
  | S_restart c i n machine store n' :
      c_nodes c !! i = Some n →
      NewNode (n_id n) (peers n) (opts n) (engine (log n)) machine store (selfClientAddr n) = Ok n' →
      cstep c (set_election i None (set_node i n' c)).

(** The configuration that the nodes share. *)
Definition member_ok (members : gset string) (i : string) n : Prop :=
  n_id n = i ∧ NoDup (peers n) ∧ list_to_set (peers n) = members ∖ {[i]}.

Record initial (members : gset string) (c : cluster) : Prop := {
  init_names : ∀ i, i ∈ members → i ≠ ""%string;
  init_nodes : dom (c_nodes c) = members;
  init_node : ∀ i n, c_nodes c !! i = Some n →
    member_ok members i n ∧ role n = Follower ∧ tv_durable (log n);
  init_elections : c_elections c = ∅;
  init_requests : c_requests c = [];
  init_replies : c_replies c = [];
  init_votes : c_votes c = []
}.

Inductive reachable (members : gset string) : cluster → Prop :=
  | R_init c : initial members c → reachable members c
  | R_step c c' : reachable members c → cstep c c' → reachable members c'.

(** ** The invariant *)

(** The state of [n] remembers that it voted for [cand] in term [t]. *)
Definition remembers (t : Z) (cand : string) n : Prop :=
  t < currentTerm (log n) ∨ t = currentTerm (log n) ∧ votedFor (log n) = cand.

(** [i] has the votes of a majority in term [t]. *)
Definition elected (members : gset string) (votes : list (string * Z * string)) (t : Z)
    (i : string) : Prop :=
  ∃ q : gset string, q ⊆ members ∧ majority members ≤ Z.of_nat (size q) ∧
    ∀ j, j ∈ q → (j, t, i) ∈ votes.

Record election_inv (members : gset string) (votes : list (string * Z * string))
    (replies : list (string * RequestVoteRequest * RequestVoteResponse)) (i : string)
    n (el : election) (req : RequestVoteRequest) (got : gset string) : Prop := {
  ei_request : rv_CandidateID req = i ∧ rv_Term req = el_term el;
  ei_term : 0 < el_term el;
  ei_needed : el_needed el = majority members;
  ei_got : got ⊆ list_to_set (peers n);
  ei_votes : ∃ q : gset string, q ⊆ got ∧ el_votes el ≤ 1 + Z.of_nat (size q) ∧
    ∀ j, j ∈ q → ∃ resp, (j, req, resp) ∈ replies ∧ rvr_VoteGranted resp = true;
  ei_won : el_won el = true → el_needed el ≤ el_votes el;
  ei_self : role n = Candidate → currentTerm (log n) = el_term el → (i, el_term el, i) ∈ votes
}.

Record inv (members : gset string) (c : cluster) : Prop := {
  i_names : ∀ i, i ∈ members → i ≠ ""%string;
  i_nodes : dom (c_nodes c) = members;
  i_node : ∀ i n, c_nodes c !! i = Some n → member_ok members i n ∧ tv_durable (log n);
  i_votes : ∀ j t cand, (j, t, cand) ∈ c_votes c →
    cand ≠ ""%string ∧ ∃ n, c_nodes c !! j = Some n ∧ remembers t cand n;
  i_unique : ∀ j t c1 c2, (j, t, c1) ∈ c_votes c → (j, t, c2) ∈ c_votes c → c1 = c2;
  i_requests : ∀ req, req ∈ c_requests c → rv_CandidateID req ∈ members ∧ is_u64 (rv_Term req);
  i_replies : ∀ j req resp, (j, req, resp) ∈ c_replies c → rvr_VoteGranted resp = true →
    (j, rv_Term req, rv_CandidateID req) ∈ c_votes c;
  i_elections : ∀ i el req got, c_elections c !! i = Some (mkRunning el req got) →
    ∃ n, c_nodes c !! i = Some n ∧ election_inv members (c_votes c) (c_replies c) i n el req got;
  i_leader : ∀ i n, c_nodes c !! i = Some n → role n = Leader →
    size members = 1%nat ∨ elected members (c_votes c) (currentTerm (log n)) i
}.

(** ** Preservation, one part of the state at a time *)

Lemma remembers_step t cand n n' :
  cand ≠ ""%string → tv_step (log n) (log n') → remembers t cand n → remembers t cand n'.
Proof.
  unfold remembers, tv_step. intros Hc [|[? [?|?]]] [?|[? ?]]; intuition (lia || congruence).
Qed.

Lemma inv_set_node members c i n n' :
  inv members c → c_nodes c !! i = Some n →
  n_id n' = n_id n → peers n' = peers n → tv_step (log n) (log n') → tv_durable (log n') →
  (role n' = Leader →
    size members = 1%nat ∨ elected members (c_votes c) (currentTerm (log n')) i) →
  (∀ el req got, c_elections c !! i = Some (mkRunning el req got) → role n' = Candidate →
    currentTerm (log n') = el_term el → (i, el_term el, i) ∈ c_votes c) →
  inv members (set_node i n' c).
Proof.
  intros Hinv Hn Hid Hp Hstep Hd Hlead Hcand.
  destruct (i_node _ _ Hinv i n Hn) as [(Hid0 & Hnd & Hpeers) _].
  split; simpl; try apply Hinv.
  - rewrite dom_insert_lookup_L; [apply Hinv|eauto].
  - intros j m [[<- <-]|[Hne Hj]]%lookup_insert_Some; [|by apply Hinv].
    split; [|done]. unfold member_ok. rewrite Hid, Hp. done.
  - intros j t cand Hv. destruct (i_votes _ _ Hinv j t cand Hv) as (Hne & m & Hm & Hrem).
    split; [done|]. destruct (decide (i = j)) as [<-|Hij].
    + exists n'. rewrite lookup_insert_eq. split; [done|]. assert (m = n) as -> by congruence.
      by eapply remembers_step.
    + exists m. by rewrite lookup_insert_ne.
  - intros j el req got He. destruct (i_elections _ _ Hinv j el req got He) as (m & Hm & Hei).
    destruct (decide (i = j)) as [<-|Hij].
    + exists n'. rewrite lookup_insert_eq. split; [done|]. assert (m = n) as -> by congruence.
      destruct Hei as [? ? ? Hg ? ? ?]. split; try done; [by rewrite Hp|]. by eapply Hcand.
    + exists m. by rewrite lookup_insert_ne.
  - intros j m [[<- <-]|[Hne Hj]]%lookup_insert_Some; [done|]. by apply Hinv.
Qed.

Lemma inv_set_node_safe members c i n n' :
  inv members c → c_nodes c !! i = Some n → vote_safe n n' → inv members (set_node i n' c).
Proof.
  intros Hinv Hn [Hid Hp Hs Hd Hr]. destruct (i_node _ _ Hinv i n Hn) as [_ Hdn].
  eapply inv_set_node; eauto.
  - intros Hl. destruct Hr as [Hrl ->]; [congruence|]. apply (i_leader _ _ Hinv i n Hn). congruence.
  - intros el req got He Hc Ht. destruct Hr as [Hrc Htt]; [congruence|].
    destruct (i_elections _ _ Hinv i el req got He) as (m & Hm & Hei).
    assert (m = n) as -> by congruence. apply (ei_self _ _ _ _ _ _ _ _ Hei); congruence.
Qed.

Lemma inv_set_election members c i el req got n :
  inv members c → c_nodes c !! i = Some n →
  election_inv members (c_votes c) (c_replies c) i n el req got →
  inv members (set_election i (Some (mkRunning el req got)) c).
Proof.
  intros Hinv Hn Hei. split; simpl; try apply Hinv.
  intros j el' req' got' [[<- Heq]|[Hne Hj]]%lookup_insert_Some; [|by apply Hinv].
  injection Heq as <- <- <-. eauto.
Qed.

Lemma inv_end_election members c i : inv members c → inv members (set_election i None c).
Proof.
  intros Hinv. split; simpl; try apply Hinv.
  intros j el' req' got' [Hne Hj]%lookup_delete_Some. by apply Hinv.
Qed.

Lemma elected_mono members votes v t i :
  elected members votes t i → elected members (v :: votes) t i.
Proof. intros (q & Hq & Hs & Hv). exists q. set_solver. Qed.

Lemma inv_add_vote members c b j n t cand :
  inv members c → c_nodes c !! j = Some n →
  (b = true → cand ≠ ""%string ∧ currentTerm (log n) = t ∧ votedFor (log n) = cand) →
  inv members (add_vote b j t cand c).
Proof.
  intros Hinv Hn Hb. destruct b; [|done]. destruct (Hb eq_refl) as (Hne & Ht & Hv).
  assert (∀ c2, (j, t, c2) ∈ c_votes c → c2 = cand) as Hsame.
  { intros c2 Hin. destruct (i_votes _ _ Hinv _ _ _ Hin) as (_ & m & Hm & Hrem).
    assert (m = n) as -> by congruence. destruct Hrem as [?|[_ ?]]; [lia|congruence]. }
  split; simpl; try apply Hinv.
  - intros j' t' c' [Heq|Hin]%elem_of_cons; [|by apply Hinv].
    injection Heq as -> -> ->. split; [done|]. exists n. split; [done|]. right. auto.
  - intros j' t' c1 c2 [H1'|H1']%elem_of_cons [H2'|H2']%elem_of_cons.
    + congruence.
    + injection H1' as -> -> ->. symmetry. by apply Hsame.
    + injection H2' as -> -> ->. by apply Hsame.
    + by eapply Hinv.
  - intros j' req resp Hin Hg. apply elem_of_cons. right. by eapply Hinv.
  - intros i el req got He.
    destruct (i_elections _ _ Hinv i el req got He) as (m & Hm & [? ? ? ? ? ? ?]).
    exists m. split; [done|]. split; try done. intros. apply elem_of_cons. auto.
  - intros i m Hi Hl. destruct (i_leader _ _ Hinv i m Hi Hl); auto using elected_mono.
Qed.

(** ** What the handlers contribute *)

Lemma HandleRequestVote_granted req n resp n' :
  accepts_for 2 (engine (log n)) → HandleRequestVote req n = (resp, n') →
  rvr_VoteGranted resp = true →
  currentTerm (log n') = rv_Term req ∧ votedFor (log n') = rv_CandidateID req.
Proof.
  intros Hacc Hh Hg. unfold HandleRequestVote in Hh.
  destruct (Z.ltb_spec (rv_Term req) (currentTerm (log n))); [by injection Hh as <- <-|].
  match type of Hh with context [let '(cur, n) := ?r in _] => set (r0 := r) in Hh end.
  assert (accepts_for 1 (engine (log r0.2)) ∧ r0.1 = rv_Term req) as [Hacc1 Hcur].
  { unfold r0. case_Z; cbn [fst snd].
    - destruct (stepDownForVote_fields (rv_Term req) n) as (_ & -> & _). split; [|done].
      by apply SetTermAndVote_accepted.
    - split; [|lia]. intros b o. by destruct (Hacc b o). }
  destruct r0 as [cur m]. simpl in *. subst cur.
  destruct (_ && _); [|by injection Hh as <- <-]. injection Hh as <- <-. simpl.
  destruct (SetTermAndVote_accepted 0 (rv_Term req) (rv_CandidateID req) _ Hacc1) as [Hok _].
  unfold SetTermAndVote in *. by destruct (eng_Commit _ _ _) as [[]].
Qed.

Lemma size_members members i n :
  i ∈ members → member_ok members i n → size members = S (length (peers n)).
Proof.
  intros Hi (_ & Hnd & Hp). rewrite <-(size_list_to_set (C := gset string)) by done.
  rewrite Hp, size_difference, size_singleton by set_solver.
  assert (size ({[i]} : gset string) ≤ size members)%nat as Hle by (apply subseteq_size; set_solver).
  rewrite size_singleton in Hle. lia.
Qed.

Lemma becomeLeader_start_keeps n :
  keeps_tv (log n) (log (becomeLeader_start n).2) ∧
  n_id (becomeLeader_start n).2 = n_id n ∧ peers (becomeLeader_start n).2 = peers n.
Proof.
  unfold becomeLeader_start, becomeLeader_locked. case_bool_decide; [done|].
  split_and!; try done; apply AppendEntries_keeps.
Qed.

(** Candidacy: the new term carries the node's own vote, or nothing changed. *)
Lemma election_begin_fields n r n' :
  currentTerm (log n) < u64_mod - 1 → tv_durable (log n) → election_begin n = (r, n') →
  n_id n' = n_id n ∧ peers n' = peers n ∧ tv_step (log n) (log n') ∧ tv_durable (log n') ∧
  match r with
  | Some (el, req) =>
      role n' = Candidate ∧ el_needed el = needed_votes (length (peers n)) ∧ el_votes el = 1 ∧
      el_won el = false ∧ rv_CandidateID req = n_id n ∧ rv_Term req = el_term el ∧
      is_u64 (rv_Term req) ∧ el_term el = currentTerm (log n) + 1 ∧
      (currentTerm (log n') = el_term el → votedFor (log n') = n_id n)
  | None => needed_votes (length (peers n)) = 1
  end.
Proof.
  intros Hlt Hd Hb. pose proof (tv_u64 _ Hd) as Hu.
  unfold election_begin, becomeCandidate, becomeCandidate_newTerm in Hb.
  rewrite u64_small in Hb by u64_lia.
  set (m := resetElectionTimer _) in Hb.
  assert (n_id m = n_id n ∧ peers m = peers n ∧ role m = Candidate ∧
    log m = (SetTermAndVote (currentTerm (log n) + 1) (n_id n) (log n)).2)
    as (Hid & Hp & Hr & Hl) by done.
  clearbody m. rewrite Hp in Hb.
  assert (is_u64 (currentTerm (log n) + 1)) as Hu1 by u64_lia.
  assert (tv_durable (log m)) as Hdm by (rewrite Hl; by apply SetTermAndVote_durable).
  assert (tv_step (log n) (log m) ∧
    (currentTerm (log m) = currentTerm (log n) + 1 → votedFor (log m) = n_id n)) as [Hs Hv].
  { rewrite Hl. unfold tv_step.
    destruct (SetTermAndVote_tv (currentTerm (log n) + 1) (n_id n) (log n)) as [[-> ->]|[-> ->]];
      intuition lia. }
  destruct (Z.eqb_spec (needed_votes (length (peers n))) 1).
  - injection Hb as <- <-.
    destruct (becomeLeader_start_keeps m) as ((Ht & Hvv & Hdd) & -> & ->).
    split_and!; try done; [|by apply Hdd]. unfold tv_step. by rewrite Ht, Hvv.
  - injection Hb as <- <-. split_and!; done.
Qed.

Lemma election_step_fields ev el n el' n' :
  (∀ resp, ev = EvReply (Ok resp) → is_u64 (rvr_Term resp)) →
  election_step ev el n = (el', n') →
  vote_safe n n' ∧ el_term el' = el_term el ∧ el_needed el' = el_needed el ∧
  (el_votes el' = el_votes el ∨ el_votes el' = el_votes el + 1 ∧
     ∃ resp, ev = EvReply (Ok resp) ∧ rvr_VoteGranted resp = true) ∧
  (el_won el' = true → el_won el = true ∨ el_needed el ≤ el_votes el').
Proof.
  intros Hok Hs. unfold election_step in Hs.
  destruct (negb (election_running el)).
  { injection Hs as <- <-. split_and!; auto using vote_safe_refl. }
  destruct ev as [r| |]; try (injection Hs as <- <-; split_and!; auto using vote_safe_refl).
  destruct (vote_result (el_term el) r) as [granted higher] eqn:Hv.
  assert (is_u64 higher ∧ (granted = true → ∃ resp, r = Ok resp ∧ rvr_VoteGranted resp = true))
    as [Hu Hgr].
  { unfold vote_result in Hv. destruct r as [resp|]; [destruct (el_term el <? rvr_Term resp)|];
      injection Hv as <- <-; split; try done; eauto. }
  destruct (el_term el <? higher).
  { injection Hs as <- <-. split_and!; auto. by apply becomeFollower_safe. }
  destruct granted; injection Hs as <- <-; simpl; split_and!; auto using vote_safe_refl.
  - right. split; [done|]. destruct (Hgr eq_refl) as (resp & -> & ?). eauto.
  - rewrite !andb_true_iff. intros [[? _] _]. right. lia.
Qed.

Lemma NewNode_tv n machine store n' :
  tv_durable (log n) →
  NewNode (n_id n) (peers n) (opts n) (engine (log n)) machine store (selfClientAddr n) = Ok n' →
  vote_safe n n' ∧ role n' = Follower.
Proof.
  intros [Hdt Hdv Hdu Hdr] Hn. unfold NewNode in Hn.
  destruct (OpenPersistentLog (engine (log n))) as [pl|] eqn:Ho; [|done].
  assert (engine pl = engine (log n) ∧ currentTerm pl = currentTerm (log n) ∧
    votedFor pl = votedFor (log n)) as (He & Ht & Hv).
  { unfold OpenPersistentLog in Ho.
    rewrite (load_uint64_rep _ _ (currentTerm (log n))), (load_string_rep _ _ (votedFor (log n)))
      in Ho by done.
    destruct (load_uint64 _ keyLastIncludedIndex); [|done].
    destruct (load_uint64 _ keyLastIncludedTerm); [|done].
    destruct (eng_NewIterator _ _ _); [|done]. destruct (scan_last _ _); [|done].
    by injection Ho as <-. }
  assert (log n' = pl ∧ n_id n' = n_id n ∧ peers n' = peers n ∧ role n' = Follower)
    as (Hl & Hi & Hp & Hr).
  { destruct (LoadLatest store) as [[[[snap meta]|]|] store']; try done.
    - destruct (Restore _ _ _) as [[]]; [done|]. by injection Hn as <-.
    - by injection Hn as <-. }
  split; [|done]. split; rewrite ?Hl; try done.
  - right. auto.
  - intros _. split; rewrite ?He, ?Ht, ?Hv; done.
Qed.

(** ** The invariant holds in every reachable state *)

Lemma initial_inv members c : initial members c → inv members c.
Proof.
  intros [Hnm Hnd Hn He Hq Hp Hv]. split; try done.
  - intros i n Hi. by destruct (Hn i n Hi) as (? & _ & ?).
  - rewrite Hv. set_solver.
  - rewrite Hv. set_solver.
  - rewrite Hq. set_solver.
  - rewrite Hp. set_solver.
  - rewrite He. intros i el req got Hi. by rewrite lookup_empty in Hi.
  - intros i n Hi Hl. destruct (Hn i n Hi) as (_ & Hf & _). congruence.
Qed.

Lemma inv_member members c i n : inv members c → c_nodes c !! i = Some n → i ∈ members.
Proof. intros Hinv Hn. rewrite <-(i_nodes _ _ Hinv). by apply elem_of_dom_2 in Hn. Qed.

Lemma inv_begin members c i n el req n' :
  inv members c → c_nodes c !! i = Some n → c_elections c !! i = None →
  currentTerm (log n) < u64_mod - 1 → election_begin n = (Some (el, req), n') →
  inv members (set_election i (Some (mkRunning el req ∅)) (add_request req
    (add_vote (currentTerm (log n') =? el_term el) i (el_term el) i (set_node i n' c)))).
Proof.
  intros Hinv Hn He Hlt Hb. destruct (i_node _ _ Hinv i n Hn) as [Hmem Hd].
  pose proof (inv_member _ _ _ _ Hinv Hn) as Hi.
  destruct (election_begin_fields n _ n' Hlt Hd Hb)
    as (Hid & Hp & Hs & Hd' & Hrole & Hneed & Hvotes & Hwon & Hcand & Hterm & Hu & Hnext & Hself).
  destruct Hmem as (Hidn & Hmem). rewrite Hidn in *.
  set (c1 := add_vote _ _ _ _ _).
  assert (inv members c1 ∧ c_nodes c1 !! i = Some n') as [Hinv1 Hn1].
  { unfold c1. split; [|destruct (_ =? _); apply lookup_insert_eq].
    apply (inv_add_vote _ _ _ _ n'); [|apply lookup_insert_eq|].
    - eapply inv_set_node; eauto; congruence.
    - intros Heq%Z.eqb_eq. split_and!; [by apply (i_names _ _ Hinv) | done | by apply Hself]. }
  assert (inv members (add_request req c1)) as Hinv2.
  { split; simpl; try apply Hinv1. intros req' [->|Hin]%elem_of_cons; [|by apply Hinv1].
    rewrite Hcand. done. }
  eapply inv_set_election; [exact Hinv2 | exact Hn1 |].
  pose proof (tv_u64 _ Hd). split; simpl; [done|u64_lia|..].
  - rewrite Hneed. unfold needed_votes, majority.
    rewrite (size_members _ i n) by done. f_equal. f_equal. lia.
  - set_solver.
  - exists ∅. rewrite size_empty. split_and!; [done | lia | set_solver].
  - congruence.
  - intros _ Heq. unfold c1. rewrite Heq, Z.eqb_refl. simpl. set_solver.
Qed.

Lemma inv_reply members c i n el req got got' ev el' n' :
  inv members c → c_nodes c !! i = Some n → c_elections c !! i = Some (mkRunning el req got) →
  got ⊆ got' → got' ⊆ list_to_set (peers n) →
  (∀ resp, ev = EvReply (Ok resp) → is_u64 (rvr_Term resp)) →
  (∀ resp, ev = EvReply (Ok resp) → rvr_VoteGranted resp = true →
    ∃ j, j ∈ got' ∧ j ∉ got ∧ (j, req, resp) ∈ c_replies c) →
  election_step ev el n = (el', n') →
  inv members (set_election i (Some (mkRunning el' req got')) (set_node i n' c)).
Proof.
  intros Hinv Hn He Hsub Hgot Hu Hvote Hs.
  destruct (election_step_fields _ _ _ _ _ Hu Hs) as (Hsafe & Ht & Hneed & Hv & Hw).
  destruct (i_elections _ _ Hinv i el req got He) as (m & Hm & Hei).
  assert (m = n) as -> by congruence.
  pose proof (inv_set_node_safe _ _ _ _ _ Hinv Hn Hsafe) as Hinv1.
  destruct (i_elections _ _ Hinv1 i el req got He) as (m & Hm1 & Hei1).
  assert (m = n') as -> by (simpl in Hm1; rewrite lookup_insert_eq in Hm1; congruence).
  eapply inv_set_election; [exact Hinv1 | exact Hm1 |].
  destruct Hei1 as [Hrq Ht1 Hn1 Hg1 (q & Hq & Hsz & Hqv) Hw1 Hself]. split; rewrite ?Ht, ?Hneed; try done.
  - by rewrite (vs_peers _ _ Hsafe).
  - destruct Hv as [->|(-> & resp & -> & Hgr)]; [exists q; set_solver|].
    destruct (Hvote resp eq_refl Hgr) as (j & Hj & Hjn & Hjv).
    exists ({[j]} ∪ q). rewrite size_union, size_singleton by set_solver.
    split_and!; [set_solver | lia |].
    intros k [->%elem_of_singleton|Hk]%elem_of_union; [by exists resp | by apply Hqv].
  - intros Hwon. destruct (Hw Hwon) as [Hold|]; [|done]. destruct Hv as [->|(-> & _)]; [auto|].
    specialize (Hw1 Hold). lia.
Qed.

Lemma inv_end members c i n el req got won n' :
  inv members c → c_nodes c !! i = Some n → c_elections c !! i = Some (mkRunning el req got) →
  election_end el n = (won, n') → inv members (set_node i n' c).
Proof.
  intros Hinv Hn He Hend. unfold election_end in Hend.
  destruct (el_won el && bool_decide (role n = Candidate) && (currentTerm (log n) =? el_term el)) eqn:Hw.
  2:{ injection Hend as <- <-. eapply inv_set_node_safe; eauto using vote_safe_refl. }
  rewrite !andb_true_iff, bool_decide_eq_true, Z.eqb_eq in Hw. destruct Hw as [[Hwon Hc] Ht].
  destruct (i_elections _ _ Hinv i el req got He) as (m & Hm & [[Hrc Hrt] _ Hneed Hg (q & Hq & Hsz & Hqv) Hw Hself]).
  assert (m = n) as -> by congruence. specialize (Hself Hc Ht). specialize (Hw Hwon).
  destruct (i_node _ _ Hinv i n Hn) as [(Hid & Hnd & Hp) Hd].
  pose proof (inv_member _ _ _ _ Hinv Hn) as Hi.
  assert (n' = (becomeLeader_start n).2) as -> by (by rewrite Hend).
  destruct (becomeLeader_start_keeps n) as ((Htt & Hvv & Hdd) & Hid' & Hp').
  eapply inv_set_node; eauto; [right; auto| |congruence].
  intros _. right. rewrite Htt, Ht. exists ({[i]} ∪ q).
  rewrite size_union, size_singleton by set_solver. split_and!; [set_solver | lia |].
  intros k [->%elem_of_singleton|Hk]%elem_of_union; [done|]. destruct (Hqv k Hk) as (resp & Hin & Hgr).
  rewrite <-Hrt, <-Hrc. by eapply Hinv.
Qed.

Lemma estep_inv members c c' : inv members c → estep c c' → inv members c'.
Proof.
  intros Hinv Hstep.
  destruct Hstep as [c i n el req n' Hn He Hr Hlt Hb | c i n n' Hn He Hr Hlt Hb
    | c j n req resp n' Hn Hreq Hh Hacc | c i n el req got j resp el' n' Hn He Hj Hjg Hin Hu Hs
    | c i n el req got ev el' n' Hn He Hev Hs | c i n el req got won n' Hn He Hrun Hend].
  - by eapply inv_begin.
  - destruct (i_node _ _ Hinv i n Hn) as [Hmem Hd].
    destruct (election_begin_fields n _ n' Hlt Hd Hb) as (Hid & Hp & Hs & Hd' & Hneed).
    eapply inv_set_node; eauto; [|congruence].
    intros _. left. rewrite (size_members _ i n) by (done || by eapply inv_member).
    unfold needed_votes in Hneed. Z.div_mod_to_equations. lia.
  - destruct (i_requests _ _ Hinv _ Hreq) as [Hcand Hu].
    pose proof (HandleRequestVote_safe req n Hu) as Hsafe. rewrite Hh in Hsafe.
    set (c1 := add_vote _ _ _ _ _).
    assert (inv members c1) as Hinv1.
    { apply (inv_add_vote _ _ _ _ n'); [by eapply inv_set_node_safe|apply lookup_insert_eq|].
      intros Hg. split; [by apply (i_names _ _ Hinv)|]. by eapply HandleRequestVote_granted; [apply Hacc|..]. }
    split; simpl; try apply Hinv1.
    + intros j' req' resp' [Heq|Hin]%elem_of_cons Hg; [|by eapply Hinv1].
      injection Heq as -> -> ->. unfold c1. rewrite Hg. simpl. set_solver.
    + intros i el req' got He.
      destruct (i_elections _ _ Hinv1 i el req' got He) as (m & Hm & [? ? ? ? (q & ? & ? & Hq) ? ?]).
      exists m. split; [done|]. split; try done. exists q. split_and!; [done..|].
      intros k Hk. destruct (Hq k Hk) as (resp' & ? & ?). exists resp'. by rewrite elem_of_cons; auto.
  - destruct (i_elections _ _ Hinv i el req got He) as (m & Hm & Hei).
    assert (m = n) as -> by congruence. 
    eapply (inv_reply _ _ _ n el req got); try done; [set_solver| | |].
    + pose proof (ei_got _ _ _ _ _ _ _ _ Hei).
      apply union_subseteq. split; [|done]. by apply singleton_subseteq_l, elem_of_list_to_set.
    + by intros resp' [= <-].
    + intros resp' [= <-] Hg. exists j. split_and!; [set_solver | done..].
  - destruct (i_elections _ _ Hinv i el req got He) as (m & Hm & Hei).
    assert (m = n) as -> by congruence.
    eapply (inv_reply _ _ _ n el req got); try done; [apply Hei|..];
      by destruct Hev as [->|[->|[? ->]]].
  - apply inv_end_election. by eapply inv_end.
Qed.

Lemma cstep_inv members c c' : inv members c → cstep c c' → inv members c'.
Proof.
  intros Hinv Hstep.
  destruct Hstep as [c c' He | c i n ev Hn Hok | c i n machine store n' Hn Hnew].
  - by eapply estep_inv.
  - eapply inv_set_node_safe; [done..|]. by apply node_exec_safe.
  - apply inv_end_election. eapply inv_set_node_safe; [done..|].
    destruct (i_node _ _ Hinv i n Hn) as [_ Hd]. by eapply NewNode_tv.
Qed.

Lemma reachable_inv members c : reachable members c → inv members c.
Proof. induction 1; [by apply initial_inv | by eapply cstep_inv]. Qed.

Lemma elected_unique members c t i j :
  inv members c → elected members (c_votes c) t i → elected members (c_votes c) t j → i = j.
Proof.
  intros Hinv (q1 & Hq1 & Hs1 & Hv1) (q2 & Hq2 & Hs2 & Hv2).
  destruct (majorities_meet _ _ _ Hq1 Hq2 Hs1 Hs2) as (k & Hk1 & Hk2).
  exact (i_unique _ _ Hinv k _ _ _ (Hv1 _ Hk1) (Hv2 _ Hk2)).
Qed.

(** C6: Election safety: in every reachable state of a cluster, two nodes that
    lead in the same term are the same node.  Messages may be delayed, repeated
    or lost, nodes may crash and restart, and any write may fail except those of
    a handler that grants a vote; handlers are atomic, and no election starts at
    the largest 64-bit term. *)
Theorem election_safety members c i j n m :
  reachable members c → c_nodes c !! i = Some n → c_nodes c !! j = Some m →
  role n = Leader → role m = Leader → currentTerm (log n) = currentTerm (log m) → i = j.
Proof.
  intros Hr Hn Hm Hln Hlm Ht. apply reachable_inv in Hr as Hinv.
  pose proof (inv_member _ _ _ _ Hinv Hn). pose proof (inv_member _ _ _ _ Hinv Hm).
  destruct (i_leader _ _ Hinv i n Hn Hln) as [H1'|H1']; [by apply (size_singleton_inv members)|].
  destruct (i_leader _ _ Hinv j m Hm Hlm) as [H2'|H2']; [by apply (size_singleton_inv members)|].
  rewrite Ht in H1'. by eapply elected_unique.
Qed.

End cluster.

(** ** Witness: n1 wins an election with the vote of n2 *)

Import Gob Json.

Definition members3 : gset string := {["n1"; "n2"; "n3"]}.

Definition cluster0 : cluster (E := MemEngine) (K := MemEngine) :=
  mkCluster (<["n1" := n1]> (<["n2" := demo_node "n2" ["n1"; "n3"] mem_new]>
      {["n3" := demo_node "n3" ["n1"; "n2"] mem_new]})) ∅ [] [] [].

Lemma cluster0_initial : initial members3 cluster0.
Proof.
  split; try done.
  - intros i Hi. unfold members3 in Hi. set_solver.
  - intros i n Hi. simpl in Hi.
    repeat (apply lookup_insert_Some in Hi as [[<- <-]|[_ Hi]]);
      [..|apply lookup_singleton_Some in Hi as [<- <-]];
      (split_and!; [|done|by apply demo_node_durable]);
      (split_and!; [done | apply (bool_decide_unpack _); vm_compute; exact I
        | apply (bool_decide_unpack _); vm_compute; exact I]).
Qed.

Definition el1 : election := mkElection 1 2 2 1 0 false.
Definition req1 : RequestVoteRequest := mkRVReq 1 "n1" 0 0.
Definition n1_candidate := (election_begin n1).2.
Definition n1_leader := (election_end (mkElection 1 2 2 2 1 true) n1_candidate).2.
Definition n2_voted := (HandleRequestVote req1 (demo_node "n2" ["n1"; "n3"] mem_new)).2.

Definition cluster1 := set_election "n1" (Some (mkRunning el1 req1 ∅)) (add_request req1
  (add_vote true "n1" 1 "n1" (set_node "n1" n1_candidate cluster0))).
Definition cluster2 := add_reply "n2" req1 (mkRVResp 1 true)
  (add_vote true "n2" 1 "n1" (set_node "n2" n2_voted cluster1)).
Definition cluster3 := set_election "n1" (Some (mkRunning (mkElection 1 2 2 2 1 true) req1 ({["n2"]} ∪ ∅)))
  (set_node "n1" n1_candidate cluster2).
Definition cluster4 := set_election "n1" None (set_node "n1" n1_leader cluster3).

Lemma cluster_step1 : estep cluster0 cluster1.
Proof.
  apply (S_begin cluster0 "n1" n1 el1 req1 n1_candidate);
    [reflexivity | reflexivity | discriminate | reflexivity | vm_compute; reflexivity].
Qed.

Lemma cluster_step2 : estep cluster1 cluster2.
Proof.
  apply (S_vote cluster1 "n2" (demo_node "n2" ["n1"; "n3"] mem_new) req1 (mkRVResp 1 true) n2_voted);
    [reflexivity | by left | vm_compute; reflexivity | intros _; by apply mem_accepts_for].
Qed.

Lemma cluster_step3 : estep cluster2 cluster3.
Proof.
  apply (S_reply cluster2 "n1" n1_candidate el1 req1 ∅ "n2" (mkRVResp 1 true));
    [reflexivity | reflexivity | by left | set_solver | by left
    | by vm_compute | vm_compute; reflexivity].
Qed.

Lemma cluster_step4 : estep cluster3 cluster4.
Proof.
  apply (S_end cluster3 "n1" n1_candidate (mkElection 1 2 2 2 1 true) req1 ({["n2"]} ∪ ∅) true);
    [reflexivity | reflexivity | reflexivity | vm_compute; reflexivity].
Qed.

Lemma cluster4_reachable : reachable members3 cluster4.
Proof.
  eapply R_step; [|exact (S_election _ _ cluster_step4)].
  eapply R_step; [|exact (S_election _ _ cluster_step3)].
  eapply R_step; [|exact (S_election _ _ cluster_step2)].
  eapply R_step; [|exact (S_election _ _ cluster_step1)]. apply R_init, cluster0_initial.
Qed.

Lemma election_safety_witness :
  reachable members3 cluster4 ∧ role n1_leader = Leader ∧
  ∀ j m, c_nodes cluster4 !! j = Some m → role m = Leader → currentTerm (log m) = 1 → "n1"%string = j.
Proof.
  split; [exact cluster4_reachable|]. split; [vm_compute; reflexivity|].
  intros j m Hm Hl Ht.
  apply (election_safety members3 cluster4 "n1" j n1_leader m);
    [exact cluster4_reachable | reflexivity | exact Hm | vm_compute; reflexivity | exact Hl |].
  rewrite Ht. vm_compute. reflexivity.
Defined.
