(* ===== verification/Network.v ===== *)
(** * A cluster that replicates its log over a network.

    The cluster of [ElectionSafety] together with every message that the
    replication code ever sent.  A message may be delivered late, more than once
    or never, and each handler runs atomically, with any storage outcome.  A
    [discipline] restricts which requests are sent and delivered; every step is a
    step of the cluster of [ElectionSafety], whose invariant therefore holds. *)

From S2P Require Import Prelude Bytes Storage Codec Log LogSpec LogTheorems StateMachine.
From S2P Require Import SnapshotStore Node Election Replication Apply Client ElectionTheorems.
From S2P Require Import VoteSafety ElectionSafety.
Import KV.

Inductive message :=
  | MAppend (to : string) (req : AppendEntriesRequest)
  | MAppendReply (from : string) (req : AppendEntriesRequest) (resp : AppendEntriesResponse)
  | MInstall (to : string) (req : InstallSnapshotRequest)
  | MInstallReply (from : string) (req : InstallSnapshotRequest) (resp : InstallSnapshotResponse).

(** The operations of a node that no message of the network triggers: the answers
    to the heartbeats of a read only matter for their term. *)
Definition local_event (ev : node_event) : bool :=
  match ev with
  | NConfirmReply _ _ | NAdvance _ | NApply | NPropose _ _ _ _ | NForgetWriter _
  | NWaitApplied _ | NForgetRead _ => true
  | _ => false
  end.

Section network.
Context {E K : Type} `{EngineSpec E} `{Engine K} `{CodecSpec Entry}
  `{Codec (gmap string bytes)} `{Codec SnapshotMeta}.
Implicit Types (n m : Node E K).

Record rcluster := mkRCluster {
  rc_base : cluster (E := E) (K := K);
  rc_msgs : list message
}.

(** What the sender's and the receiver's state say about a request, and which
    store of data a node may find when it restarts. *)
Record discipline := mkDiscipline {
  may_send : message → Node E K → Prop;
  may_deliver : message → Node E K → Prop;
  may_restart : StateMachine K → Node E K → Prop
}.

(** Every log has room for one more entry. *)
Definition room (c : cluster (E := E) (K := K)) : Prop :=
  ∀ i n, c_nodes c !! i = Some n → lastIndex (log n) < u64_mod - 2.

Definition send_msg (m : message) (rc : rcluster) : rcluster :=
  mkRCluster (rc_base rc) (m :: rc_msgs rc).

Definition put_node (i : string) n (rc : rcluster) : rcluster :=
  mkRCluster (set_node i n (rc_base rc)) (rc_msgs rc).

Inductive rstep (d : discipline) : rcluster → rcluster → Prop :=
  (** Elections; the winner appends an entry. *)
  | X_election c c' ms :
      estep c c' → room c → rstep d (mkRCluster c ms) (mkRCluster c' ms)
  (** Proposals, commitment, the apply loop, reads. *)
  | X_local rc i n ev :
      c_nodes (rc_base rc) !! i = Some n → local_event ev = true → event_ok ev →
      room (rc_base rc) → rstep d rc (put_node i (node_exec ev n) rc)
  (** A crash and restart on the same log storage and snapshot files. *)
  | X_restart c ms i n machine store n' :
      c_nodes c !! i = Some n → files store = files (snapStore n) → may_restart d machine n →
      NewNode (n_id n) (peers n) (opts n) (engine (log n)) machine store (selfClientAddr n) = Ok n' →
      rstep d (mkRCluster c ms) (mkRCluster (set_election i None (set_node i n' c)) ms)
  (** [replicateToPeer] sends entries to a peer. *)
  | X_send rc i n p term req :
      c_nodes (rc_base rc) !! i = Some n → p ∈ peers n → is_u64 (next_of p n) →
      replicate_prepare p term n = SendAppend req → may_send d (MAppend p req) n →
      rstep d rc (send_msg (MAppend p req) rc)
  (** [confirmLeadership] sends a heartbeat in a term that the node has reached. *)
  | X_heartbeat rc i n p term :
      c_nodes (rc_base rc) !! i = Some n → p ∈ peers n → 0 ≤ term ≤ currentTerm (log n) →
      may_send d (MAppend p (confirm_request p term n)) n →
      rstep d rc (send_msg (MAppend p (confirm_request p term n)) rc)
  (** A peer handles the request, and the sender its answer. *)
  | X_append rc j n req resp n' :
      MAppend j req ∈ rc_msgs rc → c_nodes (rc_base rc) !! j = Some n →
      may_deliver d (MAppend j req) n → HandleAppendEntries req n = (resp, n') →
      rstep d rc (send_msg (MAppendReply j req resp) (put_node j n' rc))
  | X_append_reply rc i n j req resp :
      MAppendReply j req resp ∈ rc_msgs rc → c_nodes (rc_base rc) !! i = Some n →
      ae_LeaderID req = i → is_u64 (aer_Term resp) →
      rstep d rc (put_node i (replicate_reply j (ae_Term req) req (Ok resp) n) rc)
  (** [sendInstallSnapshot], in a term that the node has reached. *)
  | X_install_send rc i n p term req n' :
      c_nodes (rc_base rc) !! i = Some n → p ∈ peers n → 0 ≤ term ≤ currentTerm (log n) →
      install_prepare term n = (Some req, n') → may_send d (MInstall p req) n →
      rstep d rc (send_msg (MInstall p req) (put_node i n' rc))
  | X_install rc j n req resp n' :
      MInstall j req ∈ rc_msgs rc → c_nodes (rc_base rc) !! j = Some n →
      may_deliver d (MInstall j req) n → HandleInstallSnapshot req n = (resp, n') →
      rstep d rc (send_msg (MInstallReply j req resp) (put_node j n' rc))
  | X_install_reply rc i n j req resp :
      MInstallReply j req resp ∈ rc_msgs rc → c_nodes (rc_base rc) !! i = Some n →
      is_LeaderID req = i → is_u64 (isr_Term resp) →
      rstep d rc (put_node i (install_reply j (is_Term req) req (Ok resp) n) rc).

(** Nodes start with an empty log, no snapshot and nothing committed, in any term. *)
Record rinitial (members : gset string) (rc : rcluster) : Prop := {
  rinit_base : initial members (rc_base rc);
  rinit_msgs : rc_msgs rc = [];
  rinit_log : ∀ i n, c_nodes (rc_base rc) !! i = Some n →
    (∃ t v, log_rep (log n) (mkALog 0 0 [] t v)) ∧ files (snapStore n) !! metaPath = None ∧
    commitIndex n = 0 ∧ lastApplied n = 0
}.

Inductive rreachable (d : discipline) (members : gset string) : rcluster → Prop :=
  | RR_init rc : rinitial members rc → rreachable d members rc
  | RR_step rc rc' : rreachable d members rc → rstep d rc rc' → rreachable d members rc'.

(** The term of every request in the network is a machine integer. *)
Definition msg_u64 (m : message) : Prop :=
  match m with
  | MAppend _ req => is_u64 (ae_Term req)
  | MInstall _ req => is_u64 (is_Term req)
  | _ => True
  end.

Lemma replicate_prepare_leads p term n req :
  replicate_prepare p term n = SendAppend req →
  role n = Leader ∧ currentTerm (log n) = term ∧ ae_Term req = term ∧ ae_LeaderID req = n_id n.
Proof.
  unfold replicate_prepare, leads. intros Hp.
  destruct (bool_decide (role n = Leader)) eqn:Hl; [|done]. apply bool_decide_eq_true in Hl.
  destruct (Z.eqb_spec (currentTerm (log n)) term) as [Ht|]; [|done]. simpl in Hp.
  destruct (_ <? _); [done|]. destruct (_ && _); [done|].
  match type of Hp with match ?r with _ => _ end = _ => destruct r end; [|done].
  by injection Hp as <-.
Qed.

Lemma install_prepare_req term n req n' :
  install_prepare term n = (Some req, n') → is_Term req = term ∧ is_LeaderID req = n_id n.
Proof.
  unfold install_prepare. intros Hp. destruct (LoadLatest _) as [[[[snap meta]|]|] store]; try done.
  destruct (Marshal snap); [|done]. by injection Hp as <- <-.
Qed.

(** Replication steps are steps of the cluster of [ElectionSafety]. *)
Lemma rstep_inv d members rc rc' :
  inv members (rc_base rc) → Forall msg_u64 (rc_msgs rc) → rstep d rc rc' →
  inv members (rc_base rc') ∧ Forall msg_u64 (rc_msgs rc').
Proof.
  intros Hinv Hm Hs.
  assert (∀ i n, c_nodes (rc_base rc) !! i = Some n → is_u64 (currentTerm (log n))) as Hu
    by (intros i n Hn; apply (i_node _ _ Hinv i n Hn)).
  assert (∀ i n ev, c_nodes (rc_base rc) !! i = Some n → event_ok ev →
    inv members (set_node i (node_exec ev n) (rc_base rc))) as Hev
    by (intros i n ev Hn Hok; eapply cstep_inv; [exact Hinv | by apply S_node]).
  destruct Hs as [c c' ms Hs _|rc i n ev Hn _ Hok _|c ms i n machine store n' Hn _ _ Hnew
    |rc i n p term req Hn _ _ Hp _|rc i n p term Hn _ Ht _|rc j n req resp n' Hin Hn _ Hh
    |rc i n j req resp Hin Hn _ Hur|rc i n p term req n' Hn _ Ht Hp _|rc j n req resp n' Hin Hn _ Hh
    |rc i n j req resp Hin Hn _ Hur]; simpl in *.
  - split; [by eapply estep_inv|done].
  - auto.
  - split; [|done]. eapply cstep_inv; [exact Hinv|]. by eapply S_restart.
  - split; [done|]. constructor; [|done]. simpl.
    apply replicate_prepare_leads in Hp as (_ & <- & -> & _). by eapply Hu.
  - split; [done|]. constructor; [|done]. simpl. specialize (Hu _ _ Hn). u64_lia.
  - pose proof (proj1 (Forall_forall _ _) Hm _ Hin) as Hmu. split; [|by constructor].
    specialize (Hev j n (NAppend req) Hn Hmu). simpl in Hev. by rewrite Hh in Hev.
  - split; [|done]. by apply (Hev _ n (NAppendReply j (ae_Term req) req (Ok resp))).
  - specialize (Hev i n (NInstallPrepare term) Hn I). simpl in Hev. rewrite Hp in Hev.
    split; [done|]. constructor; [|done]. simpl. specialize (Hu _ _ Hn).
    apply install_prepare_req in Hp as [-> _]. u64_lia.
  - pose proof (proj1 (Forall_forall _ _) Hm _ Hin) as Hmu. split; [|by constructor].
    specialize (Hev j n (NInstall req) Hn Hmu). simpl in Hev. by rewrite Hh in Hev.
  - split; [|done]. by apply (Hev _ n (NInstallReply j (is_Term req) req (Ok resp))).
Qed.

(** Nothing that was sent or granted is taken back. *)
Lemma rstep_grows d rc rc' :
  rstep d rc rc' →
  (∀ msg, msg ∈ rc_msgs rc → msg ∈ rc_msgs rc') ∧
  (∀ v, v ∈ c_votes (rc_base rc) → v ∈ c_votes (rc_base rc')).
Proof.
  intros Hs. destruct Hs as [c c' ms Hs _| | | | | | | | |]; simpl; try set_solver.
  split; [done|]. intros v Hv. destruct Hs; simpl; try done; unfold add_vote; case_match; simpl; set_solver.
Qed.

(** A stricter discipline has fewer steps. *)
Lemma rstep_weaken d d' rc rc' :
  (∀ msg n, may_send d msg n → may_send d' msg n) →
  (∀ msg n, may_deliver d msg n → may_deliver d' msg n) →
  (∀ machine n, may_restart d machine n → may_restart d' machine n) →
  rstep d rc rc' → rstep d' rc rc'.
Proof.
  intros Hs Hd Hr Hst.
  destruct Hst; [eapply X_election|eapply X_local|eapply X_restart|eapply X_send|eapply X_heartbeat
    |eapply X_append|eapply X_append_reply|eapply X_install_send|eapply X_install|eapply X_install_reply];
    eauto.
Qed.

End network.
Arguments discipline : clear implicits.
