(* ===== verification/ReplicationTheorems.v ===== *)
(** * Theorems on replication and commitment. *)

From S2P Require Import Prelude Bytes Storage Codec Log LogSpec LogTheorems StateMachine.
From S2P Require Import SnapshotStore Node Election Replication Apply Client ElectionTheorems.
From S2P Require Import VoteSafety.
Import KV.

(** ** The majority index *)

Definition count_ge (v : Z) (l : list Z) : Z := many (λ x, v ≤ x) l.

(** The sorted list around the element the code picks. *)
Lemma majority_split l :
  l ≠ [] →
  ∃ lo hi, l ≡ₚ lo ++ majority_index l :: hi ∧
    (∀ x, x ∈ lo → x ≤ majority_index l) ∧ (∀ x, x ∈ hi → majority_index l ≤ x) ∧
    length lo = ((length l - 1) / 2)%nat.
Proof.
  intros Hne. unfold majority_index. set (k := ((length l - 1) / 2)%nat).
  assert (k < length (merge_sort Z.le l))%nat as Hk.
  { rewrite (merge_sort_Permutation Z.le l). assert (length l ≠ 0%nat) by (by intros ->%nil_length_inv).
    unfold k. apply Nat.Div0.div_lt_upper_bound; lia. }
  destruct (lookup_lt_is_Some_2 _ k Hk) as [m Hm]. rewrite Hm. by apply merge_sort_split.
Qed.

(** The index is held by a majority, and no larger one is. *)
Lemma majority_index_correct l :
  l ≠ [] →
  Z.of_nat (length l) / 2 + 1 ≤ count_ge (majority_index l) l ∧
  ∀ v, Z.of_nat (length l) / 2 + 1 ≤ count_ge v l → v ≤ majority_index l.
Proof.
  intros Hne. destruct (majority_split l Hne) as (lo & hi & Hp & Hlo & Hhi & Hlen).
  set (m := majority_index l) in *.
  assert (length l = (length lo + S (length hi))%nat) as Hll by (by rewrite Hp, length_app).
  assert (Z.of_nat (length lo) = (Z.of_nat (length l) - 1) / 2) as Hlz.
  { rewrite Hlen, Nat2Z.inj_div, Nat2Z.inj_sub by lia. done. }
  split.
  - unfold count_ge. rewrite (many_perm _ _ _ Hp), many_app, (many_all _ (m :: hi)).
    + pose proof (many_le (λ x, m ≤ x) lo). simpl length.
      Z.div_mod_to_equations. lia.
    + intros x [->|Hx]%elem_of_cons; [lia|auto].
  - intros v Hv. destruct (Z.le_gt_cases v m) as [?|Hgt]; [done|]. exfalso.
    unfold count_ge in Hv. rewrite (many_perm _ _ _ Hp) in Hv.
    change (lo ++ m :: hi) with (lo ++ [m] ++ hi) in Hv.
    rewrite app_assoc, many_app, many_none in Hv.
    + pose proof (many_le (λ x, v ≤ x) hi). Z.div_mod_to_equations. lia.
    + intros x [Hx|Hx]%elem_of_app; [specialize (Hlo x Hx); lia|].
      apply list_elem_of_singleton in Hx. lia.
Qed.

(** ** The abstract counterpart of the AppendEntries handler *)

(** The log after its term was brought up to the leader's. *)
Definition a_accept (req : AppendEntriesRequest) (al : alog) : alog :=
  if a_term al <? ae_Term req then a_set_term_vote (ae_Term req) "" al else al.

Definition prev_matches (req : AppendEntriesRequest) (al : alog) : bool :=
  (ae_PrevLogIndex req =? 0) ||
  bool_decide (a_term_at al (ae_PrevLogIndex req) = Some (ae_PrevLogTerm req)).

(** A request as leaders build it: its entries follow the previous index, and
    entries from the very beginning go to a log without a snapshot. *)
Record request_ok (req : AppendEntriesRequest) (al : alog) : Prop := {
  rq_term : is_u64 (ae_Term req);
  rq_prev : is_u64 (ae_PrevLogIndex req);
  rq_contiguous : contiguous (ae_PrevLogIndex req) (ae_Entries req);
  rq_bound : ae_PrevLogIndex req + Z.of_nat (length (ae_Entries req)) < u64_mod - 1;
  rq_start : ae_PrevLogIndex req = 0 → ae_Entries req = [] ∨ a_base al = 0
}.

Section replication_theorems.
Context {E K : Type} `{EngineSpec E} `{Engine K} `{CodecSpec Entry}.
Implicit Types (n m : Node E K) (pl : PersistentLog E).

(** C14: The commitment rule.  The commit index never moves back; when it moves,
    the node leads in [term], the entry at the new index is of that term and is
    stored on a majority of the cluster; and when the entry at the majority
    index is of that term, every index stored on a majority is committed. *)
Theorem tryAdvanceCommitIndex_spec n al term :
  log_rep (log n) al → Forall is_u64 (match_indexes n) →
  let n' := tryAdvanceCommitIndex term n in
  let quorum := (Z.of_nat (length (peers n)) + 1) / 2 + 1 in
  commitIndex n ≤ commitIndex n' ∧
  (commitIndex n' ≠ commitIndex n →
    leads term n = true ∧ a_term_at al (commitIndex n') = Some term ∧
    quorum ≤ count_ge (commitIndex n') (match_indexes n)) ∧
  (leads term n = true → a_term_at al (majority_index (match_indexes n)) = Some term →
    ∀ v, quorum ≤ count_ge v (match_indexes n) → v ≤ commitIndex n').
Proof.
  intros Hr Hu. cbn zeta. unfold tryAdvanceCommitIndex.
  assert (match_indexes n ≠ []) as Hne by done.
  destruct (majority_index_correct _ Hne) as [Hmaj Hmax].
  replace (Z.of_nat (length (match_indexes n))) with (Z.of_nat (length (peers n)) + 1) in *
    by (unfold match_indexes; rewrite length_cons, length_map; lia).
  assert (is_u64 (majority_index (match_indexes n))) as Hmu.
  { destruct (majority_split _ Hne) as (lo & hi & Hp & _).
    rewrite Hp in Hu. apply Forall_app in Hu as [_ Hu]. by apply Forall_cons in Hu as [? _]. }
  rewrite (TermAt_rep _ _ _ Hr Hmu). set (mi := majority_index (match_indexes n)) in *.
  destruct (leads term n) eqn:Hl; simpl; [|split_and!; [lia | done | done]].
  destruct (Z.leb_spec mi (commitIndex n)) as [Hle|Hgt].
  { split_and!; [lia | done |]. intros _ _ v Hv. specialize (Hmax v Hv). lia. }
  destruct (a_term_at al mi) as [t|] eqn:Hat; [|split_and!; [lia | done | done]].
  destruct (Z.eqb_spec t term) as [->|Hne']; simpl.
  - split_and!; [lia | done |]. intros _ _. exact Hmax.
  - split_and!; [lia | done |]. congruence.
Qed.

(** ** HandleAppendEntries *)

Lemma accepts_for_S k (e : E) : accepts_for (S k) e → accepts_for k e.
Proof.
  revert e. induction k as [|k IH]; intros e Ha; [done|]. intros b o.
  destruct (Ha b o) as [Hn Hk]. split; [done|]. by apply IH.
Qed.

Lemma accept_leader_rep k req n al :
  log_rep (log n) al → is_u64 (ae_Term req) → a_term al ≤ ae_Term req →
  accepts_for (S k) (engine (log n)) →
  let '(cur, m) := accept_leader req n in
  cur = ae_Term req ∧ log_rep (log m) (a_accept req al) ∧ accepts_for k (engine (log m)) ∧
  commitIndex m = commitIndex n ∧ role m ≠ Candidate ∧
  leaderID m = ae_LeaderID req ∧ leaderClientAddr m = ae_LeaderClientAddr req.
Proof.
  intros Hr Ht Hle Hacc. unfold accept_leader, a_accept. rewrite (r_term _ _ Hr).
  destruct (Z.ltb_spec (a_term al) (ae_Term req)).
  - destruct (SetTermAndVote_accepted_rep k (ae_Term req) "" _ _ Hr Ht Hacc) as [Hr1 Hacc1].
    destruct (bool_decide (role n = Leader)); split_and!; done.
  - apply accepts_for_S in Hacc. case_bool_decide; split_and!; (done || lia).
Qed.

Lemma check_prev_rep cur req n al :
  log_rep (log n) al → is_u64 (ae_PrevLogIndex req) →
  match check_prev cur req n with
  | None => prev_matches req al = true
  | Some resp => prev_matches req al = false ∧ aer_Term resp = cur ∧ aer_Success resp = false
  end.
Proof.
  intros Hr Hu. unfold check_prev, prev_matches.
  destruct (Z.ltb_spec 0 (ae_PrevLogIndex req)), (Z.eqb_spec (ae_PrevLogIndex req) 0);
    [lia | | done | u64_lia].
  rewrite (TermAt_rep _ _ _ Hr Hu). simpl.
  destruct (a_term_at al (ae_PrevLogIndex req)) as [t|].
  - destruct (Z.eqb_spec t (ae_PrevLogTerm req)) as [->|]; simpl.
    + by rewrite bool_decide_eq_true_2.
    + rewrite bool_decide_eq_false_2 by congruence. done.
  - rewrite bool_decide_eq_false_2 by done. done.
Qed.

(** A matching previous entry is inside the log. *)
Lemma prev_matches_range req al :
  alog_wf al → request_ok req al → prev_matches req al = true → ae_Entries req ≠ [] →
  a_base al ≤ ae_PrevLogIndex req ≤ a_last al.
Proof.
  intros Hwf Hok Hm Hne. unfold prev_matches in Hm.
  pose proof (wf_base _ Hwf). assert (a_base al ≤ a_last al) by (unfold a_last; lia).
  apply orb_true_iff in Hm as [Hz|Hm].
  - apply Z.eqb_eq in Hz. destruct (rq_start _ _ Hok Hz); [done|lia].
  - apply bool_decide_eq_true in Hm. unfold a_term_at in Hm. case_Z; [lia|].
    apply fmap_Some in Hm as (e & He & _). apply entry_at_Some in He. lia.
Qed.

Lemma follow_commit_index c n :
  commitIndex (follow_commit c n) = Z.max (commitIndex n) (Z.min c (lastIndex (log n))).
Proof. unfold follow_commit. repeat case_Z; simpl; lia. Qed.

Lemma AppendEntries_accepted_rep k e0 es sync (pl : PersistentLog E) al :
  log_rep pl al → a_base al < Index e0 ≤ a_last al + 1 → contiguous (Index e0 - 1) (e0 :: es) →
  Index e0 + Z.of_nat (length es) < u64_mod - 1 → Forall encodable (e0 :: es) →
  accepts_for (S k) (engine pl) →
  ∃ pl', AppendEntries (e0 :: es) sync pl = (None, pl') ∧ log_rep pl' (a_append (e0 :: es) al) ∧
    accepts_for k (engine pl').
Proof.
  intros Hr Hi Hc Hb Henc Hacc. destruct (AppendEntries (e0 :: es) sync pl) as [err pl'] eqn:Ha.
  exists pl'. assert (err = None ∧ accepts_for k (engine pl')) as [-> Hk].
  { destruct (set_keys_ok _ Henc) as [ops Hops]. unfold AppendEntries in Ha. rewrite Hops in Ha.
    match type of Ha with context [eng_Commit ?b ?o ?e] => destruct (Hacc b o) as [Hn Hk] end.
    destruct (eng_Commit _ _ _) as [err' e']. simpl in Hn, Hk. subst err'. injection Ha as <- <-.
    rewrite evict_fields. by split. }
  split_and!; [done| |done]. by eapply (AppendEntries_rep pl al e0 es sync None).
Qed.

Lemma append_request_rep req n al :
  log_rep (log n) al → request_ok req al → prev_matches req al = true →
  Forall encodable (ae_Entries req) → accepts_for 1 (engine (log n)) →
  ∃ pl, AppendEntries (ae_Entries req) (FsyncOnAppend (opts n)) (log n) = (None, pl) ∧
    log_rep pl (a_append (ae_Entries req) al).
Proof.
  intros Hr Hok Hm Henc Hacc.
  pose proof (prev_matches_range req al (r_wf _ _ Hr) Hok Hm) as Hrange.
  destruct Hok as [_ _ Hc Hb _]. destruct (ae_Entries req) as [|e0 es]; [by eexists|].
  specialize (Hrange ltac:(done)).
  pose proof (proj1 (proj1 (contiguous_cons _ _ _) Hc)) as He0. simpl in Hb.
  destruct (AppendEntries_accepted_rep 0 e0 es (FsyncOnAppend (opts n)) (log n) al)
    as (pl & Ha & Hr' & _); try done; try lia; [|by exists pl].
  rewrite He0. by replace (ae_PrevLogIndex req + 1 - 1) with (ae_PrevLogIndex req) by lia.
Qed.

(** C12: [HandleAppendEntries] on a storage that accepts its writes.  A request of
    an older term is rejected without effect.  Otherwise the node takes over the
    term and is no candidate; the request succeeds exactly when the previous
    entry matches, and then the log is the prefix up to it followed by the
    request's entries, and the commit index follows the leader's up to the end
    of the log; a rejected request changes neither entries nor commit index. *)
Theorem HandleAppendEntries_spec n al req :
  log_rep (log n) al → request_ok req al → Forall encodable (ae_Entries req) →
  accepts_for 2 (engine (log n)) →
  let '(resp, n') := HandleAppendEntries req n in
  if ae_Term req <? a_term al then resp = mkAEResp (a_term al) false 0 0 ∧ n' = n
  else
    aer_Term resp = ae_Term req ∧ aer_Success resp = prev_matches req al ∧ role n' ≠ Candidate ∧
    let al' := if prev_matches req al then a_append (ae_Entries req) (a_accept req al)
               else a_accept req al in
    log_rep (log n') al' ∧
    commitIndex n' = if prev_matches req al
                     then Z.max (commitIndex n) (Z.min (ae_LeaderCommit req) (a_last al'))
                     else commitIndex n.
Proof.
  intros Hr Hok Henc Hacc. unfold HandleAppendEntries. rewrite (r_term _ _ Hr).
  destruct (Z.ltb_spec (ae_Term req) (a_term al)) as [|Hle]; [done|].
  pose proof (accept_leader_rep 1 req n al Hr (rq_term _ _ Hok) Hle Hacc) as Hal.
  destruct (accept_leader req n) as [cur m]. destruct Hal as (-> & Hr1 & Hacc1 & Hci & Hrole & _).
  pose proof (check_prev_rep (ae_Term req) req m _ Hr1 (rq_prev _ _ Hok)) as Hcp.
  assert (prev_matches req (a_accept req al) = prev_matches req al) as Hpm
    by (unfold a_accept; by case_Z).
  rewrite Hpm in Hcp.
  destruct (check_prev (ae_Term req) req m) as [resp|].
  { destruct Hcp as (-> & Ht & Hs). by split_and!. }
  assert (request_ok req (a_accept req al)) as Hok1.
  { destruct Hok. unfold a_accept. by case_Z; split. }
  destruct (append_request_rep req m _ Hr1 Hok1) as (pl & -> & Hr2);
    [by rewrite Hpm | done | done |].
  rewrite Hcp. split_and!; try done.
  - unfold follow_commit. repeat case_Z; done.
  - unfold follow_commit. repeat case_Z; done.
  - rewrite follow_commit_index. simpl. by rewrite Hci, (r_last _ _ Hr2).
Qed.

(** ** Conflict hints *)

Lemma conflict_start_spec fuel ct idx pl al :
  log_rep pl al → a_base al ≤ idx ≤ a_last al → idx - a_base al ≤ Z.of_nat fuel →
  a_term_at al idx = Some ct →
  let r := conflict_start fuel ct idx pl in
  a_base al ≤ r ≤ idx ∧ (∀ j, r ≤ j ≤ idx → a_term_at al j = Some ct) ∧
  (r ≤ a_base al + 1 ∨ a_term_at al (r - 1) ≠ Some ct).
Proof.
  intros Hr. pose proof (wf_base _ (r_wf _ _ Hr)). pose proof (wf_last _ (r_wf _ _ Hr)).
  revert idx. induction fuel as [|fuel IH]; intros idx Hi Hf Ht; cbn zeta; simpl.
  { split_and!; [lia.. | | lia]. intros j Hj. by replace j with idx by lia. }
  rewrite (r_first _ _ Hr).
  destruct (Z.ltb_spec (a_base al + 1) idx) as [Hlt|Hge].
  2:{ split_and!; [lia.. | | lia]. intros j Hj. by replace j with idx by lia. }
  rewrite u64_small by u64_lia. rewrite (TermAt_rep _ _ _ Hr) by u64_lia.
  assert (∀ j, idx ≤ j ≤ idx → a_term_at al j = Some ct) as Hself
    by (intros j Hj; by replace j with idx by lia).
  destruct (a_term_at al (idx - 1)) as [t|] eqn:Hprev.
  2:{ split_and!; [lia.. | done |]. right. by rewrite Hprev. }
  destruct (Z.eqb_spec t ct) as [->|Hne].
  - destruct (IH (idx - 1)) as (Hb & Hall & Hstop); [lia.. | done |].
    split_and!; [lia.. | | done]. intros j Hj. destruct (Z.eq_dec j idx); [subst; done|]. apply Hall. lia.
  - split_and!; [lia.. | done |]. right. rewrite Hprev. congruence.
Qed.

(** The hint of a rejected request.  When the log is too short the hint is
    the index after its end; when the terms differ it is the first index of the
    run of entries of the conflicting term that ends at the previous index. *)
Theorem check_prev_hint cur req n al resp :
  log_rep (log n) al → is_u64 (ae_PrevLogIndex req) → check_prev cur req n = Some resp →
  match a_term_at al (ae_PrevLogIndex req) with
  | None => resp = mkAEResp cur false 0 (a_last al + 1)
  | Some ct =>
      ct ≠ ae_PrevLogTerm req ∧ aer_ConflictTerm resp = ct ∧ aer_Success resp = false ∧
      let r := aer_ConflictIndex resp in
      a_base al ≤ r ≤ ae_PrevLogIndex req ∧
      (∀ j, r ≤ j ≤ ae_PrevLogIndex req → a_term_at al j = Some ct) ∧
      (r ≤ a_base al + 1 ∨ a_term_at al (r - 1) ≠ Some ct)
  end.
Proof.
  intros Hr Hu Hc. unfold check_prev in Hc. rewrite (TermAt_rep _ _ _ Hr Hu) in Hc.
  pose proof (wf_base _ (r_wf _ _ Hr)). pose proof (wf_last _ (r_wf _ _ Hr)).
  destruct (0 <? ae_PrevLogIndex req); [|done].
  destruct (a_term_at al (ae_PrevLogIndex req)) as [t|] eqn:Ht.
  - destruct (Z.eqb_spec t (ae_PrevLogTerm req)); simpl in Hc; [done|]. injection Hc as <-. simpl.
    do 3 (split; [done|]). apply (conflict_start_spec _ t _ _ al); try done; [|lia].
    unfold a_term_at in Ht. case_Z; [unfold a_last; lia|].
    apply fmap_Some in Ht as (e & He & _). apply entry_at_Some in He. lia.
  - injection Hc as <-. rewrite (r_last _ _ Hr). f_equal. apply u64_small.
    unfold a_last in *. u64_lia.
Qed.

(** The terms of a log never decrease along it. *)
Definition terms_sorted (al : alog) : Prop :=
  ∀ i j e f, i ≤ j → entry_at al i = Some e → entry_at al j = Some f → Term e ≤ Term f.

Lemma find_conflict_spec fuel ct idx pl al :
  log_rep pl al → terms_sorted al → idx ≤ a_last al → idx ≤ Z.of_nat fuel →
  match find_conflict fuel ct idx pl with
  | Some i => i ≤ idx ∧ (∃ e, entry_at al i = Some e ∧ Term e = ct) ∧
      ∀ j e, i < j ≤ idx → entry_at al j = Some e → Term e ≠ ct
  | None => ∀ j e, j ≤ idx → entry_at al j = Some e → Term e ≠ ct
  end.
Proof.
  intros Hr Hs. pose proof (wf_base _ (r_wf _ _ Hr)). pose proof (wf_last _ (r_wf _ _ Hr)).
  revert idx. induction fuel as [|fuel IH]; intros idx Hi Hf; simpl.
  { intros j e Hj He. apply entry_at_Some in He. lia. }
  rewrite (r_first _ _ Hr).
  destruct ((a_base al + 1 <=? idx) && (0 <? idx)) eqn:Hb.
  2:{ intros j e Hj He. apply entry_at_Some in He. apply andb_false_iff in Hb. lia. }
  apply andb_true_iff in Hb as [Hb _]. apply Z.leb_le in Hb.
  rewrite (TermAt_rep _ _ _ Hr) by u64_lia. unfold a_term_at.
  destruct (Z.eqb_spec idx (a_base al)); [lia|].
  destruct (entry_at_is_Some al idx) as [_ [e He]]; [lia|]. rewrite He. simpl.
  destruct (Z.eqb_spec (Term e) ct) as [Het|Hne].
  { split_and!; [lia | eauto |]. intros; lia. }
  destruct (Z.ltb_spec (Term e) ct).
  { intros j f Hj Hfj. pose proof (Hs j idx f e Hj Hfj He). lia. }
  rewrite u64_small by u64_lia. specialize (IH (idx - 1) ltac:(lia) ltac:(lia)).
  destruct (find_conflict fuel ct (idx - 1) pl) as [i|].
  - destruct IH as (Hle & Hex & Hall). split_and!; [lia | done |].
    intros j f Hj Hfj. destruct (Z.eq_dec j idx) as [->|]; [congruence|]. apply (Hall j f); [lia|done].
  - intros j f Hj Hfj. destruct (Z.eq_dec j idx) as [->|]; [congruence|]. apply (IH j f); [lia|done].
Qed.

(** Fast backtracking.  On a conflict of term [ct] the leader continues right
    after its own last entry of that term, if it has one, and otherwise at the
    follower's conflict index, but never below 1. *)
Theorem conflict_next_spec resp pl al :
  log_rep pl al → terms_sorted al →
  (∃ i e, entry_at al i = Some e ∧ Term e = aer_ConflictTerm resp ∧
    (∀ j f, i < j → entry_at al j = Some f → Term f ≠ aer_ConflictTerm resp) ∧
    conflict_next resp pl = i + 1) ∨
  ((∀ j f, entry_at al j = Some f → Term f ≠ aer_ConflictTerm resp) ∧
    conflict_next resp pl = Z.max 1 (aer_ConflictIndex resp)).
Proof.
  intros Hr Hs. unfold conflict_next. rewrite (r_last _ _ Hr).
  pose proof (wf_base _ (r_wf _ _ Hr)). pose proof (wf_last _ (r_wf _ _ Hr)).
  assert (a_base al ≤ a_last al) by (unfold a_last; lia).
  pose proof (find_conflict_spec (Z.to_nat (a_last al)) (aer_ConflictTerm resp) (a_last al) pl al
    Hr Hs ltac:(lia) ltac:(lia)) as Hf.
  destruct (find_conflict _ _ _ _) as [i|].
  - left. destruct Hf as (Hi & (e & He & Ht) & Hall). pose proof (entry_at_Some _ _ _ He).
    exists i, e. split_and!; [done | done | |].
    + intros j f Hj Hfj. pose proof (entry_at_Some _ _ _ Hfj). apply (Hall j f); [lia|done].
    + rewrite u64_small by u64_lia. case_Z; lia.
  - right. split; [|case_Z; lia]. intros j f Hfj. pose proof (entry_at_Some _ _ _ Hfj).
    apply (Hf j f); [lia|done].
Qed.

(** ** One replication round *)

Lemma a_slice_lookup from to al j :
  a_base al < from → from + Z.of_nat j ≤ to →
  a_slice from to al !! j = entry_at al (from + Z.of_nat j).
Proof.
  intros Hf Hj. unfold a_slice, entry_at. case_Z; [lia|].
  rewrite lookup_take_lt, lookup_drop by lia. f_equal. lia.
Qed.

Lemma a_slice_length from to al :
  a_base al < from → from ≤ to ≤ a_last al → Z.of_nat (length (a_slice from to al)) = to - from + 1.
Proof. intros. unfold a_slice, a_last in *. rewrite length_take, length_drop. lia. Qed.

Lemma entry_at_encodable pl al i e : log_rep pl al → entry_at al i = Some e → encodable e.
Proof.
  intros Hr He. pose proof (entry_at_Some _ _ _ He).
  pose proof (wf_base _ (r_wf _ _ Hr)). pose proof (wf_last _ (r_wf _ _ Hr)).
  pose proof (d_entries _ _ (r_disk _ _ Hr) i ltac:(u64_lia)) as Hst. rewrite He in Hst.
  destruct Hst as (b & Hb & _). unfold encodable. by rewrite Hb.
Qed.

(** What the leader sends: entries of its own log from [nextIndex] on, not more
    than the batch limit, with the term of the entry before them. *)
Lemma replicate_prepare_rep peer term n al req :
  log_rep (log n) al → is_u64 (next_of peer n) →
  replicate_prepare peer term n = SendAppend req →
  ae_Term req = term ∧ ae_PrevLogIndex req = next_of peer n - 1 ∧
  a_base al ≤ ae_PrevLogIndex req ≤ a_last al ∧
  a_term_at al (ae_PrevLogIndex req) = Some (ae_PrevLogTerm req) ∧
  ae_PrevLogIndex req + Z.of_nat (length (ae_Entries req)) ≤ a_last al ∧
  ∀ j, (j < length (ae_Entries req))%nat →
    ae_Entries req !! j = entry_at al (ae_PrevLogIndex req + 1 + Z.of_nat j).
Proof.
  intros Hr Hu Hp. unfold replicate_prepare in Hp.
  pose proof (wf_base _ (r_wf _ _ Hr)). pose proof (wf_last _ (r_wf _ _ Hr)).
  destruct (negb (leads term n)); [done|]. rewrite (r_first _ _ Hr) in Hp.
  set (nx := next_of peer n) in *. destruct (Z.ltb_spec nx (a_base al + 1)) as [|Hnx]; [done|].
  rewrite u64_small in Hp by u64_lia. rewrite (TermAt_rep _ _ _ Hr) in Hp by u64_lia.
  assert (a_term_at al (nx - 1) = None → nx - 1 ≠ 0 ∨ a_base al ≠ 0) as Hzero.
  { unfold a_term_at. case_Z; [done|]. lia. }
  destruct (a_term_at al (nx - 1)) as [t|] eqn:Ht.
  2:{ rewrite bool_decide_eq_true_2 in Hp by done. destruct (Z.eqb_spec (nx - 1) 0); [|done].
      destruct (Hzero eq_refl); lia. }
  rewrite bool_decide_eq_false_2 in Hp by done. simpl in Hp.
  assert (nx - 1 ≤ a_last al) as Hlast.
  { unfold a_term_at in Ht. case_Z; [unfold a_last; lia|].
    apply fmap_Some in Ht as (e & He & _). apply entry_at_Some in He. lia. }
  rewrite (r_last _ _ Hr) in Hp. destruct (Z.leb_spec nx (a_last al)) as [Hle|Hgt].
  2:{ injection Hp as <-. simpl. split_and!; (done || lia). }
  set (mb := u64 (ReplicationBatchMaxEntries (opts n))) in *.
  assert (is_u64 mb) as Hmb by apply u64_range.
  set (e := batch_end nx (a_last al) mb) in *.
  assert (nx ≤ e ≤ a_last al) as He.
  { unfold e, batch_end. destruct ((0 <? mb) && _) eqn:Hb; [|lia].
    apply andb_true_iff in Hb as [Hb1 Hb2]. rewrite (u64_small (a_last al - nx)) in Hb2 by u64_lia.
    rewrite u64_small in Hb2 by u64_lia. rewrite (u64_small (nx + mb)), u64_small by u64_lia. lia. }
  pose proof (read_all_ok (log n) al nx (Z.to_nat (e - nx + 1)) Hr ltac:(lia) ltac:(lia)) as Hread.
  rewrite Z2Nat.id in Hread by lia.
  unfold Range, upto in Hp. destruct (Z.ltb_spec e nx); [lia|]. rewrite Hread in Hp.
  injection Hp as <-. change (take _ _) with (a_slice nx e al). simpl.
  pose proof (a_slice_length nx e al ltac:(lia) He) as Hlen.
  split_and!; try (done || lia). intros j Hj. rewrite a_slice_lookup by lia. f_equal. lia.
Qed.

(** Two logs hold the same entries up to [k], where both still have them. *)
Definition agree (k : Z) (al fl : alog) : Prop :=
  ∀ i, a_base al < i → a_base fl < i → i ≤ k → entry_at fl i = entry_at al i.

Lemma request_ok_prepared peer term n al fl req :
  log_rep (log n) al → is_u64 (next_of peer n) → is_u64 term →
  replicate_prepare peer term n = SendAppend req →
  (ae_PrevLogIndex req = 0 → a_base fl = 0) →
  request_ok req fl ∧ Forall encodable (ae_Entries req).
Proof.
  intros Hr Hu Htu Hp Hz.
  destruct (replicate_prepare_rep _ _ _ _ _ Hr Hu Hp) as (Ht & Hprev & Hrange & _ & Hlen & Hes).
  pose proof (wf_base _ (r_wf _ _ Hr)). pose proof (wf_last _ (r_wf _ _ Hr)).
  split; [split|].
  - congruence.
  - u64_lia.
  - intros j e Hj. pose proof (lookup_lt_Some _ _ _ Hj). rewrite Hes in Hj by done.
    by rewrite (entry_at_Index _ _ _ (r_wf _ _ Hr) Hj).
  - lia.
  - auto.
  - apply Forall_lookup. intros j e Hj. pose proof (lookup_lt_Some _ _ _ Hj).
    rewrite Hes in Hj by done. by eapply entry_at_encodable.
Qed.

Lemma agree_append al fl req :
  alog_wf al → a_base fl ≤ ae_PrevLogIndex req ≤ a_last fl →
  contiguous (ae_PrevLogIndex req) (ae_Entries req) →
  (∀ j, (j < length (ae_Entries req))%nat →
    ae_Entries req !! j = entry_at al (ae_PrevLogIndex req + 1 + Z.of_nat j)) →
  agree (ae_PrevLogIndex req) al fl →
  agree (ae_PrevLogIndex req + Z.of_nat (length (ae_Entries req))) al (a_append (ae_Entries req) fl).
Proof.
  intros Hwf Hrange Hc Hes Hag i Hia Hif Hi.
  destruct (ae_Entries req) as [|e0 es]; [simpl in *; apply Hag; (done || lia)|].
  apply contiguous_cons in Hc as [He0 _]. cbn [a_append a_base] in Hif.
  rewrite entry_at_append by lia. destruct (Z.ltb_spec i (Index e0)); [apply Hag; (done || lia)|].
  rewrite Hes by (simpl in *; lia). f_equal. lia.
Qed.

(** C13: A successful replication round.  If the leader's batch is accepted by the
    follower, then the follower's log holds the leader's entries up to the end
    of the batch wherever the two logs agreed before it, and the index that the
    leader records for the peer is exactly the end of the batch. *)
Theorem replication_round n al m fl peer term req :
  log_rep (log n) al → log_rep (log m) fl → is_u64 (next_of peer n) → is_u64 term →
  replicate_prepare peer term n = SendAppend req →
  (ae_PrevLogIndex req = 0 → a_base fl = 0) → accepts_for 2 (engine (log m)) →
  agree (ae_PrevLogIndex req) al fl →
  let '(resp, m') := HandleAppendEntries req m in
  let n' := replicate_reply peer term req (Ok resp) n in
  let sent_to := ae_PrevLogIndex req + Z.of_nat (length (ae_Entries req)) in
  aer_Success resp = true →
  (∃ fl', log_rep (log m') fl' ∧ agree sent_to al fl') ∧
  (ae_Entries req ≠ [] → match_of peer n' = sent_to ∧ next_of peer n' = sent_to + 1).
Proof.
  intros Hr Hrf Hu Htu Hp Hz Hacc Hag.
  destruct (request_ok_prepared _ _ _ _ _ _ Hr Hu Htu Hp Hz) as [Hok Henc].
  destruct (replicate_prepare_rep _ _ _ _ _ Hr Hu Hp) as (Ht & Hprev & Hrange & Hpt & Hlen & Hes).
  pose proof (HandleAppendEntries_spec m fl req Hrf Hok Henc Hacc) as Hspec.
  destruct (HandleAppendEntries req m) as [resp m'].
  destruct (Z.ltb_spec (ae_Term req) (a_term fl)) as [|Hge]; [by destruct Hspec as [-> _]|].
  destruct Hspec as (Hrt & Hsucc & _ & Hrep & _). cbn zeta. intros Hs.
  rewrite Hs in Hsucc. rewrite <-Hsucc in Hrep. split.
  - eexists. split; [exact Hrep|].
    assert (∀ k, agree k al fl → agree k al (a_accept req fl)) as Hacc_ag
      by (unfold a_accept; by case_Z).
    destruct (ae_Entries req) as [|e0 es] eqn:Hent.
    + simpl. rewrite Z.add_0_r. by apply Hacc_ag.
    + rewrite <-Hent in *. apply agree_append; auto; [apply Hr| |apply Hok].
      assert (a_base (a_accept req fl) = a_base fl ∧ a_last (a_accept req fl) = a_last fl) as [-> ->]
        by (unfold a_accept; by case_Z).
      apply (prev_matches_range req fl); [apply Hrf | done | done | by rewrite Hent].
  - intros Hne. unfold replicate_reply. rewrite Hrt, Ht, Z.ltb_irrefl, Hs.
    assert (leads term n = true) as Hl.
    { unfold replicate_prepare in Hp. by destruct (leads term n). }
    rewrite Hl. simpl.
    destruct (last (ae_Entries req)) as [e|] eqn:Hlast; [|by apply last_None in Hlast].
    rewrite last_lookup in Hlast.
    assert (Index e = ae_PrevLogIndex req + Z.of_nat (length (ae_Entries req))) as Hie.
    { rewrite (rq_contiguous _ _ Hok _ _ Hlast).
      assert (length (ae_Entries req) ≠ 0%nat) by (by intros ?%nil_length_inv). lia. }
    pose proof (wf_base _ (r_wf _ _ Hr)). pose proof (wf_last _ (r_wf _ _ Hr)).
    unfold match_of, next_of. simpl. rewrite !lookup_insert_eq. simpl. rewrite Hie.
    split; [done|]. apply u64_small. u64_lia.
Qed.

(** C37: A heartbeat without entries makes a follower commit entries that were
    never compared with the leader's.  The commit index follows the leader's up
    to the end of the follower's own log, not up to the previous index that the
    request has checked; an entry above that index that differs from the
    leader's committed one is then committed by the follower. *)
Theorem heartbeat_commits_conflicting_entry n al m fl req :
  log_rep (log n) al → log_rep (log m) fl → request_ok req fl → accepts_for 2 (engine (log m)) →
  ae_Entries req = [] → ae_LeaderCommit req = commitIndex n → prev_matches req fl = true →
  a_term fl ≤ ae_Term req →
  ae_PrevLogIndex req < commitIndex n ≤ a_last fl → commitIndex m < commitIndex n →
  entry_at fl (commitIndex n) ≠ entry_at al (commitIndex n) →
  let '(resp, m') := HandleAppendEntries req m in
  aer_Success resp = true ∧ commitIndex m' = commitIndex n ∧
  ∃ fl', log_rep (log m') fl' ∧ entry_at fl' (commitIndex m') ≠ entry_at al (commitIndex n).
Proof.
  intros Hr Hrf Hok Hacc Hent Hlc Hpm Hle Hrange Hc Hne.
  pose proof (HandleAppendEntries_spec m fl req Hrf Hok) as Hspec. rewrite Hent in Hspec.
  specialize (Hspec ltac:(constructor) Hacc). destruct (HandleAppendEntries req m) as [resp m'].
  destruct (Z.ltb_spec (ae_Term req) (a_term fl)); [lia|].
  rewrite Hpm in Hspec. destruct Hspec as (_ & Hs & _ & Hrep & Hci). simpl in Hrep, Hci.
  assert (a_last (a_accept req fl) = a_last fl ∧
    ∀ i, entry_at (a_accept req fl) i = entry_at fl i) as [Hla Hea] by (unfold a_accept; by case_Z).
  assert (commitIndex m' = commitIndex n) as Heq by (rewrite Hci, Hlc, Hla; lia).
  split_and!; [done..|]. eexists. split; [exact Hrep|]. by rewrite Heq, Hea.
Qed.

(** A late request for the first entries of the log, handled by a node that
    has compacted them, is accepted: there is no check against the snapshot
    boundary when the previous index is 0.  The end of the log then lies below
    the boundary. *)
Theorem stale_request_breaks_compacted_log n req e0 es pl :
  ae_PrevLogIndex req = 0 → ae_Entries req = e0 :: es → ae_Term req = currentTerm (log n) →
  Index (List.last (e0 :: es) e0) < lastIncludedIndex (log n) →
  AppendEntries (e0 :: es) (FsyncOnAppend (opts n)) (log n) = (None, pl) →
  let '(resp, n') := HandleAppendEntries req n in
  aer_Success resp = true ∧ lastIndex (log n') < lastIncludedIndex (log n').
Proof.
  intros Hprev Hent Ht Hlast Happ. unfold HandleAppendEntries, accept_leader.
  rewrite Ht, !Z.ltb_irrefl.
  assert (∀ m, log m = log n → opts m = opts n →
    let '(resp, n') :=
      match check_prev (currentTerm (log n)) req m with
      | Some resp => (resp, m)
      | None =>
          let '(err, pl) := AppendEntries (ae_Entries req) (FsyncOnAppend (opts m)) (log m) in
          let m := with_log pl m in
          match err with
          | Some _ => (mkAEResp (currentTerm (log n)) false 0 0, m)
          | None => (mkAEResp (currentTerm (log n)) true 0 0, follow_commit (ae_LeaderCommit req) m)
          end
      end in
    aer_Success resp = true ∧ lastIndex (log n') < lastIncludedIndex (log n')) as Hrest.
  { intros m Hl Ho. unfold check_prev. rewrite Hprev. simpl. rewrite Hent, Hl, Ho, Happ. simpl.
    split; [done|].
    assert (log (follow_commit (ae_LeaderCommit req) (with_log pl m)) = pl) as ->
      by (unfold follow_commit; by repeat case_Z).
    unfold AppendEntries in Happ. destruct (set_keys (e0 :: es)); [|done].
    destruct (eng_Commit _ _ _) as [[|] e]; [done|]. injection Happ as <-.
    rewrite evict_fields. exact Hlast. }
  case_bool_decide; by apply Hrest.
Qed.

End replication_theorems.

(** ** Witnesses *)

Import Gob.

Definition entries_of (pl : PersistentLog MemEngine) (es : list Entry) : PersistentLog MemEngine :=
  (AppendEntries es true pl).2.

(** A node of a three-node cluster with the given log, role and indices. *)
Definition node_with (id : string) (ps : list string) (pl : PersistentLog MemEngine) (r : Role)
    (commit : Z) (next match_ : gmap string Z) : Node MemEngine MemEngine :=
  mkNode id ps demo_options pl (NewStateMachine mem_new) (mkFS ∅ []) r commit 0 next match_
    "" "" "" false false [] ∅ ∅ ∅ 0%nat.

Definition in_term (t : Z) (v : string) : PersistentLog MemEngine := (SetTermAndVote t v empty_log).2.

Lemma in_term_rep t v : is_u64 t → log_rep (in_term t v) (mkALog 0 0 [] t v).
Proof.
  intros Ht. apply (SetTermAndVote_rep empty_log fresh_alog t v None);
    [exact empty_log_rep | done | reflexivity].
Qed.

Lemma entries_of_rep t v e0 es :
  is_u64 t → contiguousb 0 (e0 :: es) = true → Z.of_nat (length es) < 1000 →
  (AppendEntries (e0 :: es) true (in_term t v)).1 = None →
  log_rep (entries_of (in_term t v) (e0 :: es)) (mkALog 0 0 (e0 :: es) t v).
Proof.
  intros Ht Hc Hlen Hok. apply contiguousb_sound in Hc.
  pose proof (proj1 (proj1 (contiguous_cons _ _ _) Hc)) as He0.
  unfold entries_of. destruct (AppendEntries _ _ _) as [err pl] eqn:Ha. simpl in Hok. subst err.
  assert (mkALog 0 0 (e0 :: es) t v = after None fresh_alog (a_append (e0 :: es) (mkALog 0 0 [] t v)))
    as -> by (simpl; by rewrite take_nil).
  apply (AppendEntries_rep (in_term t v) (mkALog 0 0 [] t v) e0 es true None pl (in_term_rep t v Ht));
    rewrite ?He0; [unfold a_last; simpl; lia | exact Hc | unfold u64_mod; lia | exact Ha].
Qed.

Definition leader_node : Node MemEngine MemEngine :=
  node_with "n1" ["n2"; "n3"] (entries_of (in_term 2 "n1") demo_entries) Leader 0
    (<["n2" := 2]> {["n3" := 4]}) (<["n2" := 0]> {["n3" := 3]}).

Definition leader_alog : alog := mkALog 0 0 demo_entries 2 "n1".

(** The follower has the first entry and a conflicting second one. *)
Definition follower_entries : list Entry :=
  [put_entry 1 1 "a" (bytes_of "1"); put_entry 2 1 "z" (bytes_of "9")].

Definition follower_node : Node MemEngine MemEngine :=
  node_with "n2" ["n1"; "n3"] (entries_of (in_term 1 "") follower_entries) Follower 0 ∅ ∅.

Definition follower_alog : alog := mkALog 0 0 follower_entries 1 "".

Lemma leader_node_rep : log_rep (log leader_node) leader_alog.
Proof. apply entries_of_rep; [by vm_compute | reflexivity | simpl; lia | vm_compute; reflexivity]. Qed.

Lemma follower_node_rep : log_rep (log follower_node) follower_alog.
Proof. apply entries_of_rep; [by vm_compute | reflexivity | simpl; lia | vm_compute; reflexivity]. Qed.

Lemma tryAdvanceCommitIndex_spec_witness :
  Forall is_u64 (match_indexes leader_node) ∧
  commitIndex (tryAdvanceCommitIndex 2 leader_node) = 3 ∧
  2 ≤ count_ge 3 (match_indexes leader_node).
Proof.
  assert (Forall is_u64 (match_indexes leader_node)) as Hu
    by (repeat constructor; vm_compute; discriminate || reflexivity).
  destruct (tryAdvanceCommitIndex_spec leader_node leader_alog 2 leader_node_rep Hu) as (_ & Hm & _).
  assert (commitIndex (tryAdvanceCommitIndex 2 leader_node) = 3) as Hc by (vm_compute; reflexivity).
  rewrite Hc in Hm. split; [exact Hu|]. split; [exact Hc|].
  destruct Hm as (_ & _ & Hq); [discriminate | exact Hq].
Defined.

Definition batch_request : AppendEntriesRequest :=
  mkAEReq 2 "n1" 1 1 [put_entry 2 1 "b" (bytes_of "2"); put_entry 3 2 "c" []] 0 "".

Lemma batch_request_ok : request_ok batch_request follower_alog.
Proof.
  split; [by vm_compute | by vm_compute | by apply contiguousb_sound | by vm_compute | discriminate].
Qed.

Lemma HandleAppendEntries_spec_witness :
  let '(resp, m') := HandleAppendEntries batch_request follower_node in
  aer_Success resp = true ∧
  log_rep (log m') (a_append (ae_Entries batch_request) (a_set_term_vote 2 "" follower_alog)).
Proof.
  pose proof (HandleAppendEntries_spec follower_node follower_alog batch_request) as Hs.
  destruct (HandleAppendEntries batch_request follower_node) as [resp m'].
  destruct Hs as (_ & Hok & _ & Hr & _);
    [exact follower_node_rep | exact batch_request_ok | repeat constructor
    | apply mem_accepts_for; vm_compute; reflexivity |].
  split; [exact Hok | exact Hr].
Defined.

Lemma check_prev_hint_witness :
  let req := mkAEReq 2 "n1" 2 2 [] 0 "" in
  ∃ resp, check_prev 2 req follower_node = Some resp ∧ aer_ConflictTerm resp = 1.
Proof.
  cbn zeta. eexists. split; [vm_compute; reflexivity|].
  pose proof (check_prev_hint 2 (mkAEReq 2 "n1" 2 2 [] 0 "") follower_node follower_alog
    (mkAEResp 2 false 1 1)) as Hh.
  destruct Hh as (_ & Ht & _); [exact follower_node_rep | by vm_compute | vm_compute; reflexivity |].
  exact Ht.
Defined.

Lemma leader_terms_sorted : terms_sorted leader_alog.
Proof.
  intros i j e f Hij He Hf. pose proof (entry_at_Some _ _ _ He) as Hi.
  pose proof (entry_at_Some _ _ _ Hf) as Hj. unfold a_last in Hi, Hj. simpl in Hi, Hj.
  assert ((i = 1 ∨ i = 2 ∨ i = 3) ∧ (j = 1 ∨ j = 2 ∨ j = 3)) as [Hi' Hj'] by lia.
  destruct Hi' as [->|[->| ->]], Hj' as [->|[->| ->]]; try lia;
    injection He as <-; injection Hf as <-; simpl; lia.
Qed.

Lemma conflict_next_spec_witness :
  terms_sorted leader_alog ∧ conflict_next (mkAEResp 2 false 1 1) (log leader_node) = 3.
Proof.
  split; [exact leader_terms_sorted|].
  destruct (conflict_next_spec (mkAEResp 2 false 1 1) (log leader_node) leader_alog
    leader_node_rep leader_terms_sorted) as [(i & e & He & Ht & Hall & Hn)|[Hnone _]].
  - rewrite Hn. pose proof (entry_at_Some _ _ _ He) as Hi. unfold a_last in Hi. simpl in Hi.
    assert (i = 1 ∨ i = 2 ∨ i = 3) as [->|[->| ->]] by lia; [|lia|].
    + exfalso. eapply (Hall 2); [lia | reflexivity | reflexivity].
    + injection He as <-. simpl in Ht. lia.
  - exfalso. eapply (Hnone 1); reflexivity.
Defined.

Lemma replication_round_witness :
  replicate_prepare "n2" 2 leader_node =
    SendAppend (mkAEReq 2 "n1" 1 1 (ae_Entries batch_request) 0 "") ∧
  let '(resp, m') := HandleAppendEntries (mkAEReq 2 "n1" 1 1 (ae_Entries batch_request) 0 "") follower_node in
  ∃ fl', log_rep (log m') fl' ∧ agree 3 leader_alog fl'.
Proof.
  assert (replicate_prepare "n2" 2 leader_node =
    SendAppend (mkAEReq 2 "n1" 1 1 (ae_Entries batch_request) 0 "")) as Hp by (vm_compute; reflexivity).
  split; [exact Hp|].
  assert (aer_Success (HandleAppendEntries (mkAEReq 2 "n1" 1 1 (ae_Entries batch_request) 0 "")
    follower_node).1 = true) as Hok by (vm_compute; reflexivity).
  pose proof (replication_round leader_node leader_alog follower_node follower_alog "n2" 2
    (mkAEReq 2 "n1" 1 1 (ae_Entries batch_request) 0 "")) as Hr.
  destruct (HandleAppendEntries _ follower_node) as [resp m'].
  destruct Hr as [Hag _]; [exact leader_node_rep | exact follower_node_rep | by vm_compute
    | by vm_compute | exact Hp | discriminate | apply mem_accepts_for; vm_compute; reflexivity
    | | exact Hok | exact Hag].
  intros i Hi _ Hle. simpl in Hi, Hle. assert (i = 1) as -> by lia. reflexivity.
Defined.

(** The leader has committed its own second entry; the heartbeat of a
    linearizable read checks only the first one. *)
Lemma heartbeat_commits_conflicting_entry_witness :
  confirm_request "n2" 2 (with_commitIndex 2 leader_node) = mkAEReq 2 "n1" 1 1 [] 2 "" ∧
  let '(resp, m') := HandleAppendEntries (mkAEReq 2 "n1" 1 1 [] 2 "") follower_node in
  aer_Success resp = true ∧ commitIndex m' = 2 ∧
  ∃ fl', log_rep (log m') fl' ∧ entry_at fl' (commitIndex m') ≠ entry_at leader_alog 2.
Proof.
  split; [vm_compute; reflexivity|].
  pose proof (heartbeat_commits_conflicting_entry (with_commitIndex 2 leader_node) leader_alog
    follower_node follower_alog (mkAEReq 2 "n1" 1 1 [] 2 "")) as Hh.
  destruct (HandleAppendEntries _ follower_node) as [resp m'].
  apply Hh; [exact leader_node_rep | exact follower_node_rep | | apply mem_accepts_for; vm_compute; reflexivity
    | reflexivity | reflexivity | vm_compute; reflexivity | vm_compute; discriminate
    | vm_compute; split; [reflexivity | discriminate] | vm_compute; reflexivity | vm_compute; discriminate].
  split; [by vm_compute | by vm_compute | by apply contiguousb_sound | by vm_compute | discriminate].
Defined.

Definition compacted_node : Node MemEngine MemEngine :=
  with_log (CompactPrefix 3 2 (log leader_node)).2 (with_role Follower leader_node).

Lemma stale_request_breaks_compacted_log_witness :
  let req := mkAEReq 2 "n3" 0 0 [put_entry 1 1 "a" (bytes_of "1")] 0 "" in
  let '(resp, n') := HandleAppendEntries req compacted_node in
  aer_Success resp = true ∧ lastIndex (log n') < lastIncludedIndex (log n').
Proof.
  cbn zeta.
  apply (stale_request_breaks_compacted_log compacted_node
    (mkAEReq 2 "n3" 0 0 [put_entry 1 1 "a" (bytes_of "1")] 0 "") (put_entry 1 1 "a" (bytes_of "1")) []
    (AppendEntries [put_entry 1 1 "a" (bytes_of "1")] true (log compacted_node)).2);
    vm_compute; reflexivity.
Defined.
