(* ===== verification/LogMatching.v ===== *)
(** * Log matching, with compaction, snapshots, restarts and failing writes.

    The history of a cluster gives every term the log of its leader.  The
    invariant says that every prefix of every log is a prefix of the leader's log
    of the term in which the prefix ends; that requests carry slices of these
    logs, and snapshots points of them; and that the log of a leader is the one
    of its term.  Log matching follows. *)

From S2P Require Import Prelude Bytes Storage Codec Log LogSpec LogTheorems FullLog StateMachine.
From S2P Require Import SnapshotStore Node Election Replication Apply Client ElectionTheorems.
From S2P Require Import VoteSafety ElectionSafety ReplicationTheorems Network.
Import KV.

(** The log of the leader of each term. *)
Abbreviation history := (gmap Z (list Entry)).

Definition log_ok (LL : history) (l : list Entry) : Prop :=
  contiguous 0 l ∧
  ∀ k e, l !! k = Some e → ∃ L, LL !! Term e = Some L ∧ take (S k) l `prefix_of` L.

(** Leaders only append to their logs. *)
Definition grows (LL LL' : history) : Prop :=
  ∀ t L, LL !! t = Some L → ∃ L', LL' !! t = Some L' ∧ L `prefix_of` L'.

(** Index [k] with term [t] is a point of the leader's log of [t]. *)
Definition registered (LL : history) (k t : Z) : Prop :=
  ∃ L, LL !! t = Some L ∧ 0 < k ≤ Z.of_nat (length L) ∧ term_of L k = t.

Definition hist_ok (LL : history) : Prop :=
  ∀ t L, LL !! t = Some L →
    0 < t < u64_mod ∧ log_ok LL L ∧ Z.of_nat (length L) < u64_mod - 1.

(** ** Logs of a history *)

Lemma grows_refl LL : grows LL LL.
Proof. intros t L. eauto. Qed.

Lemma prefix_take_le {A} (l1 l2 : list A) k :
  l1 `prefix_of` l2 → (k ≤ length l1)%nat → take k l2 = take k l1.
Proof. intros [r ->] Hk. by rewrite take_app_le. Qed.

Lemma log_ok_nil LL : log_ok LL [].
Proof. split; by intros ? ? ?. Qed.

Lemma log_ok_prefix LL l1 l2 : l1 `prefix_of` l2 → log_ok LL l2 → log_ok LL l1.
Proof.
  intros Hp [Hc Hm]. split; [by eapply contiguous_prefix|]. intros k e He.
  pose proof (lookup_lt_Some _ _ _ He). destruct (Hm k e) as (L & HL & Hpre).
  - by eapply prefix_lookup_Some.
  - exists L. split; [done|]. by rewrite (prefix_take_le l1 l2) in Hpre by (done || lia).
Qed.

Lemma log_ok_grows LL LL' l : grows LL LL' → log_ok LL l → log_ok LL' l.
Proof.
  intros Hg [Hc Hm]. split; [done|]. intros k e He. destruct (Hm k e He) as (L & HL & Hp).
  destruct (Hg _ _ HL) as (L' & HL' & Hp'). exists L'. split; [done|]. by etrans.
Qed.

Lemma log_ok_snoc LL l e :
  log_ok LL l → Index e = Z.of_nat (length l) + 1 → LL !! Term e = Some (l ++ [e]) →
  log_ok LL (l ++ [e]).
Proof.
  intros [Hc Hm] Hi HL. split.
  { apply contiguous_app; [done|]. apply contiguous_cons. split; [lia|]. by intros ? ? ?. }
  intros k e' He. pose proof (lookup_lt_Some _ _ _ He) as Hlt. rewrite length_app in Hlt. simpl in Hlt.
  apply lookup_app_Some in He as [He|[Hk He]].
  - destruct (Hm k e' He) as (L & HL' & Hp). apply lookup_lt_Some in He.
    exists L. by rewrite take_app_le by lia.
  - assert (k = length l) as -> by lia. rewrite Nat.sub_diag in He. injection He as <-.
    exists (l ++ [e]). split; [done|]. apply prefix_take.
Qed.

(** Two logs of the same history agree up to an entry of the same term. *)
Lemma log_ok_agree LL l1 l2 k e1 e2 :
  log_ok LL l1 → log_ok LL l2 → l1 !! k = Some e1 → l2 !! k = Some e2 → Term e1 = Term e2 →
  take (S k) l1 = take (S k) l2.
Proof.
  intros [_ H1] [_ H2] He1 He2 Ht.
  destruct (H1 k e1 He1) as (L1 & HL1 & Hp1). destruct (H2 k e2 He2) as (L2 & HL2 & Hp2).
  rewrite Ht, HL2 in HL1. injection HL1 as <-.
  apply lookup_lt_Some in He1, He2.
  pose proof (prefix_take_le _ _ (S k) Hp1) as Ht1. pose proof (prefix_take_le _ _ (S k) Hp2) as Ht2.
  rewrite length_take, take_take, Nat.min_id in Ht1, Ht2.
  rewrite <-Ht1, <-Ht2 by lia. done.
Qed.

Lemma log_ok_agree_index LL l1 l2 k :
  log_ok LL l1 → log_ok LL l2 → 0 < k ≤ Z.of_nat (length l1) → k ≤ Z.of_nat (length l2) →
  term_of l1 k = term_of l2 k → take (Z.to_nat k) l1 = take (Z.to_nat k) l2.
Proof.
  intros H1 H2 Hk Hk2 Ht.
  destruct (lookup_index l1 k) as (e1 & He1 & Ht1); [lia|].
  destruct (lookup_index l2 k) as (e2 & He2 & Ht2); [lia|].
  replace (Z.to_nat k) with (S (Z.to_nat (k - 1))) by lia.
  eapply log_ok_agree; try done. congruence.
Qed.

Lemma registered_grows LL LL' k t : grows LL LL' → registered LL k t → registered LL' k t.
Proof.
  intros Hg (L & HL & Hk & Ht). destruct (Hg _ _ HL) as (L' & HL' & Hp). exists L'.
  pose proof (prefix_length _ _ Hp). split_and!; [done | lia | lia |].
  rewrite (term_of_prefix _ _ _ Hp) by lia. done.
Qed.

Lemma log_ok_registered LL l k :
  log_ok LL l → 0 < k ≤ Z.of_nat (length l) → registered LL k (term_of l k).
Proof.
  intros [_ Hm] Hk. destruct (lookup_index l k Hk) as (e & He & Ht).
  destruct (Hm _ _ He) as (L & HL & Hp). rewrite Ht. exists L.
  replace (S (Z.to_nat (k - 1))) with (Z.to_nat k) in Hp by lia.
  pose proof (prefix_length _ _ Hp) as Hlen. rewrite length_take in Hlen.
  split_and!; [done | lia | lia |]. rewrite <-Ht, (term_of_prefix _ _ _ Hp) by (rewrite length_take; lia).
  symmetry. apply term_of_prefix; [apply prefix_take|]. rewrite length_take. lia.
Qed.

(** The log up to a registered point. *)
Lemma registered_log LL k t :
  hist_ok LL → registered LL k t →
  ∃ l, log_ok LL l ∧ k = Z.of_nat (length l) ∧ t = term_of l k ∧ is_u64 t ∧ k < u64_mod - 1.
Proof.
  intros Hh (L & HL & Hk & Ht). destruct (Hh _ _ HL) as (Hu & Hok & Hlen).
  exists (take (Z.to_nat k) L). pose proof (length_take L (Z.to_nat k)).
  split; [|split; [lia|split; [|split; [u64_lia|lia]]]].
  - eapply log_ok_prefix; [apply prefix_take|done].
  - rewrite <-Ht. apply term_of_prefix; [apply prefix_take|lia].
Qed.

Section matching.
Context {E K : Type} `{EngineSpec E} `{Engine K} `{CodecSpec Entry}
  `{CodecSpec (gmap string bytes)} `{CodecSpec SnapshotMeta}.
Implicit Types (n m : Node E K) (l : list Entry) (LL : history).

(** ** The log and the snapshot of a node *)

Definition snap_ok LL (f : fs) : Prop :=
  ∀ b meta, files f !! metaPath = Some b → decode b = Ok meta →
    registered LL (LastIncludedIndex meta) (LastIncludedTerm meta).

Record node_log LL n l : Prop := {
  nl_full : full (log n) l;
  nl_ok : log_ok LL l;
  nl_snap : snap_ok LL (snapStore n)
}.

(** A handler that does not touch the entries. *)
Definition keeps LL n n' : Prop := ∀ l, node_log LL n l → node_log LL n' l.

Lemma keeps_frame LL n n' : log n' = log n → snapStore n' = snapStore n → keeps LL n n'.
Proof. intros Hl Hs l [Hf Hok Hsn]. split; [by rewrite Hl | done | by rewrite Hs]. Qed.

Lemma keeps_trans LL n1 n2 n3 : keeps LL n1 n2 → keeps LL n2 n3 → keeps LL n1 n3.
Proof. unfold keeps. auto. Qed.

Lemma keeps_term LL n n' t v :
  is_u64 t → log n' = (SetTermAndVote t v (log n)).2 → snapStore n' = snapStore n → keeps LL n n'.
Proof.
  intros Ht Hl Hs l [Hf Hok Hsn]. split; [|done|by rewrite Hs].
  rewrite Hl. by apply full_SetTermAndVote.
Qed.

Lemma snap_ok_files LL f f' : files f' = files f → snap_ok LL f → snap_ok LL f'.
Proof. unfold snap_ok. by intros ->. Qed.

Lemma snap_ok_grows LL LL' f : grows LL LL' → snap_ok LL f → snap_ok LL' f.
Proof. intros Hg Hs b meta Hb Hd. eapply registered_grows; [done|by eapply Hs]. Qed.

Lemma snap_ok_loaded LL f r f' snap meta :
  snap_ok LL f → LoadLatest f = (r, f') → r = Ok (Some (snap, meta)) →
  registered LL (LastIncludedIndex meta) (LastIncludedTerm meta).
Proof.
  intros Hs Hl Hr. apply LoadLatest_files in Hl as [_ Hl].
  destruct (Hl _ _ Hr) as [(b & Hb & Hd) _]. by eapply Hs.
Qed.

Lemma snap_ok_Save LL snap meta f err f' :
  snap_ok LL f → registered LL (LastIncludedIndex meta) (LastIncludedTerm meta) →
  Save snap meta f = (err, f') → snap_ok LL f'.
Proof.
  intros Hs Hr Hsave b meta' Hb Hd. apply Save_files in Hsave. destruct err.
  - assert (files f' !! metaPath = files f !! metaPath ∨ files f' !! metaPath = None) as [Hm|Hm]
      by (destruct Hsave as [[Hm _]|[_ Hm]]; auto); [|congruence].
    eapply Hs; [|exact Hd]. congruence.
  - destruct Hsave as [(b' & Hb' & Hd') _]. congruence.
Qed.

Lemma keeps_store LL n store :
  files store = files (snapStore n) → keeps LL n (with_snapStore store n).
Proof. intros Hf l [Hfu Hok Hs]. split; try done. by eapply snap_ok_files. Qed.

(** ** Handlers that keep the entries *)

Lemma becomeFollower_keeps LL t a b n : is_u64 t → keeps LL n (becomeFollower t a b n).
Proof.
  intros Ht. unfold becomeFollower, becomeFollower_persist, becomeFollower_locked.
  destruct (bool_decide (role n = Leader)); simpl; case_Z;
    first [by eapply (keeps_term _ _ _ t) | by apply keeps_frame].
Qed.

Lemma maybeSnapshot_keeps LL i n :
  hist_ok LL → is_u64 i → 0 < i → keeps LL n (maybeSnapshot i n).
Proof.
  intros Hh Hu Hi l Hnl. unfold maybeSnapshot.
  destruct (LoadLatest (snapStore n)) as [loaded store] eqn:Hload.
  apply LoadLatest_files in Hload as [Hfiles _].
  pose proof (keeps_store LL n store Hfiles l Hnl) as Hnl1.
  destruct (covered loaded i); [done|]. simpl.
  destruct (TermAt i (log n)) as [t|] eqn:Hta; [|done]. destruct (Dump (sm n)) as [dump|]; [|done].
  destruct (full_TermAt _ _ _ _ (nl_full _ _ _ Hnl) Hu Hta) as [Hlen Hteq].
  assert (registered LL i t) as Hreg
    by (rewrite Hteq; apply log_ok_registered; [apply Hnl|lia]).
  destruct (registered_log _ _ _ Hh Hreg) as (_ & _ & _ & _ & Htu & _).
  destruct (Save dump (mkMeta i t) store) as [err store'] eqn:Hsave.
  eapply snap_ok_Save in Hsave; [|apply Hnl1|done].
  destruct err; (split; [|apply Hnl|done]); [apply Hnl|].
  apply full_CompactPrefix; try done. apply Hnl.
Qed.

Lemma apply_one_keeps LL i n : hist_ok LL → is_u64 i → keeps LL n (apply_one i n).2.
Proof.
  intros Hh Hu l Hnl. unfold apply_one. destruct (Log.Get i (log n)) as [e|] eqn:Hget; [|done].
  apply (full_Get _ _ _ _ (nl_full _ _ _ Hnl) Hu) in Hget as [Hi _].
  destruct (apply_entry e (sm n)) as [[err|] machine]; [by eapply keeps_frame; [..|exact Hnl]|].
  set (n1 := satisfyPendingReadsLocked _).
  assert (keeps LL n n1) as Hk.
  { destruct (notify_frame i (with_lastApplied i (with_sm machine n))) as (Hl & _).
    apply keeps_frame; [done|]. unfold n1, notifyWritersLocked.
    by destruct (writeWaiters _ !! i). }
  clearbody n1. cbn zeta. cbn [snd]. destruct (_ && _); [|auto].
  apply maybeSnapshot_keeps; auto.
Qed.

Lemma apply_loop_keeps LL fuel a c n : hist_ok LL → keeps LL n (apply_loop fuel a c n).
Proof.
  intros Hh. revert a n. induction fuel as [|fuel IH]; intros a n; [by apply keeps_frame|]. simpl.
  case_Z; [|by apply keeps_frame].
  pose proof (apply_one_keeps LL (a ⊞ 1) n Hh (u64_range _)) as Hk.
  destruct (apply_one (a ⊞ 1) n) as [[] n1]; simpl in Hk; [|done].
  eapply keeps_trans; [exact Hk | apply IH].
Qed.

Lemma replicate_reply_keeps LL peer term req resp n :
  is_u64 (aer_Term resp) → keeps LL n (replicate_reply peer term req (Ok resp) n).
Proof.
  intros Hu. unfold replicate_reply. destruct (term <? aer_Term resp);
    [by apply becomeFollower_keeps|]. repeat case_match; by apply keeps_frame.
Qed.

Lemma install_reply_keeps LL peer term req resp n :
  is_u64 (isr_Term resp) → keeps LL n (install_reply peer term req (Ok resp) n).
Proof.
  intros Hu. unfold install_reply. destruct (term <? isr_Term resp);
    [by apply becomeFollower_keeps|]. destruct (leads term n); by apply keeps_frame.
Qed.

Lemma HandleRequestVote_keeps LL req n :
  is_u64 (rv_Term req) → is_u64 (currentTerm (log n)) → keeps LL n (HandleRequestVote req n).2.
Proof.
  intros Hu Huc. unfold HandleRequestVote. case_Z; [by apply keeps_frame|].
  set (r0 := if currentTerm (log n) <? rv_Term req
    then (rv_Term req, stepDownForVote (rv_Term req) n) else (currentTerm (log n), n)).
  assert (keeps LL n r0.2 ∧ is_u64 r0.1) as [Hk Hr].
  { unfold r0. case_Z; cbn [fst snd]; (split; [|done]); [|by apply keeps_frame].
    eapply (keeps_term _ _ _ (rv_Term req)); [done|..]; unfold stepDownForVote;
      by destruct (bool_decide (role n = Leader)). }
  clearbody r0. destruct r0 as [cur m]. simpl in *. destruct (_ && _); simpl; [|done].
  eapply keeps_trans; [exact Hk|]. by eapply keeps_term.
Qed.

Lemma election_step_keeps LL ev el n :
  (∀ resp, ev = EvReply (Ok resp) → is_u64 (rvr_Term resp)) → keeps LL n (election_step ev el n).2.
Proof.
  intros Hok. unfold election_step. destruct (negb _); [by apply keeps_frame|].
  destruct ev as [r| |]; [|by apply keeps_frame..].
  destruct (vote_result (el_term el) r) as [granted higher] eqn:Hv.
  assert (is_u64 higher) as Hu.
  { unfold vote_result in Hv. destruct r as [resp|]; [destruct (_ <? _)|]; injection Hv as <- <-;
      [by apply Hok|done..]. }
  destruct (_ <? _); [by apply becomeFollower_keeps|]. destruct granted; by apply keeps_frame.
Qed.

Lemma accept_leader_keeps LL req n : is_u64 (ae_Term req) → keeps LL n (accept_leader req n).2.
Proof.
  intros Hu. unfold accept_leader. destruct (_ <? _).
  - destruct (bool_decide (role n = Leader)); by eapply (keeps_term _ _ _ (ae_Term req)).
  - case_bool_decide; by apply keeps_frame.
Qed.

Lemma NewNode_keeps LL n machine store n' :
  files store = files (snapStore n) →
  NewNode (n_id n) (peers n) (opts n) (engine (log n)) machine store (selfClientAddr n) = Ok n' →
  keeps LL n n'.
Proof.
  intros Hfiles Hnew l [Hf Hok Hs]. unfold NewNode in Hnew.
  destruct (full_open _ _ Hf) as (pl' & Ho & Hf'). rewrite Ho in Hnew.
  destruct (LoadLatest store) as [loaded store'] eqn:Hl. apply LoadLatest_files in Hl as [Hl _].
  assert (log n' = pl' ∧ snapStore n' = store') as [Hln Hsn].
  { destruct loaded as [[[snap meta]|]|]; try done; [destruct (Restore _ _ _) as [[]]|];
      by try injection Hnew as <-. }
  split; [by rewrite Hln | done |]. rewrite Hsn. eapply snap_ok_files; [|exact Hs]. congruence.
Qed.

(** ** Handlers that change the entries *)

(** A request with entries carries a slice of the log of the leader of its
    term, and is addressed to another node. *)
Definition append_ok LL (winner : Z → string → Prop) (to : string) (req : AppendEntriesRequest) : Prop :=
  ae_Entries req = [] ∨
  ∃ L i, LL !! ae_Term req = Some L ∧ winner (ae_Term req) i ∧ i ≠ to ∧
    0 ≤ ae_PrevLogIndex req ≤ Z.of_nat (length L) ∧
    ae_PrevLogTerm req = term_of L (ae_PrevLogIndex req) ∧
    ae_Entries req `prefix_of` drop (Z.to_nat (ae_PrevLogIndex req)) L.

(** Entries from the very beginning do not go to a compacted log. *)
Definition start_ok (req : AppendEntriesRequest) n : Prop :=
  ae_PrevLogIndex req = 0 → ae_Entries req = [] ∨ lastIncludedIndex (log n) = 0.

Definition fresh_start : discipline E K := mkDiscipline (λ _ _, True)
  (λ msg n, match msg with MAppend _ req => start_ok req n | _ => True end) (λ _ _, True).

Lemma slice_log LL l L prev es :
  log_ok LL l → log_ok LL L → 0 ≤ prev ≤ Z.of_nat (length L) → prev ≤ Z.of_nat (length l) →
  (0 < prev → term_of l prev = term_of L prev) → es `prefix_of` drop (Z.to_nat prev) L →
  take (Z.to_nat prev) l ++ es `prefix_of` L ∧ contiguous prev es ∧
  prev + Z.of_nat (length es) ≤ Z.of_nat (length L).
Proof.
  intros Hl HL Hp Hpl Ht Hes.
  assert (take (Z.to_nat prev) l = take (Z.to_nat prev) L) as Htake.
  { destruct (Z.eq_dec prev 0) as [->|]; [done|]. eapply log_ok_agree_index; try done; [lia..|].
    apply Ht. lia. }
  split_and!.
  - rewrite Htake. destruct Hes as [r Hr]. exists r. by rewrite <-app_assoc, <-Hr, take_drop.
  - eapply contiguous_prefix; [exact Hes|].
    pose proof (contiguous_drop 0 (Z.to_nat prev) L (proj1 HL)) as Hc.
    by replace (0 + Z.of_nat (Z.to_nat prev)) with prev in Hc by lia.
  - apply prefix_length in Hes. rewrite length_drop in Hes. lia.
Qed.

Lemma accept_leader_li req n :
  lastIncludedIndex (log (accept_leader req n).2) = lastIncludedIndex (log n).
Proof.
  unfold accept_leader. destruct (_ <? _); [|by destruct (bool_decide (role n = Candidate))].
  unfold persistTermVote, SetTermAndVote.
  destruct (bool_decide (role n = Leader)); simpl; by destruct (eng_Commit _ _ _) as [[]].
Qed.

Lemma accept_leader_role req n :
  currentTerm (log n) ≤ ae_Term req → role (accept_leader req n).2 = Leader →
  ae_Term req = currentTerm (log n).
Proof.
  intros Hle. unfold accept_leader. destruct (Z.ltb_spec (currentTerm (log n)) (ae_Term req)); [|lia].
  by destruct (bool_decide (role n = Leader)).
Qed.

Lemma follow_commit_frame c n :
  log (follow_commit c n) = log n ∧ snapStore (follow_commit c n) = snapStore n ∧
  role (follow_commit c n) = role n.
Proof. unfold follow_commit. repeat case_Z; done. Qed.

Lemma HandleAppendEntries_log LL winner to req n l resp n' :
  hist_ok LL → node_log LL n l → append_ok LL winner to req → is_u64 (ae_Term req) →
  start_ok req n → HandleAppendEntries req n = (resp, n') →
  ∃ l', node_log LL n' l' ∧
    (l' = l ∨ ae_Entries req ≠ [] ∧ (role n' = Leader → ae_Term req = currentTerm (log n))).
Proof.
  intros Hh Hnl Hreq Hu Hstart Hhan. unfold HandleAppendEntries in Hhan.
  destruct (Z.ltb_spec (ae_Term req) (currentTerm (log n))) as [|Hle].
  { injection Hhan as <- <-. eauto. }
  pose proof (accept_leader_keeps LL req n Hu l Hnl) as Hnl1.
  pose proof (accept_leader_li req n) as Hli. pose proof (accept_leader_role req n Hle) as Hrole.
  destruct (accept_leader req n) as [cur m]. cbn [snd] in Hnl1, Hli, Hrole.
  destruct (check_prev cur req m) as [r|] eqn:Hcheck; [injection Hhan as <- <-; eauto|].
  destruct (AppendEntries (ae_Entries req) _ (log m)) as [err pl] eqn:Happ.
  assert (∃ l', full pl l' ∧ log_ok LL l' ∧ (l' = l ∨ ae_Entries req ≠ []))
    as (l' & Hf' & Hok' & Hor).
  { destruct Hreq as [Hnil|(L & i & HL & _ & _ & Hp & Hpt & Hes)].
    { rewrite Hnil in Happ. injection Happ as <- <-. exists l. split_and!; [apply Hnl1.. | auto]. }
    destruct (Hh _ _ HL) as (_ & HokL & HlenL).
    destruct (decide (ae_Entries req = [])) as [Hnil|Hne].
    { rewrite Hnil in Happ. injection Happ as <- <-. exists l. split_and!; [apply Hnl1.. | auto]. }
    assert (lastIncludedIndex (log m) ≤ ae_PrevLogIndex req ≤ Z.of_nat (length l) ∧
      (0 < ae_PrevLogIndex req → term_of l (ae_PrevLogIndex req) = ae_PrevLogTerm req)) as [Hrange Hterm].
    { unfold check_prev in Hcheck. destruct (Z.ltb_spec 0 (ae_PrevLogIndex req)).
      - destruct (TermAt _ (log m)) as [t|] eqn:Hta; [|done].
        destruct (Z.eqb_spec t (ae_PrevLogTerm req)) as [->|]; [|done].
        apply (full_TermAt _ _ _ _ (nl_full _ _ _ Hnl1)) in Hta as [? ->]; [auto|u64_lia].
      - destruct (Hstart ltac:(lia)); [done|]. split; [lia|]. lia. }
    destruct (slice_log LL l L (ae_PrevLogIndex req) (ae_Entries req)) as (Hpre & Hc & Hlen);
      try done; [apply Hnl|lia|by rewrite <-Hpt|].
    pose proof (full_AppendEntries _ _ _ _ _ _ _ (nl_full _ _ _ Hnl1) Hrange Hc Hne ltac:(lia) Happ) as Hf.
    eexists. split; [exact Hf|]. split; [|auto].
    destruct err; [apply Hnl|]. by eapply log_ok_prefix. }
  destruct (follow_commit_frame (ae_LeaderCommit req) (with_log pl m)) as (Hl & Hs & Hr).
  assert (log n' = pl ∧ snapStore n' = snapStore m ∧ role n' = role m) as (Hl' & Hs' & Hr')
    by (by destruct err; injection Hhan as <- <-; [|rewrite Hl, Hs, Hr]).
  exists l'. split; [split; [by rewrite Hl' | done | rewrite Hs'; apply Hnl1]|].
  rewrite Hr'. intuition.
Qed.

Lemma install_snapshot_log LL req n l :
  hist_ok LL → node_log LL n l →
  registered LL (is_LastIncludedIndex req) (is_LastIncludedTerm req) →
  ∃ l', node_log LL (install_snapshot req n) l'.
Proof.
  intros Hh Hnl Hreg. unfold install_snapshot.
  destruct (UnmarshalSnapshot (is_Data req)) as [snap|]; [|eauto].
  destruct (Save snap _ (snapStore n)) as [err store] eqn:Hsave.
  eapply snap_ok_Save in Hsave; [|apply Hnl|exact Hreg].
  destruct err; [exists l; split; simpl; done || apply Hnl|].
  destruct (Restore _ _ _) as [err machine]. destruct err; [exists l; split; simpl; done || apply Hnl|].
  destruct (RestoreSnapshotBoundary _ _ _) as [err pl] eqn:Hrb. simpl in Hrb.
  destruct (registered_log _ _ _ Hh Hreg) as (l' & Hok & Hi & Ht & Hu & Hb).
  eapply full_RestoreSnapshotBoundary in Hrb; [|apply Hnl|done..|apply Hok].
  exists (after err l l'). destruct err; split; simpl; done || apply Hnl.
Qed.

Lemma HandleInstallSnapshot_log LL req n l resp n' :
  hist_ok LL → node_log LL n l → is_u64 (is_Term req) →
  registered LL (is_LastIncludedIndex req) (is_LastIncludedTerm req) →
  HandleInstallSnapshot req n = (resp, n') →
  ∃ l', node_log LL n' l' ∧ (role n' = Leader → l' = l).
Proof.
  intros Hh Hnl Hu Hreg Hhan. unfold HandleInstallSnapshot in Hhan.
  destruct (Z.ltb_spec (is_Term req) (currentTerm (log n))); [injection Hhan as <- <-; eauto|].
  set (r0 := if currentTerm (log n) <? is_Term req
    then (is_Term req, persistTermVote (is_Term req) "" n) else (currentTerm (log n), n)) in Hhan.
  assert (node_log LL r0.2 l) as Hnl0.
  { unfold r0. case_Z; [|done]. by eapply (keeps_term LL n). }
  destruct r0 as [cur n0]. simpl in Hhan, Hnl0.
  destruct (LoadLatest (snapStore n0)) as [loaded store] eqn:Hload.
  apply LoadLatest_files in Hload as [Hfiles _].
  set (n1 := with_snapStore store _) in Hhan.
  assert (node_log LL n1 l ∧ role n1 = Follower) as [Hnl1 Hr1].
  { split; [|done]. apply (keeps_store LL (resetElectionTimer (with_leader (is_LeaderID req)
      (leaderClientAddr n0) (with_role Follower n0)))); [done|]. by eapply keeps_frame; [..|exact Hnl0]. }
  clearbody n1. destruct (covered _ _); injection Hhan as <- <-; [exists l; split; congruence|].
  destruct (install_snapshot_log LL req n1 l Hh Hnl1 Hreg) as (l' & Hl'). exists l'. split; [done|].
  intros Hlead. exfalso. destruct (vs_role _ _ (install_snapshot_safe req n1)); congruence.
Qed.

(** What a leader adds to its log: nothing, or one entry of its term. *)
Definition extends n l n' l' : Prop :=
  snapStore n' = snapStore n ∧ full (log n') l' ∧
  (l' = l ∨ ∃ e, l' = l ++ [e] ∧ Term e = currentTerm (log n) ∧ Index e = Z.of_nat (length l) + 1).

Lemma propose_start_extends LL ty key value id n l :
  node_log LL n l → lastIndex (log n) < u64_mod - 2 →
  role n = Leader ∧ (∃ l', extends n l (propose_start ty key value id n).2 l') ∨
  (propose_start ty key value id n).2 = n.
Proof.
  intros Hnl Hroom. unfold propose_start. case_bool_decide as Hl; [by right|left].
  destruct (role n) eqn:Hrole; try done. split; [done|].
  match goal with |- context [AppendEntries [?e] ?s (log ?m)] =>
    destruct (AppendEntries [e] s (log m)) as [err pl] eqn:Ha end.
  eapply full_append_one in Ha as [Hi Hf]; [|apply Hnl|done|done].
  eexists. destruct err; (split; [done|]); (split; [exact Hf|]); [by left|].
  right. eexists. split; [done|]. done.
Qed.

Lemma becomeLeader_start_extends LL n l :
  node_log LL n l → lastIndex (log n) < u64_mod - 2 → role n = Candidate →
  ∃ l', extends n l (becomeLeader_start n).2 l'.
Proof.
  intros Hnl Hroom Hrole. unfold becomeLeader_start, becomeLeader_locked.
  rewrite bool_decide_false by (rewrite Hrole; auto).
  set (m := reset_progress (lastIndex (log n)) (peers n)
    (with_leader (n_id n) (selfClientAddr n) (with_role Leader n))).
  assert (log m = log n ∧ snapStore m = snapStore n) as [Hlm Hsm] by done.
  change (∃ l', extends n l (appendLocal noop_entry m).2 l'). clearbody m. unfold appendLocal.
  rewrite Hlm. cbn zeta. cbn [snd].
  match goal with |- context [AppendEntries [?e] ?s ?pl0] =>
    destruct (AppendEntries [e] s pl0) as [err pl] eqn:Ha end.
  eapply full_append_one in Ha as [Hi Hf]; [|apply Hnl|done|done].
  eexists. split; [done|]. split; [exact Hf|]. destruct err; [by left|].
  right. eexists. split; [done|]. done.
Qed.

(** What a leader sends is a slice of its log. *)
Lemma replicate_prepare_log LL p term n l req :
  node_log LL n l → is_u64 (next_of p n) → replicate_prepare p term n = SendAppend req →
  0 ≤ ae_PrevLogIndex req ≤ Z.of_nat (length l) ∧
  ae_PrevLogTerm req = term_of l (ae_PrevLogIndex req) ∧
  ae_Entries req `prefix_of` drop (Z.to_nat (ae_PrevLogIndex req)) l.
Proof.
  intros [(al & Hr & Hv) _ _] Hu Hp.
  destruct (replicate_prepare_rep _ _ _ _ _ Hr Hu Hp) as (_ & _ & Hrange & Hterm & Hlen & Hes).
  rewrite (view_last _ _ Hv) in Hrange, Hlen. pose proof (v_base _ _ Hv).
  apply (view_term_at _ _ _ _ Hv) in Hterm as [_ Hterm]. split_and!; [lia|lia|done|].
  apply slice_prefix. intros j Hj. rewrite Hes, (view_entry _ _ _ Hv) by done.
  destruct (Z.leb_spec (ae_PrevLogIndex req + 1 + Z.of_nat j) (a_base al)); [lia|].
  f_equal. lia.
Qed.

(** ** The invariant of the cluster *)

Definition msg_ok LL (winner : Z → string → Prop) (msg : message) : Prop :=
  match msg with
  | MAppend to req => append_ok LL winner to req
  | MInstall _ req => registered LL (is_LastIncludedIndex req) (is_LastIncludedTerm req)
  | _ => True
  end.

(** A node was elected in term [t], and cannot be elected in it again. *)
Definition won (members : gset string) (c : cluster (E := E) (K := K)) (t : Z) : Prop :=
  ∃ i n, elected members (c_votes c) t i ∧ c_nodes c !! i = Some n ∧ t ≤ currentTerm (log n) ∧
    ∀ ru, c_elections c !! i = Some ru → t < el_term (ru_el ru).

Record linv (members : gset string) (c : cluster (E := E) (K := K)) (ms : list message) LL : Prop := {
  l_hist : hist_ok LL;
  l_won : ∀ t L, LL !! t = Some L → won members c t;
  l_node : ∀ i n, c_nodes c !! i = Some n →
    ∃ l, node_log LL n l ∧ (role n = Leader → LL !! currentTerm (log n) = Some l);
  l_msg : ∀ msg, msg ∈ ms → msg_ok LL (elected members (c_votes c)) msg
}.

(** Node [i] changes, and no election of a term that it has left begins. *)
Record evolves (i : string) n n' (c c' : cluster (E := E) (K := K)) : Prop := {
  ev_node : c_nodes c !! i = Some n;
  ev_nodes : c_nodes c' = <[i := n']> (c_nodes c);
  ev_votes : ∀ v, v ∈ c_votes c → v ∈ c_votes c';
  ev_term : currentTerm (log n) ≤ currentTerm (log n');
  ev_elections : ∀ j ru, c_elections c' !! j = Some ru →
    (∃ ru0, c_elections c !! j = Some ru0 ∧ el_term (ru_el ru0) = el_term (ru_el ru)) ∨
    j = i ∧ currentTerm (log n) < el_term (ru_el ru)
}.

Lemma msg_ok_mono LL LL' (w w' : Z → string → Prop) msg :
  grows LL LL' → (∀ t i, w t i → w' t i) → msg_ok LL w msg → msg_ok LL' w' msg.
Proof.
  intros Hg Hw. destruct msg as [to req| |to req|]; simpl; try done; [|by apply registered_grows].
  intros [Hnil|(L & i & HL & Hi & Hne & Hp & Ht & Hes)]; [by left|right].
  destruct (Hg _ _ HL) as (L' & HL' & Hpre). pose proof (prefix_length _ _ Hpre).
  exists L', i. split_and!; auto; [lia|lia|rewrite (term_of_prefix _ _ _ Hpre) by lia; done|].
  etrans; [exact Hes|]. destruct Hpre as [r ->]. rewrite drop_app_le by lia. by eexists.
Qed.

Lemma elected_evolves members i n n' c c' t j :
  evolves i n n' c c' → elected members (c_votes c) t j → elected members (c_votes c') t j.
Proof. intros He (q & Hq & Hs & Hv). exists q. split_and!; auto. intros. by apply (ev_votes _ _ _ _ _ He), Hv. Qed.

Lemma won_evolves members i n n' c c' t :
  evolves i n n' c c' → won members c t → won members c' t.
Proof.
  intros He (j & m & Hel & Hm & Ht & Hru). pose proof (elected_evolves _ _ _ _ _ _ _ _ He Hel).
  destruct He as [Hn Hns _ Hterm Hels].
  destruct (decide (j = i)) as [->|Hne].
  - assert (m = n) as -> by congruence. exists i, n'. rewrite Hns, lookup_insert_eq.
    split_and!; [done..|lia|]. intros ru Hr.
    destruct (Hels _ _ Hr) as [(ru0 & Hr0 & <-)|[_ ?]]; [by apply Hru|lia].
  - exists j, m. rewrite Hns, lookup_insert_ne by done. split_and!; [done..|].
    intros ru Hr. destruct (Hels _ _ Hr) as [(ru0 & Hr0 & <-)|[? _]]; [by apply Hru|done].
Qed.

Lemma node_log_grows LL LL' n l : grows LL LL' → node_log LL n l → node_log LL' n l.
Proof. intros Hg [Hf Hok Hs]. split; eauto using log_ok_grows, snap_ok_grows. Qed.

(** A step that extends the history, if at all, at terms that no other leader is in. *)
Lemma linv_evolves members c ms c' ms' LL LL' i n n' :
  linv members c ms LL → evolves i n n' c c' → grows LL LL' → hist_ok LL' →
  (∀ t L, LL' !! t = Some L → LL !! t = None → won members c' t) →
  (∃ l, node_log LL' n' l ∧ (role n' = Leader → LL' !! currentTerm (log n') = Some l)) →
  (∀ j m, j ≠ i → c_nodes c !! j = Some m → role m = Leader →
    LL' !! currentTerm (log m) = LL !! currentTerm (log m)) →
  (∀ msg, msg ∈ ms' → msg ∈ ms ∨ msg_ok LL' (elected members (c_votes c')) msg) →
  linv members c' ms' LL'.
Proof.
  intros [Hh Hw Hno Hmsg] He Hg Hh' Hw' Hn' Hother Hms. split; [done|..].
  - intros t L HL. destruct (LL !! t) as [L0|] eqn:HL0; [|by eapply Hw'].
    eapply won_evolves; [done|]. by eapply Hw.
  - rewrite (ev_nodes _ _ _ _ _ He). intros j m [[<- <-]|[Hne Hm]]%lookup_insert_Some; [done|].
    destruct (Hno j m Hm) as (l & Hl & Hlead). exists l. split; [by eapply node_log_grows|].
    intros Hrole. rewrite (Hother j m); auto.
  - intros msg Hin. destruct (Hms msg Hin) as [Hold|]; [|done].
    eapply msg_ok_mono; [done| |by apply Hmsg]. intros t j. by apply elected_evolves with i n n'.
Qed.

Lemma linv_same members c ms c' ms' LL i n n' l :
  linv members c ms LL → evolves i n n' c c' →
  node_log LL n' l → (role n' = Leader → LL !! currentTerm (log n') = Some l) →
  (∀ msg, msg ∈ ms' → msg ∈ ms ∨ msg_ok LL (elected members (c_votes c')) msg) →
  linv members c' ms' LL.
Proof.
  intros Hl He Hn Hlead Hms. eapply linv_evolves; try done; [apply grows_refl | apply Hl | | eauto].
  intros t L ? ?. congruence.
Qed.

Lemma linv_keeps members c ms c' ms' LL i n n' :
  linv members c ms LL → evolves i n n' c c' → vote_safe n n' → keeps LL n n' →
  (∀ msg, msg ∈ ms' → msg ∈ ms ∨ msg_ok LL (elected members (c_votes c')) msg) →
  linv members c' ms' LL.
Proof.
  intros Hl He Hs Hk Hms.
  destruct (l_node _ _ _ _ Hl i n (ev_node _ _ _ _ _ He)) as (l & Hnl & Hlead).
  eapply linv_same; [done..|by apply Hk| |done].
  intros Hr. destruct (vs_role _ _ Hs) as [Hr0 Ht0]; [congruence|]. rewrite Ht0. apply Hlead. congruence.
Qed.

(** The leader of term [t] has the log [l'], recorded in the history. *)
Lemma linv_extend members c ms c' LL i n n' l l' :
  let t := currentTerm (log n) in
  let LL' := <[t := l']> LL in
  size members ≠ 1%nat → inv members c' → linv members c ms LL → evolves i n n' c c' →
  node_log LL n l → role n' = Leader → currentTerm (log n') = t → 0 < t →
  (LL !! t = None ∨ LL !! t = Some l) →
  (∀ ru, c_elections c' !! i = Some ru → t < el_term (ru_el ru)) →
  extends n l n' l' → linv members c' ms LL' ∧ grows LL LL' ∧ node_log LL' n' l'.
Proof.
  intros t LL' Hsize Hinv Hl He Hnl Hrole Ht Hpos Hold Hru (Hsn & Hf & Hext).
  assert (c_nodes c' !! i = Some n') as Hn' by (rewrite (ev_nodes _ _ _ _ _ He); apply lookup_insert_eq).
  assert (elected members (c_votes c') t i) as Hel.
  { destruct (i_leader _ _ Hinv i n' Hn' Hrole); [done|by rewrite <-Ht]. }
  assert (grows LL LL') as Hg.
  { intros t' L HL. unfold LL'. destruct (decide (t' = t)) as [->|Hne].
    - rewrite lookup_insert_eq. exists l'. split; [done|]. destruct Hold; [congruence|].
      assert (L = l) as -> by congruence. destruct Hext as [->|(e & -> & _)]; [done|by eexists].
    - rewrite lookup_insert_ne by done. eauto. }
  assert (log_ok LL' l') as Hok.
  { pose proof (log_ok_grows _ _ _ Hg (nl_ok _ _ _ Hnl)) as Hok.
    destruct Hext as [->|(e & -> & Hte & Hie)]; [done|].
    apply log_ok_snoc; [done..|]. rewrite Hte. apply lookup_insert_eq. }
  assert (node_log LL' n' l') as Hnl'.
  { split; [done..|]. rewrite Hsn. eapply snap_ok_grows; [done|apply Hnl]. }
  destruct (i_node _ _ Hinv i n' Hn') as [_ Hd]. pose proof (tv_u64 _ Hd) as Hu. rewrite Ht in Hu.
  split; [|done]. eapply linv_evolves; [exact Hl | exact He | exact Hg | | | | | auto].
  - intros t' L [[<- <-]|[Hne HL]]%lookup_insert_Some.
    + split; [u64_lia|]. split; [done|by eapply full_length].
    + destruct (l_hist _ _ _ _ Hl t' L HL) as (? & ? & ?). split; [done|].
      split; [by eapply log_ok_grows|done].
  - intros t' L [[<- <-]|[Hne HL]]%lookup_insert_Some HN; [|congruence].
    exists i, n'. split_and!; [done..|lia|done].
  - exists l'. split; [done|]. unfold LL'. by rewrite Ht, lookup_insert_eq.
  - intros j m Hji Hm Hlead. unfold LL'. rewrite lookup_insert_ne; [done|]. intros Heq.
    assert (c_nodes c' !! j = Some m) as Hm' by (rewrite (ev_nodes _ _ _ _ _ He), lookup_insert_ne; auto).
    destruct (i_leader _ _ Hinv j m Hm' Hlead) as [|Hej]; [done|]. rewrite <-Heq in Hej.
    apply Hji. by eapply elected_unique.
Qed.

Lemma evolves_node i n n' (c : cluster (E := E) (K := K)) :
  c_nodes c !! i = Some n → currentTerm (log n) ≤ currentTerm (log n') →
  evolves i n n' c (set_node i n' c).
Proof. intros Hn Ht. split; simpl; eauto. Qed.

Lemma tv_step_le (pl pl' : PersistentLog E) : tv_step pl pl' → currentTerm pl ≤ currentTerm pl'.
Proof. unfold tv_step. lia. Qed.

(** A new winner has no log in the history yet. *)
Lemma first_win members c ms LL i n el req got n' :
  size members ≠ 1%nat → linv members c ms LL → inv members c →
  inv members (set_election i None (set_node i n' c)) →
  c_nodes c !! i = Some n → c_elections c !! i = Some (mkRunning el req got) →
  role n' = Leader → currentTerm (log n') = currentTerm (log n) →
  currentTerm (log n) = el_term el → LL !! currentTerm (log n) = None.
Proof.
  intros Hsize Hl Hinv Hinv' Hn He Hrole Htt Ht. destruct (LL !! _) as [L|] eqn:HL; [|done]. exfalso.
  destruct (l_won _ _ _ _ Hl _ _ HL) as (j & m & Hel & Hm & _ & Hru).
  destruct (i_leader _ _ Hinv' i n') as [|Heli]; [apply lookup_insert_eq|done|done|].
  rewrite Htt in Heli. simpl in Heli.
  assert (j = i) as -> by (by eapply (elected_unique members c)).
  specialize (Hru _ He). simpl in Hru. lia.
Qed.

Lemma linv_end members c ms LL i n el req got won n' :
  size members ≠ 1%nat → inv members c → inv members (set_election i None (set_node i n' c)) →
  linv members c ms LL → c_nodes c !! i = Some n → c_elections c !! i = Some (mkRunning el req got) →
  room c → election_end el n = (won, n') →
  n' = n ∧ linv members (set_election i None (set_node i n' c)) ms LL ∨
  ∃ l l', let LL' := <[currentTerm (log n) := l']> LL in
    el_won el = true ∧ role n = Candidate ∧ currentTerm (log n) = el_term el ∧
    n' = (becomeLeader_start n).2 ∧ node_log LL n l ∧ extends n l n' l' ∧
    LL !! currentTerm (log n) = None ∧
    linv members (set_election i None (set_node i n' c)) ms LL' ∧ grows LL LL' ∧ node_log LL' n' l'.
Proof.
  intros Hsize Hinv Hinv' Hl Hn He Hroom Hend.
  destruct (l_node _ _ _ _ Hl i n Hn) as (l & Hnl & Hlead).
  assert (∀ n', currentTerm (log n) ≤ currentTerm (log n') →
    evolves i n n' c (set_election i None (set_node i n' c))) as Hev.
  { intros n1 Ht. split; simpl; eauto. intros j ru [_ Hj]%lookup_delete_Some. eauto. }
  unfold election_end in Hend. destruct (_ && _) eqn:Hw.
  2:{ injection Hend as <- <-. left. split; [done|].
      eapply linv_same; [done | by apply Hev | done..| auto]. }
  rewrite !andb_true_iff, bool_decide_eq_true, Z.eqb_eq in Hw. destruct Hw as [[Hwon Hc] Ht].
  assert (n' = (becomeLeader_start n).2) as -> by (by rewrite Hend).
  destruct (becomeLeader_start_keeps n) as ((Htt & _ & _) & _ & _).
  assert (role (becomeLeader_start n).2 = Leader) as Hrole
    by (unfold becomeLeader_start, becomeLeader_locked; by rewrite bool_decide_false by (rewrite Hc; auto)).
  destruct (becomeLeader_start_extends LL n l Hnl (Hroom _ _ Hn) Hc) as (l' & Hext).
  assert (LL !! currentTerm (log n) = None) as Hnone by (by eapply first_win).
  destruct (i_elections _ _ Hinv i el req got He) as (m0 & _ & Hei).
  right. exists l, l'. cbv zeta. do 7 (split; [done|]).
  eapply linv_extend; [done | exact Hinv' | exact Hl | apply Hev; lia | exact Hnl | done | done | | | |done].
  - rewrite Ht. apply Hei.
  - by left.
  - intros ru Hr. simpl in Hr. by rewrite lookup_delete_eq in Hr.
Qed.

Lemma election_begin_log n el req n' :
  election_begin n = (Some (el, req), n') →
  log n' = (SetTermAndVote (currentTerm (log n) ⊞ 1) (n_id n) (log n)).2 ∧
  snapStore n' = snapStore n.
Proof.
  unfold election_begin, becomeCandidate, becomeCandidate_newTerm.
  set (m := resetElectionTimer _).
  assert (log m = (SetTermAndVote (currentTerm (log n) ⊞ 1) (n_id n) (log n)).2 ∧
    snapStore m = snapStore n) as Hm by done.
  clearbody m. case_Z; [done|]. by intros [= _ _ <-].
Qed.

Lemma linv_begin members c ms LL i n el req n' :
  inv members c → linv members c ms LL → c_nodes c !! i = Some n →
  currentTerm (log n) < u64_mod - 1 → election_begin n = (Some (el, req), n') →
  linv members (set_election i (Some (mkRunning el req ∅)) (add_request req
    (add_vote (currentTerm (log n') =? el_term el) i (el_term el) i (set_node i n' c)))) ms LL.
Proof.
  intros Hinv Hl Hn Hlt Hb. destruct (i_node _ _ Hinv i n Hn) as [_ Hd].
  destruct (election_begin_fields n _ n' Hlt Hd Hb)
    as (_ & _ & Hst & _ & Hrole & _ & _ & _ & _ & _ & Hu & Hterm & _).
  destruct (l_node _ _ _ _ Hl i n Hn) as (l & Hnl & _).
  eapply (linv_same _ c ms _ _ _ i n n' l); [done | | |congruence|auto].
  - split; simpl; try done; [by destruct (_ =? _)| |by apply tv_step_le|].
    + intros v Hv. destruct (_ =? _); set_solver.
    + intros j ru [[<- <-]|[Hne Hj]]%lookup_insert_Some; [right; simpl; split; [done|lia]|].
      left. exists ru. by destruct (_ =? _).
  - destruct (election_begin_log _ _ _ _ Hb) as [Hlog Hstore].
    eapply (keeps_term LL n n'); [apply u64_range | exact Hlog | exact Hstore | exact Hnl].
Qed.

(** Only the node of a cluster of one wins without asking. *)
Lemma begin_alone_size members c i n n' :
  inv members c → c_nodes c !! i = Some n → currentTerm (log n) < u64_mod - 1 →
  election_begin n = (None, n') → size members = 1%nat.
Proof.
  intros Hinv Hn Hlt Hb. destruct (i_node _ _ Hinv i n Hn) as [Hmem Hd].
  destruct (election_begin_fields n _ n' Hlt Hd Hb) as (_ & _ & _ & _ & Hneed).
  rewrite (size_members _ i n (inv_member _ _ _ _ Hinv Hn) Hmem).
  unfold needed_votes in Hneed. Z.div_mod_to_equations. lia.
Qed.

Lemma linv_vote members c ms LL j n req resp n' :
  inv members c → linv members c ms LL → c_nodes c !! j = Some n → req ∈ c_requests c →
  HandleRequestVote req n = (resp, n') →
  linv members (add_reply j req resp (add_vote (rvr_VoteGranted resp) j (rv_Term req)
    (rv_CandidateID req) (set_node j n' c))) ms LL.
Proof.
  intros Hinv Hl Hn Hreq Hh. destruct (i_requests _ _ Hinv _ Hreq) as [_ Hu].
  destruct (i_node _ _ Hinv j n Hn) as [_ Hd].
  pose proof (HandleRequestVote_safe req n Hu) as Hsafe.
  pose proof (HandleRequestVote_keeps LL req n Hu (tv_u64 _ Hd)) as Hk. rewrite Hh in Hsafe, Hk.
  eapply (linv_keeps _ c ms _ _ _ j n n'); [done | | done | done | auto].
  split; simpl; try done; [by destruct (rvr_VoteGranted resp)| |by apply tv_step_le, Hsafe|].
  - intros v Hv. destruct (rvr_VoteGranted resp); set_solver.
  - intros j' ru Hj'. left. exists ru. by destruct (rvr_VoteGranted resp).
Qed.

Lemma linv_election_step members c ms LL i n el req got got' ev el' n' :
  linv members c ms LL → c_nodes c !! i = Some n →
  c_elections c !! i = Some (mkRunning el req got) →
  (∀ resp, ev = EvReply (Ok resp) → is_u64 (rvr_Term resp)) → election_step ev el n = (el', n') →
  linv members (set_election i (Some (mkRunning el' req got')) (set_node i n' c)) ms LL.
Proof.
  intros Hl Hn He Hok Hs. destruct (election_step_fields _ _ _ _ _ Hok Hs) as (Hsafe & Hterm & _).
  pose proof (election_step_keeps LL ev el n Hok) as Hk. rewrite Hs in Hk.
  eapply (linv_keeps _ c ms _ _ _ i n n'); [done | | done | done | auto].
  split; simpl; try done; [by apply tv_step_le, Hsafe|].
  intros j' ru [[<- <-]|[Hne Hj']]%lookup_insert_Some; left; eauto.
Qed.

Lemma linv_election members c ms c' LL :
  size members ≠ 1%nat → inv members c → inv members c' → linv members c ms LL → room c →
  estep c c' → ∃ LL', linv members c' ms LL'.
Proof.
  intros Hsize Hinv Hinv' Hl Hroom Hs.
  destruct Hs as [c i n el req n' Hn He Hr Hlt Hb | c i n n' Hn He Hr Hlt Hb
    | c j n req resp n' Hn Hreq Hh Hacc | c i n el req got j resp el' n' Hn He Hj Hjg Hin Hu Hs
    | c i n el req got ev el' n' Hn He Hev Hs | c i n el req got won n' Hn He Hrun Hend].
  - exists LL. eapply linv_begin; [exact Hinv|eassumption..].
  - destruct Hsize. eapply begin_alone_size; [exact Hinv|eassumption..].
  - exists LL. eapply linv_vote; [exact Hinv|eassumption..].
  - exists LL. eapply linv_election_step; [eassumption..| |eassumption]. by intros ? [= <-].
  - exists LL. eapply linv_election_step; [eassumption..| |eassumption]. by destruct Hev as [->|[->|[? ->]]].
  - destruct (linv_end _ _ _ _ _ _ _ _ _ _ _ Hsize Hinv Hinv' Hl Hn He Hroom Hend)
      as [[_ ?]|(l & l' & _ & _ & _ & _ & _ & _ & _ & ? & _)]; eauto.
Qed.

Lemma linv_propose members c ms LL i n ty key value id :
  let n' := (propose_start ty key value id n).2 in
  size members ≠ 1%nat → inv members c → inv members (set_node i n' c) → linv members c ms LL →
  c_nodes c !! i = Some n → room c →
  n' = n ∧ linv members (set_node i n' c) ms LL ∨
  ∃ l l', let LL' := <[currentTerm (log n) := l']> LL in
    role n = Leader ∧ role n' = Leader ∧ currentTerm (log n') = currentTerm (log n) ∧
    node_log LL n l ∧ extends n l n' l' ∧ LL !! currentTerm (log n) = Some l ∧
    linv members (set_node i n' c) ms LL' ∧ grows LL LL' ∧ node_log LL' n' l'.
Proof.
  intros n' Hsize Hinv Hinv' Hl Hn Hroom.
  destruct (l_node _ _ _ _ Hl i n Hn) as (l & Hnl & Hlead).
  pose proof (propose_start_safe ty key value id n) as Hsafe. fold n' in Hsafe.
  assert (evolves i n n' c (set_node i n' c)) as He
    by (apply evolves_node; [done|apply tv_step_le, Hsafe]).
  destruct (propose_start_extends LL ty key value id n l Hnl (Hroom _ _ Hn)) as [[Hrole (l' & Hext)]|Heq].
  2:{ left. fold n' in Heq. split; [done|]. eapply linv_same; [done | exact He | rewrite Heq; done.. | auto]. }
  assert (role n' = role n ∧ currentTerm (log n') = currentTerm (log n)) as [Hr Ht].
  { unfold n', propose_start. case_bool_decide; [done|].
    match goal with |- context [AppendEntries ?es ?s (log ?m)] =>
      destruct (AppendEntries_keeps es s (log m)) as (Hk & _); destruct (AppendEntries es s (log m)) as [[] pl]
    end; simpl in *; done. }
  specialize (Hlead Hrole). right. exists l, l'. cbv zeta.
  split; [done|]. split; [congruence|]. do 4 (split; [done|]).
  eapply linv_extend; [done | exact Hinv' | exact Hl | exact He | exact Hnl | congruence | done
    | apply (l_hist _ _ _ _ Hl _ _ Hlead) | by right | | exact Hext].
  intros [el req got] Hru. simpl in Hru.
  destruct (l_won _ _ _ _ Hl _ _ Hlead) as (j & m & Hel & Hm & _ & Hall).
  destruct (i_leader _ _ Hinv i n Hn Hrole) as [|Heli]; [done|].
  assert (j = i) as -> by (by eapply elected_unique). by apply Hall.
Qed.

Definition proposes (ev : node_event) : bool :=
  match ev with NPropose _ _ _ _ => true | _ => false end.

Lemma local_event_keeps LL ev n :
  hist_ok LL → local_event ev = true → event_ok ev → proposes ev = false →
  keeps LL n (node_exec ev n).
Proof.
  intros Hh Hloc Hok Hnp.
  destruct ev as [req|req|p t req r|t|p t req r|t r|t| |ty key value id|i|i|ch]; try done; simpl in *.
  - unfold confirm_reply. destruct r as [resp|]; [|by apply keeps_frame].
    destruct (_ <? _); [by apply becomeFollower_keeps|by apply keeps_frame].
  - unfold tryAdvanceCommitIndex. repeat case_match; by apply keeps_frame.
  - by apply apply_loop_keeps.
  - by apply keeps_frame.
  - unfold wait_start. case_Z; by apply keeps_frame.
  - by apply keeps_frame.
Qed.

Lemma elem_of_cons_or {A} (x y : A) (l : list A) (P : Prop) : (y = x → P) → y ∈ x :: l → y ∈ l ∨ P.
Proof. intros HP [->|Hin]%elem_of_cons; auto. Qed.

Lemma install_prepare_log LL term n l req n' :
  node_log LL n l → install_prepare term n = (Some req, n') →
  registered LL (is_LastIncludedIndex req) (is_LastIncludedTerm req) ∧ keeps LL n n'.
Proof.
  intros Hnl Hp. unfold install_prepare in Hp.
  destruct (LoadLatest (snapStore n)) as [loaded store] eqn:Hload.
  destruct loaded as [[[snap meta]|]|]; try done. destruct (Marshal snap); [|done].
  injection Hp as <- <-. split.
  - eapply snap_ok_loaded; [apply Hnl | exact Hload | done].
  - apply keeps_store. by apply LoadLatest_files in Hload as [-> _].
Qed.

(** Node [i] sends a message and keeps its entries. *)
Lemma linv_sends members c ms LL i n n' msg :
  linv members c ms LL → c_nodes c !! i = Some n → vote_safe n n' → keeps LL n n' →
  msg_ok LL (elected members (c_votes c)) msg → linv members (set_node i n' c) (msg :: ms) LL.
Proof.
  intros Hl Hn Hs Hk Hm. eapply linv_keeps; [exact Hl | | exact Hs | exact Hk |].
  - apply evolves_node; [done|apply tv_step_le, Hs].
  - intros msg'. apply elem_of_cons_or. by intros ->.
Qed.

Lemma linv_cons members c ms LL msg :
  linv members c ms LL → msg_ok LL (elected members (c_votes c)) msg → linv members c (msg :: ms) LL.
Proof. intros [Hh Hw Hno Hms] Hm. split; try done. intros msg' [->|Hin]%elem_of_cons; auto. Qed.

(** Node [j] handles a request: its log becomes [l']. *)
Lemma linv_handles members c ms LL j n n' l l' msg :
  msg_ok LL (elected members (c_votes c)) msg → linv members c ms LL → c_nodes c !! j = Some n → vote_safe n n' →
  node_log LL n l → (role n = Leader → LL !! currentTerm (log n) = Some l) →
  node_log LL n' l' → (role n' = Leader → l' = l) →
  linv members (set_node j n' c) (msg :: ms) LL.
Proof.
  intros Hm Hl Hn Hs Hnl Hlead Hnl' Hsame. eapply linv_same; [exact Hl | | exact Hnl' | |].
  - apply evolves_node; [done|apply tv_step_le, Hs].
  - intros Hr. destruct (vs_role _ _ Hs) as [Hr' Ht]; [congruence|].
    rewrite Ht, (Hsame Hr). apply Hlead. congruence.
  - intros msg'. apply elem_of_cons_or. by intros ->.
Qed.

Lemma linv_send members c ms LL i n p term req :
  size members ≠ 1%nat → inv members c → linv members c ms LL → c_nodes c !! i = Some n →
  p ∈ peers n → is_u64 (next_of p n) → replicate_prepare p term n = SendAppend req →
  msg_ok LL (elected members (c_votes c)) (MAppend p req).
Proof.
  intros Hsize Hinv Hl Hn Hpeer Hu Hp. right.
  destruct (l_node _ _ _ _ Hl i n Hn) as (l & Hnl & Hlead).
  destruct (replicate_prepare_leads _ _ _ _ Hp) as (Hrole & Ht & Hrt & _).
  destruct (i_leader _ _ Hinv i n Hn Hrole) as [|Hel]; [done|].
  exists l, i. rewrite Hrt, <-Ht. split; [auto|]. split; [done|].
  split; [|by eapply replicate_prepare_log].
  intros ->. destruct (i_node _ _ Hinv p n Hn) as [(_ & _ & Hpeers) _].
  apply (elem_of_list_to_set (C := gset string)) in Hpeer. rewrite Hpeers in Hpeer. set_solver.
Qed.

Lemma linv_append members c ms LL j n req resp n' :
  size members ≠ 1%nat → inv members c → linv members c ms LL → MAppend j req ∈ ms →
  c_nodes c !! j = Some n → is_u64 (ae_Term req) → start_ok req n →
  HandleAppendEntries req n = (resp, n') →
  linv members (set_node j n' c) (MAppendReply j req resp :: ms) LL.
Proof.
  intros Hsize Hinv Hl Hin Hn Hu Hstart Hh.
  destruct (l_node _ _ _ _ Hl j n Hn) as (l & Hnl & Hlead).
  pose proof (l_msg _ _ _ _ Hl _ Hin) as Hreq. simpl in Hreq.
  destruct (HandleAppendEntries_log _ _ _ _ _ _ _ _ (l_hist _ _ _ _ Hl) Hnl Hreq Hu Hstart Hh)
    as (l' & Hnl' & Hsame).
  pose proof (HandleAppendEntries_safe req n Hu) as Hsafe. rewrite Hh in Hsafe. simpl in Hsafe.
  eapply (linv_handles _ _ _ _ _ n n' l l'); try done.
  intros Hrole. destruct Hsame as [|[Hne Ht]]; [done|]. exfalso.
  destruct Hreq as [|(L & i & HL & Hel & Hi & _)]; [done|]. rewrite (Ht Hrole) in Hel.
  destruct (vs_role _ _ Hsafe) as [Hr _]; [congruence|]. rewrite Hr in Hrole.
  destruct (i_leader _ _ Hinv j n Hn Hrole) as [|Helj]; [done|].
  apply Hi. by eapply elected_unique.
Qed.

Lemma linv_install members c ms LL j n req resp n' :
  linv members c ms LL → MInstall j req ∈ ms → c_nodes c !! j = Some n → is_u64 (is_Term req) →
  HandleInstallSnapshot req n = (resp, n') →
  linv members (set_node j n' c) (MInstallReply j req resp :: ms) LL.
Proof.
  intros Hl Hin Hn Hu Hh. destruct (l_node _ _ _ _ Hl j n Hn) as (l & Hnl & Hlead).
  pose proof (l_msg _ _ _ _ Hl _ Hin) as Hreg. simpl in Hreg.
  destruct (HandleInstallSnapshot_log _ _ _ _ _ _ (l_hist _ _ _ _ Hl) Hnl Hu Hreg Hh)
    as (l' & Hnl' & Hsame).
  pose proof (HandleInstallSnapshot_safe req n Hu) as Hsafe. rewrite Hh in Hsafe. simpl in Hsafe.
  by eapply (linv_handles _ _ _ _ _ n n' l l').
Qed.

Lemma linv_local members c ms LL i n ev :
  size members ≠ 1%nat → inv members c → inv members (set_node i (node_exec ev n) c) →
  linv members c ms LL → c_nodes c !! i = Some n → local_event ev = true → event_ok ev → room c →
  ∃ LL', linv members (set_node i (node_exec ev n) c) ms LL'.
Proof.
  intros Hsize Hinv Hinv' Hl Hn Hloc Hok Hroom. pose proof (node_exec_safe ev n Hok) as Hsafe.
  destruct (proposes ev) eqn:Hp; [|].
  { destruct ev as [| | | | | | | |ty key value id| | |]; try done.
    destruct (linv_propose _ _ _ _ _ _ ty key value id Hsize Hinv Hinv' Hl Hn Hroom)
      as [[_ ?]|(l & l' & _ & _ & _ & _ & _ & _ & ? & _)]; eauto. }
  exists LL. eapply linv_keeps; [exact Hl | | exact Hsafe
    | apply local_event_keeps; [apply Hl | done..] | auto].
  apply evolves_node; [done|apply tv_step_le, Hsafe].
Qed.

Lemma linv_restart members c ms LL i n machine store n' :
  inv members c → linv members c ms LL → c_nodes c !! i = Some n →
  files store = files (snapStore n) →
  NewNode (n_id n) (peers n) (opts n) (engine (log n)) machine store (selfClientAddr n) = Ok n' →
  linv members (set_election i None (set_node i n' c)) ms LL.
Proof.
  intros Hinv Hl Hn Hfiles Hnew. destruct (i_node _ _ Hinv i n Hn) as [_ Hd].
  destruct (NewNode_tv n machine store n' Hd Hnew) as [Hsafe _].
  eapply (linv_keeps _ c ms _ _ _ i n n'); [done | | done | by eapply NewNode_keeps | auto].
  split; simpl; try done; [by apply tv_step_le, Hsafe|].
  intros j ru [_ Hj]%lookup_delete_Some. eauto.
Qed.

Lemma linv_rstep d members rc rc' LL :
  (∀ j req n, may_deliver d (MAppend j req) n → start_ok req n) → size members ≠ 1%nat →
  inv members (rc_base rc) → inv members (rc_base rc') → Forall msg_u64 (rc_msgs rc) →
  linv members (rc_base rc) (rc_msgs rc) LL → rstep d rc rc' →
  ∃ LL', linv members (rc_base rc') (rc_msgs rc') LL'.
Proof.
  intros Hstart Hsize Hinv Hinv' Hmu Hl Hs. rewrite Forall_forall in Hmu.
  destruct Hs as [c c' ms Hs Hroom|rc i n ev Hn Hloc Hok Hroom|c ms i n machine store n' Hn Hfiles _ Hnew
    |rc i n p term req Hn Hpeer Hu Hp _|rc i n p term Hn Hpeer Ht _|rc j n req resp n' Hin Hn Hall Hh
    |rc i n j req resp Hin Hn _ Hur|rc i n p term req n' Hn _ Ht Hp _|rc j n req resp n' Hin Hn Hall Hh
    |rc i n j req resp Hin Hn _ Hur]; simpl in *; [eapply (linv_election _ c); eassumption|eapply linv_local; eassumption|..];
    exists LL.
  - by eapply linv_restart.
  - apply linv_cons; [done|]. by eapply linv_send.
  - apply linv_cons; [done|by left].
  - eapply linv_append; eauto. exact (Hmu _ Hin).
  - pose proof (node_exec_safe (NAppendReply j (ae_Term req) req (Ok resp)) n Hur) as Hsafe.
    eapply linv_keeps; [exact Hl | apply evolves_node; [done|apply tv_step_le, Hsafe]
      | exact Hsafe | by apply replicate_reply_keeps | auto].
  - destruct (l_node _ _ _ _ Hl i n Hn) as (l & Hnl & _).
    destruct (install_prepare_log _ _ _ _ _ _ Hnl Hp) as [Hreg Hk].
    pose proof (node_exec_safe (NInstallPrepare term) n I) as Hsafe. simpl in Hsafe.
    rewrite Hp in Hsafe. by eapply linv_sends.
  - eapply linv_install; eauto. exact (Hmu _ Hin).
  - pose proof (node_exec_safe (NInstallReply j (is_Term req) req (Ok resp)) n Hur) as Hsafe.
    eapply linv_keeps; [exact Hl | apply evolves_node; [done|apply tv_step_le, Hsafe]
      | exact Hsafe | by apply install_reply_keeps | auto].
Qed.

Lemma rinitial_linv members rc :
  rinitial members rc → linv members (rc_base rc) (rc_msgs rc) ∅.
Proof.
  intros [Hb Hm Hlog]. split.
  - intros t L HL. by rewrite lookup_empty in HL.
  - intros t L HL. by rewrite lookup_empty in HL.
  - intros i n Hn. destruct (Hlog i n Hn) as ((t & v & Hr) & Hf & _). exists []. split.
    + split; [|apply log_ok_nil|intros b meta; congruence].
      eexists. split; [exact Hr|]. split; try done.
    + destruct (init_node _ _ Hb i n Hn) as (_ & Hrole & _). congruence.
  - rewrite Hm. set_solver.
Qed.

Lemma rreachable_inv d members rc :
  rreachable d members rc → inv members (rc_base rc) ∧ Forall msg_u64 (rc_msgs rc).
Proof.
  induction 1 as [rc Hi|rc rc' _ [Hinv Hm] Hs]; [|exact (rstep_inv _ _ _ _ Hinv Hm Hs)].
  destruct Hi as [Hb Hm _]. rewrite Hm. split; [by apply initial_inv|constructor].
Qed.

Lemma rreachable_linv d members rc :
  (∀ j req n, may_deliver d (MAppend j req) n → start_ok req n) → size members ≠ 1%nat →
  rreachable d members rc → ∃ LL, linv members (rc_base rc) (rc_msgs rc) LL.
Proof.
  intros Hstart Hsize. induction 1 as [rc Hi|rc rc' Hr [LL Hl] Hs]; [eauto using rinitial_linv|].
  destruct (rreachable_inv _ _ _ Hr) as [Hinv Hm].
  destruct (rstep_inv _ _ _ _ Hinv Hm Hs) as [Hinv' _]. exact (linv_rstep _ _ _ _ _ Hstart Hsize Hinv Hinv' Hm Hl Hs).
Qed.

Lemma two_members d members rc i j n m :
  rreachable d members rc → c_nodes (rc_base rc) !! i = Some n → c_nodes (rc_base rc) !! j = Some m →
  i ≠ j → size members ≠ 1%nat.
Proof.
  intros Hr Hn Hm Hij Hs. destruct (rreachable_inv _ _ _ Hr) as [Hinv _].
  apply Hij, (size_singleton_inv members); [done|by eapply inv_member..].
Qed.

(** C7: Log matching.  In every reachable state of a cluster whose messages may be
    delayed, repeated or lost, whose nodes compact their logs, install snapshots,
    crash and restart, and whose writes may fail: when two nodes hold entries of
    the same term at the same index, the entries that they hold at this and at
    every lower index are the same.  The deliveries left out are requests that
    start at index 1 and reach a log that has been compacted since they were
    sent, which [stale_request_breaks_compacted_log] shows to corrupt the log. *)
Theorem log_matching members rc i j n m k e f :
  rreachable fresh_start members rc →
  c_nodes (rc_base rc) !! i = Some n → c_nodes (rc_base rc) !! j = Some m →
  is_u64 k → Log.Get k (log n) = Ok e → Log.Get k (log m) = Ok f → Term e = Term f →
  ∀ k' e' f', 0 ≤ k' ≤ k → Log.Get k' (log n) = Ok e' → Log.Get k' (log m) = Ok f' → e' = f'.
Proof.
  intros Hr Hn Hm Hk He Hf Ht k' e' f' Hk' He' Hf'.
  destruct (decide (i = j)) as [->|Hij]; [congruence|].
  pose proof (two_members _ _ _ _ _ _ _ Hr Hn Hm Hij) as Hsize.
  destruct (rreachable_linv fresh_start members rc (λ _ _ _ Hs, Hs) Hsize Hr) as [LL Hl].
  destruct (l_node _ _ _ _ Hl i n Hn) as (l1 & [Hf1 Hok1 _] & _).
  destruct (l_node _ _ _ _ Hl j m Hm) as (l2 & [Hf2 Hok2 _] & _).
  apply (full_Get _ _ _ _ Hf1) in He as [Hpos He], He' as [Hpos' He']; [|u64_lia..].
  apply (full_Get _ _ _ _ Hf2) in Hf as [_ Hf], Hf' as [_ Hf']; [|u64_lia..].
  pose proof (log_ok_agree LL l1 l2 _ e f Hok1 Hok2 He Hf Ht) as Htake.
  rewrite <-(lookup_take_lt l1 (S (Z.to_nat (k - 1)))) in He' by lia.
  rewrite <-(lookup_take_lt l2 (S (Z.to_nat (k - 1)))) in Hf' by lia. congruence.
Qed.

End matching.

(** ** Witness: n1 wins an election and replicates its first entry to n2 *)

Import Gob Json.

Definition append1 : AppendEntriesRequest :=
  mkAEReq 1 "n1" 0 0 [mkEntry 1 1 EntryNoop "" [] ""] 0 "".

Definition n2_appended := (HandleAppendEntries append1 n2_voted).2.

Definition replicated : rcluster (E := MemEngine) (K := MemEngine) :=
  send_msg (MAppendReply "n2" append1 (mkAEResp 1 true 0 0))
    (put_node "n2" n2_appended (send_msg (MAppend "n2" append1) (mkRCluster cluster4 []))).

Lemma cluster0_rinitial : rinitial members3 (mkRCluster cluster0 []).
Proof.
  split; [exact cluster0_initial | done |]. intros i n Hi. simpl in Hi.
  repeat (apply lookup_insert_Some in Hi as [[<- <-]|[_ Hi]]);
    [..|apply lookup_singleton_Some in Hi as [<- <-]];
    (split; [exists 0, ""%string; exact empty_log_rep | split_and!; reflexivity]).
Qed.

(** Every log of the example is short. *)
Ltac small_logs :=
  let i := fresh "i" in let n := fresh "n" in let Hi := fresh "Hi" in
  intros i n Hi; simpl in Hi;
  repeat (apply lookup_insert_Some in Hi as [[<- <-]|[_ Hi]]);
    [..|apply lookup_singleton_Some in Hi as [<- <-]]; vm_compute; reflexivity.

Lemma elected_rreachable d : rreachable d members3 (mkRCluster cluster4 []).
Proof.
  eapply RR_step; [|apply (X_election _ _ _ _ cluster_step4); small_logs].
  eapply RR_step; [|apply (X_election _ _ _ _ cluster_step3); small_logs].
  eapply RR_step; [|apply (X_election _ _ _ _ cluster_step2); small_logs].
  eapply RR_step; [|apply (X_election _ _ _ _ cluster_step1); small_logs].
  apply RR_init, cluster0_rinitial.
Qed.

Lemma replicated_rreachable : rreachable fresh_start members3 replicated.
Proof.
  eapply RR_step; [eapply RR_step; [apply elected_rreachable|]|].
  - apply (X_send _ _ "n1" n1_leader "n2" 1 append1);
      [reflexivity | by left | by vm_compute | vm_compute; reflexivity | done].
  - apply (X_append _ _ "n2" n2_voted append1 (mkAEResp 1 true 0 0) n2_appended);
      [by left | reflexivity | by right | vm_compute; reflexivity].
Qed.

Lemma log_matching_witness :
  rreachable fresh_start members3 replicated ∧
  ∃ e f, Log.Get 1 (log n1_leader) = Ok e ∧ Log.Get 1 (log n2_appended) = Ok f ∧ e = f.
Proof.
  split; [exact replicated_rreachable|].
  exists (mkEntry 1 1 EntryNoop "" [] ""), (mkEntry 1 1 EntryNoop "" [] "").
  assert (Log.Get 1 (log n1_leader) = Ok (mkEntry 1 1 EntryNoop "" [] "")) as He
    by (vm_compute; reflexivity).
  assert (Log.Get 1 (log n2_appended) = Ok (mkEntry 1 1 EntryNoop "" [] "")) as Hf
    by (vm_compute; reflexivity).
  split; [exact He|]. split; [exact Hf|].
  apply (log_matching members3 replicated "n1" "n2" n1_leader n2_appended 1
    (mkEntry 1 1 EntryNoop "" [] "") (mkEntry 1 1 EntryNoop "" [] "") replicated_rreachable)
    with (k' := 1);
    [reflexivity | reflexivity | by vm_compute | exact He | exact Hf | reflexivity | lia | exact He | exact Hf].
Defined.
