(* ===== verification/Commitment.v ===== *)
(** * Commitment: what a quorum of acknowledgements guarantees.

    On a history of leaders' logs, with a record of which node acknowledged which
    prefix in which term and of the votes that each winner had, an entry that a
    quorum acknowledged in its own term is in the log of every later leader.
    [leader_keeps] is this argument, free of any state of the nodes. *)

From S2P Require Import Prelude Bytes Storage Codec Log LogSpec LogTheorems FullLog StateMachine.
From S2P Require Import SnapshotStore Node Election Replication Apply Client ElectionTheorems.
From S2P Require Import VoteSafety ElectionSafety ReplicationTheorems Network LogMatching.

(** The entries of [l] up to index [k]. *)
Definition cut (k : Z) (l : list Entry) : list Entry := take (Z.to_nat k) l.

Lemma cut_prefix k l : cut k l `prefix_of` l.
Proof. apply prefix_take. Qed.

Lemma cut_length k l : 0 ≤ k ≤ Z.of_nat (length l) → Z.of_nat (length (cut k l)) = k.
Proof. intros. unfold cut. rewrite length_take. lia. Qed.

Lemma cut_of_prefix k l1 l2 :
  l1 `prefix_of` l2 → k ≤ Z.of_nat (length l1) → cut k l2 = cut k l1.
Proof. intros Hp Hk. unfold cut. apply prefix_take_le; [done|lia]. Qed.

Lemma cut_cut k k' l : k ≤ k' → cut k (cut k' l) = cut k l.
Proof. intros Hk. unfold cut. rewrite take_take. f_equal. lia. Qed.

(** [l] starts with the first [k] entries of [L]. *)
Lemma prefix_cut k L l :
  0 ≤ k ≤ Z.of_nat (length L) →
  cut k L `prefix_of` l ↔ k ≤ Z.of_nat (length l) ∧ cut k l = cut k L.
Proof.
  intros Hk. pose proof (cut_length k L Hk) as Hlen. split.
  - intros Hp. pose proof (prefix_length _ _ Hp). split; [lia|].
    rewrite (cut_of_prefix k _ _ Hp) by lia. by rewrite cut_cut by lia.
  - intros [_ <-]. apply cut_prefix.
Qed.

Lemma cut_prefix_le k k' L l :
  k ≤ k' → cut k' L `prefix_of` l → cut k L `prefix_of` l.
Proof. intros Hk Hp. rewrite <-(cut_cut k k' L) by done. etrans; [apply cut_prefix|done]. Qed.

Lemma term_of_cut k k' l : k' ≤ k → k' ≤ Z.of_nat (length l) → term_of (cut k l) k' = term_of l k'.
Proof.
  intros Hk Hl. symmetry. apply term_of_prefix; [apply cut_prefix|].
  unfold cut. rewrite length_take. lia.
Qed.

(** Two lists with the same first [k] entries have the same terms there. *)
Lemma term_of_agree k k' l1 l2 :
  cut k l1 = cut k l2 → k' ≤ k → k' ≤ Z.of_nat (length l1) → k' ≤ Z.of_nat (length l2) →
  term_of l1 k' = term_of l2 k'.
Proof.
  intros Hc Hk H1 H2. rewrite <-(term_of_cut k k' l1), <-(term_of_cut k k' l2) by done. by rewrite Hc.
Qed.

(** ** Acknowledgements and commitment *)

(** Some later leader, up to term [u], does not have the first [k] entries that
    the leader of [t] has. *)
Definition overridden (LL : history) (t k u : Z) : Prop :=
  ∃ u' L L', t < u' ≤ u ∧ LL !! t = Some L ∧ 0 ≤ k ≤ Z.of_nat (length L) ∧ LL !! u' = Some L' ∧
    ¬ cut k L `prefix_of` L'.

(** [l] has the first [k] entries of the leader of [t]. *)
Definition holds (LL : history) (l : list Entry) (t k : Z) : Prop :=
  ∃ L, LL !! t = Some L ∧ 0 ≤ k ≤ Z.of_nat (length L) ∧ cut k L `prefix_of` l.

(** No leader has entries of a later term. *)
Definition bounded (LL : history) : Prop :=
  ∀ t L k, LL !! t = Some L → term_of L k ≤ t.

(** A leader appends at most one entry, of its own term. *)
Definition hist_next (LL LL' : history) : Prop :=
  LL' = LL ∨
  ∃ t l', LL' = <[t := l']> LL ∧
    (LL !! t = None ∨ LL !! t = Some l' ∨ ∃ l e, LL !! t = Some l ∧ l' = l ++ [e] ∧ Term e = t).

Lemma hist_next_lookup LL LL' t L :
  hist_next LL LL' → LL !! t = Some L →
  LL' !! t = Some L ∨ ∃ e, LL' !! t = Some (L ++ [e]) ∧ Term e = t.
Proof.
  intros [->|(t' & l' & -> & Hor)] HL; [by left|].
  destruct (decide (t = t')) as [->|Hne]; [|by rewrite lookup_insert_ne by done; left].
  rewrite lookup_insert_eq. destruct Hor as [|[|(l & e & Hl & -> & He)]]; [congruence|left; congruence|].
  right. exists e. split; [congruence|done].
Qed.

Lemma hist_next_grows LL LL' : hist_next LL LL' → grows LL LL'.
Proof.
  intros Hn t L HL. destruct (hist_next_lookup _ _ _ _ Hn HL) as [?|(e & ? & _)]; eauto.
  eexists. split; [done|]. by eexists.
Qed.

Lemma cut_snoc k L e : k ≤ Z.of_nat (length L) → cut k (L ++ [e]) = cut k L.
Proof. intros Hk. unfold cut. by rewrite take_app_le by lia. Qed.

Lemma holds_next LL LL' l l' t k :
  hist_next LL LL' → l `prefix_of` l' → holds LL l t k → holds LL' l' t k.
Proof.
  intros Hn Hp (L & HL & Hk & Hl).
  destruct (hist_next_lookup _ _ _ _ Hn HL) as [HL'|(e & HL' & _)]; (eexists; split; [exact HL'|]).
  - split; [done|by etrans].
  - rewrite length_app, cut_snoc by lia. split; [lia|by etrans].
Qed.

Lemma overridden_next LL LL' t k u u' :
  hist_next LL LL' → bounded LL → u ≤ u' → overridden LL t k u → overridden LL' t k u'.
Proof.
  intros Hn Hb Hu (v & L & L' & Hv & HL & Hk & HL' & Hno).
  assert (∃ L1, LL' !! t = Some L1 ∧ k ≤ Z.of_nat (length L1) ∧ cut k L1 = cut k L) as (L1 & HL1 & Hk1 & Hc).
  { destruct (hist_next_lookup _ _ _ _ Hn HL) as [?|(e & ? & _)]; eexists; (split; [done|]);
      [split; [lia|done]|].
    rewrite length_app, cut_snoc by lia. split; [lia|done]. }
  assert (∃ L2, LL' !! v = Some L2 ∧ ¬ cut k L `prefix_of` L2) as (L2 & HL2 & Hno2).
  { destruct (hist_next_lookup _ _ _ _ Hn HL') as [?|(e & ? & He)]; eexists; (split; [done|]); [done|].
    intros Hp. apply prefix_cut in Hp as [Hlen Hp]; [|done]. rewrite length_app in Hlen. simpl in Hlen.
    destruct (Z.le_gt_cases k (Z.of_nat (length L'))) as [Hle|Hgt].
    - apply Hno, prefix_cut; [done|]. by rewrite cut_snoc in Hp.
    - pose proof (Hb t L k HL) as Hbt. assert (term_of L k = v); [|lia].
      rewrite <-(term_of_agree k k _ _ Hp) by (rewrite ?length_app; simpl; lia).
      replace k with (Z.of_nat (length L') + 1) by lia. rewrite <-He. apply term_of_lookup.
      by rewrite lookup_app_r, Nat.sub_diag. }
  exists v, L1, L2. rewrite Hc. split_and!; (done || lia).
Qed.

Lemma registered_back LL LL' k t L :
  hist_next LL LL' → LL !! t = Some L → k ≤ Z.of_nat (length L) →
  registered LL' k t → registered LL k t.
Proof.
  intros Hn HL Hk (L' & HL' & Hk' & Ht). exists L.
  destruct (hist_next_lookup _ _ _ _ Hn HL) as [?|(e & ? & _)].
  - assert (L' = L) as -> by congruence. done.
  - assert (L' = L ++ [e]) as -> by congruence. rewrite term_of_app in Ht by done.
    split_and!; (done || lia).
Qed.

Section commitment.
Context (members : gset string) (acks : string → Z → Z → Prop).

Definition committed (LL : history) (t k : Z) : Prop :=
  ∃ L, LL !! t = Some L ∧ 0 < k ≤ Z.of_nat (length L) ∧ term_of L k = t ∧
    ∃ q : gset string, q ⊆ members ∧ majority members ≤ Z.of_nat (size q) ∧ ∀ j, j ∈ q → acks j t k.

(** The winner of [u] had a log that ended at [li], and a majority of voters
    each of which had acknowledged only prefixes that this log outdates, or that
    a leader before [u] had overridden. *)
Definition win_ok (voter : string → Z → Prop) (LL : history) (u : Z) (L : list Entry) : Prop :=
  ∃ (q : gset string) li, q ⊆ members ∧ majority members ≤ Z.of_nat (size q) ∧
    0 ≤ li ≤ Z.of_nat (length L) ∧ term_of L li < u ∧
    ∀ j, j ∈ q → voter j u ∧
      ∀ t k, t < u → acks j t k → registered LL k t →
        t < term_of L li ∨ t = term_of L li ∧ k ≤ li ∨ overridden LL t k (u - 1).

Lemma committed_registered LL t k : committed LL t k → registered LL k t.
Proof. intros (L & HL & Hk & Ht & _). by exists L. Qed.

(** A committed prefix is in the log of every later leader. *)
Lemma leader_keeps voter LL t k u L L' :
  hist_ok LL → bounded LL → (∀ u L, LL !! u = Some L → win_ok voter LL u L) →
  committed LL t k → LL !! t = Some L → LL !! u = Some L' → t < u → cut k L `prefix_of` L'.
Proof.
  intros Hh Hb Hw Hc HL. pose proof (committed_registered _ _ _ Hc) as Hreg.
  destruct Hc as (L0 & HL0 & Hk & Ht & q1 & Hq1 & Hs1 & Hacks).
  assert (L0 = L) as -> by congruence.
  assert (0 < t) by (by apply (Hh t L HL)).
  remember (Z.to_nat u) as b eqn:Hbu. revert u L' Hbu.
  induction (lt_wf b) as [b _ IH]. intros u L' Hbu HL' Htu.
  destruct (Hw u L' HL') as (q2 & li & Hq2 & Hs2 & Hli & Hlt & Hvotes).
  destruct (majorities_meet _ _ _ Hq1 Hq2 Hs1 Hs2) as (j & Hj1 & Hj2).
  destruct (Hvotes j Hj2) as [_ Hv].
  destruct (Hh u L' HL') as (Hu & [_ Hm] & _).
  assert (term_of L' li ≠ 0 → ∃ L2, LL !! term_of L' li = Some L2 ∧ cut li L' `prefix_of` L2) as Hlast.
  { intros Hne. assert (0 < li) by (unfold term_of in Hne; destruct (Z.leb_spec li 0); [done|lia]).
    destruct (lookup_index L' li ltac:(lia)) as (e & He & Hte). rewrite Hte.
    destruct (Hm _ _ He) as (L2 & HL2 & Hp). exists L2. split; [done|].
    unfold cut. by replace (Z.to_nat li) with (S (Z.to_nat (li - 1))) by lia. }
  destruct (Hv t k Htu (Hacks j Hj1) Hreg) as [Hgt|[[Heq Hle]|(u' & La & Lb & Hu' & HLa & _ & HLb & Hn)]].
  - destruct (Hlast ltac:(lia)) as (L2 & HL2 & Hp).
    pose proof (IH (Z.to_nat (term_of L' li)) ltac:(lia) _ L2 eq_refl HL2 Hgt) as Hin.
    apply prefix_cut in Hin as [Hk2 Hcut]; [|lia].
    destruct (Z.le_gt_cases k li) as [Hkl|Hkl].
    + apply prefix_cut; [lia|]. split; [lia|]. rewrite <-Hcut.
      rewrite (cut_of_prefix k _ _ Hp) by (rewrite cut_length; lia). by rewrite cut_cut.
    + exfalso. pose proof (Hb t L li HL).
      assert (term_of L li = term_of L' li) as Hbad; [|lia].
      rewrite (term_of_agree k li L L2) by (done || lia).
      rewrite (term_of_prefix _ _ li Hp) by (rewrite cut_length; lia). apply term_of_cut; lia.
  - destruct (Hlast ltac:(lia)) as (L2 & HL2 & Hp). rewrite <-Heq, HL in HL2. injection HL2 as <-.
    apply prefix_cut; [lia|]. split; [lia|].
    rewrite (cut_of_prefix k _ _ Hp) by (rewrite cut_length; lia). by rewrite cut_cut.
  - exfalso. assert (La = L) as -> by congruence. apply Hn.
    apply (IH (Z.to_nat u') ltac:(lia) u' Lb); (done || lia).
Qed.

(** Index [k] is committed, in a term up to [T]. *)
Definition known (LL : history) (T k : Z) : Prop :=
  k ≤ 0 ∨ ∃ t k', t ≤ T ∧ k ≤ k' ∧ committed LL t k'.

(** The first [k] entries of [l] are committed, in a term up to [T]. *)
Definition safe (LL : history) (T k : Z) (l : list Entry) : Prop :=
  k ≤ 0 ∨ ∃ t L k', t ≤ T ∧ LL !! t = Some L ∧ k ≤ k' ∧ committed LL t k' ∧ cut k L `prefix_of` l.

Lemma safe_known LL T k l : safe LL T k l → known LL T k.
Proof. intros [?|(t & L & k' & ? & _ & ? & ? & _)]; [by left|right; eauto]. Qed.

Lemma known_le LL T T' k k' : T ≤ T' → k' ≤ k → known LL T k → known LL T' k'.
Proof.
  intros HT Hk [?|(t & k1 & ? & ? & ?)]; [left; lia|right].
  exists t, k1. split_and!; (done || lia).
Qed.

Lemma safe_le LL T T' k k' l : T ≤ T' → k' ≤ k → safe LL T k l → safe LL T' k' l.
Proof.
  intros HT Hk [?|(t & L & k1 & ? & ? & ? & ? & Hp)]; [left; lia|right].
  exists t, L, k1. split_and!; try (done || lia). by eapply cut_prefix_le.
Qed.

Lemma safe_length LL T k l : safe LL T k l → k ≤ Z.of_nat (length l).
Proof.
  intros [?|(t & L & k' & _ & HL & Hk & (L' & HL' & Hk' & _) & Hp)]; [lia|].
  assert (L' = L) as -> by congruence. destruct (Z.le_gt_cases k 0); [lia|].
  apply prefix_cut in Hp; lia.
Qed.

(** Two leaders agree on what is committed. *)
Lemma committed_agree voter LL t k u L L' :
  hist_ok LL → bounded LL → (∀ u L, LL !! u = Some L → win_ok voter LL u L) →
  committed LL t k → LL !! t = Some L → LL !! u = Some L' → t ≤ u → cut k L `prefix_of` L'.
Proof.
  intros Hh Hb Hw Hc HL HL' Htu. destruct (Z.eq_dec t u) as [->|].
  - assert (L' = L) as -> by congruence. apply cut_prefix.
  - eapply leader_keeps; try done. lia.
Qed.

(** What is committed is committed in every leader's log of the later term. *)
Lemma safe_leader voter LL T k l u L :
  hist_ok LL → bounded LL → (∀ u L, LL !! u = Some L → win_ok voter LL u L) →
  safe LL T k l → LL !! u = Some L → T ≤ u → cut k l `prefix_of` L.
Proof.
  intros Hh Hb Hw Hs HL HT.
  destruct Hs as [Hk|(t & Lt & k' & Ht & HLt & Hk & Hc & Hp)].
  { unfold cut. replace (Z.to_nat k) with 0%nat by lia. apply prefix_nil. }
  destruct (Z.le_gt_cases k 0) as [Hk0|Hk0].
  { unfold cut. replace (Z.to_nat k) with 0%nat by lia. apply prefix_nil. }
  pose proof Hc as (L' & HL' & Hk' & _). assert (L' = Lt) as -> by congruence.
  apply prefix_cut in Hp as [_ ->]; [|lia].
  eapply cut_prefix_le; [exact Hk|]. eapply committed_agree; try done. lia.
Qed.

(** Committed prefixes of two logs agree. *)
Lemma safe_agree voter LL T1 T2 k l1 l2 :
  hist_ok LL → bounded LL → (∀ u L, LL !! u = Some L → win_ok voter LL u L) →
  safe LL T1 k l1 → safe LL T2 k l2 → cut k l1 = cut k l2.
Proof.
  intros Hh Hb Hw H1 H2.
  destruct (Z.le_gt_cases k 0) as [Hk0|Hk0].
  { unfold cut. by replace (Z.to_nat k) with 0%nat by lia. }
  destruct H1 as [?|(t1 & L1 & k1 & Ht1 & HL1 & Hk1 & Hc1 & Hp1)]; [lia|].
  destruct H2 as [?|(t2 & L2 & k2 & Ht2 & HL2 & Hk2 & Hc2 & Hp2)]; [lia|].
  pose proof Hc1 as (La & HLa & Hka & _). assert (La = L1) as -> by congruence.
  pose proof Hc2 as (Lb & HLb & Hkb & _). assert (Lb = L2) as -> by congruence.
  apply prefix_cut in Hp1 as [_ ->]; [|lia]. apply prefix_cut in Hp2 as [_ ->]; [|lia].
  destruct (Z.le_ge_cases t1 t2).
  - pose proof (committed_agree _ _ _ _ _ _ _ Hh Hb Hw Hc1 HL1 HL2 ltac:(done)) as Hp.
    apply (cut_prefix_le k) in Hp; [|done]. apply prefix_cut in Hp as [_ ?]; [done|lia].
  - pose proof (committed_agree _ _ _ _ _ _ _ Hh Hb Hw Hc2 HL2 HL1 ltac:(done)) as Hp.
    apply (cut_prefix_le k) in Hp; [|done]. apply prefix_cut in Hp as [_ ?]; [done|lia].
Qed.

End commitment.

Section growing.
Context (members : gset string) (acks acks' : string → Z → Z → Prop) (LL LL' : history).
Context (Hacks : ∀ j t k, acks j t k → acks' j t k) (Hnext : hist_next LL LL').

Lemma committed_next t k : committed members acks LL t k → committed members acks' LL' t k.
Proof.
  intros (L & HL & Hk & Ht & q & Hq & Hs & Ha).
  destruct (hist_next_grows _ _ Hnext _ _ HL) as (L' & HL' & Hp).
  exists L'. pose proof (prefix_length _ _ Hp).
  rewrite (term_of_prefix _ _ _ Hp) by lia. split_and!; try (done || lia).
  exists q. split_and!; auto.
Qed.

Lemma known_next T k : known members acks LL T k → known members acks' LL' T k.
Proof. intros [?|(t & k' & ? & ? & ?)]; [by left|right]. eauto 6 using committed_next. Qed.

Lemma safe_next T k l l' :
  l `prefix_of` l' → safe members acks LL T k l → safe members acks' LL' T k l'.
Proof.
  intros Hp [?|(t & L & k' & Ht & HL & Hk & Hc & Hl)]; [by left|right].
  destruct (hist_next_grows _ _ Hnext _ _ HL) as (L' & HL' & HpL).
  exists t, L', k'. split_and!; try done; [by apply committed_next|].
  destruct Hc as (L0 & HL0 & Hk0 & _). assert (L0 = L) as -> by congruence.
  rewrite (cut_of_prefix k _ _ HpL) by lia. by etrans.
Qed.

End growing.
