(* ===== verification/CommitSafety.v ===== *)
(** * Commitment in a running cluster: leader completeness and state machine safety.

    A quorum that acknowledged an entry in its term keeps it: the entry is in the
    log of every later leader, and all nodes agree on what is committed.  This
    needs the discipline [careful], which leaves out the deliveries that other
    theorems show to lose committed entries: a request that cuts entries which
    match, a commit index beyond the entries that a request vouches for, a term or
    snapshot that the storage does not record. *)

From S2P Require Import Prelude Bytes Storage Codec Log LogSpec LogTheorems FullLog StateMachine.
From S2P Require Import SnapshotStore Node Election Replication Apply Client ElectionTheorems.
From S2P Require Import VoteSafety ElectionSafety ReplicationTheorems Network LogMatching Commitment.
Import KV.

Section safety.
Context {E K : Type} `{EngineSpec E} `{Engine K} `{CodecSpec Entry}
  `{CodecSpec (gmap string bytes)} `{CodecSpec SnapshotMeta}.
Implicit Types (n m : Node E K) (l : list Entry) (LL : history).

Abbreviation clus := (cluster (E := E) (K := K)).
Implicit Types (c : clus).

(** ** The discipline *)

Definition sent_to (req : AppendEntriesRequest) : Z :=
  ae_PrevLogIndex req + Z.of_nat (length (ae_Entries req)).

(** The log becomes shorter only when an entry of the request conflicts with it. *)
Definition cuts_conflict (req : AppendEntriesRequest) n : Prop :=
  lastIndex (log (HandleAppendEntries req n).2) < lastIndex (log n) →
  ∃ e f, e ∈ ae_Entries req ∧ Log.Get (Index e) (log n) = Ok f ∧ Term f ≠ Term e.

(** The commit index does not pass the entries that the request vouches for. *)
Definition commits_checked (req : AppendEntriesRequest) n : Prop :=
  commitIndex (HandleAppendEntries req n).2 ≤ Z.max (commitIndex n) (sent_to req).

Definition installs_conflict (req : InstallSnapshotRequest) n : Prop :=
  lastIndex (log (HandleInstallSnapshot req n).2) < lastIndex (log n) →
  ∃ t, TermAt (is_LastIncludedIndex req) (log n) = Some t ∧ t ≠ is_LastIncludedTerm req.

Definition restores (req : InstallSnapshotRequest) n : Prop :=
  ∀ snap, UnmarshalSnapshot (is_Data req) = Ok snap →
    (Restore snap (is_LastIncludedIndex req) (sm n)).1 = None.

Definition careful : discipline E K := mkDiscipline
  (λ msg n, match msg with
            | MAppend _ req => ae_Term req = currentTerm (log n)
            | MInstall _ req => is_Term req = currentTerm (log n)
            | _ => True
            end)
  (λ msg n, match msg with
            | MAppend _ req => start_ok req n ∧ accepts_for 1 (engine (log n)) ∧
                cuts_conflict req n ∧ commits_checked req n
            | MInstall _ req => accepts_for 2 (engine (log n)) ∧ restores req n ∧
                installs_conflict req n
            | _ => True
            end)
  (λ _ _, True).

(** ** The invariant *)

(** Node [j] acknowledged the first [k] entries of the leader of term [t]: it
    answered a request of that term, or it is that leader. *)
Definition ack (members : gset string) (c : clus) (ms : list message) LL (j : string) (t k : Z) : Prop :=
  0 ≤ k ∧
  ((∃ req resp, MAppendReply j req resp ∈ ms ∧ aer_Success resp = true ∧ ae_Entries req ≠ [] ∧
      ae_Term req = t ∧ k ≤ sent_to req) ∨
   elected members (c_votes c) t j ∧ ∃ L, LL !! t = Some L ∧ k ≤ Z.of_nat (length L)).

Definition reached (c : clus) (j : string) (t : Z) : Prop :=
  ∃ n, c_nodes c !! j = Some n ∧ t ≤ currentTerm (log n).

Record node_safe (members : gset string) (a : string → Z → Z → Prop) LL n l : Prop := {
  ns_nonneg : 0 ≤ commitIndex n ∧ 0 ≤ lastApplied n;
  ns_terms : ∀ k, term_of l k ≤ currentTerm (log n);
  ns_commit : safe members a LL (currentTerm (log n)) (commitIndex n) l;
  ns_snap : ∀ b meta, files (snapStore n) !! metaPath = Some b → decode b = Ok meta →
    safe members a LL (currentTerm (log n)) (LastIncludedIndex meta) l ∧
    term_of l (LastIncludedIndex meta) = LastIncludedTerm meta;
  ns_match : role n = Leader → ∀ p, p ∈ peers n →
    match_of p n ≤ 0 ∨ a p (currentTerm (log n)) (match_of p n) ∨
    known members a LL (currentTerm (log n)) (match_of p n)
}.

(** A vote for the request [r] was given with a log that [r] outdates. *)
Definition vote_ok (a : string → Z → Z → Prop) LL (j : string) (r : RequestVoteRequest) : Prop :=
  ∀ t k, t < rv_Term r → a j t k → registered LL k t →
    t < rv_LastLogTerm r ∨ t = rv_LastLogTerm r ∧ k ≤ rv_LastLogIndex r ∨
    overridden LL t k (rv_Term r).

(** The request of an election describes the candidate's log. *)
Definition describes (r : RequestVoteRequest) l : Prop :=
  rv_LastLogIndex r = Z.of_nat (length l) ∧ rv_LastLogTerm r = term_of l (Z.of_nat (length l)).

Definition request_safe (members : gset string) (a : string → Z → Z → Prop) LL
    (req : AppendEntriesRequest) : Prop :=
  is_u64 (ae_PrevLogIndex req) ∧
  ∃ l, log_ok LL l ∧ safe members a LL (ae_Term req) (ae_LeaderCommit req) l ∧
    (ae_PrevLogTerm req ≠ 0 → ae_PrevLogIndex req ≤ Z.of_nat (length l) ∧
      ae_PrevLogTerm req = term_of l (ae_PrevLogIndex req)) ∧
    (ae_Entries req ≠ [] → 0 ≤ ae_PrevLogIndex req ≤ Z.of_nat (length l) ∧
      ae_PrevLogTerm req = term_of l (ae_PrevLogIndex req) ∧
      ae_Entries req `prefix_of` drop (Z.to_nat (ae_PrevLogIndex req)) l).

Definition snapshot_safe (members : gset string) (a : string → Z → Z → Prop) LL
    (req : InstallSnapshotRequest) : Prop :=
  0 < is_LastIncludedIndex req ∧
  ∃ l, log_ok LL l ∧ safe members a LL (is_Term req) (is_LastIncludedIndex req) l ∧
    term_of l (is_LastIncludedIndex req) = is_LastIncludedTerm req.

Definition cmsg_ok (members : gset string) (a : string → Z → Z → Prop) LL (ms : list message)
    (msg : message) : Prop :=
  match msg with
  | MAppend _ req => request_safe members a LL req
  | MInstall _ req => snapshot_safe members a LL req
  | MAppendReply j req _ => MAppend j req ∈ ms
  | MInstallReply j req _ => MInstall j req ∈ ms
  end.

Record cinv (members : gset string) (c : clus) (ms : list message) LL : Prop := {
  ci_linv : linv members c ms LL;
  ci_bounded : bounded LL;
  ci_wins : ∀ u L, LL !! u = Some L → win_ok members (ack members c ms LL) (reached c) LL u L;
  ci_node : ∀ i n l, c_nodes c !! i = Some n → node_log LL n l →
    node_safe members (ack members c ms LL) LL n l;
  ci_acks : ∀ j t k, ack members c ms LL j t k →
    ∃ n, c_nodes c !! j = Some n ∧ t ≤ currentTerm (log n) ∧
      ∀ l, node_log LL n l → holds LL l t k ∨ overridden LL t k (currentTerm (log n));
  ci_replies : ∀ j r resp, (j, r, resp) ∈ c_replies c → rvr_VoteGranted resp = true →
    vote_ok (ack members c ms LL) LL j r;
  ci_elections : ∀ i n l el r got, c_elections c !! i = Some (mkRunning el r got) →
    c_nodes c !! i = Some n → node_log LL n l → role n = Candidate →
    currentTerm (log n) = el_term el → describes r l ∧ ∀ k, term_of l k < el_term el;
  ci_msgs : ∀ msg, msg ∈ ms → cmsg_ok members (ack members c ms LL) LL ms msg
}.

Arguments ci_linv {_ _ _ _} _.
Arguments ci_bounded {_ _ _ _} _.
Arguments ci_wins {_ _ _ _} _.
Arguments ci_node {_ _ _ _} _.
Arguments ci_acks {_ _ _ _} _.
Arguments ci_replies {_ _ _ _} _.
Arguments ci_elections {_ _ _ _} _.
Arguments ci_msgs {_ _ _ _} _.

(** ** The log of a node is determined *)

Lemma node_log_unique LL n l1 l2 : node_log LL n l1 → node_log LL n l2 → l1 = l2.
Proof.
  intros [(al1 & Hr1 & Hv1) Hok1 _] [(al2 & Hr2 & Hv2) Hok2 _].
  assert (a_base al1 = a_base al2) as Hb by (by rewrite <-(r_li _ _ Hr1), <-(r_li _ _ Hr2)).
  assert (length l1 = length l2) as Hlen.
  { apply Nat2Z.inj. by rewrite <-(view_last _ _ Hv1), <-(view_last _ _ Hv2), <-(r_last _ _ Hr1),
      <-(r_last _ _ Hr2). }
  assert (take (Z.to_nat (a_base al1)) l1 = take (Z.to_nat (a_base al1)) l2) as Htake.
  { pose proof (v_base _ _ Hv1). destruct (Z.eq_dec (a_base al1) 0) as [->|]; [done|].
    eapply log_ok_agree_index; try done; [lia..|].
    rewrite <-(v_term _ _ Hv1), Hb, <-(v_term _ _ Hv2), <-(r_lt _ _ Hr1), <-(r_lt _ _ Hr2). done. }
  assert (drop (Z.to_nat (a_base al1)) l1 = drop (Z.to_nat (a_base al1)) l2) as Hdrop.
  { rewrite <-(v_entries _ _ Hv1), Hb, <-(v_entries _ _ Hv2).
    pose proof (v_base _ _ Hv1). pose proof (v_base _ _ Hv2).
    pose proof (wf_last _ (r_wf _ _ Hr1)) as Hw. pose proof (wf_base _ (r_wf _ _ Hr1)).
    apply list_eq. intros j.
    destruct (decide (j < length (a_entries al1))%nat) as [Hj|Hj].
    - unfold a_last in Hw.
      pose proof (Get_rep _ _ (a_base al1 + 1 + Z.of_nat j) Hr1 ltac:(u64_lia)) as Hg1.
      pose proof (Get_rep _ _ (a_base al1 + 1 + Z.of_nat j) Hr2 ltac:(u64_lia)) as Hg2.
      unfold entry_at in Hg1, Hg2. rewrite <-Hb in Hg2.
      destruct (Z.leb_spec (a_base al1 + 1 + Z.of_nat j) (a_base al1)); [lia|].
      replace (Z.to_nat (a_base al1 + 1 + Z.of_nat j - a_base al1 - 1)) with j in Hg1, Hg2 by lia.
      rewrite Hg1 in Hg2. destruct (a_entries al1 !! j), (a_entries al2 !! j); congruence.
    - rewrite !lookup_ge_None_2; [done| |lia]. rewrite (v_entries _ _ Hv2), length_drop.
      rewrite (v_entries _ _ Hv1), length_drop in Hj. lia. }
  by rewrite <-(take_drop (Z.to_nat (a_base al1)) l1), Htake, Hdrop, take_drop.
Qed.

(** ** Steps: what is inherited *)

Lemma ack_length members c ms LL j t k :
  cinv members c ms LL → ack members c ms LL j t k →
  ∃ L, LL !! t = Some L ∧ k ≤ Z.of_nat (length L).
Proof.
  intros Hc Ha. destruct (ci_acks Hc _ _ _ Ha) as (n & Hn & _ & Hl).
  destruct (l_node _ _ _ _ (ci_linv Hc) _ _ Hn) as (l & Hnl & _).
  destruct (Hl l Hnl) as [(L & ? & ? & _)|(u & L & L' & _ & ? & ? & _)]; exists L; (split; [done|lia]).
Qed.

Lemma node_safe_next members a a' LL LL' n l :
  (∀ j t k, a j t k → a' j t k) → hist_next LL LL' →
  node_safe members a LL n l → node_safe members a' LL' n l.
Proof.
  intros Ha Hn [H0' Ht Hc Hs Hm]. split; [done|done|by eapply safe_next|..].
  - intros b meta Hb Hd. destruct (Hs b meta Hb Hd). split; [by eapply safe_next|done].
  - intros Hr p Hp. destruct (Hm Hr p Hp) as [?|[?|?]]; eauto using known_next.
Qed.

Lemma cmsg_ok_next members a a' LL LL' ms ms' msg :
  (∀ j t k, a j t k → a' j t k) → hist_next LL LL' → (∀ msg, msg ∈ ms → msg ∈ ms') →
  cmsg_ok members a LL ms msg → cmsg_ok members a' LL' ms' msg.
Proof.
  intros Ha Hn Hms. pose proof (hist_next_grows _ _ Hn) as Hg.
  destruct msg as [to req|j req resp|to req|j req resp]; simpl; auto.
  - intros (Hu & l & Hok & Hs & Hp). split; [done|]. exists l. split; [by eapply log_ok_grows|].
    split; [by eapply safe_next|done].
  - intros (Hpos & l & Hok & Hs & Ht). split; [done|]. exists l.
    split; [by eapply log_ok_grows|]. split; [by eapply safe_next|done].
Qed.

Record cstep_ok (members : gset string) (c : clus) (ms : list message) LL (c' : clus)
    (ms' : list message) LL' (i : string) n n' l l' : Prop := {
  st_linv : linv members c' ms' LL';
  st_evolves : evolves i n n' c c';
  st_next : hist_next LL LL';
  st_log : node_log LL n l;
  st_log' : node_log LL' n' l';
  st_ms : ∀ msg, msg ∈ ms → msg ∈ ms';
  st_acks : ∀ j t k, ack members c' ms' LL' j t k → ack members c ms LL j t k ∨
    j = i ∧ currentTerm (log n) ≤ t ≤ currentTerm (log n') ∧ holds LL' l' t k;
  st_keep : ∀ t k, t ≤ currentTerm (log n) → holds LL l t k →
    holds LL' l' t k ∨ overridden LL' t k (currentTerm (log n'));
  st_safe : node_safe members (ack members c' ms' LL') LL' n' l';
  st_bounded : bounded LL';
  st_wins : ∀ u L, LL' !! u = Some L → LL !! u = None →
    win_ok members (ack members c' ms' LL') (reached c') LL' u L;
  st_replies : ∀ j r resp, (j, r, resp) ∈ c_replies c' → rvr_VoteGranted resp = true →
    (j, r, resp) ∈ c_replies c ∨ vote_ok (ack members c' ms' LL') LL' j r;
  st_elections : ∀ j el r got, c_elections c' !! j = Some (mkRunning el r got) →
    j ≠ i ∧ c_elections c !! j = Some (mkRunning el r got) ∨
    j = i ∧ (role n' = Candidate → currentTerm (log n') = el_term el →
      describes r l' ∧ ∀ k, term_of l' k < el_term el);
  st_msgs : ∀ msg, msg ∈ ms' → msg ∈ ms ∨ cmsg_ok members (ack members c' ms' LL') LL' ms' msg
}.

Arguments st_linv {_ _ _ _ _ _ _ _ _ _ _ _} _.
Arguments st_evolves {_ _ _ _ _ _ _ _ _ _ _ _} _.
Arguments st_next {_ _ _ _ _ _ _ _ _ _ _ _} _.
Arguments st_log {_ _ _ _ _ _ _ _ _ _ _ _} _.
Arguments st_log' {_ _ _ _ _ _ _ _ _ _ _ _} _.
Arguments st_ms {_ _ _ _ _ _ _ _ _ _ _ _} _.
Arguments st_acks {_ _ _ _ _ _ _ _ _ _ _ _} _.
Arguments st_keep {_ _ _ _ _ _ _ _ _ _ _ _} _.
Arguments st_safe {_ _ _ _ _ _ _ _ _ _ _ _} _.
Arguments st_bounded {_ _ _ _ _ _ _ _ _ _ _ _} _.
Arguments st_wins {_ _ _ _ _ _ _ _ _ _ _ _} _.
Arguments st_replies {_ _ _ _ _ _ _ _ _ _ _ _} _.
Arguments st_elections {_ _ _ _ _ _ _ _ _ _ _ _} _.
Arguments st_msgs {_ _ _ _ _ _ _ _ _ _ _ _} _.

Section step.
Context members c ms LL c' ms' LL' i n n' l l'
  (Hinv : inv members c) (Hci : cinv members c ms LL)
  (Hst : cstep_ok members c ms LL c' ms' LL' i n n' l l').

Lemma ack_next j t k : ack members c ms LL j t k → ack members c' ms' LL' j t k.
Proof.
  intros [Hk Ha]. split; [done|]. destruct Ha as [(req & resp & Hin & Ha)|[He (L & HL & HkL)]].
  - left. exists req, resp. split; [by apply (st_ms Hst)|done].
  - right. split; [by eapply elected_evolves; [apply Hst|]|].
    destruct (hist_next_grows _ _ (st_next Hst) _ _ HL) as (L' & HL' & Hp).
    apply prefix_length in Hp. exists L'. split; [done|lia].
Qed.

Lemma reached_next j t : reached c j t → reached c' j t.
Proof.
  intros (m & Hm & Ht). destruct (st_evolves Hst) as [Hn Hns _ Hterm _].
  unfold reached. rewrite Hns. destruct (decide (j = i)) as [->|Hne].
  - exists n'. rewrite lookup_insert_eq. split; [done|]. assert (m = n) as -> by congruence. lia.
  - exists m. by rewrite lookup_insert_ne.
Qed.

(** Acknowledgements in a term that the node has left are old. *)
Lemma ack_old j t k u :
  reached c j u → t < u → ack members c' ms' LL' j t k → registered LL' k t →
  ack members c ms LL j t k ∧ registered LL k t.
Proof.
  intros (m & Hm & Hu) Htu Ha Hreg. destruct (st_acks Hst _ _ _ Ha) as [Ho|(-> & Hle & _)].
  - split; [done|]. destruct (ack_length _ _ _ _ _ _ _ Hci Ho) as (L & HL & Hk).
    eapply registered_back; try done. apply Hst.
  - exfalso. pose proof (ev_node _ _ _ _ _ (st_evolves Hst)).
    assert (m = n) as -> by congruence. lia.
Qed.

Lemma overridden_step t k u u' : u ≤ u' → overridden LL t k u → overridden LL' t k u'.
Proof. intros. eapply overridden_next; [apply Hst|apply Hci|done..]. Qed.

Lemma wins_step u L : LL' !! u = Some L → win_ok members (ack members c' ms' LL') (reached c') LL' u L.
Proof.
  intros HL'. destruct (LL !! u) as [L0|] eqn:HL; [|by apply Hst].
  destruct (hist_next_grows _ _ (st_next Hst) _ _ HL) as (L1 & HL1 & Hp).
  assert (L1 = L) as -> by congruence. pose proof (prefix_length _ _ Hp).
  destruct (ci_wins Hci u L0 HL) as (q & li & Hq & Hs & Hli & Hlt & Hv).
  exists q, li. rewrite (term_of_prefix _ _ _ Hp) by lia. split_and!; try (done || lia).
  intros j Hj. destruct (Hv j Hj) as [Hvo Hb]. split; [by apply reached_next|].
  intros t k Htu Ha Hreg. destruct (ack_old _ _ _ _ Hvo Htu Ha Hreg) as [Ho Hro].
  destruct (Hb t k Htu Ho Hro) as [?|[?|Hov]]; auto. right. right.
  exact (overridden_step _ _ _ _ (Z.le_refl _) Hov).
Qed.

Lemma replies_step j r resp :
  (j, r, resp) ∈ c_replies c' → rvr_VoteGranted resp = true → vote_ok (ack members c' ms' LL') LL' j r.
Proof.
  intros Hin Hg. destruct (st_replies Hst _ _ _ Hin Hg) as [Ho|]; [|done].
  pose proof (ci_replies Hci _ _ _ Ho Hg) as Hv. pose proof (i_replies _ _ Hinv _ _ _ Ho Hg) as Hvote.
  destruct (i_votes _ _ Hinv _ _ _ Hvote) as (_ & m & Hm & Hrem).
  intros t k Htu Ha Hreg.
  destruct (ack_old j t k (rv_Term r)) as [Hao Hro]; try done.
  { exists m. split; [done|]. unfold remembers in Hrem. lia. }
  destruct (Hv t k Htu Hao Hro) as [?|[?|Hov]]; auto. right. right.
  exact (overridden_step _ _ _ _ (Z.le_refl _) Hov).
Qed.

Lemma acks_step j t k :
  ack members c' ms' LL' j t k →
  ∃ m, c_nodes c' !! j = Some m ∧ t ≤ currentTerm (log m) ∧
    ∀ l0, node_log LL' m l0 → holds LL' l0 t k ∨ overridden LL' t k (currentTerm (log m)).
Proof.
  intros Ha. destruct (st_evolves Hst) as [Hn Hns _ Hterm _].
  assert (∀ P : Node E K → Prop, j = i → P n' → ∃ m, c_nodes c' !! j = Some m ∧ P m) as Hi.
  { intros P -> HP. exists n'. by rewrite Hns, lookup_insert_eq. }
  destruct (st_acks Hst _ _ _ Ha) as [Ho|(Hj & Ht & Hh)].
  - destruct (ci_acks Hci _ _ _ Ho) as (m & Hm & Htm & Hl).
    destruct (decide (j = i)) as [->|Hne].
    + apply (Hi (λ m, t ≤ _ ∧ _)); [done|]. assert (m = n) as -> by congruence. split; [lia|].
      intros l0 Hl0. pose proof (node_log_unique _ _ _ _ Hl0 (st_log' Hst)) as ->.
      destruct (Hl l (st_log Hst)) as [Hh|Hov]; [by apply (st_keep Hst)|].
      right. eapply overridden_step; [|exact Hov]. lia.
    + exists m. rewrite Hns, lookup_insert_ne by done. split_and!; [done..|].
      destruct (l_node _ _ _ _ (ci_linv Hci) _ _ Hm) as (l1 & Hl1 & _).
      intros l0 Hl0. pose proof (node_log_grows _ _ _ _ (hist_next_grows _ _ (st_next Hst)) Hl1) as Hl1'.
      pose proof (node_log_unique _ _ _ _ Hl0 Hl1') as ->.
      destruct (Hl l1 Hl1) as [Hh|Hov]; [left|right; exact (overridden_step _ _ _ _ (Z.le_refl _) Hov)].
      eapply holds_next; [apply Hst|done..].
  - apply (Hi (λ m, t ≤ _ ∧ _)); [done|]. split; [lia|].
    intros l0 Hl0. pose proof (node_log_unique _ _ _ _ Hl0 (st_log' Hst)) as ->. by left.
Qed.

Lemma nodes_step j m l0 :
  c_nodes c' !! j = Some m → node_log LL' m l0 → node_safe members (ack members c' ms' LL') LL' m l0.
Proof.
  intros Hm Hl0. destruct (st_evolves Hst) as [Hn Hns _ Hterm _].
  rewrite Hns in Hm. apply lookup_insert_Some in Hm as [[<- <-]|[Hne Hm]].
  - pose proof (node_log_unique _ _ _ _ Hl0 (st_log' Hst)) as ->. apply Hst.
  - destruct (l_node _ _ _ _ (ci_linv Hci) _ _ Hm) as (l1 & Hl1 & _).
    pose proof (node_log_grows _ _ _ _ (hist_next_grows _ _ (st_next Hst)) Hl1) as Hl1'.
    pose proof (node_log_unique _ _ _ _ Hl0 Hl1') as ->.
    eapply node_safe_next; [apply ack_next|apply Hst|]. by eapply Hci.
Qed.

Lemma cinv_step : cinv members c' ms' LL'.
Proof.
  split; [apply Hst | apply Hst | apply wins_step | apply nodes_step | apply acks_step
    | apply replies_step | | ].
  - intros j m l0 el r got He Hm Hl0 Hr Ht.
    destruct (st_evolves Hst) as [Hn Hns _ Hterm _].
    destruct (st_elections Hst _ _ _ _ He) as [[Hne Ho]|[-> Hd]].
    + rewrite Hns, lookup_insert_ne in Hm by done.
      destruct (l_node _ _ _ _ (ci_linv Hci) _ _ Hm) as (l1 & Hl1 & _).
      pose proof (node_log_grows _ _ _ _ (hist_next_grows _ _ (st_next Hst)) Hl1) as Hl1'.
      pose proof (node_log_unique _ _ _ _ Hl0 Hl1') as ->. by eapply (ci_elections Hci).
    + rewrite Hns, lookup_insert_eq in Hm. injection Hm as <-.
      pose proof (node_log_unique _ _ _ _ Hl0 (st_log' Hst)) as ->. by apply Hd.
  - intros msg Hin. destruct (st_msgs Hst _ Hin) as [Ho|]; [|done].
    eapply cmsg_ok_next; [apply ack_next|apply Hst|apply Hst|]. by apply Hci.
Qed.

End step.

(** ** Steps that keep the entries of every node *)

(** A message that acknowledges nothing. *)
Definition no_ack (msg : message) : Prop :=
  match msg with
  | MAppendReply _ req resp => aer_Success resp = true → ae_Entries req = []
  | _ => True
  end.

(** The fields of a node that the invariant is about. *)
Record calm n n' : Prop := {
  cm_safe : vote_safe n n';
  cm_commit : commitIndex n' = commitIndex n;
  cm_applied : lastApplied n' = lastApplied n;
  cm_files : files (snapStore n') !! metaPath = files (snapStore n) !! metaPath;
  cm_match : matchIndex n' = matchIndex n
}.

Lemma calm_refl n : calm n n.
Proof. split; auto using vote_safe_refl. Qed.

Lemma calm_trans n1 n2 n3 : calm n1 n2 → calm n2 n3 → calm n1 n3.
Proof. intros [] []. split; [by eapply vote_safe_trans|congruence..]. Qed.

Lemma node_safe_calm members a LL n n' l :
  calm n n' → node_safe members a LL n l → node_safe members a LL n' l.
Proof.
  intros [Hs Hc Hap Hf Hm] [H0' Ht Hcm Hsn Hma].
  pose proof (tv_step_le _ _ (vs_step _ _ Hs)) as Hle. split; [by rewrite Hc, Hap|..].
  - intros k. specialize (Ht k). lia.
  - rewrite Hc. by eapply safe_le.
  - intros b meta Hb Hd. rewrite Hf in Hb. destruct (Hsn b meta Hb Hd) as [Hsa ?].
    split; [by eapply safe_le|done].
  - intros Hr p Hp. destruct (vs_role _ _ Hs) as [Hr' Ht']; [congruence|].
    rewrite (vs_peers _ _ Hs) in Hp. unfold match_of. rewrite Hm, Ht'. apply Hma; congruence.
Qed.

Lemma elected_old members c c' ms LL t L j :
  inv members c' → linv members c ms LL → (∀ v, v ∈ c_votes c → v ∈ c_votes c') →
  LL !! t = Some L → elected members (c_votes c') t j → elected members (c_votes c) t j.
Proof.
  intros Hinv Hl Hv HL He. destruct (l_won _ _ _ _ Hl _ _ HL) as (i & _ & Hi & _).
  assert (elected members (c_votes c') t i) as Hi'
    by (destruct Hi as (q & ? & ? & ?); exists q; split_and!; auto).
  by rewrite (elected_unique _ _ _ _ _ Hinv He Hi').
Qed.

Lemma ack_back members c c' ms ms' LL j t k :
  inv members c' → linv members c ms LL → (∀ v, v ∈ c_votes c → v ∈ c_votes c') →
  (∀ msg, msg ∈ ms' → msg ∈ ms ∨ no_ack msg) →
  ack members c' ms' LL j t k → ack members c ms LL j t k.
Proof.
  intros Hinv Hl Hv Hms [Hk Ha]. split; [done|].
  destruct Ha as [(req & resp & Hin & Hs & Hne & Hrest)|[He (L & HL & HkL)]].
  - left. exists req, resp. split; [|done]. destruct (Hms _ Hin) as [|Hno]; [done|].
    simpl in Hno. by specialize (Hno Hs).
  - right. split; [|eauto]. by eapply elected_old.
Qed.

(** The election of node [i] keeps its request and term. *)
Definition same_election (i : string) (c c' : clus) : Prop :=
  ∀ j el r got, c_elections c' !! j = Some (mkRunning el r got) →
    (j ≠ i → c_elections c !! j = Some (mkRunning el r got)) ∧
    (j = i → ∃ el0 got0, c_elections c !! i = Some (mkRunning el0 r got0) ∧ el_term el0 = el_term el).

(** [n'] has the entries of [n]; what it promises about its snapshot, commit
    index and peers is [Hns]. *)
Lemma cinv_quiet members c ms c' ms' LL i n n' :
  inv members c → inv members c' → cinv members c ms LL → linv members c' ms' LL →
  evolves i n n' c c' → same_election i c c' → vote_safe n n' → keeps LL n n' →
  (∀ l, node_log LL n l → node_safe members (ack members c ms LL) LL n l →
    node_safe members (ack members c ms LL) LL n' l) →
  (∀ j r resp, (j, r, resp) ∈ c_replies c' → rvr_VoteGranted resp = true →
    (j, r, resp) ∈ c_replies c ∨ vote_ok (ack members c ms LL) LL j r) →
  (∀ msg, msg ∈ ms → msg ∈ ms') →
  (∀ msg, msg ∈ ms' → msg ∈ ms ∨ no_ack msg ∧ cmsg_ok members (ack members c ms LL) LL ms' msg) →
  cinv members c' ms' LL.
Proof.
  intros Hinv Hinv' Hci Hl' He Hsame Hsafe Hk Hns Hrep Hms Hms'.
  destruct (l_node _ _ _ _ (ci_linv Hci) _ _ (ev_node _ _ _ _ _ He)) as (l & Hnl & _).
  assert (∀ j t k, ack members c' ms' LL j t k → ack members c ms LL j t k) as Hback.
  { intros j t k. apply ack_back; [done|apply Hci|apply He|].
    intros msg Hin. destruct (Hms' msg Hin) as [|[? _]]; auto. }
  assert (∀ j t k, ack members c ms LL j t k → ack members c' ms' LL j t k) as Hforw.
  { intros j t k [Hk0 Ha]. split; [done|]. destruct Ha as [(req & resp & Hin & Ha)|[Hel Ha]].
    - left. exists req, resp. auto.
    - right. split; [by eapply elected_evolves|done]. }
  apply (cinv_step members c ms LL c' ms' LL i n n' l l); try done.
  split; try done.
  - by left.
  - by apply Hk.
  - intros j t k Ha. left. auto.
  - intros t k Ht Hh. by left.
  - eapply node_safe_next; [exact Hforw|by left|]. apply Hns; [done|]. by eapply Hci; [apply He|].
  - apply Hci.
  - intros u L HL HN. congruence.
  - intros j r resp Hin Hg. destruct (Hrep j r resp Hin Hg) as [|Hv]; [by left|right].
    intros t k Ht Ha. by apply Hv, Hback.
  - intros j el r got Hel. destruct (Hsame _ _ _ _ Hel) as [Hne Heq].
    destruct (decide (j = i)) as [->|Hji]; [right|left; auto]. split; [done|]. intros Hr Ht.
    destruct (Heq eq_refl) as (el0 & got0 & Hel0 & Het).
    destruct (vs_role _ _ Hsafe) as [Hr' Ht']; [congruence|].
    rewrite <-Het. eapply (ci_elections Hci); [exact Hel0|apply He|done|congruence|congruence].
  - intros msg Hin. destruct (Hms' msg Hin) as [|[_ Hok]]; [by left|right].
    eapply (cmsg_ok_next _ _ _ LL LL ms'); [exact Hforw|by left|auto|done].
Qed.

Lemma same_election_refl i c n : same_election i c (set_node i n c).
Proof. intros j el r got Hj. simpl in Hj. split; [done|]. intros ->. eauto. Qed.

(** A node operation that leaves the entries alone and may send a message. *)
Lemma cinv_local members c ms ms' LL i n n' :
  inv members c → inv members (set_node i n' c) → cinv members c ms LL →
  linv members (set_node i n' c) ms' LL →
  c_nodes c !! i = Some n → vote_safe n n' → keeps LL n n' →
  (∀ l, node_log LL n l → node_safe members (ack members c ms LL) LL n l →
    node_safe members (ack members c ms LL) LL n' l) →
  (∀ msg, msg ∈ ms → msg ∈ ms') →
  (∀ msg, msg ∈ ms' → msg ∈ ms ∨ no_ack msg ∧ cmsg_ok members (ack members c ms LL) LL ms' msg) →
  cinv members (set_node i n' c) ms' LL.
Proof.
  intros Hinv Hinv' Hci Hl' Hn Hs Hk Hns Hms Hms'.
  eapply (cinv_quiet members c ms _ ms' LL i n n'); try done;
    [apply evolves_node; [done|apply tv_step_le, Hs] | apply same_election_refl|].
  intros j r resp Hin _. by left.
Qed.

(** *** Handlers that change only terms, votes and roles *)

Lemma calm_frame n n' :
  vote_safe n n' → commitIndex n' = commitIndex n → lastApplied n' = lastApplied n →
  snapStore n' = snapStore n → matchIndex n' = matchIndex n → calm n n'.
Proof. intros ? ? ? Hs ?. split; try done. by rewrite Hs. Qed.

Lemma becomeFollower_calm t a b n : is_u64 t → calm n (becomeFollower t a b n).
Proof.
  intros Ht. apply calm_frame; [by apply becomeFollower_safe|..];
    unfold becomeFollower, becomeFollower_persist, becomeFollower_locked;
    destruct (bool_decide (role n = Leader)); simpl; by case_Z.
Qed.

Lemma HandleRequestVote_calm req n : is_u64 (rv_Term req) → calm n (HandleRequestVote req n).2.
Proof.
  intros Hu. pose proof (HandleRequestVote_safe req n Hu) as Hs.
  unfold HandleRequestVote in *. case_Z; [by apply calm_frame|].
  set (r0 := if currentTerm (log n) <? rv_Term req
    then (rv_Term req, stepDownForVote (rv_Term req) n) else (currentTerm (log n), n)) in *.
  assert (commitIndex r0.2 = commitIndex n ∧ lastApplied r0.2 = lastApplied n ∧
    snapStore r0.2 = snapStore n ∧ matchIndex r0.2 = matchIndex n) as (Hc & Hap & Hst & Hm).
  { unfold r0. case_Z; [|done]. simpl. unfold stepDownForVote.
    by destruct (bool_decide (role n = Leader)). }
  clearbody r0. destruct r0 as [cur m]. simpl in *.
  destruct (_ && _); simpl in *; by apply calm_frame.
Qed.

Lemma election_step_calm ev el n :
  (∀ resp, ev = EvReply (Ok resp) → is_u64 (rvr_Term resp)) → calm n (election_step ev el n).2.
Proof.
  intros Hok. unfold election_step. destruct (negb _); [apply calm_refl|].
  destruct ev as [r| |]; try apply calm_refl.
  destruct (vote_result (el_term el) r) as [granted higher] eqn:Hv.
  assert (is_u64 higher) as Hu.
  { unfold vote_result in Hv. destruct r as [resp|]; [destruct (_ <? _)|]; injection Hv as <- <-;
      [by apply Hok|done..]. }
  destruct (_ <? _); [by apply becomeFollower_calm|]. destruct granted; apply calm_refl.
Qed.

(** *** Elections *)

Lemma election_begin_commit n el req n' :
  election_begin n = (Some (el, req), n') →
  commitIndex n' = commitIndex n ∧ lastApplied n' = lastApplied n.
Proof.
  unfold election_begin, becomeCandidate, becomeCandidate_newTerm. set (m := resetElectionTimer _).
  assert (commitIndex m = commitIndex n ∧ lastApplied m = lastApplied n) as Hm by done. clearbody m.
  case_Z; [done|]. by intros [= _ _ <-].
Qed.

Lemma election_begin_request n el req n' :
  election_begin n = (Some (el, req), n') →
  rv_LastLogIndex req = lastIndex (log n') ∧ rv_LastLogTerm req = LastTerm (log n').
Proof.
  unfold election_begin, becomeCandidate, becomeCandidate_newTerm. set (m := resetElectionTimer _).
  clearbody m. case_Z; [done|]. by intros [= _ <- <-].
Qed.

Lemma cinv_begin members c ms LL i n el req n' :
  let c' := set_election i (Some (mkRunning el req ∅)) (add_request req
    (add_vote (currentTerm (log n') =? el_term el) i (el_term el) i (set_node i n' c))) in
  inv members c → inv members c' → cinv members c ms LL → linv members c' ms LL →
  c_nodes c !! i = Some n → currentTerm (log n) < u64_mod - 1 →
  election_begin n = (Some (el, req), n') → cinv members c' ms LL.
Proof.
  intros c' Hinv Hinv' Hci Hl' Hn Hlt Hb. destruct (i_node _ _ Hinv i n Hn) as [_ Hd].
  destruct (election_begin_fields n _ n' Hlt Hd Hb)
    as (_ & _ & Hst & _ & Hrole & _ & _ & _ & _ & _ & _ & Hterm & _).
  destruct (election_begin_log _ _ _ _ Hb) as [Hlog Hstore].
  destruct (l_node _ _ _ _ (ci_linv Hci) _ _ Hn) as (l & Hnl & _).
  assert (node_log LL n' l) as Hnl' 
    by exact (keeps_term LL n n' _ _ (u64_range _) Hlog Hstore l Hnl).
  pose proof (ci_node Hci _ _ _ Hn Hnl) as [Hn0 Hnt Hnc Hns _].
  pose proof (tv_step_le _ _ Hst) as Hle.
  assert (∀ v, v ∈ c_votes c → v ∈ c_votes c') as Hv
    by (intros v Hv; unfold c', add_vote; destruct (_ =? _); simpl; [by apply elem_of_cons; right|done]).
  assert (∀ j t k, ack members c ms LL j t k → ack members c' ms LL j t k) as Hforw.
  { intros j t k [Hk0 Ha]. split; [done|]. destruct Ha as [?|[(q & ? & ? & ?) Ha]]; [by left|right].
    split; [exists q; split_and!; auto|done]. }
  apply (cinv_step members c ms LL c' ms LL i n n' l l); try done. split; try done.
  - split; try done; [by unfold c'; destruct (_ =? _)|].
    unfold c'. simpl. intros j ru [[<- <-]|[Hne Hj]]%lookup_insert_Some;
      [right; simpl; split; [done|lia]|left].
    exists ru. by destruct (_ =? _).
  - by left.
  - intros j t k Ha. left. eapply (ack_back _ c c'); try done; [apply Hci|auto].
  - intros. by left.
  - destruct (election_begin_commit _ _ _ _ Hb) as [Hcm Hap].
    eapply node_safe_next; [exact Hforw|by left|]. split; [by rewrite Hcm, Hap|..].
    + intros k. specialize (Hnt k). lia.
    + rewrite Hcm. by eapply safe_le.
    + rewrite Hstore. intros b meta Hbm Hdm. destruct (Hns b meta Hbm Hdm) as [Hsa ?].
      split; [by eapply safe_le|done].
    + congruence.
  - apply Hci.
  - congruence.
  - intros j r resp Hin _. left. unfold c' in Hin. by destruct (_ =? _).
  - unfold c'. simpl. intros j el0 r got [[<- Heq]|[Hne Hj]]%lookup_insert_Some.
    + injection Heq as <- <- <-. right. split; [done|]. intros _ _. split; [|intros k; specialize (Hnt k); lia].
      pose proof (election_begin_request _ _ _ _ Hb) as [Hli Hlt']. pose proof (nl_full _ _ _ Hnl') as Hf.
      split; [by rewrite Hli, (full_last _ _ Hf) | by rewrite Hlt', (full_LastTerm _ _ Hf)].
    + left. split; [done|]. by destruct (_ =? _).
  - auto.
Qed.

(** A log that holds an entry of term [t] at [k] ends in [t] or later. *)
Lemma holds_last LL l t k :
  log_ok LL l → bounded LL → holds LL l t k → registered LL k t →
  t ≤ term_of l (Z.of_nat (length l)) ∧ k ≤ Z.of_nat (length l).
Proof.
  intros [_ Hm] Hb (L & HL & Hk & Hp) (L' & HL' & Hk' & Ht). assert (L' = L) as -> by congruence.
  apply prefix_cut in Hp as [Hlen Hcut]; [|done]. split; [|done].
  destruct (lookup_index l (Z.of_nat (length l)) ltac:(lia)) as (e & He & Hte). rewrite Hte.
  destruct (Hm _ _ He) as (L2 & HL2 & Hp2).
  replace (S (Z.to_nat (Z.of_nat (length l) - 1))) with (length l) in Hp2 by lia.
  rewrite firstn_all in Hp2. specialize (Hb _ L2 k HL2).
  rewrite (term_of_prefix _ _ k Hp2), (term_of_agree k k l L) in Hb by (done || lia). lia.
Qed.

Definition outdates (r : RequestVoteRequest) l : Prop :=
  term_of l (Z.of_nat (length l)) < rv_LastLogTerm r ∨
  term_of l (Z.of_nat (length l)) = rv_LastLogTerm r ∧ Z.of_nat (length l) ≤ rv_LastLogIndex r.

Lemma describes_outdates r l : describes r l → outdates r l.
Proof. intros [Hi Ht]. right. rewrite Hi, Ht. split; [done|lia]. Qed.

(** A vote for [r] by a node whose log [r] outdates. *)
Lemma outdates_vote members c ms LL j n l r :
  cinv members c ms LL → c_nodes c !! j = Some n → node_log LL n l → outdates r l →
  ∀ t k, ack members c ms LL j t k → registered LL k t →
    t < rv_LastLogTerm r ∨ t = rv_LastLogTerm r ∧ k ≤ rv_LastLogIndex r ∨
    overridden LL t k (currentTerm (log n)).
Proof.
  intros Hci Hn Hnl Hout t k Ha Hreg. destruct (ci_acks Hci _ _ _ Ha) as (m & Hm & _ & Hl).
  assert (m = n) as -> by congruence. destruct (Hl l Hnl) as [Hh|]; [|by auto].
  destruct (holds_last _ _ _ _ (nl_ok _ _ _ Hnl) (ci_bounded Hci) Hh Hreg) as [Hle Hk].
  destruct Hout as [?|[? ?]]; lia.
Qed.

Lemma HandleRequestVote_outdates LL r n l resp n' :
  node_log LL n l → is_u64 (rv_Term r) → HandleRequestVote r n = (resp, n') →
  rvr_VoteGranted resp = true → currentTerm (log n) ≤ rv_Term r ∧ outdates r l.
Proof.
  intros Hnl Hu Hh Hg. unfold HandleRequestVote in Hh.
  destruct (Z.ltb_spec (rv_Term r) (currentTerm (log n))); [by injection Hh as <- <-|].
  split; [done|].
  match type of Hh with context [let '(cur, n) := ?x in _] => set (r0 := x) in Hh end.
  assert (node_log LL r0.2 l) as Hnl0.
  { unfold r0. case_Z; [|done]. eapply (keeps_term LL n); [exact Hu|..|exact Hnl];
      unfold stepDownForVote; by destruct (bool_decide (role n = Leader)). }
  clearbody r0. destruct r0 as [cur m]. simpl in *.
  destruct (_ && _) eqn:Hok; [|by injection Hh as <- <-].
  apply andb_true_iff in Hok as [_ Hok]. unfold candidateLogUpToDateLocked in Hok.
  pose proof (nl_full _ _ _ Hnl0) as Hf. rewrite (full_last _ _ Hf), (full_LastTerm _ _ Hf) in Hok.
  unfold outdates. destruct (Z.eqb_spec (rv_LastLogTerm r) (term_of l (Z.of_nat (length l))));
    simpl in Hok; lia.
Qed.

Lemma cinv_vote members c ms LL j n req resp n' :
  let c' := add_reply j req resp (add_vote (rvr_VoteGranted resp) j (rv_Term req)
    (rv_CandidateID req) (set_node j n' c)) in
  inv members c → inv members c' → cinv members c ms LL → linv members c' ms LL →
  c_nodes c !! j = Some n → req ∈ c_requests c → HandleRequestVote req n = (resp, n') →
  cinv members c' ms LL.
Proof.
  intros c' Hinv Hinv' Hci Hl' Hn Hreq Hh. destruct (i_requests _ _ Hinv _ Hreq) as [_ Hu].
  destruct (i_node _ _ Hinv j n Hn) as [_ Hd].
  destruct (l_node _ _ _ _ (ci_linv Hci) _ _ Hn) as (l & Hnl & _).
  pose proof (HandleRequestVote_calm req n Hu) as Hcalm.
  pose proof (HandleRequestVote_keeps LL req n Hu (tv_u64 _ Hd)) as Hk. rewrite Hh in Hcalm, Hk.
  pose proof (cm_safe _ _ Hcalm) as Hsafe. simpl in *.
  eapply (cinv_quiet members c ms c' ms LL j n n'); try done; [..|auto].
  - split; try done; [by unfold c'; destruct (rvr_VoteGranted resp)| |by apply tv_step_le, Hsafe|].
    + intros v Hv. unfold c', add_vote. destruct (rvr_VoteGranted resp); [by apply elem_of_cons; right|done].
    + intros j' ru Hj'. left. exists ru. unfold c' in Hj'. by destruct (rvr_VoteGranted resp).
  - intros i el r got Hi. unfold c' in Hi.
    assert (c_elections c !! i = Some (mkRunning el r got)) as Hi'
      by (by destruct (rvr_VoteGranted resp)). split; [done|]. intros ->. eauto.
  - intros l0 _. by apply node_safe_calm.
  - unfold c'. simpl. intros i r resp' [Heq|Hin]%elem_of_cons Hg.
    + injection Heq as -> -> ->. right. intros t k Ht Ha Hreg.
      destruct (HandleRequestVote_outdates _ _ _ _ _ _ Hnl Hu Hh Hg) as [Hle Hout].
      destruct (outdates_vote _ _ _ _ _ _ _ _ Hci Hn Hnl Hout t k Ha Hreg) as [?|[?|Hov]]; auto.
      right. right. eapply overridden_next; [by left|apply Hci|exact Hle|done].
    + left. by destruct (rvr_VoteGranted resp).
Qed.

Lemma cinv_election_step members c ms LL i n el req got got' ev el' n' :
  let c' := set_election i (Some (mkRunning el' req got')) (set_node i n' c) in
  inv members c → inv members c' → cinv members c ms LL → linv members c' ms LL →
  c_nodes c !! i = Some n → c_elections c !! i = Some (mkRunning el req got) →
  (∀ resp, ev = EvReply (Ok resp) → is_u64 (rvr_Term resp)) →
  election_step ev el n = (el', n') → cinv members c' ms LL.
Proof.
  intros c' Hinv Hinv' Hci Hl' Hn He Hok Hs.
  destruct (election_step_fields _ _ _ _ _ Hok Hs) as (Hsafe & Hterm & _).
  pose proof (election_step_calm ev el n Hok) as Hcalm.
  pose proof (election_step_keeps LL ev el n Hok) as Hk. rewrite Hs in Hk, Hcalm. simpl in *.
  eapply (cinv_quiet members c ms c' ms LL i n n'); try done; [..|auto].
  - split; try done; [by apply tv_step_le, Hsafe|]. unfold c'. simpl.
    intros j' ru [[<- <-]|[Hne Hj']]%lookup_insert_Some; left; eauto.
  - unfold same_election, c'. simpl. intros j el0 r got0 [[<- Heq]|[Hne Hj]]%lookup_insert_Some.
    + injection Heq as <- <- <-. split; [done|]. eauto.
    + split; [done|]. intros ->. done.
  - intros l0 _. by apply node_safe_calm.
  - by left.
Qed.

(** *** Winning an election *)

Lemma becomeLeader_start_progress n :
  role n = Candidate →
  commitIndex (becomeLeader_start n).2 = commitIndex n ∧
  lastApplied (becomeLeader_start n).2 = lastApplied n ∧
  ∀ p, p ∈ peers n → match_of p (becomeLeader_start n).2 = 0.
Proof.
  intros Hc. unfold becomeLeader_start, becomeLeader_locked.
  rewrite bool_decide_false by (rewrite Hc; auto). split; [done|]. split; [done|].
  intros p Hp. unfold match_of.
  change (matchIndex _) with
    (foldl (λ (mi : gmap string Z) p, <[p := 0]> mi) (matchIndex n) (peers n)).
  clear Hc. generalize (matchIndex n) as mi. revert Hp.
  induction (peers n) as [|x ps IH]; intros Hp mi; [by apply elem_of_nil in Hp|]. simpl.
  destruct (decide (p ∈ ps)) as [Hin|Hnin]; [by apply IH|].
  apply elem_of_cons in Hp as [->|]; [|done].
  assert (∀ ps (mi : gmap string Z), x ∉ ps →
    (foldl (λ (mi : gmap string Z) p, <[p := 0]> mi) mi ps) !! x = mi !! x) as Hout.
  { clear. intros ps. induction ps as [|y ps IH]; intros mi Hx; [done|]. simpl.
    rewrite IH by set_solver. apply lookup_insert_ne. set_solver. }
  by rewrite Hout, lookup_insert_eq.
Qed.

Lemma term_of_snoc l e k : term_of (l ++ [e]) k = term_of l k ∨ term_of (l ++ [e]) k = Term e.
Proof.
  destruct (Z.le_gt_cases k (Z.of_nat (length l))) as [Hle|Hgt].
  - left. by apply term_of_app.
  - destruct (Z.eq_dec k (Z.of_nat (length l) + 1)) as [->|Hne].
    + right. apply term_of_lookup. by rewrite lookup_app_r, Nat.sub_diag.
    + left. unfold term_of. case_Z; [done|].
      rewrite !lookup_ge_None_2; [done|lia|]. rewrite length_app. simpl. lia.
Qed.

(** The terms of a leader's log after it appended. *)
Lemma extends_terms n l n' l' :
  extends n l n' l' → (∀ k, term_of l k ≤ currentTerm (log n)) →
  l `prefix_of` l' ∧ ∀ k, term_of l' k ≤ currentTerm (log n).
Proof.
  intros (_ & _ & [->|(e & -> & He & _)]) Ht; [done|]. split; [by eexists|]. intros k.
  destruct (term_of_snoc l e k) as [-> | ->]; [done|lia].
Qed.

Lemma bounded_insert LL t l' :
  bounded LL → (∀ k, term_of l' k ≤ t) → bounded (<[t := l']> LL).
Proof. intros Hb Ht u L k [[<- <-]|[_ HL]]%lookup_insert_Some; [done|by eapply Hb]. Qed.

(** The acknowledgements after the leader [i] of [t] has the log [l']. *)
Lemma ack_insert members c c' ms LL i t l' j u k :
  inv members c' → c_votes c' = c_votes c → elected members (c_votes c') t i →
  ack members c' ms (<[t := l']> LL) j u k →
  ack members c ms LL j u k ∨ j = i ∧ u = t ∧ holds (<[t := l']> LL) l' t k.
Proof.
  intros Hinv Hv Hi [Hk [Hr|[He (L & HL & HkL)]]]; [by left; split; [|left]|]. rewrite Hv in He.
  apply lookup_insert_Some in HL as [[<- <-]|[Hne HL]].
  - right. rewrite <-Hv in He. split; [by eapply elected_unique|]. split; [done|].
    exists l'. rewrite lookup_insert_eq. split_and!; [done..|apply cut_prefix].
  - left. split; [done|]. right. eauto.
Qed.

(** What a majority of voters says about a new leader. *)
Lemma new_win members c ms LL i n l el req got :
  inv members c → cinv members c ms LL → c_nodes c !! i = Some n → node_log LL n l →
  c_elections c !! i = Some (mkRunning el req got) → el_won el = true → role n = Candidate →
  currentTerm (log n) = el_term el → LL !! el_term el = None →
  ∃ q : gset string, q ⊆ members ∧ majority members ≤ Z.of_nat (size q) ∧
    ∀ j, j ∈ q → reached c j (el_term el) ∧
      ∀ t k, t < el_term el → ack members c ms LL j t k → registered LL k t →
        t < term_of l (Z.of_nat (length l)) ∨
        t = term_of l (Z.of_nat (length l)) ∧ k ≤ Z.of_nat (length l) ∨
        overridden LL t k (el_term el - 1).
Proof.
  intros Hinv Hci Hn Hnl He Hwon Hc Ht HN.
  destruct (i_elections _ _ Hinv i el req got He)
    as (m & Hm & [[Hrc Hrt] _ Hneed Hg (q & Hq & Hsz & Hqv) Hw _]).
  assert (m = n) as -> by congruence. specialize (Hw Hwon).
  destruct (ci_elections Hci _ _ _ _ _ _ He Hn Hnl Hc Ht) as [[Hdi Hdt] _].
  destruct (i_node _ _ Hinv i n Hn) as [(Hid & Hnd & Hp) _].
  pose proof (inv_member _ _ _ _ Hinv Hn) as Hi.
  assert (∀ t k, overridden LL t k (el_term el) → overridden LL t k (el_term el - 1)) as Hov.
  { intros t k (u & L & L' & Hu & HL & Hk & HL' & Hno). exists u, L, L'. split_and!; try (done || lia).
    destruct (Z.eq_dec u (el_term el)) as [->|]; [congruence|lia]. }
  exists ({[i]} ∪ q). rewrite size_union, size_singleton by set_solver.
  split_and!; [set_solver|lia|]. intros j [->%elem_of_singleton|Hj]%elem_of_union.
  - split; [exists n; split; [done|lia]|]. intros t k Htt Ha Hreg.
    destruct (outdates_vote _ _ _ _ _ _ _ req Hci Hn Hnl ltac:(by apply describes_outdates) t k Ha Hreg)
      as [?|[?|Ho]]; rewrite ?Hdi, ?Hdt in *; auto. rewrite Ht in Ho. auto.
  - destruct (Hqv j Hj) as (resp & Hin & Hgr).
    pose proof (i_replies _ _ Hinv _ _ _ Hin Hgr) as Hvote.
    destruct (i_votes _ _ Hinv _ _ _ Hvote) as (_ & mj & Hmj & Hrem).
    split; [exists mj; split; [done|unfold remembers in Hrem; lia]|]. intros t k Htt Ha Hreg.
    destruct (ci_replies Hci _ _ _ Hin Hgr t k ltac:(lia) Ha Hreg) as [?|[?|Ho]];
      rewrite ?Hdi, ?Hdt in *; auto. rewrite Hrt in Ho. auto.
Qed.

(** The leader [i] of term [t] has the log [l']: its first one, or one more entry. *)
Lemma cinv_extend members c ms c' LL i n n' l l' :
  let t := currentTerm (log n) in
  let LL' := <[t := l']> LL in
  inv members c → inv members c' → cinv members c ms LL → linv members c' ms LL' →
  evolves i n n' c c' → node_log LL n l → node_log LL' n' l' → extends n l n' l' →
  c_votes c' = c_votes c → c_replies c' = c_replies c →
  (∀ j ru, c_elections c' !! j = Some ru → c_elections c !! j = Some ru) →
  elected members (c_votes c') t i → role n' = Leader → currentTerm (log n') = t →
  commitIndex n' = commitIndex n → lastApplied n' = lastApplied n →
  (∀ p, p ∈ peers n' → match_of p n' ≤ 0 ∨ ack members c ms LL p t (match_of p n') ∨
    known members (ack members c ms LL) LL t (match_of p n')) →
  (LL !! t = Some l ∨ LL !! t = None ∧ term_of l (Z.of_nat (length l)) < t ∧
    ∃ q : gset string, q ⊆ members ∧ majority members ≤ Z.of_nat (size q) ∧
      ∀ j, j ∈ q → reached c j t ∧
        ∀ u k, u < t → ack members c ms LL j u k → registered LL k u →
          u < term_of l (Z.of_nat (length l)) ∨
          u = term_of l (Z.of_nat (length l)) ∧ k ≤ Z.of_nat (length l) ∨
          overridden LL u k (t - 1)) →
  hist_next LL LL' ∧ cinv members c' ms LL'.
Proof.
  intros t LL' Hinv Hinv' Hci Hl' He Hnl Hnl' Hext Hv Hr Hels Hel Hrole Ht Hcommit Hap Hmatch Hcase.
  pose proof (ci_node Hci _ _ _ (ev_node _ _ _ _ _ He) Hnl) as [Hn0 Hnt Hnc Hns _].
  destruct (extends_terms _ _ _ _ Hext Hnt) as [Hpre Hterms]. fold t in Hterms.
  assert (hist_next LL LL') as Hnext.
  { right. exists t, l'. split; [done|]. destruct Hcase as [HL|[HN _]]; [right|by left].
    destruct Hext as (_ & _ & [->|(e & -> & Hte & _)]); [by left|right]. eauto. }
  assert (∀ j u k, ack members c' ms LL' j u k →
    ack members c ms LL j u k ∨ j = i ∧ u = t ∧ holds LL' l' t k) as Hacks
    by (intros j u k; by apply ack_insert).
  assert (∀ j u k, ack members c ms LL j u k → ack members c' ms LL' j u k) as Hforw.
  { intros j u k [Hk0 [?|[? (L & HL & HkL)]]]; (split; [done|]); [by left|right].
    rewrite Hv. split; [done|]. destruct (hist_next_grows _ _ Hnext _ _ HL) as (L' & HL' & Hp).
    apply prefix_length in Hp. exists L'. split; [done|lia]. }
  split; [done|].
  apply (cinv_step members c ms LL c' ms LL' i n n' l l'); try done. split; try done.
  - intros j u k Ha. destruct (Hacks j u k Ha) as [?|(-> & -> & Hh)]; [by left|right].
    split_and!; [done|lia|lia|done].
  - intros u k _ Hh. left. by eapply holds_next.
  - split; [by rewrite Hcommit, Hap|..].
    + intros k. rewrite Ht. apply Hterms.
    + rewrite Ht, Hcommit. by eapply safe_next.
    + destruct Hext as (Hst & _). rewrite Hst, Ht. intros b meta Hb Hd.
      destruct (Hns b meta Hb Hd) as [Hsa Hta]. split; [by eapply safe_next|].
      rewrite (term_of_prefix _ _ _ Hpre); [done|by eapply safe_length].
    + intros _ p Hp. rewrite Ht. destruct (Hmatch p Hp) as [?|[?|?]]; eauto using known_next.
  - apply bounded_insert; [apply Hci|done].
  - intros u L HL HN. apply lookup_insert_Some in HL as [[<- <-]|[_ HL]]; [|congruence].
    destruct Hcase as [?|(_ & Hlt & q & Hq & Hsz & Hqv)]; [congruence|].
    pose proof (prefix_length _ _ Hpre) as Hlen.
    assert (term_of l' (Z.of_nat (length l)) = term_of l (Z.of_nat (length l))) as Heq
      by (apply term_of_prefix; [done|lia]).
    exists q, (Z.of_nat (length l)). rewrite Heq. split_and!; try (done || lia).
    intros j Hj. destruct (Hqv j Hj) as [(m & Hm & Hmt) Ha]. split.
    + unfold reached. rewrite (ev_nodes _ _ _ _ _ He). destruct (decide (j = i)) as [->|Hne].
      * exists n'. rewrite lookup_insert_eq. split; [done|lia].
      * exists m. by rewrite lookup_insert_ne.
    + intros u k Hu Hack Hreg. destruct (Hacks _ _ _ Hack) as [Ho|(_ & -> & _)]; [|lia].
      destruct (ack_length _ _ _ _ _ _ _ Hci Ho) as (L & HL & Hk).
      destruct (Ha u k Hu Ho (registered_back _ _ _ _ _ Hnext HL Hk Hreg)) as [?|[?|Hov]]; auto.
      right. right. eapply overridden_next; [exact Hnext|apply Hci| |exact Hov]. lia.
  - intros j r resp Hin _. left. by rewrite <-Hr.
  - intros j el r got Hj. destruct (decide (j = i)) as [->|Hne]; [right|left]; auto.
    split; [done|]. congruence.
  - auto.
Qed.

Lemma cinv_end members c ms LL i n el req got won n' :
  let c' := set_election i None (set_node i n' c) in
  size members ≠ 1%nat → inv members c → inv members c' → cinv members c ms LL →
  c_nodes c !! i = Some n → c_elections c !! i = Some (mkRunning el req got) → room c →
  election_end el n = (won, n') → ∃ LL', hist_next LL LL' ∧ cinv members c' ms LL'.
Proof.
  intros c' Hsize Hinv Hinv' Hci Hn He Hroom Hend.
  destruct (linv_end _ _ _ _ _ _ _ _ _ _ _ Hsize Hinv Hinv' (ci_linv Hci) Hn He Hroom Hend)
    as [[-> Hl']|(l & l' & Hwon & Hc & Ht & Hn' & Hnl & Hext & HN & Hl' & _ & Hnl')].
  - exists LL. split; [by left|]. eapply (cinv_quiet members c ms c' ms LL i n n); try done;
      [| |apply vote_safe_refl|by apply keeps_frame|by left|auto].
    + split; try done. unfold c'. simpl. intros j ru [_ Hj]%lookup_delete_Some. eauto.
    + unfold same_election, c'. simpl. intros j el0 r got0 [Hne Hj]%lookup_delete_Some.
      split; [done|]. by intros ->.
  - eexists. destruct (becomeLeader_start_keeps n) as ((Htt & _ & _) & _ & Hpeers).
    destruct (becomeLeader_start_progress n Hc) as (Hcm & Hap & Hmatch).
    rewrite <-Hn' in Htt, Hcm, Hap, Hmatch, Hpeers.
    assert (role n' = Leader) as Hrole by (rewrite Hn'; unfold becomeLeader_start, becomeLeader_locked;
      by rewrite bool_decide_false by (rewrite Hc; auto)).
    destruct (i_leader _ _ Hinv' i n') as [|Hel]; [apply lookup_insert_eq|done|done|].
    rewrite Htt in Hel.
    eapply (cinv_extend members c ms c' LL i n n' l l'); try done.
    + split; try done; [lia|]. unfold c'. simpl. intros j ru [_ Hj]%lookup_delete_Some. eauto.
    + unfold c'. simpl. by intros j ru [_ Hj]%lookup_delete_Some.
    + intros p Hp. rewrite Hpeers in Hp. left. rewrite Hmatch by done. lia.
    + right. split; [done|].
      destruct (ci_elections Hci _ _ _ _ _ _ He Hn Hnl Hc Ht) as [_ Hlt]. rewrite Ht in *.
      split; [done|]. by eapply new_win.
Qed.

(** *** Proposals and commitment on the leader *)

Lemma propose_start_frame ty key value id n :
  let n' := (propose_start ty key value id n).2 in
  commitIndex n' = commitIndex n ∧ lastApplied n' = lastApplied n ∧
  matchIndex n' = matchIndex n ∧ peers n' = peers n.
Proof.
  cbv zeta. unfold propose_start. case_bool_decide; [done|].
  by destruct (AppendEntries _ _ _) as [[] pl].
Qed.

Lemma cinv_propose members c ms LL i n ty key value id :
  let n' := (propose_start ty key value id n).2 in
  size members ≠ 1%nat → inv members c → inv members (set_node i n' c) → cinv members c ms LL →
  c_nodes c !! i = Some n → room c → ∃ LL', hist_next LL LL' ∧ cinv members (set_node i n' c) ms LL'.
Proof.
  intros n' Hsize Hinv Hinv' Hci Hn Hroom.
  destruct (propose_start_frame ty key value id n) as (Hcm & Hap & Hma & Hpe). fold n' in Hcm, Hap, Hma, Hpe.
  destruct (linv_propose _ _ _ _ _ _ ty key value id Hsize Hinv Hinv' (ci_linv Hci) Hn Hroom)
    as [[Heq Hl']|(l & l' & Hrole & Hrole' & Ht & Hnl & Hext & HL & Hl' & _ & Hnl')].
  - exists LL. split; [by left|]. fold n' in Heq, Hl'. clearbody n'. subst n'. apply (cinv_local members c ms ms LL i n n); try done;
      [apply vote_safe_refl|by apply keeps_frame|auto].
  - eexists. destruct (i_leader _ _ Hinv i n Hn Hrole) as [|Hel]; [done|].
    eapply (cinv_extend members c ms _ LL i n n' l l'); try done;
      [apply evolves_node; [done|apply tv_step_le, propose_start_safe]| |by left].
    intros p Hp. unfold match_of. rewrite Hma. rewrite Hpe in Hp.
    by apply (ns_match _ _ _ _ _ (ci_node Hci _ _ _ Hn Hnl)).
Qed.

Lemma majority_index_in (vs : list Z) : vs ≠ [] → majority_index vs ∈ vs.
Proof.
  intros Hne. destruct (majority_split vs Hne) as (lo & hi & Hp & _).
  apply (elem_of_Permutation_proper _ _ _ Hp), elem_of_app. right. by left.
Qed.

(** Either all members of a list satisfy [P], or [Q] holds. *)
Lemma all_or_one {A} (P : A → Prop) (Q : Prop) (q : list A) :
  (∀ x, x ∈ q → P x ∨ Q) → (∀ x, x ∈ q → P x) ∨ Q.
Proof.
  induction q as [|x q IH]; intros Hq; [left; set_solver|].
  destruct (Hq x ltac:(by left)) as [Hx|]; [|by right].
  destruct IH as [Hall|]; [intros y Hy; apply Hq; by right| |by right].
  left. intros y [->|Hy]%elem_of_cons; auto.
Qed.

Lemma ack_le members c ms LL j t k k' :
  0 ≤ k' ≤ k → ack members c ms LL j t k → ack members c ms LL j t k'.
Proof.
  intros Hk [_ [(req & resp & ? & ? & ? & ? & ?)|[? (L & ? & ?)]]]; (split; [lia|]).
  - left. exists req, resp. split_and!; (done || lia).
  - right. split; [done|]. exists L. split; [done|lia].
Qed.

Lemma known_length members a LL T k : known members a LL T k → hist_ok LL → k < u64_mod - 1.
Proof.
  intros [?|(t & k' & _ & ? & (L & HL & ? & _))] Hh; [unfold u64_mod; lia|].
  destruct (Hh _ _ HL) as (_ & _ & ?). lia.
Qed.

(** The peers of a leader that have reached index [k]. *)
Definition at_least (k : Z) n : list string := filter (λ p, k ≤ match_of p n) (peers n).

Lemma at_least_count k n :
  k ≤ lastIndex (log n) →
  count_ge k (match_indexes n) = 1 + Z.of_nat (length (at_least k n)).
Proof.
  intros Hk. unfold count_ge, many, match_indexes, at_least. rewrite filter_cons_True by done.
  simpl length. rewrite Nat2Z.inj_succ, Z.add_1_l. f_equal. f_equal.
  induction (peers n) as [|p ps IH]; [done|]. simpl.
  rewrite !filter_cons. by repeat case_decide; simpl; rewrite ?IH.
Qed.

(** A quorum at index [k] of the leader's own term commits it. *)
Lemma quorum_committed members c ms LL i n l k :
  size members ≠ 1%nat → inv members c → cinv members c ms LL → c_nodes c !! i = Some n →
  node_log LL n l → role n = Leader → 0 < k ≤ Z.of_nat (length l) →
  term_of l k = currentTerm (log n) →
  (Z.of_nat (length (peers n)) + 1) / 2 + 1 ≤ count_ge k (match_indexes n) →
  safe members (ack members c ms LL) LL (currentTerm (log n)) k l.
Proof.
  intros Hsize Hinv Hci Hn Hnl Hrole Hk Hterm Hcount.
  destruct (l_node _ _ _ _ (ci_linv Hci) _ _ Hn) as (l0 & Hnl0 & Hlead).
  pose proof (node_log_unique _ _ _ _ Hnl0 Hnl) as ->. specialize (Hlead Hrole).
  destruct (i_leader _ _ Hinv i n Hn Hrole) as [|Hel]; [done|].
  destruct (i_node _ _ Hinv i n Hn) as [Hmem _]. pose proof Hmem as (Hid & Hnd & Hp).
  pose proof (inv_member _ _ _ _ Hinv Hn) as Hi.
  rewrite at_least_count in Hcount by (rewrite (full_last _ _ (nl_full _ _ _ Hnl)); lia).
  set (T := currentTerm (log n)) in *. right.
  destruct (all_or_one (λ p, ack members c ms LL p T k) (known members (ack members c ms LL) LL T k)
    (at_least k n)) as [Hall|Hkn].
  { intros p [Hge Hpe]%list_elem_of_filter.
    destruct (ns_match _ _ _ _ _ (ci_node Hci _ _ _ Hn Hnl) Hrole p Hpe) as [?|[Ha|Hkn]]; [lia| |].
    - left. eapply ack_le; [|exact Ha]. lia.
    - right. eapply known_le; [| |exact Hkn]; (done || lia). }
  - exists T, l, k. split_and!; try (done || lia); [|apply cut_prefix].
    exists l. split_and!; try (done || lia).
    exists ({[i]} ∪ list_to_set (at_least k n)).
    assert (list_to_set (at_least k n) ⊆ (list_to_set (peers n) : gset string)) as Hsub.
    { intros p Hpin. apply elem_of_list_to_set in Hpin. apply list_elem_of_filter in Hpin as [_ ?].
      by apply elem_of_list_to_set. }
    assert ({[i]} ## (list_to_set (at_least k n) : gset string)) as Hdisj by (clear -Hsub Hp; set_solver).
    rewrite size_union, size_singleton, size_list_to_set by (done || by apply NoDup_filter).
    split_and!; [set_solver| |].
    + unfold majority. rewrite (size_members _ i n Hi Hmem). rewrite Nat2Z.inj_succ. unfold Z.succ. lia.
    + intros j [->%elem_of_singleton|Hj]%elem_of_union; 
        [|apply Hall; by apply elem_of_list_to_set in Hj].
      split; [lia|]. right. split; [done|]. exists l. split; [done|lia].
  - destruct Hkn as [?|(t & k' & Ht & Hk' & Hc)]; [lia|].
    pose proof Hc as (L & HL & _). exists t, L, k'. split_and!; try done.
    eapply cut_prefix_le; [exact Hk'|]. eapply (committed_agree _ _ (reached c)); try done; apply Hci.
Qed.

(** The index that a leader would commit is one of its log. *)
Lemma majority_index_u64 members c ms LL i n l :
  cinv members c ms LL → c_nodes c !! i = Some n → node_log LL n l → role n = Leader →
  0 < majority_index (match_indexes n) → is_u64 (majority_index (match_indexes n)).
Proof.
  intros Hci Hn Hnl Hrole Hpos. pose proof (l_hist _ _ _ _ (ci_linv Hci)) as Hh.
  assert (majority_index (match_indexes n) ∈ match_indexes n) as Hin by (by apply majority_index_in).
  revert Hin. unfold match_indexes at 2. intros [Heq|Hin]%elem_of_cons.
  - pose proof (full_length _ _ (nl_full _ _ _ Hnl)). rewrite (full_last _ _ (nl_full _ _ _ Hnl)) in Heq.
    u64_lia.
  - apply list_elem_of_fmap in Hin as (p & Heq & Hp).
    destruct (ns_match _ _ _ _ _ (ci_node Hci _ _ _ Hn Hnl) Hrole p Hp) as [?|[Ha|Hkn]]; [lia| |].
    + destruct (ack_length _ _ _ _ _ _ _ Hci Ha) as (L & HL & Hk).
      destruct (Hh _ _ HL) as (_ & _ & Hlen). u64_lia.
    + pose proof (known_length _ _ _ _ _ Hkn Hh). u64_lia.
Qed.

Lemma tryAdvanceCommitIndex_node_safe members c ms LL i n l term :
  size members ≠ 1%nat → inv members c → cinv members c ms LL → c_nodes c !! i = Some n →
  node_log LL n l → node_safe members (ack members c ms LL) LL (tryAdvanceCommitIndex term n) l.
Proof.
  intros Hsize Hinv Hci Hn Hnl. pose proof (ci_node Hci _ _ _ Hn Hnl) as Hns.
  unfold tryAdvanceCommitIndex, leads. destruct (bool_decide (role n = Leader)) eqn:Hrole; [|done].
  apply bool_decide_eq_true in Hrole. destruct (Z.eqb_spec (currentTerm (log n)) term) as [Ht|]; [|done].
  simpl. set (k := majority_index (match_indexes n)).
  destruct (Z.leb_spec k (commitIndex n)); [done|].
  destruct (TermAt k (log n)) as [t|] eqn:Hta; [|done]. destruct (Z.eqb_spec t term) as [->|]; [|done].
  destruct Hns as [[Hc0 Ha0] Hterms Hcommit Hsnap Hmatch].
  assert (is_u64 k) as Hu by (eapply majority_index_u64; (done || lia)).
  apply (full_TermAt _ _ _ _ (nl_full _ _ _ Hnl) Hu) in Hta as [Hle Heq].
  assert (safe members (ack members c ms LL) LL (currentTerm (log n)) k l) as Hsafe.
  { eapply quorum_committed; try done; [lia|congruence|].
    destruct (majority_index_correct (match_indexes n)) as [Hq _]; [done|].
    unfold match_indexes in Hq at 1. simpl length in Hq. rewrite length_map in Hq.
    rewrite Nat2Z.inj_succ in Hq. exact Hq. }
  split; simpl; try done. lia.
Qed.

(** *** The apply loop *)

Lemma maybeSnapshot_node_safe members a LL i n l :
  node_log LL n l → is_u64 i → 0 < i ≤ commitIndex n →
  node_safe members a LL n l → node_safe members a LL (maybeSnapshot i n) l.
Proof.
  intros Hnl Hu Hi Hns. pose proof (maybeSnapshot_safe i n) as Hvs. revert Hvs. unfold maybeSnapshot.
  destruct (LoadLatest (snapStore n)) as [loaded store] eqn:Hload.
  apply LoadLatest_files in Hload as [Hfiles _].
  assert (node_safe members a LL (with_snapStore store n) l) as Hns1.
  { eapply node_safe_calm; [|exact Hns]. split; try done; [by apply vote_safe_frame|]. simpl. by rewrite Hfiles. }
  intros Hvs. destruct (covered loaded i); [done|]. simpl in Hvs |- *.
  destruct (TermAt i (log n)) as [t|] eqn:Hta; [|done]. destruct (Dump (sm n)) as [dump|]; [|done].
  destruct (full_TermAt _ _ _ _ (nl_full _ _ _ Hnl) Hu Hta) as [Hlen Hteq].
  destruct (Save dump (mkMeta i t) store) as [err store'] eqn:Hsave.
  assert (∀ n', commitIndex n' = commitIndex n → lastApplied n' = lastApplied n →
    matchIndex n' = matchIndex n → snapStore n' = store' → vote_safe n n' →
    node_safe members a LL n' l) as Hgo.
  { intros n' Hc Ha Hm Hst Hs. pose proof (tv_step_le _ _ (vs_step _ _ Hs)) as Hle.
    destruct Hns as [Hn0 Hterms Hcommit Hsnap Hmatch]. split; [by rewrite Hc, Ha|..].
    - intros k. specialize (Hterms k). lia.
    - rewrite Hc. by eapply safe_le.
    - rewrite Hst. intros b meta Hb Hd. apply Save_files in Hsave.
      assert (files store' !! metaPath = files store !! metaPath ∨ meta = mkMeta i t) as [Hf| ->].
      { destruct err; [|destruct Hsave as [(b' & ? & ?) _]; right; congruence].
        destruct Hsave as [[Hf _]|[_ [Hf|Hf]]]; [by left..|congruence]. }
      + rewrite Hf, Hfiles in Hb. destruct (Hsnap b meta Hb Hd) as [Hsa ?].
        split; [by eapply safe_le|done].
      + simpl. split; [|done]. eapply safe_le; [exact Hle| |exact Hcommit]. lia.
    - intros Hr p Hp. destruct (vs_role _ _ Hs) as [Hr' Ht']; [congruence|].
      rewrite (vs_peers _ _ Hs) in Hp. unfold match_of. rewrite Hm, Ht'. apply Hmatch; congruence. }
  destruct err; by apply Hgo.
Qed.

Lemma maybeSnapshot_commit i n : commitIndex (maybeSnapshot i n) = commitIndex n.
Proof.
  unfold maybeSnapshot. destruct (LoadLatest _) as [loaded store]. destruct (covered _ _); [done|].
  destruct (TermAt _ _); [|done]. destruct (Dump _); [|done]. by destruct (Save _ _ _) as [[]].
Qed.

Lemma apply_one_node_safe members a LL i n l :
  node_log LL n l → is_u64 i → i ≤ commitIndex n → node_safe members a LL n l →
  node_safe members a LL (apply_one i n).2 l ∧ commitIndex (apply_one i n).2 = commitIndex n.
Proof.
  intros Hnl Hu Hi Hns. unfold apply_one. destruct (Log.Get i (log n)) as [e|] eqn:Hget; [|done].
  apply (full_Get _ _ _ _ (nl_full _ _ _ Hnl) Hu) in Hget as [Hpos _].
  destruct (apply_entry e (sm n)) as [[err|] machine].
  { split; [|done]. eapply node_safe_calm; [|exact Hns]. by apply calm_frame; [apply vote_safe_frame|..]. }
  set (n1 := satisfyPendingReadsLocked _).
  assert (commitIndex n1 = commitIndex n ∧ lastApplied n1 = i ∧ snapStore n1 = snapStore n ∧
    matchIndex n1 = matchIndex n ∧ log n1 = log n ∧ peers n1 = peers n ∧ role n1 = role n)
    as (Hc & Ha & Hs & Hm & Hl & Hp & Hr).
  { unfold n1, notifyWritersLocked. by destruct (writeWaiters _ !! i). }
  assert (node_safe members a LL n1 l) as Hns1.
  { destruct Hns as [[? ?] Hterms Hcommit Hsnap Hmatch].
    split; rewrite ?Hc, ?Ha, ?Hs, ?Hl, ?Hp, ?Hr; unfold match_of; rewrite ?Hm; try done. u64_lia. }
  assert (node_log LL n1 l) as Hnl1 by (by eapply keeps_frame; [..|exact Hnl]).
  clearbody n1. cbn zeta. cbn [snd]. destruct (_ && _); [|by rewrite Hc].
  split; [|by rewrite maybeSnapshot_commit]. apply maybeSnapshot_node_safe; try done. lia.
Qed.

Lemma apply_loop_node_safe members a LL fuel i k n l :
  hist_ok LL → node_log LL n l → 0 ≤ i → k ≤ commitIndex n → node_safe members a LL n l →
  node_safe members a LL (apply_loop fuel i k n) l.
Proof.
  intros Hh. revert i n. induction fuel as [|fuel IH]; intros i n Hnl Hi Hk Hns; [done|]. simpl.
  case_Z; [|done].
  assert (i ⊞ 1 = i + 1) as Hinc.
  { apply u64_small. pose proof (safe_length _ _ _ _ _ _ (ns_commit _ _ _ _ _ Hns)).
    pose proof (full_length _ _ (nl_full _ _ _ Hnl)). u64_lia. }
  rewrite Hinc. assert (is_u64 (i + 1)) as Hu by (rewrite <-Hinc; apply u64_range).
  pose proof (apply_one_keeps LL (i + 1) n Hh Hu l Hnl) as Hnl'.
  destruct (apply_one_node_safe members a LL (i + 1) n l Hnl Hu ltac:(lia) Hns) as [Hns' Hc'].
  destruct (apply_one (i + 1) n) as [[] n1]; simpl in *; [|done]. apply IH; (done || lia).
Qed.

(** *** The other operations of a node *)

Lemma local_node_safe members c ms LL i n l ev :
  size members ≠ 1%nat → inv members c → cinv members c ms LL → c_nodes c !! i = Some n →
  local_event ev = true → event_ok ev → proposes ev = false → node_log LL n l →
  node_safe members (ack members c ms LL) LL (node_exec ev n) l.
Proof.
  intros Hsize Hinv Hci Hn Hloc Hok Hnp Hnl. pose proof (ci_node Hci _ _ _ Hn Hnl) as Hns.
  destruct ev as [req|req|p t req r|t|p t req r|t r|t| |ty key value id|j|j|ch]; try done; simpl in *.
  - eapply node_safe_calm; [|exact Hns]. unfold confirm_reply. destruct r as [resp|]; [|apply calm_refl].
    destruct (_ <? _); [by apply becomeFollower_calm|apply calm_refl].
  - by eapply tryAdvanceCommitIndex_node_safe.
  - apply apply_loop_node_safe; try done; [apply Hci|apply Hns].
  - eapply node_safe_calm; [|exact Hns]. by apply calm_frame; [apply vote_safe_frame|..].
  - unfold wait_start. case_Z; [done|]. eapply node_safe_calm; [|exact Hns].
    by apply calm_frame; [apply vote_safe_frame|..].
  - eapply node_safe_calm; [|exact Hns]. by apply calm_frame; [apply vote_safe_frame|..].
Qed.

Lemma cinv_local_event members c ms LL i n ev :
  size members ≠ 1%nat → inv members c → inv members (set_node i (node_exec ev n) c) →
  cinv members c ms LL → c_nodes c !! i = Some n → local_event ev = true → event_ok ev → room c →
  ∃ LL', hist_next LL LL' ∧ cinv members (set_node i (node_exec ev n) c) ms LL'.
Proof.
  intros Hsize Hinv Hinv' Hci Hn Hloc Hok Hroom.
  destruct (proposes ev) eqn:Hp.
  { destruct ev as [| | | | | | | |ty key value id| | |]; try done. by eapply cinv_propose. }
  exists LL. split; [by left|]. pose proof (node_exec_safe ev n Hok) as Hsafe.
  pose proof (local_event_keeps LL ev n (l_hist _ _ _ _ (ci_linv Hci)) Hloc Hok Hp) as Hk.
  eapply (cinv_local members c ms ms LL i n); try done; [|intros l Hnl _; by eapply local_node_safe|auto].
  eapply linv_keeps; [apply Hci|apply evolves_node; [done|apply tv_step_le, Hsafe]|done|done|auto].
Qed.

Lemma cinv_restart members c ms LL i n machine store n' :
  let c' := set_election i None (set_node i n' c) in
  inv members c → inv members c' → cinv members c ms LL → c_nodes c !! i = Some n →
  files store = files (snapStore n) →
  NewNode (n_id n) (peers n) (opts n) (engine (log n)) machine store (selfClientAddr n) = Ok n' →
  cinv members c' ms LL.
Proof.
  intros c' Hinv Hinv' Hci Hn Hfiles Hnew. destruct (i_node _ _ Hinv i n Hn) as [_ Hd].
  destruct (NewNode_tv n machine store n' Hd Hnew) as [Hsafe Hrole].
  pose proof (tv_step_le _ _ (vs_step _ _ Hsafe)) as Hle.
  assert (evolves i n n' c c') as He.
  { split; try done. unfold c'. simpl. intros j ru [_ Hj]%lookup_delete_Some. eauto. }
  eapply (cinv_quiet members c ms c' ms LL i n n'); try done;
    [eapply linv_restart; eauto; apply Hci| |by eapply NewNode_keeps| |by left|auto].
  - unfold same_election, c'. simpl. intros j el r got [Hne Hj]%lookup_delete_Some.
    split; [done|]. by intros ->.
  - intros l Hnl [Hn0 Hterms Hcommit Hsnap Hmatch]. unfold NewNode in Hnew.
    destruct (OpenPersistentLog _) as [pl|]; [|done].
    destruct (LoadLatest store) as [loaded store'] eqn:Hl. apply LoadLatest_files in Hl as [Hl Hmeta].
    assert (files (snapStore n') = files (snapStore n) ∧ lastApplied n' = commitIndex n' ∧
      (commitIndex n' = 0 ∨ ∃ snap meta, loaded = Ok (Some (snap, meta)) ∧
        commitIndex n' = LastIncludedIndex meta)) as (Hf & Ha & Hc).
    { destruct loaded as [[[snap meta]|]|]; [|injection Hnew as <-; simpl; split_and!; auto; congruence|done].
      destruct (Restore _ _ _) as [[]]; [done|]. injection Hnew as <-. simpl. split_and!; eauto; congruence. }
    assert (0 ≤ commitIndex n' ∧ safe members (ack members c ms LL) LL (currentTerm (log n))
      (commitIndex n') l) as [Hc0 Hcs].
    { destruct Hc as [->|(snap & meta & Hload & ->)]; [split; [done|by left]|].
      destruct (Hmeta _ _ Hload) as [(b & Hb & Hdec) _]. rewrite Hfiles in Hb.
      pose proof (nl_snap _ _ _ Hnl b meta Hb Hdec) as (L & _ & Hpos & _).
      split; [lia|]. by apply (Hsnap b meta). }
    split; [rewrite Ha; lia|..].
    + intros k. specialize (Hterms k). lia.
    + by eapply safe_le.
    + rewrite Hf. intros b meta Hb Hdec. destruct (Hsnap b meta Hb Hdec). split; [by eapply safe_le|done].
    + congruence.
Qed.

(** *** Sending *)

(** A node sends a request and does not change. *)
Lemma cinv_send members c ms LL i n msg :
  inv members c → cinv members c ms LL → c_nodes c !! i = Some n →
  linv members c (msg :: ms) LL → no_ack msg →
  cmsg_ok members (ack members c ms LL) LL (msg :: ms) msg → cinv members c (msg :: ms) LL.
Proof.
  intros Hinv Hci Hn Hl' Hno Hok.
  eapply (cinv_quiet members c ms c (msg :: ms) LL i n n); try done;
    [| |apply vote_safe_refl|by apply keeps_frame|by left|..].
  - split; try done; [by rewrite insert_id|]. eauto.
  - intros j el r got Hj. split; [done|]. intros ->. eauto.
  - intros m Hm. by apply elem_of_cons; right.
  - intros m. rewrite elem_of_cons. intros [->|Hm]; auto.
Qed.

Lemma replicate_prepare_commit p term n req :
  replicate_prepare p term n = SendAppend req → ae_LeaderCommit req = commitIndex n.
Proof.
  unfold replicate_prepare. intros Hp. destruct (negb _); [done|]. destruct (_ <? _); [done|].
  destruct (_ && _); [done|].
  match type of Hp with match ?r with _ => _ end = _ => destruct r end; [|done].
  by injection Hp as <-.
Qed.

Lemma send_request_safe members c ms LL i n p term req :
  cinv members c ms LL → c_nodes c !! i = Some n → is_u64 (next_of p n) →
  replicate_prepare p term n = SendAppend req → request_safe members (ack members c ms LL) LL req.
Proof.
  intros Hci Hn Hu Hp. destruct (l_node _ _ _ _ (ci_linv Hci) _ _ Hn) as (l & Hnl & _).
  destruct (replicate_prepare_leads _ _ _ _ Hp) as (_ & Ht & Hrt & _).
  destruct (replicate_prepare_log _ _ _ _ _ _ Hnl Hu Hp) as (Hprev & Hpt & Hes).
  pose proof (full_length _ _ (nl_full _ _ _ Hnl)). split; [u64_lia|].
  exists l. rewrite (replicate_prepare_commit _ _ _ _ Hp), Hrt, <-Ht.
  split; [apply Hnl|]. split; [by apply (ci_node Hci _ _ _ Hn Hnl)|]. split; [|done].
  intros _. split; [lia|done].
Qed.

Lemma heartbeat_request_safe members c ms LL i n p :
  cinv members c ms LL → c_nodes c !! i = Some n →
  request_safe members (ack members c ms LL) LL (confirm_request p (currentTerm (log n)) n).
Proof.
  intros Hci Hn. destruct (l_node _ _ _ _ (ci_linv Hci) _ _ Hn) as (l & Hnl & _).
  set (prev := if 0 <? next_of p n then next_of p n ⊟ 1 else 0).
  assert (is_u64 prev) as Hu by (unfold prev; case_Z; [apply u64_range|done]). split; [done|].
  exists l. split; [apply Hnl|]. split; [by apply (ci_node Hci _ _ _ Hn Hnl)|]. split; [|done].
  unfold confirm_request. cbn [ae_PrevLogTerm ae_PrevLogIndex]. fold prev.
  destruct (TermAt prev (log n)) as [t|] eqn:Hta; [|done]. simpl. intros _.
  by destruct (full_TermAt _ _ _ _ (nl_full _ _ _ Hnl) Hu Hta) as [[_ ?] ?].
Qed.

Lemma install_prepare_safe members c ms LL i n term req n' :
  cinv members c ms LL → c_nodes c !! i = Some n → term = currentTerm (log n) →
  install_prepare term n = (Some req, n') →
  calm n n' ∧ keeps LL n n' ∧ snapshot_safe members (ack members c ms LL) LL req.
Proof.
  intros Hci Hn Ht Hp. destruct (l_node _ _ _ _ (ci_linv Hci) _ _ Hn) as (l & Hnl & _).
  destruct (install_prepare_log _ _ _ _ _ _ Hnl Hp) as [_ Hk].
  unfold install_prepare in Hp. destruct (LoadLatest (snapStore n)) as [loaded store] eqn:Hload.
  apply LoadLatest_files in Hload as [Hfiles Hmeta].
  destruct loaded as [[[snap meta]|]|]; try done. destruct (Marshal snap); [|done].
  injection Hp as <- <-. split; [|split; [done|]].
  - split; try done; [by apply vote_safe_frame|]. simpl. by rewrite Hfiles.
  - destruct (Hmeta _ _ eq_refl) as [(b & Hb & Hdec) _].
    pose proof (nl_snap _ _ _ Hnl b meta Hb Hdec) as (L & _ & Hpos & _).
    destruct (ns_snap _ _ _ _ _ (ci_node Hci _ _ _ Hn Hnl) b meta Hb Hdec) as [Hs Hst].
    split; [simpl; lia|]. exists l. rewrite <-Ht in Hs. split_and!; [apply Hnl|done..].
Qed.

(** *** Answers *)

Lemma sent_to_last members c ms LL to req e :
  linv members c ms LL → MAppend to req ∈ ms → last (ae_Entries req) = Some e →
  Index e = sent_to req ∧ 0 ≤ sent_to req.
Proof.
  intros Hl Hin He. pose proof (l_msg _ _ _ _ Hl _ Hin) as Hok. simpl in Hok.
  destruct Hok as [Hnil|(L & i & HL & _ & _ & Hp & _ & Hes)]; [by rewrite Hnil in He|].
  destruct (l_hist _ _ _ _ Hl _ _ HL) as (_ & [Hc _] & _). rewrite last_lookup in He.
  pose proof (lookup_lt_Some _ _ _ He) as Hlt.
  pose proof (prefix_lookup_Some _ _ _ _ He Hes) as HeL. rewrite lookup_drop in HeL.
  rewrite (Hc _ _ HeL). unfold sent_to. split; lia.
Qed.

Lemma set_match_node_safe members a LL p k n l :
  node_safe members a LL n l →
  (role n = Leader → k ≤ 0 ∨ a p (currentTerm (log n)) k ∨ known members a LL (currentTerm (log n)) k) →
  node_safe members a LL (set_match p k n) l.
Proof.
  intros [Hn0 Hterms Hcommit Hsnap Hmatch] Hk. split; try done. simpl. intros Hr p' Hp'.
  unfold match_of. simpl. destruct (decide (p = p')) as [<-|Hne].
  - rewrite lookup_insert_eq. by apply Hk.
  - rewrite lookup_insert_ne by done. by apply Hmatch.
Qed.

Lemma set_next_calm p k n : calm n (set_next p k n).
Proof. by apply calm_frame; [apply vote_safe_frame|..]. Qed.

Lemma replicate_reply_node_safe members c ms LL i n l j req resp :
  cinv members c ms LL → c_nodes c !! i = Some n → node_log LL n l → is_u64 (aer_Term resp) →
  MAppendReply j req resp ∈ ms →
  node_safe members (ack members c ms LL) LL (replicate_reply j (ae_Term req) req (Ok resp) n) l.
Proof.
  intros Hci Hn Hnl Hu Hin. pose proof (ci_node Hci _ _ _ Hn Hnl) as Hns. unfold replicate_reply.
  destruct (_ <? _); [by eapply node_safe_calm; [apply becomeFollower_calm|]|].
  destruct (leads (ae_Term req) n) eqn:Hlead; [|done]. simpl.
  destruct (aer_Success resp) eqn:Hsucc.
  - destruct (last (ae_Entries req)) as [e|] eqn:He; [|done].
    eapply node_safe_calm; [apply set_next_calm|]. apply set_match_node_safe; [done|].
    intros _. right. left. pose proof (ci_msgs Hci _ Hin) as Hreq. simpl in Hreq.
    destruct (sent_to_last _ _ _ _ _ _ _ (ci_linv Hci) Hreq He) as [-> Hpos].
    unfold leads in Hlead. apply andb_true_iff in Hlead as [_ Ht%Z.eqb_eq].
    split; [done|]. left. exists req, resp. split_and!; try done.
    by destruct (ae_Entries req).
  - repeat case_match; try done; (eapply node_safe_calm; [apply set_next_calm|done]).
Qed.

Lemma install_reply_node_safe members c ms LL i n l j req resp :
  cinv members c ms LL → c_nodes c !! i = Some n → node_log LL n l → is_u64 (isr_Term resp) →
  MInstallReply j req resp ∈ ms →
  node_safe members (ack members c ms LL) LL (install_reply j (is_Term req) req (Ok resp) n) l.
Proof.
  intros Hci Hn Hnl Hu Hin. pose proof (ci_node Hci _ _ _ Hn Hnl) as Hns. unfold install_reply.
  destruct (_ <? _); [by eapply node_safe_calm; [apply becomeFollower_calm|]|].
  destruct (leads (is_Term req) n) eqn:Hlead; [|done].
  apply set_match_node_safe; [by eapply node_safe_calm; [apply set_next_calm|]|].
  intros _. right. right. pose proof (ci_msgs Hci _ Hin) as Hreq. simpl in Hreq.
  destruct (ci_msgs Hci _ Hreq) as (_ & l0 & _ & Hs & _).
  unfold leads in Hlead. apply andb_true_iff in Hlead as [_ Ht%Z.eqb_eq]. simpl.
  rewrite Ht. by eapply safe_known.
Qed.

(** *** Handling a request *)

Lemma accept_leader_term req n :
  currentTerm (log n) ≤ ae_Term req → accepts_for 1 (engine (log n)) →
  let m := (accept_leader req n).2 in
  currentTerm (log m) = ae_Term req ∧ role m ≠ Candidate ∧ matchIndex m = matchIndex n ∧
  lastApplied m = lastApplied n ∧ commitIndex m = commitIndex n ∧ snapStore m = snapStore n.
Proof.
  intros Hle Hacc. cbv zeta. unfold accept_leader.
  destruct (Z.ltb_spec (currentTerm (log n)) (ae_Term req)).
  - destruct (SetTermAndVote_accepted 0 (ae_Term req) "" (log n) Hacc) as [Hok _].
    destruct (SetTermAndVote_tv (ae_Term req) "" (log n)) as [[Ht _]|[Ht _]];
      [|exfalso; unfold SetTermAndVote in *; destruct (eng_Commit _ _ _) as [[]]; simpl in *; [done|lia]].
    by destruct (bool_decide (role n = Leader)).
  - case_bool_decide; simpl; split_and!; (done || lia).
Qed.

Lemma follow_commit_fields k n :
  matchIndex (follow_commit k n) = matchIndex n ∧ lastApplied (follow_commit k n) = lastApplied n.
Proof. unfold follow_commit. repeat case_Z; done. Qed.

(** What the request did to a node in whose term or a later one it is. *)
Record handled LL (req : AppendEntriesRequest) n l (ok : bool) n' l' : Prop := {
  ha_le : currentTerm (log n) ≤ ae_Term req;
  ha_term : currentTerm (log n') = ae_Term req;
  ha_role : role n' ≠ Candidate;
  ha_match : matchIndex n' = matchIndex n;
  ha_applied : lastApplied n' = lastApplied n;
  ha_store : snapStore n' = snapStore n;
  ha_log : node_log LL n' l';
  ha_case :
    ok = false ∧ l' = l ∧ commitIndex n' = commitIndex n ∨
    ok = true ∧ 0 ≤ ae_PrevLogIndex req ≤ Z.of_nat (length l) ∧
      (0 < ae_PrevLogIndex req → term_of l (ae_PrevLogIndex req) = ae_PrevLogTerm req) ∧
      (ae_Entries req = [] ∧ l' = l ∨
       ae_Entries req ≠ [] ∧ l' = cut (ae_PrevLogIndex req) l ++ ae_Entries req) ∧
      commitIndex n' = Z.max (commitIndex n) (Z.min (ae_LeaderCommit req) (Z.of_nat (length l')))
}.

Lemma HandleAppendEntries_handled LL winner to req n l resp n' :
  hist_ok LL → node_log LL n l → append_ok LL winner to req → is_u64 (ae_Term req) →
  is_u64 (ae_PrevLogIndex req) → start_ok req n → accepts_for 1 (engine (log n)) →
  HandleAppendEntries req n = (resp, n') →
  n' = n ∧ aer_Success resp = false ∨ ∃ l', handled LL req n l (aer_Success resp) n' l'.
Proof.
  intros Hh Hnl Hreq Hu Hup Hstart Hacc Hhan. unfold HandleAppendEntries in Hhan.
  destruct (Z.ltb_spec (ae_Term req) (currentTerm (log n))) as [|Hle].
  { injection Hhan as <- <-. by left. }
  right. pose proof (accept_leader_keeps LL req n Hu l Hnl) as Hnl1.
  pose proof (accept_leader_li req n) as Hli.
  destruct (accept_leader_term req n Hle Hacc) as (Ht & Hr & Hm & Ha & Hc & Hs).
  destruct (accept_leader req n) as [cur m]. cbn [snd] in *.
  destruct (check_prev cur req m) as [r|] eqn:Hcheck.
  { injection Hhan as <- <-. exists l. split; try done. left. split; [|done].
    unfold check_prev in Hcheck. repeat case_match; by simplify_eq/=. }
  destruct (AppendEntries (ae_Entries req) _ (log m)) as [err pl] eqn:Happ.
  assert (currentTerm pl = ae_Term req) as Htp.
  { destruct (AppendEntries_keeps (ae_Entries req) (FsyncOnAppend (opts m)) (log m)) as (Hk & _).
    rewrite Happ in Hk. simpl in Hk. congruence. }
  assert ((ae_Entries req ≠ [] → lastIncludedIndex (log m) ≤ ae_PrevLogIndex req) ∧
    0 ≤ ae_PrevLogIndex req ≤ Z.of_nat (length l) ∧
    (0 < ae_PrevLogIndex req → term_of l (ae_PrevLogIndex req) = ae_PrevLogTerm req))
    as (Hlow & Hrange & Hterm).
  { unfold check_prev in Hcheck. destruct (Z.ltb_spec 0 (ae_PrevLogIndex req)).
    - destruct (TermAt _ (log m)) as [t|] eqn:Hta; [|done].
      destruct (Z.eqb_spec t (ae_PrevLogTerm req)) as [->|]; [|done].
      apply (full_TermAt _ _ _ _ (nl_full _ _ _ Hnl1) Hup) in Hta as [? ->]. split_and!; (done || lia).
    - split_and!; [|u64_lia|u64_lia|lia]. intros Hne. destruct (Hstart ltac:(u64_lia)); [done|u64_lia]. }
  assert (∃ l', full pl l' ∧ log_ok LL l' ∧ (err ≠ None → l' = l) ∧
    (err = None → ae_Entries req = [] ∧ l' = l ∨
       ae_Entries req ≠ [] ∧ l' = cut (ae_PrevLogIndex req) l ++ ae_Entries req))
    as (l' & Hf' & Hok' & Herr & Hnone).
  { destruct (decide (ae_Entries req = [])) as [Hnil|Hne].
    { rewrite Hnil in Happ. injection Happ as <- <-. exists l. split_and!; [apply Hnl1..|done|auto]. }
    destruct Hreq as [|(L & i & HL & _ & _ & Hp & Hpt & Hes)]; [done|].
    destruct (Hh _ _ HL) as (_ & HokL & HlenL).
    destruct (slice_log LL l L (ae_PrevLogIndex req) (ae_Entries req)) as (Hpre & Hcon & Hlen);
      try done; [apply Hnl|lia|by rewrite <-Hpt|].
    pose proof (full_AppendEntries _ _ _ _ _ _ _ (nl_full _ _ _ Hnl1) (conj (Hlow Hne) (proj2 Hrange))
      Hcon Hne ltac:(lia) Happ) as Hf.
    eexists. split; [exact Hf|]. destruct err; [split_and!; [apply Hnl|done..]|].
    split_and!; [by eapply log_ok_prefix|done|auto]. }
  exists l'. destruct (follow_commit_frame (ae_LeaderCommit req) (with_log pl m)) as (Hfl & Hfs & Hfr).
  destruct (follow_commit_fields (ae_LeaderCommit req) (with_log pl m)) as (Hfm & Hfa).
  pose proof (follow_commit_index (ae_LeaderCommit req) (with_log pl m)) as Hfc.
  destruct err; injection Hhan as <- <-.
  - split; simpl; try done; [split; simpl; [done..|apply Hnl1]|]. left. split_and!; [done|by apply Herr|done].
  - split; rewrite ?Hfl, ?Hfs, ?Hfr, ?Hfm, ?Hfa; simpl; try done;
      [split; rewrite ?Hfl, ?Hfs; simpl; [done..|apply Hnl1]|].
    right. split_and!; try (done || lia); [by apply Hnone|].
    rewrite Hfc. simpl. rewrite Hc, (full_last _ _ Hf'). done.
Qed.

Lemma prefix_is_cut (l1 l2 : list Entry) k :
  l1 `prefix_of` l2 → Z.of_nat (length l1) = k → l1 = cut k l2.
Proof.
  intros Hp Hk. rewrite (cut_of_prefix k _ _ Hp) by lia. unfold cut. by rewrite firstn_all2 by lia.
Qed.

(** The new log is the first part of any log of the history that the request is
    a slice of. *)
Lemma handled_slice LL req n l n' l' L :
  node_log LL n l → log_ok LL L → handled LL req n l true n' l' → ae_Entries req ≠ [] →
  ae_PrevLogIndex req ≤ Z.of_nat (length L) → ae_PrevLogTerm req = term_of L (ae_PrevLogIndex req) →
  ae_Entries req `prefix_of` drop (Z.to_nat (ae_PrevLogIndex req)) L →
  l' = cut (sent_to req) L ∧ 0 ≤ sent_to req ≤ Z.of_nat (length L) ∧
  ∀ e, e ∈ ae_Entries req → 0 < Index e ≤ sent_to req ∧ L !! Z.to_nat (Index e - 1) = Some e.
Proof.
  intros Hnl HL Hha Hne Hp Hpt Hes.
  destruct (ha_case _ _ _ _ _ _ _ Hha) as [[? _]|(_ & Hrange & Hterm & Hcase & _)]; [done|].
  destruct Hcase as [[? _]|[_ Hl']]; [done|].
  destruct (slice_log LL l L (ae_PrevLogIndex req) (ae_Entries req)) as (Hpre & Hcon & Hlen);
    try done; [apply Hnl|lia|lia|by rewrite <-Hpt|].
  split_and!; [|unfold sent_to; lia|done|].
  - rewrite Hl'. apply prefix_is_cut; [done|]. unfold sent_to.
    rewrite length_app, Nat2Z.inj_add, cut_length; lia.
  - intros e He. apply list_elem_of_lookup in He as (j & Hj). pose proof (lookup_lt_Some _ _ _ Hj).
    rewrite (Hcon _ _ Hj). unfold sent_to. split; [lia|].
    pose proof (prefix_lookup_Some _ _ _ _ Hj Hes) as HeL. rewrite lookup_drop in HeL.
    rewrite <-HeL. f_equal. lia.
Qed.

(** A prefix that the old log shares with the leader's is not cut. *)
Lemma not_cut LL req n l n' l' L k :
  node_log LL n l → handled LL req n l true n' l' → l' = cut (sent_to req) L →
  0 ≤ sent_to req ≤ Z.of_nat (length L) →
  (∀ e, e ∈ ae_Entries req → 0 < Index e ≤ sent_to req ∧ L !! Z.to_nat (Index e - 1) = Some e) →
  (lastIndex (log n') < lastIndex (log n) →
    ∃ e f, e ∈ ae_Entries req ∧ Log.Get (Index e) (log n) = Ok f ∧ Term f ≠ Term e) →
  k ≤ Z.of_nat (length l) → cut k l = cut k L → k ≤ sent_to req.
Proof.
  intros Hnl Hha Hl' Hs He Hcut Hk Heq. destruct (Z.le_gt_cases k (sent_to req)) as [|Hgt]; [done|].
  exfalso. pose proof (full_last _ _ (nl_full _ _ _ (ha_log _ _ _ _ _ _ _ Hha))) as Hlast'.
  pose proof (full_last _ _ (nl_full _ _ _ Hnl)) as Hlast.
  rewrite Hl', cut_length in Hlast' by lia.
  destruct Hcut as (e & f & Hin & Hget & Hne); [lia|]. destruct (He e Hin) as [Hi HeL].
  pose proof (full_length _ _ (nl_full _ _ _ Hnl)).
  apply (full_Get _ _ _ _ (nl_full _ _ _ Hnl)) in Hget as [_ Hf]; [|u64_lia].
  assert (l !! Z.to_nat (Index e - 1) = L !! Z.to_nat (Index e - 1)) as Hsame; [|congruence].
  rewrite <-(lookup_take_lt l (Z.to_nat k)), <-(lookup_take_lt L (Z.to_nat k)) by lia.
  by f_equal.
Qed.

(** Whatever of the leader's prefixes the old log had, the new one has, or this
    leader overrides it. *)
Lemma handled_keep LL req n l n' l' L t k :
  node_log LL n l → handled LL req n l true n' l' → LL !! ae_Term req = Some L →
  l' = cut (sent_to req) L → 0 ≤ sent_to req ≤ Z.of_nat (length L) →
  (∀ k, k ≤ Z.of_nat (length l) → cut k l = cut k L → k ≤ sent_to req) →
  t ≤ currentTerm (log n) → holds LL l t k → holds LL l' t k ∨ overridden LL t k (ae_Term req).
Proof.
  intros Hnl Hha HL Hl' Hs Hcut Ht (Lt & HLt & Hk & Hp). pose proof (ha_le _ _ _ _ _ _ _ Hha) as Hle.
  destruct (decide (cut k Lt `prefix_of` L)) as [HpL|HpL].
  - left. exists Lt. split_and!; [done|lia|lia|].
    apply prefix_cut in Hp as [Hlen Hc]; [|done]. apply prefix_cut in HpL as [HlenL HcL]; [|done].
    assert (k ≤ sent_to req) by (apply Hcut; [done|congruence]).
    apply prefix_cut; [done|]. rewrite Hl', cut_length by lia. split; [done|]. by rewrite cut_cut.
  - right. destruct (Z.eq_dec t (ae_Term req)) as [->|].
    { exfalso. apply HpL. assert (Lt = L) as -> by congruence. apply cut_prefix. }
    exists (ae_Term req), Lt, L. split_and!; (done || lia).
Qed.

(** What was committed stays. *)
Lemma handled_safe members a voter LL req n l n' l' L T k :
  hist_ok LL → bounded LL → (∀ u L, LL !! u = Some L → win_ok members a voter LL u L) →
  LL !! ae_Term req = Some L → T ≤ ae_Term req →
  l' = cut (sent_to req) L → 0 ≤ sent_to req ≤ Z.of_nat (length L) →
  (∀ k, k ≤ Z.of_nat (length l) → cut k l = cut k L → k ≤ sent_to req) →
  safe members a LL T k l → safe members a LL T k l' ∧ k ≤ sent_to req ∧ cut k l' = cut k l.
Proof.
  intros Hh Hb Hw HL HT Hl' Hs Hcut Hsafe.
  pose proof (safe_length _ _ _ _ _ _ Hsafe) as Hlen.
  pose proof (safe_leader _ _ _ _ _ _ _ _ _ Hh Hb Hw Hsafe HL HT) as Hp.
  destruct (Z.le_gt_cases k 0) as [Hk0|Hk0].
  { split; [by left|]. split; [lia|]. unfold cut. by replace (Z.to_nat k) with 0%nat by lia. }
  apply prefix_cut in Hp as [HlenL Hc]; [|lia].
  assert (k ≤ sent_to req) as Hle by (by apply Hcut).
  assert (cut k l' = cut k l) as Heq by (by rewrite Hl', cut_cut).
  split; [|done]. destruct Hsafe as [?|(t & Lt & k' & ? & HLt & ? & Hcm & Hpl)]; [lia|].
  right. exists t, Lt, k'. split_and!; try done.
  pose proof Hcm as (L0 & HL0 & Hk0' & _). assert (L0 = Lt) as -> by congruence.
  apply prefix_cut in Hpl as [_ Hcl]; [|lia]. apply prefix_cut; [lia|].
  rewrite Hl', cut_length by lia. split; [done|]. rewrite <-Hl'. congruence.
Qed.

Lemma safe_cut members a LL T k l1 l2 :
  safe members a LL T k l1 → cut k l2 = cut k l1 → k ≤ Z.of_nat (length l2) →
  safe members a LL T k l2.
Proof.
  intros [?|(t & L & k' & ? & HL & ? & Hc & Hp)] Heq Hk; [by left|].
  destruct (Z.le_gt_cases k 0); [by left|right]. exists t, L, k'. split_and!; try done.
  pose proof Hc as (L0 & HL0 & ? & _). assert (L0 = L) as -> by congruence.
  apply prefix_cut in Hp as [_ Hp]; [|lia]. apply prefix_cut; [lia|]. split; [done|congruence].
Qed.

Lemma term_of_pos LL l k :
  hist_ok LL → log_ok LL l → 0 < k ≤ Z.of_nat (length l) → 0 < term_of l k.
Proof.
  intros Hh Hok Hk. destruct (log_ok_registered _ _ _ Hok Hk) as (L & HL & _).
  destruct (Hh _ _ HL) as (? & _). lia.
Qed.

(** The commit index that a node takes over from a request. *)
Lemma handled_commit members a LL req n l n' l' :
  hist_ok LL → node_log LL n l → request_safe members a LL req → handled LL req n l true n' l' →
  0 ≤ commitIndex n → safe members a LL (ae_Term req) (commitIndex n) l' →
  commitIndex n' ≤ Z.max (commitIndex n) (sent_to req) →
  safe members a LL (ae_Term req) (commitIndex n') l'.
Proof.
  intros Hh Hnl (Hu & ls & Hok & Hs & Hprev & Hents) Hha H0' Hold Hmax.
  destruct (ha_case _ _ _ _ _ _ _ Hha) as [[? _]|(_ & Hrange & Hterm & Hcase & Hci)]; [done|].
  destruct (Z.le_gt_cases (commitIndex n') (commitIndex n)) as [Hle|Hgt].
  { by eapply safe_le; [|exact Hle|]. }
  set (k := commitIndex n') in *.
  assert (safe members a LL (ae_Term req) k ls) as Hsk by (eapply safe_le; [| |exact Hs]; lia).
  eapply safe_cut; [exact Hsk| |lia].
  destruct Hcase as [[Hnil ->]|[Hne _]].
  - unfold sent_to in Hmax. rewrite Hnil in Hmax. simpl in Hmax.
    pose proof (term_of_pos LL l (ae_PrevLogIndex req) Hh (nl_ok _ _ _ Hnl) ltac:(lia)) as Hpos.
    rewrite (Hterm ltac:(lia)) in Hpos. destruct Hprev as [Hpl Hpt]; [lia|].
    rewrite <-(cut_cut k (ae_PrevLogIndex req) l), <-(cut_cut k (ae_PrevLogIndex req) ls) by lia.
    f_equal. eapply log_ok_agree_index; [apply Hnl|done|lia|done|]. by rewrite Hterm by lia.
  - destruct (Hents Hne) as (Hpl & Hpt & Hes).
    destruct (handled_slice _ _ _ _ _ _ ls Hnl Hok Hha Hne ltac:(lia) Hpt Hes) as (-> & _ & _).
    rewrite cut_cut by lia. done.
Qed.

(** The answer of node [j] is not an acknowledgement. *)
Lemma cinv_append_quiet members c ms LL j n l req resp n' :
  inv members c → inv members (set_node j n' c) → cinv members c ms LL →
  linv members (set_node j n' c) (MAppendReply j req resp :: ms) LL →
  c_nodes c !! j = Some n → MAppend j req ∈ ms → vote_safe n n' →
  node_log LL n l → node_log LL n' l → no_ack (MAppendReply j req resp) →
  node_safe members (ack members c ms LL) LL n' l →
  cinv members (set_node j n' c) (MAppendReply j req resp :: ms) LL.
Proof.
  intros Hinv Hinv' Hci Hl' Hn Hin Hsafe Hnl Hnl' Hno Hns.
  eapply (cinv_local members c ms _ LL j n); try done.
  - intros l0 Hl0. by rewrite (node_log_unique _ _ _ _ Hl0 Hnl).
  - intros l0 Hl0 _. by rewrite (node_log_unique _ _ _ _ Hl0 Hnl).
  - intros m Hm. by apply elem_of_cons; right.
  - intros m. rewrite elem_of_cons. intros [->|Hm]; [|by left]. right. split; [done|].
    simpl. by apply elem_of_cons; right.
Qed.

Lemma bounded_cut LL t L s k :
  hist_ok LL → bounded LL → LL !! t = Some L → 0 ≤ s ≤ Z.of_nat (length L) → term_of (cut s L) k ≤ t.
Proof.
  intros Hh Hb HL Hs. destruct (Z.le_gt_cases k s) as [Hk|Hk].
  { rewrite term_of_cut by lia. by apply Hb. }
  destruct (Hh _ _ HL). unfold term_of. case_Z; [lia|].
  rewrite lookup_ge_None_2; [lia|]. pose proof (cut_length _ _ Hs). lia.
Qed.

(** The state of a node that took over the entries of a request. *)
Lemma handled_node_safe members c ms LL j n l req n' l' L :
  cinv members c ms LL → c_nodes c !! j = Some n → node_log LL n l → vote_safe n n' →
  request_safe members (ack members c ms LL) LL req → handled LL req n l true n' l' →
  LL !! ae_Term req = Some L → l' = cut (sent_to req) L →
  0 ≤ sent_to req ≤ Z.of_nat (length L) →
  (∀ k, k ≤ Z.of_nat (length l) → cut k l = cut k L → k ≤ sent_to req) →
  commitIndex n' ≤ Z.max (commitIndex n) (sent_to req) →
  node_safe members (ack members c ms LL) LL n' l'.
Proof.
  intros Hci Hn Hnl Hvs Hreq Hha HL Hl' Hs Hcut Hmax.
  pose proof (ci_node Hci _ _ _ Hn Hnl) as [[Hc0 Ha0] Hterms Hcommit Hsnap Hmatch].
  pose proof (l_hist _ _ _ _ (ci_linv Hci)) as Hh. pose proof (ha_le _ _ _ _ _ _ _ Hha) as Hle.
  pose proof (ha_term _ _ _ _ _ _ _ Hha) as Ht.
  assert (∀ k, safe members (ack members c ms LL) LL (currentTerm (log n)) k l →
    safe members (ack members c ms LL) LL (ae_Term req) k l' ∧ k ≤ sent_to req ∧ cut k l' = cut k l) as Hkeep.
  { intros k Hk. eapply (handled_safe _ _ (reached c) LL req n l n' l' L (ae_Term req)); try done;
      [apply Hci|apply Hci|by eapply safe_le]. }
  destruct (Hkeep _ Hcommit) as (Hcommit' & _ & _). split.
  - split; [|by rewrite (ha_applied _ _ _ _ _ _ _ Hha)].
    destruct (ha_case _ _ _ _ _ _ _ Hha) as [[? _]|(_ & _ & _ & _ & ->)]; [done|lia].
  - intros k. rewrite Ht, Hl'. by eapply bounded_cut; [|apply Hci|..].
  - rewrite Ht. by eapply handled_commit.
  - rewrite (ha_store _ _ _ _ _ _ _ Hha), Ht. intros b meta Hb Hd.
    destruct (Hsnap b meta Hb Hd) as [Hsa Hst]. destruct (Hkeep _ Hsa) as (Hsa' & Hk & Hc).
    split; [done|]. rewrite <-Hst. apply (term_of_agree (LastIncludedIndex meta)); [done|done| |].
    + rewrite Hl', cut_length; lia.
    + by eapply safe_length.
  - intros Hr p Hp. destruct (vs_role _ _ Hvs) as [Hr' Ht']; [congruence|].
    rewrite (vs_peers _ _ Hvs) in Hp. unfold match_of. rewrite (ha_match _ _ _ _ _ _ _ Hha), Ht'.
    apply Hmatch; congruence.
Qed.

(** The state of a node that only took over a commit index. *)
Lemma heartbeat_node_safe members c ms LL j n l req n' :
  cinv members c ms LL → c_nodes c !! j = Some n → node_log LL n l → vote_safe n n' →
  request_safe members (ack members c ms LL) LL req → handled LL req n l true n' l →
  commitIndex n' ≤ Z.max (commitIndex n) (sent_to req) →
  node_safe members (ack members c ms LL) LL n' l.
Proof.
  intros Hci Hn Hnl Hvs Hreq Hha Hmax.
  pose proof (ci_node Hci _ _ _ Hn Hnl) as [[Hc0 Ha0] Hterms Hcommit Hsnap Hmatch].
  pose proof (ha_term _ _ _ _ _ _ _ Hha) as Ht. pose proof (ha_le _ _ _ _ _ _ _ Hha) as Hle. split.
  - rewrite (ha_applied _ _ _ _ _ _ _ Hha).
    destruct (ha_case _ _ _ _ _ _ _ Hha) as [[? _]|(_ & _ & _ & _ & ->)]; [done|lia].
  - intros k. specialize (Hterms k). lia.
  - rewrite Ht. eapply handled_commit; try done; [apply Hci|by eapply safe_le].
  - rewrite (ha_store _ _ _ _ _ _ _ Hha), Ht. intros b meta Hb Hd.
    destruct (Hsnap b meta Hb Hd). split; [by eapply safe_le|done].
  - intros Hr p Hp. destruct (vs_role _ _ Hvs) as [Hr' Ht']; [congruence|].
    rewrite (vs_peers _ _ Hvs) in Hp. unfold match_of. rewrite (ha_match _ _ _ _ _ _ _ Hha), Ht'.
    apply Hmatch; congruence.
Qed.

Lemma ack_cons members c ms LL i n msg j t k :
  ack members c ms LL j t k → ack members (set_node i n c) (msg :: ms) LL j t k.
Proof.
  intros [Hk0 [(rq & rs & Hr & Hrest)|Hw]]; (split; [done|]); [left|by right].
  exists rq, rs. split; [by apply elem_of_cons; right|done].
Qed.

(** A node that took over the entries of a request acknowledges them. *)
Lemma cinv_acknowledge members c ms LL j n l req resp n' l' L :
  inv members c → inv members (set_node j n' c) → cinv members c ms LL →
  linv members (set_node j n' c) (MAppendReply j req resp :: ms) LL →
  MAppend j req ∈ ms → c_nodes c !! j = Some n → vote_safe n n' →
  node_log LL n l → handled LL req n l true n' l' → LL !! ae_Term req = Some L →
  l' = cut (sent_to req) L → 0 ≤ sent_to req ≤ Z.of_nat (length L) →
  (∀ k, k ≤ Z.of_nat (length l) → cut k l = cut k L → k ≤ sent_to req) →
  commitIndex n' ≤ Z.max (commitIndex n) (sent_to req) →
  cinv members (set_node j n' c) (MAppendReply j req resp :: ms) LL.
Proof.
  intros Hinv Hinv' Hci Hl' Hin Hn Hvs Hnl Hha HL Hl Hs Hcut Hchk.
  pose proof (ha_term _ _ _ _ _ _ _ Hha) as Ht. pose proof (ha_le _ _ _ _ _ _ _ Hha) as Hle.
  apply (cinv_step members c ms LL _ _ LL j n n' l l'); try done. split; try done.
  - apply evolves_node; [done|lia].
  - by left.
  - apply Hha.
  - intros m Hm. by apply elem_of_cons; right.
  - intros i t k [Hk0 [(rq & rs & Hr & Hsu & Hen & Htt & Hk)|Hw]]; [|by left; split; [|right]].
    apply elem_of_cons in Hr as [Heq|Hr]; [|left; split; [done|left; by exists rq, rs]].
    injection Heq as -> -> ->. right. split; [done|]. split; [lia|]. rewrite <-Htt.
    exists L. split; [done|]. split; [lia|]. rewrite Hl. apply prefix_cut; [lia|].
    rewrite cut_length, cut_cut by lia. done.
  - intros t k Htt Hhold. rewrite Ht. by eapply handled_keep.
  - eapply node_safe_next; [apply ack_cons|by left|]. eapply handled_node_safe; try done.
    exact (ci_msgs Hci _ Hin).
  - apply Hci.
  - congruence.
  - by left.
  - intros i el r got Hi. simpl in Hi. destruct (decide (i = j)) as [->|Hij]; [right|by left].
    split; [done|]. intros Hr. by destruct (ha_role _ _ _ _ _ _ _ Hha).
  - intros m. rewrite elem_of_cons. intros [->|Hm]; [|by left]. right.
    simpl. by apply elem_of_cons; right.
Qed.

Lemma cinv_append members c ms LL j n req resp n' :
  size members ≠ 1%nat → inv members c → inv members (set_node j n' c) → cinv members c ms LL →
  MAppend j req ∈ ms → c_nodes c !! j = Some n → is_u64 (ae_Term req) →
  may_deliver careful (MAppend j req) n → HandleAppendEntries req n = (resp, n') →
  cinv members (set_node j n' c) (MAppendReply j req resp :: ms) LL.
Proof.
  intros Hsize Hinv Hinv' Hci Hin Hn Hu (Hstart & Hacc & Hcuts & Hchk) Hhan.
  pose proof (linv_append _ _ _ _ _ _ _ _ _ Hsize Hinv (ci_linv Hci) Hin Hn Hu Hstart Hhan) as Hl'.
  pose proof (HandleAppendEntries_safe req n Hu) as Hvs.
  unfold cuts_conflict, commits_checked in Hcuts, Hchk. rewrite Hhan in Hvs, Hcuts, Hchk. simpl in *.
  destruct (l_node _ _ _ _ (ci_linv Hci) _ _ Hn) as (l & Hnl & _).
  pose proof (ci_node Hci _ _ _ Hn Hnl) as Hns. pose proof (l_hist _ _ _ _ (ci_linv Hci)) as Hh.
  pose proof (l_msg _ _ _ _ (ci_linv Hci) _ Hin) as Hok. simpl in Hok.
  pose proof (ci_msgs Hci _ Hin) as Hreq. simpl in Hreq.
  destruct (HandleAppendEntries_handled _ _ _ _ _ _ _ _ Hh Hnl Hok Hu (proj1 Hreq) Hstart Hacc Hhan)
    as [[-> Hf]|(l' & Hha)].
  { eapply cinv_append_quiet; try done. simpl. congruence. }
  destruct (ha_case _ _ _ _ _ _ _ Hha) as [(Hf & -> & Hc)|(Hsucc & _ & _ & Hcase & Hci')].
  { eapply (cinv_append_quiet _ _ _ _ _ n l); try done; [apply Hha|simpl; congruence|].
    eapply node_safe_calm; [|exact Hns]. split; try apply Hha; try done.
    by rewrite (ha_store _ _ _ _ _ _ _ Hha). }
  rewrite Hsucc in Hha. destruct Hcase as [[Hnil ->]|[Hne _]].
  { eapply (cinv_append_quiet _ _ _ _ _ n l); try done; [apply Hha|by intros _|].
    by eapply heartbeat_node_safe. }
  destruct Hok as [|(L & w & HL & _ & _ & Hp & Hpt & Hes)]; [done|].
  destruct (handled_slice _ _ _ _ _ _ L Hnl ltac:(by apply (Hh _ _ HL)) Hha Hne ltac:(lia) Hpt Hes)
    as (Hl & Hs & Hents).
  eapply cinv_acknowledge; try done. intros k. by eapply not_cut.
Qed.

(** *** Installing a snapshot *)

(** Nothing of the node changed but its term, role and possibly a lost snapshot file. *)
Record untouched LL n l n' : Prop := {
  un_log : node_log LL n' l;
  un_commit : commitIndex n' = commitIndex n;
  un_applied : lastApplied n' = lastApplied n;
  un_files : files (snapStore n') !! metaPath = files (snapStore n) !! metaPath ∨
    files (snapStore n') !! metaPath = None
}.

Record installed LL (req : InstallSnapshotRequest) n' l' : Prop := {
  in_log : node_log LL n' l';
  in_length : Z.of_nat (length l') = is_LastIncludedIndex req;
  in_term : term_of l' (is_LastIncludedIndex req) = is_LastIncludedTerm req;
  in_commit : commitIndex n' = is_LastIncludedIndex req;
  in_applied : lastApplied n' = is_LastIncludedIndex req;
  in_files : ∃ b, files (snapStore n') !! metaPath = Some b ∧
    decode b = Ok (mkMeta (is_LastIncludedIndex req) (is_LastIncludedTerm req))
}.

Lemma install_snapshot_outcome LL req n l :
  hist_ok LL → node_log LL n l → registered LL (is_LastIncludedIndex req) (is_LastIncludedTerm req) →
  accepts_for 1 (engine (log n)) → restores req n →
  untouched LL n l (install_snapshot req n) ∨ ∃ l', installed LL req (install_snapshot req n) l'.
Proof.
  intros Hh Hnl Hreg Hacc Hres. unfold install_snapshot.
  destruct (UnmarshalSnapshot (is_Data req)) as [snap|] eqn:Hun; [|left; split; auto].
  destruct (Save snap _ (snapStore n)) as [err store] eqn:Hsave.
  assert (snap_ok LL store) as Hsn by (eapply snap_ok_Save; [apply Hnl| |exact Hsave]; done).
  apply Save_files in Hsave.
  destruct err.
  { left. split; try done; [split; simpl; try done; apply Hnl|]. simpl.
    destruct Hsave as [[Hf _]|[_ Hf]]; auto. }
  specialize (Hres snap Hun). simpl. destruct (Restore _ _ _) as [err machine]. simpl in Hres. subst err.
  destruct (RestoreSnapshotBoundary _ _ _) as [err pl] eqn:Hrb. simpl in Hrb.
  pose proof (RestoreSnapshotBoundary_accepted (is_LastIncludedIndex req) (is_LastIncludedTerm req)
    (log n) Hacc) as Hnone. rewrite Hrb in Hnone. simpl in Hnone. subst err.
  destruct (registered_log _ _ _ Hh Hreg) as (l' & Hok & Hi & Ht & Hu & Hb).
  eapply full_RestoreSnapshotBoundary in Hrb; [|apply Hnl|done..|apply Hok]. simpl in Hrb.
  right. exists l'. split; simpl; try done. destruct Hsave as [(b & ? & ?) _]. eauto.
Qed.

Lemma install_snapshot_frame req n :
  currentTerm (log (install_snapshot req n)) = currentTerm (log n) ∧
  role (install_snapshot req n) = role n.
Proof.
  unfold install_snapshot. destruct (UnmarshalSnapshot _); [|done].
  destruct (Save _ _ _) as [[]]; [done|]. destruct (Restore _ _ _) as [[]]; [done|].
  match goal with |- context [RestoreSnapshotBoundary ?i ?t (log ?m)] =>
    destruct (RestoreSnapshotBoundary_keeps i t (log m)) as (Hk & _) end.
  destruct (RestoreSnapshotBoundary _ _ _) as [[] pl]; done.
Qed.

Lemma HandleInstallSnapshot_outcome LL req n l resp n' :
  hist_ok LL → node_log LL n l → registered LL (is_LastIncludedIndex req) (is_LastIncludedTerm req) →
  is_u64 (is_Term req) → accepts_for 2 (engine (log n)) → restores req n →
  HandleInstallSnapshot req n = (resp, n') →
  n' = n ∨
  currentTerm (log n) ≤ is_Term req ∧ currentTerm (log n') = is_Term req ∧ role n' = Follower ∧
    (untouched LL n l n' ∨ ∃ l', installed LL req n' l').
Proof.
  intros Hh Hnl Hreg Hu Hacc Hres Hhan. unfold HandleInstallSnapshot in Hhan.
  destruct (Z.ltb_spec (is_Term req) (currentTerm (log n))) as [|Hle]; [injection Hhan as <- <-; by left|].
  right. split; [done|].
  set (r0 := if currentTerm (log n) <? is_Term req
    then (is_Term req, persistTermVote (is_Term req) "" n) else (currentTerm (log n), n)) in Hhan.
  assert (node_log LL r0.2 l ∧ accepts_for 1 (engine (log r0.2)) ∧ currentTerm (log r0.2) = is_Term req ∧
    sm r0.2 = sm n ∧ snapStore r0.2 = snapStore n ∧ commitIndex r0.2 = commitIndex n ∧
    lastApplied r0.2 = lastApplied n) as (Hnl0 & Hacc0 & Ht0 & Hsm0 & Hst0 & Hc0 & Ha0).
  { unfold r0. destruct (Z.ltb_spec (currentTerm (log n)) (is_Term req)).
    - split; [by eapply (keeps_term LL n)|].
      destruct (SetTermAndVote_accepted 1 (is_Term req) "" (log n) Hacc) as [Hok Hacc1].
      split; [done|]. split_and!; try done. simpl.
      unfold SetTermAndVote in *. destruct (eng_Commit _ _ _) as [[]]; done.
    - split_and!; try done; [by apply accepts_for_S|simpl; lia]. }
  clearbody r0. destruct r0 as [cur n0]. simpl in *.
  destruct (LoadLatest (snapStore n0)) as [loaded store] eqn:Hload.
  apply LoadLatest_files in Hload as [Hfiles _].
  set (n1 := with_snapStore store _) in Hhan.
  assert (node_log LL n1 l) as Hnl1.
  { apply (keeps_store LL (resetElectionTimer (with_leader (is_LeaderID req)
      (leaderClientAddr n0) (with_role Follower n0)))); [done|]. by eapply keeps_frame; [..|exact Hnl0]. }
  assert (untouched LL n l n1) as Hun1.
  { split; try done. left. simpl. by rewrite Hfiles, Hst0. }
  destruct (covered _ _); injection Hhan as <- <-; [split_and!; try done; by left|].
  assert (currentTerm (log (install_snapshot req n1)) = is_Term req ∧
    role (install_snapshot req n1) = Follower) as [Ht Hr].
  { pose proof (install_snapshot_frame req n1) as [-> ->]. done. }
  split; [done|]. split; [done|].
  assert (restores req n1) as Hres1 by (intros snap Hs; simpl; rewrite Hsm0; by apply Hres).
  destruct (install_snapshot_outcome LL req n1 l Hh Hnl1 Hreg Hacc0 Hres1) as [Hun|Hin]; [left|by right].
  destruct Hun as [? Hc Ha Hf]. split; [done|by rewrite Hc|by rewrite Ha|].
  destruct Hf as [Hf|]; [left|by right].
  rewrite Hf. simpl. by rewrite Hfiles, Hst0.
Qed.

(** The new log of the node is the start of a leader's log that is committed. *)
Lemma installed_cut members a LL req n' l' :
  snapshot_safe members a LL req → installed LL req n' l' →
  ∃ t0 L0 k0, t0 ≤ is_Term req ∧ LL !! t0 = Some L0 ∧ is_LastIncludedIndex req ≤ k0 ∧
    committed members a LL t0 k0 ∧ k0 ≤ Z.of_nat (length L0) ∧ l' = cut (is_LastIncludedIndex req) L0.
Proof.
  intros (Hi & ls & Hok & Hsafe & Hterm) Hin. pose proof (safe_length _ _ _ _ _ _ Hsafe) as Hlen.
  destruct Hsafe as [?|(t0 & L0 & k0 & Ht0 & HL0 & Hk0 & Hc & Hp)]; [lia|].
  pose proof Hc as (L & HL & Hk & _). assert (L = L0) as -> by congruence.
  exists t0, L0, k0. split_and!; try (done || lia).
  apply prefix_cut in Hp as [_ <-]; [|lia].
  pose proof (in_length _ _ _ _ Hin). rewrite <-(firstn_all l').
  replace (length l') with (Z.to_nat (is_LastIncludedIndex req)) by lia.
  eapply (log_ok_agree_index LL); try done; [apply Hin|lia|]. by rewrite (in_term _ _ _ _ Hin).
Qed.

(** What the node had of a leader's log it still has, or a later leader gave it up. *)
Lemma installed_keep members a voter LL req n l n' l' t k :
  hist_ok LL → bounded LL → (∀ u L, LL !! u = Some L → win_ok members a voter LL u L) →
  node_log LL n l → snapshot_safe members a LL req → installed LL req n' l' →
  (lastIndex (log n') < lastIndex (log n) →
    ∃ t, TermAt (is_LastIncludedIndex req) (log n) = Some t ∧ t ≠ is_LastIncludedTerm req) →
  holds LL l t k → holds LL l' t k ∨ overridden LL t k (is_Term req).
Proof.
  intros Hh Hb Hw Hnl Hsn Hin Hguard (Lt & HLt & Hk & Hp).
  destruct (installed_cut _ _ _ _ _ _ Hsn Hin) as (t0 & L0 & k0 & Ht0 & HL0 & Hk0 & Hc & Hlen & Hl').
  set (idx := is_LastIncludedIndex req) in *. assert (0 < idx) as Hpos by apply Hsn.
  apply prefix_cut in Hp as [Hkl Hcl]; [|done].
  assert (cut (Z.min k idx) Lt = cut (Z.min k idx) L0 ∨ overridden LL t k (is_Term req))
    as [Heq|]; [| |by right].
  { destruct (Z.le_gt_cases t0 t) as [Ht|Ht].
    - left. pose proof (committed_agree _ _ _ _ _ _ _ _ _ Hh Hb Hw Hc HL0 HLt Ht) as Hpre.
      apply prefix_cut in Hpre as [_ Heq]; [|lia].
      rewrite <-(cut_cut _ k0 Lt), <-(cut_cut _ k0 L0) by lia. by rewrite Heq.
    - destruct (decide (cut k Lt `prefix_of` L0)) as [Hpre|]; [left|right].
      + apply prefix_cut in Hpre as [_ Heq]; [|done].
        rewrite <-(cut_cut _ k Lt), <-(cut_cut _ k L0) by lia. by rewrite Heq.
      + exists t0, Lt, L0. split_and!; (done || lia). }
  destruct (Z.le_gt_cases k idx) as [Hki|Hki].
  { left. exists Lt. split; [done|]. split; [done|]. rewrite Z.min_l in Heq by done.
    rewrite Heq, Hl', <-(cut_cut k idx) by done. apply cut_prefix. }
  exfalso. rewrite Z.min_r in Heq by lia.
  assert (cut idx l = cut idx L0) as Hcut.
  { rewrite <-Heq, <-(cut_cut idx k l), <-(cut_cut idx k Lt) by lia. by rewrite Hcl. }
  pose proof (full_last _ _ (nl_full _ _ _ Hnl)) as Hlast.
  pose proof (full_last _ _ (nl_full _ _ _ (in_log _ _ _ _ Hin))) as Hlast'.
  pose proof (in_length _ _ _ _ Hin) as Hlen'. pose proof (in_term _ _ _ _ Hin) as Hterm.
  destruct Hguard as (t' & HT & Hne); [lia|].
  pose proof (full_length _ _ (nl_full _ _ _ Hnl)).
  eapply full_TermAt in HT as [_ HT]; [|apply Hnl|u64_lia]. apply Hne. rewrite HT, <-Hterm, Hl'.
  rewrite term_of_cut by lia. apply (term_of_agree idx); (done || lia).
Qed.

Lemma installed_node_safe members a LL req n' l' :
  hist_ok LL → bounded LL → snapshot_safe members a LL req → installed LL req n' l' →
  currentTerm (log n') = is_Term req → role n' = Follower → node_safe members a LL n' l'.
Proof.
  intros Hh Hb Hsn Hin Ht Hr.
  destruct (installed_cut _ _ _ _ _ _ Hsn Hin) as (t0 & L0 & k0 & Ht0 & HL0 & Hk0 & Hc & Hlen & Hl').
  destruct Hsn as [Hpos _].
  assert (safe members a LL (currentTerm (log n')) (is_LastIncludedIndex req) l') as Hsafe.
  { right. exists t0, L0, k0. rewrite Ht. split_and!; try done. by rewrite Hl'. }
  split.
  - rewrite (in_commit _ _ _ _ Hin), (in_applied _ _ _ _ Hin). lia.
  - intros k. rewrite Ht, Hl'. trans t0; [|done]. eapply bounded_cut; (done || lia).
  - by rewrite (in_commit _ _ _ _ Hin).
  - intros b meta Hb' Hd. destruct (in_files _ _ _ _ Hin) as (b' & Hb2 & Hd2).
    assert (meta = mkMeta (is_LastIncludedIndex req) (is_LastIncludedTerm req)) as -> by congruence.
    split; [done|]. apply (in_term _ _ _ _ Hin).
  - congruence.
Qed.

Lemma untouched_node_safe members a LL n l n' :
  untouched LL n l n' → currentTerm (log n) ≤ currentTerm (log n') → role n' = Follower →
  node_safe members a LL n l → node_safe members a LL n' l.
Proof.
  intros [_ Hc Ha Hf] Ht Hr [Hnn Hterms Hcommit Hsnap _]. split.
  - by rewrite Hc, Ha.
  - intros k. specialize (Hterms k). lia.
  - rewrite Hc. by eapply safe_le.
  - intros b meta Hb Hd. destruct Hf as [Hf|Hf]; [|congruence]. rewrite Hf in Hb.
    destruct (Hsnap _ _ Hb Hd). split; [by eapply safe_le|done].
  - congruence.
Qed.

Lemma cinv_install members c ms LL j n req resp n' :
  inv members c → inv members (set_node j n' c) → cinv members c ms LL →
  MInstall j req ∈ ms → c_nodes c !! j = Some n → is_u64 (is_Term req) →
  may_deliver careful (MInstall j req) n → HandleInstallSnapshot req n = (resp, n') →
  cinv members (set_node j n' c) (MInstallReply j req resp :: ms) LL.
Proof.
  intros Hinv Hinv' Hci Hin Hn Hu (Hacc & Hres & Hguard) Hhan.
  pose proof (linv_install _ _ _ _ _ _ _ _ _ (ci_linv Hci) Hin Hn Hu Hhan) as Hl'.
  pose proof (HandleInstallSnapshot_safe req n Hu) as Hvs.
  unfold installs_conflict in Hguard. rewrite Hhan in Hvs, Hguard. simpl in *.
  destruct (l_node _ _ _ _ (ci_linv Hci) _ _ Hn) as (l & Hnl & _).
  pose proof (ci_node Hci _ _ _ Hn Hnl) as Hns. pose proof (l_hist _ _ _ _ (ci_linv Hci)) as Hh.
  pose proof (l_msg _ _ _ _ (ci_linv Hci) _ Hin) as Hreg. simpl in Hreg.
  pose proof (ci_msgs Hci _ Hin) as Hsn. simpl in Hsn.
  assert (∀ msg, msg ∈ ms → msg ∈ MInstallReply j req resp :: ms) as Hms
    by (intros m Hm; by apply elem_of_cons; right).
  assert (node_log LL n' l → node_safe members (ack members c ms LL) LL n' l →
    cinv members (set_node j n' c) (MInstallReply j req resp :: ms) LL) as Hquiet.
  { intros Hnl' Hns'. eapply (cinv_local members c ms _ LL j n); try done.
    - intros l0 Hl0. by rewrite (node_log_unique _ _ _ _ Hl0 Hnl).
    - intros l0 Hl0 _. by rewrite (node_log_unique _ _ _ _ Hl0 Hnl).
    - intros m. rewrite elem_of_cons. intros [->|Hm]; [|by left]. right. split; [done|]. by apply Hms. }
  destruct (HandleInstallSnapshot_outcome _ _ _ _ _ _ Hh Hnl Hreg Hu Hacc Hres Hhan)
    as [->|(Hle & Ht & Hr & [Hun|(l' & Hins)])]; [by apply Hquiet| |].
  { apply Hquiet; [apply Hun|]. eapply untouched_node_safe; try done. lia. }
  apply (cinv_step members c ms LL _ _ LL j n n' l l'); try done. split; try done.
  - apply evolves_node; [done|lia].
  - by left.
  - apply Hins.
  - intros i t k Ha. left. revert Ha. apply ack_back; [done|apply Hci|done|].
    intros m. rewrite elem_of_cons. intros [->|]; [by right|by left].
  - intros t k _. rewrite Ht. eapply installed_keep; try done; apply Hci.
  - eapply node_safe_next; [apply ack_cons|by left|]. eapply installed_node_safe; try done. apply Hci.
  - apply Hci.
  - congruence.
  - by left.
  - intros i el r got Hi. simpl in Hi. destruct (decide (i = j)) as [->|Hij]; [right|by left].
    split; [done|]. congruence.
  - intros m. rewrite elem_of_cons. intros [->|Hm]; [|by left]. right. by apply Hms.
Qed.

(** ** Every step keeps the invariant *)

Lemma cinv_election members c ms c' LL :
  size members ≠ 1%nat → inv members c → inv members c' → cinv members c ms LL → room c →
  estep c c' → ∃ LL', hist_next LL LL' ∧ cinv members c' ms LL'.
Proof.
  intros Hsize Hinv Hinv' Hci Hroom Hs. pose proof (ci_linv Hci) as Hl.
  destruct Hs as [c i n el req n' Hn He Hr Hlt Hb | c i n n' Hn He Hr Hlt Hb
    | c j n req resp n' Hn Hreq Hh Hacc | c i n el req got j resp el' n' Hn He Hj Hjg Hin Hu Hs
    | c i n el req got ev el' n' Hn He Hev Hs | c i n el req got won n' Hn He Hrun Hend].
  - exists LL. split; [by left|]. eapply cinv_begin; try done. eapply linv_begin; [exact Hinv|eassumption..].
  - destruct Hsize. eapply begin_alone_size; [exact Hinv|eassumption..].
  - exists LL. split; [by left|]. eapply cinv_vote; try done. eapply linv_vote; [exact Hinv|eassumption..].
  - exists LL. split; [by left|]. assert (∀ r, EvReply (Ok resp) = EvReply (Ok r) → is_u64 (rvr_Term r)) as Hok
      by (by intros ? [= <-]).
    eapply cinv_election_step; try done. eapply linv_election_step; eassumption.
  - exists LL. split; [by left|]. assert (∀ resp, ev = EvReply (Ok resp) → is_u64 (rvr_Term resp)) as Hok
      by (by destruct Hev as [->|[->|[? ->]]]).
    eapply cinv_election_step; try done. eapply linv_election_step; eassumption.
  - by eapply cinv_end.
Qed.

(** The sender of an answered request takes the answer. *)
Lemma cinv_reply members c ms LL i n ev :
  inv members c → inv members (set_node i (node_exec ev n) c) → cinv members c ms LL →
  c_nodes c !! i = Some n → event_ok ev → keeps LL n (node_exec ev n) →
  (∀ l, node_log LL n l → node_safe members (ack members c ms LL) LL (node_exec ev n) l) →
  cinv members (set_node i (node_exec ev n) c) ms LL.
Proof.
  intros Hinv Hinv' Hci Hn Hok Hk Hns. pose proof (node_exec_safe ev n Hok) as Hsafe.
  eapply (cinv_local members c ms ms LL i n); try done; [|by intros l Hl _; apply Hns|auto].
  eapply linv_keeps; [apply Hci|apply evolves_node; [done|apply tv_step_le, Hsafe]|done|done|auto].
Qed.

Lemma cinv_install_send members c ms LL i n p req n' :
  inv members c → inv members (set_node i n' c) → cinv members c ms LL → c_nodes c !! i = Some n →
  install_prepare (currentTerm (log n)) n = (Some req, n') →
  cinv members (set_node i n' c) (MInstall p req :: ms) LL.
Proof.
  intros Hinv Hinv' Hci Hn Hp.
  destruct (install_prepare_safe _ _ _ _ _ _ _ _ _ Hci Hn eq_refl Hp) as (Hcalm & Hk & Hsn).
  destruct (l_node _ _ _ _ (ci_linv Hci) i n Hn) as (l & Hnl & _).
  destruct (install_prepare_log _ _ _ _ _ _ Hnl Hp) as [Hreg _].
  pose proof (cm_safe _ _ Hcalm) as Hsafe.
  eapply (cinv_local members c ms _ LL i n); try done.
  - by eapply linv_sends; [apply Hci|..].
  - intros l0 _. by apply node_safe_calm.
  - intros m Hm. by apply elem_of_cons; right.
  - intros m. rewrite elem_of_cons. intros [->|Hm]; [right|by left]. by split.
Qed.

Lemma cinv_rstep members rc rc' LL :
  size members ≠ 1%nat → inv members (rc_base rc) → inv members (rc_base rc') →
  Forall msg_u64 (rc_msgs rc) → cinv members (rc_base rc) (rc_msgs rc) LL → rstep careful rc rc' →
  ∃ LL', hist_next LL LL' ∧ cinv members (rc_base rc') (rc_msgs rc') LL'.
Proof.
  intros Hsize Hinv Hinv' Hmu Hci Hs. rewrite Forall_forall in Hmu. pose proof (ci_linv Hci) as Hl.
  destruct Hs as [c c' ms Hs Hroom|rc i n ev Hn Hloc Hok Hroom|c ms i n machine store n' Hn Hfiles _ Hnew
    |rc i n p term req Hn Hpeer Hu Hp _|rc i n p term Hn Hpeer Ht Hsend|rc j n req resp n' Hin Hn Hall Hh
    |rc i n j req resp Hin Hn _ Hur|rc i n p term req n' Hn _ Ht Hp Hsend|rc j n req resp n' Hin Hn Hall Hh
    |rc i n j req resp Hin Hn _ Hur]; simpl in *;
    [eapply (cinv_election _ c); eassumption|eapply cinv_local_event; eassumption|..]; exists LL;
    (split; [by left|]).
  - by eapply cinv_restart.
  - eapply cinv_send; try done; [|by eapply send_request_safe].
    apply linv_cons; [done|]. by eapply linv_send.
  - rewrite Hsend. eapply cinv_send; try done; [|by eapply heartbeat_request_safe].
    apply linv_cons; [done|by left].
  - eapply cinv_append; try done. exact (Hmu _ Hin).
  - apply (cinv_reply _ _ _ _ _ _ (NAppendReply j (ae_Term req) req (Ok resp))); try done.
    + by apply replicate_reply_keeps.
    + intros l Hnl. by eapply replicate_reply_node_safe.
  - assert (term = currentTerm (log n)) as ->
      by (rewrite <-Hsend; by destruct (install_prepare_req _ _ _ _ Hp)).
    by eapply cinv_install_send.
  - eapply cinv_install; try done. exact (Hmu _ Hin).
  - apply (cinv_reply _ _ _ _ _ _ (NInstallReply j (is_Term req) req (Ok resp))); try done.
    + by apply install_reply_keeps.
    + intros l Hnl. by eapply install_reply_node_safe.
Qed.

(** Acknowledgements stay. *)
Lemma ack_rstep d members rc rc' LL LL' j t k :
  hist_next LL LL' → rstep d rc rc' →
  ack members (rc_base rc) (rc_msgs rc) LL j t k → ack members (rc_base rc') (rc_msgs rc') LL' j t k.
Proof.
  intros Hn Hs. destruct (rstep_grows _ _ _ Hs) as [Hms Hv].
  intros [Hk0 [(req & resp & Hin & Hrest)|[(q & Hq & Hsz & Hall) (L & HL & HkL)]]];
    (split; [done|]); [left|right].
  - exists req, resp. auto.
  - split; [exists q; split_and!; auto|].
    destruct (hist_next_grows _ _ Hn _ _ HL) as (L' & HL' & Hp). apply prefix_length in Hp.
    exists L'. split; [done|lia].
Qed.

Lemma rinitial_cinv members rc :
  rinitial members rc → cinv members (rc_base rc) (rc_msgs rc) ∅.
Proof.
  intros Hi. pose proof (rinitial_linv _ _ Hi) as Hl. destruct Hi as [Hb Hm Hlog]. split; try done.
  - intros i n l Hn Hnl. destruct (Hlog i n Hn) as ((t & v & Hr) & Hf & Hc & Ha).
    destruct (init_node _ _ Hb i n Hn) as (_ & Hrole & Hd). pose proof (tv_u64 _ Hd).
    assert (l = []) as ->.
    { pose proof (full_last _ _ (nl_full _ _ _ Hnl)) as Hlast. rewrite (r_last _ _ Hr) in Hlast.
      unfold a_last in Hlast. simpl in Hlast. destruct l; [done|simpl in Hlast; lia]. }
    split; [lia| |left; lia|congruence|congruence].
    intros k. unfold term_of. rewrite lookup_nil. case_Z; u64_lia.
  - intros j t k [_ [(req & resp & Hin & _)|[_ (L & HL & _)]]]; [|done].
    rewrite Hm in Hin. set_solver.
  - rewrite (init_replies _ _ Hb). set_solver.
  - rewrite (init_elections _ _ Hb). set_solver.
  - rewrite Hm. set_solver.
Qed.

Lemma rreachable_cinv members rc :
  size members ≠ 1%nat → rreachable careful members rc →
  ∃ LL, cinv members (rc_base rc) (rc_msgs rc) LL.
Proof.
  intros Hsize. induction 1 as [rc Hi|rc rc' Hr [LL Hci] Hs]; [eauto using rinitial_cinv|].
  destruct (rreachable_inv _ _ _ Hr) as [Hinv Hm]. destruct (rstep_inv _ _ _ _ Hinv Hm Hs) as [Hinv' _].
  destruct (cinv_rstep _ _ _ _ Hsize Hinv Hinv' Hm Hci Hs) as (LL' & _ & ?). eauto.
Qed.

(** What a node of the cluster has committed, with the leaders' logs. *)
Lemma committed_safe members rc LL i n :
  cinv members (rc_base rc) (rc_msgs rc) LL → c_nodes (rc_base rc) !! i = Some n →
  ∃ l, full (log n) l ∧ (role n = Leader → LL !! currentTerm (log n) = Some l) ∧
    safe members (ack members (rc_base rc) (rc_msgs rc) LL) LL (currentTerm (log n)) (commitIndex n) l.
Proof.
  intros Hci Hn. destruct (l_node _ _ _ _ (ci_linv Hci) _ _ Hn) as (l & Hnl & Hlead).
  exists l. split; [apply Hnl|]. split; [done|]. apply (ci_node Hci _ _ _ Hn Hnl).
Qed.

(** Entries below the cut are the same. *)
Lemma cut_lookup k k' l1 l2 :
  cut k l1 = cut k l2 → 0 < k' ≤ k → l1 !! Z.to_nat (k' - 1) = l2 !! Z.to_nat (k' - 1).
Proof.
  intros Hc Hk. unfold cut in Hc.
  rewrite <-(lookup_take_lt l1 (Z.to_nat k)), <-(lookup_take_lt l2 (Z.to_nat k)) by lia. by rewrite Hc.
Qed.

(** C1: State machine safety.  In every reachable state of a cluster with elections,
    replication, snapshots, lost, delayed and repeated messages, failing writes to
    disk and restarts, delivered with the discipline [careful]: two nodes that have
    both committed an index and can both read the entry at it read the same entry. *)
Theorem state_machine_safety members rc i j n m k e f :
  rreachable careful members rc →
  c_nodes (rc_base rc) !! i = Some n → c_nodes (rc_base rc) !! j = Some m →
  is_u64 k → k ≤ commitIndex n → k ≤ commitIndex m →
  Log.Get k (log n) = Ok e → Log.Get k (log m) = Ok f → e = f.
Proof.
  intros Hr Hn Hm Hu Hkn Hkm He Hf.
  destruct (decide (i = j)) as [->|Hij]; [congruence|].
  pose proof (two_members _ _ _ _ _ _ _ Hr Hn Hm Hij) as Hsize.
  destruct (rreachable_cinv _ _ Hsize Hr) as [LL Hci].
  destruct (committed_safe _ _ _ _ _ Hci Hn) as (l & Hl & _ & Hs).
  destruct (committed_safe _ _ _ _ _ Hci Hm) as (l' & Hl' & _ & Hs').
  destruct (full_Get _ _ _ _ Hl Hu He) as [Hpos Hle]. destruct (full_Get _ _ _ _ Hl' Hu Hf) as [_ Hlf].
  assert (cut k l = cut k l') as Hcut.
  { eapply safe_agree; [apply (l_hist _ _ _ _ (ci_linv Hci))|apply (ci_bounded Hci)|apply (ci_wins Hci)
      |exact (safe_le _ _ _ _ _ _ _ _ (Z.le_refl _) Hkn Hs)
      |exact (safe_le _ _ _ _ _ _ _ _ (Z.le_refl _) Hkm Hs')]. }
  rewrite (cut_lookup k k _ _ Hcut) in Hle by lia. congruence.
Qed.

(** C2: Leader completeness.  Under the same conditions: a leader whose term is at
    least the term of a node has, in its log, every entry up to the commit index of
    that node, and where both can be read they are equal. *)
Theorem leader_completeness members rc i j n m k :
  rreachable careful members rc →
  c_nodes (rc_base rc) !! i = Some n → c_nodes (rc_base rc) !! j = Some m → i ≠ j →
  role m = Leader → currentTerm (log n) ≤ currentTerm (log m) →
  0 < k ≤ commitIndex n →
  k ≤ lastIndex (log m) ∧
  ∀ e f, Log.Get k (log n) = Ok e → Log.Get k (log m) = Ok f → e = f.
Proof.
  intros Hr Hn Hm Hij Hlead Ht Hk.
  pose proof (two_members _ _ _ _ _ _ _ Hr Hn Hm Hij) as Hsize.
  destruct (rreachable_cinv _ _ Hsize Hr) as [LL Hci].
  destruct (committed_safe _ _ _ _ _ Hci Hn) as (l & Hl & _ & Hs).
  destruct (committed_safe _ _ _ _ _ Hci Hm) as (L & HL & HLL & _).
  pose proof (safe_length _ _ _ _ _ _ Hs) as Hlen. pose proof (full_length _ _ Hl).
  assert (cut (commitIndex n) l `prefix_of` L) as Hp.
  { eapply safe_leader; [apply (l_hist _ _ _ _ (ci_linv Hci))|apply (ci_bounded Hci)|apply (ci_wins Hci)
      |exact Hs|by apply HLL|done]. }
  apply prefix_cut in Hp as [HlL Hcut]; [|lia]. rewrite (full_last _ _ HL). split; [lia|].
  assert (is_u64 k) as Hu by u64_lia.
  intros e f He Hf. destruct (full_Get _ _ _ _ Hl Hu He) as [_ Hle].
  destruct (full_Get _ _ _ _ HL Hu Hf) as [_ HLf].
  rewrite (cut_lookup (commitIndex n) k _ _ Hcut) in HLf by lia. congruence.
Qed.

End safety.

(** ** Witness: the leader n1 commits its first entry and tells n2 *)

Import Gob Json.

Definition acked1 : AppendEntriesResponse := mkAEResp 1 true 0 0.
Definition n1_acked := replicate_reply "n2" 1 append1 (Ok acked1) n1_leader.
Definition n1_committed := node_exec (NAdvance 1) n1_acked.
Definition heartbeat1 := confirm_request "n2" 1 n1_committed.
Definition n2_committed := (HandleAppendEntries heartbeat1 n2_appended).2.

Definition agreed : rcluster (E := MemEngine) (K := MemEngine) :=
  send_msg (MAppendReply "n2" heartbeat1 acked1) (put_node "n2" n2_committed
    (send_msg (MAppend "n2" heartbeat1) (put_node "n1" n1_committed
      (put_node "n1" n1_acked replicated)))).

Lemma replicated_careful : rreachable careful members3 replicated.
Proof.
  eapply RR_step; [eapply RR_step; [apply elected_rreachable|]|].
  - apply (X_send _ _ "n1" n1_leader "n2" 1 append1);
      [reflexivity | by left | by vm_compute | vm_compute; reflexivity | reflexivity].
  - apply (X_append _ _ "n2" n2_voted append1 acked1 n2_appended);
      [by left | reflexivity | | vm_compute; reflexivity].
    split; [by right|]. split; [by apply mem_accepts_for|]. split; [intros Hlt; by vm_compute in Hlt|].
    by vm_compute.
Qed.

Lemma agreed_careful : rreachable careful members3 agreed.
Proof.
  eapply RR_step; [eapply RR_step; [eapply RR_step; [eapply RR_step; [exact replicated_careful|]|]|]|].
  - apply (X_append_reply _ _ "n1" n1_leader "n2" append1 acked1);
      [by left | reflexivity | reflexivity | by vm_compute].
  - apply (X_local _ _ "n1" n1_acked (NAdvance 1)); [reflexivity | reflexivity | done | small_logs].
  - apply (X_heartbeat _ _ "n1" n1_committed "n2" 1);
      [reflexivity | by left | by vm_compute | reflexivity].
  - apply (X_append _ _ "n2" n2_appended heartbeat1 acked1 n2_committed);
      [by left | reflexivity | | vm_compute; reflexivity].
    split; [by left|]. split; [by apply mem_accepts_for|]. split; [intros Hlt; by vm_compute in Hlt|].
    by vm_compute.
Qed.

Lemma state_machine_safety_witness :
  rreachable careful members3 agreed ∧ commitIndex n1_committed = 1 ∧ commitIndex n2_committed = 1 ∧
  ∃ e f, Log.Get 1 (log n1_committed) = Ok e ∧ Log.Get 1 (log n2_committed) = Ok f ∧ e = f.
Proof.
  split; [exact agreed_careful|]. split; [vm_compute; reflexivity|]. split; [vm_compute; reflexivity|].
  exists (mkEntry 1 1 EntryNoop "" [] ""), (mkEntry 1 1 EntryNoop "" [] "").
  assert (Log.Get 1 (log n1_committed) = Ok (mkEntry 1 1 EntryNoop "" [] "")) as He
    by (vm_compute; reflexivity).
  assert (Log.Get 1 (log n2_committed) = Ok (mkEntry 1 1 EntryNoop "" [] "")) as Hf
    by (vm_compute; reflexivity).
  split; [exact He|]. split; [exact Hf|].
  apply (state_machine_safety members3 agreed "n1" "n2" n1_committed n2_committed 1 _ _ agreed_careful);
    [reflexivity | reflexivity | vm_compute; split; [discriminate | reflexivity]
    | vm_compute; discriminate | vm_compute; discriminate | exact He | exact Hf].
Defined.

Lemma leader_completeness_witness :
  rreachable careful members3 agreed ∧ role n1_committed = Leader ∧ 1 ≤ commitIndex n2_committed ∧
  1 ≤ lastIndex (log n1_committed).
Proof.
  split; [exact agreed_careful|]. split; [vm_compute; reflexivity|]. split; [by vm_compute|].
  apply (leader_completeness members3 agreed "n2" "n1" n2_committed n1_committed 1 agreed_careful);
    [reflexivity | reflexivity | done | vm_compute; reflexivity | by vm_compute | by vm_compute].
Defined.
