(* ===== verification/ApplyTheorems.v ===== *)
(** * Theorems on the apply loop, snapshots and client notification. *)

From S2P Require Import Prelude Bytes Storage Codec Log LogSpec LogTheorems StateMachine.
From S2P Require Import SnapshotStore Node Election Replication Apply Client ElectionTheorems.
From S2P Require Import VoteSafety ReplicationTheorems.
Import KV.

(** ** What the entries of a log mean *)

Definition a_apply (e : Entry) (m : gmap string bytes) : gmap string bytes :=
  if Type_ e =? EntryPut then <[Key e := Value e]> m
  else if Type_ e =? EntryDelete then delete (Key e) m
  else m.

(** The effect of the entries at the given indices, in order. *)
Fixpoint a_apply_at (al : alog) (idxs : list Z) (m : gmap string bytes) : gmap string bytes :=
  match idxs with
  | [] => m
  | i :: idxs =>
      a_apply_at al idxs (match entry_at al i with Some e => a_apply e m | None => m end)
  end.

Definition a_apply_range (al : alog) (from to : Z) (m : gmap string bytes) : gmap string bytes :=
  a_apply_at al (upto (from + 1) to) m.

Lemma a_apply_at_ext al al' idxs m :
  (∀ i, i ∈ idxs → entry_at al' i = entry_at al i) → a_apply_at al' idxs m = a_apply_at al idxs m.
Proof.
  revert m. induction idxs as [|i idxs IH]; intros m Hall; [done|]. simpl.
  rewrite Hall by set_solver. apply IH. set_solver.
Qed.

(** One more entry. *)
Lemma a_apply_range_snoc al from to e m :
  from < to → entry_at al to = Some e →
  a_apply_range al from to m = a_apply e (a_apply_range al from (to - 1) m).
Proof.
  intros Hlt He. unfold a_apply_range. rewrite upto_snoc by lia.
  generalize (upto (from + 1) (to - 1)). intros idxs. revert m.
  induction idxs as [|i idxs IH]; intros m; simpl; [by rewrite He|apply IH].
Qed.

Lemma a_term_at_u64 al i t :
  alog_wf al → Forall (λ e, is_u64 (Term e)) (a_entries al) → a_term_at al i = Some t → is_u64 t.
Proof.
  intros Hwf Hts Ht. unfold a_term_at in Ht. case_Z; [injection Ht as <-; apply Hwf|].
  apply fmap_Some in Ht as (e & He & ->). unfold entry_at in He. case_Z; [done|].
  rewrite Forall_lookup in Hts. by eapply Hts.
Qed.

Section apply_theorems.
Context {E K : Type} `{EngineSpec E} `{EngineSpec K} `{CodecSpec Entry}
  `{Codec (gmap string bytes)} `{Codec SnapshotMeta}.
Implicit Types (n : Node E K) (s : StateMachine K).

Lemma apply_entry_rep e s m err s' :
  kv_rep s m → apply_entry e s = (err, s') → kv_rep s' (after err m (a_apply e m)).
Proof.
  intros Hk Ha. unfold apply_entry, a_apply in *.
  destruct (Type_ e =? EntryPut); [by apply (ApplyPut_rep s m) in Ha as (? & _)|].
  destruct (Type_ e =? EntryDelete); [by apply (ApplyDelete_rep s m) in Ha as (? & _)|].
  destruct (Type_ e =? EntryNoop); injection Ha as <- <-; [by apply ApplyNoop_rep | done].
Qed.

Lemma apply_entry_writes k e s :
  writes_for (S k) (sm_engine s) →
  (apply_entry e s).1 = None ∧ writes_for k (sm_engine (apply_entry e s).2).
Proof.
  intros Hw. pose proof (writes_for_S _ _ Hw). destruct Hw as [Hset Hdel].
  unfold apply_entry, ApplyPut, ApplyDelete, ApplyNoop.
  destruct (Type_ e =? EntryPut).
  { destruct (Hset (dataKey (Key e)) (Value e) {| Sync := false |}) as [Hn Hk].
    destruct (eng_Set _ _ _ _) as [[] e']; [done|]. by split. }
  destruct (Type_ e =? EntryDelete).
  { destruct (Hdel (dataKey (Key e)) {| Sync := false |}) as [Hn Hk].
    destruct (eng_Delete _ _ _) as [[] e']; [done|]. by split. }
  by destruct (Type_ e =? EntryNoop).
Qed.

(** A snapshot keeps the entries above its index and the rest of the node. *)
Lemma maybeSnapshot_rep i n al :
  log_rep (log n) al → a_base al ≤ i ≤ a_last al → is_u64 i →
  Forall (λ e, is_u64 (Term e)) (a_entries al) →
  ∃ al', log_rep (log (maybeSnapshot i n)) al' ∧ a_base al ≤ a_base al' ≤ i ∧
    a_last al' = a_last al ∧ (∀ j, i < j → entry_at al' j = entry_at al j) ∧
    Forall (λ e, is_u64 (Term e)) (a_entries al') ∧
    sm (maybeSnapshot i n) = sm n ∧ lastApplied (maybeSnapshot i n) = lastApplied n ∧
    commitIndex (maybeSnapshot i n) = commitIndex n ∧ opts (maybeSnapshot i n) = opts n.
Proof.
  intros Hr Hi Hu Hts.
  assert (∀ m : Node E K, log m = log n → sm m = sm n → lastApplied m = lastApplied n →
    commitIndex m = commitIndex n → opts m = opts n →
    ∃ al', log_rep (log m) al' ∧ a_base al ≤ a_base al' ≤ i ∧
    a_last al' = a_last al ∧ (∀ j, i < j → entry_at al' j = entry_at al j) ∧
    Forall (λ e, is_u64 (Term e)) (a_entries al') ∧
    sm m = sm n ∧ lastApplied m = lastApplied n ∧
    commitIndex m = commitIndex n ∧ opts m = opts n) as Hsame.
  { intros m Hl Hs Hla Hci Ho. exists al. rewrite Hl. split_and!; (done || lia). }
  unfold maybeSnapshot. destruct (LoadLatest _) as [loaded store].
  destruct (covered loaded i); [by apply Hsame|]. simpl.
  rewrite (TermAt_rep _ _ _ Hr Hu).
  destruct (a_term_at al i) as [t|] eqn:Ht; [|by apply Hsame].
  destruct (Dump (sm n)); [|by apply Hsame].
  destruct (Save _ _ _) as [[] store']; [by apply Hsame|].
  pose proof (a_term_at_u64 _ _ _ (r_wf _ _ Hr) Hts Ht) as Htu.
  pose proof (wf_last _ (r_wf _ _ Hr)).
  destruct (CompactPrefix i t (log n)) as [err pl] eqn:Hc.
  pose proof (CompactPrefix_rep (log n) al i t err pl Hr ltac:(lia) Htu Hc) as Hr'.
  cbn [after] in Hr'. exists (after err al (a_compact i t al)).
  cbn [log with_log snd]. destruct err; simpl; [split_and!; (done || lia)|].
  split; [done|]. unfold a_compact. destruct (Z.leb_spec i (a_base al)) as [|Hgt].
  { split_and!; (done || lia). }
  split_and!; try done; simpl; try lia.
  - unfold a_last in *. simpl. rewrite length_drop. lia.
  - intros j Hj. pose proof (entry_at_compact i t al j Hgt) as Hec. unfold a_compact in Hec.
    destruct (Z.leb_spec i (a_base al)); [lia|]. rewrite Hec. by case_Z; [lia|].
  - by apply Forall_drop.
Qed.

(** The log after the entries up to [i] were applied. *)
Record log_above (i : Z) (al al' : alog) : Prop := {
  la_base : a_base al' ≤ i;
  la_last : a_last al' = a_last al;
  la_entries : ∀ j, i < j → entry_at al' j = entry_at al j;
  la_terms : Forall (λ e, is_u64 (Term e)) (a_entries al')
}.

Lemma notify_fields i n :
  let n' := satisfyPendingReadsLocked (notifyWritersLocked i (with_lastApplied i n)) in
  log n' = log n ∧ sm n' = sm n ∧ lastApplied n' = i ∧ commitIndex n' = commitIndex n ∧
  opts n' = opts n.
Proof. cbn zeta. unfold notifyWritersLocked. simpl. by destruct (writeWaiters n !! i). Qed.

Lemma apply_one_rep i n al m :
  log_rep (log n) al → kv_rep (sm n) m → a_base al < i ≤ a_last al →
  Forall (λ e, is_u64 (Term e)) (a_entries al) →
  let '(go_on, n') := apply_one i n in
  ∃ al', log_rep (log n') al' ∧ log_above (if go_on then i else i - 1) al al' ∧
    commitIndex n' = commitIndex n ∧ opts n' = opts n ∧
    lastApplied n' = (if go_on then i else lastApplied n) ∧
    kv_rep (sm n') (if go_on then a_apply_at al [i] m else m) ∧
    ∀ k, writes_for (S k) (sm_engine (sm n)) → go_on = true ∧ writes_for k (sm_engine (sm n')).
Proof.
  intros Hr Hk Hi Hts. pose proof (wf_base _ (r_wf _ _ Hr)). pose proof (wf_last _ (r_wf _ _ Hr)).
  unfold apply_one. rewrite (Get_rep _ _ _ Hr) by u64_lia.
  destruct (entry_at_is_Some al i) as [_ [e He]]; [lia|]. rewrite He. simpl a_apply_at. rewrite He.
  destruct (apply_entry e (sm n)) as [err machine] eqn:Ha.
  pose proof (apply_entry_rep _ _ _ _ _ Hk Ha) as Hk'.
  pose proof (λ k, apply_entry_writes k e (sm n)) as Hw. rewrite Ha in Hw. simpl in Hw.
  destruct err as [err|].
  { exists al. split_and!; try done; [split; (done || lia)|]. intros k Hk0. by destruct (Hw k Hk0). }
  destruct (notify_fields i (with_sm machine n)) as (Hl & Hs & Hla & Hci & Ho).
  cbn zeta in *. set (n1 := satisfyPendingReadsLocked _) in *. clearbody n1. simpl in Hl, Hs, Hci, Ho.
  destruct (_ && _).
  - rewrite <-Hl in Hr. destruct (maybeSnapshot_rep i n1 al Hr ltac:(lia) ltac:(u64_lia) Hts)
      as (al' & Hr' & Hb & Hlast & Hent & Hts' & -> & -> & -> & ->).
    exists al'. rewrite Hs. split_and!; try done; [split; (done || lia)|].
    intros k Hk0. by destruct (Hw k Hk0).
  - exists al. rewrite Hl, Hs. split_and!; try done; [split; (done || lia)|].
    intros k Hk0. by destruct (Hw k Hk0).
Qed.

Lemma apply_loop_rep fuel a commit n al m :
  log_rep (log n) al → kv_rep (sm n) m → a_base al ≤ a ≤ commit → commit ≤ a_last al →
  Forall (λ e, is_u64 (Term e)) (a_entries al) → commit - a ≤ Z.of_nat fuel → lastApplied n = a →
  let n' := apply_loop fuel a commit n in
  ∃ k al', a ≤ k ≤ commit ∧ lastApplied n' = k ∧ commitIndex n' = commitIndex n ∧
    kv_rep (sm n') (a_apply_range al a k m) ∧ log_rep (log n') al' ∧ a_last al' = a_last al ∧
    (∀ j, k < j → entry_at al' j = entry_at al j) ∧
    (writes_for (Z.to_nat (commit - a)) (sm_engine (sm n)) → k = commit).
Proof.
  revert a n al m. induction fuel as [|fuel IH]; intros a n al m Hr Hk Ha Hc Hts Hf Hla; cbn zeta.
  { exists a, al. unfold a_apply_range. rewrite upto_nil by lia. split_and!; (done || lia). }
  pose proof (wf_base _ (r_wf _ _ Hr)). pose proof (wf_last _ (r_wf _ _ Hr)). simpl.
  destruct (Z.ltb_spec a commit) as [Hlt|Hge].
  2:{ exists a, al. unfold a_apply_range. rewrite upto_nil by lia. split_and!; (done || lia). }
  rewrite u64_small by u64_lia.
  pose proof (apply_one_rep (a + 1) n al m Hr Hk ltac:(lia) Hts) as Hone.
  destruct (apply_one (a + 1) n) as [go_on n1].
  destruct Hone as (al1 & Hr1 & [Hb1 Hl1 He1 Ht1] & Hci1 & _ & Hla1 & Hk1 & Hw1).
  replace (Z.to_nat (commit - a)) with (S (Z.to_nat (commit - (a + 1)))) by lia.
  destruct go_on.
  2:{ exists a, al1. unfold a_apply_range. rewrite upto_nil by lia. split_and!; try (done || lia || congruence).
      - intros j Hj. apply He1. lia.
      - intros Hw. by destruct (Hw1 _ Hw). }
  destruct (IH (a + 1) n1 al1 _ Hr1 Hk1) as (k & al' & Hkr & Hlk & Hck & Hkv & Hrk & Hlast & Hent & Hprog);
    try done; try lia.
  exists k, al'. split_and!; try (done || lia || congruence).
  - unfold a_apply_range in *. rewrite upto_cons by lia. simpl in *.
    rewrite (a_apply_at_ext al al1) in Hkv; [done|].
    intros j Hj. apply He1. apply elem_of_upto in Hj. lia.
  - intros j Hj. rewrite Hent by lia. apply He1. lia.
  - intros Hw. apply Hprog. by destruct (Hw1 _ Hw).
Qed.

(** C15: The apply loop.  From a state machine that holds [m], [applyCommitted]
    stops at some index [k] up to the commit index, with [lastApplied] at [k] and
    the state machine at the effect of exactly the entries after the old
    [lastApplied] up to [k], in index order; it reaches the commit index when
    the state machine's storage accepts the writes.  Snapshots and compaction on
    the way, with any outcome, do not change this. *)
Theorem applyCommitted_spec n al m :
  log_rep (log n) al → kv_rep (sm n) m → a_base al ≤ lastApplied n ≤ commitIndex n →
  commitIndex n ≤ a_last al → Forall (λ e, is_u64 (Term e)) (a_entries al) →
  let n' := applyCommitted n in
  ∃ k, lastApplied n ≤ k ≤ commitIndex n ∧ lastApplied n' = k ∧
    kv_rep (sm n') (a_apply_range al (lastApplied n) k m) ∧ commitIndex n' = commitIndex n ∧
    (writes_for (Z.to_nat (commitIndex n - lastApplied n)) (sm_engine (sm n)) → k = commitIndex n).
Proof.
  intros Hr Hk Ha Hc Hts. cbn zeta. unfold applyCommitted.
  destruct (apply_loop_rep (Z.to_nat (commitIndex n - lastApplied n)) (lastApplied n)
    (commitIndex n) n al m) as (k & al' & ? & ? & ? & ? & _ & _ & _ & Hw); try done; [lia|].
  exists k. split_and!; (done || lia).
Qed.

(** Replicas agree.  Two nodes whose logs agree up to a commit index, that
    have applied the same entries to the same map so far, hold the same map
    after their apply loops have run. *)
Theorem replicas_agree n1 al1 n2 al2 m :
  log_rep (log n1) al1 → log_rep (log n2) al2 → kv_rep (sm n1) m → kv_rep (sm n2) m →
  lastApplied n1 = lastApplied n2 → commitIndex n1 = commitIndex n2 →
  a_base al1 ≤ lastApplied n1 ≤ commitIndex n1 → a_base al2 ≤ lastApplied n2 →
  commitIndex n1 ≤ a_last al1 → commitIndex n2 ≤ a_last al2 →
  Forall (λ e, is_u64 (Term e)) (a_entries al1) → Forall (λ e, is_u64 (Term e)) (a_entries al2) →
  agree (commitIndex n1) al1 al2 →
  writes_for (Z.to_nat (commitIndex n1 - lastApplied n1)) (sm_engine (sm n1)) →
  writes_for (Z.to_nat (commitIndex n2 - lastApplied n2)) (sm_engine (sm n2)) →
  ∃ m', kv_rep (sm (applyCommitted n1)) m' ∧ kv_rep (sm (applyCommitted n2)) m' ∧
    lastApplied (applyCommitted n1) = lastApplied (applyCommitted n2).
Proof.
  intros Hr1 Hr2 Hk1 Hk2 Hla Hci Ha1 Ha2 Hc1 Hc2 Ht1 Ht2 Hag Hw1 Hw2. unfold applyCommitted.
  destruct (apply_loop_rep (Z.to_nat (commitIndex n1 - lastApplied n1)) (lastApplied n1)
    (commitIndex n1) n1 al1 m) as (k1 & ? & _ & Hl1 & _ & Hkv1 & _ & _ & _ & Hp1); try done; [lia|].
  destruct (apply_loop_rep (Z.to_nat (commitIndex n2 - lastApplied n2)) (lastApplied n2)
    (commitIndex n2) n2 al2 m) as (k2 & ? & _ & Hl2 & _ & Hkv2 & _ & _ & _ & Hp2); try done; try lia.
  rewrite Hp1 in * by done. rewrite Hp2 in * by done. eexists. split_and!; [exact Hkv1| |congruence].
  unfold a_apply_range in *. rewrite (a_apply_at_ext al1 al2) in Hkv2; [by rewrite Hla, Hci|].
  intros i Hi%elem_of_upto. apply Hag; lia.
Qed.

End apply_theorems.

(** ** Installing a snapshot *)

Section install_theorems.
Context {E K : Type} `{EngineSpec E} `{EngineSpec K} `{CodecSpec Entry}
  `{CodecSpec (gmap string bytes)} `{CodecSpec SnapshotMeta}.
Implicit Types (n : Node E K).

Lemma install_prepare_rep term n snap meta :
  store_rep (snapStore n) snap meta → script (snapStore n) = [] → is_ok (Marshal snap) = true →
  ∃ data, install_prepare term n =
      (Some (mkISReq term (n_id n) (LastIncludedIndex meta) (LastIncludedTerm meta) data),
       with_snapStore (snapStore n) n) ∧ UnmarshalSnapshot data = Ok snap.
Proof.
  intros Hst Hq Hm. unfold install_prepare. rewrite (LoadLatest_rep _ _ _ Hq Hst).
  destruct (Marshal snap) as [data|] eqn:Hd; [|done]. exists data. split; [done|].
  by apply Unmarshal_Marshal.
Qed.

Lemma Restore_accepted snap index (s : StateMachine K) :
  readable (sm_engine s) → accepts_for 1 (sm_engine s) → (Restore snap index s).1 = None.
Proof.
  intros Hr Hacc. unfold Restore. destruct (data_range (sm_engine s) Hr) as (it & -> & _).
  match goal with |- context [eng_Commit ?b ?o ?e] => pose proof (proj1 (Hacc b o)) as Hn end.
  destruct (eng_Commit _ _ _) as [[] e]; done.
Qed.

(** The state after everything that follows the duplicate check. *)
Lemma install_snapshot_rep req n al m snap :
  log_rep (log n) al → kv_rep (sm n) m → script (snapStore n) = [] →
  UnmarshalSnapshot (is_Data req) = Ok snap → is_ok (Marshal snap) = true →
  is_ok (encode (mkMeta (is_LastIncludedIndex req) (is_LastIncludedTerm req))) = true →
  0 ≤ is_LastIncludedIndex req < u64_mod - 1 → is_u64 (is_LastIncludedTerm req) →
  accepts_for 1 (engine (log n)) → accepts_for 1 (sm_engine (sm n)) →
  let n' := install_snapshot req n in
  log_rep (log n') (a_restore (is_LastIncludedIndex req) (is_LastIncludedTerm req) al) ∧
  kv_rep (sm n') (Pairs snap) ∧
  store_rep (snapStore n') snap (mkMeta (is_LastIncludedIndex req) (is_LastIncludedTerm req)) ∧
  lastApplied n' = is_LastIncludedIndex req ∧ commitIndex n' = is_LastIncludedIndex req.
Proof.
  intros Hr Hk Hq Hun Hm He Hi Ht Hacc Hacck. cbn zeta. unfold install_snapshot. rewrite Hun.
  destruct (Save_quiet snap (mkMeta (is_LastIncludedIndex req) (is_LastIncludedTerm req))
    (snapStore n) Hq Hm He) as (store & Hs & _).
  rewrite Hs. apply Save_files in Hs. simpl.
  pose proof (Restore_accepted snap (is_LastIncludedIndex req) (sm n) (kv_readable _ _ Hk) Hacck) as Hn.
  destruct (Restore snap _ (sm n)) as [err machine] eqn:Hre. simpl in Hn. subst err.
  apply Restore_rep in Hre as (Hkm & _); [|apply Hk]. specialize (Hkm m Hk). simpl.
  pose proof (RestoreSnapshotBoundary_accepted (is_LastIncludedIndex req) (is_LastIncludedTerm req)
    (log n) Hacc) as Hn.
  destruct (RestoreSnapshotBoundary _ _ _) as [err pl] eqn:Hb. simpl in Hn. subst err.
  pose proof (RestoreSnapshotBoundary_rep (log n) al _ _ None pl Hr Hi Ht Hb) as Hr'.
  by split_and!.
Qed.

(** The handler, when it does not stop at the duplicate check. *)
Lemma HandleInstallSnapshot_rep req n al m snap :
  log_rep (log n) al → kv_rep (sm n) m → script (snapStore n) = [] →
  covered (LoadLatest (snapStore n)).1 (is_LastIncludedIndex req) = false →
  UnmarshalSnapshot (is_Data req) = Ok snap → is_ok (Marshal snap) = true →
  is_ok (encode (mkMeta (is_LastIncludedIndex req) (is_LastIncludedTerm req))) = true →
  0 ≤ is_LastIncludedIndex req < u64_mod - 1 → is_u64 (is_LastIncludedTerm req) →
  is_u64 (is_Term req) → a_term al ≤ is_Term req →
  accepts_for 2 (engine (log n)) → accepts_for 1 (sm_engine (sm n)) →
  let '(resp, n') := HandleInstallSnapshot req n in
  isr_Term resp = is_Term req ∧ role n' = Follower ∧
  (∃ al', log_rep (log n') al' ∧ a_base al' = is_LastIncludedIndex req ∧
    a_base_term al' = is_LastIncludedTerm req ∧ a_entries al' = []) ∧
  kv_rep (sm n') (Pairs snap) ∧
  store_rep (snapStore n') snap (mkMeta (is_LastIncludedIndex req) (is_LastIncludedTerm req)) ∧
  lastApplied n' = is_LastIncludedIndex req ∧ commitIndex n' = is_LastIncludedIndex req.
Proof.
  intros Hr Hk Hq Hcov Hun Hm He Hi Ht Hu Hle Hacc Hacck. unfold HandleInstallSnapshot.
  rewrite (r_term _ _ Hr). destruct (Z.ltb_spec (is_Term req) (a_term al)); [lia|].
  set (r0 := if a_term al <? is_Term req then _ else _).
  assert (r0.1 = is_Term req ∧ (∃ al0, log_rep (log r0.2) al0) ∧ accepts_for 1 (engine (log r0.2)) ∧
    sm r0.2 = sm n ∧ snapStore r0.2 = snapStore n) as (Hcur & (al0 & Hr0) & Hacc0 & Hsm & Hst).
  { unfold r0. case_Z; cbn [fst snd].
    - destruct (SetTermAndVote_accepted_rep 1 (is_Term req) "" _ _ Hr Hu Hacc). split_and!; eauto.
    - apply accepts_for_S in Hacc. split_and!; eauto. lia. }
  clearbody r0. destruct r0 as [cur n0]. simpl in *. subst cur. rewrite Hst.
  pose proof (LoadLatest_quiet (snapStore n) Hq) as Hll.
  destruct (LoadLatest (snapStore n)) as [loaded store]. simpl in *. subst store. rewrite Hcov.
  set (n1 := with_snapStore _ _).
  assert (role (install_snapshot req n1) = Follower) as Hrole.
  { unfold install_snapshot. by repeat case_match. }
  destruct (install_snapshot_rep req n1 al0 m snap) as (Hrl & Hkl & Hsl & Hla & Hci);
    simpl; rewrite ?Hsm; try done.
  split_and!; try done. by eexists.
Qed.

(** C20: Snapshot transfer between nodes.  A leader whose snapshot store holds a
    snapshot sends it; a follower without a snapshot at or past that index ends
    with the same map in its state machine, the same snapshot in its own store,
    an empty log that starts at the snapshot's boundary, and both indices at it;
    the leader then continues the follower right after the snapshot. *)
Theorem snapshot_install_round n peer term snap meta (f : Node E K) al m :
  store_rep (snapStore n) snap meta → script (snapStore n) = [] → is_ok (Marshal snap) = true →
  is_ok (encode meta) = true →
  0 ≤ LastIncludedIndex meta < u64_mod - 1 → is_u64 (LastIncludedTerm meta) → is_u64 term →
  leads term n = true →
  log_rep (log f) al → kv_rep (sm f) m → script (snapStore f) = [] →
  covered (LoadLatest (snapStore f)).1 (LastIncludedIndex meta) = false →
  a_term al ≤ term → accepts_for 2 (engine (log f)) → accepts_for 1 (sm_engine (sm f)) →
  ∃ req n1, install_prepare term n = (Some req, n1) ∧
  let '(resp, f') := HandleInstallSnapshot req f in
  let n' := install_reply peer term req (Ok resp) n1 in
  kv_rep (sm f') (Pairs snap) ∧ store_rep (snapStore f') snap meta ∧
  (∃ al', log_rep (log f') al' ∧ a_base al' = LastIncludedIndex meta ∧
    a_base_term al' = LastIncludedTerm meta ∧ a_entries al' = []) ∧
  lastApplied f' = LastIncludedIndex meta ∧ commitIndex f' = LastIncludedIndex meta ∧
  match_of peer n' = LastIncludedIndex meta ∧ next_of peer n' = LastIncludedIndex meta + 1.
Proof.
  intros Hst Hq Hm He Hi Ht Hu Hlead Hr Hk Hqf Hcov Hle Hacc Hacck.
  destruct (install_prepare_rep term n snap meta Hst Hq Hm) as (data & Hp & Hun).
  eexists _, _. split; [exact Hp|]. set (req := mkISReq _ _ _ _ _).
  assert (mkMeta (is_LastIncludedIndex req) (is_LastIncludedTerm req) = meta) as Hmeta
    by (by destruct meta).
  pose proof (HandleInstallSnapshot_rep req f al m snap Hr Hk Hqf Hcov Hun Hm) as Hh.
  rewrite Hmeta in Hh. specialize (Hh He Hi Ht Hu Hle Hacc Hacck).
  destruct (HandleInstallSnapshot req f) as [resp f'].
  destruct Hh as (Hrt & _ & Hlog & Hkv & Hsto & Hla & Hci).
  unfold install_reply. rewrite Hrt. simpl is_Term. rewrite Z.ltb_irrefl.
  assert (leads term (with_snapStore (snapStore n) n) = true) as -> by done.
  unfold match_of, next_of. simpl. rewrite !lookup_insert_eq. simpl.
  rewrite u64_small by u64_lia. by split_and!.
Qed.

(** C39: The duplicate check of [HandleInstallSnapshot] looks only at the local
    snapshot.  A node that has committed and applied past the received index,
    but has no snapshot of its own there, installs it all the same: its commit
    index and [lastApplied] move backwards, and the committed entries after the
    index are gone from its log. *)
Theorem HandleInstallSnapshot_rolls_back req n al m snap :
  log_rep (log n) al → kv_rep (sm n) m → script (snapStore n) = [] →
  covered (LoadLatest (snapStore n)).1 (is_LastIncludedIndex req) = false →
  UnmarshalSnapshot (is_Data req) = Ok snap → is_ok (Marshal snap) = true →
  is_ok (encode (mkMeta (is_LastIncludedIndex req) (is_LastIncludedTerm req))) = true →
  0 ≤ is_LastIncludedIndex req < u64_mod - 1 → is_u64 (is_LastIncludedTerm req) →
  is_u64 (is_Term req) → a_term al ≤ is_Term req →
  accepts_for 2 (engine (log n)) → accepts_for 1 (sm_engine (sm n)) →
  is_LastIncludedIndex req < commitIndex n ≤ a_last al → commitIndex n = lastApplied n →
  let '(_, n') := HandleInstallSnapshot req n in
  commitIndex n' < commitIndex n ∧ lastApplied n' < lastApplied n ∧
  Log.Get (commitIndex n) (log n') = Err ErrNotFound.
Proof.
  intros Hr Hk Hq Hcov Hun Hm He Hi Ht Hu Hle Hacc Hacck Hc Hla.
  pose proof (HandleInstallSnapshot_rep req n al m snap Hr Hk Hq Hcov Hun Hm He Hi Ht Hu Hle Hacc Hacck) as Hh.
  destruct (HandleInstallSnapshot req n) as [resp n'].
  destruct Hh as (_ & _ & (al' & Hr' & Hb & _ & Hent) & _ & _ & -> & ->).
  pose proof (wf_last _ (r_wf _ _ Hr)). split_and!; [lia..|].
  rewrite (Get_rep _ _ _ Hr') by u64_lia. rewrite entry_at_None.
  - rewrite Hb. by case_Z; [lia|].
  - right. unfold a_last. rewrite Hb, Hent. simpl. lia.
Qed.

(** A failed installation is acknowledged.  The response carries no outcome:
    when the follower cannot store the snapshot, its log, data and indices stay as
    they were, and the leader all the same records it as holding every entry up to
    the snapshot's index. *)
Theorem failed_install_acknowledged req peer (leader follower : Node E K) snap err :
  role leader = Leader → currentTerm (log leader) = is_Term req →
  currentTerm (log follower) = is_Term req →
  covered (LoadLatest (snapStore follower)).1 (is_LastIncludedIndex req) = false →
  UnmarshalSnapshot (is_Data req) = Ok snap →
  (Save snap (mkMeta (is_LastIncludedIndex req) (is_LastIncludedTerm req))
     (LoadLatest (snapStore follower)).2).1 = Some err →
  let '(resp, f') := HandleInstallSnapshot req follower in
  log f' = log follower ∧ sm f' = sm follower ∧
  commitIndex f' = commitIndex follower ∧ lastApplied f' = lastApplied follower ∧
  match_of peer (install_reply peer (is_Term req) req (Ok resp) leader) = is_LastIncludedIndex req.
Proof.
  intros Hrole Htl Htf Hcov Hun Hsave. unfold HandleInstallSnapshot. rewrite Htf, Z.ltb_irrefl.
  change (snapStore (resetElectionTimer _)) with (snapStore follower).
  destruct (LoadLatest (snapStore follower)) as [loaded store]. simpl in Hcov, Hsave. rewrite Hcov.
  unfold install_snapshot. rewrite Hun.
  change (snapStore (with_snapStore store _)) with store.
  destruct (Save _ _ store) as [e store']. simpl in Hsave. subst e. split_and!; try done.
  unfold install_reply, leads. simpl. rewrite Z.ltb_irrefl, Hrole, Htl, Z.eqb_refl. simpl.
  unfold match_of. simpl. by rewrite lookup_insert_eq.
Qed.

(** C19: Restart.  A node created over the storage of a log and a snapshot store
    has that log with its term and vote, the snapshot's map in its state machine
    whatever was there before, both indices at the snapshot's boundary (zero
    without a snapshot), and starts as a follower. *)
Theorem NewNode_recovers nid ps o (e : E) al (machine : StateMachine K) m store snap meta addr :
  readable e → alog_wf al → disk_rep (contents e) al → kv_rep machine m →
  accepts_for 1 (sm_engine machine) → script store = [] → store_rep store snap meta →
  (∃ n, NewNode nid ps o e machine store addr = Ok n ∧ log_rep (log n) al ∧
    kv_rep (sm n) (Pairs snap) ∧ lastApplied n = LastIncludedIndex meta ∧
    commitIndex n = LastIncludedIndex meta ∧ role n = Follower) ∧
  (∃ n, NewNode nid ps o e machine (mkFS ∅ []) addr = Ok n ∧ log_rep (log n) al ∧
    kv_rep (sm n) m ∧ lastApplied n = 0 ∧ commitIndex n = 0 ∧ role n = Follower).
Proof.
  intros Hr Hwf Hd Hk Hacc Hq Hst. unfold NewNode.
  destruct (log_rep_open e al Hr Hwf Hd) as (pl & -> & Hpl & _). split.
  - rewrite (LoadLatest_rep _ _ _ Hq Hst).
    pose proof (Restore_accepted snap (LastIncludedIndex meta) machine (kv_readable _ _ Hk) Hacc) as Hn.
    destruct (Restore snap _ machine) as [err machine'] eqn:Hre. simpl in Hn. subst err.
    apply Restore_rep in Hre as (Hkm & _); [|apply Hk]. specialize (Hkm m Hk).
    eexists. by split_and!.
  - eexists. by split_and!.
Qed.

End install_theorems.

(** ** Witnesses *)

Import Gob Json.

Definition committed_node : Node MemEngine MemEngine := with_commitIndex 3 leader_node.

(** A second replica with the same entries, in a later term. *)
Definition replica_node : Node MemEngine MemEngine :=
  node_with "n2" ["n1"; "n3"] (entries_of (in_term 3 "") demo_entries) Follower 3 ∅ ∅.

Lemma replica_node_rep : log_rep (log replica_node) (mkALog 0 0 demo_entries 3 "").
Proof. apply entries_of_rep; [by vm_compute | reflexivity | simpl; lia | vm_compute; reflexivity]. Qed.

Lemma demo_terms : Forall (λ e, is_u64 (Term e)) demo_entries.
Proof. repeat constructor; vm_compute; discriminate. Qed.

Lemma applyCommitted_spec_witness :
  lastApplied (applyCommitted committed_node) = 3 ∧
  kv_rep (sm (applyCommitted committed_node)) (a_apply_range leader_alog 0 3 ∅) ∧
  a_apply_range leader_alog 0 3 ∅ !! "b" = Some (bytes_of "2").
Proof.
  destruct (applyCommitted_spec committed_node leader_alog ∅) as (k & _ & Hl & Hk & _ & Hw);
    [exact leader_node_rep | exact empty_store_rep | vm_compute; split; discriminate
    | vm_compute; discriminate | exact demo_terms |].
  assert (k = 3) as -> by (apply Hw, mem_writes_for; reflexivity).
  split; [exact Hl|]. split; [exact Hk|]. vm_compute. reflexivity.
Defined.

Lemma replicas_agree_witness :
  ∃ m', kv_rep (sm (applyCommitted committed_node)) m' ∧ kv_rep (sm (applyCommitted replica_node)) m'.
Proof.
  destruct (replicas_agree committed_node leader_alog replica_node (mkALog 0 0 demo_entries 3 "") ∅)
    as (m' & Hm1 & Hm2 & _);
    [exact leader_node_rep | exact replica_node_rep | exact empty_store_rep | exact empty_store_rep
    | reflexivity | reflexivity | vm_compute; split; discriminate | vm_compute; discriminate
    | vm_compute; discriminate | vm_compute; discriminate | exact demo_terms | exact demo_terms
    | intros i _ _ _; reflexivity | apply mem_writes_for; reflexivity
    | apply mem_writes_for; reflexivity |].
  exists m'. split; [exact Hm1 | exact Hm2].
Defined.

Definition snapshot_leader : Node MemEngine MemEngine := with_snapStore (demo_fs []) leader_node.

Lemma snapshot_install_round_witness :
  ∃ req m1, install_prepare 2 snapshot_leader = (Some req, m1) ∧
  let '(resp, f') := HandleInstallSnapshot req follower_node in
  kv_rep (sm f') (Pairs (demo_snap "1")) ∧ commitIndex f' = 4 ∧
  match_of "n2" (install_reply "n2" 2 req (Ok resp) m1) = 4.
Proof.
  destruct (snapshot_install_round snapshot_leader "n2" 2 (demo_snap "1") (mkMeta 4 2)
    follower_node follower_alog ∅) as (req & m1 & Hp & Hh);
    [apply demo_fs_rep | reflexivity | vm_compute; reflexivity | vm_compute; reflexivity
    | vm_compute; split; [discriminate | reflexivity] | by vm_compute | by vm_compute
    | vm_compute; reflexivity | exact follower_node_rep | exact empty_store_rep | reflexivity
    | vm_compute; reflexivity | vm_compute; discriminate
    | apply mem_accepts_for; vm_compute; reflexivity | apply mem_accepts_for; reflexivity |].
  exists req, m1. split; [exact Hp|].
  destruct (HandleInstallSnapshot req follower_node) as [resp f'].
  destruct Hh as (Hk & _ & _ & _ & Hc & Hm & _). split; [exact Hk|]. split; [exact Hc | exact Hm].
Defined.

(** The data that the leader of the previous example sends. *)
Definition demo_data : bytes :=
  match Marshal (demo_snap "1") with Ok b => b | Err _ => [] end.

(** A follower whose disk is full. *)
Definition full_disk_node : Node MemEngine MemEngine :=
  with_snapStore (mkFS ∅ [SnapshotStore.Done; Fails 0])
    (node_with "n2" ["n1"; "n3"] (entries_of (in_term 2 "") follower_entries) Follower 0 ∅ ∅).

Lemma failed_install_acknowledged_witness :
  let '(resp, f') := HandleInstallSnapshot (mkISReq 2 "n1" 4 2 demo_data) full_disk_node in
  commitIndex f' = 0 ∧
  match_of "n2" (install_reply "n2" 2 (mkISReq 2 "n1" 4 2 demo_data) (Ok resp) snapshot_leader) = 4.
Proof.
  pose proof (failed_install_acknowledged (mkISReq 2 "n1" 4 2 demo_data) "n2" snapshot_leader
    full_disk_node (demo_snap "1") (ErrOS "open")) as Hh.
  destruct (HandleInstallSnapshot _ full_disk_node) as [resp f'].
  destruct Hh as (_ & _ & Hc & _ & Hm); [vm_compute; reflexivity..|].
  split; [exact Hc|exact Hm].
Defined.

Definition applied_node : Node MemEngine MemEngine := with_lastApplied 3 committed_node.

Lemma HandleInstallSnapshot_rolls_back_witness :
  let '(_, n') := HandleInstallSnapshot (mkISReq 2 "n3" 1 1 demo_data) applied_node in
  commitIndex n' < 3 ∧ Log.Get 3 (log n') = Err ErrNotFound.
Proof.
  pose proof (HandleInstallSnapshot_rolls_back (mkISReq 2 "n3" 1 1 demo_data) applied_node
    leader_alog ∅ (demo_snap "1")) as Hh.
  destruct (HandleInstallSnapshot _ applied_node) as [resp n'].
  destruct Hh as (Hc & _ & Hg);
    [exact leader_node_rep | exact empty_store_rep | reflexivity | vm_compute; reflexivity
    | vm_compute; reflexivity | vm_compute; reflexivity | vm_compute; reflexivity
    | vm_compute; split; [discriminate | reflexivity] | by vm_compute | by vm_compute
    | vm_compute; discriminate | apply mem_accepts_for; vm_compute; reflexivity
    | apply mem_accepts_for; reflexivity | vm_compute; split; [reflexivity | discriminate]
    | reflexivity |].
  split; [exact Hc | exact Hg].
Defined.

Lemma NewNode_recovers_witness :
  ∃ n, NewNode "n1" ["n2"; "n3"] demo_options (engine demo_log) (NewStateMachine mem_new)
      (demo_fs []) "" = Ok n ∧ log_rep (log n) demo_alog ∧ commitIndex n = 4.
Proof.
  destruct (NewNode_recovers "n1" ["n2"; "n3"] demo_options (engine demo_log) demo_alog
    (NewStateMachine mem_new) ∅ (demo_fs []) (demo_snap "1") (mkMeta 4 2) "")
    as [(n & Hn & Hl & _ & _ & Hc & _) _];
    [exact (r_readable _ _ demo_log_rep) | exact (r_wf _ _ demo_log_rep)
    | exact (r_disk _ _ demo_log_rep) | exact empty_store_rep | by apply mem_accepts_for
    | reflexivity | apply demo_fs_rep |].
  exists n. split; [exact Hn|]. split; [exact Hl | exact Hc].
Defined.
