(* ===== verification/Replicated.v ===== *)
(** * The cluster implements one sequence of operations.

    Every node's data follows one log: the value that a node holds for a key is
    the value of the key after some prefix of the committed entries, at least as
    long as the prefix that the node reports as applied.  The prefix can be longer:
    the state machine writes without syncing, and a restarted node applies its
    log again over the data that it finds. *)

From S2P Require Import Prelude Bytes Storage Codec Log LogSpec LogTheorems FullLog StateMachine.
From S2P Require Import SnapshotStore Node Election Replication Apply Client ElectionTheorems.
From S2P Require Import VoteSafety ElectionSafety ReplicationTheorems Network LogMatching Commitment.
From S2P Require Import CommitSafety ApplyTheorems.
Import KV.

(** ** Replaying a list of entries *)

Definition replay (l : list Entry) (m : gmap string bytes) : gmap string bytes :=
  foldl (λ m e, a_apply e m) m l.

(** Every key has its value after some prefix of [l], of a length from [k] to [h]. *)
Definition between (l : list Entry) (k h : Z) (m : gmap string bytes) : Prop :=
  ∀ x, ∃ j, k ≤ j ≤ h ∧ m !! x = replay (cut j l) ∅ !! x.

Lemma replay_snoc l e m : replay (l ++ [e]) m = a_apply e (replay l m).
Proof. unfold replay. by rewrite foldl_app. Qed.

(** An entry leaves a key alone or sets it whatever it was. *)
Lemma a_apply_key e x :
  (∀ m, a_apply e m !! x = m !! x) ∨ (∀ m m', a_apply e m !! x = a_apply e m' !! x).
Proof.
  unfold a_apply. destruct (decide (Key e = x)) as [->|Hne].
  - destruct (Type_ e =? EntryPut); [right; intros; by rewrite !lookup_insert_eq|].
    destruct (Type_ e =? EntryDelete); [right; intros; by rewrite !lookup_delete_eq|by left].
  - left. intros m. destruct (Type_ e =? EntryPut); [by rewrite lookup_insert_ne|].
    destruct (Type_ e =? EntryDelete); [by rewrite lookup_delete_ne|done].
Qed.

Lemma cut_all l : cut (Z.of_nat (length l)) l = l.
Proof. unfold cut. rewrite Nat2Z.id. apply firstn_all. Qed.

Lemma cut_succ k l e : 0 ≤ k → l !! Z.to_nat k = Some e → cut (k + 1) l = cut k l ++ [e].
Proof.
  intros Hk He. unfold cut. replace (Z.to_nat (k + 1)) with (S (Z.to_nat k)) by lia. by apply take_S_r.
Qed.

Lemma between_start l : between l 0 0 ∅.
Proof. intros x. exists 0. split; [lia|done]. Qed.

Lemma between_mono l k k' h h' m : k' ≤ k → h ≤ h' → between l k h m → between l k' h' m.
Proof. intros Hk Hh Hb x. destruct (Hb x) as (j & ? & ?). exists j. split; [lia|done]. Qed.

Lemma between_agree l l' k h m : cut h l = cut h l' → between l k h m → between l' k h m.
Proof.
  intros Hc Hb x. destruct (Hb x) as (j & Hj & Heq). exists j. split; [done|].
  rewrite Heq, <-(cut_cut j h l), <-(cut_cut j h l') by lia. by rewrite Hc.
Qed.

(** Applying the next entry moves the lower bound. *)
Lemma between_apply l k h h' e m :
  0 ≤ k → k + 1 ≤ h' → h ≤ h' → l !! Z.to_nat k = Some e → between l k h m →
  between l (k + 1) h' (a_apply e m).
Proof.
  intros Hk Hk' Hh He Hb x. destruct (Hb x) as (j & Hj & Heq).
  pose proof (cut_succ k l e Hk He) as Hcut.
  destruct (a_apply_key e x) as [Hsame|Hset].
  - destruct (Z.eq_dec j k) as [->|].
    + exists (k + 1). split; [lia|]. by rewrite Hcut, replay_snoc, !Hsame.
    + exists j. split; [lia|]. by rewrite Hsame.
  - exists (k + 1). split; [lia|]. rewrite Hcut, replay_snoc. apply Hset.
Qed.

Section replicated.
Context {E K : Type} `{EngineSpec E} `{EngineSpec K} `{CodecSpec Entry}
  `{CodecSpec (gmap string bytes)} `{CodecSpec SnapshotMeta}.
Implicit Types (n m : Node E K) (l : list Entry) (LL : history) (M : gmap string bytes).
Implicit Types (c : cluster (E := E) (K := K)) (rc : rcluster (E := E) (K := K)).

(** ** Operations that do not touch the data *)

(** The parts of a node that hold data: its state machine and its snapshot files. *)
Definition data_of n : StateMachine K * Z * gmap string bytes :=
  (sm n, lastApplied n, files (snapStore n)).

Lemma becomeFollower_data t a b n : data_of (becomeFollower t a b n) = data_of n.
Proof.
  unfold becomeFollower, becomeFollower_persist, becomeFollower_locked, data_of.
  destruct (bool_decide (role n = Leader)); simpl; by case_Z.
Qed.

Lemma HandleRequestVote_data req n : data_of (HandleRequestVote req n).2 = data_of n.
Proof.
  unfold HandleRequestVote. case_Z; [done|].
  set (r0 := if currentTerm (log n) <? rv_Term req
    then (rv_Term req, stepDownForVote (rv_Term req) n) else (currentTerm (log n), n)).
  assert (data_of r0.2 = data_of n) as Hd.
  { unfold r0. case_Z; [|done]. simpl. unfold stepDownForVote.
    by destruct (bool_decide (role n = Leader)). }
  clearbody r0. destruct r0 as [cur m]. simpl in *. by destruct (_ && _).
Qed.

Lemma appendLocal_data e n : data_of (appendLocal e n).2 = data_of n.
Proof. unfold appendLocal. by destruct (AppendEntries _ _ _) as [[]]. Qed.

Lemma becomeLeader_start_data n : data_of (becomeLeader_start n).2 = data_of n.
Proof.
  unfold becomeLeader_start, becomeLeader_locked. case_bool_decide; [done|].
  cbn [snd]. by rewrite appendLocal_data.
Qed.

Lemma election_begin_data n : data_of (election_begin n).2 = data_of n.
Proof.
  unfold election_begin, becomeCandidate, becomeCandidate_newTerm. set (m := resetElectionTimer _).
  assert (data_of m = data_of n) as <- by done. clearbody m. case_Z; [|done].
  cbn [snd]. apply becomeLeader_start_data.
Qed.

Lemma election_step_data ev el n : data_of (election_step ev el n).2 = data_of n.
Proof.
  unfold election_step. destruct (negb _); [done|]. destruct ev as [r| |]; try done.
  destruct (vote_result _ r) as [granted higher].
  destruct (_ <? _); [apply becomeFollower_data|by destruct granted].
Qed.

Lemma election_end_data el n : data_of (election_end el n).2 = data_of n.
Proof. unfold election_end. destruct (_ && _); [apply becomeLeader_start_data|done]. Qed.

Lemma accept_leader_data req n : data_of (accept_leader req n).2 = data_of n.
Proof.
  unfold accept_leader. case_Z; [by destruct (bool_decide (role n = Leader))|].
  by case_bool_decide.
Qed.

Lemma HandleAppendEntries_data req n : data_of (HandleAppendEntries req n).2 = data_of n.
Proof.
  unfold HandleAppendEntries. destruct (_ <? _); [done|].
  rewrite <-(accept_leader_data req n). destruct (accept_leader req n) as [cur m]. simpl.
  destruct (check_prev cur req m); [done|].
  destruct (AppendEntries _ _ _) as [[] pl]; [done|]. simpl. unfold follow_commit.
  destruct (_ <? _); [|done]. by destruct (_ <? _).
Qed.

Lemma replicate_reply_data p t req r n : data_of (replicate_reply p t req r n) = data_of n.
Proof.
  unfold replicate_reply. destruct r as [resp|]; [|done].
  destruct (_ <? _); [apply becomeFollower_data|].
  repeat (case_match; try done).
Qed.

Lemma install_reply_data p t req r n : data_of (install_reply p t req r n) = data_of n.
Proof.
  unfold install_reply. destruct r as [resp|]; [|done].
  destruct (_ <? _); [apply becomeFollower_data|by destruct (leads t n)].
Qed.

Lemma install_prepare_data t n : data_of (install_prepare t n).2 = data_of n.
Proof.
  unfold install_prepare. destruct (LoadLatest (snapStore n)) as [loaded store] eqn:Hl.
  apply LoadLatest_files in Hl as [Hf _].
  destruct loaded as [[[snap meta]|]|]; [destruct (Marshal snap)|..]; unfold data_of; simpl; by rewrite Hf.
Qed.

Lemma tryAdvanceCommitIndex_data t n : data_of (tryAdvanceCommitIndex t n) = data_of n.
Proof.
  unfold tryAdvanceCommitIndex. destruct (negb _); [done|]. destruct (_ <=? _); [done|].
  destruct (TermAt _ _); [|done]. by destruct (_ =? _).
Qed.

(** Everything but the apply loop and the installation of a snapshot. *)
Lemma node_exec_data ev n :
  match ev with NApply | NInstall _ => True | _ => data_of (node_exec ev n) = data_of n end.
Proof.
  destruct ev as [req| |p t req r|t|p t req r|t r|t| |ty key value id|i|i|ch]; try done; simpl.
  - apply HandleAppendEntries_data.
  - apply replicate_reply_data.
  - apply install_prepare_data.
  - apply install_reply_data.
  - destruct r as [resp|]; [|done]. simpl. destruct (_ <? _); [apply becomeFollower_data|done].
  - apply tryAdvanceCommitIndex_data.
  - unfold propose_start. case_bool_decide; [done|]. by destruct (AppendEntries _ _ _) as [[]].
  - unfold wait_start. by destruct (_ <=? _).
Qed.

(** An election changes one node and not its data. *)
Lemma estep_data c c' j n' :
  estep c c' → c_nodes c' !! j = Some n' → ∃ n, c_nodes c !! j = Some n ∧ data_of n' = data_of n.
Proof.
  intros Hs Hn'.
  assert (∃ i n m, c_nodes c !! i = Some n ∧ c_nodes c' = <[i := m]> (c_nodes c) ∧ data_of m = data_of n)
    as (i & n & m & Hn & Hc & Hd).
  { destruct Hs as [c i n el req m Hn _ _ _ Hb|c i n m Hn _ _ _ Hb|c i n req resp m Hn _ Hh _
      |c i n el req got j' resp el' m Hn _ _ _ _ _ He|c i n el req got ev el' m Hn _ _ He
      |c i n el req got won m Hn _ _ He]; exists i, n, m; (split; [done|]).
    - split; [by unfold add_vote; destruct (_ =? _)|]. by rewrite <-(election_begin_data n), Hb.
    - split; [done|]. by rewrite <-(election_begin_data n), Hb.
    - split; [by unfold add_vote; destruct (rvr_VoteGranted resp)|].
      by rewrite <-(HandleRequestVote_data req n), Hh.
    - split; [done|]. by rewrite <-(election_step_data (EvReply (Ok resp)) el n), He.
    - split; [done|]. by rewrite <-(election_step_data ev el n), He.
    - split; [done|]. by rewrite <-(election_end_data el n), He. }
  rewrite Hc in Hn'. apply lookup_insert_Some in Hn' as [[<- <-]|[_ Hj]]; eauto.
Qed.

(** ** Data against a predicate of agreed prefixes *)

(** [S k l]: the first [k] entries of [l] are agreed on. *)
Class Agreement (S : Z → list Entry → Prop) : Prop := {
  ag_none l : S 0 l;
  ag_le k k' l : k' ≤ k → S k l → S k' l;
  ag_same k l l' : S k l → S k l' → cut k l = cut k l';
  ag_length k l : S k l → k ≤ Z.of_nat (length l);
  ag_cut k l : S k l → S k (cut k l)
}.

(** A map whose keys have agreed values, none older than the prefix of length [k]. *)
Definition kv_good (S : Z → list Entry → Prop) (k : Z) M : Prop :=
  ∃ h l, 0 ≤ k ≤ h ∧ S h l ∧ between l k h M.

Definition store_good (S : Z → list Entry → Prop) (k : Z) (s : StateMachine K) : Prop :=
  ∃ M, kv_rep s M ∧ kv_good S k M.

(** The snapshot files do not pass index [k], and their data is good. *)
Definition files_good (S : Z → list Entry → Prop) (k : Z) (f : gmap string bytes) : Prop :=
  ∀ b meta, f !! metaPath = Some b → decode b = Ok meta →
    0 ≤ LastIncludedIndex meta ≤ k ∧
    ∀ d snap, f !! dataPath = Some d → UnmarshalSnapshot d = Ok snap →
      kv_good S (LastIncludedIndex meta) (Pairs snap).

Definition node_good (S : Z → list Entry → Prop) n : Prop :=
  store_good S (lastApplied n) (sm n) ∧ files_good S (lastApplied n) (files (snapStore n)).

Lemma node_good_data S n n' : data_of n' = data_of n → node_good S n → node_good S n'.
Proof. unfold node_good, data_of. by intros [= -> -> ->]. Qed.

Section good.
Context (S : Z → list Entry → Prop) {HS : Agreement S}.

Lemma kv_good_start : kv_good S 0 ∅.
Proof. exists 0, []. split; [lia|]. split; [apply ag_none|apply between_start]. Qed.

Lemma kv_good_le k k' M : 0 ≤ k' ≤ k → kv_good S k M → kv_good S k' M.
Proof.
  intros Hk (h & l & Hh & Hs & Hb). exists h, l. split; [lia|]. split; [done|].
  eapply between_mono; [..|exact Hb]; lia.
Qed.

Lemma kv_good_apply k (c : Z) l e M :
  S c l → k + 1 ≤ c → l !! Z.to_nat k = Some e → kv_good S k M → kv_good S (k + 1) (a_apply e M).
Proof.
  intros Hc Hk He (h & L & Hh & Hs & Hb). exists (Z.max h (k + 1)).
  pose proof (ag_length _ _ Hc). pose proof (ag_length _ _ Hs).
  destruct (Z.le_gt_cases (k + 1) h) as [Hkh|Hkh].
  - exists L. rewrite Z.max_l by done. split; [lia|]. split; [done|].
    apply (between_apply L k h h); [lia..| |exact Hb].
    rewrite <-He. replace k with (k + 1 - 1) by lia. apply (cut_lookup (k + 1)); [|lia].
    apply ag_same; eapply ag_le; [..|exact Hs| |exact Hc]; done.
  - rewrite Z.max_r by lia. exists l. split; [lia|]. split; [by eapply ag_le|].
    apply (between_apply l k h (k + 1)); [lia..|exact He|]. eapply between_agree; [|exact Hb].
    apply ag_same; [done|]. eapply ag_le; [|exact Hc]. lia.
Qed.

(** Writing a snapshot, whatever the outcome. *)
Lemma Save_good k i t snap f err f' :
  files_good S k (files f) → 0 ≤ i → kv_good S i (Pairs snap) →
  (∀ b meta, files f !! metaPath = Some b → decode b = Ok meta → LastIncludedIndex meta ≤ i) →
  Save snap (mkMeta i t) f = (err, f') →
  files_good S (match err with None => i | Some _ => k end) (files f').
Proof.
  intros Hf Hi Hk Hold Hs b meta Hb Hd. apply Save_files in Hs. destruct err.
  - assert (files f !! metaPath = Some b) as Hb0.
    { destruct Hs as [[Hm _]|[_ [Hm|Hm]]]; congruence. }
    destruct (Hf b meta Hb0 Hd) as [Hr Hdata]. split; [done|]. intros d snap' Hd' Hu.
    destruct Hs as [[_ [Hda|Hda]]|[(d' & Hda & Hu') _]]; [by apply (Hdata d); [congruence|]|congruence|].
    assert (snap' = snap) as -> by congruence. eapply kv_good_le; [|exact Hk].
    specialize (Hold b meta Hb0 Hd). lia.
  - destruct Hs as [(b' & Hb' & Hd') (d' & Hda & Hu')].
    assert (meta = mkMeta i t) as -> by congruence. simpl. split; [lia|].
    intros d snap' Hd2 Hu. by assert (snap' = snap) as -> by congruence.
Qed.

Lemma files_good_le k k' f : k ≤ k' → files_good S k f → files_good S k' f.
Proof. intros Hk Hf b meta Hb Hd. destruct (Hf b meta Hb Hd). split; [lia|done]. Qed.

Lemma maybeSnapshot_data i n : sm (maybeSnapshot i n) = sm n ∧ lastApplied (maybeSnapshot i n) = lastApplied n.
Proof.
  unfold maybeSnapshot. destruct (LoadLatest _) as [loaded store]. destruct (covered _ _); [done|].
  destruct (TermAt _ _); [|done]. destruct (Dump _); [|done]. by destruct (Save _ _ _) as [[]].
Qed.

Lemma maybeSnapshot_good n : node_good S n → node_good S (maybeSnapshot (lastApplied n) n).
Proof.
  intros [(M & Hkv & Hk) Hf]. destruct (maybeSnapshot_data (lastApplied n) n) as [Hsm Hla].
  unfold node_good. rewrite Hsm, Hla. split; [by exists M|]. clear Hsm Hla. unfold maybeSnapshot.
  destruct (LoadLatest (snapStore n)) as [loaded store] eqn:Hl. apply LoadLatest_files in Hl as [Hfiles _].
  rewrite <-Hfiles in Hf. destruct (covered _ _); [done|]. simpl. destruct (TermAt _ _) as [t|]; [|done].
  rewrite (Dump_rep _ _ Hkv). destruct (Save _ _ _) as [err store'] eqn:Hs.
  assert (0 ≤ lastApplied n) as Hpos by (destruct Hk as (h & l & ? & _); lia).
  eapply Save_good in Hs; [|exact Hf|done|exact Hk|].
  - by destruct err.
  - intros b meta Hb Hd. destruct (Hf b meta Hb Hd). lia.
Qed.

Lemma apply_one_good n l :
  full (log n) l → is_u64 (lastApplied n + 1) → S (lastApplied n + 1) l → node_good S n →
  let '(go_on, n') := apply_one (lastApplied n + 1) n in
  node_good S n' ∧ lastApplied n' = if go_on then lastApplied n + 1 else lastApplied n.
Proof.
  intros Hl Hu Hs [(M & Hkv & Hk) Hf]. unfold apply_one.
  destruct (Log.Get _ (log n)) as [e|] eqn:Hget; [|by split; [split; [exists M|]|]].
  apply (full_Get _ _ _ _ Hl Hu) in Hget as [Hpos He].
  replace (lastApplied n + 1 - 1) with (lastApplied n) in He by lia.
  destruct (apply_entry e (sm n)) as [err machine] eqn:Ha.
  apply (apply_entry_rep _ _ _ _ _ Hkv) in Ha. destruct err as [err|].
  { by split; [split; [exists M|]|]. }
  destruct (notify_fields (lastApplied n + 1) (with_sm machine n)) as (_ & Hsm & Hla & _ & _).
  assert (snapStore (satisfyPendingReadsLocked (notifyWritersLocked (lastApplied n + 1)
    (with_lastApplied (lastApplied n + 1) (with_sm machine n)))) = snapStore n) as Hst
    by (unfold notifyWritersLocked; by destruct (writeWaiters _ !! _)).
  cbn zeta in *. set (n1 := satisfyPendingReadsLocked _) in *. clearbody n1. simpl in Hsm.
  assert (node_good S n1) as Hg.
  { unfold node_good. rewrite Hsm, Hla, Hst. split; [|eapply files_good_le; [|exact Hf]; lia].
    exists (a_apply e M). split; [done|]. eapply kv_good_apply; [exact Hs|done|exact He|exact Hk]. }
  destruct (_ && _); [|done]. rewrite <-Hla. split; [by apply maybeSnapshot_good|].
  apply maybeSnapshot_data.
Qed.

Lemma apply_loop_good LL fuel commit n l :
  hist_ok LL → node_log LL n l → S commit l → node_good S n →
  node_good S (apply_loop fuel (lastApplied n) commit n).
Proof.
  intros Hh. revert n. induction fuel as [|fuel IH]; intros n Hnl Hs Hg; [done|]. simpl.
  case_Z; [|done]. pose proof (ag_length _ _ Hs). pose proof (full_length _ _ (nl_full _ _ _ Hnl)).
  assert (0 ≤ lastApplied n) as Hpos by (destruct Hg as [(M & _ & (h & L & ? & _)) _]; lia).
  assert (is_u64 (lastApplied n + 1)) as Hu by u64_lia. rewrite u64_small by done.
  pose proof (apply_one_good n l (nl_full _ _ _ Hnl) Hu ltac:(eapply ag_le; [|exact Hs]; lia) Hg) as Hone.
  pose proof (apply_one_keeps LL (lastApplied n + 1) n Hh Hu l Hnl) as Hnl'.
  destruct (apply_one (lastApplied n + 1) n) as [[] n1]; [|by destruct Hone]. destruct Hone as [Hg' <-].
  by apply IH.
Qed.

(** A snapshot on its way to another node. *)
Definition install_good (req : InstallSnapshotRequest) : Prop :=
  ∀ snap, UnmarshalSnapshot (is_Data req) = Ok snap → kv_good S (is_LastIncludedIndex req) (Pairs snap).

Lemma install_prepare_good t n req n' :
  install_prepare t n = (Some req, n') → node_good S n → install_good req.
Proof.
  unfold install_prepare. destruct (LoadLatest (snapStore n)) as [loaded store] eqn:Hl.
  apply LoadLatest_files in Hl as [_ Hrep]. intros Hp [_ Hf].
  destruct loaded as [[[snap meta]|]|]; try done. destruct (Marshal snap) as [data|] eqn:Hm; [|done].
  injection Hp as <- <-. destruct (Hrep _ _ eq_refl) as [(b & Hb & Hd) (d & Hda & Hu)].
  intros snap'. simpl. rewrite (Unmarshal_Marshal _ _ Hm). intros [= <-].
  destruct (Hf b meta Hb Hd) as [_ Hdata]. by eapply Hdata.
Qed.

Lemma install_snapshot_good req n :
  node_good S n → 0 ≤ is_LastIncludedIndex req → install_good req →
  accepts_for 1 (engine (log n)) → restores req n →
  (∀ b meta, files (snapStore n) !! metaPath = Some b → decode b = Ok meta →
    LastIncludedIndex meta ≤ is_LastIncludedIndex req) →
  node_good S (install_snapshot req n).
Proof.
  intros [(M & Hkv & Hk) Hf] Hi Hreq Hacc Hres Hold. unfold install_snapshot.
  destruct (UnmarshalSnapshot (is_Data req)) as [snap|] eqn:Hun; [|by split; [exists M|]].
  destruct (Save snap _ (snapStore n)) as [err store] eqn:Hsave.
  eapply Save_good in Hsave; [|exact Hf|done|by apply Hreq|done].
  destruct err; [by split; [exists M|]|]. specialize (Hres snap Hun). simpl.
  destruct (Restore snap _ (sm n)) as [err machine] eqn:Hr. simpl in Hres. subst err.
  apply Restore_rep in Hr as [Hr _]; [|apply Hkv]. specialize (Hr _ Hkv). simpl in Hr.
  pose proof (RestoreSnapshotBoundary_accepted (is_LastIncludedIndex req) (is_LastIncludedTerm req)
    (log n) Hacc) as Hnone.
  destruct (RestoreSnapshotBoundary _ _ _) as [err pl]. simpl in Hnone. subst err.
  split; simpl; [|done]. exists (Pairs snap). split; [done|by apply Hreq].
Qed.

Lemma HandleInstallSnapshot_good req n :
  node_good S n → 0 ≤ is_LastIncludedIndex req → install_good req →
  accepts_for 2 (engine (log n)) → restores req n → is_ok (LoadLatest (snapStore n)).1 = true →
  node_good S (HandleInstallSnapshot req n).2.
Proof.
  intros Hg Hi Hreq Hacc Hres Hload. unfold HandleInstallSnapshot.
  destruct (_ <? _); [done|].
  set (r0 := if currentTerm (log n) <? is_Term req
    then (is_Term req, persistTermVote (is_Term req) "" n) else (currentTerm (log n), n)).
  assert (data_of r0.2 = data_of n ∧ snapStore r0.2 = snapStore n ∧ sm r0.2 = sm n ∧
    accepts_for 1 (engine (log r0.2))) as (Hd0 & Hst0 & Hsm0 & Hacc0).
  { unfold r0. case_Z; [|split_and!; try done; by apply accepts_for_S].
    split_and!; try done. by apply (SetTermAndVote_accepted 1 (is_Term req) "" (log n)). }
  clearbody r0. destruct r0 as [cur n0]. simpl in *. rewrite Hst0.
  destruct (LoadLatest (snapStore n)) as [loaded store] eqn:Hl. simpl in Hload.
  pose proof (LoadLatest_files _ _ _ Hl) as [Hfiles _].
  set (n1 := with_snapStore store _).
  assert (node_good S n1) as Hg1.
  { eapply node_good_data; [|exact Hg]. rewrite <-Hd0. unfold data_of, n1. simpl. by rewrite Hfiles, Hst0. }
  destruct (covered loaded _) eqn:Hcov; [done|]. apply install_snapshot_good; try done.
  - intros snap Hs. simpl. rewrite Hsm0. by apply Hres.
  - intros b meta Hb Hd. simpl in Hb. rewrite Hfiles in Hb. destruct loaded as [r|]; [|done].
    destruct (LoadLatest_found _ _ _ _ _ Hl Hb Hd) as (snap & -> & _). simpl in Hcov. lia.
Qed.

(** A restart, on data that is no newer than agreed. *)
Lemma NewNode_good n machine store n' :
  node_good S n → files store = files (snapStore n) → store_good S 0 machine →
  NewNode (n_id n) (peers n) (opts n) (engine (log n)) machine store (selfClientAddr n) = Ok n' →
  node_good S n'.
Proof.
  intros [_ Hf] Hfiles (M & Hkv & Hk) Hnew. unfold NewNode in Hnew.
  destruct (OpenPersistentLog (engine (log n))) as [pl|]; [|done]. simpl in Hnew.
  destruct (LoadLatest store) as [loaded store'] eqn:Hl. pose proof (LoadLatest_files _ _ _ Hl) as [Hfs Hrep].
  rewrite <-Hfiles in Hf.
  destruct loaded as [[[snap meta]|]|]; [|injection Hnew as <-|done].
  - destruct (Restore snap _ machine) as [[err|] s'] eqn:Hr; [done|]. injection Hnew as <-.
    apply Restore_rep in Hr as [Hr _]; [|apply Hkv]. specialize (Hr _ Hkv). simpl in Hr.
    destruct (Hrep _ _ eq_refl) as [(b & Hb & Hd) (d & Hda & Hu)].
    destruct (Hf b meta Hb Hd) as [Hi Hdata]. split; simpl.
    + exists (Pairs snap). split; [done|]. by eapply Hdata.
    + rewrite Hfs. intros b' meta' Hb' Hd'. assert (meta' = meta) as -> by congruence. split; [lia|done].
  - split; simpl; [by exists M|]. rewrite Hfs. intros b meta Hb Hd.
    by destruct (LoadLatest_found _ _ _ _ _ Hl Hb Hd) as (? & ? & _).
Qed.

End good.

(** ** Runs of the cluster *)

(** The discipline [careful], and: a node reads its own snapshot before it installs
    another one, and it restarts on a store of data that it had before. *)
Definition durable (past : list rcluster) : discipline E K := mkDiscipline
  (may_send careful)
  (λ msg n, may_deliver careful msg n ∧
    match msg with MInstall _ _ => is_ok (LoadLatest (snapStore n)).1 = true | _ => True end)
  (λ machine n, ∃ rc m, rc ∈ past ∧ c_nodes (rc_base rc) !! n_id n = Some m ∧
    sm_engine machine = sm_engine (sm m)).

(** A state that the cluster reaches, with the states before it. *)
Inductive run (members : gset string) : rcluster → list rcluster → Prop :=
  | Run_init rc :
      rinitial members rc → (∀ i n, c_nodes (rc_base rc) !! i = Some n → kv_rep (sm n) ∅) →
      run members rc []
  | Run_step rc past rc' :
      run members rc past → rstep (durable (rc :: past)) rc rc' → run members rc' (rc :: past).

Lemma run_rreachable members rc past : run members rc past → rreachable careful members rc.
Proof.
  induction 1 as [rc Hi _|rc past rc' _ IH Hs]; [by apply RR_init|]. eapply RR_step; [exact IH|].
  eapply rstep_weaken; [..|exact Hs]; [done| |done]. by intros msg n [? _].
Qed.

(** ** The invariant *)

(** The first [k] entries of [l] are committed. *)
Definition agreed (members : gset string) rc LL (k : Z) l : Prop :=
  ∃ T, safe members (ack members (rc_base rc) (rc_msgs rc) LL) LL T k l.

Lemma cinv_Agreement members rc LL :
  cinv members (rc_base rc) (rc_msgs rc) LL → Agreement (agreed members rc LL).
Proof.
  intros Hci. split.
  - intros l. exists 0. left. lia.
  - intros k k' l Hk [T Hs]. exists T. by eapply safe_le.
  - intros k l l' [T Hs] [T' Hs']. eapply safe_agree; [apply (l_hist _ _ _ _ (ci_linv _ _ _ _ Hci))
      |apply (ci_bounded _ _ _ _ Hci)|apply (ci_wins _ _ _ _ Hci)|exact Hs|exact Hs'].
  - intros k l [T Hs]. by eapply safe_length.
  - intros k l [T Hs]. exists T. pose proof (safe_length _ _ _ _ _ _ Hs). eapply safe_cut; [exact Hs|..].
    + by apply cut_cut.
    + destruct (Z.le_gt_cases k 0); [lia|]. rewrite cut_length; lia.
Qed.

(** What stays of a node in an earlier state: its committed entries and its data. *)
Definition explained (S : Z → list Entry → Prop) n : Prop :=
  (∃ l, full (log n) l ∧ S (commitIndex n) l) ∧ store_good S (lastApplied n) (sm n).

Record kinv (members : gset string) rc (past : list rcluster) LL : Prop := {
  ki_cinv : cinv members (rc_base rc) (rc_msgs rc) LL;
  ki_node : ∀ i n, c_nodes (rc_base rc) !! i = Some n → node_good (agreed members rc LL) n;
  ki_past : ∀ rc0 i m, rc0 ∈ past → c_nodes (rc_base rc0) !! i = Some m →
    explained (agreed members rc LL) m;
  ki_msgs : ∀ j req, MInstall j req ∈ rc_msgs rc → install_good (agreed members rc LL) req
}.

Lemma agreed_next members rc rc' d LL LL' k l :
  hist_next LL LL' → rstep d rc rc' → agreed members rc LL k l → agreed members rc' LL' k l.
Proof.
  intros Hn Hs [T Hsafe]. exists T. eapply safe_next; [|exact Hn|reflexivity|exact Hsafe].
  intros j t k'. by eapply ack_rstep.
Qed.

Section grows.
Context (S S' : Z → list Entry → Prop) (Hgrow : ∀ k l, S k l → S' k l).

Lemma kv_good_grows k M : kv_good S k M → kv_good S' k M.
Proof. intros (h & l & ? & ? & ?). exists h, l. auto. Qed.

Lemma store_good_grows k s : store_good S k s → store_good S' k s.
Proof. intros (M & ? & ?). exists M. auto using kv_good_grows. Qed.

Lemma node_good_grows n : node_good S n → node_good S' n.
Proof.
  intros [Hs Hf]. split; [by apply store_good_grows|]. intros b meta Hb Hd.
  destruct (Hf b meta Hb Hd). split; [done|]. eauto using kv_good_grows.
Qed.

Lemma explained_grows n : explained S n → explained S' n.
Proof. intros [(l & ? & ?) ?]. split; [eauto|by apply store_good_grows]. Qed.

End grows.

(** ** Every step keeps the invariant *)

Lemma applyCommitted_good members rc rc' d LL LL' i n :
  cinv members (rc_base rc) (rc_msgs rc) LL → Agreement (agreed members rc' LL') →
  hist_next LL LL' → rstep d rc rc' → c_nodes (rc_base rc) !! i = Some n →
  node_good (agreed members rc' LL') n → node_good (agreed members rc' LL') (applyCommitted n).
Proof.
  intros Hci HS Hn Hs Hi Hg.
  destruct (l_node _ _ _ _ (ci_linv _ _ _ _ Hci) _ _ Hi) as (l0 & Hnl & _).
  apply (apply_loop_good _ LL _ _ _ l0); [apply (l_hist _ _ _ _ (ci_linv _ _ _ _ Hci))|done| |done].
  eapply agreed_next; [done..|]. eexists. apply (ci_node _ _ _ _ Hci _ _ _ Hi Hnl).
Qed.

(** The nodes after a step, measured with what is agreed then. *)
Lemma rstep_node_good members rc rc' past LL LL' :
  let S' := agreed members rc' LL' in
  cinv members (rc_base rc) (rc_msgs rc) LL → Agreement S' → hist_next LL LL' →
  rstep (durable past) rc rc' →
  (∀ i n, c_nodes (rc_base rc) !! i = Some n → node_good S' n) →
  (∀ rc0 i m, rc0 ∈ past → c_nodes (rc_base rc0) !! i = Some m → explained S' m) →
  (∀ j req, MInstall j req ∈ rc_msgs rc → install_good S' req) →
  ∀ i n, c_nodes (rc_base rc') !! i = Some n → node_good S' n.
Proof.
  intros S' Hci HS Hnext Hs Hnodes Hpast Hmsgs.
  pose proof (λ i n Hi, applyCommitted_good members rc rc' _ LL LL' i n Hci HS Hnext Hs Hi) as Happly.
  fold S' in Happly. clearbody S'.
  assert (∀ j n n', c_nodes (rc_base rc) !! j = Some n → data_of n' = data_of n → node_good S' n') as Hdata
    by (intros j n n' Hj Hd; eapply node_good_data; eauto).
  destruct Hs as [c c' ms Hs _|rc i n ev Hn Hloc Hok _|c ms i n machine store n' Hn Hfiles Hmay Hnew
    |rc i n p term req Hn _ _ Hp _|rc i n p term Hn _ Ht _|rc j n req resp n' Hin Hn Hall Hh
    |rc i n j req resp Hin Hn _ Hur|rc i n p term req n' Hn _ Ht Hp _|rc j n req resp n' Hin Hn Hall Hh
    |rc i n j req resp Hin Hn _ Hur]; simpl in *; try done.
  - intros j n' Hj. destruct (estep_data _ _ _ _ Hs Hj) as (n & Hn & Hd). eauto.
  - intros j n' [[<- <-]|[_ Hj]]%lookup_insert_Some; [|eauto].
    pose proof (node_exec_data ev n) as Hd.
    destruct ev; try done; simpl in *; try (eapply Hdata; [exact Hn|exact Hd]). eauto.
  - intros j m [[<- <-]|[_ Hj]]%lookup_insert_Some; [|eauto].
    destruct Hmay as (rc0 & m & Hin & Hm & Heng). eapply NewNode_good; [|exact Hfiles| |exact Hnew]; [eauto|].
    destruct (Hpast _ _ _ Hin Hm) as [_ (M & [Hkp Hkr] & Hk)]. exists M. split; [split; by rewrite Heng|].
    eapply kv_good_le; [|exact Hk]. destruct Hk as (h & l & ? & _). lia.
  - intros i m [[<- <-]|[_ Hj]]%lookup_insert_Some; [|eauto].
    eapply Hdata; [exact Hn|]. by rewrite <-(HandleAppendEntries_data req n), Hh.
  - intros j' m [[<- <-]|[_ Hj]]%lookup_insert_Some; [|eauto].
    eapply Hdata; [exact Hn|exact (replicate_reply_data j (ae_Term req) req (Ok resp) n)].
  - intros j' m [[<- <-]|[_ Hj]]%lookup_insert_Some; [|eauto].
    eapply Hdata; [exact Hn|]. by rewrite <-(install_prepare_data term n), Hp.
  - intros i m [[<- <-]|[_ Hj]]%lookup_insert_Some; [|eauto].
    destruct Hall as [(Hacc & Hres & _) Hload].
    destruct (ci_msgs _ _ _ _ Hci _ Hin) as [Hpos _].
    replace n' with (HandleInstallSnapshot req n).2 by (by rewrite Hh).
    apply HandleInstallSnapshot_good; eauto. lia.
  - intros j' m [[<- <-]|[_ Hj]]%lookup_insert_Some; [|eauto].
    eapply Hdata; [exact Hn|exact (install_reply_data j (is_Term req) req (Ok resp) n)].
Qed.

Lemma kinv_step members rc rc' past LL :
  size members ≠ 1%nat → rreachable careful members rc → kinv members rc past LL →
  rstep (durable (rc :: past)) rc rc' → ∃ LL', hist_next LL LL' ∧ kinv members rc' (rc :: past) LL'.
Proof.
  intros Hsize Hr [Hci Hnode Hpast Hmsgs] Hs.
  assert (rstep careful rc rc') as Hsc.
  { eapply rstep_weaken; [..|exact Hs]; [done| |done]. by intros msg n [? _]. }
  destruct (rreachable_inv _ _ _ Hr) as [Hinv Hmu]. destruct (rstep_inv _ _ _ _ Hinv Hmu Hsc) as [Hinv' _].
  destruct (cinv_rstep _ _ _ _ Hsize Hinv Hinv' Hmu Hci Hsc) as (LL' & Hnext & Hci').
  exists LL'. split; [done|]. pose proof (cinv_Agreement _ _ _ Hci') as HS.
  pose proof (λ k l, agreed_next members rc rc' _ LL LL' k l Hnext Hs) as Hgrow.
  assert (∀ i n, c_nodes (rc_base rc) !! i = Some n → node_good (agreed members rc' LL') n) as Hnode1
    by (intros i n Hi; eapply node_good_grows; [exact Hgrow|eauto]).
  assert (∀ rc0 i m, rc0 ∈ rc :: past → c_nodes (rc_base rc0) !! i = Some m →
    explained (agreed members rc' LL') m) as Hpast1.
  { intros rc0 i m [->|Hin]%elem_of_cons Hm; [|eapply explained_grows; [exact Hgrow|eauto]].
    split; [|by apply (Hnode1 i m Hm)].
    destruct (committed_safe _ _ _ _ _ Hci Hm) as (l & Hl & _ & Hsafe).
    exists l. split; [done|]. apply Hgrow. by eexists. }
  assert (∀ j req, MInstall j req ∈ rc_msgs rc → install_good (agreed members rc' LL') req) as Hmsgs1
    by (intros j req Hin snap Hu; eapply kv_good_grows; [exact Hgrow|by eapply Hmsgs]).
  split; [done| |done|].
  - exact (rstep_node_good _ _ _ _ _ _ Hci HS Hnext Hs Hnode1 Hpast1 Hmsgs1).
  - intros j req Hin. destruct Hs; simpl in *; try (by eapply Hmsgs1);
      try (apply elem_of_cons in Hin as [Heq|Hin]; [|by eapply Hmsgs1]; try done).
    injection Heq as <- <-. eapply install_prepare_good; [eassumption|eauto].
Qed.

Lemma run_kinv members rc past :
  size members ≠ 1%nat → run members rc past → ∃ LL, kinv members rc past LL.
Proof.
  intros Hsize. induction 1 as [rc Hi Hkv|rc past rc' Hr [LL Hk] Hs].
  - exists ∅. pose proof (cinv_Agreement _ _ _ (rinitial_cinv _ _ Hi)) as HS.
    split; [by apply rinitial_cinv| |set_solver|by rewrite (rinit_msgs _ _ Hi); set_solver].
    intros i n Hn. destruct (rinit_log _ _ Hi i n Hn) as (_ & Hf & _ & Hla).
    split; [exists ∅; split; [eauto|rewrite Hla; by apply kv_good_start]|]. intros b meta; congruence.
  - destruct (kinv_step members rc rc' past LL) as (LL' & _ & Hk'); eauto using run_rreachable.
Qed.

(** ** One log for the whole run *)

Section join.
Context (S : Z → list Entry → Prop) {HS : Agreement S}.

(** Of two agreed prefixes one continues the other. *)
Lemma agreed_join k l L :
  S k l → S (Z.of_nat (length L)) L →
  ∃ L', S (Z.of_nat (length L')) L' ∧ L `prefix_of` L' ∧ cut k l `prefix_of` L'.
Proof.
  intros Hk HL. pose proof (ag_length _ _ Hk) as Hlen.
  destruct (Z.le_gt_cases k (Z.of_nat (length L))) as [Hle|Hgt].
  - exists L. split; [done|]. split; [done|].
    rewrite (ag_same k l L Hk); [apply cut_prefix|by eapply ag_le].
  - exists (cut k l). pose proof (cut_length k l ltac:(lia)) as Hc. rewrite Hc.
    split; [by apply ag_cut|]. split; [|done].
    rewrite <-(cut_all L). rewrite (ag_same (Z.of_nat (length L)) L l HL) by (eapply ag_le; [|exact Hk]; lia).
    rewrite <-(cut_cut (Z.of_nat (length L)) k l) by lia. apply cut_prefix.
Qed.

(** The log [L] has what a node committed, and explains its data. *)
Definition follows (L : list Entry) n : Prop :=
  (∃ l, full (log n) l ∧ cut (commitIndex n) l `prefix_of` L ∧ commitIndex n ≤ Z.of_nat (length l)) ∧
  ∃ M h l, kv_rep (sm n) M ∧ between l (lastApplied n) h M ∧ h ≤ Z.of_nat (length l) ∧
    0 ≤ lastApplied n ≤ h ∧ cut h l `prefix_of` L.

Lemma follows_prefix L L' n : L `prefix_of` L' → follows L n → follows L' n.
Proof.
  intros Hp [(l & ? & ? & ?) (M & h & l' & ? & ? & ? & ? & ?)]. split.
  - exists l. split_and!; try done. by etrans.
  - exists M, h, l'. split_and!; try (done || lia). by etrans.
Qed.

Lemma follows_all (ns : list (Node E K)) :
  (∀ n, n ∈ ns → explained S n) →
  ∃ L, S (Z.of_nat (length L)) L ∧ ∀ n, n ∈ ns → follows L n.
Proof.
  induction ns as [|n ns IH]; intros Hex.
  { exists []. split; [apply ag_none|set_solver]. }
  destruct IH as (L & HL & Hall); [set_solver|].
  destruct (Hex n) as [(l & Hl & Hc) (M & Hkv & (h & Lg & Hh & Hs & Hb))]; [set_solver|].
  destruct (agreed_join _ _ _ Hc HL) as (L1 & HL1 & Hp1 & Hc1).
  destruct (agreed_join _ _ _ Hs HL1) as (L2 & HL2 & Hp2 & Hc2).
  exists L2. split; [done|]. intros m [->|Hm]%elem_of_cons.
  - split; [exists l|exists M, h, Lg]; split_and!; try (done || lia); try (by apply ag_length);
      [by etrans].
  - eapply follows_prefix; [|by apply Hall]. by etrans.
Qed.

End join.

Lemma follows_commit L n :
  follows L n →
  commitIndex n ≤ Z.of_nat (length L) ∧
  ∀ k e, is_u64 k → k ≤ commitIndex n → Log.Get k (log n) = Ok e → L !! Z.to_nat (k - 1) = Some e.
Proof.
  intros [(l & Hl & Hp & Hc) _]. split.
  - destruct (Z.le_gt_cases (commitIndex n) 0); [lia|].
    apply prefix_length in Hp. pose proof (cut_length (commitIndex n) l). lia.
  - intros k e Hu Hk Hget. apply (full_Get _ _ _ _ Hl Hu) in Hget as [Hpos He].
    eapply prefix_lookup_Some; [|exact Hp]. unfold cut. by rewrite lookup_take_lt by lia.
Qed.

Lemma follows_data L n :
  follows L n →
  lastApplied n ≤ Z.of_nat (length L) ∧
  ∀ x, ∃ j, lastApplied n ≤ Z.of_nat j ≤ Z.of_nat (length L) ∧
    Get x (sm n) = Ok (replay (take j L) ∅ !! x).
Proof.
  intros [_ (M & h & l & Hkv & Hb & Hh & Hla & Hp)].
  apply prefix_cut in Hp as [HhL Hcut]; [|lia]. split; [lia|]. intros x.
  destruct (Hb x) as (j & Hj & Hx). exists (Z.to_nat j). split; [lia|].
  rewrite (KV_Get_rep _ _ _ Hkv), Hx. fold (cut j L).
  by rewrite <-(cut_cut j h l), <-(cut_cut j h L), Hcut by lia.
Qed.

(** The nodes of all states of a run. *)
Definition nodes_of (rcs : list rcluster) : list (Node E K) :=
  rcs ≫= λ rc, (map_to_list (c_nodes (rc_base rc))).*2.

Lemma elem_of_nodes_of rcs n :
  n ∈ nodes_of rcs ↔ ∃ rc i, rc ∈ rcs ∧ c_nodes (rc_base rc) !! i = Some n.
Proof.
  unfold nodes_of. rewrite list_elem_of_bind. split.
  - intros (rc & Hn & Hin). apply list_elem_of_fmap in Hn as ([i m] & -> & Hm).
    apply elem_of_map_to_list in Hm. eauto.
  - intros (rc & i & Hin & Hn). exists rc. split; [|done].
    apply list_elem_of_fmap. exists (i, n). split; [done|by apply elem_of_map_to_list].
Qed.

Lemma kinv_explained members rc past LL n :
  kinv members rc past LL → n ∈ nodes_of (rc :: past) → explained (agreed members rc LL) n.
Proof.
  intros [Hci Hnode Hpast _] (rc' & i & Hin & Hm)%elem_of_nodes_of.
  apply elem_of_cons in Hin as [->|Hin]; [|by eapply Hpast].
  split; [|by apply (Hnode i)]. destruct (committed_safe _ _ _ _ _ Hci Hm) as (l & ? & _ & ?).
  exists l. split; [done|]. by eexists.
Qed.


End replicated.

(** ** Witness: a put is committed and applied, then a node loses its data *)

Import Gob Json.

Definition n1_proposed := node_exec (NPropose EntryPut "x" (bytes_of "1") "r1") n1_leader.
Definition put_entries : list Entry :=
  [mkEntry 1 1 EntryNoop "" [] ""; mkEntry 2 1 EntryPut "x" (bytes_of "1") "r1"].
Definition append_put : AppendEntriesRequest := mkAEReq 1 "n1" 0 0 put_entries 0 "".
Definition n2_stored := (HandleAppendEntries append_put n2_voted).2.
Definition n1_stored := replicate_reply "n2" (ae_Term append_put) append_put (Ok acked1) n1_proposed.
Definition n1_advanced := node_exec (NAdvance 1) n1_stored.
Definition n1_applied := node_exec NApply n1_advanced.
Definition heartbeat_put := confirm_request "n2" 1 n1_applied.
Definition n2_advanced := (HandleAppendEntries heartbeat_put n2_stored).2.
Definition n2_applied := node_exec NApply n2_advanced.

Definition put0 := mkRCluster cluster4 [].
Definition put1 := put_node "n1" n1_proposed put0.
Definition put2 := send_msg (MAppend "n2" append_put) put1.
Definition put3 := send_msg (MAppendReply "n2" append_put acked1) (put_node "n2" n2_stored put2).
Definition put4 := put_node "n1" n1_stored put3.
Definition put5 := put_node "n1" n1_advanced put4.
Definition put6 := put_node "n1" n1_applied put5.
Definition put7 := send_msg (MAppend "n2" heartbeat_put) put6.
Definition put8 := send_msg (MAppendReply "n2" heartbeat_put acked1) (put_node "n2" n2_advanced put7).
Definition put9 := put_node "n2" n2_applied put8.

Lemma elected_run : ∃ past, run members3 put0 past ∧ mkRCluster cluster0 [] ∈ past.
Proof.
  eexists. split.
  - eapply Run_step; [|apply (X_election _ _ _ _ cluster_step4); small_logs].
    eapply Run_step; [|apply (X_election _ _ _ _ cluster_step3); small_logs].
    eapply Run_step; [|apply (X_election _ _ _ _ cluster_step2); small_logs].
    eapply Run_step; [|apply (X_election _ _ _ _ cluster_step1); small_logs].
    apply Run_init; [apply cluster0_rinitial|]. intros i n Hi. simpl in Hi.
    repeat (apply lookup_insert_Some in Hi as [[<- <-]|[_ Hi]]);
      [..|apply lookup_singleton_Some in Hi as [<- <-]]; apply empty_store_rep.
  - set_solver.
Qed.

Definition n2_restarted : Node MemEngine MemEngine :=
  match NewNode "n2" (peers n2_applied) (opts n2_applied) (engine (log n2_applied))
    (NewStateMachine mem_new) (snapStore n2_applied) (selfClientAddr n2_applied) with
  | Ok n => n
  | Err _ => n2_applied
  end.

Definition put10 := mkRCluster
  (set_election "n2" None (set_node "n2" n2_restarted (rc_base put9))) (rc_msgs put9).

(** No snapshots and no restarts. *)
Definition plain : discipline MemEngine MemEngine := mkDiscipline
  (may_send careful)
  (λ msg n, may_deliver careful msg n ∧ match msg with MInstall _ _ => False | _ => True end)
  (λ _ _, False).

Lemma plain_durable past rc rc' : rstep plain rc rc' → rstep (durable past) rc rc'.
Proof. apply rstep_weaken; [done| |done]. intros msg n [? ?]. by destruct msg. Qed.

Lemma delivers req (n : Node MemEngine MemEngine) :
  mem_plan (engine (log n)) = [] → start_ok req n →
  lastIndex (log n) ≤ lastIndex (log (HandleAppendEntries req n).2) → commits_checked req n →
  may_deliver plain (MAppend "n2" req) n.
Proof.
  intros Hp Hs Hlen Hc. split; [|done]. split; [done|]. split; [by apply mem_accepts_for|].
  split; [intros Hlt; lia|done].
Qed.

Lemma put_step1 : rstep plain put0 put1.
Proof.
  apply (X_local _ _ "n1" n1_leader (NPropose EntryPut "x" (bytes_of "1") "r1"));
    [reflexivity | reflexivity | done | small_logs].
Qed.

Lemma put_step2 : rstep plain put1 put2.
Proof.
  apply (X_send _ _ "n1" n1_proposed "n2" 1 append_put);
    [reflexivity | by left | by vm_compute | vm_compute; reflexivity | reflexivity].
Qed.

Lemma put_step3 : rstep plain put2 put3.
Proof.
  apply (X_append _ _ "n2" n2_voted append_put acked1 n2_stored);
    [by left | reflexivity | | vm_compute; reflexivity].
  apply delivers; [reflexivity | by right | by vm_compute..].
Qed.

Lemma put_step4 : rstep plain put3 put4.
Proof.
  unfold put4, n1_stored. apply (X_append_reply _ _ "n1" n1_proposed "n2" append_put acked1);
    [by left | reflexivity | reflexivity | by vm_compute].
Qed.

Lemma put_step5 : rstep plain put4 put5.
Proof.
  unfold put5, n1_advanced. apply (X_local _ _ "n1" n1_stored (NAdvance 1)); [reflexivity | reflexivity | done | small_logs].
Qed.

Lemma put_step6 : rstep plain put5 put6.
Proof.
  unfold put6, n1_applied. apply (X_local _ _ "n1" n1_advanced NApply); [reflexivity | reflexivity | done | small_logs].
Qed.

Lemma put_step7 : rstep plain put6 put7.
Proof.
  unfold put7, heartbeat_put. apply (X_heartbeat _ _ "n1" n1_applied "n2" 1);
    [reflexivity | vm_compute; left | by vm_compute | vm_compute; reflexivity].
Qed.

Lemma put_step8 : rstep plain put7 put8.
Proof.
  apply (X_append _ _ "n2" n2_stored heartbeat_put acked1 n2_advanced);
    [by left | reflexivity | | vm_compute; reflexivity].
  apply delivers; [reflexivity | by left | by vm_compute..].
Qed.

Lemma put_step9 : rstep plain put8 put9.
Proof.
  unfold put9, n2_applied. apply (X_local _ _ "n2" n2_advanced NApply); [reflexivity | reflexivity | done | small_logs].
Qed.

Lemma put_step10 past :
  mkRCluster cluster0 [] ∈ past → rstep (durable past) put9 put10.
Proof.
  intros Hin. assert (NewNode (n_id n2_applied) (peers n2_applied) (opts n2_applied)
    (engine (log n2_applied)) (NewStateMachine mem_new) (snapStore n2_applied)
    (selfClientAddr n2_applied) = Ok n2_restarted) as Hnew by (vm_compute; reflexivity).
  assert (c_nodes cluster0 !! n_id n2_applied = Some (demo_node "n2" ["n1"; "n3"] mem_new)) as Hold
    by (vm_compute; reflexivity).
  apply (X_restart _ (rc_base put9) (rc_msgs put9) "n2" n2_applied (NewStateMachine mem_new)
    (snapStore n2_applied)); [reflexivity | reflexivity | | exact Hnew].
  exists (mkRCluster cluster0 []), (demo_node "n2" ["n1"; "n3"] mem_new).
  split; [exact Hin|]. split; [exact Hold|reflexivity].
Qed.

Lemma put_run : ∃ past, run members3 put10 past.
Proof.
  destruct elected_run as (past & Hrun & Hin). eexists. eapply Run_step; [|apply put_step10].
  - do 9 (eapply Run_step; [|apply plain_durable; first [exact put_step9|exact put_step8|exact put_step7
      |exact put_step6|exact put_step5|exact put_step4|exact put_step3|exact put_step2|exact put_step1]]).
    exact Hrun.
  - do 10 (apply elem_of_cons; right). exact Hin.
Qed.

