(* ===== verification/ClientTheorems.v ===== *)
(** * Theorems on client operations: proposals, their answers, and reads. *)

From S2P Require Import Prelude Bytes Storage Codec Log LogSpec LogTheorems StateMachine.
From S2P Require Import SnapshotStore Node Election Replication Apply Client ElectionTheorems.
From S2P Require Import VoteSafety ReplicationTheorems ApplyTheorems.
Import KV.

Section client_theorems.
Context {E K : Type} `{Engine E} `{Engine K} `{Codec Entry} `{Codec (gmap string bytes)}
  `{Codec SnapshotMeta}.
Implicit Types (n : Node E K).

(** A channel that a client waits on has received nothing yet and belongs to one
    client; a write channel has room for one message and never gets a second
    one; a read channel is closed at most once. *)
Record channels_ok n : Prop := {
  ch_waiting i ch : writeWaiters n !! i = Some ch → (ch < nextChan n)%nat ∧ sent n !! ch = None;
  ch_distinct i j ch : writeWaiters n !! i = Some ch → writeWaiters n !! j = Some ch → i = j;
  ch_sent ch msgs : sent n !! ch = Some msgs → length msgs = 1%nat ∧ (ch < nextChan n)%nat;
  ch_reads : NoDup (map done_ (pendingReads n));
  ch_open pr : pr ∈ pendingReads n → (done_ pr < nextChan n)%nat ∧ done_ pr ∉ closed n;
  ch_closed ch : ch ∈ closed n → (ch < nextChan n)%nat
}.

(** The fields that clients see. *)
Definition client_fields n := (writeWaiters n, sent n, pendingReads n, closed n, nextChan n).

Lemma channels_frame n n' : client_fields n' = client_fields n → channels_ok n → channels_ok n'.
Proof.
  unfold client_fields. intros Hf [H1' H2' H3' H4' H5' H6']. injection Hf as Hw Hs Hp Hc Hn.
  split; rewrite ?Hw, ?Hs, ?Hp, ?Hc, ?Hn; eauto.
Qed.

(** ** Sending *)

Lemma send_absent ch msg s : s !! ch = None → send ch msg s = <[ch := [msg]]> s.
Proof. intros Hs. unfold send. by rewrite Hs. Qed.

Lemma send_all_lookup (l : list (Z * chan)) msg s ch :
  NoDup (map snd l) → (∀ iw, iw ∈ l → s !! iw.2 = None) →
  foldl (λ s iw, send iw.2 msg s) s l !! ch =
    if decide (ch ∈ map snd l) then Some [msg] else s !! ch.
Proof.
  revert s. induction l as [|[i w] l IH]; intros s Hnd Hnone; simpl in *; [done|].
  apply NoDup_cons in Hnd as [Hw Hnd]. rewrite send_absent by (apply (Hnone (i, w)); set_solver).
  rewrite IH; [|done|].
  - rewrite lookup_insert. destruct (decide (ch ∈ map snd l)) as [Hin|Hout].
    + by rewrite decide_True by set_solver.
    + destruct (decide (w = ch)) as [->|Hne]; [by rewrite decide_True by set_solver|].
      by rewrite decide_False by set_solver.
  - intros [j v] Hj. simpl. rewrite lookup_insert_ne; [apply (Hnone (j, v)); set_solver|].
    intros ->. apply Hw. apply list_elem_of_In, in_map_iff. exists (j, v).
    split; [done|]. by apply list_elem_of_In.
Qed.

Lemma waiters_NoDup n : channels_ok n → NoDup (map snd (map_to_list (writeWaiters n))).
Proof.
  intros Hok. apply (NoDup_fmap_2_strong snd); [|apply NoDup_map_to_list].
  intros [i w] [j v] Hi%elem_of_map_to_list Hj%elem_of_map_to_list. simpl. intros ->.
  by rewrite (ch_distinct _ Hok i j v).
Qed.

Lemma failStaleWriters_ok n : channels_ok n → channels_ok (failStaleWritersLocked n).
Proof.
  intros Hok. pose proof (waiters_NoDup n Hok) as Hnd. destruct Hok as [Hw Hd Hs Hr Ho Hc].
  split; simpl; try done.
  intros ch msgs Hl. rewrite send_all_lookup in Hl; [|done|].
  - case_decide as Hin; [|by apply Hs]. injection Hl as <-. split; [done|].
    apply list_elem_of_In, in_map_iff in Hin as ([i w] & <- & Hin).
    apply list_elem_of_In, elem_of_map_to_list in Hin. by apply (Hw i).
  - intros [i w] Hi%elem_of_map_to_list. by apply (Hw i).
Qed.

Lemma notifyWriters_ok i n : channels_ok n → channels_ok (notifyWritersLocked i n).
Proof.
  intros Hok. unfold notifyWritersLocked. destruct (writeWaiters n !! i) as [ch|] eqn:Hch; [|done].
  destruct Hok as [Hw Hd Hs Hr Ho Hc]. destruct (Hw _ _ Hch) as [Hlt Hnone].
  split; simpl; try done; rewrite ?(send_absent ch None (sent n)) by done.
  - intros j ch' [Hne Hj]%lookup_delete_Some. destruct (Hw _ _ Hj) as [? ?]. split; [done|].
    rewrite lookup_insert_ne; [done|]. intros ->. apply Hne. by eapply Hd.
  - intros j k ch' [_ Hj]%lookup_delete_Some [_ Hk]%lookup_delete_Some. by eapply Hd.
  - intros ch' msgs [[<- <-]|[Hne Hl]]%lookup_insert_Some; [done|]. by apply Hs.
Qed.

Lemma close_all (l : list pendingRead) (c : gset chan) ch :
  ch ∈ foldl (λ c pr, {[done_ pr]} ∪ c) c l ↔ ch ∈ c ∨ ch ∈ map done_ l.
Proof.
  revert c. induction l as [|pr l IH]; intros c; simpl; [set_solver|]. rewrite IH. set_solver.
Qed.

Lemma map_done_filter (P : pendingRead → Prop) `{∀ x, Decision (P x)} l :
  map done_ (filter P l) `sublist_of` map done_ l.
Proof. apply (fmap_sublist done_), sublist_filter. Qed.

Lemma satisfyReads_ok n : channels_ok n → channels_ok (satisfyPendingReadsLocked n).
Proof.
  intros [Hw Hd Hs Hr Ho Hc]. split; simpl; try done.
  - eapply sublist_NoDup; [exact Hr | apply map_done_filter].
  - intros pr [Hn Hin]%list_elem_of_filter. destruct (Ho _ Hin) as [? Hcl]. split; [done|].
    rewrite close_all. intros [?|Hready]; [done|].
    apply list_elem_of_In, in_map_iff in Hready as (pr' & Heq & Hin').
    apply list_elem_of_In, list_elem_of_filter in Hin' as [Hn' Hin'].
    assert (pr = pr') as ->; [|done].
    apply list_elem_of_lookup in Hin as [a Ha]. apply list_elem_of_lookup in Hin' as [b Hb].
    assert (a = b) as ->; [|congruence].
    apply (NoDup_lookup (map done_ (pendingReads n)) a b (done_ pr)); [done|..].
    + by rewrite (list_lookup_fmap done_), Ha.
    + rewrite <-Heq. by rewrite (list_lookup_fmap done_), Hb.
  - intros ch. rewrite close_all. intros [?|Hready]; [by apply Hc|].
    apply list_elem_of_In, in_map_iff in Hready as (pr & <- & Hin).
    apply list_elem_of_In, list_elem_of_filter in Hin as [_ Hin]. by apply Ho.
Qed.

(** ** Every operation keeps the channels in order *)

Ltac chan_frame :=
  match goal with H : channels_ok ?m |- _ => refine (channels_frame m _ _ H); reflexivity end.

Lemma becomeFollower_locked_channels l a n :
  channels_ok n → channels_ok (becomeFollower_locked l a n).
Proof.
  intros Hok. unfold becomeFollower_locked. destruct (bool_decide (role n = Leader)); [|chan_frame].
  apply failStaleWriters_ok in Hok. chan_frame.
Qed.

Lemma becomeFollower_channels t l a n : channels_ok n → channels_ok (becomeFollower t l a n).
Proof.
  intros Hok%(becomeFollower_locked_channels l a). unfold becomeFollower, becomeFollower_persist.
  case_Z; [chan_frame|done].
Qed.

Lemma HandleRequestVote_channels req n : channels_ok n → channels_ok (HandleRequestVote req n).2.
Proof.
  intros Hok. unfold HandleRequestVote. case_Z; [done|].
  match goal with |- context [let '(cur, n) := ?r in _] => set (r0 := r) end.
  assert (channels_ok r0.2) as Hok0.
  { unfold r0. case_Z; [|done]. simpl. unfold stepDownForVote.
    destruct (bool_decide (role n = Leader)); [|chan_frame].
    apply failStaleWriters_ok in Hok. chan_frame. }
  destruct r0 as [cur m]. simpl in Hok0. destruct (_ && _); [chan_frame|done].
Qed.

Lemma accept_leader_channels req n : channels_ok n → channels_ok (accept_leader req n).2.
Proof.
  intros Hok. unfold accept_leader.
  case_Z; [destruct (bool_decide (role n = Leader))|case_bool_decide]; try chan_frame.
  apply failStaleWriters_ok in Hok. chan_frame.
Qed.

Lemma HandleAppendEntries_channels req n : channels_ok n → channels_ok (HandleAppendEntries req n).2.
Proof.
  intros Hok. unfold HandleAppendEntries. case_Z; [done|].
  pose proof (accept_leader_channels req n Hok) as Hok0.
  destruct (accept_leader req n) as [cur m]. simpl in Hok0.
  destruct (check_prev cur req m); [done|]. destruct (AppendEntries _ _ _) as [[err|] pl]; [chan_frame|].
  unfold follow_commit. repeat case_Z; chan_frame.
Qed.

Lemma HandleInstallSnapshot_channels req n :
  client_fields (HandleInstallSnapshot req n).2 = client_fields n.
Proof.
  unfold HandleInstallSnapshot, install_snapshot. case_Z; [done|].
  destruct (currentTerm (log n) <? is_Term req);
    (destruct (LoadLatest _) as [loaded store]; destruct (covered loaded _); [done|];
     destruct (UnmarshalSnapshot _); [|done]; destruct (Save _ _ _) as [[]]; [done|];
     destruct (Restore _ _ _) as [[]]; [done|];
     destruct (RestoreSnapshotBoundary _ _ _) as [[]]; done).
Qed.

Lemma maybeSnapshot_channels i n : client_fields (maybeSnapshot i n) = client_fields n.
Proof.
  unfold maybeSnapshot. destruct (LoadLatest _) as [loaded store]. destruct (covered _ _); [done|].
  destruct (TermAt _ _); [|done]. destruct (Dump _); [|done]. by destruct (Save _ _ _) as [[]].
Qed.

Lemma apply_one_channels i n : channels_ok n → channels_ok (apply_one i n).2.
Proof.
  intros Hok. unfold apply_one. destruct (Log.Get i (log n)) as [e|]; [|done].
  destruct (apply_entry e (sm n)) as [[] m]; [chan_frame|]. cbn zeta.
  assert (channels_ok (satisfyPendingReadsLocked
    (notifyWritersLocked i (with_lastApplied i (with_sm m n))))) as Hok1.
  { apply satisfyReads_ok, notifyWriters_ok. chan_frame. }
  destruct (_ && _); [|done]. eapply channels_frame; [apply maybeSnapshot_channels | done].
Qed.

Lemma apply_loop_channels fuel a c n : channels_ok n → channels_ok (apply_loop fuel a c n).
Proof.
  revert a n. induction fuel as [|fuel IH]; intros a n Hok; [done|]. simpl. case_Z; [|done].
  pose proof (apply_one_channels (a ⊞ 1) n Hok). destruct (apply_one (a ⊞ 1) n) as [[] m]; auto.
Qed.

Lemma propose_start_channels ty key value id n :
  channels_ok n → channels_ok (propose_start ty key value id n).2.
Proof.
  intros Hok. unfold propose_start. case_bool_decide; [done|].
  destruct Hok as [Hw Hd Hs Hr Ho Hc].
  assert (∀ waiters, (∀ i ch, waiters !! i = Some ch →
      writeWaiters n !! i = Some ch ∨ i = lastIndex (log n) ⊞ 1 ∧ ch = nextChan n) →
    ∀ n', client_fields n' = (waiters, sent n, pendingReads n, closed n, S (nextChan n)) →
    channels_ok n') as Hgen.
  { intros waiters Hwait n' Hf. unfold client_fields in Hf. injection Hf as Hw' Hs' Hp' Hc' Hn'.
    split; rewrite ?Hw', ?Hs', ?Hp', ?Hc', ?Hn'; try done.
    - intros i ch [Hold|[-> ->]]%Hwait; [destruct (Hw _ _ Hold); auto|]. split; [lia|].
      apply eq_None_not_Some. intros [msgs Hm]. destruct (Hs _ _ Hm). lia.
    - intros i j ch [Hi|[-> ->]]%Hwait [Hj|[-> Hch]]%Hwait; [by eapply Hd|..|done].
      + subst. destruct (Hw _ _ Hi). lia.
      + destruct (Hw _ _ Hj). lia.
    - intros ch msgs Hm. destruct (Hs _ _ Hm). auto.
    - intros pr Hpr. destruct (Ho _ Hpr). auto.
    - intros ch Hch. specialize (Hc _ Hch). lia. }
  cbn zeta. destruct (AppendEntries _ _ _) as [[err|] pl]; eapply Hgen; try reflexivity.
  - intros i ch Hi. simpl in Hi. apply lookup_delete_Some in Hi as [_ Hi].
    apply lookup_insert_Some in Hi as [[<- <-]|[_ ?]]; auto.
  - intros i ch Hi. simpl in Hi. apply lookup_insert_Some in Hi as [[<- <-]|[_ ?]]; auto.
Qed.

Lemma remove_pending_sublist ch prs : remove_pending ch prs `sublist_of` prs.
Proof.
  induction prs as [|pr prs IH]; simpl; [done|].
  case_decide; [by apply sublist_cons | by apply sublist_skip].
Qed.

Lemma wait_start_channels i n : channels_ok n → channels_ok (wait_start i n).2.
Proof.
  intros [Hw Hd Hs Hr Ho Hc]. unfold wait_start. case_Z; [done|]. split; simpl; try done.
  - intros j ch Hj. destruct (Hw _ _ Hj). auto.
  - intros ch msgs Hm. destruct (Hs _ _ Hm). auto.
  - rewrite map_app. apply NoDup_app. split_and!; [done| |apply NoDup_singleton].
    intros ch Hch Heq. apply list_elem_of_singleton in Heq. simpl in Heq. subst.
    apply list_elem_of_In, in_map_iff in Hch as (pr & Heq & Hin).
    apply list_elem_of_In in Hin. destruct (Ho _ Hin). lia.
  - intros pr [Hin|Hin]%elem_of_app.
    + destruct (Ho _ Hin). auto.
    + apply list_elem_of_singleton in Hin as ->. simpl. split; [lia|].
      intros Hin. specialize (Hc _ Hin). lia.
  - intros ch Hch. specialize (Hc _ Hch). lia.
Qed.

Lemma node_exec_channels ev n : channels_ok n → channels_ok (node_exec ev n).
Proof.
  intros Hok. destruct ev as [req|req|p t req r|t|p t req r|t r|t| | |i|i|ch]; simpl.
  - by apply HandleAppendEntries_channels.
  - eapply channels_frame; [apply HandleInstallSnapshot_channels|done].
  - unfold replicate_reply. destruct r as [resp|]; [|done].
    destruct (t <? aer_Term resp); [by apply becomeFollower_channels|].
    repeat case_match; (done || chan_frame).
  - unfold install_prepare. destruct (LoadLatest _) as [[[[]|]|] store];
      [destruct (Marshal _)|..]; chan_frame.
  - unfold install_reply. destruct r as [resp|]; [|done].
    destruct (t <? isr_Term resp); [by apply becomeFollower_channels|].
    destruct (leads t n); [chan_frame|done].
  - unfold confirm_reply. destruct r as [resp|]; [|done].
    destruct (t <? aer_Term resp); [by apply becomeFollower_channels|done].
  - unfold tryAdvanceCommitIndex. repeat case_match; (done || chan_frame).
  - by apply apply_loop_channels.
  - by apply propose_start_channels.
  - destruct Hok as [Hw Hd Hs Hr Ho Hc]. split; simpl; try done.
    + intros j ch [_ Hj]%lookup_delete_Some. by eapply Hw.
    + intros j k ch [_ Hj]%lookup_delete_Some [_ Hk]%lookup_delete_Some. by eapply Hd.
  - by apply wait_start_channels.
  - destruct Hok as [Hw Hd Hs Hr Ho Hc]. pose proof (remove_pending_sublist ch (pendingReads n)) as Hsub.
    split; simpl; try done.
    + eapply sublist_NoDup; [exact Hr|]. by apply (fmap_sublist done_).
    + intros pr Hpr. apply Ho. by eapply elem_of_sublist.
Qed.

Lemma NewNode_channels nid ps o e machine store addr n :
  NewNode nid ps o e machine store addr = Ok n → channels_ok n.
Proof.
  intros Hn. unfold NewNode in Hn. destruct (OpenPersistentLog e) as [pl|]; [|done].
  assert (client_fields n = (∅, ∅, [], ∅, 0%nat)) as Hf.
  { destruct (LoadLatest store) as [[[[]|]|] store']; try done.
    - destruct (Restore _ _ _) as [[]]; [done|]. by injection Hn as <-.
    - by injection Hn as <-. }
  unfold client_fields in Hf. injection Hf as Hw Hs Hp Hc Hx.
  split; rewrite ?Hw, ?Hs, ?Hp, ?Hc, ?Hx;
    [intros i ch Hi | intros i j ch Hi | intros ch msgs Hi | constructor | set_solver | set_solver];
    by rewrite lookup_empty in Hi.
Qed.

(** ** Confirming leadership *)

#[local] Instance confirm_event_eq_dec : EqDecision confirm_event.
Proof. solve_decision. Defined.

Definition confirmations (evs : list confirm_event) : Z :=
  Z.of_nat (length (filter (λ ev, ev = CfResult true) evs)).

Lemma confirm_loop_majority evs npeers needed confirmed responded err :
  confirm_loop evs npeers needed confirmed responded err = Some None →
  needed ≤ confirmed + confirmations evs.
Proof.
  unfold confirmations. revert confirmed responded err.
  induction evs as [|ev evs IH]; intros confirmed responded err Hc; simpl in Hc.
  - destruct (_ && _); [done|]. destruct err; [done|]. case_Z; [simpl; lia|done].
  - destruct ((responded <? npeers) && (confirmed <? needed)).
    + destruct ev as [[]|err'|]; apply IH in Hc; rewrite filter_cons;
        [rewrite decide_True by done|rewrite decide_False by done..]; simpl; lia.
    + destruct err; [done|]. case_Z; [|done]. lia.
Qed.

(** Leadership is confirmed only by a majority: when [confirmLeadership]
    returns no error, the node together with the peers that acknowledged its
    term in this round is a majority of the cluster. *)
Theorem confirmLeadership_majority evs n :
  confirmLeadership evs n = Some None →
  (Z.of_nat (length (peers n)) + 1) / 2 + 1 ≤ 1 + confirmations evs.
Proof. apply confirm_loop_majority. Qed.

(** A read waits for the applied index.  [waitForApplied] returns at once
    exactly when its index is applied; otherwise its channel is new and open, and
    after the next applied index the channel is closed exactly when that index
    has reached the read's, the read staying registered until then. *)
Theorem read_waits_for_applied n index applied :
  channels_ok n →
  match wait_start index n with
  | (None, n') => index ≤ lastApplied n ∧ n' = n
  | (Some ch, n') =>
      lastApplied n < index ∧ ch ∉ closed n' ∧
      let n'' := satisfyPendingReadsLocked (with_lastApplied applied n') in
      (ch ∈ closed n'' ↔ index ≤ applied) ∧
      (mkRead index ch ∈ pendingReads n'' ↔ applied < index)
  end.
Proof.
  intros Hok. unfold wait_start. destruct (Z.leb_spec index (lastApplied n)); [done|].
  assert (nextChan n ∉ closed n) as Hopen by (intros Hin%(ch_closed _ Hok); lia).
  split_and!; [done | done | |]; cbn -[filter].
  - rewrite close_all, filter_app, map_app, elem_of_app. split.
    + intros [?|[Hin|Hin]]; [done|..].
      * apply list_elem_of_In, in_map_iff in Hin as (pr & Heq & Hin).
        apply list_elem_of_In, list_elem_of_filter in Hin as [_ Hin].
        destruct (ch_open _ Hok pr Hin). lia.
      * rewrite filter_cons in Hin. case_decide; [done|]. set_solver.
    + intros Hle. right. right. rewrite filter_cons, decide_True by done. set_solver.
  - rewrite list_elem_of_filter, elem_of_app. simpl. split; [lia|]. intros Hlt.
    split; [lia|]. right. set_solver.
Qed.

End client_theorems.

(** ** Proposals *)

Section propose_theorems.
Context {E K : Type} `{EngineSpec E} `{Engine K} `{CodecSpec Entry}.
Implicit Types (n : Node E K).

(** A proposal on a leader whose storage accepts it gets the index after the
    end of the log and the current term, is appended there, and registers a new
    channel under that index; a node that does not lead refuses it without any
    change. *)
Theorem propose_start_spec n al ty key value id :
  log_rep (log n) al → a_last al + 1 < u64_mod - 1 → accepts_for 1 (engine (log n)) →
  let entry := mkEntry (a_last al + 1) (a_term al) ty key value id in
  encodable entry →
  let '(r, n') := propose_start ty key value id n in
  if bool_decide (role n = Leader) then
    r = Ok (entry, nextChan n) ∧ log_rep (log n') (a_append [entry] al) ∧
    writeWaiters n' !! (a_last al + 1) = Some (nextChan n) ∧ nextChan n' = S (nextChan n)
  else r = Err ErrNotLeader ∧ n' = n.
Proof.
  intros Hr Hlt Hacc entry Henc. unfold propose_start.
  destruct (decide (role n = Leader)) as [Hl|Hl].
  2:{ rewrite bool_decide_eq_true_2, bool_decide_eq_false_2 by done. done. }
  rewrite bool_decide_eq_false_2, bool_decide_eq_true_2 by auto. cbn zeta.
  pose proof (a_last_u64 _ (r_wf _ _ Hr)) as Hu. pose proof (wf_base _ (r_wf _ _ Hr)).
  rewrite (r_last _ _ Hr), (r_term _ _ Hr), u64_small by u64_lia. fold entry. simpl log. simpl opts.
  destruct (AppendEntries_accepted_rep 0 entry [] (FsyncOnAppend (opts n)) (log n) al)
    as (pl & Ha & Hrep & _); try done;
    [unfold entry, a_last; simpl; lia| |unfold entry; simpl; lia|by constructor|].
  { intros [|j] e Hj; simplify_eq/=; lia. }
  rewrite Ha. split_and!; try done. apply lookup_insert_eq.
Qed.

(** C38: A new leader serves reads at the commit index it had as a follower.  The
    no-op of its term is appended but nothing waits for it to be committed: the
    read index is the old commit index, below the end of the log, and a read
    that finds it applied is served at once.  An entry that the previous leader
    had committed, and that this node does not yet know to be committed, is
    missing from the answer. *)
Theorem new_leader_reads_old_commit_index el n n' :
  election_end el n = (true, n') → commitIndex n ≤ lastApplied n →
  read_start n' = Ok (commitIndex n, currentTerm (log n)) ∧
  wait_start (commitIndex n) n' = (None, n') ∧ sm n' = sm n ∧ lastApplied n' = lastApplied n.
Proof.
  intros He Hle. unfold election_end in He.
  destruct (_ && _); [|done]. assert (n' = (becomeLeader_start n).2) as -> by (by rewrite He).
  unfold becomeLeader_start, becomeLeader_locked in *.
  case_bool_decide as Hc; [done|]. clear He. unfold appendLocal, read_start, wait_start. cbn zeta.
  destruct (AppendEntries_tv [mkEntry (lastIndex (log n) ⊞ 1) (currentTerm (log n)) EntryNoop "" [] ""]
    (FsyncOnAppend (opts n)) (log n)) as [Ht _].
  cbn -[AppendEntries wait_start]. rewrite Ht. case_Z; [done|lia].
Qed.

End propose_theorems.

Example test_fnv64a : fnv64a (bytes_of "a") = 12638187200555641996.
Proof. vm_compute. reflexivity. Qed.

Lemma lxor_u64 x y : is_u64 x → is_u64 y → is_u64 (Z.lxor x y).
Proof.
  unfold is_u64. change u64_mod with (2 ^ 64). intros Hx Hy.
  assert (0 ≤ Z.lxor x y) as Hn by (apply Z.lxor_nonneg; lia). split; [done|].
  destruct (Z.eq_dec (Z.lxor x y) 0) as [->|Hz]; [lia|]. apply Z.log2_lt_pow2; [lia|].
  pose proof (Z.log2_lxor x y ltac:(lia) ltac:(lia)).
  assert (∀ z, 0 ≤ z < 2 ^ 64 → Z.log2 z < 64) as Hlog.
  { intros z Hz'. destruct (Z.eq_dec z 0) as [->|]; [done|]. apply Z.log2_lt_pow2; lia. }
  pose proof (Hlog x Hx). pose proof (Hlog y Hy). lia.
Qed.

(** The prime of the hash is odd, so that multiplying by it loses nothing. *)
Lemma fnv_mul_inj x y :
  is_u64 x → is_u64 y → u64 (x * 1099511628211) = u64 (y * 1099511628211) → x = y.
Proof.
  intros Hx Hy Heq. rewrite <-(u64_small x Hx), <-(u64_small y Hy).
  assert (∀ z, u64 z = u64 (u64 (z * 1099511628211) * 14886173955864302971)) as Hinv.
  { intros z. unfold u64. rewrite Zmult_mod_idemp_l, <-Z.mul_assoc, <-Zmult_mod_idemp_r.
    change ((1099511628211 * 14886173955864302971) mod u64_mod) with 1. f_equal. lia. }
  by rewrite (Hinv x), (Hinv y), Heq.
Qed.

Lemma lxor_cancel_l x y z : Z.lxor x y = Z.lxor x z → y = z.
Proof.
  intros Heq. apply (f_equal (Z.lxor x)) in Heq.
  by rewrite <-!Z.lxor_assoc, !Z.lxor_nilpotent, !Z.lxor_0_l in Heq.
Qed.

Lemma byte_u64 c : is_u64 (byte_val c).
Proof. pose proof (byte_val_range c). unfold is_u64, u64_mod. lia. Qed.

Lemma fnv_rest_inj s h h' :
  is_u64 h → is_u64 h' → foldl fnv_step h s = foldl fnv_step h' s → h = h'.
Proof.
  revert h h'. induction s as [|c s IH]; intros h h' Hh Hh' Heq; simpl in Heq; [done|].
  apply IH in Heq; [|apply u64_range..].
  apply fnv_mul_inj in Heq; [|apply lxor_u64; by auto using byte_u64..].
  rewrite !(Z.lxor_comm _ (byte_val c)) in Heq. by apply lxor_cancel_l in Heq.
Qed.

Lemma fnv_fold_u64 s h : is_u64 h → is_u64 (foldl fnv_step h s).
Proof. revert h. induction s as [|c s IH]; intros h Hh; simpl; [done|]. apply IH, u64_range. Qed.

(** Seeds of the random sources: nodes created in the same nanosecond whose
    identifiers differ in one character have different seeds. *)
Theorem newRandSource_distinct before after c c' now :
  c ≠ c' →
  newRandSource (string_of (before ++ c :: after)) now ≠
  newRandSource (string_of (before ++ c' :: after)) now.
Proof.
  intros Hne Heq. unfold newRandSource, fnv64a in Heq. rewrite !bytes_of_string_of in Heq.
  rewrite !(Z.lxor_comm _ now) in Heq. apply lxor_cancel_l in Heq.
  rewrite !foldl_app in Heq. simpl in Heq.
  set (h := foldl fnv_step 14695981039346656037 before) in *.
  assert (is_u64 h) as Hh by (apply fnv_fold_u64; unfold is_u64, u64_mod; lia).
  assert (∀ x y, is_u64 x → is_u64 y → i64 x = i64 y → x = y) as Hi64.
  { unfold i64, is_u64, u64_mod, i64_half. intros x y Hx Hy Hxy. Z.div_mod_to_equations. lia. }
  apply Hi64 in Heq; [|apply fnv_fold_u64, u64_range..].
  apply fnv_rest_inj in Heq; [|apply u64_range..].
  apply fnv_mul_inj in Heq; [|apply lxor_u64; by auto using byte_u64..].
  apply lxor_cancel_l, byte_val_inj in Heq. done.
Qed.

(** Election timeouts.  With a random source that draws below its bound, the
    timeout that the timer loop arms lies in the configured interval, maximum
    excluded, whenever the configuration is valid; no operation overflows then. *)
Theorem next_timeout_bounds draw o :
  (∀ span, 0 < span → 0 ≤ draw span < span) →
  is_i64 (ElectionTimeoutMin o) → is_i64 (ElectionTimeoutMax o) →
  ElectionTimeoutMin o < ElectionTimeoutMax o →
  ElectionTimeoutMin o ≤ next_timeout draw o < ElectionTimeoutMax o.
Proof.
  intros Hd Hmin Hmax Hlt. unfold next_timeout, electionTimeout.
  set (span := i64 (ElectionTimeoutMax o - ElectionTimeoutMin o)).
  assert (is_i64 span) as Hs by apply i64_range.
  assert (span ≤ ElectionTimeoutMax o - ElectionTimeoutMin o) as Hle.
  { unfold span, i64, is_i64, i64_half in *. u64_unfold. Z.div_mod_to_equations. lia. }
  unfold is_i64 in *. destruct (Z.leb_spec span 0).
  - rewrite Z.add_0_r, i64_small by done. lia.
  - rewrite Z.sub_0_r, (i64_small span), Z.add_0_l by done. specialize (Hd span ltac:(lia)).
    rewrite (i64_small (draw span)), i64_small by (unfold is_i64, i64_half in *; lia). lia.
Qed.

(** ** Witnesses and concrete executions *)

Import Gob Json.

Lemma confirmLeadership_majority_witness :
  confirmLeadership [CfResult false; CfResult true] n1 = Some None ∧
  2 ≤ 1 + confirmations [CfResult false; CfResult true].
Proof.
  split; [reflexivity|]. apply (confirmLeadership_majority [CfResult false; CfResult true] n1).
  reflexivity.
Defined.

Lemma read_waits_for_applied_witness :
  let n' := (wait_start 2 n1).2 in
  0%nat ∈ closed (satisfyPendingReadsLocked (with_lastApplied 2 n')) ↔ 2 ≤ 2.
Proof.
  assert (channels_ok n1) as Hok.
  { apply (NewNode_channels "n1" ["n2"; "n3"] demo_options mem_new (NewStateMachine mem_new)
      (mkFS ∅ []) ""). vm_compute. reflexivity. }
  pose proof (read_waits_for_applied n1 2 2 Hok) as Hr. cbn [wait_start] in Hr.
  destruct Hr as (_ & _ & Hr & _). exact Hr.
Defined.

Lemma propose_start_spec_witness :
  let '(r, n') := propose_start EntryPut "k" (bytes_of "v") "r1" leader_node in
  r = Ok (mkEntry 4 2 EntryPut "k" (bytes_of "v") "r1", 0%nat) ∧ writeWaiters n' !! 4 = Some 0%nat.
Proof.
  pose proof (propose_start_spec leader_node leader_alog EntryPut "k" (bytes_of "v") "r1") as Hs.
  destruct (propose_start EntryPut "k" (bytes_of "v") "r1" leader_node) as [r n'].
  destruct Hs as (Hr & _ & Hw & _);
    [exact leader_node_rep | by vm_compute | apply mem_accepts_for; vm_compute; reflexivity
    | by vm_compute |].
  split; [exact Hr | exact Hw].
Defined.

Lemma next_timeout_bounds_witness :
  150 ≤ next_timeout (λ span, span / 2) demo_options < 300.
Proof.
  apply (next_timeout_bounds (λ span, span / 2) demo_options);
    [intros span Hs; Z.div_mod_to_equations; lia | vm_compute; split; discriminate || reflexivity
    | vm_compute; split; discriminate || reflexivity | reflexivity].
Defined.

(** n2 stores the entry that n1 has committed with it, does not know that it is
    committed, and wins the election of term 2: its read does not see the key. *)
Definition unaware_node : Node MemEngine MemEngine :=
  node_with "n2" ["n1"; "n3"]
    (entries_of (in_term 2 "n2") [put_entry 1 1 "x" (bytes_of "1")]) Candidate 0 ∅ ∅.

Lemma new_leader_reads_old_commit_index_witness :
  let n' := (election_end (mkElection 2 2 2 2 1 true) unaware_node).2 in
  entry_at (mkALog 0 0 [put_entry 1 1 "x" (bytes_of "1")] 2 "n2") 1 =
    Some (put_entry 1 1 "x" (bytes_of "1")) ∧
  read_start n' = Ok (0, 2) ∧ wait_start 0 n' = (None, n') ∧ KV.Get "x" (sm n') = Ok None.
Proof.
  cbn zeta. split; [reflexivity|].
  destruct (new_leader_reads_old_commit_index (mkElection 2 2 2 2 1 true) unaware_node
    (election_end (mkElection 2 2 2 2 1 true) unaware_node).2) as (Hr & Hw & Hsm & _);
    [vm_compute; reflexivity | vm_compute; discriminate |].
  split; [exact Hr|]. split; [exact Hw|]. rewrite Hsm. reflexivity.
Defined.

(** A leader with a pending proposal at index 4 is deposed by a snapshot of the
    next leader, which then replicates and commits another entry at index 4. *)
Definition lost_1 := propose_start EntryPut "k" (bytes_of "mine") "r1" (with_lastApplied 3 committed_node).
Definition lost_2 := (HandleInstallSnapshot (mkISReq 3 "n3" 3 2 demo_data) lost_1.2).2.
Definition lost_3 :=
  (HandleAppendEntries (mkAEReq 3 "n3" 3 2 [put_entry 4 3 "k" (bytes_of "theirs")] 4 "") lost_2).2.
Definition lost_4 := applyCommitted lost_3.

(** A dropped proposal is reported as committed.  [HandleInstallSnapshot] turns
    a leader into a follower without failing the pending proposals, so the client
    whose entry was at index 4 is answered with success when another leader's
    entry at index 4 is applied; its own value is nowhere. *)
Theorem snapshot_reports_dropped_proposal :
  lost_1.1 = Ok (mkEntry 4 2 EntryPut "k" (bytes_of "mine") "r1", 0%nat) ∧
  role lost_2 = Follower ∧ writeWaiters lost_2 !! 4 = Some 0%nat ∧
  propose_wake OnChannel 4 0%nat lost_4 = Some (None, lost_4) ∧
  KV.Get "k" (sm lost_4) = Ok (Some (bytes_of "theirs")).
Proof. split_and!; vm_compute; reflexivity. Qed.
