(* ===== verification/Threads.v ===== *)
(** * internal/raft: the calls of a node, interleaved.

    Every RPC handler, background loop and client call runs in a goroutine of
    its own.  The node's mutex, and those inside the log, the state machine and
    the snapshot store, make single sections of a call atomic, not the call.
    Here a call is a thread: a program counter that holds the local variables,
    and a step that runs one section, which is what the call does under the
    node's mutex or one call of the log, the state machine or the snapshot
    store.  The reads of the consistency check of [HandleAppendEntries], of an
    election's vote request and of the test that an election is won write
    nothing and are one section each.  A section under the node's mutex is
    one step too: that a goroutine without this mutex calls the log in the middle
    of it is not modelled.  A process is a node with its threads; a schedule says
    which thread runs its next section.

    [calls_alone] shows that a call whose sections run without interruption is
    the definition that the other files reason about. *)

From S2P Require Import Prelude Bytes Storage Codec Log LogSpec StateMachine SnapshotStore.
From S2P Require Import Node Election Replication Apply Client ElectionTheorems VoteSafety.
Import KV.

(** ** The program counters *)

(** HandleAppendEntries; [current] is its local variable currentTerm. *)
Inductive append_pc :=
  | ApEnter
  | ApCheck (current : Z)
  | ApStore (current : Z)
  | ApCommit (current : Z)
  | ApAdvance (current : Z)
  | ApDone (resp : AppendEntriesResponse).

(** HandleInstallSnapshot. *)
Inductive install_pc :=
  | InEnter
  | InPersist
  | InRole (current : Z)
  | InLoad (current : Z)
  | InSave (current : Z)
  | InRestore (current : Z) (snap : Snapshot)
  | InBoundary (current : Z)
  | InFinish (current : Z)
  | InDone (resp : InstallSnapshotResponse).

(** becomeFollower. *)
Inductive follower_pc :=
  | FoEnter
  | FoTerm
  | FoPersist
  | FoDone.

(** becomeLeader up to the broadcast, with the appendLocal of the no-op. *)
Inductive leader_pc :=
  | LeEnter
  | LeTerm
  | LeIndex (term : Z)
  | LeStore (e : Entry)
  | LeDone.

(** startElection with becomeCandidate; the events are those it will receive. *)
Inductive election_pc :=
  | ElTerm (evs : list election_event)
  | ElPersist (newTerm : Z) (evs : list election_event)
  | ElRole (newTerm : Z) (evs : list election_event)
  | ElRequest (term : Z) (evs : list election_event)
  | ElWait (el : election) (evs : list election_event)
  | ElFollower (term : Z) (pc : follower_pc)
  | ElLeader (pc : leader_pc)
  | ElDone.

(** maybeSnapshot. *)
Inductive snapshot_pc :=
  | SnLoad
  | SnTerm
  | SnDump (term : Z)
  | SnSave (term : Z) (dump : Snapshot)
  | SnCompact (term : Z)
  | SnDone.

(** applyCommitted; [applied] and [commit] are its local variables. *)
Inductive apply_pc :=
  | AyEnter
  | AyGet (applied commit : Z)
  | AyWrite (applied commit : Z) (e : Entry)
  | AyPublish (applied commit : Z)
  | AySnapshot (applied commit : Z) (pc : snapshot_pc)
  | AyDone.

(** replicateToPeer up to its RPC. *)
Inductive prepare_pc :=
  | PrEnter
  | PrFirst (nextIdx : Z)
  | PrPrev (nextIdx : Z)
  | PrLast (nextIdx : Z) (prev : option Z)
  | PrRange (nextIdx : Z) (prev : option Z) (last : Z)
  | PrSend (nextIdx : Z) (prev : option Z) (entries : list Entry)
  | PrDone (plan : send_plan).

(** ** The sections *)

Section sections.
Context {E K : Type} `{Engine E} `{Engine K} `{Codec Entry} `{Codec (gmap string bytes)}
  `{Codec SnapshotMeta}.
Implicit Types (n : Node E K).

(** The commit update of [HandleAppendEntries] under the mutex. *)
Definition advance_commit (leaderCommit : Z) n : Node E K :=
  let lastNew := lastIndex (log n) in
  let newCommit := if lastNew <? leaderCommit then lastNew else leaderCommit in
  if commitIndex n <? newCommit
  then signalCommitAdvanced (with_commitIndex newCommit n) else n.

Definition append_step (req : AppendEntriesRequest) (pc : append_pc) n : append_pc * Node E K :=
  match pc with
  | ApEnter =>
      if ae_Term req <? currentTerm (log n)
      then (ApDone (mkAEResp (currentTerm (log n)) false 0 0), n)
      else let '(current, n) := accept_leader req n in (ApCheck current, n)
  | ApCheck current =>
      match check_prev current req n with
      | Some resp => (ApDone resp, n)
      | None => (ApStore current, n)
      end
  | ApStore current =>
      let '(err, pl) := AppendEntries (ae_Entries req) (FsyncOnAppend (opts n)) (log n) in
      (match err with
       | Some _ => ApDone (mkAEResp current false 0 0)
       | None => ApCommit current
       end, with_log pl n)
  | ApCommit current =>
      if CommitIndex n <? ae_LeaderCommit req then (ApAdvance current, n)
      else (ApDone (mkAEResp current true 0 0), n)
  | ApAdvance current =>
      (ApDone (mkAEResp current true 0 0), advance_commit (ae_LeaderCommit req) n)
  | ApDone resp => (ApDone resp, n)
  end.

Definition install_step (req : InstallSnapshotRequest) (pc : install_pc) n :
    install_pc * Node E K :=
  match pc with
  | InEnter =>
      let current := currentTerm (log n) in
      (if is_Term req <? current then InDone (mkISResp current)
       else if current <? is_Term req then InPersist else InRole current, n)
  | InPersist => (InRole (is_Term req), persistTermVote (is_Term req) "" n)
  | InRole current =>
      (InLoad current,
       resetElectionTimer (with_leader (is_LeaderID req) (leaderClientAddr n) (with_role Follower n)))
  | InLoad current =>
      let '(loaded, store) := LoadLatest (snapStore n) in
      (if covered loaded (is_LastIncludedIndex req) then InDone (mkISResp current)
       else InSave current, with_snapStore store n)
  | InSave current =>
      match UnmarshalSnapshot (is_Data req) with
      | Err _ => (InDone (mkISResp current), n)
      | Ok snap =>
          let meta := mkMeta (is_LastIncludedIndex req) (is_LastIncludedTerm req) in
          let '(err, store) := Save snap meta (snapStore n) in
          (match err with
           | Some _ => InDone (mkISResp current)
           | None => InRestore current snap
           end, with_snapStore store n)
      end
  | InRestore current snap =>
      let '(err, machine) := Restore snap (is_LastIncludedIndex req) (sm n) in
      (match err with
       | Some _ => InDone (mkISResp current)
       | None => InBoundary current
       end, with_sm machine n)
  | InBoundary current =>
      let '(err, pl) :=
        RestoreSnapshotBoundary (is_LastIncludedIndex req) (is_LastIncludedTerm req) (log n) in
      (match err with
       | Some _ => InDone (mkISResp current)
       | None => InFinish current
       end, with_log pl n)
  | InFinish current =>
      (InDone (mkISResp current),
       with_commitIndex (is_LastIncludedIndex req)
         (with_lastApplied (is_LastIncludedIndex req) n))
  | InDone resp => (InDone resp, n)
  end.

Definition follower_step (term : Z) (leader addr : string) (pc : follower_pc) n :
    follower_pc * Node E K :=
  match pc with
  | FoEnter => (FoTerm, becomeFollower_locked leader addr n)
  | FoTerm => (if currentTerm (log n) <? term then FoPersist else FoDone, n)
  | FoPersist => (FoDone, persistTermVote term "" n)
  | FoDone => (FoDone, n)
  end.

Definition leader_step (pc : leader_pc) n : leader_pc * Node E K :=
  match pc with
  | LeEnter => let '(won, n) := becomeLeader_locked n in (if won then LeTerm else LeDone, n)
  | LeTerm => (LeIndex (currentTerm (log n)), n)
  | LeIndex term =>
      (LeStore (mkEntry (lastIndex (log n) ⊞ 1) term (Type_ noop_entry) (Key noop_entry)
         (Value noop_entry) (ClientRequestID noop_entry)), n)
  | LeStore e =>
      (LeDone, with_log (AppendEntries [e] (FsyncOnAppend (opts n)) (log n)).2 n)
  | LeDone => (LeDone, n)
  end.

(** What the loop of [startElection] does with one event: the election goes on
    or stops, or the node first becomes a follower of a higher term. *)
Definition wait_step (ev : election_event) (el : election) (evs : list election_event) n :
    election_pc :=
  match ev with
  | EvTimeout | EvStop => ElWait (election_stop el) evs
  | EvReply r =>
      let '(granted, higherTerm) := vote_result (el_term el) r in
      if el_term el <? higherTerm then ElFollower higherTerm FoEnter
      else ElWait (election_step (EvReply r) el n).1 evs
  end.

Definition start_election_step (pc : election_pc) n : election_pc * Node E K :=
  match pc with
  | ElTerm evs => (ElPersist (becomeCandidate_newTerm n) evs, n)
  | ElPersist newTerm evs => (ElRole newTerm evs, becomeCandidate_persist newTerm n)
  | ElRole newTerm evs => (ElRequest newTerm evs, becomeCandidate_role n)
  | ElRequest term evs =>
      let n := resetElectionTimer n in
      let needed := needed_votes (length (peers n)) in
      (if needed =? 1 then ElLeader LeEnter
       else ElWait (mkElection term needed (Z.of_nat (length (peers n))) 1 0 false) evs, n)
  | ElWait el evs =>
      match (if election_running el then evs else []) with
      | ev :: evs => (wait_step ev el evs n, n)
      | [] =>
          (if el_won el && bool_decide (role n = Candidate) && (currentTerm (log n) =? el_term el)
           then ElLeader LeEnter else ElDone, n)
      end
  | ElFollower _ FoDone => (ElDone, n)
  | ElFollower term pc =>
      let '(pc, n) := follower_step term "" "" pc n in (ElFollower term pc, n)
  | ElLeader LeDone => (ElDone, n)
  | ElLeader pc => let '(pc, n) := leader_step pc n in (ElLeader pc, n)
  | ElDone => (ElDone, n)
  end.

Definition snapshot_step (appliedIndex : Z) (pc : snapshot_pc) n : snapshot_pc * Node E K :=
  match pc with
  | SnLoad =>
      let '(loaded, store) := LoadLatest (snapStore n) in
      (if covered loaded appliedIndex then SnDone else SnTerm, with_snapStore store n)
  | SnTerm =>
      (match TermAt appliedIndex (log n) with Some term => SnDump term | None => SnDone end, n)
  | SnDump term =>
      (match Dump (sm n) with Ok dump => SnSave term dump | Err _ => SnDone end, n)
  | SnSave term dump =>
      let '(err, store) := Save dump (mkMeta appliedIndex term) (snapStore n) in
      (match err with Some _ => SnDone | None => SnCompact term end, with_snapStore store n)
  | SnCompact term => (SnDone, with_log (CompactPrefix appliedIndex term (log n)).2 n)
  | SnDone => (SnDone, n)
  end.

(** The head of the apply loop: the next index is read, or the loop ends. *)
Definition apply_head (applied commit : Z) : apply_pc :=
  if applied <? commit then AyGet (applied ⊞ 1) commit else AyDone.

Definition apply_committed_step (pc : apply_pc) n : apply_pc * Node E K :=
  match pc with
  | AyEnter => (apply_head (lastApplied n) (commitIndex n), n)
  | AyGet applied commit =>
      (match Log.Get applied (log n) with
       | Ok e => AyWrite applied commit e
       | Err _ => AyDone
       end, n)
  | AyWrite applied commit e =>
      let '(err, machine) := apply_entry e (sm n) in
      (match err with Some _ => AyDone | None => AyPublish applied commit end, with_sm machine n)
  | AyPublish applied commit =>
      let n := satisfyPendingReadsLocked (notifyWritersLocked applied (with_lastApplied applied n)) in
      let threshold := SnapshotThreshold (opts n) in
      (if (0 <? threshold) && (applied mod threshold =? 0) then AySnapshot applied commit SnLoad
       else apply_head applied commit, n)
  | AySnapshot applied commit SnDone => (apply_head applied commit, n)
  | AySnapshot applied commit pc =>
      let '(pc, n) := snapshot_step applied pc n in (AySnapshot applied commit pc, n)
  | AyDone => (AyDone, n)
  end.

Definition prepare_step (peer : string) (term : Z) (pc : prepare_pc) n : prepare_pc * Node E K :=
  (match pc with
   | PrEnter => if leads term n then PrFirst (next_of peer n) else PrDone SendNothing
   | PrFirst nextIdx =>
       if nextIdx <? FirstIndex (log n) then PrDone SendSnapshot else PrPrev nextIdx
   | PrPrev nextIdx =>
       let prev := TermAt (nextIdx ⊟ 1) (log n) in
       if bool_decide (prev = None) && negb (nextIdx ⊟ 1 =? 0) then PrDone SendSnapshot
       else PrLast nextIdx prev
   | PrLast nextIdx prev =>
       let last := LastIndex (log n) in
       if nextIdx <=? last then PrRange nextIdx prev last else PrSend nextIdx prev []
   | PrRange nextIdx prev last =>
       match Range nextIdx
               (batch_end nextIdx last (u64 (ReplicationBatchMaxEntries (opts n)))) (log n) with
       | Err _ => PrDone SendSnapshot
       | Ok entries => PrSend nextIdx prev entries
       end
   | PrSend nextIdx prev entries =>
       PrDone (SendAppend (mkAEReq term (n_id n) (nextIdx ⊟ 1) (default 0 prev) entries
         (CommitIndex n) (selfClientAddr n)))
   | PrDone plan => PrDone plan
   end, n).

End sections.

(** ** Calls and threads *)

(** What runs on a node: the handlers and client calls, the two background
    loops' work, and the handling of the answers to the RPCs the node sent. *)
Inductive call :=
  | CallNode (ev : node_event)
  | CallVote (req : RequestVoteRequest)
  | CallElection (evs : list election_event)
  | CallPrepare (peer : string) (term : Z).

Inductive call_result :=
  | RetUnit
  | RetAppend (resp : AppendEntriesResponse)
  | RetInstall (resp : InstallSnapshotResponse)
  | RetVote (resp : RequestVoteResponse)
  | RetPropose (r : result (Entry * chan))
  | RetPlan (plan : send_plan).

Inductive thread :=
  | RunAppend (req : AppendEntriesRequest) (pc : append_pc)
  | RunInstall (req : InstallSnapshotRequest) (pc : install_pc)
  | RunFollower (term : Z) (pc : follower_pc)
  | RunElection (pc : election_pc)
  | RunApply (pc : apply_pc)
  | RunPrepare (peer : string) (term : Z) (pc : prepare_pc)
  | RunOnce (c : call)
  | Returned (r : call_result).

(** A node with the calls that run on it. *)
Record process (E K : Type) := mkProcess {
  threads : list thread;
  p_node : Node E K
}.
Arguments mkProcess {E K}.
Arguments threads {E K}.
Arguments p_node {E K}.

Section threads.
Context {E K : Type} `{Engine E} `{Engine K} `{Codec Entry} `{Codec (gmap string bytes)}
  `{Codec SnapshotMeta}.
Implicit Types (n : Node E K).

(** The call without interruption: the definitions of the other files. *)
Definition call_exec (c : call) n : call_result * Node E K :=
  match c with
  | CallNode (NAppend req) => let '(resp, n) := HandleAppendEntries req n in (RetAppend resp, n)
  | CallNode (NInstall req) => let '(resp, n) := HandleInstallSnapshot req n in (RetInstall resp, n)
  | CallNode (NPropose ty key value id) =>
      let '(r, n) := propose_start ty key value id n in (RetPropose r, n)
  | CallNode ev => (RetUnit, node_exec ev n)
  | CallVote req => let '(resp, n) := HandleRequestVote req n in (RetVote resp, n)
  | CallElection evs => (RetUnit, startElection evs n)
  | CallPrepare peer term => (RetPlan (replicate_prepare peer term n), n)
  end.

(** The term that an answer makes the node follow, if it is a higher one. *)
Definition higher_term (term : Z) (r : result Z) : option Z :=
  match r with
  | Ok t => if term <? t then Some t else None
  | Err _ => None
  end.

(** The first program counter of a call; a call whose work is one section, or
    whose answer does not depose the node, is [RunOnce]. *)
Definition start (c : call) : thread :=
  let reply term r := match higher_term term r with
                      | Some t => RunFollower t FoEnter
                      | None => RunOnce c
                      end in
  match c with
  | CallNode (NAppend req) => RunAppend req ApEnter
  | CallNode (NInstall req) => RunInstall req InEnter
  | CallNode NApply => RunApply AyEnter
  | CallNode (NAppendReply _ term _ r) =>
      reply term (match r with Ok resp => Ok (aer_Term resp) | Err err => Err err end)
  | CallNode (NInstallReply _ term _ r) =>
      reply term (match r with Ok resp => Ok (isr_Term resp) | Err err => Err err end)
  | CallNode (NConfirmReply term r) =>
      reply term (match r with Ok resp => Ok (aer_Term resp) | Err err => Err err end)
  | CallElection evs => RunElection (ElTerm evs)
  | CallPrepare peer term => RunPrepare peer term PrEnter
  | _ => RunOnce c
  end.

(** One section of a thread. *)
Definition thread_step (t : thread) n : thread * Node E K :=
  match t with
  | RunAppend _ (ApDone resp) => (Returned (RetAppend resp), n)
  | RunAppend req pc => let '(pc, n) := append_step req pc n in (RunAppend req pc, n)
  | RunInstall _ (InDone resp) => (Returned (RetInstall resp), n)
  | RunInstall req pc => let '(pc, n) := install_step req pc n in (RunInstall req pc, n)
  | RunFollower _ FoDone => (Returned RetUnit, n)
  | RunFollower term pc => let '(pc, n) := follower_step term "" "" pc n in (RunFollower term pc, n)
  | RunElection ElDone => (Returned RetUnit, n)
  | RunElection pc => let '(pc, n) := start_election_step pc n in (RunElection pc, n)
  | RunApply AyDone => (Returned RetUnit, n)
  | RunApply pc => let '(pc, n) := apply_committed_step pc n in (RunApply pc, n)
  | RunPrepare _ _ (PrDone plan) => (Returned (RetPlan plan), n)
  | RunPrepare peer term pc => let '(pc, n) := prepare_step peer term pc n in (RunPrepare peer term pc, n)
  | RunOnce c => let '(r, n) := call_exec c n in (Returned r, n)
  | Returned r => (Returned r, n)
  end.

(** [k] sections of one thread. *)
Fixpoint alone (k : nat) (t : thread) n : thread * Node E K :=
  match k with
  | O => (t, n)
  | S k => let '(t, n) := thread_step t n in alone k t n
  end.

(** ** Processes *)

Definition schedule_one (p : process E K) (i : nat) : process E K :=
  match threads p !! i with
  | Some t => let '(t, n) := thread_step t (p_node p) in mkProcess (<[i := t]> (threads p)) n
  | None => p
  end.

Definition schedule (turns : list nat) (p : process E K) : process E K := foldl schedule_one p turns.

(** The process whose calls have all just been made. *)
Definition launch (cs : list call) n : process E K := mkProcess (map start cs) n.

(** ** A call on its own *)

Lemma alone_add k l t n : alone (k + l) t n = let '(t, n) := alone k t n in alone l t n.
Proof.
  revert t n. induction k as [|k IH]; intros t n; simpl; [done|].
  destruct (thread_step t n) as [t' n']. apply IH.
Qed.

Lemma alone_returned k r n : alone k (Returned r) n = (Returned r, n).
Proof. induction k; simpl; auto. Qed.

Definition completes (t : thread) n (r : call_result) n' : Prop :=
  ∃ k, alone k t n = (Returned r, n').

Lemma completes_refl r n : completes (Returned r) n r n.
Proof. by exists 0%nat. Qed.

Lemma completes_step t n t1 n1 r n' :
  thread_step t n = (t1, n1) → completes t1 n1 r n' → completes t n r n'.
Proof. intros Hs [k Hk]. exists (S k). simpl. by rewrite Hs. Qed.

(** Runs a section whose branches the equations of the context decide, and the
    return of a call. *)
Ltac section :=
  eapply completes_step;
  [cbn; unfold CommitIndex, FirstIndex, LastIndex;
   repeat match goal with Heq : ?a = _ |- context [?a] => rewrite Heq end; cbn; reflexivity|].
Ltac return_ := section; apply completes_refl.

Lemma append_alone req n :
  completes (RunAppend req ApEnter) n (RetAppend (HandleAppendEntries req n).1)
    (HandleAppendEntries req n).2.
Proof.
  unfold HandleAppendEntries. destruct (ae_Term req <? currentTerm (log n)) eqn:Hlt.
  { section. return_. }
  destruct (accept_leader req n) as [current m] eqn:Ha. section.
  destruct (check_prev current req m) eqn:Hc; section; [return_|].
  destruct (AppendEntries _ _ _) as [[err|] pl] eqn:He; section; [return_|].
  unfold follow_commit. cbn [fst snd].
  change (commitIndex (with_log pl m)) with (commitIndex m).
  destruct (commitIndex m <? ae_LeaderCommit req) eqn:Hcm; [section; section|section]; return_.
Qed.

Lemma install_rest_alone req current n :
  completes (RunInstall req (InLoad current)) n (RetInstall (mkISResp current))
    (let '(loaded, store) := LoadLatest (snapStore n) in
     let n := with_snapStore store n in
     if covered loaded (is_LastIncludedIndex req) then n else install_snapshot req n).
Proof.
  destruct (LoadLatest (snapStore n)) as [loaded store] eqn:Hl. cbn zeta.
  destruct (covered loaded (is_LastIncludedIndex req)) eqn:Hcov; section; [return_|].
  unfold install_snapshot. cbn [snapStore sm log with_snapStore with_sm].
  destruct (UnmarshalSnapshot (is_Data req)) as [snap|] eqn:Hu; [|section; return_].
  destruct (Save _ _ _) as [[err|] store'] eqn:Hs; section; [return_|].
  destruct (Restore _ _ _) as [[err|] machine] eqn:Hr; section; [return_|].
  destruct (RestoreSnapshotBoundary _ _ _) as [[err|] pl] eqn:Hb; section; [return_|].
  section. return_.
Qed.

Lemma install_alone req n :
  completes (RunInstall req InEnter) n (RetInstall (HandleInstallSnapshot req n).1)
    (HandleInstallSnapshot req n).2.
Proof.
  unfold HandleInstallSnapshot. destruct (is_Term req <? currentTerm (log n)) eqn:Hlt.
  { section. return_. }
  destruct (currentTerm (log n) <? is_Term req) eqn:Hgt; (section; repeat section).
  all: match goal with |- completes (RunInstall _ (InLoad ?c)) ?m _ _ =>
         pose proof (install_rest_alone req c m) as Hr end.
  all: destruct (LoadLatest _) as [loaded store]; by destruct (covered _ _).
Qed.

Lemma follower_alone term n :
  completes (RunFollower term FoEnter) n RetUnit (becomeFollower term "" "" n).
Proof.
  unfold becomeFollower, becomeFollower_persist. section.
  destruct (currentTerm (log (becomeFollower_locked "" "" n)) <? term) eqn:Hlt; section; [section|];
    return_.
Qed.

Lemma prepare_alone peer term n :
  completes (RunPrepare peer term PrEnter) n (RetPlan (replicate_prepare peer term n)) n.
Proof.
  unfold replicate_prepare. destruct (leads term n) eqn:Hl; section; [|return_]. cbn [negb].
  destruct (next_of peer n <? firstIndex (log n)) eqn:Hf; section; [return_|]. cbn zeta.
  destruct (bool_decide (TermAt (next_of peer n ⊟ 1) (log n) = None) &&
    negb (next_of peer n ⊟ 1 =? 0)) eqn:Hp; section; [return_|].
  destruct (next_of peer n <=? lastIndex (log n)) eqn:Hn; section; [|section; return_].
  destruct (Range _ _ _) as [es|] eqn:Hr; section; [section|]; return_.
Qed.

Lemma leader_alone n :
  completes (RunElection (ElLeader LeEnter)) n RetUnit (becomeLeader_start n).2.
Proof.
  unfold becomeLeader_start. destruct (becomeLeader_locked n) as [[] m] eqn:Hl; section.
  - section. section. section. section. return_.
  - section. return_.
Qed.

(** The end of an election, whether or not events are left. *)
Lemma election_end_alone el evs n :
  evs = [] ∨ election_running el = false →
  completes (RunElection (ElWait el evs)) n RetUnit (election_end el n).2.
Proof.
  intros Hend. assert ((if election_running el then evs else []) = []) as Hevs
    by (destruct Hend as [-> | ->]; by destruct (election_running el)).
  unfold election_end. destruct (el_won el && bool_decide (role n = Candidate) &&
    (currentTerm (log n) =? el_term el)) eqn:Hw; section; [apply leader_alone|return_].
Qed.

Lemma election_stop_end el n :
  election_running el = true → (election_end (election_stop el) n).2 = n.
Proof.
  unfold election_running, election_end. intros [_ Hw]%andb_true_iff. simpl.
  by destruct (el_won el).
Qed.

Lemma election_follower_alone term n :
  completes (RunElection (ElFollower term FoEnter)) n RetUnit (becomeFollower term "" "" n).
Proof.
  unfold becomeFollower, becomeFollower_persist. section.
  destruct (currentTerm (log (becomeFollower_locked "" "" n)) <? term) eqn:Hlt; section;
    [section|]; section; return_.
Qed.

Lemma election_wait_alone evs el n :
  completes (RunElection (ElWait el evs)) n RetUnit
    (let '(el, n) := election_loop evs el n in (election_end el n).2).
Proof.
  revert el. induction evs as [|ev evs IH]; intros el; [apply election_end_alone; auto|].
  destruct (election_running el) eqn:Hr.
  2:{ rewrite election_loop_stopped by done. apply election_end_alone. auto. }
  assert (election_running (election_stop el) = false) as Hstop
    by (unfold election_running; simpl; by rewrite Z.ltb_irrefl).
  eapply completes_step; [cbn; rewrite Hr; reflexivity|]. cbn [election_loop wait_step].
  assert (∀ ev m, (election_step ev el n) = (election_stop el, m) →
    (let '(el', n') := let '(el', n') := election_step ev el n in election_loop evs el' n' in
     (election_end el' n').2) = m) as Hs.
  { intros ev' m ->. rewrite election_loop_stopped by done. by apply election_stop_end. }
  destruct ev as [r| |].
  2,3: rewrite (Hs _ n) by (unfold election_step; by rewrite Hr);
    specialize (IH (election_stop el)); rewrite election_loop_stopped, election_stop_end in IH; done.
  unfold wait_step. destruct (vote_result (el_term el) r) as [granted higher] eqn:Hv.
  destruct (el_term el <? higher) eqn:Hh.
  - rewrite (Hs _ (becomeFollower higher "" "" n)); [apply election_follower_alone|].
    unfold election_step. by rewrite Hr, Hv, Hh.
  - assert ((election_step (EvReply r) el n).2 = n) as Hn.
    { unfold election_step. rewrite Hr, Hv, Hh. by destruct granted. }
    destruct (election_step (EvReply r) el n) as [el' n']. simpl in Hn. subst n'. apply IH.
Qed.

Lemma election_alone evs n :
  completes (RunElection (ElTerm evs)) n RetUnit (startElection evs n).
Proof.
  unfold startElection, election_begin, becomeCandidate. section. section. section.
  match goal with |- context [becomeCandidate_role ?m] => set (m1 := becomeCandidate_role m) end.
  destruct (needed_votes (length (peers (resetElectionTimer m1))) =? 1) eqn:Hneed.
  - eapply completes_step; [cbn in *; rewrite Hneed; reflexivity|]. apply leader_alone.
  - eapply completes_step; [cbn in *; rewrite Hneed; reflexivity|]. apply election_wait_alone.
Qed.

Lemma snapshot_alone applied commit n r n' :
  completes (RunApply (apply_head applied commit)) (maybeSnapshot applied n) r n' →
  completes (RunApply (AySnapshot applied commit SnLoad)) n r n'.
Proof.
  intros Hk. assert (∀ m, m = maybeSnapshot applied n →
    completes (RunApply (AySnapshot applied commit SnDone)) m r n') as Hdone.
  { intros m ->. by section. }
  unfold maybeSnapshot in Hdone. destruct (LoadLatest (snapStore n)) as [loaded store] eqn:Hl.
  cbn zeta in Hdone. destruct (covered loaded applied) eqn:Hc; section; [by apply Hdone|].
  cbn [log sm snapStore with_snapStore] in Hdone.
  destruct (TermAt applied (log n)) as [term|] eqn:Ht; section; [|by apply Hdone].
  destruct (Dump (sm n)) as [dump|] eqn:Hd; section; [|by apply Hdone].
  destruct (Save dump (mkMeta applied term) store) as [[err|] store'] eqn:Hs; section; [by apply Hdone|].
  section. by apply Hdone.
Qed.

Lemma apply_alone fuel applied commit n :
  0 ≤ applied → is_u64 commit → commit - applied ≤ Z.of_nat fuel →
  completes (RunApply (apply_head applied commit)) n RetUnit (apply_loop fuel applied commit n).
Proof.
  intros H0a Hu. revert applied H0a n. induction fuel as [|fuel IH]; intros applied H0a n Hf;
    cbn [apply_loop]; unfold apply_head; destruct (Z.ltb_spec applied commit);
    [lia | return_ | | return_].
  rewrite u64_small by u64_lia. unfold apply_one.
  destruct (Log.Get (applied + 1) (log n)) as [e|] eqn:Hg; section; [|return_].
  destruct (apply_entry e (sm n)) as [[err|] machine] eqn:Ha; section; [return_|]. cbn zeta.
  match goal with |- completes (RunApply (AyPublish ?a ?c)) ?m _ _ =>
    set (m1 := satisfyPendingReadsLocked (notifyWritersLocked a (with_lastApplied a m))) end.
  destruct ((0 <? SnapshotThreshold (opts m1)) &&
    ((applied + 1) mod SnapshotThreshold (opts m1) =? 0)) eqn:Hth.
  - eapply completes_step; [unfold m1 in Hth; cbn in Hth |- *; rewrite Hth; reflexivity|].
    apply snapshot_alone, IH; lia.
  - eapply completes_step; [unfold m1 in Hth; cbn in Hth |- *; rewrite Hth; reflexivity|].
    apply IH; lia.
Qed.

Lemma once_alone c n : completes (RunOnce c) n (call_exec c n).1 (call_exec c n).2.
Proof. exists 1%nat. cbn. by destruct (call_exec c n). Qed.

(** An answer either deposes the node or is handled in one section. *)
Lemma reply_alone c term r n :
  start c = match higher_term term r with Some t => RunFollower t FoEnter | None => RunOnce c end →
  (∀ t, higher_term term r = Some t → call_exec c n = (RetUnit, becomeFollower t "" "" n)) →
  completes (start c) n (call_exec c n).1 (call_exec c n).2.
Proof.
  intros -> Hex. destruct (higher_term term r) as [t|]; [|apply once_alone].
  rewrite (Hex t) by done. apply follower_alone.
Qed.


End threads.
