(* ===== verification/ThreadTheorems.v ===== *)
(** * Theorems on interleaved calls: what every schedule keeps, and what some break. *)

From S2P Require Import Prelude Bytes Storage Codec Log LogSpec LogTheorems StateMachine.
From S2P Require Import SnapshotStore Node Election Replication Apply Client ElectionTheorems.
From S2P Require Import VoteSafety ReplicationTheorems ApplyTheorems ClientTheorems Threads.
Import KV.

(** ** Clients *)

Section client_schedules.
Context {E K : Type} `{Engine E} `{Engine K} `{Codec Entry} `{Codec (gmap string bytes)}
  `{Codec SnapshotMeta}.
Implicit Types (n : Node E K) (p : process E K).

(** Closes a goal on a node whose client fields are those of a hypothesis. *)
Ltac frame_channels := eapply channels_frame; [|eassumption]; reflexivity.

Lemma install_step_channels req pc n : client_fields (install_step req pc n).2 = client_fields n.
Proof.
  destruct pc; simpl; try done.
  - by destruct (LoadLatest _).
  - destruct (UnmarshalSnapshot _); [|done]. by destruct (Save _ _ _).
  - by destruct (Restore _ _ _).
  - by destruct (RestoreSnapshotBoundary _ _ _).
Qed.

Lemma append_step_channels req pc n : channels_ok n → channels_ok (append_step req pc n).2.
Proof.
  intros Hok. destruct pc; simpl; try done.
  - case_Z; [done|]. apply (accept_leader_channels req) in Hok.
    by destruct (accept_leader req n).
  - by destruct (check_prev _ _ _).
  - destruct (AppendEntries _ _ _). by frame_channels.
  - by case_Z.
  - unfold advance_commit. case_Z; by frame_channels.
Qed.

Lemma follower_step_channels t l a pc n : channels_ok n → channels_ok (follower_step t l a pc n).2.
Proof.
  intros Hok. destruct pc; simpl; [by apply becomeFollower_locked_channels|done| |done].
  by frame_channels.
Qed.

Lemma leader_step_channels pc n : client_fields (leader_step pc n).2 = client_fields n.
Proof. destruct pc; simpl; try done. unfold becomeLeader_locked. by case_bool_decide. Qed.

Lemma start_election_step_channels pc n :
  channels_ok n → channels_ok (start_election_step pc n).2.
Proof.
  intros Hok. destruct pc as [| | | |el evs|t pc|pc|]; simpl; try done; try (by frame_channels).
  - by destruct (if _ : bool then _ else _).
  - pose proof (follower_step_channels t "" "" pc n Hok) as Hf. destruct pc; done.
  - pose proof (channels_frame _ _ (leader_step_channels pc n) Hok) as Hf.
    destruct pc; try done. cbn [leader_step] in *. by destruct (becomeLeader_locked n).
Qed.

Lemma snapshot_step_channels i pc n : client_fields (snapshot_step i pc n).2 = client_fields n.
Proof.
  destruct pc; simpl; try done; [by destruct (LoadLatest _)|by destruct (Save _ _ _)].
Qed.

Lemma apply_committed_step_channels pc n :
  channels_ok n → channels_ok (apply_committed_step pc n).2.
Proof.
  intros Hok. destruct pc as [| | |a c|a c pc|]; try done.
  - simpl. destruct (apply_entry _ _). by frame_channels.
  - apply satisfyReads_ok, notifyWriters_ok. by frame_channels.
  - pose proof (channels_frame _ _ (snapshot_step_channels a pc n) Hok) as Hf.
    destruct pc; try done; cbn [apply_committed_step]; by destruct (snapshot_step _ _ _).
Qed.

Lemma startElection_channels evs n : channels_ok n → channels_ok (startElection evs n).
Proof.
  intros Hok. destruct (election_alone evs n) as [k Hk].
  assert (∀ k t (m : Node E K), channels_ok m →
    match t with RunElection _ | Returned _ => True | _ => False end →
    channels_ok (alone k t m).2) as Hrun.
  { clear k Hk Hok. induction k as [|k IH]; intros t m Hok Ht; [done|]. cbn [alone].
    destruct t as [| | |pc| | | |]; try done; [|by apply IH].
    pose proof (start_election_step_channels pc m Hok) as Hs.
    destruct pc; cbn [thread_step]; try (by apply IH);
      destruct (start_election_step _ m) as [pc' m']; by apply IH. }
  specialize (Hrun k (RunElection (ElTerm evs)) n Hok I). by rewrite Hk in Hrun.
Qed.

Lemma call_exec_channels c n : channels_ok n → channels_ok (call_exec c n).2.
Proof.
  intros Hok. destruct c as [ev|req|evs|p t]; [|..|done].
  - pose proof (node_exec_channels ev n Hok) as Hn. destruct ev; simpl in *; try done.
    + by destruct (HandleAppendEntries _ _).
    + by destruct (HandleInstallSnapshot _ _).
    + by destruct (propose_start _ _ _ _ _).
  - pose proof (HandleRequestVote_channels req n Hok). simpl. by destruct (HandleRequestVote _ _).
  - by apply startElection_channels.
Qed.

Lemma thread_step_channels t n : channels_ok n → channels_ok (thread_step t n).2.
Proof.
  intros Hok. destruct t as [req pc|req pc|t pc|pc|pc|p t pc|c|r]; [..|done].
  - pose proof (append_step_channels req pc n Hok).
    destruct pc; cbn [thread_step]; try done; by destruct (append_step _ _ _).
  - pose proof (channels_frame _ _ (install_step_channels req pc n) Hok).
    destruct pc; cbn [thread_step]; try done; by destruct (install_step _ _ _).
  - pose proof (follower_step_channels t "" "" pc n Hok).
    destruct pc; cbn [thread_step]; try done; by destruct (follower_step _ _ _ _ _).
  - pose proof (start_election_step_channels pc n Hok).
    destruct pc; cbn [thread_step]; try done; by destruct (start_election_step _ _).
  - pose proof (apply_committed_step_channels pc n Hok).
    destruct pc; cbn [thread_step]; try done; by destruct (apply_committed_step _ _).
  - by destruct pc.
  - pose proof (call_exec_channels c n Hok). cbn [thread_step]. by destruct (call_exec c n).
Qed.

(** A property of nodes that every section keeps holds after every schedule. *)
Lemma schedule_invariant (P : Node E K → Prop) :
  (∀ t n, P n → P (thread_step t n).2) →
  ∀ turns p, P (p_node p) → P (p_node (schedule turns p)).
Proof.
  intros Hstep turns. induction turns as [|i turns IH]; intros p Hp; [done|]. apply IH.
  unfold schedule_one. destruct (threads p !! i) as [t|]; [|done].
  specialize (Hstep t (p_node p) Hp). by destruct (thread_step t (p_node p)).
Qed.

(** C10: Clients are answered at most once, in every interleaving.  Whatever calls
    run on a node after it was created (messages, elections, proposals, reads,
    runs of the apply loop) and however their critical sections interleave, no
    reply channel of a proposal gets a second message, so the send under the
    mutex never blocks; and no channel that a read still waits on was closed, so
    no channel is closed twice. *)
Theorem clients_answered_once nid ps o e machine store addr n cs turns :
  NewNode nid ps o e machine store addr = Ok n →
  let n' := p_node (schedule turns (launch cs n)) in
  (∀ ch msgs, sent n' !! ch = Some msgs → length msgs = 1%nat) ∧
  (∀ i ch, writeWaiters n' !! i = Some ch → sent n' !! ch = None) ∧
  (∀ pr, pr ∈ pendingReads n' → done_ pr ∉ closed n') ∧ NoDup (map done_ (pendingReads n')).
Proof.
  intros Hn. cbn zeta. pose proof (schedule_invariant channels_ok thread_step_channels turns
    (launch cs n) (NewNode_channels _ _ _ _ _ _ _ _ Hn)) as Hok. split_and!.
  - intros ch msgs Hm. by destruct (ch_sent _ Hok ch msgs Hm).
  - intros i ch Hi. by destruct (ch_waiting _ Hok i ch Hi).
  - intros pr Hpr. by destruct (ch_open _ Hok pr Hpr).
  - apply Hok.
Qed.

End client_schedules.

(** ** Terms and votes on disk *)

(** Calls whose terms are machine integers, and their threads. *)
Definition election_event_ok (ev : election_event) : Prop :=
  match ev with EvReply (Ok resp) => is_u64 (rvr_Term resp) | _ => True end.

Definition call_ok (c : call) : Prop :=
  match c with
  | CallNode ev => event_ok ev
  | CallVote req => is_u64 (rv_Term req)
  | CallElection evs => Forall election_event_ok evs
  | CallPrepare _ _ => True
  end.

Definition thread_ok (t : thread) : Prop :=
  match t with
  | RunAppend req _ => is_u64 (ae_Term req)
  | RunInstall req _ => is_u64 (is_Term req)
  | RunFollower term _ => is_u64 term
  | RunElection pc =>
      match pc with
      | ElTerm evs | ElWait _ evs => Forall election_event_ok evs
      | ElPersist term evs | ElRole term evs | ElRequest term evs =>
          is_u64 term ∧ Forall election_event_ok evs
      | ElFollower term _ => is_u64 term
      | ElLeader _ | ElDone => True
      end
  | RunOnce (CallElection _) => False
  | RunOnce c => call_ok c
  | RunApply _ | RunPrepare _ _ _ | Returned _ => True
  end.

Lemma vote_result_u64 term r granted higher :
  election_event_ok (EvReply r) → vote_result term r = (granted, higher) → is_u64 higher.
Proof.
  intros Hok Hv. destruct r as [resp|]; simpl in *; [case_Z|]; simplify_eq; try done.
  all: unfold is_u64, u64_mod; lia.
Qed.

Lemma start_ok c : call_ok c → thread_ok (start c).
Proof.
  destruct c as [[req|req|p t req r|t|p t req r|t r|t| | |i|i|ch]|req|evs|p t]; try done;
    intros Hok; cbn in *; (destruct r as [resp|]; [|done]); simpl; by case_Z.
Qed.

Section durable_schedules.
Context {E K : Type} `{EngineSpec E} `{Engine K} `{CodecSpec Entry}
  `{Codec (gmap string bytes)} `{Codec SnapshotMeta}.
Implicit Types (n : Node E K).

Lemma persist_durable t v n :
  is_u64 t → tv_durable (log n) → tv_durable (log (persistTermVote t v n)).
Proof. apply SetTermAndVote_durable. Qed.

Lemma append_step_durable req pc n :
  is_u64 (ae_Term req) → tv_durable (log n) → tv_durable (log (append_step req pc n).2).
Proof.
  intros Hu Hd. destruct pc; simpl; try done.
  - case_Z; [done|]. pose proof (accept_leader_safe req n Hu ltac:(lia)) as Hs.
    destruct (accept_leader req n). by apply Hs.
  - by destruct (check_prev _ _ _).
  - pose proof (AppendEntries_keeps (ae_Entries req) (FsyncOnAppend (opts n)) (log n)) as (_ & _ & Hk).
    destruct (AppendEntries _ _ _). by apply Hk.
  - by case_Z.
  - unfold advance_commit. by case_Z.
Qed.

Lemma install_step_durable req pc n :
  is_u64 (is_Term req) → tv_durable (log n) → tv_durable (log (install_step req pc n).2).
Proof.
  intros Hu Hd. destruct pc as [| |c|c|c|c snap|c|c|]; simpl; try done.
  - by apply persist_durable.
  - by destruct (LoadLatest _).
  - destruct (UnmarshalSnapshot _); [|done]. by destruct (Save _ _ _).
  - by destruct (Restore _ _ _).
  - pose proof (RestoreSnapshotBoundary_keeps (is_LastIncludedIndex req) (is_LastIncludedTerm req)
      (log n)) as (_ & _ & Hk). destruct (RestoreSnapshotBoundary _ _ _). by apply Hk.
Qed.

Lemma follower_step_durable t l a pc n :
  is_u64 t → tv_durable (log n) → tv_durable (log (follower_step t l a pc n).2).
Proof.
  intros Hu Hd. destruct pc; simpl; try done; [|by apply persist_durable].
  unfold becomeFollower_locked. by destruct (bool_decide _).
Qed.

Lemma leader_step_durable pc n :
  tv_durable (log n) → tv_durable (log (leader_step pc n).2).
Proof.
  intros Hd. destruct pc as [| |t|e|]; try done.
  - simpl. unfold becomeLeader_locked. by case_bool_decide.
  - by apply (AppendEntries_keeps [e] (FsyncOnAppend (opts n)) (log n)).
Qed.

Lemma snapshot_step_durable i pc n :
  tv_durable (log n) → tv_durable (log (snapshot_step i pc n).2).
Proof.
  intros Hd. destruct pc as [| |t|t dump|t|]; simpl; try done.
  - by destruct (LoadLatest _).
  - by destruct (Save _ _ _).
  - by apply (CompactPrefix_keeps i t (log n)).
Qed.

Lemma start_election_step_durable pc n :
  thread_ok (RunElection pc) → tv_durable (log n) →
  thread_ok (RunElection (start_election_step pc n).1) ∧ tv_durable (log (start_election_step pc n).2).
Proof.
  intros Hok Hd. destruct pc as [evs|t evs|t evs|t evs|el evs|t pc|pc|]; try done.
  - split; [split; [apply u64_range|done]|done].
  - split; [done|]. by apply persist_durable; [apply Hok|].
  - destruct Hok as [_ Hok]. simpl. by case_Z.
  - simpl. destruct (if election_running el then evs else []) as [|ev evs'] eqn:Hevs.
    { by destruct (_ && _). }
    split; [|done]. simpl in Hok. assert (evs = ev :: evs') as -> by (by destruct (election_running el)).
    apply Forall_cons in Hok as [Hev Hok]. destruct ev as [r| |]; [|done..]. simpl.
    destruct (vote_result (el_term el) r) as [granted higher] eqn:Hv. case_Z; [|done].
    by eapply vote_result_u64.
  - pose proof (follower_step_durable t "" "" pc n Hok Hd) as Hf.
    destruct pc; cbn [start_election_step]; try done; by destruct (follower_step _ _ _ _ n).
  - pose proof (leader_step_durable pc n Hd) as Hf.
    destruct pc; cbn [start_election_step]; try done; by destruct (leader_step _ n).
Qed.

Lemma apply_committed_step_durable pc n :
  tv_durable (log n) → tv_durable (log (apply_committed_step pc n).2).
Proof.
  intros Hd. destruct pc as [| |a c e|a c|a c pc|]; try done.
  - simpl. by destruct (apply_entry _ _).
  - destruct (notify_frame a (with_lastApplied a n)) as (Hl & _). simpl in Hl |- *. by rewrite Hl.
  - pose proof (snapshot_step_durable a pc n Hd) as Hf.
    destruct pc; cbn [apply_committed_step]; try done; by destruct (snapshot_step _ _ _).
Qed.

Lemma once_durable c n :
  thread_ok (RunOnce c) → tv_durable (log n) → tv_durable (log (call_exec c n).2).
Proof.
  intros Hok Hd. destruct c as [ev|req|evs|p t]; try done.
  - pose proof (vs_durable _ _ (node_exec_safe ev n Hok) Hd) as Hn. destruct ev; simpl in *; try done.
    + by destruct (HandleAppendEntries _ _).
    + by destruct (HandleInstallSnapshot _ _).
    + by destruct (propose_start _ _ _ _ _).
  - pose proof (vs_durable _ _ (HandleRequestVote_safe req n Hok) Hd) as Hn. simpl.
    by destruct (HandleRequestVote _ _).
Qed.

Lemma thread_step_durable t n :
  thread_ok t → tv_durable (log n) →
  thread_ok (thread_step t n).1 ∧ tv_durable (log (thread_step t n).2).
Proof.
  intros Hok Hd. destruct t as [req pc|req pc|t pc|pc|pc|p t pc|c|r]; [..|done].
  - pose proof (append_step_durable req pc n Hok Hd).
    destruct pc; cbn [thread_step]; try done; by destruct (append_step _ _ _).
  - pose proof (install_step_durable req pc n Hok Hd).
    destruct pc; cbn [thread_step]; try done; by destruct (install_step _ _ _).
  - pose proof (follower_step_durable t "" "" pc n Hok Hd).
    destruct pc; cbn [thread_step]; try done; by destruct (follower_step _ _ _ _ _).
  - pose proof (start_election_step_durable pc n Hok Hd).
    destruct pc; cbn [thread_step]; try done; by destruct (start_election_step _ _).
  - pose proof (apply_committed_step_durable pc n Hd).
    destruct pc; cbn [thread_step]; try done; by destruct (apply_committed_step _ _).
  - by destruct pc.
  - pose proof (once_durable c n Hok Hd). cbn [thread_step]. by destruct (call_exec c n).
Qed.

Lemma schedule_durable turns (p : process E K) :
  Forall thread_ok (threads p) → tv_durable (log (p_node p)) →
  tv_durable (log (p_node (schedule turns p))).
Proof.
  revert p. induction turns as [|i turns IH]; intros p Hok Hd; [done|].
  cbn [schedule foldl]. unfold schedule_one. destruct (threads p !! i) as [t|] eqn:Ht; [|by apply IH].
  destruct (thread_step_durable t (p_node p)) as [Hok' Hd']; [|done|].
  { rewrite Forall_lookup in Hok. by eapply Hok. }
  destruct (thread_step t (p_node p)) as [t' n']. apply IH; [|done]. by apply Forall_insert.
Qed.

(** C11: The term and the vote survive a crash at any point.  However the critical
    sections of any calls interleave, and whatever the storage answers, what a
    restart would read as the term and the vote is what the node holds in
    memory. *)
Theorem votes_durable_in_every_schedule n cs turns :
  tv_durable (log n) → Forall call_ok cs →
  let pl := log (p_node (schedule turns (launch cs n))) in
  load_uint64 (engine pl) keyTerm = Ok (currentTerm pl) ∧
  load_string (engine pl) keyVotedFor = Ok (votedFor pl).
Proof.
  intros Hd Hok. cbn zeta. assert (Forall thread_ok (threads (launch cs n))) as Hts.
  { apply Forall_fmap. eapply Forall_impl; [exact Hok|]. apply start_ok. }
  destruct (schedule_durable turns (launch cs n) Hts Hd) as [Ht Hv Hu Hr].
  split; [by apply load_uint64_rep|by apply load_string_rep].
Qed.

End durable_schedules.

(** ** Witnesses *)

Import Gob Json.


(** An election is won and a proposal made; a leader of a later term deposes the
    node, and a read starts to wait between two sections of its handler. *)
Definition client_calls : list call :=
  [CallElection [EvReply (Ok (mkRVResp 1 true))];
   CallNode (NPropose EntryPut "x" (bytes_of "1") "r1");
   CallNode (NWaitApplied 2);
   CallNode (NAppend (mkAEReq 5 "n3" 0 0 [] 0 ""))].

Definition client_turns : list nat := replicate 12 0%nat ++ [1; 3; 2; 3; 3; 3]%nat.

Lemma clients_answered_once_witness :
  NewNode "n1" ["n2"; "n3"] demo_options mem_new (NewStateMachine mem_new) (mkFS ∅ []) "" = Ok n1 ∧
  let n' := p_node (schedule client_turns (launch client_calls n1)) in
  sent n' !! 0%nat = Some [Some ErrProposalDropped] ∧
  ∀ ch msgs, sent n' !! ch = Some msgs → length msgs = 1%nat.
Proof.
  assert (NewNode "n1" ["n2"; "n3"] demo_options mem_new (NewStateMachine mem_new) (mkFS ∅ []) ""
    = Ok n1) as Hn by (vm_compute; reflexivity).
  split; [exact Hn|]. cbv zeta. split; [vm_compute; reflexivity|].
  exact (proj1 (clients_answered_once "n1" ["n2"; "n3"] demo_options mem_new
    (NewStateMachine mem_new) (mkFS ∅ []) "" n1 client_calls client_turns Hn)).
Defined.

Lemma votes_durable_in_every_schedule_witness :
  let pl := log (p_node (schedule client_turns (launch client_calls n1))) in
  load_uint64 (engine pl) keyTerm = Ok 5 ∧ currentTerm pl = 5.
Proof.
  assert (currentTerm (log (p_node (schedule client_turns (launch client_calls n1)))) = 5) as H5
    by (vm_compute; reflexivity).
  destruct (votes_durable_in_every_schedule n1 client_calls client_turns) as [Ht _];
    [by apply demo_node_durable | repeat constructor; vm_compute; discriminate |].
  cbv zeta in *. rewrite H5 in Ht. split; [exact Ht | exact H5].
Defined.
