(* ===== verification/ApplySchedules.v ===== *)
(** * The apply loop among the other calls of its node.

    [applyCommitted] releases the mutex between the read of an entry, its write
    to the state machine and the publication of the new index.  Here its thread
    is interleaved, in every order, with votes, elections, proposals, reads, the
    preparation of messages and the handling of answers, and still applies
    exactly the committed entries. *)

From S2P Require Import Prelude Bytes Storage Codec Log LogSpec LogTheorems StateMachine.
From S2P Require Import SnapshotStore Node Election Replication Apply Client ElectionTheorems.
From S2P Require Import VoteSafety ReplicationTheorems ApplyTheorems Replicated Threads ThreadTheorems.
Import KV.

#[local] Arguments Z.mul : simpl never.

Section apply_schedules.
Context {E K : Type} `{EngineSpec E} `{EngineSpec K} `{CodecSpec Entry}
  `{CodecSpec (gmap string bytes)} `{CodecSpec SnapshotMeta}.
Implicit Types (n : Node E K) (pl : PersistentLog E) (p : process E K).

(** The entries that the loop applies, those of [al0] in its bounds, with the
    index [c] it stops at and the index [a0] and the map [m] it starts from. *)
Context (al0 : alog) (a0 c : Z) (m : gmap string bytes).

(** ** The log *)

(** The log holds the entries of [al0] after [a] up to [c], and has room for
    [room] more entries. *)
Definition holds (a room : Z) pl : Prop :=
  ∃ al, log_rep pl al ∧ a_base al ≤ a ∧ c ≤ a_last al ∧ a_last al + room < u64_mod - 1 ∧
    (∀ j, a < j ≤ c → entry_at al j = entry_at al0 j) ∧
    Forall (λ e, is_u64 (Term e)) (a_entries al).

Lemma holds_mono a b room room' pl : a ≤ b → room' ≤ room → holds a room pl → holds b room' pl.
Proof.
  intros Hab Hroom (al & Hr & Hb & Hc & Hs & He & Ht). exists al. split_and!; try done; try lia.
  intros j Hj. apply He. lia.
Qed.

Lemma holds_lookup a room pl i :
  holds a room pl → 0 ≤ a < i → i ≤ c → ∃ e, Log.Get i pl = Ok e ∧ entry_at al0 i = Some e.
Proof.
  intros (al & Hr & Hb & Hc & _ & He & _) Hi Hic. pose proof (wf_last _ (r_wf _ _ Hr)).
  destruct (entry_at_is_Some al i) as [_ [e Hat]]; [lia|]. exists e.
  rewrite (Get_rep _ _ _ Hr) by u64_lia. rewrite Hat. split; [done|].
  rewrite <-He by lia. done.
Qed.

Lemma holds_term_vote a room pl t v :
  holds a room pl → is_u64 t →
  holds a room (SetTermAndVote t v pl).2 ∧ lastIndex (SetTermAndVote t v pl).2 = lastIndex pl.
Proof.
  intros (al & Hr & Hb & Hc & Hs & He & Ht) Hu.
  destruct (SetTermAndVote t v pl) as [err pl'] eqn:Hset.
  pose proof (SetTermAndVote_rep _ _ _ _ _ _ Hr Hu Hset) as Hr'. cbn [snd].
  split; [|rewrite (r_last _ _ Hr), (r_last _ _ Hr'); by destruct err].
  exists (after err al (a_set_term_vote t v al)). by destruct err.
Qed.

(** An entry stored past [c], next to the end of the log or over its tail. *)
Lemma holds_append a room pl e sync :
  holds a (room + 1) pl → 0 ≤ room → a ≤ c < Index e → Index e ≤ lastIndex pl + 1 →
  is_u64 (Term e) →
  let pl' := (AppendEntries [e] sync pl).2 in
  holds a room pl' ∧ (lastIndex pl' = lastIndex pl ∨ lastIndex pl' = Index e).
Proof.
  intros (al & Hr & Hb & Hc & Hs & He & Ht) Hroom Hac Hi Hu. cbn zeta. rewrite (r_last _ _ Hr) in *.
  destruct (AppendEntries [e] sync pl) as [err pl'] eqn:Happ. cbn [snd].
  assert (contiguous (Index e - 1) [e]) as Hcont.
  { intros [|j] e' Hj; simplify_eq/=; lia. }
  pose proof (AppendEntries_rep pl al e [] sync err pl' Hr ltac:(lia) Hcont ltac:(simpl; lia) Happ) as Hr'.
  destruct err as [err|]; cbn [after] in Hr'.
  { split; [|left; apply (r_last _ _ Hr')]. exists al. split_and!; (done || lia). }
  assert (a_last (a_append [e] al) = Index e) as Hlast by (rewrite a_last_append by lia; simpl; lia).
  split; [|right; by rewrite (r_last _ _ Hr')].
  exists (a_append [e] al). rewrite Hlast. split_and!; try done; try lia.
  - intros j Hj. rewrite entry_at_append by lia. case_Z; [apply He; lia|lia].
  - simpl. apply Forall_app. split; [by apply Forall_take|]. by constructor.
Qed.

Lemma holds_compact a room pl t :
  holds a room pl → 0 ≤ a ≤ c → is_u64 t →
  holds a room (CompactPrefix a t pl).2 ∧ lastIndex (CompactPrefix a t pl).2 = lastIndex pl.
Proof.
  intros (al & Hr & Hb & Hc & Hs & He & Ht) Hac Hu. pose proof (wf_last _ (r_wf _ _ Hr)).
  destruct (CompactPrefix a t pl) as [err pl'] eqn:Hcp.
  pose proof (CompactPrefix_rep pl al a t err pl' Hr ltac:(lia) Hu Hcp) as Hr'. cbn [snd].
  assert (a_last (after err al (a_compact a t al)) = a_last al) as Hlast.
  { destruct err; [done|]. cbn [after]. unfold a_compact. case_Z; [done|].
    unfold a_last in *. simpl. rewrite length_drop. lia. }
  split; [|by rewrite (r_last _ _ Hr), (r_last _ _ Hr')].
  exists (after err al (a_compact a t al)). rewrite Hlast.
  destruct err; cbn [after]; [by split_and!|]. split_and!; try done.
  - unfold a_compact. case_Z; [done|]. simpl. lia.
  - intros j Hj. rewrite <-He by done. destruct (Z.leb_spec a (a_base al)) as [Hle|Hgt].
    + unfold a_compact. by case_Z; [|lia].
    + rewrite entry_at_compact by done. by case_Z; [lia|].
  - unfold a_compact. case_Z; [done|]. by apply Forall_drop.
Qed.

(** ** The other calls *)

(** The calls that may run besides the loop: all but those of a leader that
    replicates to this node, and a second apply loop. *)
Definition calm_call (cl : call) : Prop :=
  match cl with
  | CallNode (NAppend _) | CallNode (NInstall _) | CallNode NApply => False
  | _ => call_ok cl
  end.

(** The threads of such calls; the no-op of a new leader has an index past [c]
    that leaves no gap at the end [last] of the log. *)
Definition calm (last : Z) (t : thread) : Prop :=
  match t with
  | RunFollower term _ => is_u64 term
  | RunElection pc =>
      match pc with
      | ElTerm evs | ElWait _ evs => Forall election_event_ok evs
      | ElPersist term evs | ElRole term evs | ElRequest term evs =>
          is_u64 term ∧ Forall election_event_ok evs
      | ElFollower term _ => is_u64 term
      | ElLeader (LeIndex term) => is_u64 term
      | ElLeader (LeStore e) => c < Index e ≤ last + 1 ∧ is_u64 (Term e)
      | ElLeader _ | ElDone => True
      end
  | RunPrepare _ _ _ | Returned _ => True
  | RunOnce (CallElection _) => False
  | RunOnce cl => calm_call cl
  | RunAppend _ _ | RunInstall _ _ | RunApply _ => False
  end.

Definition electing (t : thread) : bool :=
  match t with RunElection _ => true | _ => false end.

Lemma calm_mono last last' t : last ≤ last' → calm last t → calm last' t.
Proof.
  intros Hle. destruct t as [| | |[| | | | | |[]|]| | | |]; simpl; try done. intros [Hi Hu]. split; [lia|done].
Qed.

Lemma calm_not_electing last last' t : electing t = false → calm last t → calm last' t.
Proof. by destruct t. Qed.

Lemma calm_start cl last : calm_call cl → calm last (start cl).
Proof.
  destruct cl as [[req|req|p t req r|t|p t req r|t r|t| | |i|i|ch]|req|evs|p t]; try done;
    intros Hok; cbn in *; (destruct r as [resp|]; [|done]); simpl; by case_Z.
Qed.

(** What a section of another call leaves: the data, the entries of the loop,
    and an end of the log that only the no-op of a new leader moves back. *)
Record undisturbed (room : Z) (t : thread) n (t' : thread) n' : Prop := {
  un_data : data_of n' = data_of n;
  un_holds : holds (lastApplied n) room (log n');
  un_calm : calm (lastIndex (log n')) t';
  un_last : lastIndex (log n) ≤ lastIndex (log n') ∨ electing t = true;
  un_electing : electing t' = true → electing t = true
}.

Lemma undisturbed_log room t n t' n' :
  holds (lastApplied n) (room + 1) (log n) → data_of n' = data_of n → log n' = log n →
  calm (lastIndex (log n)) t' → (electing t' = true → electing t = true) →
  undisturbed room t n t' n'.
Proof.
  intros Hh Hd Hl Hc He. split; rewrite ?Hl; auto; [|left; lia].
  eapply holds_mono; [| |exact Hh]; lia.
Qed.

Lemma persist_undisturbed room t n t' term vote n' :
  holds (lastApplied n) (room + 1) (log n) → is_u64 term → data_of n' = data_of n →
  log n' = (SetTermAndVote term vote (log n)).2 → calm (lastIndex (log n)) t' →
  (electing t' = true → electing t = true) → undisturbed room t n t' n'.
Proof.
  intros Hh Hu Hd Hl Hc He. destruct (holds_term_vote _ _ _ term vote Hh Hu) as [Hh' Hlast].
  split; rewrite ?Hl, ?Hlast; auto; [|left; lia]. eapply holds_mono; [| |exact Hh']; lia.
Qed.

Lemma holds_fields a room pl :
  holds a room pl → 0 ≤ room → is_u64 (currentTerm pl) ∧ c ≤ lastIndex pl < u64_mod - 1.
Proof.
  intros (al & Hr & _ & Hc & Hs & _) Hroom.
  rewrite (r_term _ _ Hr), (r_last _ _ Hr). split; [apply (r_wf _ _ Hr)|lia].
Qed.

Lemma follower_step_calm room term l a pc n t t' :
  holds (lastApplied n) (room + 1) (log n) → is_u64 term →
  calm (lastIndex (log n)) t' → (electing t' = true → electing t = true) →
  undisturbed room t n t' (follower_step term l a pc n).2.
Proof.
  intros Hh Hu Hc He. destruct pc; simpl; try (by apply undisturbed_log);
    [|by eapply persist_undisturbed].
  unfold becomeFollower_locked. destruct (bool_decide _); by apply undisturbed_log.
Qed.

Lemma wait_step_calm ev el evs n last :
  election_event_ok ev → Forall election_event_ok evs →
  calm last (RunElection (wait_step ev el evs n)).
Proof.
  intros Hev Hevs. destruct ev as [r| |]; [|done..]. unfold wait_step.
  destruct (vote_result (el_term el) r) as [granted higher] eqn:Hv.
  case_Z; [|done]. simpl. by eapply vote_result_u64.
Qed.

Lemma leader_step_calm room pc n :
  holds (lastApplied n) (room + 1) (log n) → 0 ≤ room → lastApplied n ≤ c →
  calm (lastIndex (log n)) (RunElection (ElLeader pc)) →
  undisturbed room (RunElection (ElLeader pc)) n
    (RunElection (ElLeader (leader_step pc n).1)) (leader_step pc n).2.
Proof.
  intros Hh Hroom Hla Hc. destruct (holds_fields _ _ _ Hh ltac:(lia)) as [Hterm Hlast].
  destruct pc as [| |term|e|]; simpl.
  - unfold becomeLeader_locked. case_bool_decide; by apply undisturbed_log.
  - by apply undisturbed_log.
  - apply undisturbed_log; try done. simpl.
    destruct Hh as (al & Hr & _). pose proof (wf_base _ (r_wf _ _ Hr)).
    assert (0 ≤ lastIndex (log n)) by (rewrite (r_last _ _ Hr); unfold a_last; lia).
    rewrite u64_small by u64_lia. split; [lia|done].
  - destruct Hc as [Hi Hu].
    destruct (holds_append _ _ _ e (FsyncOnAppend (opts n)) Hh Hroom ltac:(lia) ltac:(lia) Hu) as [Hh' _].
    split; try done. by right.
  - by apply undisturbed_log.
Qed.

Lemma start_election_step_calm room pc n :
  holds (lastApplied n) (room + 1) (log n) → 0 ≤ room → lastApplied n ≤ c →
  calm (lastIndex (log n)) (RunElection pc) →
  undisturbed room (RunElection pc) n
    (RunElection (start_election_step pc n).1) (start_election_step pc n).2.
Proof.
  intros Hh Hroom Hla Hc.
  destruct pc as [evs|t evs|t evs|t evs|el evs|t pc|pc|]; try (by apply undisturbed_log).
  - apply undisturbed_log; try done. split; [apply u64_range|done].
  - destruct Hc. by eapply persist_undisturbed.
  - destruct Hc as [_ Hevs]. simpl. case_Z; by apply undisturbed_log.
  - simpl in *. destruct (election_running el).
    2:{ destruct (_ && _); by apply undisturbed_log. }
    destruct evs as [|ev evs]; [destruct (_ && _); by apply undisturbed_log|].
    apply Forall_cons in Hc as [Hev Hevs]. apply undisturbed_log; try done. by apply wait_step_calm.
  - pose proof (follower_step_calm room t "" "" pc n (RunElection (ElFollower t pc))
      (RunElection (ElFollower t (follower_step t "" "" pc n).1)) Hh Hc Hc ltac:(done)) as Hf.
    destruct pc; cbn [start_election_step]; try (by destruct (follower_step _ _ _ _ n)).
    by apply undisturbed_log.
  - pose proof (leader_step_calm room pc n Hh Hroom Hla Hc) as Hf.
    destruct pc; cbn [start_election_step]; try (by destruct (leader_step _ n)).
    by apply undisturbed_log.
Qed.

Lemma becomeFollower_undisturbed room term n t t' :
  holds (lastApplied n) (room + 1) (log n) → is_u64 term → calm (lastIndex (log n)) t' →
  (electing t' = true → electing t = true) → undisturbed room t n t' (becomeFollower term "" "" n).
Proof.
  intros Hh Hu Hc He.
  assert (log (becomeFollower_locked "" "" n) = log n) as Hl
    by (unfold becomeFollower_locked; by destruct (bool_decide _)).
  unfold becomeFollower, becomeFollower_persist. rewrite Hl. case_Z.
  - eapply (persist_undisturbed room t n t' term ""); try done; [|simpl; by rewrite Hl].
    rewrite <-(becomeFollower_data term "" "" n). unfold becomeFollower, becomeFollower_persist.
    rewrite Hl. by case_Z; [|lia].
  - apply undisturbed_log; try done.
    rewrite <-(becomeFollower_data term "" "" n). unfold becomeFollower, becomeFollower_persist.
    rewrite Hl. by case_Z; [lia|].
Qed.

Lemma propose_calm room ty key value id n t r :
  holds (lastApplied n) (room + 1) (log n) → 0 ≤ room → lastApplied n ≤ c →
  undisturbed room t n (Returned r) (propose_start ty key value id n).2.
Proof.
  intros Hh Hroom Hla. pose proof (node_exec_data (NPropose ty key value id) n) as Hd. simpl in Hd.
  destruct (holds_fields _ _ _ Hh ltac:(lia)) as [Hterm Hlast]. unfold propose_start in *.
  case_bool_decide; [by apply undisturbed_log|]. cbn zeta in *.
  set (e := mkEntry (lastIndex (log n) ⊞ 1) (currentTerm (log n)) ty key value id) in *.
  assert (Index e = lastIndex (log n) + 1) as Hi.
  { destruct Hh as (al & Hr & _). pose proof (wf_base _ (r_wf _ _ Hr)).
    simpl. rewrite (r_last _ _ Hr) in *. unfold a_last in *. rewrite u64_small by u64_lia. done. }
  destruct (holds_append _ _ _ e (FsyncOnAppend (opts n)) Hh Hroom ltac:(lia) ltac:(lia) Hterm)
    as [Hh' Hl]. simpl log in *. simpl opts in *.
  destruct (AppendEntries _ _ _) as [[err|] pl]; simpl in *; split; try done; left; simpl; lia.
Qed.

Lemma vote_calm room req n t r :
  holds (lastApplied n) (room + 1) (log n) → is_u64 (rv_Term req) →
  undisturbed room t n (Returned r) (HandleRequestVote req n).2.
Proof.
  intros Hh Hu. pose proof (HandleRequestVote_data req n) as Hd. revert Hd. unfold HandleRequestVote.
  case_Z; [intros _; by apply undisturbed_log|].
  set (r0 := if currentTerm (log n) <? rv_Term req
    then (rv_Term req, stepDownForVote (rv_Term req) n) else (currentTerm (log n), n)).
  assert (r0.1 = rv_Term req ∧ holds (lastApplied n) (room + 1) (log r0.2) ∧
    lastIndex (log r0.2) = lastIndex (log n)) as (Hcur & Hh0 & Hl0).
  { unfold r0. case_Z; cbn [fst snd]; [|split_and!; (done || lia)].
    destruct (stepDownForVote_fields (rv_Term req) n) as (_ & -> & _).
    by destruct (holds_term_vote _ _ _ (rv_Term req) "" Hh Hu). }
  clearbody r0. destruct r0 as [cur n0]. simpl in *. subst cur.
  assert (∀ n', data_of n' = data_of n →
    holds (lastApplied n) (room + 1) (log n') ∧ lastIndex (log n') = lastIndex (log n0) →
    undisturbed room t n (Returned r) n') as Hfin.
  { intros n' Hd' [Hh' Hl']. split; [done| |done|left; lia|done]. eapply holds_mono; [| |exact Hh']; lia. }
  destruct (_ && _); simpl; intros Hd; apply Hfin; try done. simpl.
  destruct (holds_term_vote _ _ _ (rv_Term req) (rv_CandidateID req) Hh0 Hu). by split.
Qed.

Lemma once_calm room cl n :
  holds (lastApplied n) (room + 1) (log n) → 0 ≤ room → lastApplied n ≤ c →
  calm (lastIndex (log n)) (RunOnce cl) →
  undisturbed room (RunOnce cl) n (Returned (call_exec cl n).1) (call_exec cl n).2.
Proof.
  intros Hh Hroom Hla Hc. destruct cl as [ev|req|evs|p t]; [|..|by apply undisturbed_log]; [|..|done].
  2:{ simpl. pose proof (λ r, vote_calm room req n (RunOnce (CallVote req)) r Hh Hc) as Hv.
      by destruct (HandleRequestVote req n). }
  pose proof (node_exec_data ev n) as Hd.
  destruct ev as [req|req|p t req r|t|p t req r|t r|t| |ty key value id|i|i|ch]; try done; simpl in *;
    try (by apply undisturbed_log).
  - revert Hd. unfold replicate_reply. destruct r as [resp|]; [|intros _; by apply undisturbed_log].
    destruct (t <? aer_Term resp); [intros _; by apply becomeFollower_undisturbed|].
    intros Hd. apply undisturbed_log; try done. by repeat case_match.
  - apply undisturbed_log; try done. unfold install_prepare.
    destruct (LoadLatest _) as [[[[]|]|] store]; [destruct (Marshal _)|..]; done.
  - revert Hd. unfold install_reply. destruct r as [resp|]; [|intros _; by apply undisturbed_log].
    destruct (t <? isr_Term resp); [intros _; by apply becomeFollower_undisturbed|].
    intros Hd. apply undisturbed_log; try done. by case_match.
  - unfold confirm_reply. destruct r as [resp|]; [|by apply undisturbed_log].
    destruct (t <? aer_Term resp); [by apply becomeFollower_undisturbed|by apply undisturbed_log].
  - apply undisturbed_log; try done. unfold tryAdvanceCommitIndex. by repeat case_match.
  - pose proof (λ t r, propose_calm room ty key value id n t r Hh Hroom Hla) as Hp.
    destruct (propose_start ty key value id n). apply Hp.
  - apply undisturbed_log; try done. unfold wait_start. by case_Z.
Qed.

Lemma thread_step_calm room t n :
  holds (lastApplied n) (room + 1) (log n) → 0 ≤ room → lastApplied n ≤ c →
  calm (lastIndex (log n)) t →
  undisturbed room t n (thread_step t n).1 (thread_step t n).2.
Proof.
  intros Hh Hroom Hla Hc. destruct t as [| |term pc|pc| |peer term pc|cl|r]; try done.
  - pose proof (follower_step_calm room term "" "" pc n (RunFollower term pc)
      (RunFollower term (follower_step term "" "" pc n).1) Hh Hc Hc ltac:(done)) as Hf.
    destruct pc; cbn [thread_step]; try (by destruct (follower_step _ _ _ _ n)).
    by apply undisturbed_log.
  - pose proof (start_election_step_calm room pc n Hh Hroom Hla Hc) as Hf.
    destruct pc; cbn [thread_step]; try (by destruct (start_election_step _ n)).
    by apply undisturbed_log.
  - destruct pc; by apply undisturbed_log.
  - pose proof (once_calm room cl n Hh Hroom Hla Hc) as Hf. cbn [thread_step].
    by destruct (call_exec cl n).
  - by apply undisturbed_log.
Qed.

(** ** The loop *)

(** The state machine holds the effect of the entries up to [k], and its storage
    accepts the writes of the rest. *)
Definition applied_to (k : Z) (s : StateMachine K) : Prop :=
  a0 ≤ k ≤ c ∧ kv_rep s (a_apply_range al0 a0 k m) ∧ writes_for (Z.to_nat (c - k)) (sm_engine s).

Definition snapshot_pc_ok (pc : snapshot_pc) : Prop :=
  match pc with
  | SnDump term | SnSave term _ | SnCompact term => is_u64 term
  | _ => True
  end.

(** The thread of the loop, with what its local variables mean. *)
Definition applying (t : thread) n : Prop :=
  match t with
  | RunApply (AyGet a c') => c' = c ∧ a = lastApplied n + 1 ∧ a ≤ c ∧ applied_to (a - 1) (sm n)
  | RunApply (AyWrite a c' e) =>
      c' = c ∧ a = lastApplied n + 1 ∧ a ≤ c ∧ applied_to (a - 1) (sm n) ∧ entry_at al0 a = Some e
  | RunApply (AyPublish a c') => c' = c ∧ a = lastApplied n + 1 ∧ applied_to a (sm n)
  | RunApply (AySnapshot a c' pc) =>
      c' = c ∧ a = lastApplied n ∧ applied_to a (sm n) ∧ snapshot_pc_ok pc
  | RunApply AyDone | Returned RetUnit => lastApplied n = c ∧ applied_to c (sm n)
  | _ => False
  end.

Lemma applying_data t n n' : data_of n' = data_of n → applying t n → applying t n'.
Proof. unfold data_of. intros [= Hsm Hla _]. unfold applying. by rewrite Hsm, Hla. Qed.

(** The sections that are left, at most: nine for each entry, of which six are
    those of a snapshot. *)
Definition snapshot_left (pc : snapshot_pc) : Z :=
  match pc with
  | SnLoad => 6 | SnTerm => 5 | SnDump _ => 4 | SnSave _ _ => 3 | SnCompact _ => 2 | SnDone => 1
  end.

Definition sections_left (t : thread) : Z :=
  match t with
  | RunApply AyEnter => 0
  | RunApply (AyGet a c') => 9 * (c' - a) + 10
  | RunApply (AyWrite a c' _) => 9 * (c' - a) + 9
  | RunApply (AyPublish a c') => 9 * (c' - a) + 8
  | RunApply (AySnapshot a c' pc) => 9 * (c' - a) + 1 + snapshot_left pc
  | RunApply AyDone => 1
  | _ => 0
  end.

Lemma sections_left_zero t n : applying t n → sections_left t ≤ 0 → t = Returned RetUnit.
Proof.
  destruct t as [| | | |[]| | |[]]; try done; simpl; unfold applied_to;
    try destruct pc; simpl; intros; destruct_and?; lia.
Qed.

Context (Ha0 : 0 ≤ a0).

Lemma apply_head_ok a n room :
  holds a room (log n) → 0 ≤ room → a = lastApplied n → applied_to a (sm n) →
  applying (RunApply (apply_head a c)) n ∧ sections_left (RunApply (apply_head a c)) = 9 * (c - a) + 1.
Proof.
  intros Hh Hroom Ha Hto. pose proof Hto as (Hrange & _ & _).
  destruct (holds_fields _ _ _ Hh Hroom) as [_ Hlast]. unfold apply_head.
  destruct (Z.ltb_spec a c).
  - rewrite u64_small by u64_lia. split; [|simpl; lia]. simpl. split_and!; try done; try lia.
    by replace (a + 1 - 1) with a by lia.
  - assert (a = c) as -> by lia. split; [done|simpl; lia].
Qed.

Lemma snapshot_step_ok a pc n room :
  holds a room (log n) → a = lastApplied n → 0 ≤ a ≤ c → snapshot_pc_ok pc → pc ≠ SnDone →
  let '(pc', n') := snapshot_step a pc n in
  snapshot_pc_ok pc' ∧ snapshot_left pc' ≤ snapshot_left pc - 1 ∧ sm n' = sm n ∧
  lastApplied n' = lastApplied n ∧ holds a room (log n') ∧ lastIndex (log n') = lastIndex (log n).
Proof.
  intros Hh Ha Hac Hok Hne. destruct pc as [| |term|term dump|term|]; try done; simpl.
  - destruct (LoadLatest _) as [loaded store]. by destruct (covered loaded a).
  - destruct (TermAt a (log n)) as [term|] eqn:Ht; [|done]. split_and!; try done. simpl.
    destruct Hh as (al & Hr & Hb & Hc & _ & _ & Hts). pose proof (wf_last _ (r_wf _ _ Hr)).
    rewrite (TermAt_rep _ _ _ Hr) in Ht by u64_lia. by eapply a_term_at_u64; [apply Hr|..].
  - by destruct (Dump (sm n)).
  - destruct (Save _ _ _) as [[] store]; simpl; split_and!; (done || lia).
  - destruct (holds_compact a room (log n) term Hh ltac:(lia) Hok). by split_and!.
Qed.

(** What a section of the loop leaves. *)
Definition advances (room : Z) (t : thread) n (t' : thread) n' : Prop :=
  applying t' n' ∧ holds (lastApplied n') room (log n') ∧ lastIndex (log n') = lastIndex (log n) ∧
  sections_left t' ≤ sections_left t - 1.

Lemma write_ok a e n room :
  holds (lastApplied n) room (log n) → applying (RunApply (AyWrite a c e)) n →
  let '(t', n') := thread_step (RunApply (AyWrite a c e)) n in
  advances room (RunApply (AyWrite a c e)) n t' n'.
Proof.
  intros Hh (_ & Ha & Hac & (Hr & Hkv & Hw) & He). cbn.
  replace (Z.to_nat (c - (a - 1))) with (S (Z.to_nat (c - a))) in Hw by lia.
  destruct (apply_entry_writes _ e _ Hw) as [Hnone Hw'].
  destruct (apply_entry e (sm n)) as [err machine] eqn:Hap. simpl in Hnone, Hw'. subst err.
  pose proof (apply_entry_rep _ _ _ _ _ Hkv Hap) as Hkv'. cbn [after] in Hkv'.
  rewrite <-(a_apply_range_snoc al0 a0 a e) in Hkv' by (done || lia).
  assert (applied_to a machine) as Hto by (split_and!; (done || lia)).
  unfold advances. simpl. split_and!; (done || lia).
Qed.

Lemma publish_ok a n room :
  holds (lastApplied n) room (log n) → 0 ≤ room → applying (RunApply (AyPublish a c)) n →
  let '(t', n') := thread_step (RunApply (AyPublish a c)) n in
  advances room (RunApply (AyPublish a c)) n t' n'.
Proof.
  intros Hh Hroom (_ & Ha & Hto). cbn [thread_step apply_committed_step]. cbn zeta.
  destruct (notify_fields a n) as (Hl & Hs & Hla & _). cbn zeta in *.
  set (n1 := satisfyPendingReadsLocked _) in *. clearbody n1.
  assert (holds (lastApplied n1) room (log n1)) as Hh1.
  { rewrite Hl, Hla. eapply holds_mono; [| |exact Hh]; lia. }
  rewrite <-Hs in Hto. unfold advances. rewrite <-Hl. destruct (_ && _).
  - simpl. split_and!; (done || lia).
  - rewrite Hla in Hh1. destruct (apply_head_ok a n1 room Hh1 Hroom (eq_sym Hla) Hto) as [Hap ->].
    rewrite Hla. split_and!; try done. simpl. lia.
Qed.

Lemma apply_thread_ok t n room :
  holds (lastApplied n) room (log n) → 0 ≤ room → applying t n → t ≠ Returned RetUnit →
  let '(t', n') := thread_step t n in advances room t n t' n'.
Proof.
  intros Hh Hroom Hap Hne. destruct t as [| | | |pc| | |[]]; try done.
  destruct pc as [|a c'|a c' e|a c'|a c' pc|]; try done.
  - destruct Hap as (-> & Ha & Hac & Hto). pose proof Hto as (Hr & _).
    destruct (holds_lookup _ _ _ a Hh ltac:(lia) Hac) as (e & Hg & He). cbn. rewrite Hg.
    unfold advances. simpl. split_and!; (done || lia).
  - destruct Hap as (-> & Hap). by apply write_ok.
  - destruct Hap as (-> & Hap). by apply publish_ok.
  - destruct Hap as (-> & Ha & Hto & Hok). pose proof Hto as (Hr & _). rewrite <-Ha in Hh.
    assert (pc = SnDone ∨ pc ≠ SnDone) as [->|Hsn] by (destruct pc; auto).
    + cbn [thread_step apply_committed_step].
      destruct (apply_head_ok a n room Hh Hroom Ha Hto) as [Hap Hleft].
      unfold advances. rewrite Hleft. rewrite <-Ha. simpl. split_and!; (done || lia).
    + pose proof (snapshot_step_ok a pc n room Hh Ha ltac:(lia) Hok Hsn) as Hs.
      assert (thread_step (RunApply (AySnapshot a c pc)) n =
        let '(pc', n') := snapshot_step a pc n in (RunApply (AySnapshot a c pc'), n')) as ->.
      { destruct pc; try done; cbn [thread_step apply_committed_step]; by destruct (snapshot_step _ _ _). }
      destruct (snapshot_step a pc n) as [pc' n']. destruct Hs as (Hok' & Hleft & Hsm & Hla & Hh' & Hl).
      unfold advances. simpl. rewrite Hsm, Hla, <-Ha. split_and!; (done || lia).
Qed.

(** ** Schedules *)

(** A process whose first thread is the loop and whose others are calm. *)
Record in_progress (room left : Z) p : Prop := {
  ip_loop : ∃ t, threads p !! 0%nat = Some t ∧ applying t (p_node p) ∧ sections_left t ≤ left;
  ip_holds : holds (lastApplied (p_node p)) room (log (p_node p));
  ip_calm i t : threads p !! S i = Some t → calm (lastIndex (log (p_node p))) t;
  ip_elections i j t u : threads p !! S i = Some t → threads p !! S j = Some u →
    electing t = true → electing u = true → i = j
}.

Lemma applying_bound t n : applying t n → lastApplied n ≤ c.
Proof.
  destruct t as [| | | |[]| | |[]]; try done; simpl; unfold applied_to; intros; destruct_and?; lia.
Qed.

Lemma in_progress_mono room room' left left' p :
  room' ≤ room → left ≤ left' → in_progress room left p → in_progress room' left' p.
Proof.
  intros Hroom Hleft [(t & Ht & Hap & Hl) Hh Hc He]. split; eauto.
  - exists t. split_and!; (done || lia).
  - eapply holds_mono; [| |exact Hh]; lia.
Qed.

Lemma in_progress_other room left p i :
  0 ≤ room → in_progress (room + 1) left p → in_progress room left (schedule_one p (S i)).
Proof.
  intros Hroom Hp. unfold schedule_one. destruct (threads p !! S i) as [t|] eqn:Ht.
  2:{ eapply in_progress_mono; [| |exact Hp]; lia. }
  destruct Hp as [(t0 & Ht0 & Hap & Hl) Hh Hc He].
  pose proof (thread_step_calm room t (p_node p) Hh Hroom (applying_bound _ _ Hap) (Hc _ _ Ht)) as Hun.
  destruct (thread_step t (p_node p)) as [t' n']. destruct Hun as [Hd Hh' Hc' Hlast Hel].
  assert (lastApplied n' = lastApplied (p_node p)) as Hla by (unfold data_of in Hd; by injection Hd).
  split; simpl.
  - exists t0. rewrite list_lookup_insert_ne by done. split_and!; try done. by eapply applying_data.
  - by rewrite Hla.
  - intros j u Hu. destruct (decide (i = j)) as [->|Hne].
    + apply list_lookup_insert_Some in Hu as [(_ & <- & _)|[? _]]; [done|lia].
    + rewrite list_lookup_insert_ne in Hu by congruence.
      destruct Hlast as [Hle|Hte]; [by eapply calm_mono, Hc|].
      eapply calm_not_electing; [|by eapply Hc]. destruct (electing u) eqn:Hue; [|done].
      by destruct (Hne (He _ _ _ _ Ht Hu Hte Hue)).
  - intros j k u v Hu Hv Hue Hve.
    assert (∀ j u, <[S i := t']> (threads p) !! S j = Some u → electing u = true →
      ∃ u', threads p !! S j = Some u' ∧ electing u' = true) as Hback.
    { intros j' u' Hu' He'. destruct (decide (i = j')) as [->|Hne].
      - apply list_lookup_insert_Some in Hu' as [(_ & <- & _)|[? _]]; [eauto|lia].
      - rewrite list_lookup_insert_ne in Hu' by congruence. eauto. }
    destruct (Hback _ _ Hu Hue) as (u' & Hu' & Hue'). destruct (Hback _ _ Hv Hve) as (v' & Hv' & Hve').
    by eapply He.
Qed.

Lemma in_progress_loop room left p :
  0 ≤ room → in_progress (room + 1) left p → in_progress room (Z.max 0 (left - 1)) (schedule_one p 0).
Proof.
  intros Hroom Hp. pose proof Hp as [(t & Ht & Hap & Hl) Hh Hc He]. unfold schedule_one. rewrite Ht.
  assert (t = Returned RetUnit ∨ t ≠ Returned RetUnit) as [->|Hne].
  { destruct t as [| | | | | | |[]]; auto. }
  - simpl. split; simpl; eauto.
    + exists (Returned RetUnit). rewrite list_lookup_insert_eq by (by eapply lookup_lt_Some).
      split_and!; [done..|simpl; lia].
    + eapply holds_mono; [| |exact Hh]; lia.
    + intros i u Hu. rewrite list_lookup_insert_ne in Hu by done. by eapply Hc.
    + intros i j u v Hu Hv. rewrite !list_lookup_insert_ne in Hu, Hv by done. by eapply He.
  - pose proof (apply_thread_ok t (p_node p) (room + 1) Hh ltac:(lia) Hap Hne) as Had.
    destruct (thread_step t (p_node p)) as [t' n']. destruct Had as (Hap' & Hh' & Hlast & Hleft).
    split; simpl.
    + exists t'. rewrite list_lookup_insert_eq by (by eapply lookup_lt_Some). split_and!; (done || lia).
    + eapply holds_mono; [| |exact Hh']; lia.
    + intros i u Hu. rewrite list_lookup_insert_ne in Hu by done. rewrite Hlast. by eapply Hc.
    + intros i j u v Hu Hv. rewrite !list_lookup_insert_ne in Hu, Hv by done. by eapply He.
Qed.

(** The turns of the first thread. *)
Definition turns_of (turns : list nat) : Z := Z.of_nat (length (filter (λ i, i = 0%nat) turns)).

Lemma turns_of_cons i turns :
  turns_of (i :: turns) = turns_of turns + (if decide (i = 0%nat) then 1 else 0).
Proof. unfold turns_of. rewrite filter_cons. case_decide; simpl length; lia. Qed.

Lemma in_progress_schedule turns room left p :
  0 ≤ room → in_progress (room + Z.of_nat (length turns)) left p →
  in_progress room (Z.max 0 (left - turns_of turns)) (schedule turns p).
Proof.
  intros Hroom. revert left p. induction turns as [|i turns IH]; intros left p Hp.
  { eapply in_progress_mono; [| |exact Hp]; simpl; unfold turns_of; simpl; lia. }
  rewrite turns_of_cons. change (schedule (i :: turns) p) with (schedule turns (schedule_one p i)).
  assert (∀ left, in_progress (room + Z.of_nat (length turns)) left (schedule_one p i) →
    in_progress room (Z.max 0 (left - turns_of turns)) (schedule turns (schedule_one p i))) as IHi
    by (intros; by apply IH).
  cbn [length] in Hp. destruct i as [|i]; (eapply in_progress_mono; [reflexivity| |apply IHi]).
  2:{ apply in_progress_loop; [lia|]. eapply in_progress_mono; [|reflexivity|exact Hp]; lia. }
  3:{ apply in_progress_other; [lia|]. eapply in_progress_mono; [|reflexivity|exact Hp]; lia. }
  all: assert (0 ≤ turns_of turns) by apply Nat2Z.is_nonneg; case_decide; (done || lia).
Qed.

End apply_schedules.

(** ** The theorem *)

Section apply_among_calls.
Context {E K : Type} `{EngineSpec E} `{EngineSpec K} `{CodecSpec Entry}
  `{CodecSpec (gmap string bytes)} `{CodecSpec SnapshotMeta}.
Implicit Types (n : Node E K).

(** At most one of the calls is an election, as all elections run in the timer
    loop. *)
Definition one_election (cs : list call) : Prop :=
  ∀ i j c d, cs !! i = Some c → cs !! j = Some d →
    electing (start c) = true → electing (start d) = true → i = j.

(** C9: The apply loop among the other calls of its node.  Once a run of the apply
    loop has read its two bounds, let votes, an election, proposals, reads, the
    preparation of messages and the handling of answers run in any interleaving
    of their critical sections with those of the loop, with any outcome of their
    writes to the log.  When the loop has had nine turns for each entry and one
    more, it has returned, [lastApplied] is its upper bound, and the state machine
    holds the effect of exactly the entries between its bounds, in order. *)
Theorem apply_among_calls n al m cs turns :
  log_rep (log n) al → kv_rep (sm n) m → a_base al ≤ lastApplied n ≤ commitIndex n →
  commitIndex n ≤ a_last al → Forall (λ e, is_u64 (Term e)) (a_entries al) →
  writes_for (Z.to_nat (commitIndex n - lastApplied n)) (sm_engine (sm n)) →
  Forall calm_call cs → one_election cs →
  a_last al + Z.of_nat (length turns) < u64_mod - 1 →
  9 * (commitIndex n - lastApplied n) + 1 ≤ turns_of turns →
  let loop := RunApply (apply_head (lastApplied n) (commitIndex n)) in
  let p := schedule turns (mkProcess (loop :: map start cs) n) in
  threads p !! 0%nat = Some (Returned RetUnit) ∧ lastApplied (p_node p) = commitIndex n ∧
  kv_rep (sm (p_node p)) (a_apply_range al (lastApplied n) (commitIndex n) m).
Proof.
  intros Hr Hk Ha Hc Hts Hw Hcalm Hone Hroom Hturns loop p.
  pose proof (wf_base _ (r_wf _ _ Hr)) as Hb0.
  assert (holds al (commitIndex n) (lastApplied n) (Z.of_nat (length turns)) (log n)) as Hh.
  { exists al. split_and!; (done || lia). }
  assert (applied_to al (lastApplied n) (commitIndex n) m (lastApplied n) (sm n)) as Hto.
  { unfold applied_to, a_apply_range. rewrite upto_nil by lia. split_and!; (done || lia). }
  destruct (apply_head_ok al (lastApplied n) (commitIndex n) m ltac:(lia) (lastApplied n) n
    (Z.of_nat (length turns)) Hh ltac:(lia) eq_refl Hto) as [Hap Hleft].
  assert (in_progress al (lastApplied n) (commitIndex n) m (0 + Z.of_nat (length turns))
    (9 * (commitIndex n - lastApplied n) + 1) (mkProcess (loop :: map start cs) n)) as Hp.
  { split; cbn [threads p_node].
    - exists loop. split_and!; [done|exact Hap|unfold loop; by rewrite Hleft].
    - done.
    - intros i t Ht. apply (list_lookup_fmap_Some start) in Ht as (cl & -> & Hcl).
      rewrite Forall_lookup in Hcalm. eapply calm_start, Hcalm, Hcl.
    - intros i j t u (cl & -> & Hcl)%(list_lookup_fmap_Some start)
        (d & -> & Hd)%(list_lookup_fmap_Some start). exact (Hone i j cl d Hcl Hd). }
  apply in_progress_schedule in Hp as [(t & Ht & Hapt & Hlt) _ _ _]; [|lia..]. fold p in Ht, Hapt.
  assert (t = Returned RetUnit) as -> by (eapply sections_left_zero; [exact Hapt|lia]).
  destruct Hapt as (Hla & _ & Hkv & _). by split_and!.
Qed.

End apply_among_calls.

(** ** Witness *)

Import Gob Json.

(** A leader with three committed entries: the loop, a proposal, a vote request
    of a later term, and an election whose timer fired meanwhile. *)
Definition busy_calls : list call :=
  [CallNode (NPropose EntryPut "x" (bytes_of "1") "r1"); CallVote (mkRVReq 9 "n2" 0 0);
   CallElection [EvReply (Ok (mkRVResp 10 true))]].

Definition busy_turns : list nat := mjoin (replicate 28 [2; 0; 1; 3]%nat).

Lemma apply_among_calls_witness :
  let loop := RunApply (apply_head (lastApplied committed_node) (commitIndex committed_node)) in
  let p := schedule busy_turns (mkProcess (loop :: map start busy_calls) committed_node) in
  threads p !! 0%nat = Some (Returned RetUnit) ∧ lastApplied (p_node p) = 3 ∧
  role (p_node p) = Leader ∧ currentTerm (log (p_node p)) = 10.
Proof.
  destruct (apply_among_calls committed_node leader_alog ∅ busy_calls busy_turns) as (Ht & Hl & _);
    [exact leader_node_rep | exact empty_store_rep | vm_compute; split; discriminate
    | vm_compute; discriminate | exact demo_terms | apply mem_writes_for; reflexivity
    | repeat constructor; by vm_compute | | vm_compute; reflexivity | vm_compute; discriminate |].
  - intros [|[|[|i]]] [|[|[|j]]] c d Hc Hd; try done; simpl in *; simplify_eq/=; done.
  - split; [exact Ht|]. split; [exact Hl|]. split; vm_compute; reflexivity.
Defined.
