(* ===== verification/Races.v ===== *)
(** * Interleavings that break the protocol.

    The theorems on whole clusters treat a call as one step.  Here are schedules
    of the calls of one node, at the grain of its critical sections, that no
    order of whole calls explains: two votes in one term, a leader that was not
    elected, a client entry that is overwritten and acknowledged, an acknowledged
    entry that is cut off, an index that moves backwards, and a message that lets
    two nodes commit different entries. *)

From S2P Require Import Prelude Bytes Storage Codec Log LogSpec LogTheorems StateMachine.
From S2P Require Import SnapshotStore Node Election Replication Apply Client ElectionTheorems.
From S2P Require Import VoteSafety ReplicationTheorems ApplyTheorems ClientTheorems Threads.
Import KV.

Section races.
Context {E K : Type} `{EngineSpec E} `{EngineSpec K} `{CodecSpec Entry}
  `{CodecSpec (gmap string bytes)} `{CodecSpec SnapshotMeta}.
Implicit Types (n : Node E K) (p : process E K).

(** One turn of a schedule. *)
Lemma schedule_turn i turns ts n t t' n' :
  ts !! i = Some t → thread_step t n = (t', n') →
  schedule (i :: turns) (mkProcess ts n) = schedule turns (mkProcess (<[i := t']> ts) n').
Proof. intros Ht Hs. cbn. unfold schedule_one. cbn. by rewrite Ht, Hs. Qed.

(** ** Two votes in one term *)

Lemma vote_higher k n al req :
  log_rep (log n) al → is_u64 (rv_Term req) → a_term al < rv_Term req →
  a_up_to_date req al = true → accepts_for (S (S k)) (engine (log n)) →
  ∃ n', HandleRequestVote req n = (mkRVResp (rv_Term req) true, n') ∧
    log_rep (log n') (a_set_term_vote (rv_Term req) (rv_CandidateID req) al) ∧
    accepts_for k (engine (log n')).
Proof.
  intros Hr Hu Hlt Hup Hacc. unfold HandleRequestVote. rewrite (r_term _ _ Hr).
  case_Z; [lia|]. case_Z; [|lia].
  destruct (stepDownForVote_fields (rv_Term req) n) as (_ & Hlog & _).
  destruct (SetTermAndVote_accepted_rep (S k) (rv_Term req) "" _ _ Hr Hu Hacc) as [Hr1 Hacc1].
  rewrite <-Hlog in Hr1, Hacc1. rewrite (r_vote _ _ Hr1).
  rewrite (candidateLogUpToDateLocked_rep _ _ _ Hr1), a_up_to_date_term, Hup.
  eexists. split; [reflexivity|].
  exact (SetTermAndVote_accepted_rep k _ (rv_CandidateID req) _ _ Hr1 Hu Hacc1).
Qed.

Lemma vote_free n al req :
  log_rep (log n) al → rv_Term req = a_term al → a_vote al = ""%string →
  a_up_to_date req al = true → (HandleRequestVote req n).1 = mkRVResp (rv_Term req) true.
Proof.
  intros Hr Ht Hv Hup. unfold HandleRequestVote. rewrite (r_term _ _ Hr), Ht, !Z.ltb_irrefl.
  by rewrite (r_vote _ _ Hr), Hv, (candidateLogUpToDateLocked_rep _ _ _ Hr), Hup.
Qed.

(** C35: Two votes in one term.  [becomeFollower] compares the terms and writes the
    new term with an empty vote in two calls of the log, without the mutex.  A
    node that learns of term [T] from an answer, grants a vote of that term in
    between, and then finishes the write has forgotten the vote: it grants a
    second candidate its vote in the same term. *)
Theorem follower_votes_twice n al peer term req resp r1 r2 :
  log_rep (log n) al → accepts_for 4 (engine (log n)) →
  term < aer_Term resp → a_term al < aer_Term resp → is_u64 (aer_Term resp) →
  rv_Term r1 = aer_Term resp → rv_Term r2 = aer_Term resp →
  a_up_to_date r1 al = true → a_up_to_date r2 al = true →
  let cs := [CallNode (NAppendReply peer term req (Ok resp)); CallVote r1; CallVote r2] in
  let p := schedule [0; 0; 1; 0; 2]%nat (launch cs n) in
  threads p !! 1%nat = Some (Returned (RetVote (mkRVResp (aer_Term resp) true))) ∧
  threads p !! 2%nat = Some (Returned (RetVote (mkRVResp (aer_Term resp) true))).
Proof.
  intros Hr Hacc Hhi Hlt Hu Ht1 Ht2 Hup1 Hup2. cbn zeta. unfold launch. cbn [map start higher_term].
  rewrite (proj2 (Z.ltb_lt _ _) Hhi).
  assert (log (becomeFollower_locked "" "" n) = log n) as Hl
    by (unfold becomeFollower_locked; by destruct (bool_decide _)).
  set (n0 := becomeFollower_locked "" "" n) in *. rewrite <-Hl in Hr, Hacc.
  erewrite schedule_turn; [|reflexivity|reflexivity]. fold n0.
  erewrite schedule_turn; [|reflexivity|cbn; rewrite (r_term _ _ Hr), (proj2 (Z.ltb_lt _ _) Hlt); reflexivity].
  rewrite <-Ht1 in Hlt, Hu. destruct (vote_higher 2 n0 al r1 Hr Hu Hlt Hup1 Hacc) as (n1 & Hv1 & Hr1 & Hacc1).
  erewrite schedule_turn; [|reflexivity|cbn; rewrite Hv1; reflexivity].
  erewrite schedule_turn; [|reflexivity|reflexivity].
  rewrite Ht1 in *.
  destruct (SetTermAndVote_accepted_rep 1 (aer_Term resp) "" _ _ Hr1 Hu Hacc1) as [Hr2 _].
  pose proof (vote_free (persistTermVote (aer_Term resp) "" n1) _ r2 Hr2 Ht2 eq_refl) as Hv2.
  rewrite !a_up_to_date_term in Hv2. specialize (Hv2 Hup2). rewrite Ht2 in Hv2.
  destruct (HandleRequestVote r2 (persistTermVote (aer_Term resp) "" n1)) as [resp2 n2] eqn:Hh.
  simpl in Hv2. subst resp2.
  erewrite schedule_turn; [|reflexivity|cbn; rewrite Hh; reflexivity]. by split.
Qed.

(** ** Leaders and their no-op *)

Lemma append_one k e sync (pl : PersistentLog E) al :
  log_rep pl al → a_base al < Index e ≤ a_last al + 1 → Index e < u64_mod - 1 → encodable e →
  accepts_for (S k) (engine pl) →
  ∃ pl', AppendEntries [e] sync pl = (None, pl') ∧ log_rep pl' (a_append [e] al) ∧
    accepts_for k (engine pl') ∧ Log.Get (Index e) pl' = Ok e ∧ lastIndex pl' = Index e.
Proof.
  intros Hr Hi Hu Henc Hacc. pose proof (wf_base _ (r_wf _ _ Hr)).
  destruct (AppendEntries_accepted_rep k e [] sync pl al) as (pl' & Ha & Hr' & Hacc'); try done;
    [|simpl; lia|by constructor|].
  { intros [|j] e' Hj; simplify_eq/=; lia. }
  exists pl'. split_and!; try done.
  - rewrite (Get_rep _ _ _ Hr') by u64_lia. rewrite entry_at_append, Z.ltb_irrefl, Z.sub_diag by done. done.
  - rewrite (r_last _ _ Hr'), a_last_append by done. simpl. lia.
Qed.

Lemma becomeLeader_locked_candidate n :
  role n = Candidate →
  ∃ n', becomeLeader_locked n = (true, n') ∧ log n' = log n ∧ role n' = Leader ∧
    leaderID n' = n_id n ∧ opts n' = opts n ∧ client_fields n' = client_fields n.
Proof. intros Hc. unfold becomeLeader_locked. rewrite Hc. by eexists. Qed.

(** C36: A leader that nobody elected.  [HandleInstallSnapshot] writes the term of
    its request before it takes the mutex and changes the role.  A candidate that
    has just won the election of an earlier term becomes leader in between: of the
    term that belongs to the sender of the snapshot, in which it then appends a
    no-op of its own. *)
Theorem unelected_leader n al el req :
  log_rep (log n) al → a_last al + 1 < u64_mod - 1 → accepts_for 2 (engine (log n)) →
  role n = Candidate → el_won el = true → el_term el = a_term al →
  a_term al < is_Term req → is_u64 (is_Term req) →
  let noop := mkEntry (a_last al + 1) (is_Term req) EntryNoop "" [] "" in
  encodable noop →
  let ts := [RunElection (ElWait el []); start (CallNode (NInstall req))] in
  let n' := p_node (schedule [0; 1; 1; 0; 0; 0; 0]%nat (mkProcess ts n)) in
  role n' = Leader ∧ leaderID n' = n_id n ∧ currentTerm (log n') = is_Term req ∧
  Log.Get (a_last al + 1) (log n') = Ok noop.
Proof.
  intros Hr Hroom Hacc Hrole Hwon Hterm Hlt Hu noop Henc. cbn zeta.
  pose proof (wf_base _ (r_wf _ _ Hr)).
  erewrite schedule_turn; [|reflexivity|].
  2:{ cbn. rewrite Hwon, Hrole, (r_term _ _ Hr), Hterm, Z.eqb_refl.
      instantiate (2 := RunElection (ElLeader LeEnter)). by destruct (election_running el). }
  erewrite schedule_turn; [|reflexivity|cbn; rewrite (r_term _ _ Hr); reflexivity].
  destruct (Z.ltb_spec (is_Term req) (a_term al)); [lia|].
  destruct (Z.ltb_spec (a_term al) (is_Term req)); [|lia].
  erewrite schedule_turn; [|reflexivity|reflexivity].
  destruct (SetTermAndVote_accepted_rep 1 (is_Term req) "" _ _ Hr Hu Hacc) as [Hr1 Hacc1].
  set (n1 := persistTermVote (is_Term req) "" n).
  destruct (becomeLeader_locked_candidate n1 Hrole) as (n2 & Hl & Hlog & Hr2 & Hid & Hopts & _).
  change (log n1) with (SetTermAndVote (is_Term req) "" (log n)).2 in Hlog.
  rewrite <-Hlog in Hr1, Hacc1. erewrite schedule_turn; [|reflexivity|cbn; rewrite Hl; reflexivity].
  clear Hlog. erewrite schedule_turn; [|reflexivity|reflexivity].
  erewrite schedule_turn; [|reflexivity|reflexivity].
  rewrite (r_term _ _ Hr1), (r_last _ _ Hr1). change (a_last (a_set_term_vote _ _ al)) with (a_last al).
  rewrite u64_small by (unfold a_last in *; u64_lia). simpl a_term. fold noop.
  destruct (append_one 0 noop (FsyncOnAppend (opts n2)) _ _ Hr1) as (pl & Ha & Hr3 & _ & Hg & _);
    try done; [unfold noop, a_last; simpl; lia|].
  erewrite schedule_turn; [|reflexivity|cbn -[AppendEntries]; fold noop; rewrite Ha; reflexivity].
  cbn [schedule foldl p_node]. simpl. split_and!; try done. by rewrite (r_term _ _ Hr3).
Qed.

(** An acknowledged entry that was never stored.  A new leader reads the end of
    its log and stores its no-op there without the mutex.  A proposal in between
    gets the same index: the no-op replaces its entry, the client still waits on
    that index, and is told that its write succeeded when the no-op is applied. *)
Theorem noop_replaces_proposal n al ty key value id :
  log_rep (log n) al → channels_ok n → a_last al + 1 < u64_mod - 1 →
  accepts_for 2 (engine (log n)) → role n = Candidate →
  let i := a_last al + 1 in
  let entry := mkEntry i (a_term al) ty key value id in
  let noop := mkEntry i (a_term al) EntryNoop "" [] "" in
  encodable entry → encodable noop →
  let ts := [RunElection (ElLeader LeEnter); start (CallNode (NPropose ty key value id))] in
  let p := schedule [0; 0; 0; 1; 0]%nat (mkProcess ts n) in
  threads p !! 1%nat = Some (Returned (RetPropose (Ok (entry, nextChan n)))) ∧
  Log.Get i (log (p_node p)) = Ok noop ∧ lastIndex (log (p_node p)) = i ∧
  let n' := notifyWritersLocked i (p_node p) in
  propose_wake OnChannel i (nextChan n) n' = Some (None, n').
Proof.
  intros Hr Hch Hroom Hacc Hrole i entry noop Henc Henc'. cbn zeta.
  pose proof (wf_base _ (r_wf _ _ Hr)).
  destruct (becomeLeader_locked_candidate n Hrole) as (n1 & Hl & Hlog & Hr1 & _ & _ & Hcl).
  erewrite schedule_turn; [|reflexivity|cbn; rewrite Hl; reflexivity].
  erewrite schedule_turn; [|reflexivity|reflexivity].
  erewrite schedule_turn; [|reflexivity|reflexivity].
  rewrite Hlog, (r_term _ _ Hr), (r_last _ _ Hr), u64_small by (unfold a_last in *; u64_lia). fold i noop.
  unfold client_fields in Hcl. injection Hcl as Hw Hs _ _ Hn.
  destruct (append_one 1 entry (FsyncOnAppend (opts n1)) _ _ Hr) as (pl & Ha & Hr2 & Hacc2 & _ & Hl2);
    try done; [unfold entry, i, a_last; simpl; lia|].
  assert (Hp : ∃ n2, propose_start ty key value id n1 = (Ok (entry, nextChan n), n2) ∧ log n2 = pl ∧
    writeWaiters n2 !! i = Some (nextChan n) ∧ sent n2 = sent n).
  { unfold propose_start. rewrite bool_decide_eq_false_2 by (by rewrite Hr1; auto). cbn zeta.
    rewrite Hlog, (r_term _ _ Hr), (r_last _ _ Hr), u64_small by (unfold a_last in *; u64_lia).
    fold i entry. cbn [log opts with_nextChan with_writers]. rewrite Hlog, Ha, Hn.
    eexists. split; [reflexivity|]. simpl. rewrite lookup_insert_eq. by split_and!. }
  destruct Hp as (n2 & Hp & Hlog2 & Hw2 & Hs2).
  erewrite schedule_turn; [|reflexivity|cbn; rewrite Hp; reflexivity].
  destruct (append_one 0 noop (FsyncOnAppend (opts n2)) _ _ Hr2) as (pl3 & Ha3 & _ & _ & Hg & Hl3);
    try done; [unfold noop; rewrite a_last_append by (unfold entry, i, a_last; simpl; lia);
      unfold entry, i, a_last; simpl; lia|].
  erewrite schedule_turn; [|reflexivity|cbn -[AppendEntries]; fold i noop; rewrite Hlog2, Ha3; reflexivity].
  cbn [schedule foldl p_node threads]. split_and!; try done.
  unfold notifyWritersLocked. simpl. rewrite Hw2. simpl. rewrite Hs2.
  assert (sent n !! nextChan n = None) as Hnone.
  { apply eq_None_not_Some. intros [msgs Hm]. destruct (ch_sent _ Hch _ _ Hm). lia. }
  rewrite send_absent by done. by rewrite lookup_insert_eq.
Qed.

End races.

(** ** Witnesses *)

Import Gob Json.

Lemma follower_votes_twice_witness :
  let cs := [CallNode (NAppendReply "n2" 0 (mkAEReq 0 "n1" 0 0 [] 0 "") (Ok (mkAEResp 1 false 0 0)));
             CallVote (mkRVReq 1 "n2" 0 0); CallVote (mkRVReq 1 "n3" 0 0)] in
  let p := schedule [0; 0; 1; 0; 2]%nat (launch cs n1) in
  threads p !! 1%nat = Some (Returned (RetVote (mkRVResp 1 true))) ∧
  threads p !! 2%nat = Some (Returned (RetVote (mkRVResp 1 true))).
Proof.
  apply (follower_votes_twice n1 fresh_alog "n2" 0 (mkAEReq 0 "n1" 0 0 [] 0 "")
    (mkAEResp 1 false 0 0) (mkRVReq 1 "n2" 0 0) (mkRVReq 1 "n3" 0 0));
    [exact (demo_node_rep "n1" ["n2"; "n3"] mem_new eq_refl eq_refl) | by apply mem_accepts_for
    | reflexivity | reflexivity | vm_compute; split; (discriminate || reflexivity)
    | reflexivity | reflexivity | reflexivity | reflexivity].
Defined.

(** A candidate of term 2 with the entries of a leader, and its election. *)
Definition candidate_node : Node MemEngine MemEngine := with_role Candidate leader_node.

Lemma unelected_leader_witness :
  let ts := [RunElection (ElWait (mkElection 2 2 2 2 1 true) []);
             start (CallNode (NInstall (mkISReq 7 "n3" 9 6 [])))] in
  let n' := p_node (schedule [0; 1; 1; 0; 0; 0; 0]%nat (mkProcess ts candidate_node)) in
  role n' = Leader ∧ currentTerm (log n') = 7 ∧
  Log.Get 4 (log n') = Ok (mkEntry 4 7 EntryNoop "" [] "").
Proof.
  destruct (unelected_leader candidate_node leader_alog (mkElection 2 2 2 2 1 true)
    (mkISReq 7 "n3" 9 6 [])) as (Hr & _ & Ht & Hg);
    [exact leader_node_rep | vm_compute; reflexivity
    | apply mem_accepts_for; vm_compute; reflexivity | reflexivity | reflexivity | reflexivity
    | vm_compute; reflexivity | vm_compute; split; (discriminate || reflexivity)
    | vm_compute; reflexivity |].
  split; [exact Hr|]. split; [exact Ht | exact Hg].
Defined.

Lemma noop_replaces_proposal_witness :
  let ts := [RunElection (ElLeader LeEnter);
             start (CallNode (NPropose EntryPut "k" (bytes_of "v") "r1"))] in
  let p := schedule [0; 0; 0; 1; 0]%nat (mkProcess ts candidate_node) in
  threads p !! 1%nat =
    Some (Returned (RetPropose (Ok (mkEntry 4 2 EntryPut "k" (bytes_of "v") "r1", 0%nat)))) ∧
  Log.Get 4 (log (p_node p)) = Ok (mkEntry 4 2 EntryNoop "" [] "").
Proof.
  assert (channels_ok candidate_node) as Hch.
  { eapply channels_frame; [|eapply (NewNode_channels "n1" ["n2"; "n3"] demo_options mem_new
      (NewStateMachine mem_new) (mkFS ∅ []) ""); vm_compute; reflexivity].
    vm_compute. reflexivity. }
  destruct (noop_replaces_proposal candidate_node leader_alog EntryPut "k" (bytes_of "v") "r1")
    as (Hp & Hg & _);
    [exact leader_node_rep | exact Hch | vm_compute; reflexivity
    | apply mem_accepts_for; vm_compute; reflexivity | reflexivity | vm_compute; reflexivity
    | vm_compute; reflexivity |].
  split; [exact Hp | exact Hg].
Defined.

(** ** An acknowledged entry that is cut off *)

(** A follower holds three entries of the leader n1 of term 1.  A delayed copy of
    the message with the second one is past the consistency check when n2, the
    leader of term 2, replicates a fourth entry. *)
Definition cut_follower : Node MemEngine MemEngine :=
  node_with "n3" ["n1"; "n2"]
    (entries_of (in_term 1 "n1")
       [put_entry 1 1 "a" []; put_entry 2 1 "b" []; put_entry 3 1 "c" []]) Follower 1 ∅ ∅.

Definition cut_calls : list call :=
  [CallNode (NAppend (mkAEReq 1 "n1" 1 1 [put_entry 2 1 "b" []] 1 ""));
   CallNode (NAppend (mkAEReq 2 "n2" 3 1 [put_entry 4 2 "d" []] 1 ""))].

Definition cut_before := schedule ([0; 0] ++ replicate 6 1)%nat (launch cut_calls cut_follower).
Definition cut_after := schedule [0; 0; 0; 0]%nat cut_before.

(** An acknowledged entry is cut off.  [HandleAppendEntries] checks the term and
    the previous entry, and stores the entries, in separate sections.  A delayed
    message of an old leader that has passed the checks is stored after a newer
    leader's message was handled: the follower, in the new term, answers the new
    leader that it holds the fourth entry, and then loses it with the third. *)
Theorem stale_append_cuts_acknowledged :
  threads cut_before !! 1%nat = Some (Returned (RetAppend (mkAEResp 2 true 0 0))) ∧
  Log.Get 4 (log (p_node cut_before)) = Ok (put_entry 4 2 "d" []) ∧
  threads cut_after !! 0%nat = Some (Returned (RetAppend (mkAEResp 1 true 0 0))) ∧
  currentTerm (log (p_node cut_after)) = 2 ∧ lastIndex (log (p_node cut_after)) = 2 ∧
  Log.Get 4 (log (p_node cut_after)) = Err ErrNotFound.
Proof. split_and!; vm_compute; reflexivity. Qed.

(** ** The applied index moves backwards *)

(** A follower with three committed entries has read the first of them when the
    snapshot of a leader at index 5 arrives. *)
Definition late_snapshot : Snapshot := {| Pairs := {["a" := bytes_of "new"]} |}.

Definition late_calls : list call :=
  [CallNode NApply;
   CallNode (NInstall (mkISReq 3 "n3" 5 2
     (match Marshal late_snapshot with Ok b => b | Err _ => [] end)))].

Definition late_process :=
  schedule ([0; 0] ++ replicate 9 1 ++ [0; 0; 0; 0])%nat (launch late_calls replica_node).

Lemma applied_stuck (n : Node MemEngine MemEngine) err :
  is_u64 (lastApplied n + 1) → Log.Get (lastApplied n + 1) (log n) = Err err → applyCommitted n = n.
Proof.
  intros Hu Hg. unfold applyCommitted. destruct (Z.to_nat _); [done|]. simpl.
  rewrite u64_small by done. unfold apply_one. rewrite Hg. by case_Z.
Qed.

(** The applied index moves backwards and stays there.  The apply loop writes
    an entry and publishes its index without looking at what happened since it
    read the entry.  When a snapshot is installed in between, the old entry
    overwrites the restored data, [lastApplied] falls behind the snapshot's index,
    and the next entry to apply is compacted: whatever is committed later, the
    node never applies an entry again. *)
Theorem late_apply_overwrites_snapshot commit :
  let n := p_node late_process in
  lastIncludedIndex (log n) = 5 ∧ commitIndex n = 5 ∧ lastApplied n = 1 ∧
  KV.Get "a" (sm n) = Ok (Some (bytes_of "1")) ∧
  applyCommitted (with_commitIndex commit n) = with_commitIndex commit n.
Proof.
  cbv zeta. split_and!; [vm_compute; reflexivity..|].
  apply (applied_stuck _ (ErrCompacted 2 5)); [vm_compute; split; (discriminate || reflexivity)|].
  vm_compute. reflexivity.
Qed.

(** ** Two nodes commit different entries *)

(** Five new nodes and what they exchange: the node at [i] runs for election among
    [voters], sends the node at [j] what it lacks and takes in the answer, or
    advances its commit index. *)
Definition names : list string := ["n1"; "n2"; "n3"; "n4"; "n5"].

Definition new_nodes : list (Node MemEngine MemEngine) :=
  names ≫= λ id,
    match NewNode id (filter (λ p, p ≠ id) names) demo_options mem_new (NewStateMachine mem_new)
            (mkFS ∅ []) "" with
    | Ok n => [n]
    | Err _ => []
    end.

Definition ask (req : RequestVoteRequest)
    (st : list election_event * list (Node MemEngine MemEngine)) (j : nat) :=
  match st.2 !! j with
  | Some v =>
      let '(resp, v) := HandleRequestVote req v in (st.1 ++ [EvReply (Ok resp)], <[j := v]> st.2)
  | None => st
  end.

Definition elect (i : nat) (voters : list nat) (w : list (Node MemEngine MemEngine)) :=
  match election_begin <$> w !! i with
  | Some (Some (el, req), n) =>
      let '(evs, w) := foldl (ask req) ([], w) voters in
      let '(el, n) := election_loop evs el n in <[i := (election_end el n).2]> w
  | _ => w
  end.

Definition message (i : nat) (peer : string) (w : list (Node MemEngine MemEngine)) : send_plan :=
  match w !! i with
  | Some n => replicate_prepare peer (currentTerm (log n)) n
  | None => SendNothing
  end.

Definition deliver (i j : nat) (w : list (Node MemEngine MemEngine)) :=
  match w !! i, w !! j with
  | Some n, Some f =>
      match message i (n_id f) w with
      | SendAppend req =>
          let '(resp, f') := HandleAppendEntries req f in
          <[i := replicate_reply (n_id f) (currentTerm (log n)) req (Ok resp) n]> (<[j := f']> w)
      | _ => w
      end
  | _, _ => w
  end.

Definition advance (i : nat) (w : list (Node MemEngine MemEngine)) :=
  alter (λ n, tryAdvanceCommitIndex (currentTerm (log n)) n) i w.

(** n1 leads term 1, all nodes hold its no-op, and it has appended a client's
    write that it has sent to nobody. *)
Definition split_1 : list (Node MemEngine MemEngine) :=
  alter (λ n, (propose_start EntryPut "x" (bytes_of "1") "r1" n).2) 0%nat
    (advance 0 (foldl (λ w j, deliver 0 j w) (elect 0 [1; 2] new_nodes) [1; 2; 3; 4]))%nat.

(** n2 is elected by n3 and n4, and commits its own no-op with them. *)
Definition split_2 : list (Node MemEngine MemEngine) :=
  advance 1 (deliver 1 3 (deliver 1 2 (elect 1 [2; 3] split_1)))%nat.

(** n1 prepares a message for n5 and has read its log when the message of n2
    arrives; it reads its commit index after that. *)
Definition split_process : option (process MemEngine MemEngine) :=
  match split_2 !! 0%nat, message 1 "n1" split_2 with
  | Some n, SendAppend req =>
      Some (schedule (replicate 5 0 ++ replicate 6 1 ++ [0; 0])%nat
        (launch [CallPrepare "n5" 1; CallNode (NAppend req)] n))
  | _, _ => None
  end.

Definition split_message : option AppendEntriesRequest :=
  match split_process with
  | Some p =>
      match threads p !! 0%nat with
      | Some (Returned (RetPlan (SendAppend req))) => Some req
      | _ => None
      end
  | None => None
  end.

(** The new leader n2, and n5 after it has handled the message of n1. *)
Definition split_leader : option (Node MemEngine MemEngine) := split_2 !! 1%nat.

Definition split_victim : option (Node MemEngine MemEngine) :=
  req ← split_message; n ← split_2 !! 4%nat; Some (HandleAppendEntries req n).2.

