(* ===== verification/Durability.v ===== *)
(** * An acknowledged write is not lost.

    A proposal that returns without error is committed: from then on every leader
    has its entry, and every node that commits its index commits this entry.  Between
    the proposal and its answer the node must neither restart nor install a
    snapshot; [snapshot_reports_dropped_proposal] shows that the answer is wrong
    otherwise. *)

From S2P Require Import Prelude Bytes Storage Codec Log LogSpec LogTheorems FullLog StateMachine.
From S2P Require Import SnapshotStore Node Election Replication Apply Client ElectionTheorems.
From S2P Require Import VoteSafety ElectionSafety ReplicationTheorems Network LogMatching Commitment.
From S2P Require Import CommitSafety ApplyTheorems Replicated ClientTheorems.
Import KV.

Section durability.
Context {E K : Type} `{EngineSpec E} `{Engine K} `{CodecSpec Entry}
  `{CodecSpec (gmap string bytes)} `{CodecSpec SnapshotMeta}.
Implicit Types (n m : Node E K) (l : list Entry) (LL : history) (ch : chan).
Implicit Types (c : cluster (E := E) (K := K)) (rc : rcluster (E := E) (K := K)).

(** Node [i] stays up and installs no snapshot. *)
Definition serving (i : string) : discipline E K := mkDiscipline
  (may_send careful)
  (λ msg n, may_deliver careful msg n ∧ match msg with MInstall j _ => j ≠ i | _ => True end)
  (λ _ n, n_id n ≠ i).

(** ** What an operation of a node does to the channel of a proposal *)

(** The proposal that waits on [ch] has been told that it succeeded. *)
Definition acked n ch : Prop := head (default [] (sent n !! ch)) = Some None.

Record client_step ch n n' : Prop := {
  cl_next : (nextChan n ≤ nextChan n')%nat;
  cl_waits : ∀ k, writeWaiters n' !! k = Some ch → writeWaiters n !! k = Some ch;
  cl_acked : acked n' ch → acked n ch ∨
    ∃ k, k ≤ commitIndex n ∧ writeWaiters n !! k = Some ch ∧ writeWaiters n' !! k ≠ Some ch;
  cl_leads : role n = Leader →
    role n' = Leader ∧ currentTerm (log n') = currentTerm (log n) ∨ ∀ k, writeWaiters n' !! k ≠ Some ch
}.

(** The client's side of a node and its leadership did not change. *)
Lemma client_step_frame ch n n' :
  client_fields n' = client_fields n →
  (role n = Leader → role n' = Leader ∧ currentTerm (log n') = currentTerm (log n)) →
  client_step ch n n'.
Proof.
  unfold client_fields. intros Hf Hr. injection Hf as Hw Hs _ _ Hn.
  split; unfold acked; rewrite ?Hw, ?Hs, ?Hn; auto.
Qed.

Lemma send_head ch ch' err s :
  head (default [] (send ch' (Some err) s !! ch)) = Some None →
  head (default [] (s !! ch)) = Some None.
Proof.
  unfold send. destruct (decide (ch' = ch)) as [->|Hne]; [|by rewrite lookup_insert_ne].
  rewrite lookup_insert_eq. simpl. by destruct (default [] (s !! ch)).
Qed.

Lemma send_all_head ch err (ws : list (Z * chan)) s :
  head (default [] (foldl (λ s iw, send iw.2 (Some err) s) s ws !! ch)) = Some None →
  head (default [] (s !! ch)) = Some None.
Proof.
  revert s. induction ws as [|w ws IH]; intros s Hh; [done|]. simpl in Hh. by apply IH, send_head in Hh.
Qed.

(** Stepping down fails the proposals that wait. *)
Lemma client_step_dropped ch n n' :
  client_fields n' = client_fields (failStaleWritersLocked n) → client_step ch n n'.
Proof.
  unfold client_fields. simpl. intros Hf. injection Hf as Hw Hs _ _ Hn. split.
  - by rewrite Hn.
  - rewrite Hw. intros k. by rewrite lookup_empty.
  - unfold acked. rewrite Hs. intros Ha. left. by eapply send_all_head.
  - intros _. right. intros k. by rewrite Hw, lookup_empty.
Qed.

Lemma client_step_trans ch n1 n2 n3 :
  commitIndex n2 = commitIndex n1 → client_step ch n1 n2 → client_step ch n2 n3 → client_step ch n1 n3.
Proof.
  intros Hc [N1 W1 A1 L1] [N2 W2 A2 L2]. split; [lia|auto|..].
  - intros Ha. destruct (A2 Ha) as [Ha1|(k & Hk & Hw & Hw')].
    + destruct (A1 Ha1) as [|(k & Hk & Hw & Hw')]; [by left|right]. exists k. split_and!; [done..|].
      intros H3'. by apply Hw', W2.
    + right. exists k. rewrite <-Hc. auto.
  - intros Hr. destruct (L1 Hr) as [[Hr2 Ht2]|Hno]; [|right; intros k Hk; by apply (Hno k), W2].
    destruct (L2 Hr2) as [[? ?]|]; [left|by right]. split; congruence.
Qed.

(** ** The operations *)

Lemma client_step_kept ch n n' :
  vote_safe n n' → client_fields n' = client_fields n → role n' = role n → client_step ch n n'.
Proof.
  intros Hs Hf Hr. apply client_step_frame; [done|]. intros Hl.
  destruct (vs_role _ _ Hs) as [? ?]; [congruence|]. split; [congruence|done].
Qed.

Lemma becomeFollower_client ch t a b n : client_step ch n (becomeFollower t a b n).
Proof.
  unfold becomeFollower, becomeFollower_persist, becomeFollower_locked.
  destruct (decide (role n = Leader)) as [Hr|Hr].
  - rewrite bool_decide_true by done. apply client_step_dropped. by case_Z.
  - rewrite bool_decide_false by done. apply client_step_frame; [by case_Z|done].
Qed.

Lemma HandleRequestVote_client ch req n :
  is_u64 (rv_Term req) → client_step ch n (HandleRequestVote req n).2.
Proof.
  intros Hu. pose proof (HandleRequestVote_safe req n Hu) as Hs. revert Hs.
  unfold HandleRequestVote. case_Z; [by intros _; apply client_step_frame|].
  case_Z; [|simpl; destruct (_ && _); by intros Hs; apply client_step_kept].
  intros _. destruct (decide (role n = Leader)) as [Hr|Hr].
  - apply client_step_dropped. unfold stepDownForVote. rewrite bool_decide_true by done.
    by destruct (_ && _).
  - apply client_step_frame; [|done]. unfold stepDownForVote. rewrite bool_decide_false by done.
    by destruct (_ && _).
Qed.

Lemma HandleAppendEntries_client ch req n :
  is_u64 (ae_Term req) → client_step ch n (HandleAppendEntries req n).2.
Proof.
  intros Hu. pose proof (HandleAppendEntries_safe req n Hu) as Hs. revert Hs.
  unfold HandleAppendEntries. case_Z; [by intros _; apply client_step_frame|].
  assert (∀ n', client_fields n' = client_fields (accept_leader req n).2 →
    role n' = role (accept_leader req n).2 → vote_safe n n' → client_step ch n n') as Hgo.
  { intros n' Hf Hr Hs. unfold accept_leader in Hf, Hr. revert Hf Hr. case_Z.
    - destruct (decide (role n = Leader)) as [Hl|Hl].
      + rewrite bool_decide_true by done. intros Hf _. by apply client_step_dropped.
      + rewrite bool_decide_false by done. intros Hf _. by apply client_step_frame.
    - destruct (decide (role n = Candidate)) as [Hl|Hl].
      + rewrite bool_decide_true by done. intros Hf _. apply client_step_frame; [done|]. congruence.
      + rewrite bool_decide_false by done. intros Hf Hr. by apply client_step_kept. }
  destruct (accept_leader req n) as [cur m]. simpl in Hgo. destruct (check_prev cur req m); [by apply Hgo|].
  destruct (AppendEntries _ _ _) as [[err|] pl]; [by apply Hgo|].
  unfold follow_commit. repeat case_Z; by apply Hgo.
Qed.

Lemma election_begin_client ch n :
  role n ≠ Leader → client_step ch n (election_begin n).2.
Proof.
  intros Hr. apply client_step_frame; [|done].
  unfold election_begin, becomeCandidate, becomeCandidate_newTerm. set (m := resetElectionTimer _).
  assert (client_fields m = client_fields n) as <- by done. clearbody m. case_Z; [|done].
  cbn [snd]. unfold becomeLeader_start, becomeLeader_locked. by case_bool_decide.
Qed.

Lemma election_step_client ch ev el n : client_step ch n (election_step ev el n).2.
Proof.
  unfold election_step. destruct (negb _); [by apply client_step_frame|].
  destruct ev as [r| |]; try (by apply client_step_frame).
  destruct (vote_result _ r) as [granted higher]. destruct (_ <? _); [apply becomeFollower_client|].
  destruct granted; by apply client_step_frame.
Qed.

Lemma election_end_client ch el n : client_step ch n (election_end el n).2.
Proof.
  unfold election_end. destruct (el_won el); [|by apply client_step_frame].
  destruct (decide (role n = Candidate)) as [Hr|Hr].
  - rewrite bool_decide_true by done. destruct (_ =? _); [|by apply client_step_frame].
    apply client_step_frame; [|congruence].
    simpl. unfold becomeLeader_start, becomeLeader_locked. by case_bool_decide.
  - rewrite bool_decide_false by done. by apply client_step_frame.
Qed.

Lemma apply_one_fields i n :
  let n' := (apply_one i n).2 in
  role n' = role n ∧ commitIndex n' = commitIndex n ∧ nextChan n' = nextChan n ∧
  (writeWaiters n' = writeWaiters n ∧ sent n' = sent n ∨
   ∃ ch, writeWaiters n !! i = Some ch ∧ writeWaiters n' = delete i (writeWaiters n) ∧
     sent n' = send ch None (sent n)).
Proof.
  cbn zeta. unfold apply_one. destruct (Log.Get i (log n)) as [e|]; [|by split_and!; auto].
  destruct (apply_entry e (sm n)) as [[err|] machine]; [by split_and!; auto|].
  set (n1 := satisfyPendingReadsLocked _).
  assert (role n1 = role n ∧ commitIndex n1 = commitIndex n ∧ nextChan n1 = nextChan n ∧
    (writeWaiters n1 = writeWaiters n ∧ sent n1 = sent n ∨
     ∃ ch, writeWaiters n !! i = Some ch ∧ writeWaiters n1 = delete i (writeWaiters n) ∧
       sent n1 = send ch None (sent n))) as Hn1.
  { unfold n1, notifyWritersLocked. simpl. destruct (writeWaiters n !! i) as [ch|]; simpl; [|by split_and!; auto].
    split_and!; try done. right. by exists ch. }
  clearbody n1. cbn zeta. cbn [snd]. destruct (_ && _); [|done].
  pose proof (maybeSnapshot_channels i n1) as Hf. unfold client_fields in Hf.
  injection Hf as Hw Hse _ _ Hnx. rewrite maybeSnapshot_commit, Hw, Hse, Hnx.
  assert (role (maybeSnapshot i n1) = role n1) as ->; [|done].
  unfold maybeSnapshot. destruct (LoadLatest _) as [loaded store]. destruct (covered _ _); [done|].
  destruct (TermAt _ _); [|done]. destruct (Dump _); [|done]. by destruct (Save _ _ _) as [[]].
Qed.

Lemma apply_one_client ch i n :
  i ≤ commitIndex n → client_step ch n (apply_one i n).2 ∧ commitIndex (apply_one i n).2 = commitIndex n.
Proof.
  intros Hi. destruct (apply_one_fields i n) as (Hr & Hc & Hn & Hw). split; [|done].
  pose proof (apply_one_safe i n) as Hs. set (n' := (apply_one i n).2) in *. clearbody n'.
  destruct Hw as [[Hw Hse]|(ch' & Hch & Hw & Hse)].
  { split; unfold acked; rewrite ?Hw, ?Hse, ?Hn; auto. intros Hl. left.
    destruct (vs_role _ _ Hs); [congruence|]. split; congruence. }
  split; unfold acked; rewrite ?Hw, ?Hse, ?Hn; try done.
  - by intros k [_ ?]%lookup_delete_Some.
  - unfold send. destruct (decide (ch' = ch)) as [->|Hne]; [|rewrite lookup_insert_ne by done; auto].
    intros _. right. exists i. by rewrite lookup_delete_eq.
  - intros Hl. left. destruct (vs_role _ _ Hs); [congruence|]. split; congruence.
Qed.

Lemma apply_loop_client ch fuel a k n :
  0 ≤ a → k ≤ commitIndex n → client_step ch n (apply_loop fuel a k n).
Proof.
  revert a n. induction fuel as [|fuel IH]; intros a n Ha Hk; [by apply client_step_frame|]. simpl.
  case_Z; [|by apply client_step_frame].
  pose proof (u64_range (a + 1)). pose proof (Z.mod_le (a + 1) u64_mod ltac:(lia) ltac:(done)).
  destruct (apply_one_client ch (a ⊞ 1) n) as [Hone Hc]; [unfold u64 in *; lia|].
  destruct (apply_one (a ⊞ 1) n) as [[] n1]; simpl in *; [|done].
  eapply client_step_trans; [exact Hc|exact Hone|]. apply IH; [unfold is_u64 in *; lia|lia].
Qed.

Lemma propose_start_client ch ty key value id n :
  (ch < nextChan n)%nat → client_step ch n (propose_start ty key value id n).2.
Proof.
  intros Hch. pose proof (propose_start_safe ty key value id n) as Hs.
  assert (∀ n' ws, writeWaiters n' = ws → sent n' = sent n → nextChan n' = S (nextChan n) →
    role n' = role n → vote_safe n n' →
    (∀ k, ws !! k = Some ch → writeWaiters n !! k = Some ch) → client_step ch n n') as Hgo.
  { intros n' ws Hw Hse Hn Hr Hv Hws. split; unfold acked; rewrite ?Hw, ?Hse, ?Hn; auto.
    intros Hl. left. destruct (vs_role _ _ Hv); [congruence|]. split; congruence. }
  revert Hs. unfold propose_start. case_bool_decide; [by intros _; apply client_step_frame|].
  destruct (AppendEntries _ _ _) as [[err|] pl]; intros Hs; (eapply Hgo; [done..|exact Hs|]); simpl.
  - intros k [Hne Hk]%lookup_delete_Some. by rewrite lookup_insert_ne in Hk.
  - intros k [[_ Heq]|[_ Hk]]%lookup_insert_Some; [lia|done].
Qed.

(** Every operation of a node but the installation of a snapshot. *)
Lemma node_exec_client ch ev n :
  (ch < nextChan n)%nat → 0 ≤ lastApplied n → event_ok ev →
  match ev with NInstall _ => True | _ => client_step ch n (node_exec ev n) end.
Proof.
  intros Hch Hla Hok. pose proof (node_exec_safe ev n Hok) as Hs.
  destruct ev as [req| |p t req r|t|p t req r|t r|t| |ty key value id|i|i|cr]; try done; simpl in *.
  - by apply HandleAppendEntries_client.
  - revert Hs. unfold replicate_reply. destruct r as [resp|]; [|by intros Hs; apply client_step_kept].
    destruct (_ <? _); [intros _; apply becomeFollower_client|].
    repeat (case_match; try by intros Hs; apply client_step_kept).
  - revert Hs. unfold install_prepare. destruct (LoadLatest _) as [[[[snap meta]|]|] store];
      [destruct (Marshal snap)|..]; intros Hs; by apply client_step_kept.
  - revert Hs. unfold install_reply. destruct r as [resp|]; [|by intros Hs; apply client_step_kept].
    destruct (_ <? _); [intros _; apply becomeFollower_client|].
    destruct (leads t n); intros Hs; by apply client_step_kept.
  - unfold confirm_reply in *. destruct r as [resp|]; [|by apply client_step_kept].
    destruct (_ <? _); [apply becomeFollower_client|by apply client_step_kept].
  - revert Hs. unfold tryAdvanceCommitIndex. destruct (negb _); [by intros Hs; apply client_step_kept|].
    repeat (case_match; try by intros Hs; apply client_step_kept).
  - by apply apply_loop_client.
  - by apply propose_start_client.
  - split; simpl; auto. by intros k [_ ?]%lookup_delete_Some.
  - unfold wait_start in *. destruct (_ <=? _); [by apply client_step_kept|].
    split; simpl; auto.
  - split; simpl; auto.
Qed.

(** ** Steps of the cluster, seen from node [i] *)

Lemma put_client ch c i n j m m' :
  c_nodes c !! i = Some n → c_nodes c !! j = Some m → (j = i → m = n → client_step ch n m') →
  ∃ n', <[j := m']> (c_nodes c) !! i = Some n' ∧ client_step ch n n'.
Proof.
  intros Hi Hj Hm. destruct (decide (j = i)) as [->|Hne].
  - exists m'. rewrite lookup_insert_eq. split; [done|]. apply Hm; [done|congruence].
  - exists n. rewrite lookup_insert_ne by done. split; [done|by apply client_step_frame].
Qed.

Lemma estep_client members ch c c' i n :
  inv members c → estep c c' → c_nodes c !! i = Some n →
  ∃ n', c_nodes c' !! i = Some n' ∧ client_step ch n n'.
Proof.
  intros Hinv Hs Hi.
  destruct Hs as [c j m el req m' Hm _ Hr _ Hb|c j m m' Hm _ Hr _ Hb|c j m req resp m' Hm Hreq Hh _
    |c j m el req got j' resp el' m' Hm _ _ _ _ _ He|c j m el req got ev el' m' Hm _ _ He
    |c j m el req got won m' Hm _ _ He]; simpl.
  - replace (c_nodes (add_vote _ _ _ _ _)) with (<[j := m']> (c_nodes c))
      by (unfold add_vote; by destruct (_ =? _)).
    eapply put_client; [done..|]. intros -> ->.
    pose proof (election_begin_client ch n Hr) as Hc. by rewrite Hb in Hc.
  - eapply put_client; [done..|]. intros -> ->.
    pose proof (election_begin_client ch n Hr) as Hc. by rewrite Hb in Hc.
  - replace (c_nodes (add_vote _ _ _ _ _)) with (<[j := m']> (c_nodes c))
      by (unfold add_vote; by destruct (rvr_VoteGranted resp)).
    eapply put_client; [done..|]. intros -> ->. destruct (i_requests _ _ Hinv _ Hreq) as [_ Hu].
    pose proof (HandleRequestVote_client ch req n Hu) as Hc. by rewrite Hh in Hc.
  - eapply put_client; [done..|]. intros -> ->.
    pose proof (election_step_client ch (EvReply (Ok resp)) el n) as Hc. by rewrite He in Hc.
  - eapply put_client; [done..|]. intros -> ->.
    pose proof (election_step_client ch ev el n) as Hc. by rewrite He in Hc.
  - eapply put_client; [done..|]. intros -> ->.
    pose proof (election_end_client ch el n) as Hc. by rewrite He in Hc.
Qed.

Lemma rstep_client members ch rc rc' LL i n :
  inv members (rc_base rc) → Forall msg_u64 (rc_msgs rc) →
  cinv members (rc_base rc) (rc_msgs rc) LL → rstep (serving i) rc rc' →
  c_nodes (rc_base rc) !! i = Some n → (ch < nextChan n)%nat →
  ∃ n', c_nodes (rc_base rc') !! i = Some n' ∧ client_step ch n n'.
Proof.
  intros Hinv Hmu Hci Hs Hi Hch. rewrite Forall_forall in Hmu.
  assert (0 ≤ lastApplied n) as Hla.
  { destruct (l_node _ _ _ _ (ci_linv _ _ _ _ Hci) _ _ Hi) as (l & Hnl & _).
    by destruct (ns_nonneg _ _ _ _ _ (ci_node _ _ _ _ Hci _ _ _ Hi Hnl)). }
  assert (client_step ch n n) as Hrefl by (by apply client_step_frame).
  pose proof (λ ev, node_exec_client ch ev n Hch Hla) as Hev.
  destruct Hs as [c c' ms Hs _|rc j m ev Hm Hloc Hok _|c ms j m machine store m' Hm _ Hmay Hnew
    |rc j m p term req Hm _ _ Hp _|rc j m p term Hm _ Ht _|rc j m req resp m' Hin Hm _ Hh
    |rc j m q req resp Hin Hm _ Hur|rc j m p term req m' Hm _ Ht Hp _|rc j m req resp m' Hin Hm Hall Hh
    |rc j m q req resp Hin Hm _ Hur]; simpl in *; [by eapply estep_client|..]; eauto;
    (eapply put_client; [exact Hi|exact Hm|]); intros -> ->.
  - specialize (Hev ev Hok). by destruct ev.
  - by destruct (i_node _ _ Hinv _ _ Hm) as [(? & _) _].
  - specialize (Hev (NAppend req) (Hmu _ Hin)). simpl in Hev. by rewrite Hh in Hev.
  - exact (Hev (NAppendReply q (ae_Term req) req (Ok resp)) Hur).
  - specialize (Hev (NInstallPrepare term) I). simpl in Hev. by rewrite Hp in Hev.
  - by destruct Hall.
  - exact (Hev (NInstallReply q (is_Term req) req (Ok resp)) Hur).
Qed.

(** ** The commit index of a leader *)

(** A node that leads in term [T] after a step led in it before, and its commit
    index did not move back. *)
Definition leads_on (T : Z) n n' : Prop :=
  role n' = Leader → currentTerm (log n') = T →
  role n = Leader ∧ currentTerm (log n) = T ∧ commitIndex n ≤ commitIndex n'.

(** Terms do not decrease, and [leads_on] in every term that node [i] has won. *)
Definition onward (members : gset string) c LL (i : string) n n' : Prop :=
  currentTerm (log n) ≤ currentTerm (log n') ∧
  ∀ T L, LL !! T = Some L → elected members (c_votes c) T i → leads_on T n n'.

Lemma onward_refl members c LL i n : onward members c LL i n n.
Proof. split; [done|]. by intros T L _ _ ? ?. Qed.

Lemma onward_safe members c LL i n n' :
  vote_safe n n' → (role n' = Leader → commitIndex n ≤ commitIndex n') → onward members c LL i n n'.
Proof.
  intros Hs Hc. split; [apply tv_step_le, Hs|]. intros T L _ _ Hr Ht.
  destruct (vs_role _ _ Hs) as [? ?]; [congruence|]. split_and!; [congruence..|auto].
Qed.

Lemma onward_calm members c LL i n n' : calm n n' → onward members c LL i n n'.
Proof. intros Hc. apply onward_safe; [apply Hc|]. rewrite (cm_commit _ _ Hc). lia. Qed.

Lemma becomeFollower_commit t a b n : commitIndex (becomeFollower t a b n) = commitIndex n.
Proof.
  unfold becomeFollower, becomeFollower_persist, becomeFollower_locked.
  destruct (bool_decide (role n = Leader)); simpl; by case_Z.
Qed.

Lemma HandleAppendEntries_commit req n : commitIndex n ≤ commitIndex (HandleAppendEntries req n).2.
Proof.
  unfold HandleAppendEntries. case_Z; [done|].
  assert (commitIndex (accept_leader req n).2 = commitIndex n) as Hc.
  { unfold accept_leader. repeat (case_Z || case_bool_decide); done. }
  destruct (accept_leader req n) as [cur m]. simpl in Hc. rewrite <-Hc.
  destruct (check_prev cur req m); [done|]. destruct (AppendEntries _ _ _) as [[err|] pl]; [done|].
  unfold follow_commit. simpl. repeat case_Z; simpl; lia.
Qed.

Lemma HandleInstallSnapshot_role req n :
  role (HandleInstallSnapshot req n).2 = Leader → (HandleInstallSnapshot req n).2 = n.
Proof.
  unfold HandleInstallSnapshot. case_Z; [done|].
  set (m := if currentTerm (log n) <? is_Term req then _ else _). destruct m as [cur m].
  destruct (LoadLatest _) as [loaded store]. destruct (covered _ _); [done|].
  cbn [snd]. by rewrite (proj2 (install_snapshot_frame _ _)).
Qed.

Lemma apply_loop_commit fuel a k n : commitIndex (apply_loop fuel a k n) = commitIndex n.
Proof.
  revert a n. induction fuel as [|fuel IH]; intros a n; [done|]. simpl. case_Z; [|done].
  destruct (apply_one_fields (a ⊞ 1) n) as (_ & Hc & _).
  destruct (apply_one (a ⊞ 1) n) as [[] n1]; simpl in *; [by rewrite IH|done].
Qed.

Lemma node_exec_commit ev n :
  role (node_exec ev n) = Leader → commitIndex n ≤ commitIndex (node_exec ev n).
Proof.
  destruct ev as [req|req|p t req r|t|p t req r|t r|t| |ty key value id|i|i|cr]; simpl; intros Hr.
  - apply HandleAppendEntries_commit.
  - by rewrite (HandleInstallSnapshot_role _ _ Hr).
  - unfold replicate_reply. repeat (case_match; simpl; try done). by rewrite becomeFollower_commit.
  - unfold install_prepare. destruct (LoadLatest _) as [[[[snap meta]|]|] store]; try done.
    by destruct (Marshal snap).
  - unfold install_reply. destruct r as [resp|]; [|done].
    destruct (_ <? _); [by rewrite becomeFollower_commit|]. by destruct (leads t n).
  - unfold confirm_reply. destruct r as [resp|]; [|done]. destruct (_ <? _); [|done].
    simpl. by rewrite becomeFollower_commit.
  - unfold tryAdvanceCommitIndex. repeat (case_match; simpl; try done). case_Z; simpl; lia.
  - unfold applyCommitted. by rewrite apply_loop_commit.
  - unfold propose_start. case_bool_decide; [done|]. by destruct (AppendEntries _ _ _) as [[err|] pl].
  - done.
  - unfold wait_start. by destruct (_ <=? _).
  - done.
Qed.

Lemma election_end_onward members c ms LL i n el req got won n' :
  inv members c → linv members c ms LL → c_elections c !! i = Some (mkRunning el req got) →
  election_end el n = (won, n') → onward members c LL i n n'.
Proof.
  intros Hinv Hl Hrun He. unfold election_end in He. destruct (_ && _ && _) eqn:Hw;
    [|injection He as _ <-; apply onward_refl].
  rewrite !andb_true_iff in Hw. destruct Hw as [[_ Hcand%bool_decide_eq_true] Heq%Z.eqb_eq].
  destruct (becomeLeader_start_candidate n Hcand) as (_ & _ & Hterm & _). rewrite He in Hterm. simpl in Hterm.
  split; [lia|]. intros T L HL Hel Hr Ht.
  destruct (l_won _ _ _ _ Hl _ _ HL) as (i' & m & Hel' & _ & _ & Hru).
  rewrite (elected_unique _ _ _ _ _ Hinv Hel' Hel) in Hru. specialize (Hru _ Hrun). simpl in Hru. lia.
Qed.

Lemma put_onward members c LL i n j m m' :
  c_nodes c !! i = Some n → c_nodes c !! j = Some m → (j = i → m = n → onward members c LL i n m') →
  ∃ n', <[j := m']> (c_nodes c) !! i = Some n' ∧ onward members c LL i n n'.
Proof.
  intros Hi Hj Hm. destruct (decide (j = i)) as [->|Hne].
  - exists m'. rewrite lookup_insert_eq. split; [done|]. apply Hm; [done|congruence].
  - exists n. rewrite lookup_insert_ne by done. split; [done|apply onward_refl].
Qed.

Lemma estep_onward members c c' ms LL i n :
  size members ≠ 1%nat → inv members c → linv members c ms LL → estep c c' → c_nodes c !! i = Some n →
  ∃ n', c_nodes c' !! i = Some n' ∧ onward members c LL i n n'.
Proof.
  intros Hsize Hinv Hl Hs Hi.
  destruct Hs as [c j m el req m' Hm _ Hr Hlt Hb|c j m m' Hm ? Hr ? Hb|c j m req resp m' Hm Hreq Hh _
    |c j m el req got j' resp el' m' Hm _ _ _ _ Hu He|c j m el req got ev el' m' Hm _ Hev He
    |c j m el req got won m' Hm Hrun _ He]; simpl.
  - replace (c_nodes (add_vote _ _ _ _ _)) with (<[j := m']> (c_nodes c))
      by (unfold add_vote; by destruct (_ =? _)).
    eapply put_onward; [done..|]. intros -> ->. destruct (i_node _ _ Hinv _ _ Hm) as [_ Hd].
    destruct (election_begin_fields _ _ _ Hlt Hd Hb) as (_ & _ & Htv & _ & Hrole & _).
    split; [by apply tv_step_le|]. intros T L _ _ Hl'. congruence.
  - destruct Hsize. eapply begin_alone_size; [exact Hinv|exact Hm|eassumption..].
  - replace (c_nodes (add_vote _ _ _ _ _)) with (<[j := m']> (c_nodes c))
      by (unfold add_vote; by destruct (rvr_VoteGranted resp)).
    eapply put_onward; [done..|]. intros -> ->. destruct (i_requests _ _ Hinv _ Hreq) as [_ Hu].
    pose proof (HandleRequestVote_calm req n Hu) as Hc. rewrite Hh in Hc. by apply onward_calm.
  - eapply put_onward; [done..|]. intros -> ->.
    pose proof (election_step_calm (EvReply (Ok resp)) el n) as Hc. rewrite He in Hc.
    apply onward_calm, Hc. by intros ? [= ->].
  - eapply put_onward; [done..|]. intros -> ->.
    pose proof (election_step_calm ev el n) as Hc. rewrite He in Hc.
    apply onward_calm, Hc. intros resp ->. by destruct Hev as [|[|[err ?]]].
  - eapply put_onward; [done..|]. intros -> ->. by eapply election_end_onward.
Qed.

Lemma rstep_onward d members rc rc' LL i n :
  size members ≠ 1%nat → inv members (rc_base rc) → Forall msg_u64 (rc_msgs rc) →
  linv members (rc_base rc) (rc_msgs rc) LL → rstep d rc rc' → c_nodes (rc_base rc) !! i = Some n →
  ∃ n', c_nodes (rc_base rc') !! i = Some n' ∧ onward members (rc_base rc) LL i n n'.
Proof.
  intros Hsize Hinv Hmu Hl Hs Hi. rewrite Forall_forall in Hmu.
  assert (∀ ev, event_ok ev → onward members (rc_base rc) LL i n (node_exec ev n)) as Hev.
  { intros ev Hok. apply onward_safe; [by apply node_exec_safe|apply node_exec_commit]. }
  pose proof (onward_refl members (rc_base rc) LL i n) as Hrefl.
  destruct Hs as [c c' ms Hs _|rc j m ev Hm Hloc Hok _|c ms j m machine store m' Hm _ Hmay Hnew
    |rc j m p term req Hm _ _ Hp _|rc j m p term Hm _ Ht _|rc j m req resp m' Hin Hm _ Hh
    |rc j m q req resp Hin Hm _ Hur|rc j m p term req m' Hm _ Ht Hp _|rc j m req resp m' Hin Hm _ Hh
    |rc j m q req resp Hin Hm _ Hur]; simpl in *; [by eapply estep_onward|..]; eauto;
    (eapply put_onward; [exact Hi|exact Hm|]); intros -> ->.
  - by apply Hev.
  - destruct (i_node _ _ Hinv _ _ Hm) as [_ Hd]. destruct (NewNode_tv _ _ _ _ Hd Hnew) as [Hsafe Hrole].
    apply onward_safe; [done|congruence].
  - specialize (Hev (NAppend req) (Hmu _ Hin)). simpl in Hev. by rewrite Hh in Hev.
  - exact (Hev (NAppendReply q (ae_Term req) req (Ok resp)) Hur).
  - specialize (Hev (NInstallPrepare term) I). simpl in Hev. by rewrite Hp in Hev.
  - specialize (Hev (NInstall req) (Hmu _ Hin)). simpl in Hev. by rewrite Hh in Hev.
  - exact (Hev (NInstallReply q (is_Term req) req (Ok resp)) Hur).
Qed.

(** ** The life of a proposal *)

(** The leader of the term of [e] has [e] in its log. *)
Definition led LL (e : Entry) : Prop :=
  ∃ L, LL !! Term e = Some L ∧ L !! Z.to_nat (Index e - 1) = Some e.

Definition kept (members : gset string) rc LL (e : Entry) : Prop :=
  ∃ L, LL !! Term e = Some L ∧
    safe members (ack members (rc_base rc) (rc_msgs rc) LL) LL (Term e) (Index e) L.

(** A node that leads in term [T] has committed index [k]. *)
Definition covers (T k : Z) n : Prop :=
  role n = Leader → currentTerm (log n) = T → k ≤ commitIndex n.

(** The proposal of [e] waits on its leader, or nobody waits for it any more and it
    is committed if it was acknowledged. *)
Definition proposed (members : gset string) (i : string) ch (e : Entry) rc LL : Prop :=
  led LL e ∧ elected members (c_votes (rc_base rc)) (Term e) i ∧
  ∃ n, c_nodes (rc_base rc) !! i = Some n ∧ (ch < nextChan n)%nat ∧
    (¬ acked n ch ∧ role n = Leader ∧ currentTerm (log n) = Term e ∧
       (∀ k, writeWaiters n !! k = Some ch → k = Index e) ∨
     (∀ k, writeWaiters n !! k ≠ Some ch) ∧
       (acked n ch → kept members rc LL e ∧ covers (Term e) (Index e) n)).

Lemma led_next LL LL' e : hist_next LL LL' → led LL e → led LL' e.
Proof.
  intros Hn (L & HL & He). destruct (hist_next_grows _ _ Hn _ _ HL) as (L' & HL' & Hp).
  exists L'. split; [done|]. by eapply prefix_lookup_Some.
Qed.

Lemma kept_next d members rc rc' LL LL' e :
  hist_next LL LL' → rstep d rc rc' → kept members rc LL e → kept members rc' LL' e.
Proof.
  intros Hn Hs (L & HL & Hsafe). destruct (hist_next_grows _ _ Hn _ _ HL) as (L' & HL' & Hp).
  exists L'. split; [done|]. eapply safe_next; [|exact Hn|exact Hp|exact Hsafe].
  intros j t k. by eapply ack_rstep.
Qed.

Lemma elected_next d members rc rc' t i :
  rstep d rc rc' → elected members (c_votes (rc_base rc)) t i →
  elected members (c_votes (rc_base rc')) t i.
Proof.
  intros Hs (q & Hq & Hsz & Hv). destruct (rstep_grows _ _ _ Hs) as [_ Hg].
  exists q. split_and!; auto.
Qed.

Lemma covers_leads_on T k n n' : leads_on T n n' → covers T k n → covers T k n'.
Proof. intros Hk Hc Hr Ht. destruct (Hk Hr Ht) as (Hr0 & Ht0 & Hle). specialize (Hc Hr0 Ht0). lia. Qed.

Lemma proposed_step members i ch e rc rc' LL LL' :
  size members ≠ 1%nat → inv members (rc_base rc) → Forall msg_u64 (rc_msgs rc) →
  cinv members (rc_base rc) (rc_msgs rc) LL → hist_next LL LL' → rstep (serving i) rc rc' →
  proposed members i ch e rc LL → proposed members i ch e rc' LL'.
Proof.
  intros Hsize Hinv Hmu Hci Hnext Hs (Hled & Hel & n & Hi & Hch & Hcase).
  split; [by eapply led_next|]. split; [by eapply elected_next|].
  destruct (rstep_client _ ch _ _ _ _ _ Hinv Hmu Hci Hs Hi Hch) as (n' & Hi' & [Hcn Hcw Hca Hcl]).
  assert (leads_on (Term e) n n') as Hkeep.
  { destruct Hled as (L & HL & _).
    destruct (rstep_onward _ _ _ _ _ _ _ Hsize Hinv Hmu (ci_linv _ _ _ _ Hci) Hs Hi)
      as (n0 & Hi0 & _ & Hon). replace n' with n0 by congruence. by eapply Hon. }
  exists n'. split; [done|]. split; [lia|].
  destruct Hcase as [(Hna & Hr & Ht & Hidx)|[Hno Hack]].
  - assert (acked n' ch ∨ ¬ acked n' ch) as [Ha|Ha].
    { unfold acked. destruct (head _) as [[|]|]; [by right|by left|by right]. }
    + right. destruct (Hca Ha) as [|(k & Hk & Hw & Hw')]; [done|]. pose proof (Hidx k Hw) as ->. split.
      * intros k' Hk'. pose proof (Hidx k' (Hcw k' Hk')) as ->. done.
      * intros _. split; [|by apply (covers_leads_on _ _ _ _ Hkeep); intros ? ?].
        eapply kept_next; [exact Hnext|exact Hs|].
        destruct (committed_safe _ _ _ _ _ Hci Hi) as (l & _ & HL & Hsafe).
        exists l. rewrite <-Ht. split; [auto|]. by eapply safe_le; [| |exact Hsafe].
    + destruct (Hcl Hr) as [[Hr' Ht']|Hno]; [left|by right; split].
      split_and!; [done|done|congruence|auto].
  - right. split; [intros k Hk; by apply (Hno k), Hcw|]. intros Ha.
    destruct (Hca Ha) as [Ha'|(k & _ & Hw & _)]; [|by destruct (Hno k)].
    destruct (Hack Ha') as [Hkept Hcov]. split; [|by eapply covers_leads_on].
    by eapply kept_next; [exact Hnext|exact Hs|].
Qed.

(** A proposal that was accepted. *)
Lemma propose_start_accepted ty key value id n e ch n' l :
  full (log n) l → lastIndex (log n) < u64_mod - 2 → channels_ok n →
  propose_start ty key value id n = (Ok (e, ch), n') →
  Log.Get (Index e) (log n') = Ok e ∧ is_u64 (Index e) ∧ 0 < Index e ∧ role n' = Leader ∧
  Term e = currentTerm (log n') ∧ ¬ acked n' ch ∧ (ch < nextChan n')%nat ∧
  ∀ k, writeWaiters n' !! k = Some ch → k = Index e.
Proof.
  intros Hl Hroom Hok Hp. pose proof (propose_start_safe ty key value id n) as Hs. rewrite Hp in Hs.
  unfold propose_start in Hp. case_bool_decide as Hr; [done|].
  match type of Hp with context [AppendEntries [?e0] ?s (log ?m)] =>
    destruct (AppendEntries [e0] s (log m)) as [err pl] eqn:Ha end.
  destruct err; [done|]. injection Hp as <- <- <-.
  eapply full_appended in Ha as Hget; [|exact Hl|exact Hroom|reflexivity].
  eapply full_append_one in Ha as [Hidx _]; [|exact Hl|exact Hroom|reflexivity].
  destruct (vs_role _ _ Hs) as [_ Ht]; [simpl; congruence|].
  split; [exact Hget|]. split; [apply u64_range|]. split; [lia|]. split; [done|]. split; [done|].
  assert (sent n !! nextChan n = None) as Hnone.
  { apply eq_None_not_Some. intros [msgs Hm]. destruct (ch_sent _ Hok _ _ Hm). lia. }
  split; [unfold acked; simpl; by rewrite Hnone|]. split; [simpl; lia|].
  simpl. intros k [[<- _]|[_ Hk]]%lookup_insert_Some; [done|].
  destruct (ch_waiting _ Hok _ _ Hk). lia.
Qed.

Lemma propose_proposed members i rc LL LL' n ty key value id e ch n' :
  size members ≠ 1%nat → inv members (rc_base (put_node i n' rc)) → cinv members (rc_base rc) (rc_msgs rc) LL →
  cinv members (rc_base (put_node i n' rc)) (rc_msgs rc) LL' →
  c_nodes (rc_base rc) !! i = Some n → room (rc_base rc) → channels_ok n →
  propose_start ty key value id n = (Ok (e, ch), n') →
  proposed members i ch e (put_node i n' rc) LL'.
Proof.
  intros Hsize Hinv' Hci Hci' Hi Hroom Hok Hp.
  destruct (l_node _ _ _ _ (ci_linv _ _ _ _ Hci) _ _ Hi) as (l & Hnl & _).
  destruct (propose_start_accepted _ _ _ _ _ _ _ _ _ (nl_full _ _ _ Hnl) (Hroom _ _ Hi) Hok Hp)
    as (Hget & Hu & _ & Hr & Ht & Hna & Hch & Hw).
  assert (c_nodes (rc_base (put_node i n' rc)) !! i = Some n') as Hi' by apply lookup_insert_eq.
  destruct (l_node _ _ _ _ (ci_linv _ _ _ _ Hci') _ _ Hi') as (l' & Hnl' & HL).
  split.
  - exists l'. rewrite Ht. split; [auto|]. by apply (full_Get _ _ _ _ (nl_full _ _ _ Hnl') Hu) in Hget as [_ ?].
  - split; [|by exists n'; auto 10]. destruct (i_leader _ _ Hinv' _ _ Hi' Hr) as [|Hel]; [done|].
    by rewrite Ht.
Qed.

(** ** What an acknowledged entry can rely on *)

Lemma kept_safe members rc LL e i n :
  cinv members (rc_base rc) (rc_msgs rc) LL → led LL e → kept members rc LL e →
  is_u64 (Index e) → 0 < Index e → c_nodes (rc_base rc) !! i = Some n →
  (Index e ≤ commitIndex n → ∀ f, Log.Get (Index e) (log n) = Ok f → f = e) ∧
  (role n = Leader → Term e ≤ currentTerm (log n) →
    Index e ≤ lastIndex (log n) ∧ ∀ f, Log.Get (Index e) (log n) = Ok f → f = e).
Proof.
  intros Hci (L0 & HL0 & He) (L & HL & Hs) Hu Hpos Hi. assert (L0 = L) as -> by congruence.
  destruct (committed_safe _ _ _ _ _ Hci Hi) as (l & Hl & Hlead & Hc).
  pose proof (l_hist _ _ _ _ (ci_linv _ _ _ _ Hci)) as Hh.
  assert (∀ f, cut (Index e) l = cut (Index e) L → Log.Get (Index e) (log n) = Ok f → f = e) as Hsame.
  { intros f Hcut Hget. apply (full_Get _ _ _ _ Hl Hu) in Hget as [_ Hf].
    rewrite (cut_lookup (Index e) (Index e) _ _ Hcut) in Hf by lia. congruence. }
  split.
  - intros Hle f. apply Hsame. eapply safe_agree; [exact Hh|apply (ci_bounded _ _ _ _ Hci)
      |apply (ci_wins _ _ _ _ Hci)| |exact Hs]. by eapply safe_le; [| |exact Hc].
  - intros Hr Ht. specialize (Hlead Hr).
    assert (cut (Index e) L `prefix_of` l) as Hp.
    { eapply safe_leader; [exact Hh|apply (ci_bounded _ _ _ _ Hci)|apply (ci_wins _ _ _ _ Hci)
        |exact Hs|exact Hlead|done]. }
    pose proof (safe_length _ _ _ _ _ _ Hs). apply prefix_cut in Hp as [Hlen Hcut]; [|lia].
    rewrite (full_last _ _ Hl). auto.
Qed.

Lemma rtc_rreachable d members rc rc' :
  (∀ rc rc', rstep d rc rc' → rstep careful rc rc') →
  rreachable careful members rc → rtc (rstep d) rc rc' → rreachable careful members rc'.
Proof. intros Hd Hr. induction 1 as [|rc rc1 rc2 Hs _ IH]; [done|]. apply IH. eauto using RR_step. Qed.

Lemma serving_careful i rc rc' : rstep (serving i) rc rc' → rstep careful rc rc'.
Proof. apply rstep_weaken; [done|by intros msg n [? _]|done]. Qed.

(** A property of the history that every step leads_on holds after every run. *)
Lemma rtc_cinv d members (P : rcluster → history → Prop) rc rc' LL :
  (∀ rc rc', rstep d rc rc' → rstep careful rc rc') →
  (∀ rc rc' LL LL', inv members (rc_base rc) → Forall msg_u64 (rc_msgs rc) →
    cinv members (rc_base rc) (rc_msgs rc) LL → hist_next LL LL' → rstep d rc rc' → P rc LL → P rc' LL') →
  size members ≠ 1%nat → rreachable careful members rc →
  cinv members (rc_base rc) (rc_msgs rc) LL → P rc LL → rtc (rstep d) rc rc' →
  ∃ LL', cinv members (rc_base rc') (rc_msgs rc') LL' ∧ P rc' LL'.
Proof.
  intros Hd Hstep Hsize Hr Hci HP Hrtc. revert LL Hr Hci HP.
  induction Hrtc as [|rc rc1 rc2 Hs _ IH]; intros LL Hr Hci HP; [eauto|].
  destruct (rreachable_inv _ _ _ Hr) as [Hinv Hmu].
  destruct (rstep_inv _ _ _ _ Hinv Hmu (Hd _ _ Hs)) as [Hinv' _].
  destruct (cinv_rstep _ _ _ _ Hsize Hinv Hinv' Hmu Hci (Hd _ _ Hs)) as (LL' & Hn & Hci').
  apply (IH LL'); [eapply RR_step; [exact Hr|by apply Hd]|exact Hci'|].
  exact (Hstep _ _ _ _ Hinv Hmu Hci Hn Hs HP).
Qed.

(** What holds once a proposal was acknowledged. *)
Definition settled (members : gset string) (i : string) (e : Entry) rc LL : Prop :=
  led LL e ∧ kept members rc LL e ∧ elected members (c_votes (rc_base rc)) (Term e) i ∧
  ∃ n, c_nodes (rc_base rc) !! i = Some n ∧ covers (Term e) (Index e) n.

Lemma proposed_settled members i ch e rc LL n :
  proposed members i ch e rc LL → c_nodes (rc_base rc) !! i = Some n →
  propose_wake OnChannel (Index e) ch n = Some (None, n) → settled members i e rc LL.
Proof.
  intros (Hled & Hel & n' & Hi' & _ & Hcase) Hi Hwake. assert (n' = n) as -> by congruence.
  assert (acked n ch) as Ha.
  { simpl in Hwake. unfold acked. by destruct (head _) as [msg|]; [injection Hwake as ->|]. }
  destruct Hcase as [[Hna _]|[_ Hkept]]; [done|]. destruct (Hkept Ha) as [Hk Hcov].
  split_and!; eauto.
Qed.

Lemma settled_step members i e rc rc' LL LL' :
  size members ≠ 1%nat → inv members (rc_base rc) → Forall msg_u64 (rc_msgs rc) →
  cinv members (rc_base rc) (rc_msgs rc) LL → hist_next LL LL' → rstep careful rc rc' →
  settled members i e rc LL → settled members i e rc' LL'.
Proof.
  intros Hsize Hinv Hmu Hci Hnext Hs (Hled & Hkept & Hel & n & Hi & Hcov).
  split; [by eapply led_next|]. split; [by eapply kept_next|]. split; [by eapply elected_next|].
  destruct Hled as (L & HL & _).
  destruct (rstep_onward _ _ _ _ _ _ _ Hsize Hinv Hmu (ci_linv _ _ _ _ Hci) Hs Hi)
    as (n' & Hi' & _ & Hon).
  exists n'. split; [done|]. by eapply covers_leads_on; [eapply Hon|].
Qed.

(** Node [i] accepts the proposal of [e] in [rc], and has acknowledged it in [rc2]. *)
Record acknowledged (members : gset string) rc i (e : Entry) rc2 : Prop := {
  ak_reachable : rreachable careful members rc;
  ak_room : room (rc_base rc);
  ak_run : ∃ n ty key value id ch n1 n2,
    c_nodes (rc_base rc) !! i = Some n ∧ channels_ok n ∧
    propose_start ty key value id n = (Ok (e, ch), n1) ∧
    rtc (rstep (serving i)) (put_node i n1 rc) rc2 ∧
    c_nodes (rc_base rc2) !! i = Some n2 ∧ propose_wake OnChannel (Index e) ch n2 = Some (None, n2)
}.

Lemma acknowledged_settled members rc i e rc2 :
  size members ≠ 1%nat → acknowledged members rc i e rc2 →
  is_u64 (Index e) ∧ 0 < Index e ∧ rreachable careful members rc2 ∧
  ∃ LL, cinv members (rc_base rc2) (rc_msgs rc2) LL ∧ settled members i e rc2 LL.
Proof.
  intros Hsize [Hr Hroom (n & ty & key & value & id & ch & n1 & n2 & Hi & Hok & Hp & Hrun & Hi2 & Hwake)].
  destruct (rreachable_cinv _ _ Hsize Hr) as [LL Hci].
  assert (rstep careful rc (put_node i n1 rc)) as Hs.
  { replace n1 with (node_exec (NPropose ty key value id) n) by (simpl; by rewrite Hp). by apply X_local. }
  pose proof (RR_step _ _ _ _ Hr Hs) as Hr1. destruct (rreachable_cinv _ _ Hsize Hr1) as [LL1 Hci1].
  destruct (l_node _ _ _ _ (ci_linv _ _ _ _ Hci) _ _ Hi) as (l & Hnl & _).
  destruct (propose_start_accepted _ _ _ _ _ _ _ _ _ (nl_full _ _ _ Hnl) (Hroom _ _ Hi) Hok Hp)
    as (_ & Hu & Hpos & _).
  split; [done|]. split; [done|].
  split; [exact (rtc_rreachable _ _ _ _ (serving_careful i) Hr1 Hrun)|].
  destruct (rreachable_inv _ _ _ Hr1) as [Hinv1 _].
  pose proof (propose_proposed _ _ _ _ _ _ _ _ _ _ _ _ _ Hsize Hinv1 Hci Hci1 Hi Hroom Hok Hp) as Hprop.
  destruct (rtc_cinv (serving i) members (proposed members i ch e) _ _ _ (serving_careful i)
    (λ rc rc' LL LL', proposed_step members i ch e rc rc' LL LL' Hsize) Hsize Hr1 Hci1 Hprop Hrun)
    as (LL2 & Hci2 & Hpr2).
  exists LL2. split; [done|]. by eapply proposed_settled.
Qed.

(** However the cluster goes on, it stays settled. *)
Lemma acknowledged_later members rc i e rc2 rc3 :
  size members ≠ 1%nat → acknowledged members rc i e rc2 → rtc (rstep careful) rc2 rc3 →
  is_u64 (Index e) ∧ 0 < Index e ∧ rreachable careful members rc3 ∧
  ∃ LL, cinv members (rc_base rc3) (rc_msgs rc3) LL ∧ settled members i e rc3 LL.
Proof.
  intros Hsize Hack Hrun. destruct (acknowledged_settled _ _ _ _ _ Hsize Hack) as (Hu & Hpos & Hr & LL & Hci & Hset).
  split; [done|]. split; [done|].
  split; [exact (rtc_rreachable careful _ _ _ (λ _ _ Hs, Hs) Hr Hrun)|].
  exact (rtc_cinv careful members (settled members i e) _ _ _ (λ _ _ Hs, Hs)
    (λ rc rc' LL LL', settled_step members i e rc rc' LL LL' Hsize) Hsize Hr Hci Hset Hrun).
Qed.


End durability.

(** ** Witness: the put of the example run is acknowledged on n1 *)

Import Gob Json.

Lemma plain_serving rc rc' : rstep plain rc rc' → rstep (serving "n1") rc rc'.
Proof. apply rstep_weaken; [done| |done]. intros msg n [? ?]. by destruct msg. Qed.

Lemma put_served : rtc (rstep (serving "n1")) put1 put6.
Proof.
  apply (rtc_l _ _ put2); [apply plain_serving, put_step2|].
  apply (rtc_l _ _ put3); [apply plain_serving, put_step3|].
  apply (rtc_l _ _ put4); [apply plain_serving, put_step4|].
  apply (rtc_l _ _ put5); [apply plain_serving, put_step5|].
  apply rtc_once, plain_serving, put_step6.
Qed.

Lemma put_continued : rtc (rstep careful) put6 put8.
Proof.
  apply (rtc_l _ _ put7); [|apply rtc_once].
  - eapply serving_careful, plain_serving, put_step7.
  - eapply serving_careful, plain_serving, put_step8.
Qed.

Definition put_x : Entry := mkEntry 2 1 EntryPut "x" (bytes_of "1") "r1".

Lemma n1_leader_channels : channels_ok n1_leader.
Proof.
  eapply channels_frame; [|eapply (NewNode_channels "n1" ["n2"; "n3"] demo_options mem_new
    (NewStateMachine mem_new) (mkFS ∅ []) "" n1); vm_compute; reflexivity]. vm_compute. reflexivity.
Qed.

Lemma put_acknowledged : acknowledged members3 put0 "n1" put_x put6.
Proof.
  split; [exact (elected_rreachable careful)|unfold room; small_logs|].
  exists n1_leader, EntryPut, "x", (bytes_of "1"), "r1", 0%nat, n1_proposed, n1_applied.
  split; [reflexivity|]. split; [exact n1_leader_channels|].
  split; [vm_compute; reflexivity|]. split; [exact put_served|].
  split; [reflexivity|vm_compute; reflexivity].
Qed.

