(* ===== verification/ReadSafety.v ===== *)
(** * Linearizable reads see acknowledged writes.

    [LinearizableRead] takes the commit index of the leader as its read index, asks a
    majority whether the node still leads, and waits until the index is applied.  If
    the entry at the read index is of the leader's own term, the index covers every
    write that any node had acknowledged before, and the values that the read returns
    are those after a prefix of one log for the whole run that contains these writes;
    [new_leader_reads_old_commit_index] shows that they need not be otherwise. *)

From S2P Require Import Prelude Bytes Storage Codec Log LogSpec LogTheorems FullLog StateMachine.
From S2P Require Import SnapshotStore Node Election Replication Apply Client ElectionTheorems.
From S2P Require Import VoteSafety ElectionSafety ReplicationTheorems Network LogMatching Commitment.
From S2P Require Import CommitSafety ApplyTheorems Replicated ClientTheorems Durability.
Import KV.

Section reads.
Context {E K : Type} `{EngineSpec E} `{Engine K} `{CodecSpec Entry}
  `{CodecSpec (gmap string bytes)} `{CodecSpec SnapshotMeta}.
Implicit Types (n m : Node E K) (l : list Entry) (LL : history).
Implicit Types (c : cluster (E := E) (K := K)) (rc : rcluster (E := E) (K := K)).

(** In [rc] or later, node [p] answered a heartbeat with a term up to [T]. *)
Definition confirms rc (T : Z) (p : string) : Prop :=
  ∃ rc' m req, rtc (rstep careful) rc rc' ∧ c_nodes (rc_base rc') !! p = Some m ∧
    aer_Term (HandleAppendEntries req m).1 ≤ T.

Lemma HandleAppendEntries_reply_term req m :
  currentTerm (log m) ≤ aer_Term (HandleAppendEntries req m).1.
Proof.
  unfold HandleAppendEntries. case_Z; [done|].
  assert (currentTerm (log m) ≤ (accept_leader req m).1) as Hc.
  { unfold accept_leader. case_Z; simpl; [lia|]. by case_bool_decide. }
  destruct (accept_leader req m) as [cur m']. simpl in Hc.
  destruct (check_prev cur req m') as [resp|] eqn:Hp.
  - revert Hp. unfold check_prev. repeat case_match; intros; simplify_eq; done.
  - by destruct (AppendEntries _ _ _) as [[err|] pl].
Qed.

(** Terms do not decrease along a run. *)
Lemma rtc_term members rc rc' p m' :
  size members ≠ 1%nat → rreachable careful members rc → rtc (rstep careful) rc rc' →
  c_nodes (rc_base rc') !! p = Some m' →
  ∃ m, c_nodes (rc_base rc) !! p = Some m ∧ currentTerm (log m) ≤ currentTerm (log m').
Proof.
  intros Hsize Hr Hrun Hm'. revert Hr Hm'. induction Hrun as [rc|rc rc1 rc2 Hs _ IH]; intros Hr Hm';
    [by exists m'|].
  destruct (IH (RR_step _ _ _ _ Hr Hs) Hm') as (m1 & Hm1 & Hle).
  destruct (rreachable_inv _ _ _ Hr) as [Hinv Hmu]. destruct (rreachable_cinv _ _ Hsize Hr) as [LL Hci].
  destruct (rstep_inv _ _ _ _ Hinv Hmu Hs) as [Hinv1 _].
  assert (is_Some (c_nodes (rc_base rc) !! p)) as [m Hm].
  { apply elem_of_dom. rewrite (i_nodes _ _ Hinv), <-(i_nodes _ _ Hinv1). by apply elem_of_dom_2 in Hm1. }
  destruct (rstep_onward _ _ _ _ _ _ _ Hsize Hinv Hmu (ci_linv _ _ _ _ Hci) Hs Hm)
    as (m1' & Hm1' & Hterm & _).
  assert (m1' = m1) as -> by congruence. exists m. split; [done|lia].
Qed.

(** No leader of a later term, when a majority has not left term [T]. *)
Lemma confirmed_latest members c ms LL T t L (q : gset string) :
  cinv members c ms LL → LL !! t = Some L → q ⊆ members → majority members ≤ Z.of_nat (size q) →
  (∀ p m, p ∈ q → c_nodes c !! p = Some m → currentTerm (log m) ≤ T) → t ≤ T.
Proof.
  intros Hci HL Hq Hs Hterms. destruct (ci_wins _ _ _ _ Hci _ _ HL) as (q' & li & Hq' & Hs' & _ & _ & Hv).
  destruct (majorities_meet _ _ _ Hq Hq' Hs Hs') as (p & Hp & Hp').
  destruct (Hv p Hp') as [(m & Hm & Ht) _]. specialize (Hterms p m Hp Hm). lia.
Qed.

Lemma confirms_terms members rc j n (q : gset string) p m :
  size members ≠ 1%nat → rreachable careful members rc → c_nodes (rc_base rc) !! j = Some n →
  (∀ p, p ∈ q → p = j ∨ confirms rc (currentTerm (log n)) p) →
  p ∈ q → c_nodes (rc_base rc) !! p = Some m → currentTerm (log m) ≤ currentTerm (log n).
Proof.
  intros Hsize Hr Hj Hconf Hp Hm.
  destruct (Hconf p Hp) as [->|(rc4 & m4 & req & Hrun4 & Hm4 & Hle)]; [by replace m with n by congruence|].
  destruct (rtc_term _ _ _ _ _ Hsize Hr Hrun4 Hm4) as (m0 & Hm0 & Hterm).
  pose proof (HandleAppendEntries_reply_term req m4). replace m with m0 by congruence. lia.
Qed.

(** In a leader's log the entries of earlier terms come before those of its own. *)
Lemma earlier_index LL l T k k' :
  log_ok LL l → bounded LL → 0 < k ≤ Z.of_nat (length l) →
  term_of l k < T → term_of l k' = T → k < k'.
Proof.
  intros [_ Hl] Hb Hk Hlt Heq. destruct (Z.le_gt_cases k' k) as [Hle|]; [|done].
  destruct (lookup_index l k Hk) as (e & He & Hte). destruct (Hl _ _ He) as (L & HL & Hp).
  replace (S (Z.to_nat (k - 1))) with (Z.to_nat k) in Hp by lia.
  change (take (Z.to_nat k) l) with (cut k l) in Hp. pose proof (Hb _ _ k' HL) as Hbk.
  rewrite (term_of_prefix _ _ k' Hp), term_of_cut in Hbk by (rewrite ?cut_length; lia). lia.
Qed.

(** The read index of a leader that a majority confirms, in a term in which it has
    an entry of its own, covers every acknowledged write. *)
Lemma settled_read_index members rc LL i e j n readIndex T (q : gset string) :
  size members ≠ 1%nat → 0 < Index e → rreachable careful members rc →
  cinv members (rc_base rc) (rc_msgs rc) LL → settled members i e rc LL →
  c_nodes (rc_base rc) !! j = Some n → read_start n = Ok (readIndex, T) →
  TermAt readIndex (log n) = Some T →
  q ⊆ members → majority members ≤ Z.of_nat (size q) → (∀ p, p ∈ q → p = j ∨ confirms rc T p) →
  Index e ≤ readIndex.
Proof.
  intros Hsize Hpos Hr Hci (Hled & Hkept & Hel & n0 & Hi & Hcov) Hj Hread Hown Hq Hmaj Hconf.
  unfold read_start in Hread. case_bool_decide as Hrole; [done|].
  injection Hread as <- <-. set (T := currentTerm (log n)) in *.
  destruct Hled as (L & HL & He). destruct Hkept as (L' & HL' & Hsafe).
  assert (L' = L) as -> by congruence.
  assert (Term e ≤ T) as Hle.
  { eapply confirmed_latest; [exact Hci|exact HL|exact Hq|exact Hmaj|]. intros p m.
    by apply (confirms_terms members rc j n q). }
  destruct (l_node _ _ _ _ (ci_linv _ _ _ _ Hci) _ _ Hj) as (l & Hnl & Hlead). specialize (Hlead Hrole).
  destruct (Z.eq_dec (Term e) T) as [Heq|Hne].
  - destruct (rreachable_inv _ _ _ Hr) as [Hinv _].
    destruct (i_leader _ _ Hinv _ _ Hj Hrole) as [|Helj]; [done|]. fold T in Helj. rewrite <-Heq in Helj.
    rewrite (elected_unique _ _ _ _ _ Hinv Hel Helj) in Hi. replace n0 with n in Hcov by congruence.
    by apply Hcov.
  - pose proof (l_hist _ _ _ _ (ci_linv _ _ _ _ Hci)) as Hh.
    pose proof (ci_bounded _ _ _ _ Hci) as Hb.
    assert (cut (Index e) L `prefix_of` l) as Hp
      by (eapply safe_leader; [exact Hh|exact Hb|apply (ci_wins _ _ _ _ Hci)|exact Hsafe|exact Hlead|done]).
    pose proof (safe_length _ _ _ _ _ _ Hsafe). apply prefix_cut in Hp as [Hlen Hcut]; [|lia].
    destruct (ci_node _ _ _ _ Hci _ _ _ Hj Hnl) as [[Hc0 _] _ Hsn _ _]. apply safe_length in Hsn.
    destruct Hnl as [Hl Hok _]. pose proof (full_length _ _ Hl).
    assert (term_of l (Index e) = Term e) as Hte.
    { rewrite (term_of_agree _ (Index e) _ _ Hcut) by lia. apply term_of_lookup in He.
      by replace (Z.of_nat _ + 1) with (Index e) in He by lia. }
    assert (Index e < commitIndex n); [|lia].
    eapply (earlier_index LL l T); [exact Hok|exact Hb|lia|lia|].
    apply (full_TermAt _ _ _ _ Hl) in Hown as [_ ->]; [done|u64_lia].
Qed.

End reads.

(** ** Runs that go on *)

Section runs.
Context {E K : Type} `{EngineSpec E} `{EngineSpec K} `{CodecSpec Entry}
  `{CodecSpec (gmap string bytes)} `{CodecSpec SnapshotMeta}.
Implicit Types (n m : Node E K) (LL : history) (rc : rcluster (E := E) (K := K)).
Implicit Types (past : list (rcluster (E := E) (K := K))).

Definition both (d d' : discipline E K) : discipline E K := mkDiscipline
  (λ msg n, may_send d msg n ∧ may_send d' msg n)
  (λ msg n, may_deliver d msg n ∧ may_deliver d' msg n)
  (λ machine n, may_restart d machine n ∧ may_restart d' machine n).

Lemma rstep_both d d' rc rc' : rstep (both d d') rc rc' → rstep d rc rc' ∧ rstep d' rc rc'.
Proof. intros Hs. split; (eapply rstep_weaken; [..|exact Hs]); by simpl; intros ? ? [? ?]. Qed.

(** The run that has reached [rc], after the states [past], goes on under the
    discipline [d]. *)
Inductive goes_on (d : discipline E K) rc past :
    rcluster (E := E) (K := K) → list (rcluster (E := E) (K := K)) → Prop :=
  | On_refl : goes_on d rc past rc past
  | On_step rc1 past1 rc2 :
      goes_on d rc past rc1 past1 → rstep (both d (durable (rc1 :: past1))) rc1 rc2 →
      goes_on d rc past rc2 (rc1 :: past1).

Lemma goes_on_run d members rc past rc' past' :
  run members rc past → goes_on d rc past rc' past' → run members rc' past'.
Proof.
  intros Hr. induction 1 as [|rc1 past1 rc2 _ IH Hs]; [done|].
  econstructor; [done|]. by eapply rstep_both.
Qed.

(** A property of the history that every step keeps, carried along with the
    invariant of the run. *)
Lemma goes_on_kinv d members (P : rcluster → history → Prop) rc past rc' past' LL :
  (∀ rc rc' LL LL', inv members (rc_base rc) → Forall msg_u64 (rc_msgs rc) →
    cinv members (rc_base rc) (rc_msgs rc) LL → hist_next LL LL' →
    rstep d rc rc' → rstep careful rc rc' → P rc LL → P rc' LL') →
  size members ≠ 1%nat → run members rc past → kinv members rc past LL → P rc LL →
  goes_on d rc past rc' past' → ∃ LL', kinv members rc' past' LL' ∧ P rc' LL'.
Proof.
  intros Hstep Hsize Hr Hk HP Hon. induction Hon as [|rc1 past1 rc2 Hon IH Hs]; [eauto|].
  destruct IH as (LL1 & Hk1 & HP1). apply rstep_both in Hs as [Hsd Hs].
  pose proof (run_rreachable _ _ _ (goes_on_run _ _ _ _ _ _ Hr Hon)) as Hr1.
  destruct (rreachable_inv _ _ _ Hr1) as [Hinv Hmu].
  destruct (kinv_step _ _ _ _ _ Hsize Hr1 Hk1 Hs) as (LL2 & Hn & Hk2). exists LL2. split; [done|].
  eapply Hstep; [exact Hinv|exact Hmu|apply Hk1|exact Hn|exact Hsd| |exact HP1].
  eapply rstep_weaken; [..|exact Hs]; [done| |done]. by intros msg n [? _].
Qed.

(** In a run that had reached [rc], node [i] accepted the proposal of [e]; it has
    acknowledged it in [rc2]. *)
Record acknowledged_in (members : gset string) rc past i (e : Entry) rc2 past2 : Prop := {
  ai_run : run members rc past;
  ai_room : room (rc_base rc);
  ai_put : ∃ n ty key value id ch n1 n2,
    c_nodes (rc_base rc) !! i = Some n ∧ channels_ok n ∧
    propose_start ty key value id n = (Ok (e, ch), n1) ∧
    goes_on (serving i) (put_node i n1 rc) (rc :: past) rc2 past2 ∧
    c_nodes (rc_base rc2) !! i = Some n2 ∧ propose_wake OnChannel (Index e) ch n2 = Some (None, n2)
}.

Lemma acknowledged_in_settled members rc past i e rc2 past2 :
  size members ≠ 1%nat → acknowledged_in members rc past i e rc2 past2 →
  is_u64 (Index e) ∧ 0 < Index e ∧ run members rc2 past2 ∧
  ∃ LL, kinv members rc2 past2 LL ∧ settled members i e rc2 LL.
Proof.
  intros Hsize [Hrun Hroom (n & ty & key & value & id & ch & n1 & n2 & Hi & Hok & Hp & Hon & Hi2 & Hwake)].
  destruct (run_kinv _ _ _ Hsize Hrun) as [LL Hk]. pose proof (ki_cinv _ _ _ _ Hk) as Hci.
  assert (rstep (durable (rc :: past)) rc (put_node i n1 rc)) as Hs.
  { replace n1 with (node_exec (NPropose ty key value id) n) by (simpl; by rewrite Hp). by apply X_local. }
  pose proof (Run_step _ _ _ _ Hrun Hs) as Hrun1.
  destruct (kinv_step _ _ _ _ _ Hsize (run_rreachable _ _ _ Hrun) Hk Hs) as (LL1 & _ & Hk1).
  destruct (l_node _ _ _ _ (ci_linv _ _ _ _ Hci) _ _ Hi) as (l & Hnl & _).
  destruct (propose_start_accepted _ _ _ _ _ _ _ _ _ (nl_full _ _ _ Hnl) (Hroom _ _ Hi) Hok Hp)
    as (_ & Hu & Hpos & _).
  split; [done|]. split; [done|]. split; [by eapply goes_on_run|].
  destruct (rreachable_inv _ _ _ (run_rreachable _ _ _ Hrun1)) as [Hinv1 _].
  pose proof (propose_proposed _ _ _ _ _ _ _ _ _ _ _ _ _ Hsize Hinv1 Hci (ki_cinv _ _ _ _ Hk1) Hi Hroom Hok Hp)
    as Hprop.
  destruct (goes_on_kinv (serving i) members (proposed members i ch e) _ _ _ _ _
    (λ rc rc' LL LL' Hinv Hmu Hci Hn Hs _, proposed_step members i ch e rc rc' LL LL' Hsize Hinv Hmu Hci Hn Hs)
    Hsize Hrun1 Hk1 Hprop Hon) as (LL2 & Hk2 & Hpr2).
  exists LL2. split; [done|]. by eapply proposed_settled.
Qed.

(** One log for the whole run that has an acknowledged entry in its place. *)
Lemma settled_log members rc past LL i e :
  kinv members rc past LL → settled members i e rc LL → 0 < Index e →
  ∃ L, L !! Z.to_nat (Index e - 1) = Some e ∧ ∀ n, n ∈ nodes_of (rc :: past) → follows L n.
Proof.
  intros Hk ((Le & HLe & He) & (Le' & HLe' & Hsafe) & _) Hpos. assert (Le' = Le) as -> by congruence.
  pose proof (cinv_Agreement _ _ _ (ki_cinv _ _ _ _ Hk)) as HS.
  destruct (follows_all (agreed members rc LL) (nodes_of (rc :: past))) as (L & HL & Hall).
  { intros n. by apply kinv_explained. }
  destruct (agreed_join (agreed members rc LL) (Index e) Le L) as (L' & _ & Hp & Hc); [by eexists|done|].
  exists L'. split.
  - eapply prefix_lookup_Some; [|exact Hc]. unfold cut. by rewrite lookup_take_lt by lia.
  - intros n Hn. eapply follows_prefix; [exact Hp|by apply Hall].
Qed.


End runs.

(** ** Witness: n1 reads after the put of the example run was acknowledged *)

Import Gob Json.

Lemma plain_both d past rc rc' :
  may_send d = may_send careful → (∀ msg n, may_deliver plain msg n → may_deliver d msg n) →
  rstep plain rc rc' → rstep (both d (durable past)) rc rc'.
Proof.
  intros Hsend Hdel. apply rstep_weaken; simpl; [rewrite Hsend; auto| |done].
  intros msg n Hd. split; [by apply Hdel|]. destruct Hd as [Hc Hm]. split; [done|]. by destruct msg.
Qed.

Lemma serving_both i past rc rc' : rstep plain rc rc' → rstep (both (serving i) (durable past)) rc rc'.
Proof. apply plain_both; [done|]. intros msg n [? ?]. split; [done|]. by destruct msg. Qed.

Lemma careful_both past rc rc' : rstep plain rc rc' → rstep (both careful (durable past)) rc rc'.
Proof. apply plain_both; [done|]. by intros msg n [? ?]. Qed.

(** The put is acknowledged in [put6], and [put8] is reached after it. *)
Lemma put_acknowledged_in past :
  run members3 put0 past →
  acknowledged_in members3 put0 past "n1" put_x put6 (put5 :: put4 :: put3 :: put2 :: put1 :: put0 :: past).
Proof.
  intros Hrun. split; [exact Hrun|unfold room; small_logs|].
  exists n1_leader, EntryPut, "x", (bytes_of "1"), "r1", 0%nat, n1_proposed, n1_applied.
  split; [reflexivity|]. split; [exact n1_leader_channels|]. split; [vm_compute; reflexivity|].
  split; [|split; [reflexivity|vm_compute; reflexivity]].
  do 5 (eapply On_step; [|apply serving_both;
    first [exact put_step6|exact put_step5|exact put_step4|exact put_step3|exact put_step2]]).
  apply On_refl.
Qed.

Lemma put_goes_on past : goes_on careful put6 past put8 (put7 :: put6 :: past).
Proof.
  do 2 (eapply On_step; [|apply careful_both; first [exact put_step8|exact put_step7]]). apply On_refl.
Qed.

