(* ===== verification/LifecycleTheorems.v ===== *)
(** * What the background loops of a node guarantee.

    A node that keeps hearing from its leader starts no election; a node that
    hears nothing for the maximal election timeout starts one; committed entries
    are applied and their proposals answered once the apply loop runs; [Stop]
    ends both loops for good. *)

From S2P Require Import Prelude Bytes Storage Codec Log LogSpec LogTheorems StateMachine.
From S2P Require Import SnapshotStore Node Election Replication Apply Client ElectionTheorems.
From S2P Require Import VoteSafety Lifecycle ReplicationTheorems ApplyTheorems ClientTheorems.
Import KV.

(** ** The options of a node never change *)

Section opts.
Context {E K : Type} `{Engine E} `{Engine K} `{Codec Entry} `{Codec (gmap string bytes)}
  `{Codec SnapshotMeta}.
Implicit Types (n : Node E K).

Lemma opts_becomeFollower t l a n : opts (becomeFollower t l a n) = opts n.
Proof.
  unfold becomeFollower, becomeFollower_persist, becomeFollower_locked.
  destruct (bool_decide _); simpl; by case_Z.
Qed.

Lemma opts_failStale n : opts (failStaleWritersLocked n) = opts n.
Proof. done. Qed.

Lemma opts_HandleRequestVote req n : opts (HandleRequestVote req n).2 = opts n.
Proof.
  unfold HandleRequestVote, stepDownForVote. case_Z; [done|].
  destruct (currentTerm (log n) <? rv_Term req); cbn [fst snd];
    destruct (bool_decide (role n = Leader)); destruct (_ && _); done.
Qed.

Lemma opts_accept_leader req n : opts (accept_leader req n).2 = opts n.
Proof.
  unfold accept_leader. case_Z; [|by case_bool_decide].
  by destruct (bool_decide (role n = Leader)).
Qed.

Lemma opts_HandleAppendEntries req n : opts (HandleAppendEntries req n).2 = opts n.
Proof.
  unfold HandleAppendEntries. case_Z; [done|].
  pose proof (opts_accept_leader req n) as Ho. destruct (accept_leader req n) as [cur m].
  simpl in Ho. destruct (check_prev cur req m); [done|].
  destruct (AppendEntries _ _ _) as [[] pl]; [done|]. unfold follow_commit.
  repeat case_match; done.
Qed.

Lemma opts_install_snapshot req n : opts (install_snapshot req n) = opts n.
Proof.
  unfold install_snapshot. destruct (UnmarshalSnapshot _); [|done].
  destruct (Save _ _ _) as [[]]; [done|]. destruct (Restore _ _ _) as [[]]; [done|].
  by destruct (RestoreSnapshotBoundary _ _ _) as [[]].
Qed.

Lemma opts_HandleInstallSnapshot req n : opts (HandleInstallSnapshot req n).2 = opts n.
Proof.
  unfold HandleInstallSnapshot. case_Z; [done|].
  destruct (currentTerm (log n) <? is_Term req); cbn [fst snd];
    destruct (LoadLatest _) as [loaded store]; destruct (covered _ _); try done;
    cbn [snd]; by rewrite opts_install_snapshot.
Qed.

Lemma opts_maybeSnapshot i n : opts (maybeSnapshot i n) = opts n.
Proof.
  unfold maybeSnapshot. destruct (LoadLatest _) as [loaded store]. destruct (covered _ _); [done|].
  destruct (TermAt _ _); [|done]. destruct (Dump _); [|done]. by destruct (Save _ _ _) as [[]].
Qed.

Lemma opts_apply_one i n : opts (apply_one i n).2 = opts n.
Proof.
  unfold apply_one. destruct (Log.Get i (log n)) as [e|]; [|done].
  destruct (apply_entry e (sm n)) as [[] m]; [done|]. unfold notifyWritersLocked.
  cbn [writeWaiters with_lastApplied with_sm].
  destruct (writeWaiters n !! i); cbn zeta; destruct (_ && _); simpl;
    by rewrite ?opts_maybeSnapshot.
Qed.

Lemma opts_apply_loop fuel a c n : opts (apply_loop fuel a c n) = opts n.
Proof.
  revert a n. induction fuel as [|fuel IH]; intros a n; [done|]. simpl. case_Z; [|done].
  pose proof (opts_apply_one (a ⊞ 1) n) as Ho. destruct (apply_one (a ⊞ 1) n) as [[] n1]; [|done].
  simpl in Ho. by rewrite IH.
Qed.

Lemma opts_replicate_reply p t req r n : opts (replicate_reply p t req r n) = opts n.
Proof.
  unfold replicate_reply. destruct r as [resp|]; [|done].
  destruct (t <? aer_Term resp); [apply opts_becomeFollower|]. repeat case_match; done.
Qed.

Lemma opts_install_reply p t req r n : opts (install_reply p t req r n) = opts n.
Proof.
  unfold install_reply. destruct r as [resp|]; [|done].
  destruct (t <? isr_Term resp); [apply opts_becomeFollower|]. by destruct (leads t n).
Qed.

Lemma opts_install_prepare t n : opts (install_prepare t n).2 = opts n.
Proof.
  unfold install_prepare. destruct (LoadLatest _) as [[[[]|]|] store]; try done.
  by destruct (Marshal _).
Qed.

Lemma opts_advance t n : opts (tryAdvanceCommitIndex t n) = opts n.
Proof. unfold tryAdvanceCommitIndex. repeat case_match; done. Qed.

Lemma opts_propose_start ty k v id n : opts (propose_start ty k v id n).2 = opts n.
Proof.
  unfold propose_start. case_bool_decide; [done|]. by destruct (AppendEntries _ _ _) as [[] pl].
Qed.

Lemma opts_node_exec ev n : opts (node_exec ev n) = opts n.
Proof.
  destruct ev; cbn [node_exec]; auto using opts_HandleAppendEntries, opts_HandleInstallSnapshot,
    opts_propose_start, opts_replicate_reply, opts_install_prepare, opts_install_reply, opts_advance, opts_apply_loop.
  - unfold confirm_reply. destruct r as [resp|]; [|done].
    destruct (term <? aer_Term resp); [apply opts_becomeFollower|done].
  - unfold applyCommitted. apply opts_apply_loop.
  - unfold wait_start. by case_Z.
Qed.

Context {T : Type} `{Transport T}.

Lemma opts_replicateToPeer p t (s : Node E K * T) : opts (replicateToPeer p t s).1 = opts s.1.
Proof.
  destruct s as [n net]. unfold replicateToPeer. destruct (replicate_prepare p t n) as [| |req]; [done| |].
  - unfold sendInstallSnapshot. pose proof (opts_install_prepare t n) as Ho.
    destruct (install_prepare t n) as [[req|] m]; [|done]. simpl in Ho.
    destruct (tr_InstallSnapshot p req net) as [r net']. simpl. by rewrite opts_install_reply.
  - destruct (tr_AppendEntries p req net) as [r net']. simpl. by rewrite opts_replicate_reply.
Qed.

Lemma opts_broadcast (s : Node E K * T) : opts (broadcastAppendEntries s).1 = opts s.1.
Proof.
  unfold broadcastAppendEntries. destruct (IsLeader s.1); [|done].
  generalize (currentTerm (log s.1)). intros t. generalize (peers s.1). intros ps.
  assert (opts (foldl (λ st p, replicateToPeer p t st) s ps).1 = opts s.1) as Ho.
  { revert s. induction ps as [|p ps IH]; intros s; [done|]. simpl. rewrite IH.
    apply opts_replicateToPeer. }
  destruct (foldl _ _ _) as [n net]. simpl in *. by rewrite opts_advance.
Qed.

End opts.

(** ** The timer loop *)

Definition draw_ok (draw : Z → Z) : Prop := ∀ span, 0 < span → 0 ≤ draw span < span.

Record options_ok (o : Options) : Prop := {
  oo_min : is_i64 (ElectionTimeoutMin o);
  oo_max : is_i64 (ElectionTimeoutMax o);
  oo_lt : ElectionTimeoutMin o < ElectionTimeoutMax o
}.

(** Time does not run backwards, and random draws are in their range. *)
Definition loop_event_ok (ev : loop_event) : Prop :=
  match ev with
  | LElapse dt => 0 ≤ dt
  | LTimer (TReset draw) | LTimer (TTimeout _ draw) => draw_ok draw
  | _ => True
  end.

Lemma timeout_range draw o :
  draw_ok draw → options_ok o →
  ElectionTimeoutMin o ≤ next_timeout draw o < ElectionTimeoutMax o.
Proof. intros Hd [? ? ?]. by apply next_timeout_bounds. Qed.

Section timer.
Context {E K T : Type} `{Engine E} `{Engine K} `{Codec Entry} `{Codec (gmap string bytes)}
  `{Codec SnapshotMeta} `{Transport T}.
Implicit Types (st : loops E K T) (n : Node E K).

Lemma opts_becomeLeader_start n : opts (becomeLeader_start n).2 = opts n.
Proof. unfold becomeLeader_start, becomeLeader_locked. by case_bool_decide. Qed.

Lemma opts_election_step ev el n : opts (election_step ev el n).2 = opts n.
Proof.
  unfold election_step. destruct (negb _); [done|]. destruct ev as [r| |]; try done.
  destruct (vote_result _ r) as [g h]. destruct (_ <? _); [apply opts_becomeFollower|].
  by destruct g.
Qed.

Lemma opts_election_loop evs el n : opts (election_loop evs el n).2 = opts n.
Proof.
  revert el n. induction evs as [|ev evs IH]; intros el n; [done|]. simpl.
  pose proof (opts_election_step ev el n) as Ho.
  destruct (election_step ev el n) as [el' n']. simpl in Ho. by rewrite IH.
Qed.

Lemma opts_startElection evs n : opts (startElection evs n) = opts n.
Proof.
  unfold startElection, election_begin, becomeCandidate. cbn zeta beta iota.
  destruct (needed_votes _ =? 1); [by rewrite opts_becomeLeader_start|].
  match goal with |- context [election_loop evs ?el ?m] =>
    pose proof (opts_election_loop evs el m) as Ho; destruct (election_loop evs el m) as [el' n'] end.
  simpl in Ho. unfold election_end. destruct (_ && _); simpl; by rewrite ?opts_becomeLeader_start.
Qed.

Lemma opts_run_election rs st : opts (lp_node (run_election rs st)) = opts (lp_node st).
Proof.
  unfold run_election. cbn [lp_node count_election set_net]. rewrite opts_broadcast.
  apply opts_startElection.
Qed.

Lemma opts_timer_step c st : opts (lp_node (timer_step c st)) = opts (lp_node st).
Proof.
  unfold timer_step. destruct (lp_timer_done st); [done|]. destruct c as [|d|rs d|].
  - by destruct (lp_stopped st).
  - by destruct (electionResetCh _).
  - destruct (t_fired _); [|done]. cbn zeta. destruct (bool_decide _); [|done].
    cbn [lp_node set_timer]. by rewrite opts_run_election.
  - destruct (k_pending _); [|done]. cbn zeta. destruct (bool_decide _); [|done].
    cbn [lp_node set_net]. by rewrite opts_broadcast.
Qed.

Lemma opts_apply_step c st : opts (lp_node (apply_step c st)) = opts (lp_node st).
Proof.
  unfold apply_step. destruct (lp_apply_done st); [done|]. destruct c as [| |].
  - by destruct (lp_stopped st).
  - destruct (commitAdvancedCh _); [|done]. simpl. unfold applyCommitted. by rewrite opts_apply_loop.
  - destruct (k_pending _); [|done]. simpl. unfold applyCommitted. by rewrite opts_apply_loop.
Qed.

Lemma opts_loop_step ev st : opts (lp_node (loop_step ev st)) = opts (lp_node st).
Proof.
  destruct ev; cbn [loop_step]; auto using opts_timer_step, opts_apply_step.
  - apply opts_node_exec.
  - apply opts_HandleRequestVote.
  - unfold Stop. by destruct (lp_stopped st).
Qed.

Lemma opts_run evs st : opts (lp_node (run evs st)) = opts (lp_node st).
Proof.
  revert st. induction evs as [|ev evs IH]; intros st; [done|]. simpl.
  by rewrite IH, opts_loop_step.
Qed.

(** Only time and the timer loop's own cases touch the timer. *)
Definition own_case (ev : loop_event) : bool :=
  match ev with LElapse _ | LTimer (TReset _) | LTimer (TTimeout _ _) => true | _ => false end.

Lemma timer_frame ev st :
  own_case ev = false →
  lp_timer (loop_step ev st) = lp_timer st ∧ lp_elections (loop_step ev st) = lp_elections st.
Proof.
  destruct ev as [dt|ev|req| |c|c]; try done; intros Hc; cbn [loop_step].
  - unfold Stop. by destruct (lp_stopped st).
  - unfold timer_step. destruct (lp_timer_done st); [done|]. destruct c; try done.
    + by destruct (lp_stopped st).
    + destruct (k_pending _); [|done]. cbn zeta. by destruct (bool_decide _).
  - unfold apply_step. destruct (lp_apply_done st); [done|].
    destruct c; [by destruct (lp_stopped st) | by destruct (commitAdvancedCh _)|].
    by destruct (k_pending _).
Qed.

(** *** Hearing from the leader *)

(** The time since the timer loop handled the last reset. *)
Definition since_reset (since : Z) (ev : loop_event) st : Z :=
  match ev with
  | LElapse dt => since + dt
  | LTimer (TReset _) =>
      if negb (lp_timer_done st) && electionResetCh (lp_node st) then 0 else since
  | _ => since
  end.

(** A run in which that time stays below the minimal election timeout. *)
Fixpoint quiet (since : Z) (evs : list loop_event) st : Prop :=
  match evs with
  | [] => True
  | ev :: evs =>
      since_reset since ev st < ElectionTimeoutMin (opts (lp_node st)) ∧
      quiet (since_reset since ev st) evs (loop_step ev st)
  end.

(** The timer is armed and has at least the rest of the minimal timeout to go. *)
Definition armed_for (since : Z) st : Prop :=
  t_fired (lp_timer st) = false ∧
  ∃ r, t_armed (lp_timer st) = Some r ∧ ElectionTimeoutMin (opts (lp_node st)) ≤ r + since.

Lemma reset_arms draw st :
  draw_ok draw → options_ok (opts (lp_node st)) → lp_timer_done st = false →
  electionResetCh (lp_node st) = true →
  (∀ r, t_armed (lp_timer st) = Some r → t_fired (lp_timer st) = false) →
  armed_for 0 (timer_step (TReset draw) st) ∧
  lp_elections (timer_step (TReset draw) st) = lp_elections st.
Proof.
  intros Hd Ho Hrun Htok Hone. unfold timer_step. rewrite Hrun, Htok.
  pose proof (timeout_range draw _ Hd Ho) as Hr. split; [|done].
  unfold armed_for. simpl. case_bool_decide as Ha; simpl.
  - destruct Ha as [r Ha]. split; [by eapply Hone|]. eexists. split; [done|]. lia.
  - split; [done|]. eexists. split; [done|]. lia.
Qed.

Lemma quiet_step since ev st :
  loop_event_ok ev → options_ok (opts (lp_node st)) → armed_for since st →
  since_reset since ev st < ElectionTimeoutMin (opts (lp_node st)) →
  armed_for (since_reset since ev st) (loop_step ev st) ∧
  lp_elections (loop_step ev st) = lp_elections st.
Proof.
  intros Hok Ho Harm Hq. destruct (own_case ev) eqn:Hc.
  2:{ destruct (timer_frame ev st Hc) as [Ht He]. split; [|done].
      unfold armed_for. rewrite Ht, opts_loop_step. by destruct ev as [| | | |[]|]. }
  pose proof Harm as (Hf & r & Hr & Hge). destruct ev as [dt| | | |[|d|rs d|]|]; try done;
    cbn [loop_step since_reset] in *.
  - split; [|done]. unfold armed_for, timer_elapse. simpl. rewrite Hr.
    destruct (Z.leb_spec r dt); [lia|]. simpl. split; [done|]. eexists. split; [done|]. lia.
  - destruct (lp_timer_done st) eqn:Hdone; [by unfold timer_step; rewrite Hdone|].
    destruct (electionResetCh (lp_node st)) eqn:Htok; simpl.
    + by apply reset_arms.
    + unfold timer_step. by rewrite Hdone, Htok.
  - unfold timer_step. destruct (lp_timer_done st); [done|]. by rewrite Hf.
Qed.

Lemma quiet_run since evs st :
  Forall loop_event_ok evs → options_ok (opts (lp_node st)) → armed_for since st →
  quiet since evs st → lp_elections (run evs st) = lp_elections st.
Proof.
  revert since st. induction evs as [|ev evs IH]; intros since st Hok Ho Harm Hq; [done|].
  apply Forall_cons in Hok as [Hev Hok]. destruct Hq as [Hq Hqs].
  destruct (quiet_step since ev st Hev Ho Harm Hq) as [Harm' He].
  simpl. rewrite <-He. eapply IH; [done| |exact Harm'|exact Hqs]. by rewrite opts_loop_step.
Qed.

(** *** Silence *)

(** The timer always either has fired or is armed for less than the maximum. *)
Definition timer_alive st : Prop :=
  if t_fired (lp_timer st) then t_armed (lp_timer st) = None
  else ∃ r, t_armed (lp_timer st) = Some r ∧ r < ElectionTimeoutMax (opts (lp_node st)).

Lemma timer_alive_step ev st :
  loop_event_ok ev → options_ok (opts (lp_node st)) → timer_alive st → timer_alive (loop_step ev st).
Proof.
  intros Hok Ho Ha. destruct (own_case ev) eqn:Hc.
  2:{ destruct (timer_frame ev st Hc) as [Ht _]. unfold timer_alive.
      by rewrite Ht, opts_loop_step. }
  unfold timer_alive in *. rewrite opts_loop_step.
  destruct ev as [dt| | | |[|d|rs d|]|]; try done; cbn [loop_step].
  - simpl. unfold timer_elapse.
    destruct (t_fired (lp_timer st)) eqn:Hf.
    + by rewrite Ha, Hf.
    + destruct Ha as (r & -> & Hr). simpl in Hok. destruct (Z.leb_spec r dt); simpl; [done|].
      rewrite ?Hf. eexists. split; [done|]. lia.
  - pose proof (timeout_range d _ Hok Ho) as Hr. unfold timer_step.
    destruct (lp_timer_done st); [done|]. destruct (electionResetCh _); [|done].
    destruct (t_fired (lp_timer st)) eqn:Hf; simpl.
    + rewrite Ha. simpl. eexists. split; [done|]. lia.
    + destruct Ha as (r & -> & _). simpl. rewrite Hf. eexists. split; [done|]. lia.
  - unfold timer_step. destruct (lp_timer_done st); [done|].
    destruct (t_fired (lp_timer st)) eqn:Hf; [|by rewrite Hf].
    cbn zeta. destruct (bool_decide _); cbn [lp_timer lp_node set_timer timer_Reset t_fired t_armed];
      rewrite ?opts_run_election; (eexists; split; [done|]); by apply timeout_range.
Qed.

Lemma timer_alive_run evs st :
  Forall loop_event_ok evs → options_ok (opts (lp_node st)) → timer_alive st →
  timer_alive (run evs st).
Proof.
  revert st. induction evs as [|ev evs IH]; intros st Hok Ho Ha; [done|].
  apply Forall_cons in Hok as [Hev Hok]. simpl. apply IH; [done|by rewrite opts_loop_step|].
  by apply timer_alive_step.
Qed.

Lemma Start_alive draw (s : Node E K * T) st :
  draw_ok draw → options_ok (opts s.1) → Start draw s = Ok st →
  timer_alive st ∧ opts (lp_node st) = opts s.1.
Proof.
  intros Hd Ho. unfold Start. destruct (NewTicker _); [|done]. simpl. intros [= <-].
  split; [|done]. unfold timer_alive. simpl. eexists. split; [done|].
  pose proof (timeout_range draw _ Hd Ho). lia.
Qed.

(** No reset and no expiry is handled. *)
Definition idle (ev : loop_event) : bool :=
  match ev with LTimer (TReset _) | LTimer (TTimeout _ _) => false | _ => true end.

Fixpoint elapsed (evs : list loop_event) : Z :=
  match evs with
  | [] => 0
  | LElapse dt :: evs => dt + elapsed evs
  | _ :: evs => elapsed evs
  end.

Lemma elapsed_nonneg evs : Forall loop_event_ok evs → 0 ≤ elapsed evs.
Proof.
  induction 1 as [|ev evs Hev _ IH]; simpl; [lia|]. destruct ev; simpl in *; lia.
Qed.

Lemma idle_fires evs st :
  forallb idle evs = true →
  t_fired (lp_timer st) = true ∨
  (∃ r, t_armed (lp_timer st) = Some r ∧ r ≤ elapsed evs ∧ 0 < elapsed evs) →
  t_fired (lp_timer (run evs st)) = true.
Proof.
  revert st. induction evs as [|ev evs IH]; intros st Hi Ha; simpl in *; [naive_solver lia|].
  apply andb_true_iff in Hi as [Hi His]. apply IH; [done|]. destruct (own_case ev) eqn:Hc.
  - destruct ev as [dt| | | |[]|]; try done. simpl. unfold timer_elapse.
    destruct Ha as [Hf|(r & -> & Hle & Hpos)].
    + left. destruct (t_armed (lp_timer st)); [by case_Z|done].
    + destruct (Z.leb_spec r dt); [by left|]. right. simpl. eexists. split; [done|]. lia.
  - destruct (timer_frame ev st Hc) as [-> _]. destruct ev as [| | | |[]|]; naive_solver.
Qed.

(** *** The guarantees, for every run from [Start] *)

(** C28: Leader activity suppresses elections.  After the timer loop of a started
    node has handled a reset, it starts no election in any run in which the time
    since the last handled reset stays below the minimal election timeout,
    whatever else the node does. *)
Theorem leader_activity_prevents_elections draw0 draw (s : Node E K * T) st0 evs0 evs :
  Start draw0 s = Ok st0 → options_ok (opts s.1) → draw_ok draw0 → draw_ok draw →
  Forall loop_event_ok evs0 → Forall loop_event_ok evs →
  let st := run evs0 st0 in
  lp_timer_done st = false → electionResetCh (lp_node st) = true →
  quiet 0 evs (loop_step (LTimer (TReset draw)) st) →
  lp_elections (run (LTimer (TReset draw) :: evs) st) = lp_elections st.
Proof.
  intros Hst Ho Hd0 Hd Hok0 Hok st Hrun Htok Hq. simpl.
  destruct (Start_alive _ _ _ Hd0 Ho Hst) as [Ha Hopts].
  assert (opts (lp_node st) = opts s.1) as Hopt by (unfold st; by rewrite opts_run).
  assert (timer_alive st) as Hal by (apply timer_alive_run; rewrite ?Hopts; done).
  destruct (reset_arms draw st) as [Harm He]; [done|by rewrite Hopt|done|done| |].
  { intros r Hr. unfold timer_alive in Hal. destruct (t_fired _); [congruence|done]. }
  rewrite <-He. eapply quiet_run; [done| |exact Harm|exact Hq].
  change (timer_step (TReset draw) st) with (loop_step (LTimer (TReset draw)) st).
  by rewrite opts_loop_step, Hopt.
Qed.

(** C27: Silence leads to an election.  At any point of a run of a started node,
    once the maximal election timeout passes without the timer loop handling a
    reset, its timer has fired; and unless the node leads, the loop then starts
    an election. *)
Theorem silence_starts_election draw0 (s : Node E K * T) st0 evs0 evs results draw :
  Start draw0 s = Ok st0 → options_ok (opts s.1) → draw_ok draw0 →
  Forall loop_event_ok evs0 → forallb idle evs = true → 0 < elapsed evs →
  ElectionTimeoutMax (opts s.1) ≤ elapsed evs →
  let st := run evs (run evs0 st0) in
  lp_timer_done st = false → NodeRole (lp_node st) ≠ Leader →
  t_fired (lp_timer st) = true ∧
  lp_elections (loop_step (LTimer (TTimeout results draw)) st) = S (lp_elections st) ∧
  lp_node (loop_step (LTimer (TTimeout results draw)) st) =
    (broadcastAppendEntries (startElection results (lp_node st), lp_net st)).1.
Proof.
  intros Hst Ho Hd0 Hok0 Hidle Hpos Hmax st Hrun Hrole.
  destruct (Start_alive _ _ _ Hd0 Ho Hst) as [Ha Hopts].
  assert (timer_alive (run evs0 st0)) as Hal by (apply timer_alive_run; rewrite ?Hopts; done).
  assert (t_fired (lp_timer st) = true) as Hf.
  { apply idle_fires; [done|]. unfold timer_alive in Hal. rewrite opts_run, Hopts in Hal.
    destruct (t_fired (lp_timer (run evs0 st0))); [by left|]. right.
    destruct Hal as (r & -> & Hr). exists r. split_and!; (done || lia). }
  split; [done|]. cbn [loop_step]. unfold timer_step. rewrite Hrun, Hf. cbn zeta.
  rewrite bool_decide_eq_true_2 by done. done.
Qed.

(** ** Stop *)

Lemma stopped_step ev st : lp_stopped st = true → lp_stopped (loop_step ev st) = true.
Proof.
  intros Hs. destruct ev as [| | | |c|c]; cbn [loop_step]; try done.
  - unfold Stop. by rewrite Hs.
  - unfold timer_step. destruct (lp_timer_done st); [done|]. destruct c; [by rewrite Hs|..].
    + by destruct (electionResetCh _).
    + destruct (t_fired _); [|done]. cbn zeta. by destruct (bool_decide _).
    + destruct (k_pending _); [|done]. cbn zeta. by destruct (bool_decide _).
  - unfold apply_step. destruct (lp_apply_done st); [done|]. destruct c; [by rewrite Hs|..].
    + by destruct (commitAdvancedCh _).
    + by destruct (k_pending _).
Qed.

Lemma stopped_run evs st : lp_stopped st = true → lp_stopped (run evs st) = true.
Proof.
  revert st. induction evs as [|ev evs IH]; intros st Hs; [done|]. by apply IH, stopped_step.
Qed.

(** The events of the two goroutines and of further calls of [Stop]. *)
Definition of_loops (ev : loop_event) : bool :=
  match ev with LStop | LTimer _ | LApply _ => true | _ => false end.


End timer.

(** ** The apply loop *)

Section apply.
Context {E K T : Type} `{EngineSpec E} `{EngineSpec K} `{CodecSpec Entry}
  `{Codec (gmap string bytes)} `{Codec SnapshotMeta} `{Transport T}.
Implicit Types (st : loops E K T) (n : Node E K).

(** A message on a reply channel. *)
Definition was_sent (ch : chan) (msg : option error) n : Prop := msg ∈ default [] (sent n !! ch).

Lemma maybeSnapshot_sent i n :
  sent (maybeSnapshot i n) = sent n ∧ writeWaiters (maybeSnapshot i n) = writeWaiters n.
Proof.
  unfold maybeSnapshot. destruct (LoadLatest _) as [loaded store]. destruct (covered _ _); [done|].
  destruct (TermAt _ _); [|done]. destruct (Dump _); [|done]. by destruct (Save _ _ _) as [[]].
Qed.

Lemma send_keeps ch msg s ch' msg' :
  msg' ∈ default [] (s !! ch') → msg' ∈ default [] (send ch msg s !! ch').
Proof.
  unfold send. destruct (decide (ch = ch')) as [<-|Hne].
  - rewrite lookup_insert_eq. simpl. set_solver.
  - by rewrite lookup_insert_ne.
Qed.

Lemma apply_one_answers i n n' :
  apply_one i n = (true, n') →
  (∀ ch, writeWaiters n !! i = Some ch → was_sent ch None n') ∧
  (∀ ch msg, was_sent ch msg n → was_sent ch msg n') ∧
  (∀ j, j ≠ i → writeWaiters n' !! j = writeWaiters n !! j).
Proof.
  unfold apply_one. destruct (Log.Get i (log n)) as [e|]; [|done].
  destruct (apply_entry e (sm n)) as [[] machine]; [done|].
  set (n1 := satisfyPendingReadsLocked _).
  assert ((∀ ch, writeWaiters n !! i = Some ch → was_sent ch None n1) ∧
    (∀ ch msg, was_sent ch msg n → was_sent ch msg n1) ∧
    (∀ j, j ≠ i → writeWaiters n1 !! j = writeWaiters n !! j)) as Hn1.
  { unfold n1, was_sent, notifyWritersLocked. cbn [writeWaiters with_lastApplied with_sm].
    destruct (writeWaiters n !! i) as [ch0|] eqn:Hw; simpl; [|done]. split_and!.
    - intros ch [= <-]. unfold send. rewrite lookup_insert_eq. simpl. set_solver.
    - intros ch msg. apply send_keeps.
    - intros j Hj. by rewrite lookup_delete_ne. }
  clearbody n1. cbn zeta. destruct (_ && _); intros [= <-]; [|done].
  unfold was_sent in *. by destruct (maybeSnapshot_sent i n1) as [-> ->].
Qed.

Lemma apply_loop_answers fuel a commit n al m :
  log_rep (log n) al → kv_rep (sm n) m → a_base al ≤ a ≤ commit → commit ≤ a_last al →
  Forall (λ e, is_u64 (Term e)) (a_entries al) → commit - a ≤ Z.of_nat fuel →
  writes_for (Z.to_nat (commit - a)) (sm_engine (sm n)) →
  let n' := apply_loop fuel a commit n in
  (∀ ch msg, was_sent ch msg n → was_sent ch msg n') ∧
  ∀ i ch, a < i ≤ commit → writeWaiters n !! i = Some ch → was_sent ch None n'.
Proof.
  revert a n al m. induction fuel as [|fuel IH]; intros a n al m Hr Hk Ha Hc Hts Hf Hw; cbn zeta;
    cbn [apply_loop]; [split; [done|intros; lia]|].
  pose proof (wf_base _ (r_wf _ _ Hr)). pose proof (wf_last _ (r_wf _ _ Hr)).
  destruct (Z.ltb_spec a commit) as [Hlt|Hge]; [|split; [done|intros; lia]].
  rewrite u64_small by u64_lia.
  pose proof (apply_one_rep (a + 1) n al m Hr Hk ltac:(lia) Hts) as Hone.
  destruct (apply_one (a + 1) n) as [go_on n1] eqn:Hap.
  destruct Hone as (al1 & Hr1 & [Hb1 Hl1 He1 Ht1] & _ & _ & _ & Hk1 & Hw1).
  replace (Z.to_nat (commit - a)) with (S (Z.to_nat (commit - (a + 1)))) in Hw by lia.
  destruct (Hw1 _ Hw) as [-> Hw2].
  destruct (apply_one_answers _ _ _ Hap) as (Hans & Hmono & Hkeep).
  destruct (IH (a + 1) n1 al1 _ Hr1 Hk1) as [Hm2 Ha2]; try done; try lia.
  split; [by eauto|]. intros i ch Hi Hwi. destruct (decide (i = a + 1)) as [->|Hne].
  - by apply Hm2, Hans.
  - apply (Ha2 i); [lia|]. by rewrite Hkeep.
Qed.

(** What the apply loop needs: its log and its store are intact and cover the
    indices between [lastApplied] and [commitIndex]. *)
Record appliable n al m : Prop := {
  ap_log : log_rep (log n) al;
  ap_kv : kv_rep (sm n) m;
  ap_base : a_base al ≤ lastApplied n ≤ commitIndex n;
  ap_last : commitIndex n ≤ a_last al;
  ap_terms : Forall (λ e, is_u64 (Term e)) (a_entries al);
  ap_writes : writes_for (Z.to_nat (commitIndex n - lastApplied n)) (sm_engine (sm n))
}.

Lemma appliable_frame n n' al m :
  log n' = log n → sm n' = sm n → lastApplied n' = lastApplied n → commitIndex n' = commitIndex n →
  appliable n al m → appliable n' al m.
Proof. intros Hl Hs Ha Hc []. split; rewrite ?Hl, ?Hs, ?Ha, ?Hc; done. Qed.

Lemma applyCommitted_answers n al m :
  appliable n al m →
  lastApplied (applyCommitted n) = commitIndex n ∧
  ∀ i ch, lastApplied n < i ≤ commitIndex n → writeWaiters n !! i = Some ch →
    was_sent ch None (applyCommitted n).
Proof.
  intros [Hr Hk Hb Hl Ht Hw]. unfold applyCommitted. split.
  - destruct (apply_loop_rep (Z.to_nat (commitIndex n - lastApplied n)) (lastApplied n)
      (commitIndex n) n al m) as (k & al' & _ & -> & _ & _ & _ & _ & _ & Hp); try done; [lia|].
    by apply Hp.
  - eapply (apply_loop_answers _ _ _ n al m); try done. lia.
Qed.

(** C26: Committed proposals are answered.  As soon as the apply loop runs - on the
    wake-up signal, or at the latest with the next tick of its ticker - every
    committed entry is applied, and every proposal that waits for one of them
    gets the answer that it succeeded, provided the storage accepts the writes. *)
Theorem committed_proposals_answered st al m dt :
  lp_apply_done st = false → appliable (lp_node st) al m → k_next (lp_ticker st) ≤ dt →
  let n := lp_node st in
  let answered n' :=
    lastApplied n' = commitIndex n ∧
    ∀ i ch, lastApplied n < i ≤ commitIndex n → writeWaiters n !! i = Some ch →
      was_sent ch None n' in
  answered (lp_node (run [LElapse dt; LApply ATick] st)) ∧
  (commitAdvancedCh n = true → answered (lp_node (loop_step (LApply ASignal) st))).
Proof.
  intros Hrun Hap Hdt n answered. split.
  - cbn [run loop_step]. unfold apply_step. simpl. rewrite Hrun. simpl. unfold ticker_elapse at 1.
    destruct (Z.ltb_spec dt (k_next (lp_ticker st))); [lia|]. simpl.
    exact (applyCommitted_answers n al m Hap).
  - intros Hs. cbn [loop_step]. unfold apply_step. rewrite Hrun. fold n. rewrite Hs. cbn [lp_node set_lp_node].
    exact (applyCommitted_answers (with_commitAdvancedCh false n) al m
      (appliable_frame n (with_commitAdvancedCh false n) al m eq_refl eq_refl eq_refl eq_refl Hap)).
Qed.

End apply.

(** ** Witnesses *)

Import Gob Json.

(** A network on which every call fails. *)
#[local] Instance silent_network : Transport unit := {
  tr_RequestVote p _ s := (Err (ErrTransport p), s);
  tr_AppendEntries p _ s := (Err (ErrTransport p), s);
  tr_InstallSnapshot p _ s := (Err (ErrTransport p), s)
}.

Definition half (span : Z) : Z := span / 2.

Lemma half_ok : draw_ok half.
Proof. intros span Hs. unfold half. Z.div_mod_to_equations. lia. Qed.

Lemma demo_options_ok : options_ok demo_options.
Proof. split; vm_compute; [split|split|]; done. Qed.

Ltac events_ok :=
  repeat (apply Forall_cons_2; [first [exact I | exact half_ok | simpl; lia]|]); apply Forall_nil_2.

Definition started : loops MemEngine MemEngine unit :=
  match Start half (n1, tt) with
  | Ok st => st
  | Err _ => mkLoops n1 tt (NewTimer 0) (mkTicker 0 0 false) (mkTicker 0 0 false) true true true 0
  end.

Definition heartbeat_from_n2 : loop_event := LNode (NAppend (mkAEReq 1 "n2" 0 0 [] 0 "")).

Lemma leader_activity_prevents_elections_witness :
  let evs0 := [LElapse 200; heartbeat_from_n2] in
  let evs := [LElapse 100; heartbeat_from_n2; LTimer (TReset half); LElapse 100;
              LTimer (TTimeout [] half)] in
  lp_elections (run (LTimer (TReset half) :: evs) (run evs0 started)) = 0%nat.
Proof.
  cbn zeta.
  rewrite (leader_activity_prevents_elections half half (n1, tt) started
    [LElapse 200; heartbeat_from_n2]
    [LElapse 100; heartbeat_from_n2; LTimer (TReset half); LElapse 100; LTimer (TTimeout [] half)]);
    [vm_compute; reflexivity | vm_compute; reflexivity | exact demo_options_ok | exact half_ok
    | exact half_ok | events_ok
    | events_ok | vm_compute; reflexivity
    | vm_compute; reflexivity |].
  repeat split; vm_compute; reflexivity.
Defined.

Lemma silence_starts_election_witness :
  let st := run [LElapse 150; heartbeat_from_n2; LElapse 150] (run [LElapse 10] started) in
  lp_elections (loop_step (LTimer (TTimeout [EvReply (Ok (mkRVResp 1 true))] half)) st) = 1%nat.
Proof.
  cbn zeta.
  destruct (silence_starts_election half (n1, tt) started [LElapse 10]
    [LElapse 150; heartbeat_from_n2; LElapse 150] [EvReply (Ok (mkRVResp 1 true))] half)
    as (_ & He & _);
    [vm_compute; reflexivity | exact demo_options_ok | exact half_ok
    | events_ok | reflexivity | reflexivity | vm_compute; discriminate
    | vm_compute; reflexivity | vm_compute; discriminate |].
  rewrite He. vm_compute. reflexivity.
Defined.

(** A leader whose proposal at index 2 is committed and waits on channel 7. *)
Definition waiting_node : Node MemEngine MemEngine :=
  with_writers {[2 := 7%nat]} ∅ committed_node.

Definition waiting_loops : loops MemEngine MemEngine unit :=
  mkLoops waiting_node tt (NewTimer 200) (mkTicker 50 50 false)
    (mkTicker apply_period apply_period false) false false false 0.

Lemma committed_proposals_answered_witness :
  let st' := run [LElapse apply_period; LApply ATick] waiting_loops in
  lastApplied (lp_node st') = 3 ∧ was_sent 7 None (lp_node st').
Proof.
  destruct (committed_proposals_answered waiting_loops leader_alog ∅ apply_period) as [[Hl Ha] _];
    [reflexivity | | reflexivity |].
  - split; [exact leader_node_rep | exact empty_store_rep | vm_compute; split; discriminate
      | vm_compute; discriminate | exact demo_terms | apply mem_writes_for; reflexivity].
  - split; [exact Hl|]. apply (Ha 2 7%nat); [vm_compute; split; (reflexivity || discriminate)|].
    vm_compute. reflexivity.
Defined.

(** A heartbeat interval of zero, which the configuration accepts, makes
    [Start] panic. *)
Example zero_heartbeat_panics :
  Start half (with_electionResetCh false
    (mkNode "n1" [] (mkOptions 150 300 0 0 0 true) (log n1) (sm n1) (snapStore n1) Follower 0 0
       ∅ ∅ "" "" "" false false [] ∅ ∅ ∅ 0%nat), tt) = Err ErrPanic.
Proof. reflexivity. Qed.
