(* ===== verification/Server.v ===== *)
(** * internal/server: the client API and the translation at the RPC boundary.

    The handlers of client_server.go over the node's operations, and the
    conversions between the raft package's messages and the generated protobuf
    messages.  gRPC itself is not modelled: a protobuf message is the record of
    its fields. *)

From S2P Require Import Prelude Bytes Storage Codec Log LogSpec LogTheorems StateMachine.
From S2P Require Import SnapshotStore Node Election Replication Apply Client.
Import KV.

(** ** client_server.go *)

(** [StatusCode] of proto/kv.proto. *)
Inductive StatusCode := OK | NOT_LEADER | TIMEOUT | NOT_FOUND | INTERNAL_ERROR.

#[export] Instance StatusCode_eq_dec : EqDecision StatusCode.
Proof. solve_decision. Defined.

Definition statusFor (err : option error) : StatusCode :=
  match err with
  | None => OK
  | Some ErrNotLeader => NOT_LEADER
  | Some ErrDeadlineExceeded => TIMEOUT
  | Some ErrReadIndexTimeout => TIMEOUT
  | Some ErrProposalDropped => NOT_LEADER
  | Some _ => INTERNAL_ERROR
  end.

(** [PutResponse] and [DeleteResponse] have the same fields. *)
Record WriteResponse := mkWriteResponse {
  wr_Status : StatusCode;
  wr_LeaderHint : string;
  wr_Error : string
}.

Record GetResponse := mkGetResponse {
  gr_Status : StatusCode;
  gr_Value : bytes;
  gr_LeaderHint : string;
  gr_Error : string
}.

Section client_server.
Context {E K : Type} `{Engine E} `{Engine K} `{Codec Entry}.
(** The [Error] method of the error values. *)
Context (message : error → string).
Implicit Types (n : Node E K).

Definition errString (err : option error) : string :=
  match err with None => "" | Some err => message err end.

Definition write_response (err : option error) n : WriteResponse :=
  mkWriteResponse (statusFor err) (LeaderHint n) (errString err).

(** [Put] and [Delete] up to the point where [Propose] blocks: an answer, or the
    entry and channel to wait for. *)
Definition Put_start (key : string) (value : bytes) (reqID : string) n :
    (WriteResponse + Entry * chan) * Node E K :=
  let '(r, n) := propose_start EntryPut key value reqID n in
  match r with
  | Err err => (inl (write_response (Some err) n), n)
  | Ok wait => (inr wait, n)
  end.

Definition Delete_start (key : string) (reqID : string) n :
    (WriteResponse + Entry * chan) * Node E K :=
  let '(r, n) := propose_start EntryDelete key [] reqID n in
  match r with
  | Err err => (inl (write_response (Some err) n), n)
  | Ok wait => (inr wait, n)
  end.

(** What both do when [Propose] wakes up. *)
Definition write_wake (ev : wake_event) (index : Z) (ch : chan) n :
    option (WriteResponse * Node E K) :=
  match propose_wake ev index ch n with
  | None => None
  | Some (err, n) => Some (write_response err n, n)
  end.

(** [Get], with the outcome of [LinearizableRead] when the client asked for it. *)
Definition Get_handler (read : option (option error)) (key : string) n : GetResponse :=
  match read with
  | Some (Some err) => mkGetResponse (statusFor (Some err)) [] (LeaderHint n) (message err)
  | _ =>
      match KV.Get key (sm n) with
      | Err err => mkGetResponse INTERNAL_ERROR [] "" (message err)
      | Ok None => mkGetResponse NOT_FOUND [] "" ""
      | Ok (Some v) => mkGetResponse OK v "" ""
      end
  end.

End client_server.

(** ** The messages of proto/raft.proto *)

(** [EntryType] is a 32-bit integer on both sides of the conversion. *)
Record PBLogEntry := mkPBEntry {
  pb_Index : Z;
  pb_Term : Z;
  pb_Type : Z;
  pb_Key : string;
  pb_Value : bytes;
  pb_ClientRequestId : string
}.

Record PBRequestVoteRequest := mkPBRVReq {
  pb_rv_Term : Z;
  pb_rv_CandidateId : string;
  pb_rv_LastLogIndex : Z;
  pb_rv_LastLogTerm : Z
}.

Record PBRequestVoteResponse := mkPBRVResp {
  pb_rvr_Term : Z;
  pb_rvr_VoteGranted : bool
}.

Record PBAppendEntriesRequest := mkPBAEReq {
  pb_ae_Term : Z;
  pb_ae_LeaderId : string;
  pb_ae_PrevLogIndex : Z;
  pb_ae_PrevLogTerm : Z;
  pb_ae_Entries : list PBLogEntry;
  pb_ae_LeaderCommit : Z;
  pb_ae_LeaderClientAddr : string
}.

Record PBAppendEntriesResponse := mkPBAEResp {
  pb_aer_Term : Z;
  pb_aer_Success : bool;
  pb_aer_ConflictTerm : Z;
  pb_aer_ConflictIndex : Z
}.

Record PBInstallSnapshotRequest := mkPBISReq {
  pb_is_Term : Z;
  pb_is_LeaderId : string;
  pb_is_LastIncludedIndex : Z;
  pb_is_LastIncludedTerm : Z;
  pb_is_Data : bytes
}.

Record PBInstallSnapshotResponse := mkPBISResp { pb_isr_Term : Z }.

Definition toPBEntries (entries : list Entry) : list PBLogEntry :=
  (λ e, mkPBEntry (Index e) (Term e) (Type_ e) (Key e) (Value e) (ClientRequestID e)) <$> entries.

Definition fromPBEntries (entries : list PBLogEntry) : list Entry :=
  (λ e, mkEntry (pb_Index e) (pb_Term e) (pb_Type e) (pb_Key e) (pb_Value e)
          (pb_ClientRequestId e)) <$> entries.

(** ** raft_server.go *)

Section raft_server.
Context {E K : Type} `{Engine E} `{Engine K} `{Codec Entry} `{Codec (gmap string bytes)}
  `{Codec SnapshotMeta}.
Implicit Types (n : Node E K).

Definition RaftServer_RequestVote (req : PBRequestVoteRequest) n :
    PBRequestVoteResponse * Node E K :=
  let '(resp, n) := HandleRequestVote (mkRVReq (pb_rv_Term req) (pb_rv_CandidateId req)
    (pb_rv_LastLogIndex req) (pb_rv_LastLogTerm req)) n in
  (mkPBRVResp (rvr_Term resp) (rvr_VoteGranted resp), n).

Definition RaftServer_AppendEntries (req : PBAppendEntriesRequest) n :
    PBAppendEntriesResponse * Node E K :=
  let '(resp, n) := HandleAppendEntries (mkAEReq (pb_ae_Term req) (pb_ae_LeaderId req)
    (pb_ae_PrevLogIndex req) (pb_ae_PrevLogTerm req) (fromPBEntries (pb_ae_Entries req))
    (pb_ae_LeaderCommit req) (pb_ae_LeaderClientAddr req)) n in
  (mkPBAEResp (aer_Term resp) (aer_Success resp) (aer_ConflictTerm resp) (aer_ConflictIndex resp), n).

Definition RaftServer_InstallSnapshot (req : PBInstallSnapshotRequest) n :
    PBInstallSnapshotResponse * Node E K :=
  let '(resp, n) := HandleInstallSnapshot (mkISReq (pb_is_Term req) (pb_is_LeaderId req)
    (pb_is_LastIncludedIndex req) (pb_is_LastIncludedTerm req) (pb_is_Data req)) n in
  (mkPBISResp (isr_Term resp), n).

End raft_server.

(** ** transport.go *)

(** [conns] caches one connection per peer. *)
Record GRPCTransport (C : Type) := mkTransport {
  conns : gmap string C;
  addrs : gmap string string
}.
Arguments mkTransport {C}.
Arguments conns {C}.
Arguments addrs {C}.

Definition NewGRPCTransport {C} (peerRaftAddrs : gmap string string) : GRPCTransport C :=
  mkTransport ∅ peerRaftAddrs.

Section transport.
(** gRPC: how a connection is made and closed, and the three generated client
    calls on a connection. *)
Context {C : Type} (NewClient : string → result C) (closeConn : C → option error).
Context (call_RequestVote : C → PBRequestVoteRequest → result PBRequestVoteResponse)
  (call_AppendEntries : C → PBAppendEntriesRequest → result PBAppendEntriesResponse)
  (call_InstallSnapshot : C → PBInstallSnapshotRequest → result PBInstallSnapshotResponse).
Implicit Types (t : GRPCTransport C).

Definition client (peerID : string) t : result C * GRPCTransport C :=
  match conns t !! peerID with
  | Some conn => (Ok conn, t)
  | None =>
      match addrs t !! peerID with
      | None => (Err (ErrTransport peerID), t)
      | Some addr =>
          match NewClient addr with
          | Err err => (Err err, t)
          | Ok conn => (Ok conn, mkTransport (<[peerID := conn]> (conns t)) (addrs t))
          end
      end
  end.

(** The connections are closed in the order of the map's iteration; the first
    error is returned. *)
Definition Close t : option error * GRPCTransport C :=
  (foldl (λ firstErr conn, match firstErr with Some err => Some err | None => closeConn conn end)
     None (map snd (map_to_list (conns t))),
   mkTransport ∅ (addrs t)).

Definition transport_RequestVote (peerID : string) (req : RequestVoteRequest) t :
    result RequestVoteResponse * GRPCTransport C :=
  let '(c, t) := client peerID t in
  (let? c := c in
   let? resp := call_RequestVote c (mkPBRVReq (rv_Term req) (rv_CandidateID req)
     (rv_LastLogIndex req) (rv_LastLogTerm req)) in
   Ok (mkRVResp (pb_rvr_Term resp) (pb_rvr_VoteGranted resp)), t).

Definition transport_AppendEntries (peerID : string) (req : AppendEntriesRequest) t :
    result AppendEntriesResponse * GRPCTransport C :=
  let '(c, t) := client peerID t in
  (let? c := c in
   let? resp := call_AppendEntries c (mkPBAEReq (ae_Term req) (ae_LeaderID req)
     (ae_PrevLogIndex req) (ae_PrevLogTerm req) (toPBEntries (ae_Entries req))
     (ae_LeaderCommit req) (ae_LeaderClientAddr req)) in
   Ok (mkAEResp (pb_aer_Term resp) (pb_aer_Success resp) (pb_aer_ConflictTerm resp)
         (pb_aer_ConflictIndex resp)), t).

Definition transport_InstallSnapshot (peerID : string) (req : InstallSnapshotRequest) t :
    result InstallSnapshotResponse * GRPCTransport C :=
  let '(c, t) := client peerID t in
  (let? c := c in
   let? resp := call_InstallSnapshot c (mkPBISReq (is_Term req) (is_LeaderID req)
     (is_LastIncludedIndex req) (is_LastIncludedTerm req) (is_Data req)) in
   Ok (mkISResp (pb_isr_Term resp)), t).

End transport.

(** ** Theorems *)

Lemma fromPB_toPB es : fromPBEntries (toPBEntries es) = es.
Proof.
  unfold fromPBEntries, toPBEntries. rewrite <-list_fmap_compose.
  induction es as [|e es IH]; [done|]. rewrite fmap_cons, IH. by destruct e.
Qed.

Section transparent.
Context {E K : Type} `{Engine E} `{Engine K} `{Codec Entry} `{Codec (gmap string bytes)}
  `{Codec SnapshotMeta}.
Context {C : Type} (NewClient : string → result C).

(** C33: RPCs are transparent.  When the connection of a peer delivers a call to
    the server of a node and its answer back, the transport returns exactly what
    the node's handler answers to the caller's request, for all three RPCs: no
    field is lost, swapped or changed by the two conversions. *)
Theorem rpc_transparent peer conn (t : GRPCTransport C) (n : Node E K)
    call_rv call_ae call_is :
  conns t !! peer = Some conn →
  (∀ req, call_rv conn req = Ok (RaftServer_RequestVote req n).1) →
  (∀ req, call_ae conn req = Ok (RaftServer_AppendEntries req n).1) →
  (∀ req, call_is conn req = Ok (RaftServer_InstallSnapshot req n).1) →
  (∀ req, transport_RequestVote NewClient call_rv peer req t =
     (Ok (HandleRequestVote req n).1, t)) ∧
  (∀ req, transport_AppendEntries NewClient call_ae peer req t =
     (Ok (HandleAppendEntries req n).1, t)) ∧
  (∀ req, transport_InstallSnapshot NewClient call_is peer req t =
     (Ok (HandleInstallSnapshot req n).1, t)).
Proof.
  intros Hc Hrv Hae His.
  assert (client NewClient peer t = (Ok conn, t)) as Hcl by (unfold client; by rewrite Hc).
  split_and!; intros req.
  - unfold transport_RequestVote. rewrite Hcl, Hrv. unfold RaftServer_RequestVote.
    destruct req as [rt rc ri rlt]. simpl. by destruct (HandleRequestVote _ n) as [[] m].
  - unfold transport_AppendEntries. rewrite Hcl, Hae. unfold RaftServer_AppendEntries.
    destruct req as [at_ al ap apt aes ac aa]. cbn -[HandleAppendEntries]. rewrite fromPB_toPB.
    by destruct (HandleAppendEntries _ n) as [[] m].
  - unfold transport_InstallSnapshot. rewrite Hcl, His. unfold RaftServer_InstallSnapshot.
    destruct req as [it il ii iit id]. cbn -[HandleInstallSnapshot].
    by destruct (HandleInstallSnapshot _ n) as [[] m].
Qed.

End transparent.

Section client_api.
Context {E K : Type} `{Engine E} `{EngineSpec K} `{Codec Entry}.
Context (message : error → string).

(** What the statuses of the client API mean.  A write is answered OK exactly
    when its proposal was answered without an error, and NOT_LEADER exactly when
    the node did not lead or dropped the proposal; a read that was confirmed (or
    did not ask for it) is answered with the value that the state machine holds,
    NOT_FOUND exactly when it holds none. *)
Theorem client_statuses (n : Node E K) m ev index ch resp n' key read :
  kv_rep (sm n) m → read = None ∨ read = Some None →
  write_wake message ev index ch n = Some (resp, n') →
  (wr_Status resp = OK ↔ propose_wake ev index ch n = Some (None, n')) ∧
  (wr_Status resp = NOT_LEADER ↔
     propose_wake ev index ch n = Some (Some ErrNotLeader, n') ∨
     propose_wake ev index ch n = Some (Some ErrProposalDropped, n')) ∧
  Get_handler message read key n =
    match m !! key with
    | Some v => mkGetResponse OK v "" ""
    | None => mkGetResponse NOT_FOUND [] "" ""
    end.
Proof.
  intros Hk Hread Hw. unfold write_wake in Hw.
  destruct (propose_wake ev index ch n) as [[err n1]|]; [|done]. injection Hw as <- <-. simpl.
  assert (Get_handler message read key n =
    match m !! key with
    | Some v => mkGetResponse OK v "" ""
    | None => mkGetResponse NOT_FOUND [] "" ""
    end) as Hg.
  { unfold Get_handler. rewrite (KV_Get_rep _ _ _ Hk).
    destruct Hread as [->| ->]; by destruct (m !! key). }
  split_and!; [| |exact Hg].
  - destruct err as [[]|]; simpl; intuition congruence.
  - destruct err as [[]|]; simpl; intuition congruence.
Qed.

End client_api.

(** ** Witnesses *)

Import Gob Json.

Definition server_node : Node MemEngine MemEngine :=
  mkNode "n1" ["n2"] (mkOptions 150 300 50 0 64 true) empty_log demo_store (mkFS ∅ []) Follower 0 0
    ∅ ∅ "" "" "" false false [] ∅ {[0%nat := [None]]} ∅ 1%nat.

Lemma rpc_transparent_witness :
  transport_RequestVote (λ _, Err ErrPanic)
    (λ (_ : unit) req, Ok (RaftServer_RequestVote req server_node).1) "n1" (mkRVReq 1 "n2" 0 0)
    (mkTransport {["n1" := ()]} ∅) = (Ok (mkRVResp 1 true), mkTransport {["n1" := ()]} ∅).
Proof.
  destruct (rpc_transparent (λ _, Err ErrPanic) "n1" () (mkTransport {["n1" := ()]} ∅) server_node
    (λ _ req, Ok (RaftServer_RequestVote req server_node).1)
    (λ _ req, Ok (RaftServer_AppendEntries req server_node).1)
    (λ _ req, Ok (RaftServer_InstallSnapshot req server_node).1)) as (Hrv & _);
    [reflexivity | reflexivity | reflexivity | reflexivity |].
  rewrite Hrv. vm_compute. reflexivity.
Defined.

Lemma client_statuses_witness :
  wr_Status (write_response (λ _, "") None server_node) = OK ∧
  Get_handler (λ _, "") None "x" server_node = mkGetResponse OK (bytes_of "1") "" "".
Proof.
  destruct (client_statuses (λ _, "") server_node demo_map OnChannel 1 0%nat
    (write_response (λ _, "") None server_node) server_node "x" None) as (Hok & _ & Hg);
    [exact demo_store_rep | left; reflexivity | reflexivity |].
  split; [apply Hok; reflexivity | exact Hg].
Defined.
