(* ===== verification/NodeMain.v ===== *)
(** * cmd/node/main.go: the program that runs one node.

    [construct] is the start-up of [main] up to the finished node: configuration,
    data directory, the two databases, snapshot directory, transport and
    [NewNode]; the first error ends it, as [log.Fatalf] does.  [main_start] starts
    the loops and the two listeners, [shutdown] is what happens after a signal.
    Pebble, gRPC and the network listener are parameters; directories other than
    the databases' are file systems as in SnapshotStore.v. *)

From S2P Require Import Prelude Bytes Storage Codec Log LogSpec LogTheorems StateMachine.
From S2P Require Import SnapshotStore GoStrings Config Node Election Replication Apply Client.
From S2P Require Import Lifecycle LifecycleTheorems Server.
Import KV Pebble.

(** ** path/filepath *)

Definition slash : byte := "/"%char.

(** One component of the path, on the components kept so far (last one first). *)
Definition clean_component (rooted : bool) (out : list bytes) (c : bytes) : list bytes :=
  if bool_decide (c = [] ∨ c = bytes_of ".") then out
  else if bool_decide (c = bytes_of "..") then
    match out with
    | p :: out' => if bool_decide (p = bytes_of "..") then c :: out else out'
    | [] => if rooted then [] else [c]
    end
  else c :: out.

Definition clean_components (rooted : bool) (cs : list bytes) : list bytes :=
  foldl (clean_component rooted) [] cs.

(** [filepath.Clean] with the separator of Unix. *)
Definition Clean (path : bytes) : bytes :=
  let rooted := bool_decide (head path = Some slash) in
  let text := join slash (reverse (clean_components rooted (split_on slash path))) in
  match (if rooted then slash :: text else text) with
  | [] => bytes_of "."
  | cleaned => cleaned
  end.

(** [filepath.Join] of a directory and a file name: empty elements are ignored. *)
Definition Join (dir name : string) : string :=
  string_of (Clean (if String.eqb dir "" then bytes_of name
                    else bytes_of dir ++ slash :: bytes_of name)).

(** ** What the configuration becomes *)

Definition options_of (c : Config) : Options :=
  mkOptions (cfg_ElectionTimeoutMin c) (cfg_ElectionTimeoutMax c) (cfg_HeartbeatInterval c)
    (cfg_SnapshotThreshold c) (cfg_ReplicationBatchMaxEntries c) (cfg_FsyncOnAppend c).

Definition peer_ids (c : Config) : list string := ID <$> cfg_Peers c.

Definition peer_addrs (c : Config) : gmap string string :=
  foldl (λ m p, <[ID p := RaftAddr p]> m) ∅ (cfg_Peers c).

Section main.
Context {DB : Type} `{PebbleDB DB} `{PebbleProcess DB} `{Codec Entry}
  `{Codec (gmap string bytes)} `{Codec SnapshotMeta}.
Context {C : Type}.

Abbreviation engine_t := (PebbleEngine DB).
Abbreviation node_t := (Node engine_t engine_t).

Record running := mkRunning {
  rn_config : Config;
  rn_raft : engine_t;
  rn_kv : engine_t;
  rn_transport : GRPCTransport C;
  rn_node : node_t
}.

(** [dirs] gives the contents of a directory. *)
Definition construct (env : gmap string string) (f : fs) (dirs : string → fs) : result running :=
  match Load env f with
  | (Some err, _) => Err err
  | (None, cfg) =>
      match (os_MkdirAll (dirs (cfg_DataDir cfg))).1 with
      | Some err => Err err
      | None =>
          let? raftEngine := OpenPebble (Join (cfg_DataDir cfg) "raftlog") in
          let? kvEngine := OpenPebble (Join (cfg_DataDir cfg) "kvdata") in
          let? snaps := NewSnapshotStore (dirs (Join (cfg_DataDir cfg) "snapshots")) in
          let stateMachine := NewStateMachine kvEngine in
          let transport := NewGRPCTransport (peer_addrs cfg) in
          let? node := NewNode (cfg_NodeID cfg) (peer_ids cfg) (options_of cfg) raftEngine
            stateMachine snaps (cfg_ClientAddr cfg) in
          Ok (mkRunning cfg raftEngine kvEngine transport node)
      end
  end.

(** The loops run before the listeners are opened; [listen] is [net.Listen]. *)
Definition main_start (env : gmap string string) (f : fs) (dirs : string → fs) (draw : Z → Z)
    (listen : string → option error) :
    result (running * loops engine_t engine_t (GRPCTransport C)) :=
  let? r := construct env f dirs in
  let? st := Start draw (rn_node r, rn_transport r) in
  match listen (cfg_RaftAddr (rn_config r)) with
  | Some err => Err err
  | None =>
      match listen (cfg_ClientAddr (rn_config r)) with
      | Some err => Err err
      | None => Ok (r, st)
      end
  end.

Context `{Transport (GRPCTransport C)}.

(** After the signal and the end of the two servers: [node.Stop] waits for both
    loops, with [evs] happening meanwhile, and only then the databases are
    closed.  [None] while it still waits. *)
Definition shutdown (evs : list loop_event) (r : running)
    (st : loops engine_t engine_t (GRPCTransport C)) :
    option (list (option error) * loops engine_t engine_t (GRPCTransport C)) :=
  let st := run evs (Stop st) in
  if Stop_returns st then Some ([Close (rn_raft r); Close (rn_kv r)], st) else None.

End main.

(** ** The directories are different *)

Definition proper_name (name : bytes) : Prop :=
  name ≠ [] ∧ name ≠ bytes_of "." ∧ name ≠ bytes_of ".." ∧ slash ∉ name.

Lemma split_on_last c p s :
  c ∉ s → ∃ q ps, split_on c (p ++ c :: s) = (q :: ps) ++ [s].
Proof.
  intros Hs. induction p as [|b p (q & ps & IH)]; simpl.
  - rewrite decide_True by done. exists [], []. by rewrite split_on_whole.
  - destruct (decide (b = c)); [exists [], (q :: ps) | exists (b :: q), ps]; by rewrite IH.
Qed.

Lemma clean_components_last rooted cs name :
  proper_name name →
  clean_components rooted (cs ++ [name]) = name :: clean_components rooted cs.
Proof.
  intros (H1 & H2 & H3 & _). unfold clean_components. rewrite foldl_app. simpl.
  unfold clean_component at 1. rewrite !bool_decide_eq_false_2; [done|done|]. by intros [].
Qed.

(** What comes before the last component. *)
Definition before_last (c : byte) (ps : list bytes) : bytes :=
  match ps with [] => [] | _ => join c ps ++ [c] end.

Lemma join_snoc c ps p : join c (ps ++ [p]) = before_last c ps ++ p.
Proof.
  induction ps as [|q ps IH]; [done|]. destruct ps as [|q' ps]; [simpl; by rewrite <-app_assoc|].
  cbn [app join before_last] in *. rewrite IH. by rewrite <-!app_assoc.
Qed.

(** The path of a proper name in a directory: a prefix that depends only on the
    directory, then the name. *)
Lemma Join_name dir :
  ∃ pre, ∀ name, proper_name (bytes_of name) → bytes_of (Join dir name) = pre ++ bytes_of name.
Proof.
  unfold Join. destruct (String.eqb_spec dir "") as [->|Hne].
  - exists []. intros name Hp. rewrite bytes_of_string_of. pose proof Hp as (Hnil & _ & _ & Hs).
    unfold Clean. rewrite (split_on_whole _ _ Hs).
    rewrite (clean_components_last _ [] _ Hp). simpl.
    rewrite bool_decide_eq_false_2; [by destruct (bytes_of name)|].
    destruct (bytes_of name) as [|b t]; [done|]. intros [= ->]. apply Hs. set_solver.
  - destruct (bytes_of dir) as [|b d] eqn:Hd; [by apply (bytes_of_inj dir "") in Hd|].
    set (rooted := bool_decide (Some b = Some slash)).
    assert (∃ ps, ∀ name, proper_name (bytes_of name) →
      split_on slash ((b :: d) ++ slash :: bytes_of name) = ps ++ [bytes_of name]) as [ps Hps].
    { exists (removelast (split_on slash ((b :: d) ++ [slash]))). intros name (_ & _ & _ & Hs).
      generalize (b :: d). intros p. clear -Hs.
      induction p as [|b p IH]; simpl.
      - by rewrite split_on_whole.
      - destruct (split_on_last slash p (bytes_of name) Hs) as (q & ps & Hq).
        destruct (split_on_last slash p []) as (q' & ps' & Hq'); [set_solver|].
        rewrite Hq, Hq' in *. rewrite removelast_last in IH. apply app_inj_tail in IH as [Heq _].
        injection Heq as -> ->. destruct (decide (b = slash)).
        + change ([] :: (q' :: ps') ++ [[]]) with (([] :: q' :: ps') ++ [@nil ascii]).
          by rewrite removelast_last.
        + cbn [app]. change ((b :: q') :: ps' ++ [[]]) with (((b :: q') :: ps') ++ [@nil ascii]).
          by rewrite removelast_last. }
    exists ((if rooted then [slash] else []) ++
            before_last slash (reverse (clean_components rooted ps))).
    intros name Hp. rewrite bytes_of_string_of. unfold Clean.
    change (head ((b :: d) ++ slash :: bytes_of name)) with (Some b). fold rooted.
    rewrite (Hps name Hp), (clean_components_last _ _ _ Hp), reverse_cons, join_snoc.
    destruct Hp as (Hnil & _). rewrite <-app_assoc.
    destruct rooted; [done|]. simpl. destruct (before_last _ _); [|done]. by destruct (bytes_of name).
Qed.

Lemma Join_inj dir a b :
  proper_name (bytes_of a) → proper_name (bytes_of b) → Join dir a = Join dir b → a = b.
Proof.
  intros Ha Hb Heq. destruct (Join_name dir) as [pre Hpre].
  pose proof (Hpre a Ha) as H1. rewrite Heq, (Hpre b Hb) in H1.
  apply app_inv_head in H1. by apply bytes_of_inj.
Qed.

Lemma store_names_proper :
  proper_name (bytes_of "raftlog") ∧ proper_name (bytes_of "kvdata") ∧
  proper_name (bytes_of "snapshots").
Proof. unfold proper_name, slash. split_and!; try done; by apply (bool_decide_unpack _). Qed.

(** ** The wiring of the node *)

Lemma peer_addrs_lookup c p :
  NoDup (peer_ids c) → p ∈ cfg_Peers c → peer_addrs c !! ID p = Some (RaftAddr p).
Proof.
  unfold peer_ids, peer_addrs. generalize (cfg_Peers c) as ps. clear c.
  assert (∀ ps (m : gmap string string) i, i ∉ ID <$> ps →
    foldl (λ m p, <[ID p := RaftAddr p]> m) m ps !! i = m !! i) as Hskip.
  { intros ps. induction ps as [|q ps IH]; intros m i Hi; [done|]. simpl.
    rewrite IH by set_solver. apply lookup_insert_ne. set_solver. }
  intros ps. generalize (∅ : gmap string string). induction ps as [|q ps IH]; intros m Hnd Hp; [set_solver|].
  apply NoDup_cons in Hnd as [Hq Hnd]. simpl. apply elem_of_cons in Hp as [->|Hp]; [|by apply IH].
  rewrite Hskip by done. apply lookup_insert_eq.
Qed.

Section wiring.
Context {E K : Type} `{Engine E} `{Engine K} `{Codec Entry} `{Codec (gmap string bytes)}
  `{Codec SnapshotMeta}.

Lemma NewNode_fields nid ps o (e : E) (machine : StateMachine K) store addr n :
  NewNode nid ps o e machine store addr = Ok n →
  n_id n = nid ∧ peers n = ps ∧ opts n = o ∧ role n = Follower ∧ selfClientAddr n = addr ∧
  commitIndex n = lastApplied n.
Proof.
  unfold NewNode. destruct (OpenPersistentLog e); [|done].
  destruct (LoadLatest store) as [[[[snap meta]|]|] store']; [..|done].
  - destruct (Restore _ _ _) as [[]]; [done|]. by intros [= <-].
  - by intros [= <-].
Qed.

End wiring.

Section program.
Context {DB : Type} `{PebbleDB DB} `{PebbleProcess DB} `{Codec Entry}
  `{Codec (gmap string bytes)} `{Codec SnapshotMeta} {C : Type}.

Lemma options_of_ok c : typed c → required c → options_ok (options_of c).
Proof. by intros [] []. Qed.

(** C32: The node program.  A node that starts up is the one that the environment
    and the configuration file describe: it has a non-empty identity, a valid
    election interval and the configured options, it is a follower that knows
    exactly the configured peers in their order, its transport dials every peer
    with a unique identity at that peer's Raft address, and its log and its data
    are databases in different directories. *)
Theorem node_program_wiring env f dirs (r : running (DB := DB) (C := C)) :
  construct env f dirs = Ok r →
  let cfg := rn_config r in
  let n := rn_node r in
  Load env f = (None, cfg) ∧ n_id n = cfg_NodeID cfg ∧ cfg_NodeID cfg ≠ ""%string ∧
  opts n = options_of cfg ∧ options_ok (opts n) ∧ role n = Follower ∧
  peers n = peer_ids cfg ∧ selfClientAddr n = cfg_ClientAddr cfg ∧
  (NoDup (peer_ids cfg) → ∀ p, p ∈ cfg_Peers cfg →
    addrs (rn_transport r) !! ID p = Some (RaftAddr p)) ∧
  OpenPebble (Join (cfg_DataDir cfg) "raftlog") = Ok (rn_raft r) ∧
  OpenPebble (Join (cfg_DataDir cfg) "kvdata") = Ok (rn_kv r) ∧
  Join (cfg_DataDir cfg) "raftlog" ≠ Join (cfg_DataDir cfg) "kvdata".
Proof.
  unfold construct. pose proof (Load_fields env f) as Hty.
  destruct (Load env f) as [[err|] cfg] eqn:Hl; [done|]. simpl in Hty.
  destruct (os_MkdirAll _).1; [done|]. destruct (OpenPebble _) as [raft|] eqn:Hr; [|done].
  destruct (OpenPebble (Join _ "kvdata")) as [kv|] eqn:Hk; [|done].
  destruct (NewSnapshotStore _) as [snaps|]; [|done].
  destruct (NewNode _ _ _ _ _ _ _) as [n|] eqn:Hn; [|done]. intros [= <-]. simpl.
  apply NewNode_fields in Hn as (Hid & Hp & Ho & Hrole & Haddr & _).
  apply Load_ok in Hl as (c0 & _ & _ & _ & Hreq).
  destruct store_names_proper as (Hn1 & Hn2 & _).
  split_and!; try done; [apply Hreq | rewrite Ho; by apply options_of_ok
    | intros Hnd p; by apply peer_addrs_lookup | by intros Heq%Join_inj].
Qed.

End program.

(** ** Witness: the first node of docker-compose.yml *)

Import Gob Json.

(** Pebble replaced by the in-memory engine; every directory opens empty. *)
#[local] Instance mem_pebble : PebbleDB MemEngine := {
  db_Get d k := match eng_Get d k with
                | Ok v => Ok (v, None)
                | Err ErrNotFound => Err ErrPebbleNotFound
                | Err err => Err err
                end;
  db_Set k v o d := eng_Set k v {| Sync := true |} d;
  db_Delete k o d := eng_Delete k {| Sync := true |} d;
  db_Commit b o d := eng_Commit b {| Sync := true |} d;
  db_NewIter d lo hi := eng_NewIterator d lo hi
}.

#[local] Instance mem_process : PebbleProcess MemEngine := {
  db_Open _ := Ok mem_new;
  db_Close _ := None
}.

Definition compose_node : result (running (DB := MemEngine) (C := unit)) :=
  construct compose_env (mkFS ∅ []) (λ _, mkFS ∅ []).

Lemma node_program_wiring_witness :
  ∃ r, compose_node = Ok r ∧ peers (rn_node r) = ["node2"; "node3"]%string ∧
    options_ok (opts (rn_node r)) ∧
    addrs (rn_transport r) !! "node2"%string = Some "node2:8102"%string.
Proof.
  destruct compose_node as [r|] eqn:Hr; [|vm_compute in Hr; discriminate Hr].
  exists r. split; [reflexivity|].
  destruct (node_program_wiring compose_env (mkFS ∅ []) (λ _, mkFS ∅ []) r Hr)
    as (Hl & _ & _ & _ & Ho & _ & Hp & _ & Ha & _).
  rewrite compose_loads in Hl. injection Hl as Hcfg. rewrite <-Hcfg in Hp, Ha.
  split; [exact Hp|]. split; [exact Ho|].
  apply (Ha ltac:(apply (bool_decide_unpack _); vm_compute; exact I)
    (mkPeer "node2" "node2:8102" "node2:9102")). left.
Defined.

Example Join_cleans :
  Join "./data" "raftlog" = "data/raftlog"%string ∧ Join "/data/" "kvdata" = "/data/kvdata"%string ∧
  Join "a/../../b" "x" = "../b/x"%string ∧ Join "" "x" = "x"%string ∧ Join "/.." "x" = "/x"%string.
Proof. vm_compute. done. Qed.
