(* ===== verification/Benchmark.v ===== *)
(** * cmd/benchmark: the load generator and its report.

    [runner] is the state that the worker goroutines share.  A worker's iteration
    is split where its RPC blocks: [worker_begin] up to the call and
    [worker_reply] after it, so that a run of the program is a sequence of these
    steps of any workers.  Random draws, clock readings, new connections and the
    answers of the servers are arguments of the steps.  [float64] is the binary64
    format of the Standard Library's SpecFloat.  Printing the report and encoding
    it as JSON are not modelled. *)

From Stdlib Require Import Floats.SpecFloat.
From S2P Require Import Prelude GoStrings Server.

Module Bench.

(** ** Numbers and durations *)

Definition float64 : Set := spec_float.

Definition f64_of_int (z : Z) : float64 := binary_normalize 53 1024 z 0 false.
Definition f64_add (x y : float64) : float64 := SFadd 53 1024 x y.
Definition f64_div (x y : float64) : float64 := SFdiv 53 1024 x y.

(** [int64(f)]: truncation toward zero.  The result for a value out of range is
    left to the implementation; the one given here is amd64's. *)
Definition f64_to_int (f : float64) : Z :=
  match f with
  | S754_zero _ => 0
  | S754_finite s m e =>
      let a := if 0 <=? e then Z.pos m * 2 ^ e else Z.pos m / 2 ^ (- e) in
      let z := if s then - a else a in
      if (- i64_half <=? z) && (z <? i64_half) then z else - i64_half
  | _ => - i64_half
  end.

(** [time.Duration] counts nanoseconds. *)
Definition Second : Z := 1000000000.

Definition Seconds (d : Z) : float64 :=
  f64_add (f64_of_int (Z.quot d Second))
    (f64_div (f64_of_int (Z.rem d Second)) (f64_of_int Second)).
Definition Milliseconds (d : Z) : Z := Z.quot d 1000000.
Definition Microseconds (d : Z) : Z := Z.quot d 1000.

(** ** Configuration *)

Record config := mkConfig {
  endpoints_flag : string;
  duration : Z;
  warmup : Z;
  concurrency : Z;
  keySize : Z;
  valueSize : Z;
  writeRatio : float64;
  targetAllLeader : bool;
  jsonOut : string;
  linearizableReads : bool
}.

(** The defaults that [main] gives to the flags. *)
Definition default_config : config :=
  mkConfig "127.0.0.1:9101,127.0.0.1:9102,127.0.0.1:9103" (60 * Second) (5 * Second) 32 16 128
    (f64_of_int 1) true "" true.

(** The addresses that [main] passes on. *)
Definition split_endpoints (cfg : config) : list string :=
  (λ s, string_of (TrimSpace s)) <$> split_on ","%char (bytes_of (endpoints_flag cfg)).

(** ** The shared state *)

Record runner (C : Type) := mkRunner {
  cfg : config;
  endpoints : list string;
  conns : gmap string C;
  leaderAddr : string;
  totalReqs : Z;
  successReqs : Z;
  failedReqs : Z;
  perSecondWrites : gmap Z Z;
  writeLatenciesMicros : list Z;
  readLatenciesMicros : list Z;
  startTime : Z
}.
Arguments mkRunner {C}.
Arguments cfg {C} _.
Arguments endpoints {C} _.
Arguments conns {C} _.
Arguments leaderAddr {C} _.
Arguments totalReqs {C} _.
Arguments successReqs {C} _.
Arguments failedReqs {C} _.
Arguments perSecondWrites {C} _.
Arguments writeLatenciesMicros {C} _.
Arguments readLatenciesMicros {C} _.
Arguments startTime {C} _.

(** What the RPC of an iteration asks for. *)
Inductive request :=
  | PutReq (key : string) (value : bytes)
  | GetReq (key : string) (linearizable : bool).

Definition is_write (q : request) : bool :=
  match q with PutReq _ _ => true | GetReq _ _ => false end.

(** What comes back: the status and leader hint of the response, or an error. *)
Inductive reply :=
  | Answered (st : StatusCode) (hint : string)
  | CallFailed.

(** How an iteration of a worker counts. *)
Inductive outcome := Succeeded | Redirected | Failed | DialFailed.

#[export] Instance outcome_eq_dec : EqDecision outcome.
Proof. solve_decision. Defined.

(** A worker between its steps: at the head of its loop, waiting for an answer,
    or finished. *)
Inductive worker :=
  | Ready
  | Waiting (q : request)
  | Done.

Section ops.
Context {C : Type}.
Implicit Types (r : runner C).

Definition newRunner (c : config) (eps : list string) : runner C :=
  mkRunner c eps ∅ "" 0 0 0 ∅ [] [] 0.

Definition set_conns cs r : runner C :=
  mkRunner (cfg r) (endpoints r) cs (leaderAddr r) (totalReqs r) (successReqs r) (failedReqs r)
    (perSecondWrites r) (writeLatenciesMicros r) (readLatenciesMicros r) (startTime r).

Definition set_leader addr r : runner C :=
  mkRunner (cfg r) (endpoints r) (conns r) addr (totalReqs r) (successReqs r) (failedReqs r)
    (perSecondWrites r) (writeLatenciesMicros r) (readLatenciesMicros r) (startTime r).

(** The atomic counters. *)
Definition add_reqs total success failed r : runner C :=
  mkRunner (cfg r) (endpoints r) (conns r) (leaderAddr r) (i64 (totalReqs r + total))
    (i64 (successReqs r + success)) (i64 (failedReqs r + failed))
    (perSecondWrites r) (writeLatenciesMicros r) (readLatenciesMicros r) (startTime r).

Definition set_samples ps wl rl r : runner C :=
  mkRunner (cfg r) (endpoints r) (conns r) (leaderAddr r) (totalReqs r) (successReqs r)
    (failedReqs r) ps wl rl (startTime r).

(** [client]: the connection of an address, made by [grpc.NewClient] at first use. *)
Definition client (NewClient : string → result C) (addr : string) r : result C * runner C :=
  match conns r !! addr with
  | Some c => (Ok c, r)
  | None =>
      match NewClient addr with
      | Err err => (Err err, r)
      | Ok conn => (Ok conn, set_conns (<[addr := conn]> (conns r)) r)
      end
  end.

(** [currentTarget], with the number that [rnd.Intn] draws below its argument. *)
Definition currentTarget (draw : Z → Z) r : result string :=
  if targetAllLeader (cfg r) && negb (String.eqb (leaderAddr r) "") then Ok (leaderAddr r)
  else
    match endpoints r !! Z.to_nat (draw (Z.of_nat (length (endpoints r)))) with
    | Some addr => Ok addr
    | None => Err ErrPanic
    end.

Definition rememberLeader (addr : string) r : runner C :=
  if String.eqb addr "" then r else set_leader addr r.

(** [recordSuccess]; [since] is the time since the start when it is taken. *)
Definition recordSuccess (isWrite : bool) (latency since : Z) r : runner C :=
  let micros := Microseconds latency in
  let r := add_reqs 0 1 0 r in
  if isWrite then
    let sec := Z.quot (Milliseconds since) 1000 in
    let count := default 0 (perSecondWrites r !! sec) in
    set_samples (<[sec := i64 (count + 1)]> (perSecondWrites r))
      (writeLatenciesMicros r ++ [micros]) (readLatenciesMicros r) r
  else
    set_samples (perSecondWrites r) (writeLatenciesMicros r) (readLatenciesMicros r ++ [micros]) r.

End ops.

(** ** Keys *)

Definition hex_digit (z : Z) : byte := byte_of (if z <? 10 then 48 + z else 87 + z).

(** [fmt.Sprintf("%x", b)]. *)
Definition hex (b : bytes) : bytes :=
  flat_map (λ c, [hex_digit (byte_val c / 16); hex_digit (byte_val c mod 16)]) b.

(** [fmt.Sprintf("w%d-", workerID)]. *)
Definition worker_prefix (workerID : Z) : bytes :=
  "w"%char :: FormatUint workerID ++ ["-"%char].

(** [randomKey]; [read n] are the [n] bytes that [rnd.Read] draws.  A negative
    size is out of range for the slice expression. *)
Definition randomKey (read : nat → bytes) (size workerID : Z) : result bytes :=
  let prefix := worker_prefix workerID in
  if size <=? Z.of_nat (length prefix) then
    if size <? 0 then Err ErrPanic else Ok (take (Z.to_nat size) prefix)
  else
    let remaining := size - Z.of_nat (length prefix) in
    let b := read (Z.to_nat (Z.quot (remaining + 1) 2)) in
    Ok (take (Z.to_nat size) (prefix ++ hex b)).

(** ** Workers *)

Section worker.
Context {C : Type}.
Implicit Types (r : runner C).

(** An iteration up to its RPC, or the end of the worker.  [now] is the clock at
    the head of the loop, [draw] and [f] the results of [Intn] and [Float64]. *)
Definition worker_begin (NewClient : string → result C) (read : nat → bytes) (draw : Z → Z)
    (f : float64) (now workerID : Z) (value : bytes) r :
    result (worker * option outcome * runner C) :=
  if now <? startTime r + duration (cfg r) then
    let? key := randomKey read (keySize (cfg r)) workerID in
    let isWrite := SFltb f (writeRatio (cfg r)) in
    let? target := currentTarget draw r in
    match client NewClient target r with
    | (Err _, r) => Ok (Ready, Some DialFailed, add_reqs 0 0 1 r)
    | (Ok _, r) =>
        Ok (Waiting (if isWrite then PutReq (string_of key) value
                     else GetReq (string_of key) (linearizableReads (cfg r))), None, r)
    end
  else Ok (Done, None, r).

(** Whether the status of a response is the success of its request. *)
Definition status_ok (isWrite : bool) (st : StatusCode) : bool :=
  match st with OK => true | NOT_FOUND => negb isWrite | _ => false end.

(** The rest of the iteration, once the RPC returned. *)
Definition worker_reply (q : request) (rep : reply) (latency since : Z) r : outcome * runner C :=
  let '(opErr, leaderHint, r) :=
    match rep with
    | CallFailed => (true, "", r)
    | Answered st hint =>
        if status_ok (is_write q) st then (false, "", recordSuccess (is_write q) latency since r)
        else if decide (st = NOT_LEADER) then (true, hint, r)
        else (true, "", r)
    end in
  let r := add_reqs 1 0 0 r in
  if opErr then
    if negb (String.eqb leaderHint "") then (Redirected, rememberLeader leaderHint r)
    else (Failed, add_reqs 0 0 1 r)
  else (Succeeded, r).

End worker.

(** ** A run *)

(** The steps of the workers, each with what the program draws and is told. *)
Inductive event (C : Type) :=
  | Begin (w : Z) (NewClient : string → result C) (read : nat → bytes) (draw : Z → Z)
      (f : float64) (now : Z) (value : bytes)
  | Reply (w : Z) (rep : reply) (latency since : Z).
Arguments Begin {C}.
Arguments Reply {C}.

(** The workers, the shared state, and how the iterations so far counted. *)
Record bench (C : Type) := mkBench {
  workers : gmap Z worker;
  shared : runner C;
  outcomes : list outcome
}.
Arguments mkBench {C}.
Arguments workers {C} _.
Arguments shared {C} _.
Arguments outcomes {C} _.

Section run.
Context {C : Type}.
Implicit Types (b : bench C).

(** [run] starts [concurrency] workers at [startTime]. *)
Definition run_start (now : Z) (r : runner C) : bench C :=
  mkBench (list_to_map ((λ w, (w, Ready)) <$> seqZ 0 (concurrency (cfg r))))
    (mkRunner (cfg r) (endpoints r) (conns r) (leaderAddr r) (totalReqs r) (successReqs r)
       (failedReqs r) (perSecondWrites r) (writeLatenciesMicros r) (readLatenciesMicros r) now)
    [].

(** One step; an event that does not fit the state of its worker does nothing. *)
Definition bench_step (ev : event C) b : result (bench C) :=
  match ev with
  | Begin w NewClient read draw f now value =>
      match workers b !! w with
      | Some Ready =>
          let? step := worker_begin NewClient read draw f now w value (shared b) in
          Ok (mkBench (<[w := step.1.1]> (workers b)) step.2 (outcomes b ++ option_list step.1.2))
      | _ => Ok b
      end
  | Reply w rep latency since =>
      match workers b !! w with
      | Some (Waiting q) =>
          let '(o, r) := worker_reply q rep latency since (shared b) in
          Ok (mkBench (<[w := Ready]> (workers b)) r (outcomes b ++ [o]))
      | _ => Ok b
      end
  end.

Fixpoint bench_run (evs : list (event C)) b : result (bench C) :=
  match evs with
  | [] => Ok b
  | ev :: evs => let? next := bench_step ev b in bench_run evs next
  end.

(** [wg.Wait] returns once every worker is done. *)
Definition finished b : bool := forallb (λ p, match p.2 with Done => true | _ => false end)
  (map_to_list (workers b)).

End run.

(** ** The report *)

(** [sort.Slice] with the order of the numbers. *)
Definition sorted_copy (data : list Z) : list Z := merge_sort Z.le data.

Definition percentile (data : list Z) (p : Z) : Z :=
  match data with
  | [] => 0
  | _ =>
      let sorted := sorted_copy data in
      let len := Z.of_nat (length sorted) in
      let idx := Z.quot (i64 (p * len)) 100 in
      let idx := if len <=? idx then len - 1 else idx in
      nth (Z.to_nat idx) sorted 0
  end.

(** The configuration as the report repeats it. *)
Record ResultConfig := mkResultConfig {
  Endpoints : list string;
  DurationSeconds : float64;
  WarmupSeconds : float64;
  Concurrency : Z;
  KeySizeBytes : Z;
  ValueSizeBytes : Z;
  WriteRatio : float64;
  LinearizableReads : bool
}.

Record Result := mkResult {
  Config : ResultConfig;
  TotalRequests : Z;
  SuccessfulRequests : Z;
  FailedRequests : Z;
  SustainedWritesPerSec : float64;
  PeakWritesPerSec : float64;
  WriteLatencyP50Micros : Z;
  WriteLatencyP95Micros : Z;
  WriteLatencyP99Micros : Z;
  ReadLatencyP50Micros : Z;
  ReadLatencyP95Micros : Z;
  ReadLatencyP99Micros : Z;
  ErrorRate : float64;
  TargetAchieved : bool
}.

(** The variables of the loop over the seconds. *)
Record tally := mkTally { sustainedSum : Z; sustainedSeconds : Z; peak : Z }.

Definition tally_second (warmupSec totalSec : Z) (t : tally) (p : Z * Z) : tally :=
  let '(sec, count) := p in
  let peak := if peak t <? count then count else peak t in
  if (warmupSec <=? sec) && (sec <? totalSec)
  then mkTally (i64 (sustainedSum t + count)) (i64 (sustainedSeconds t + 1)) peak
  else mkTally (sustainedSum t) (sustainedSeconds t) peak.

Definition tally_all (warmupSec totalSec : Z) (order : list (Z * Z)) : tally :=
  foldl (tally_second warmupSec totalSec) (mkTally 0 0 0) order.

(** [buildResult]; [order] is the order in which the loop visits the entries of
    [perSecondWrites]. *)
Definition buildResult {C} (order : list (Z * Z)) (r : runner C) : Result :=
  let errorRate :=
    if 0 <? totalReqs r then f64_div (f64_of_int (failedReqs r)) (f64_of_int (totalReqs r))
    else S754_zero false in
  let t := tally_all (f64_to_int (Seconds (warmup (cfg r)))) (f64_to_int (Seconds (duration (cfg r))))
             order in
  let sustained :=
    if 0 <? sustainedSeconds t
    then f64_div (f64_of_int (sustainedSum t)) (f64_of_int (sustainedSeconds t))
    else S754_zero false in
  let wl := writeLatenciesMicros r in
  let rl := readLatenciesMicros r in
  let read p := if 0 <? Z.of_nat (length rl) then percentile rl p else 0 in
  let c := cfg r in
  let conf := mkResultConfig (endpoints r) (Seconds (duration c)) (Seconds (warmup c)) (concurrency c)
                (keySize c) (valueSize c) (writeRatio c) (linearizableReads c) in
  mkResult conf (totalReqs r) (successReqs r) (failedReqs r) sustained (f64_of_int (peak t))
    (percentile wl 50) (percentile wl 95) (percentile wl 99)
    (read 50) (read 95) (read 99) errorRate (SFleb (f64_of_int 12000) sustained).

(** ** Accounting *)

Definition count (o : outcome) (l : list outcome) : Z := Z.of_nat (length (filter (o =.) l)).

(** All writes of [perSecondWrites]. *)
Definition writes (m : gmap Z Z) : Z := map_fold (λ _ c acc, c + acc) 0 m.

Record accounts {C} (b : bench C) : Prop := {
  ac_total : totalReqs (shared b) =
    count Succeeded (outcomes b) + count Redirected (outcomes b) + count Failed (outcomes b);
  ac_success : successReqs (shared b) = count Succeeded (outcomes b);
  ac_failed : failedReqs (shared b) = count Failed (outcomes b) + count DialFailed (outcomes b);
  ac_samples : Z.of_nat (length (writeLatenciesMicros (shared b)) +
    length (readLatenciesMicros (shared b))) = count Succeeded (outcomes b);
  ac_writes : writes (perSecondWrites (shared b)) =
    Z.of_nat (length (writeLatenciesMicros (shared b)));
  ac_counts : map_Forall (λ _ c, 0 < c) (perSecondWrites (shared b))
}.

Lemma count_app o l l' : count o (l ++ l') = count o l + count o l'.
Proof. unfold count. rewrite filter_app, length_app. lia. Qed.

Lemma count_total l :
  count Succeeded l + count Redirected l + count Failed l + count DialFailed l =
    Z.of_nat (length l).
Proof.
  unfold count. induction l as [|o l IH]; [done|]. rewrite !filter_cons.
  destruct o; repeat case_decide; simplify_eq; simpl; lia.
Qed.

Lemma count_nonneg o l : 0 ≤ count o l.
Proof. unfold count. lia. Qed.

Lemma writes_delete m k c : m !! k = Some c → writes m = c + writes (delete k m).
Proof. intros Hk. unfold writes. rewrite (map_fold_delete_L _ _ k c m); [done|lia|done]. Qed.

Lemma writes_insert m k c :
  writes (<[k := c]> m) = c + writes (delete k m).
Proof.
  rewrite <-insert_delete_eq. unfold writes. rewrite map_fold_insert_L; [done|lia|].
  apply lookup_delete_eq.
Qed.

Lemma writes_nonneg m : map_Forall (λ _ c, 0 < c) m → 0 ≤ writes m.
Proof.
  unfold writes. intros Hm. revert Hm. apply (map_fold_weak_ind (λ s m, map_Forall (λ _ c, 0 < c) m → 0 ≤ s)).
  - done.
  - intros k c m' s Hk IH [Hc Hm]%map_Forall_insert; [|done]. specialize (IH Hm). lia.
Qed.

(** One more write in a second. *)
Lemma writes_count m k :
  map_Forall (λ _ c, 0 < c) m →
  let c := default 0 (m !! k) in
  0 ≤ c ≤ writes m ∧ writes (<[k := c + 1]> m) = writes m + 1.
Proof.
  intros Hm. simpl. pose proof (writes_nonneg (delete k m) (map_Forall_delete _ _ _ Hm)).
  rewrite writes_insert. destruct (m !! k) as [c|] eqn:Hk; simpl.
  - rewrite (writes_delete m k c Hk). pose proof (Hm k c Hk). simpl in *. lia.
  - rewrite delete_id in * by done. lia.
Qed.

Lemma count_one o o' : count o [o'] = if decide (o = o') then 1 else 0.
Proof. unfold count. rewrite filter_cons. by case_decide. Qed.

Section accounting.
Context {C : Type}.
Implicit Types (b : bench C) (r : runner C).

(** The counters that [accounts] compares are all there is to it. *)
Lemma accounts_ext (ws ws' : gmap Z worker) r r' os :
  totalReqs r' = totalReqs r → successReqs r' = successReqs r → failedReqs r' = failedReqs r →
  perSecondWrites r' = perSecondWrites r → writeLatenciesMicros r' = writeLatenciesMicros r →
  readLatenciesMicros r' = readLatenciesMicros r →
  accounts (mkBench ws r os) → accounts (mkBench ws' r' os).
Proof.
  intros Ht Hs Hf Hp Hw Hr Ha. destruct r, r'. simpl in *. subst. destruct Ha. by split.
Qed.

(** A finished iteration adds its outcome to the counters. *)
Lemma accounts_outcome (ws ws' : gmap Z worker) r os o total success failed :
  accounts (mkBench ws r os) → o ≠ Succeeded → Z.of_nat (length os) < i64_half - 1 →
  total = (if decide (o = DialFailed) then 0 else 1) → success = 0 →
  failed = (if decide (o = Redirected) then 0 else 1) →
  accounts (mkBench ws' (add_reqs total success failed r) (os ++ [o])).
Proof.
  intros [Ht Hs Hf Hsa Hw Hc] Ho Hlen -> -> ->. simpl in *. pose proof (count_total os).
  pose proof (count_nonneg Succeeded os). pose proof (count_nonneg Redirected os).
  pose proof (count_nonneg Failed os). pose proof (count_nonneg DialFailed os).
  unfold i64_half in *. split; simpl; rewrite ?count_app, ?count_one; try done;
    rewrite ?i64_small by (unfold is_i64, i64_half; destruct o; simpl; lia); destruct o; simpl; try done; lia.
Qed.

Lemma accounts_success (ws ws' : gmap Z worker) r os isWrite latency since :
  accounts (mkBench ws r os) → Z.of_nat (length os) < i64_half - 1 →
  accounts (mkBench ws' (add_reqs 1 0 0 (recordSuccess isWrite latency since r)) (os ++ [Succeeded])).
Proof.
  intros [Ht Hs Hf Hsa Hw Hc] Hlen. simpl in *. pose proof (count_total os).
  pose proof (count_nonneg Redirected os). pose proof (count_nonneg Failed os).
  pose proof (count_nonneg DialFailed os). unfold i64_half in Hlen.
  set (sec := Z.quot (Milliseconds since) 1000).
  pose proof (writes_count (perSecondWrites r) sec Hc) as [Hcount Hins]. simpl in *.
  unfold recordSuccess. fold sec. destruct isWrite;
    (split; simpl; rewrite ?count_app, ?count_one, ?length_app; simpl;
     rewrite ?i64_add_l, ?i64_small by (unfold is_i64, i64_half; lia); try lia; try done).
  apply map_Forall_insert_2; [lia|done].
Qed.

Lemma add_reqs_add t1 s1 f1 t2 s2 f2 r :
  add_reqs t1 s1 f1 (add_reqs t2 s2 f2 r) = add_reqs (t2 + t1) (s2 + s1) (f2 + f1) r.
Proof. unfold add_reqs. simpl. by rewrite !i64_add_l, !Z.add_assoc. Qed.

Lemma accounts_reply (ws ws' : gmap Z worker) r os q rep latency since o r' :
  accounts (mkBench ws r os) → Z.of_nat (length os) < i64_half - 1 →
  worker_reply q rep latency since r = (o, r') → accounts (mkBench ws' r' (os ++ [o])).
Proof.
  intros Ha Hlen. unfold worker_reply.
  assert (accounts (mkBench ws' (add_reqs 0 0 1 (add_reqs 1 0 0 r)) (os ++ [Failed]))) as Hfail.
  { rewrite add_reqs_add. by eapply accounts_outcome. }
  destruct rep as [st hint|]; [|by intros [= <- <-]].
  destruct (status_ok _ _); [intros [= <- <-]; by eapply accounts_success|].
  case_decide; [|by intros [= <- <-]]. destruct (String.eqb hint "") eqn:Hh; [by intros [= <- <-]|].
  intros [= <- <-]. unfold rememberLeader. rewrite Hh.
  eapply (accounts_ext ws' ws' (add_reqs 1 0 0 r)); [done..|]. by eapply accounts_outcome.
Qed.

Lemma accounts_begin (ws ws' : gmap Z worker) r os NewClient read draw f now w value st o r' :
  accounts (mkBench ws r os) → Z.of_nat (length os) < i64_half - 1 →
  worker_begin NewClient read draw f now w value r = Ok (st, o, r') →
  accounts (mkBench ws' r' (os ++ option_list o)).
Proof.
  intros Ha Hlen. unfold worker_begin.
  destruct (now <? _); [|intros [= <- <- <-]; simpl; rewrite app_nil_r; by eapply (accounts_ext ws ws' r)].
  destruct (randomKey _ _ _); [|done]. destruct (currentTarget _ _) as [t|]; [|done].
  unfold client. destruct (conns r !! t); [|destruct (NewClient t)]; intros [= <- <- <-]; simpl;
    rewrite ?app_nil_r; first [by eapply (accounts_ext ws ws' r) | by eapply accounts_outcome].
Qed.

Lemma bench_step_accounts ev b b' :
  bench_step ev b = Ok b' → accounts b → Z.of_nat (length (outcomes b)) < i64_half - 1 →
  accounts b' ∧ (length (outcomes b') ≤ S (length (outcomes b)))%nat.
Proof.
  intros Hs Ha Hlen. destruct b as [ws r os]. destruct ev as [w d rd dr f now v|w rep l si]; simpl in Hs.
  - destruct (ws !! w) as [[]|]; try (injection Hs as <-; split; [done|simpl; lia]).
    destruct (worker_begin _ _ _ _ _ _ _ _) as [[[st o] r']|] eqn:Hb; [|done].
    injection Hs as <-. split; [by eapply accounts_begin|].
    simpl. rewrite length_app. destruct o; simpl; lia.
  - destruct (ws !! w) as [[|q|]|]; try (injection Hs as <-; split; [done|simpl; lia]).
    destruct (worker_reply _ _ _ _ _) as [o r'] eqn:Hr. injection Hs as <-.
    split; [by eapply accounts_reply|]. simpl. rewrite length_app. simpl. lia.
Qed.

Lemma bench_run_accounts evs b b' :
  bench_run evs b = Ok b' → accounts b →
  Z.of_nat (length (outcomes b) + length evs) < i64_half → accounts b'.
Proof.
  revert b. induction evs as [|ev evs IH]; intros b Hr Ha Hlen; simpl in *; [congruence|].
  destruct (bench_step ev b) as [b1|] eqn:Hs; [|done].
  destruct (bench_step_accounts ev b b1 Hs Ha) as [Ha1 Hl]; [lia|]. apply (IH b1); [done..|lia].
Qed.

(** C40: The counters of the load generator agree.  After any interleaving of its
    workers, with any servers, answers and failures, every answered call is
    counted once, as a success, a redirect or a failure; the failures also count
    the calls that had no connection; each success has one latency sample, and
    the writes per second add up to the write samples. *)
Theorem benchmark_accounting c eps now evs (b : bench C) :
  bench_run evs (run_start now (newRunner c eps)) = Ok b → Z.of_nat (length evs) < i64_half →
  let n o := count o (outcomes b) in
  totalReqs (shared b) = n Succeeded + n Redirected + n Failed ∧
  successReqs (shared b) = n Succeeded ∧
  failedReqs (shared b) = n Failed + n DialFailed ∧
  Z.of_nat (length (writeLatenciesMicros (shared b)) + length (readLatenciesMicros (shared b))) =
    n Succeeded ∧
  writes (perSecondWrites (shared b)) = Z.of_nat (length (writeLatenciesMicros (shared b))).
Proof.
  intros Hr Hlen. apply bench_run_accounts in Hr as []; [done| |done]. by split.
Qed.

End accounting.

(** ** Percentiles *)

(** The position that the code reads; the clamping is not needed below 100. *)
Lemma percentile_position (data : list Z) p :
  data ≠ [] → 0 ≤ p < 100 → p * Z.of_nat (length data) < i64_half →
  ∃ k, merge_sort Z.le data !! k = Some (percentile data p) ∧
    100 * Z.of_nat k ≤ p * Z.of_nat (length data) < 100 * (Z.of_nat k + 1).
Proof.
  intros Hne Hp Hover. destruct data as [|x0 rest] eqn:Hdata; [done|].
  unfold percentile, sorted_copy. rewrite <-Hdata in *.
  assert (length (merge_sort Z.le data) = length data) as Hl
    by (apply Permutation_length, merge_sort_Permutation).
  rewrite Hl. set (n := Z.of_nat (length data)) in *.
  assert (0 < n) by (unfold n; rewrite Hdata; simpl; lia).
  rewrite i64_small by (unfold is_i64, i64_half in *; nia). rewrite Z.quot_div_nonneg by nia.
  set (k := p * n / 100).
  assert (0 ≤ k < n ∧ 100 * k ≤ p * n < 100 * (k + 1)) as Hk
    by (unfold k; Z.div_mod_to_equations; nia).
  destruct (Z.leb_spec n k); [lia|]. exists (Z.to_nat k).
  destruct (lookup_lt_is_Some_2 (merge_sort Z.le data) (Z.to_nat k)) as [m Hm]; [lia|].
  split; [|lia]. by rewrite (nth_lookup_Some _ _ _ m Hm).
Qed.

(** A reported percentile is a latency that was measured; at most [p] per cent
    of the samples are below it, and more than [p] per cent are not above it. *)
Theorem percentile_spec (data : list Z) p :
  data ≠ [] → 0 ≤ p < 100 → p * Z.of_nat (length data) < i64_half →
  percentile data p ∈ data ∧
  100 * many (λ x, x < percentile data p) data ≤ p * Z.of_nat (length data) <
    100 * many (λ x, x ≤ percentile data p) data.
Proof.
  intros Hne Hp Hover. destruct (percentile_position data p Hne Hp Hover) as (k & Hm & Hk).
  remember (percentile data p) as m eqn:Heq. clear Heq.
  apply merge_sort_split in Hm as (lo & hi & Hperm & Hlo & Hhi & Hlen).
  split; [rewrite Hperm; set_solver|]. rewrite !(many_perm _ _ _ Hperm), !many_app.
  rewrite (many_all (λ x, x ≤ m) lo) by done. rewrite (many_none (λ x, x < m) (m :: hi))
    by (intros x [->|Hx%Hhi]%elem_of_cons; lia).
  pose proof (many_le (λ x, x < m) lo). pose proof (many_le (λ x, x ≤ m) hi).
  change (m :: hi) with ([m] ++ hi). rewrite many_app, (many_all (λ x, x ≤ m) [m]) by
    (intros x ->%list_elem_of_singleton; lia). simpl length. lia.
Qed.

(** ** Keys *)

Lemma length_hex b : length (hex b) = (2 * length b)%nat.
Proof. induction b as [|c b IH]; [done|]. simpl in *. lia. Qed.

Lemma worker_prefix_inj w w' s s' :
  is_u64 w → is_u64 w' → worker_prefix w ++ s = worker_prefix w' ++ s' → w = w'.
Proof.
  intros Hw Hw' Heq. unfold worker_prefix in Heq. simpl in Heq. injection Heq as Heq.
  rewrite <-!app_assoc in Heq. simpl in Heq.
  assert (∀ z, "-"%char ∉ FormatUint z) as Hno by (intros z Hin%format_digits_are_digits; done).
  apply (f_equal (split_two "-"%char)) in Heq. rewrite !split_two_skip in Heq by done.
  injection Heq as Hf _. apply (f_equal ParseUint) in Hf.
  rewrite !ParseUint_FormatUint in Hf by done. congruence.
Qed.

Lemma randomKey_Ok read size w :
  (∀ n, length (read n) = n) → 0 ≤ size →
  ∃ key, randomKey read size w = Ok key ∧ Z.of_nat (length key) = size ∧
    (Z.of_nat (length (worker_prefix w)) ≤ size → ∃ s, key = worker_prefix w ++ s).
Proof.
  intros Hread Hs. unfold randomKey. set (p := worker_prefix w).
  destruct (Z.leb_spec size (Z.of_nat (length p))).
  - destruct (Z.ltb_spec size 0); [lia|]. eexists. split_and!; [done|rewrite length_take; lia|].
    intros. exists []. rewrite take_ge, app_nil_r by lia. done.
  - eexists. split_and!; [done| |].
    + rewrite length_take, length_app, length_hex, Hread. Z.to_euclidean_division_equations. lia.
    + intros _. rewrite take_app_ge by lia. by eexists.
Qed.

(** A generated key has exactly the requested size, and the keys of different
    workers differ whenever the size has room for their prefixes. *)
Theorem randomKey_spec read read' size w w' :
  (∀ n, length (read n) = n) → (∀ n, length (read' n) = n) →
  0 ≤ size → is_u64 w → is_u64 w' →
  (∃ key, randomKey read size w = Ok key ∧ Z.of_nat (length key) = size) ∧
  (w ≠ w' → Z.of_nat (length (worker_prefix w)) ≤ size →
   Z.of_nat (length (worker_prefix w')) ≤ size →
   randomKey read size w ≠ randomKey read' size w').
Proof.
  intros Hr Hr' Hs Hw Hw'. destruct (randomKey_Ok read size w Hr Hs) as (key & Hk & Hl & Hp).
  split; [eauto|]. intros Hne Hfit Hfit' Heq.
  destruct (randomKey_Ok read' size w' Hr' Hs) as (key' & Hk' & _ & Hp').
  destruct (Hp Hfit) as [s ->]. destruct (Hp' Hfit') as [s' ->].
  apply Hne, (worker_prefix_inj w w' s s'); [done..|congruence].
Qed.

(** A smaller size cuts the prefix: workers 1 and 10 then write the same key. *)
Lemma short_keys_collide read : randomKey read 2 1 = randomKey read 2 10.
Proof. reflexivity. Qed.

(** ** The report *)

Lemma tally_second_comm warm total t p q :
  tally_second warm total (tally_second warm total t p) q =
  tally_second warm total (tally_second warm total t q) p.
Proof.
  destruct t as [sum secs pk], p as [s1 c1], q as [s2 c2]. unfold tally_second. simpl.
  destruct (_ && (s1 <? total)), (_ && (s2 <? total)); simpl; f_equal; rewrite ?i64_add_l;
    try (f_equal; lia); repeat case_Z; lia.
Qed.

Lemma tally_perm warm total l l' t :
  l ≡ₚ l' → foldl (tally_second warm total) t l = foldl (tally_second warm total) t l'.
Proof.
  intros Hp. revert t. induction Hp as [|p l l' _ IH|p q l|l1 l2 l3 _ IH1 _ IH2]; intros t; simpl.
  - done.
  - apply IH.
  - by rewrite tally_second_comm.
  - by rewrite IH1.
Qed.

(** The report does not depend on the order in which Go visits the map. *)
Lemma buildResult_order {C} (r : runner C) order order' :
  order ≡ₚ order' → buildResult order r = buildResult order' r.
Proof. intros Hp. unfold buildResult, tally_all. by rewrite (tally_perm _ _ _ _ _ Hp). Qed.

(** ** Examples *)

(** Two workers; the first is redirected and then writes twice, the second has no
    connection, then a call that fails. *)
Definition demo_begin (w : Z) (dial : bool) : event unit :=
  Begin w (λ _, if dial then Ok tt else Err (ErrTransport "")) (λ n, replicate n "x"%char) (λ _, 0)
    (f64_of_int 0) 1 [].

Definition demo_events : list (event unit) :=
  [demo_begin 1 false; demo_begin 0 true;
   Reply 0 (Answered NOT_LEADER "127.0.0.1:9102") 500000 2000000;
   demo_begin 0 true; demo_begin 1 true; Reply 0 (Answered OK "") 900000 1500000000;
   Reply 1 CallFailed 2000000000 2100000000; demo_begin 0 true;
   Reply 0 (Answered OK "") 700000 2200000000].

Definition demo_runner : runner unit := newRunner default_config (split_endpoints default_config).

Example demo_run :
  match bench_run demo_events (run_start 0 demo_runner) with
  | Ok b => (totalReqs (shared b), successReqs (shared b), failedReqs (shared b)) = (4, 2, 2) ∧
      writeLatenciesMicros (shared b) = [900; 700] ∧
      perSecondWrites (shared b) = {[ 1 := 1; 2 := 1 ]} ∧
      leaderAddr (shared b) = "127.0.0.1:9102"
  | Err _ => False
  end.
Proof. vm_compute. auto. Qed.

(** Calls without a connection are failures but not requests: the error rate of
    this run is 3. *)
Example error_rate_above_one :
  match bench_run [demo_begin 0 false; demo_begin 0 false; demo_begin 0 true;
                   Reply 0 CallFailed 1000 2000] (run_start 0 demo_runner) with
  | Ok b => ErrorRate (buildResult [] (shared b)) = f64_of_int 3
  | Err _ => False
  end.
Proof. vm_compute. reflexivity. Qed.

(** A redirect without a hint is counted as a failure. *)
Example redirect_without_hint_fails q latency since (r : runner unit) :
  (worker_reply q (Answered NOT_LEADER "") latency since r).1 = Failed.
Proof. by destruct q. Qed.

(** Seconds without a write are no part of the average: twelve thousand writes in
    one second and none in the other 54 seconds after the warm-up reach the target
    of twelve thousand sustained writes per second. *)
Example idle_seconds_not_averaged :
  let res := buildResult [(10, 12000)] (set_samples {[ 10 := 12000 ]} [] [] demo_runner) in
  SustainedWritesPerSec res = f64_of_int 12000 ∧ TargetAchieved res = true.
Proof. vm_compute. auto. Qed.

Lemma benchmark_accounting_witness :
  ∃ b : bench unit, bench_run demo_events (run_start 0 demo_runner) = Ok b ∧
    totalReqs (shared b) = count Succeeded (outcomes b) + count Redirected (outcomes b) +
      count Failed (outcomes b) ∧ count Succeeded (outcomes b) = 2.
Proof.
  destruct (bench_run demo_events (run_start 0 demo_runner)) as [b|] eqn:Hr;
    [|vm_compute in Hr; discriminate].
  exists b. split; [reflexivity|].
  destruct (benchmark_accounting default_config (split_endpoints default_config) 0 demo_events b Hr)
    as (Ht & Hs & _); [vm_compute; reflexivity|].
  split; [exact Ht|]. rewrite <-Hs. vm_compute in Hr. injection Hr as <-. reflexivity.
Defined.

Lemma percentile_spec_witness :
  percentile [900; 100; 700] 50 = 700 ∧
  100 * many (λ x, x < 700) [900; 100; 700] ≤ 150 < 100 * many (λ x, x ≤ 700) [900; 100; 700].
Proof.
  split; [vm_compute; reflexivity|].
  destruct (percentile_spec [900; 100; 700] 50) as [_ Hp];
    [discriminate|lia|vm_compute; reflexivity|].
  change (percentile [900; 100; 700] 50) with 700 in Hp. simpl length in Hp. lia.
Defined.

Lemma randomKey_spec_witness :
  randomKey (λ n, replicate n "x"%char) 16 1 ≠ randomKey (λ n, replicate n "x"%char) 16 10.
Proof.
  apply (randomKey_spec (λ n, replicate n "x"%char) (λ n, replicate n "x"%char) 16 1 10);
    try (intros n; apply length_replicate); try (vm_compute; intuition discriminate); lia.
Defined.

End Bench.
